(* ===== verification/_CoqProject ===== *)
-Q . S2P
Prelude.v
Effects.v
Threads.v
Crypto.v
MemoryProtection.v
RootState.v
AntiDos.v
TailPadding.v
MessageCipher.v
Evolution.v
Session.v
StdFs.v
VolumeLayout.v
VirtualVolume.v
ClockAlign.v
VolumeProofs.v
VolumeBlocks.v
VolumeAlloc.v
VolumeOpen.v
VolumeLifecycle.v
Durability.v
DiskWipe.v
VolumeCrash.v
VolumePower.v
VolumeTotal.v
Kernel.v
KernelProofs.v
InitModule.v
KernelPower.v
ConstantFlow.v
Ffi.v
Exports.v
Locks.v
SysCalls.v
Concurrency.v
Replies.v
Interleavings.v
VaultThreads.v
VaultRaces.v
Linear.v
VaultLinear.v
Handouts.v
UnitTests.v
VaultTests.v
