(* ===== verification/Prelude.v ===== *)
(** * A verification of the secure_core kernel

    The program is the Rust crate under [src/secure_core/src/]: a messaging kernel that keeps
    one 256-bit root key per epoch, derives every message key from it, evolves the root with
    a post-quantum key exchange, stores records in an encrypted vault file, and offers cover
    traffic, a purge and a clock-skew estimator to a Swift application through exported C
    functions.

    ** Parts of the program and the files that model them

    - [Prelude]: bytes and lists indexed by integers, little-endian encodings, counting; the
      tactics [len_lia] and the hint database [kernel].
    - [Effects]: the effects of the Rust code.  [M S A] is a computation over the mutable
      statics [S] that returns, panics or exits the process; [chk_u] and [chk_i] are machine
      arithmetic, which panics on overflow in a checked build and wraps in a release build
      ([BuildProfile], quantified over in every theorem); [result] is [std::io::Result] and
      [x <-? m; k] the operator [?]; [wp] is a total weakest precondition.
    - [Threads]: programs over mutexes and shared state, pools of threads that interleave at
      every lock, unlock and access, poisoning of a mutex whose holder panics; deadlock
      freedom from an order on the mutexes, termination, and a rely/guarantee logic.
    - [Crypto]: the third-party crates as the class [Primitives], and what the kernel relies
      on as the class [PrimitivesOk]; [toy] is a concrete instance that satisfies it.
    - [MemoryProtection]: [memory_protection.rs], the zeroizing buffer and the emergency exit.
    - [RootState]: [root_state.rs] and the message counter of [message_cipher.rs].
    - [AntiDos]: [anti_dos.rs], bounded recovery of lost epochs.
    - [TailPadding]: [tail_padding.rs].
    - [MessageCipher]: [message_cipher.rs], keys, nonces, associated data, sealing, opening,
      and opening with automatic commit of a pending evolution.
    - [Evolution]: [evolution.rs], the three-phase key evolution.
    - [Session]: properties of sequences of calls over these modules.
    - [StdFs]: the part of [std::fs] and [libc] the code calls, as an executable file system
      with timestamps and a fault schedule that may fail any call; a file remembers the
      contents it had since it was last synchronized.
    - [VolumeLayout], [VirtualVolume]: [virtual_volume.rs], layout and operations; proved in
      [VolumeProofs] (invariant and rules), [VolumeBlocks] (block I/O), [VolumeAlloc]
      (allocator), [VolumeOpen] (opening and creating), [VolumeLifecycle] (sequences of
      calls, persistence, timestamps), [VolumeCrash] (death of the process in any call),
      [VolumePower] (loss of power in any call) and [VolumeTotal] (every operation returns
      from every well-formed volume).  [Durability] is the loss of power itself: what is
      left of a file, and what the operations have flushed.
    - [ClockAlign]: [clock_align.rs], ring buffer and median.
    - [DiskWipe]: [disk_wipe.rs], the purge.
    - [Kernel], [KernelProofs]: the statics of [lib.rs] and the exported vault functions;
      [KernelPower]: what they promise when the power fails.
    - [InitModule]: [init_module.rs] and its exported functions.
    - [ConstantFlow]: [constant_flow.rs] as a labelled transition system of the timer threads,
      the application's threads and the callbacks.
    - [Ffi]: the remaining exported functions of [lib.rs].
    - [Exports]: the exported functions as one type of calls, their sequential execution
      [exec], and the invariant [kernel_ok] of all statics.
    - [Locks]: the same calls at the granularity of the mutexes of [root_state.rs],
      [evolution.rs], [init_module.rs] and [lib.rs]; the program of a function carries the
      prefix [mt_].  [SysCalls]: all calls, opening and purging included, with every system
      call of the vault a step of its own (prefix [sc_]).  [Concurrency] proves what each
      program keeps while others run, [Replies] what it can answer; [Interleavings] and [VaultThreads] state what holds of
      all interleavings, [VaultRaces] what two of them do to the file.  [Linear] and
      [VaultLinear] show that calls linearize, at the mutexes and at the system calls;
      [Handouts] that what they hand out is handed out once.
    - [UnitTests], [VaultTests]: the crate's test functions as programs.

    Each Rust function is one definition with the name it has in the source, its early
    returns and its statement order kept, over a record of the statics it touches; modules
    that call each other are composed with lenses ([zoom]).  An exported function whose name
    is already taken by the function it wraps carries the prefix [ffi_].

    ** What the theorems show

    - Messages: sealing and opening are inverse, an opened message determines its key and
      metadata or exhibits a collision of the cipher, padding is a round trip and stripping accepts exactly padded forms.
    - Sessions: called from one thread, no pair of epoch and sequence number is issued
      twice; evolution, automatic commit and loss recovery bring two devices to the same root
      and epoch; every branch of the operations on the root, the last epoch included.
    - Vault: for every fault schedule the volume keeps its invariant and never panics, writes
      touch one block only, opening reports the first of its checks that fails, the allocator
      refines a finite set of block numbers; on a healthy
      file system data, bitmap and counts survive closing and reopening, and a wrong key is
      refused.
    - Death of the process: a volume whose process died in any call, at any system call and
      within any write, reopens as one that differs from the abstract vault in that call
      only; what remains of an interrupted creation, and when it locks the vault for good.
    - Loss of power: what is not flushed may be any mix of the bytes since the last flush; the
      vault follows a specification that keeps those states and drops them at every flush.
      An allocation or release that reported success loses nothing; neither does a block
      that was securely erased nor a purged file come back; a block that was only written,
      the identity stamp among them, may be lost.
    - Purge: both passes terminate, leave zeros, then an empty file, and the process ends.
    - Trust root, identity stamp and canaries: every branch of the initialisation, and round
      trips through the vault.
    - Cover traffic: packets have one size and one rate per thread in every interleaving of
      timer threads, application threads and callbacks; stop is immediate; calls return as
      long as no callback starts or stops the engine.  A callback that stops it blocks for
      ever, a restart or two starts can leave two threads, and a stop inside a start leaves
      the engine up and silent.
    - Clock: the skew is the median of the last sixteen samples and follows the majority, for
      counters less than 2^62 apart; extreme samples defeat it.
    - Boundary: round trip of messages with lengths and buffers, and where the 32-bit length
      goes wrong.
    - The kernel as a whole: any sequence of exported calls other than those of the cover
      traffic, under any I/O failures, runs without a panic and keeps the statics well formed.
    - Threads: the same calls made concurrently never deadlock, keep the statics well formed
      and answer from a table that lists every call's replies, with every system call of the
      vault a step of its own; only a purge ends the process.  Steady calls on the vault, the
      counter, the epoch and the messages linearize at that granularity, so numbers and blocks
      are handed out once; the epoch never goes back.  With one thread the programs of [Locks]
      and [SysCalls] are the sequential functions.  Five races are exhibited: concurrent recovery
      overshoots, an automatic commit can commit an unproved key, a sequence number can
      repeat around a commit, two openings can lose the vault, and a write can survive a
      purge.
    - Tests: every test of the crate passes, on every well-formed state and every file system
      without I/O errors, unless a hash or cipher collides on its inputs.

    ** Bounds and fuel

    Loops over index ranges are structural on the list of indices; the recovery loop is
    structural on its iteration count, which the code caps at 100000.  Only the overwrite
    passes take fuel, one step per 4096 bytes plus one: running out of it is a panic, and
    [DiskWipe] proves there is none.  Integers are [Z] with the width checked or wrapped
    where the source computes.

    ** What is not modelled

    The cryptographic crates beyond their documented behaviour, and no secrecy claim is made.
    The modules are first modelled sequentially, one call after the other, where a panic ends
    the run that is considered; the code does not hold its locks for whole calls, so what
    several threads can do is modelled separately, in [Locks] and [SysCalls].  In [SysCalls]
    a step is one lock operation, one system call or one access to a static; [Locks] makes
    the work of the vault under its mutex one step and leaves out the calls that open or
    purge a vault, which use the file system outside any mutex.  The theorems on
    linearization are about calls that take effect at one point; at the system calls they
    leave out the padding too, which draws from the generator outside the vault's mutex.  In the cover traffic a step is one load, store, short critical section, spawn
    or sleep of one thread; callbacks do not unwind.  A process may die
    between any two system calls and within a write, and the power may fail there.  A loss
    of power leaves for every byte of a file one of those it had since the file was last
    synchronized, and keeps the names of files; one while a vault is being created is not
    treated.
    A panic that reaches the C boundary is undefined there and is not followed further.
    Zeroizing of local variables, which no result depends on, is omitted; the validity of
    pointers and lengths passed by the application is its obligation.  The file system has no
    links, permissions or concurrent writers, and its clock is arbitrary. *)
From stdpp Require Export base numbers list list_numbers strings relations.
From Stdlib Require Export Lia ZArith.
Global Open Scope Z_scope.

(** * Byte strings and indices *)

(** Byte strings are lists of [Z]; [lenZ] is the [usize] length of a slice. *)
Abbreviation bytes := (list Z).
Definition lenZ {A} (l : list A) : Z := Z.of_nat (length l).
Arguments lenZ : simpl never.
Arguments Z.to_nat : simpl never.
Arguments Z.of_nat : simpl never.
Arguments Z.mul : simpl never.
Arguments Z.add : simpl never.
Arguments Z.sub : simpl never.
Arguments Z.pow : simpl never.
Arguments Z.modulo : simpl never.
Arguments Z.div : simpl never.
Arguments Z.shiftl : simpl never.
Arguments Z.shiftr : simpl never.
Arguments Z.land : simpl never.
Arguments Z.lor : simpl never.

(** [&l[a..b]], [&l[..n]] and [&l[n..]]. *)
Definition takeZ {A} (n : Z) (l : list A) : list A := take (Z.to_nat n) l.
Definition dropZ {A} (n : Z) (l : list A) : list A := drop (Z.to_nat n) l.
Definition slice {A} (a b : Z) (l : list A) : list A := takeZ (b - a) (dropZ a l).
(** [vec![x; n]]. *)
Definition repZ {A} (n : Z) (x : A) : list A := replicate (Z.to_nat n) x.
(** [l\[i\]], [None] where Rust panics. *)
Definition nthZ {A} (l : list A) (i : Z) : option A :=
  if i <? 0 then None else l !! Z.to_nat i.
(** [l\[i\] = x]. *)
Definition setZ {A} (l : list A) (i : Z) (x : A) : list A := <[Z.to_nat i := x]> l.
(** [l\[off .. off + data.len()\].copy_from_slice(data)]. *)
Definition splice {A} (off : Z) (data l : list A) : list A :=
  takeZ off l ++ data ++ dropZ (off + lenZ data) l.

Definition is_byte (b : Z) : Prop := 0 <= b < 256.
Definition is_bytes (l : bytes) : Prop := Forall is_byte l.
Definition is_u (w n : Z) : Prop := 0 <= n < 2 ^ w.

Create Rewrite HintDb len.
Lemma lenZ_app {A} (l k : list A) : lenZ (l ++ k) = lenZ l + lenZ k.
Proof. unfold lenZ. rewrite length_app. lia. Qed.
Lemma lenZ_cons {A} (x : A) l : lenZ (x :: l) = 1 + lenZ l.
Proof. unfold lenZ. simpl. lia. Qed.
Lemma lenZ_nil {A} : lenZ (@nil A) = 0.
Proof. reflexivity. Qed.
Lemma lenZ_nonneg {A} (l : list A) : 0 <= lenZ l.
Proof. unfold lenZ. lia. Qed.
Lemma lenZ_takeZ {A} n (l : list A) : lenZ (takeZ n l) = Z.min (Z.max 0 n) (lenZ l).
Proof. unfold lenZ, takeZ. rewrite length_take. lia. Qed.
Lemma lenZ_dropZ {A} n (l : list A) : lenZ (dropZ n l) = Z.max 0 (lenZ l - Z.max 0 n).
Proof. unfold lenZ, dropZ. rewrite length_drop. lia. Qed.
Lemma lenZ_repZ {A} n (x : A) : lenZ (repZ n x) = Z.max 0 n.
Proof. unfold lenZ, repZ. rewrite length_replicate. lia. Qed.
Lemma lenZ_setZ {A} (l : list A) i x : lenZ (setZ l i x) = lenZ l.
Proof. unfold lenZ, setZ. by rewrite length_insert. Qed.
Lemma lenZ_fmap {A B} (f : A -> B) l : lenZ (f <$> l) = lenZ l.
Proof. unfold lenZ. by rewrite length_fmap. Qed.
#[export] Hint Rewrite @lenZ_app @lenZ_cons @lenZ_nil @lenZ_takeZ @lenZ_dropZ @lenZ_repZ
  @lenZ_setZ @lenZ_fmap : len.
Lemma lenZ_slice {A} a b (l : list A) :
  0 <= a <= b -> b <= lenZ l -> lenZ (slice a b l) = b - a.
Proof. intros. unfold slice. autorewrite with len. lia. Qed.
Lemma lenZ_0_nil {A} (l : list A) : lenZ l = 0 -> l = [].
Proof. destruct l; [done|]. rewrite lenZ_cons. pose proof (lenZ_nonneg l). lia. Qed.

(** [len_lia] normalises every [lenZ] and calls [lia]. *)
Ltac pose_lens :=
  repeat match goal with
  | |- context [lenZ ?l] =>
      lazymatch goal with
      | _ : 0 <= lenZ l |- _ => fail
      | _ => pose proof (lenZ_nonneg l)
      end
  | _ : context [lenZ ?l] |- _ =>
      lazymatch goal with
      | _ : 0 <= lenZ l |- _ => fail
      | _ => pose proof (lenZ_nonneg l)
      end
  end.
Ltac len_lia := autorewrite with len in *; pose_lens; lia.

Lemma takeZ_app_exact {A} n (l k : list A) : lenZ l = n -> takeZ n (l ++ k) = l.
Proof. intros <-. unfold takeZ, lenZ. rewrite Nat2Z.id. apply take_app_length. Qed.
Lemma dropZ_app_exact {A} n (l k : list A) : lenZ l = n -> dropZ n (l ++ k) = k.
Proof. intros <-. unfold dropZ, lenZ. rewrite Nat2Z.id. apply drop_app_length. Qed.
Lemma takeZ_all {A} n (l : list A) : lenZ l <= n -> takeZ n l = l.
Proof. intros. unfold takeZ, lenZ in *. apply take_ge. lia. Qed.
Lemma dropZ_all {A} n (l : list A) : lenZ l <= n -> dropZ n l = [].
Proof. intros. unfold dropZ, lenZ in *. apply drop_ge. lia. Qed.
Lemma takeZ_dropZ {A} n (l : list A) : takeZ n l ++ dropZ n l = l.
Proof. apply take_drop. Qed.
Lemma dropZ_0 {A} (l : list A) : dropZ 0 l = l.
Proof. reflexivity. Qed.
Lemma takeZ_0 {A} (l : list A) : takeZ 0 l = [].
Proof. reflexivity. Qed.
Lemma dropZ_dropZ {A} a b (l : list A) :
  0 <= a -> 0 <= b -> dropZ a (dropZ b l) = dropZ (b + a) l.
Proof. intros. unfold dropZ. rewrite drop_drop. f_equal. lia. Qed.
Lemma takeZ_takeZ {A} a b (l : list A) :
  takeZ a (takeZ b l) = takeZ (Z.min a b) l.
Proof. unfold takeZ. rewrite take_take. f_equal. lia. Qed.
Lemma takeZ_app_l {A} n (l k : list A) : n <= lenZ l -> takeZ n (l ++ k) = takeZ n l.
Proof. intros. unfold takeZ, lenZ in *. apply take_app_le. lia. Qed.
Lemma dropZ_app_l {A} n (l k : list A) : n <= lenZ l -> dropZ n (l ++ k) = dropZ n l ++ k.
Proof. intros. unfold dropZ, lenZ in *. apply drop_app_le. lia. Qed.
Lemma takeZ_app_r {A} n (l k : list A) :
  lenZ l <= n -> takeZ n (l ++ k) = l ++ takeZ (n - lenZ l) k.
Proof. intros. unfold takeZ, lenZ in *. rewrite take_app_ge by lia. do 2 f_equal. lia. Qed.
Lemma dropZ_app_r {A} n (l k : list A) :
  lenZ l <= n -> dropZ n (l ++ k) = dropZ (n - lenZ l) k.
Proof. intros. unfold dropZ, lenZ in *. rewrite drop_app_ge by lia. f_equal. lia. Qed.
Lemma takeZ_dropZ_comm {A} a b (l : list A) :
  0 <= a -> 0 <= b -> takeZ a (dropZ b l) = dropZ b (takeZ (b + a) l).
Proof.
  intros. unfold takeZ, dropZ. rewrite take_drop_commute. do 2 f_equal. lia.
Qed.

Lemma nthZ_Some_iff {A} (l : list A) i : is_Some (nthZ l i) <-> 0 <= i < lenZ l.
Proof.
  unfold nthZ, lenZ. destruct (Z.ltb_spec i 0).
  - split; [intros [? [=]]|lia].
  - rewrite lookup_lt_is_Some. lia.
Qed.
Lemma nthZ_setZ_eq {A} (l : list A) i x : 0 <= i < lenZ l -> nthZ (setZ l i x) i = Some x.
Proof.
  intros. unfold nthZ, setZ, lenZ in *. destruct (Z.ltb_spec i 0); [lia|].
  apply list_lookup_insert_eq. lia.
Qed.
Lemma nthZ_setZ_ne {A} (l : list A) i j x : 0 <= i -> i <> j -> nthZ (setZ l i x) j = nthZ l j.
Proof.
  intros. unfold nthZ, setZ, lenZ in *. destruct (Z.ltb_spec j 0); [done|].
  apply list_lookup_insert_ne. lia.
Qed.
Lemma list_eqZ {A} (l k : list A) :
  lenZ l = lenZ k -> (forall i, 0 <= i < lenZ l -> nthZ l i = nthZ k i) -> l = k.
Proof.
  intros Hlen H. apply list_eq. intros i.
  destruct (decide (i < length l)%nat).
  - specialize (H (Z.of_nat i)). unfold nthZ, lenZ in *.
    destruct (Z.ltb_spec (Z.of_nat i) 0); [lia|]. rewrite Nat2Z.id in H. apply H. lia.
  - unfold lenZ in Hlen. rewrite !lookup_ge_None_2 by lia. done.
Qed.

(** ** Splicing a block into a byte string *)
Lemma slice_split {A} a b c (l : list A) :
  0 <= a <= b -> b <= c -> slice a c l = slice a b l ++ slice b c l.
Proof.
  intros H1 H2. unfold slice. rewrite <- (takeZ_dropZ (b - a) (takeZ (c - a) (dropZ a l))).
  rewrite takeZ_takeZ. f_equal; [f_equal; lia|].
  replace (c - a) with ((b - a) + (c - b)) by lia. rewrite <- takeZ_dropZ_comm by lia.
  rewrite dropZ_dropZ by lia. do 2 f_equal; lia.
Qed.

Lemma lenZ_splice {A} off (d l : list A) :
  0 <= off -> off + lenZ d <= lenZ l -> lenZ (splice off d l) = lenZ l.
Proof. intros. unfold splice. len_lia. Qed.

Lemma slice_splice_eq {A} off (d l : list A) :
  0 <= off -> off + lenZ d <= lenZ l -> slice off (off + lenZ d) (splice off d l) = d.
Proof.
  intros. unfold slice, splice.
  rewrite dropZ_app_exact by len_lia. apply takeZ_app_exact. lia.
Qed.

Lemma slice_splice_before {A} a b off (d l : list A) :
  0 <= a <= b -> b <= off -> off + lenZ d <= lenZ l ->
  slice a b (splice off d l) = slice a b l.
Proof.
  intros. unfold slice, splice. pose proof (lenZ_nonneg d).
  rewrite dropZ_app_l by len_lia. rewrite takeZ_app_l by len_lia.
  rewrite takeZ_dropZ_comm by lia. rewrite takeZ_takeZ.
  rewrite takeZ_dropZ_comm by lia. do 2 f_equal. lia.
Qed.

Lemma slice_splice_after {A} a b off (d l : list A) :
  0 <= off -> off + lenZ d <= a -> a <= b -> off + lenZ d <= lenZ l ->
  slice a b (splice off d l) = slice a b l.
Proof.
  intros. unfold slice, splice. pose proof (lenZ_nonneg d).
  rewrite dropZ_app_r by len_lia. rewrite dropZ_app_r by len_lia.
  rewrite dropZ_dropZ by len_lia. do 2 f_equal. len_lia.
Qed.

(** * Little-endian encoding: [to_le_bytes] and [from_le_bytes] *)

Fixpoint to_le_bytes (n : nat) (z : Z) : bytes :=
  match n with
  | O => []
  | S n => z mod 256 :: to_le_bytes n (z / 256)
  end.

Fixpoint from_le_bytes (l : bytes) : Z :=
  match l with
  | [] => 0
  | b :: l => b + 256 * from_le_bytes l
  end.

Lemma length_to_le_bytes n z : length (to_le_bytes n z) = n.
Proof. revert z. induction n; intros; simpl; auto. Qed.
Lemma lenZ_to_le_bytes n z : lenZ (to_le_bytes n z) = Z.of_nat n.
Proof. unfold lenZ. by rewrite length_to_le_bytes. Qed.
#[export] Hint Rewrite lenZ_to_le_bytes : len.

Lemma to_le_bytes_ok n z : is_bytes (to_le_bytes n z).
Proof.
  revert z. induction n; intros; simpl; constructor; [|apply IHn].
  apply Z.mod_pos_bound. lia.
Qed.

Lemma pow256_S n : 2 ^ (8 * Z.of_nat (S n)) = 256 * 2 ^ (8 * Z.of_nat n).
Proof.
  replace (8 * Z.of_nat (S n)) with (8 + 8 * Z.of_nat n) by lia.
  rewrite Z.pow_add_r by lia. done.
Qed.

Lemma from_to_le_bytes n z :
  0 <= z < 2 ^ (8 * Z.of_nat n) -> from_le_bytes (to_le_bytes n z) = z.
Proof.
  revert z. induction n as [|n IH]; intros z Hz.
  - change (2 ^ (8 * Z.of_nat 0)) with 1 in Hz. simpl. lia.
  - rewrite pow256_S in Hz. simpl. rewrite IH.
    + pose proof (Z.div_mod z 256). lia.
    + split; [apply Z.div_pos; lia|]. apply Z.div_lt_upper_bound; lia.
Qed.

Lemma to_le_bytes_inj n y z :
  0 <= y < 2 ^ (8 * Z.of_nat n) -> 0 <= z < 2 ^ (8 * Z.of_nat n) ->
  to_le_bytes n y = to_le_bytes n z -> y = z.
Proof. intros Hy Hz H%(f_equal from_le_bytes). by rewrite !from_to_le_bytes in H. Qed.

Lemma from_le_bytes_range l :
  is_bytes l -> 0 <= from_le_bytes l < 2 ^ (8 * lenZ l).
Proof.
  unfold lenZ. induction 1 as [|b l Hb Hl IH]; [done|].
  change (length (b :: l)) with (S (length l)). rewrite pow256_S. simpl.
  unfold is_byte in Hb. nia.
Qed.

Lemma to_from_le_bytes l : is_bytes l -> to_le_bytes (length l) (from_le_bytes l) = l.
Proof.
  induction 1 as [|b l Hb Hl IH]; [done|]. simpl. unfold is_byte in Hb.
  rewrite (Z.mul_comm 256), Z.mod_add, Z.div_add by lia.
  rewrite Z.mod_small, Z.div_small by lia. by rewrite Z.add_0_l, IH.
Qed.

(** Byte-string literals [b"..."]. *)
Definition str_bytes (s : string) : bytes :=
  (fun a => Z.of_N (Ascii.N_of_ascii a)) <$> String.list_ascii_of_string s.

(** * Bytewise equality as the constant-time accumulator computes it *)

(** [acc |= a\[i\] ^ b\[i\]] over two byte strings of equal length. *)
Definition ct_accumulate (a b : bytes) : Z :=
  foldl (fun acc p => Z.lor acc (Z.lxor p.1 p.2)) 0 (zip a b).

Lemma foldl_lor_0 (l : list (Z * Z)) acc :
  foldl (fun acc p => Z.lor acc (Z.lxor p.1 p.2)) acc l = 0 <->
  acc = 0 /\ Forall (fun p => p.1 = p.2) l.
Proof.
  revert acc. induction l as [|[x y] l IH]; intros acc; simpl.
  - split; [auto|tauto].
  - rewrite IH, Forall_cons. simpl. rewrite Z.lor_eq_0_iff, Z.lxor_eq_0_iff. tauto.
Qed.

Lemma ct_accumulate_eq a b :
  length a = length b -> ct_accumulate a b = 0 <-> a = b.
Proof.
  intros Hlen. unfold ct_accumulate. rewrite foldl_lor_0. split.
  - intros [_ H]. revert b Hlen H. induction a as [|x a IH]; intros [|y b] Hlen H;
      try done. simpl in *. apply Forall_cons in H as [Hxy H].
    simpl in Hxy. subst. f_equal. apply IH; auto.
  - intros ->. split; [done|]. clear Hlen.
    induction b; simpl; constructor; auto.
Qed.

(** * Lists *)

Lemma app_inj_len {A} (l1 l2 k1 k2 : list A) :
  lenZ l1 = lenZ l2 -> l1 ++ k1 = l2 ++ k2 -> l1 = l2 /\ k1 = k2.
Proof. intros. apply app_inj_1; [unfold lenZ in *; lia|done]. Qed.

Lemma is_bytes_app l k : is_bytes (l ++ k) <-> is_bytes l /\ is_bytes k.
Proof. apply Forall_app. Qed.
Lemma is_bytes_rep n : is_bytes (repZ n 0).
Proof. apply Forall_replicate. unfold is_byte. lia. Qed.
Lemma is_bytes_takeZ n l : is_bytes l -> is_bytes (takeZ n l).
Proof. apply Forall_take. Qed.
Lemma is_bytes_dropZ n l : is_bytes l -> is_bytes (dropZ n l).
Proof. apply Forall_drop. Qed.

Create HintDb kernel.
#[export] Hint Resolve is_bytes_rep is_bytes_takeZ is_bytes_dropZ to_le_bytes_ok : kernel.

(** * Bitwise operations on [w]-bit integers *)

Lemma is_u_bits w n : 0 <= w -> is_u w n <-> 0 <= n /\ forall l, w <= l -> Z.testbit n l = false.
Proof.
  intros Hw. unfold is_u. split.
  - intros [H0 H]. split; [done|]. by apply Z.bounded_iff_bits_nonneg.
  - intros [H0 H]. split; [done|]. by apply Z.bounded_iff_bits_nonneg.
Qed.
Lemma is_u_lxor w a b : 0 <= w -> is_u w a -> is_u w b -> is_u w (Z.lxor a b).
Proof.
  intros Hw. rewrite !is_u_bits by done. intros [Ha Hab] [Hb Hbb]. split.
  - apply Z.lxor_nonneg. lia.
  - intros l Hl. rewrite Z.lxor_spec, Hab, Hbb by done. done.
Qed.
Lemma lxor_inj_l a b c : Z.lxor a b = Z.lxor c b -> a = c.
Proof.
  intros H%(f_equal (fun x => Z.lxor x b)).
  by rewrite !Z.lxor_assoc, Z.lxor_nilpotent, !Z.lxor_0_r in H.
Qed.
#[export] Hint Resolve is_u_lxor : kernel.

(** * Counting *)

Fixpoint countb {A} (p : A -> bool) (l : list A) : Z :=
  match l with [] => 0 | x :: l => (if p x then 1 else 0) + countb p l end.

Lemma countb_bounds {A} (p : A -> bool) l : 0 <= countb p l <= lenZ l.
Proof. induction l; simpl; [done|]. rewrite lenZ_cons. destruct (p a); lia. Qed.

Lemma countb_ext {A} (p q : A -> bool) l :
  (forall x, x ∈ l -> p x = q x) -> countb p l = countb q l.
Proof.
  induction l as [|x l IH]; intros H; simpl; [done|].
  rewrite H, IH by set_solver. done.
Qed.

Lemma countb_drop {A} (p q : A -> bool) l x :
  NoDup l -> x ∈ l -> p x = true -> q x = false -> (forall y, y <> x -> q y = p y) ->
  countb p l = countb q l + 1.
Proof.
  intros Hnd Hin Hp Hq Hne. induction Hnd as [|y l Hy Hnd IH]; [set_solver|]. simpl.
  apply elem_of_cons in Hin as [->|Hin].
  - rewrite Hp, Hq, (countb_ext p q); [lia|].
    intros z Hz. rewrite Hne; [done|]. by intros ->.
  - rewrite IH, Hne by (done || by intros ->). lia.
Qed.

Lemma countb_pos {A} (p : A -> bool) l : 0 < countb p l -> exists x, x ∈ l /\ p x = true.
Proof.
  induction l as [|x l IH]; simpl; [lia|]. destruct (p x) eqn:E; [set_solver|].
  intros H. destruct IH as (y & ? & ?); [lia|]. set_solver.
Qed.

Lemma countb_zero {A} (p : A -> bool) l x : countb p l = 0 -> x ∈ l -> p x = false.
Proof.
  intros Hz Hx. induction l as [|y l IH]; [by apply elem_of_nil in Hx|]. simpl in Hz.
  pose proof (countb_bounds p l). destruct (p y) eqn:Ey; [lia|].
  apply elem_of_cons in Hx as [->|Hx]; [done|]. apply IH; [lia|done].
Qed.

Lemma countb_filter {A} (p : A -> bool) l :
  countb (fun x => negb (p x)) l + lenZ (filter (fun x => p x = true) l) = lenZ l.
Proof.
  induction l as [|x l IH]; [done|]. rewrite filter_cons, lenZ_cons. simpl.
  destruct (p x); simpl; rewrite ?lenZ_cons; lia.
Qed.

Lemma countb_fmap {A B} (p : B -> bool) (f : A -> B) l : countb p (f <$> l) = countb (fun x => p (f x)) l.
Proof. induction l as [|x l IH]; [done|]. rewrite fmap_cons. cbn [countb]. by rewrite IH. Qed.
