(* ===== verification/Effects.v ===== *)
(** Effects of the Rust code: panics, process exit, integer-overflow checks,
    [std::io::Result], and global state threaded through a small state monad.

    - [M S A]: a computation over the mutable statics [S].  It ends normally
      ([Done]), by a Rust panic ([Panicked], with the statics as the panic left
      them) or by [libc::_exit] ([Exited]).
    - [overflow_checks]: the build profile.  Rust integer arithmetic panics on
      overflow in a checked build and wraps in a release build; every theorem is
      stated for both.
    - [result]: [std::io::Result], with the [ErrorKind] the code constructs; the
      notation [x <-? m; k] is the operator [?].
    - [zoom]: run a component's code inside a larger state.
    - [wp]: total weakest preconditions, a panic or an exit being a failure. *)
From S2P Require Import Prelude.

(** * Outcomes and the state monad *)

Inductive outcome (S A : Type) : Type :=
| Done (a : A) (s : S)
| Panicked (s : S)
| Exited (code : Z) (s : S).
Arguments Done {S A} a s.
Arguments Panicked {S A} s.
Arguments Exited {S A} code s.

Definition M (S A : Type) : Type := S -> outcome S A.

#[export] Instance M_ret {S} : MRet (M S) := fun A a s => Done a s.
#[export] Instance M_bind {S} : MBind (M S) := fun A B k m s =>
  match m s with
  | Done a s' => k a s'
  | Panicked s' => Panicked s'
  | Exited c s' => Exited c s'
  end.

Definition get {S} : M S S := fun s => Done s s.
Definition put {S} (s : S) : M S unit := fun _ => Done tt s.
Definition gets {S A} (f : S -> A) : M S A := fun s => Done (f s) s.
Definition modify {S} (f : S -> S) : M S unit := fun s => Done tt (f s).
Definition panic {S A} : M S A := fun s => Panicked s.
Definition exit_process {S A} (code : Z) : M S A := fun s => Exited code s.
(** Indexing and [expect]: a panic on [None]. *)
Definition unwrap {S A} (o : option A) : M S A :=
  match o with Some a => mret a | None => panic end.

(** The statics left behind, however the computation ended. *)
Definition final {S A} (o : outcome S A) : S :=
  match o with Done _ s => s | Panicked s => s | Exited _ s => s end.

(** * Build profile and machine arithmetic *)

Class BuildProfile := overflow_checks : bool.

Section arith.
Context `{BuildProfile} {S : Type}.

(** An unsigned [w]-bit result: the exact value when it fits. *)
Definition chk_u (w z : Z) : M S Z :=
  if (0 <=? z) && (z <? 2 ^ w) then mret z
  else if overflow_checks then panic else mret (z mod 2 ^ w).

(** Two's complement reading of the low [w] bits. *)
Definition wrap_i (w z : Z) : Z :=
  let m := z mod 2 ^ w in if m <? 2 ^ (w - 1) then m else m - 2 ^ w.

(** A signed [w]-bit result. *)
Definition chk_i (w z : Z) : M S Z :=
  if (- 2 ^ (w - 1) <=? z) && (z <? 2 ^ (w - 1)) then mret z
  else if overflow_checks then panic else mret (wrap_i w z).

Lemma chk_u_ok w z s : is_u w z -> chk_u w z s = Done z s.
Proof.
  unfold chk_u, is_u. intros. destruct (Z.leb_spec 0 z), (Z.ltb_spec z (2 ^ w)); try lia.
  done.
Qed.

Lemma chk_u_over w z s :
  ~ is_u w z -> chk_u w z s = if overflow_checks then Panicked s else Done (z mod 2 ^ w) s.
Proof.
  unfold chk_u, is_u. intros. destruct (Z.leb_spec 0 z), (Z.ltb_spec z (2 ^ w)); try lia;
  simpl; by destruct overflow_checks.
Qed.

Lemma chk_i_ok w z s : - 2 ^ (w - 1) <= z < 2 ^ (w - 1) -> chk_i w z s = Done z s.
Proof.
  unfold chk_i. intros.
  destruct (Z.leb_spec (- 2 ^ (w - 1)) z), (Z.ltb_spec z (2 ^ (w - 1))); try lia. done.
Qed.

Lemma chk_i_over w z s :
  ~ (- 2 ^ (w - 1) <= z < 2 ^ (w - 1)) ->
  chk_i w z s = if overflow_checks then Panicked s else Done (wrap_i w z) s.
Proof.
  unfold chk_i. intros.
  destruct (Z.leb_spec (- 2 ^ (w - 1)) z), (Z.ltb_spec z (2 ^ (w - 1))); try lia;
  simpl; by destruct overflow_checks.
Qed.
End arith.

(** * [std::io::Result] *)

Inductive io_kind :=
  | NotFound | AlreadyExists | PermissionDenied | InvalidInput | InvalidData
  | StorageFull | UnexpectedEof | OtherKind | OsFault.
#[export] Instance io_kind_eq_dec : EqDecision io_kind.
Proof. solve_decision. Defined.

Inductive result (A : Type) : Type :=
| Ok (a : A)
| Err (e : io_kind).
Arguments Ok {A} a.
Arguments Err {A} e.

Definition is_ok {A} (r : result A) : bool := match r with Ok _ => true | Err _ => false end.

Definition try_bind {S A B} (k : A -> M S (result B)) (r : result A) : M S (result B) :=
  match r with Ok a => k a | Err e => mret (Err e) end.

Declare Scope effect_scope.
Delimit Scope effect_scope with effect.
Notation "x <-? m ; k" := (mbind (try_bind (fun x => k)) m)
  (at level 20, m at level 100, k at level 200, only parsing) : effect_scope.
Notation "m ;;? k" := (mbind (try_bind (fun _ => k)) m)
  (at level 100, right associativity, only parsing) : effect_scope.
Global Open Scope effect_scope.

(** * Running a component inside a larger state *)

Record lens (S T : Type) := Lens { lget : T -> S; lput : S -> T -> T }.
Arguments Lens {S T} _ _.
Arguments lget {S T} _ _.
Arguments lput {S T} _ _ _.

Definition zoom {S T A} (l : lens S T) (m : M S A) : M T A := fun t =>
  match m (lget l t) with
  | Done a s => Done a (lput l s t)
  | Panicked s => Panicked (lput l s t)
  | Exited c s => Exited c (lput l s t)
  end.

(** * Evaluation lemmas *)

Lemma bind_done {S A B} (m : M S A) (k : A -> M S B) s a s' :
  m s = Done a s' -> (m ≫= k) s = k a s'.
Proof. intros E. unfold mbind, M_bind. by rewrite E. Qed.

Lemma bind_panic {S A B} (m : M S A) (k : A -> M S B) s s' :
  m s = Panicked s' -> (m ≫= k) s = Panicked s'.
Proof. intros E. unfold mbind, M_bind. by rewrite E. Qed.

Lemma zoom_done {S T A} (l : lens S T) (m : M S A) t a s :
  m (lget l t) = Done a s -> zoom l m t = Done a (lput l s t).
Proof. intros E. unfold zoom. by rewrite E. Qed.

Lemma bind_assoc {S A B C} (m : M S A) (f : A -> M S B) (g : B -> M S C) s :
  ((m ≫= f) ≫= g) s = (m ≫= (fun a => f a ≫= g)) s.
Proof. unfold mbind, M_bind. by destruct (m s). Qed.

Lemma bind_ext {S A B} (m : M S A) (k k' : A -> M S B) s :
  (forall a s', k a s' = k' a s') -> (m ≫= k) s = (m ≫= k') s.
Proof. intros E. unfold mbind, M_bind. destruct (m s); [apply E|done..]. Qed.

Lemma bind_cong {S A B} (m m' : M S A) (k k' : A -> M S B) s :
  m s = m' s -> (forall a s', k a s' = k' a s') -> (m ≫= k) s = (m' ≫= k') s.
Proof. intros Em Ek. unfold mbind, M_bind. rewrite Em. destruct (m' s); [apply Ek|done..]. Qed.

(** Reading back what was written, and writing what was read. *)
Record lens_laws {S T} (l : lens S T) : Prop := {
  lget_lput s t : lget l (lput l s t) = s;
  lput_lput s s' t : lput l s (lput l s' t) = lput l s t;
  lput_lget t : lput l (lget l t) t = t;
}.

Lemma zoom_bind {S T A B} (l : lens S T) (m : M S A) (k : A -> M S B) t :
  lens_laws l -> zoom l (m ≫= k) t = (zoom l m ≫= fun a => zoom l (k a)) t.
Proof.
  intros [Hg Hp _]. unfold zoom, mbind, M_bind. destruct (m (lget l t)) as [a s|s|c s]; [|done..].
  rewrite Hg. by destruct (k a s); rewrite Hp.
Qed.
Lemma zoom_ret {S T A} (l : lens S T) (a : A) t : lens_laws l -> zoom l (mret a) t = Done a t.
Proof. intros [_ _ Hg]. unfold zoom, mret, M_ret. by rewrite Hg. Qed.

(** * Weakest preconditions *)

Definition wp {S A} (m : M S A) (Q : A -> S -> Prop) (s : S) : Prop :=
  match m s with Done a s' => Q a s' | _ => False end.

Section wp.
Context {S : Type}.

Lemma wp_ret {A} (a : A) (Q : A -> S -> Prop) s : Q a s -> wp (mret a) Q s.
Proof. done. Qed.
Lemma wp_bind {A B} (m : M S A) (k : A -> M S B) Q s :
  wp m (fun a s' => wp (k a) Q s') s -> wp (m ≫= k) Q s.
Proof. unfold wp, mbind, M_bind. by destruct (m s). Qed.
Lemma wp_mono {A} (m : M S A) (P Q : A -> S -> Prop) s :
  wp m P s -> (forall a s', P a s' -> Q a s') -> wp m Q s.
Proof. unfold wp. destruct (m s); eauto. Qed.
Lemma wp_and {A} (m : M S A) (P Q : A -> S -> Prop) s :
  wp m P s -> wp m Q s -> wp m (fun a s' => P a s' /\ Q a s') s.
Proof. unfold wp. destruct (m s); auto. Qed.
Lemma wp_try {A B} (k : A -> M S (result B)) (r : result A) Q s :
  (forall a, r = Ok a -> wp (k a) Q s) -> (forall e, r = Err e -> Q (Err e) s) ->
  wp (try_bind k r) Q s.
Proof. destruct r; simpl; intros HOk HErr; [by apply HOk|]. by apply wp_ret, HErr. Qed.
Lemma wp_done {A} (m : M S A) Q s a s' : m s = Done a s' -> Q a s' -> wp m Q s.
Proof. intros E ?. unfold wp. by rewrite E. Qed.
Lemma wp_inv {A} (m : M S A) Q s : wp m Q s -> exists a s', m s = Done a s' /\ Q a s'.
Proof. unfold wp. destruct (m s); naive_solver. Qed.
Lemma wp_zoom {T A} (l : lens S T) (m : M S A) Q t :
  wp m (fun a s => Q a (lput l s t)) (lget l t) -> wp (zoom l m) Q t.
Proof. unfold wp, zoom. by destruct (m (lget l t)). Qed.
Lemma wp_chk_u `{BuildProfile} w z (Q : Z -> S -> Prop) s :
  is_u w z -> Q z s -> wp (chk_u w z) Q s.
Proof. intros Hz ?. eapply wp_done; [by apply chk_u_ok|done]. Qed.
End wp.

(** * Partial postconditions *)

(** [Q] holds if the computation returns; [wp_pp] adds it to a total postcondition. *)
Definition pp {S A} (m : M S A) (Q : A -> S -> Prop) (s : S) : Prop :=
  match m s with Done a s' => Q a s' | _ => True end.

Section pp.
Context {S : Type}.

Lemma pp_ret {A} (a : A) (Q : A -> S -> Prop) s : Q a s -> pp (mret a) Q s.
Proof. done. Qed.
Lemma pp_bind {A B} (m : M S A) (k : A -> M S B) Q s :
  pp m (fun a s' => pp (k a) Q s') s -> pp (m ≫= k) Q s.
Proof. unfold pp, mbind, M_bind. by destruct (m s). Qed.
Lemma pp_mono {A} (m : M S A) (P Q : A -> S -> Prop) s :
  pp m P s -> (forall a s', P a s' -> Q a s') -> pp m Q s.
Proof. unfold pp. destruct (m s); eauto. Qed.
Lemma pp_try {A B} (k : A -> M S (result B)) (r : result A) Q s :
  (forall a, r = Ok a -> pp (k a) Q s) -> (forall e, r = Err e -> Q (Err e) s) -> pp (try_bind k r) Q s.
Proof. destruct r; simpl; intros HOk HErr; [by apply HOk|]. by apply pp_ret, HErr. Qed.
Lemma pp_zoom {T A} (l : lens S T) (m : M S A) Q t :
  pp m (fun a s => Q a (lput l s t)) (lget l t) -> pp (zoom l m) Q t.
Proof. unfold pp, zoom. by destruct (m (lget l t)). Qed.
Lemma pp_unwrap {A} (o : option A) (Q : A -> S -> Prop) s : (forall a, o = Some a -> Q a s) -> pp (unwrap o) Q s.
Proof. destruct o; [|done]. intros H. by apply H. Qed.
Lemma pp_chk_u `{BuildProfile} w z (Q : Z -> S -> Prop) s : (forall z', Q z' s) -> pp (chk_u w z) Q s.
Proof. intros HQ. unfold pp, chk_u, panic. destruct (_ && _), overflow_checks; simpl; auto. Qed.
Lemma pp_of_wp {A} (m : M S A) (Q : A -> S -> Prop) s : wp m Q s -> pp m Q s.
Proof. unfold wp, pp. by destruct (m s). Qed.
Lemma wp_pp {A} (m : M S A) (P Q : A -> S -> Prop) s :
  wp m P s -> pp m Q s -> wp m (fun a s' => P a s' /\ Q a s') s.
Proof. unfold wp, pp. by destruct (m s). Qed.
End pp.

(** [step] evaluates the head of a program on a known state. *)
Ltac step :=
  cbv beta zeta;
  match goal with
  | |- context [(?m ≫= ?k) ?s] =>
      first [ erewrite (bind_done m k s) by (first [eassumption | reflexivity | eauto])
            | erewrite (bind_panic m k s) by (first [eassumption | reflexivity | eauto]) ]
  end.
