(* ===== verification/Threads.v ===== *)
(** Threads that share the statics behind mutexes.

    A thread runs a [prog]: a sequence of lock acquisitions, lock releases and atomic
    actions on the shared state.  [thread_step i] is one step of thread [i]; it is
    executable, so an interleaving is a list of thread numbers.  A panic poisons the
    mutexes the thread holds, and a thread that acquires a poisoned mutex continues with
    the first branch of its [Lock], which for [lock().unwrap()] is a panic.  An exit of the
    process stops all threads.

    - [run]: the program on its own, as a computation of [Effects].
    - [ordered] and [deadlock_free]: threads that acquire their mutexes in one order never
      block each other for ever; [steps_terminate]: every interleaving is finite.
    - [safe] and [threads_sound]: a small logic for interleavings.  A mutex protects a part
      of the state ([agree]) with an invariant ([lock_inv]); every action keeps the global
      invariant, relates old and new state by a preorder, and changes only what its thread
      has locked.
    - [outs]: what every result of a program satisfies, whatever happens between its actions. *)
From S2P Require Import Prelude Effects.

(** * Programs *)

Section prog.
Context {L S : Type}.

Inductive prog (A : Type) : Type :=
| Ret (a : A)
| Lock (l : L) (poisoned : prog A) (p : prog A)
| Unlock (l : L) (p : prog A)
| Act {B : Type} (m : M S B) (k : B -> prog A).
Arguments Ret {A} a.
Arguments Lock {A} l poisoned p.
Arguments Unlock {A} l p.
Arguments Act {A B} m k.

#[export] Instance prog_ret : MRet prog := fun A a => Ret a.
#[export] Instance prog_bind : MBind prog := fun A B k =>
  fix go (p : prog A) : prog B :=
    match p with
    | Ret a => k a
    | Lock l q p => Lock l (go q) (go p)
    | Unlock l p => Unlock l (go p)
    | Act m f => Act m (fun b => go (f b))
    end.

(** An action, a panic, [mutex.lock().unwrap()], and the end of a guard's scope. *)
Definition act {B} (m : M S B) : prog B := Act m Ret.
Definition crash {B} : prog B := Act (B := Empty_set) panic (fun e => match e with end).
Definition lock (l : L) : prog unit := Lock l crash (Ret tt).
Definition unlock (l : L) : prog unit := Unlock l (Ret tt).
(** An action under a temporary guard. *)
Definition guarded {B} (l : L) (m : M S B) : prog B :=
  lock l;; r ← act m; unlock l;; mret r.

(** The program on its own: no other thread, no poisoned mutex. *)
Fixpoint run {A} (p : prog A) : M S A :=
  match p with
  | Ret a => mret a
  | Lock _ _ p | Unlock _ p => run p
  | Act m k => m ≫= fun b => run (k b)
  end.

Lemma run_bind {A B} (p : prog A) (k : A -> prog B) s :
  run (p ≫= k) s = (run p ≫= fun a => run (k a)) s.
Proof.
  revert s. induction p as [a|l q _ p IH|l p IH|C m f IH]; intros s; simpl; [done|apply IH..|].
  change (mbind k (Act m f)) with (Act m (fun b => mbind k (f b))). simpl.
  rewrite bind_assoc. by apply bind_ext.
Qed.
Lemma run_act {B} (m : M S B) s : run (act m) s = m s.
Proof. unfold act. simpl. unfold mbind, M_bind, mret, M_ret. by destruct (m s). Qed.
Lemma run_guarded {B} l (m : M S B) s : run (guarded l m) s = m s.
Proof. unfold guarded. simpl. unfold mbind, M_bind. by destruct (m s). Qed.
End prog.
Arguments prog : clear implicits.
Arguments Ret {L S A} a.
Arguments Lock {L S A} l poisoned p.
Arguments Unlock {L S A} l p.
Arguments Act {L S A B} m k.

(** * Pools of threads *)

Section pool.
Context {L S A : Type} `{EqDecision L}.

Inductive thread :=
| Running (held : list L) (p : prog L S A)
| Finished (a : A)
| Crashed.

Record config := Config { shared : S; poisoned : list L; pool : list thread }.

Definition held_by (t : thread) : list L := match t with Running h _ => h | _ => [] end.
Definition all_held (ts : list thread) : list L := ts ≫= held_by.
Definition release (l : L) (h : list L) : list L := filter (fun l' => l' <> l) h.

(** One step of thread [i]: [None] when it has ended or waits for a mutex. *)
Definition thread_step (i : nat) (c : config) : option config :=
  match pool c !! i with
  | Some (Running h p) =>
      let become s ps t := Some (Config s ps (<[i := t]> (pool c))) in
      match p with
      | Ret a => become (shared c) (poisoned c) (Finished a)
      | Lock l q p =>
          if decide (l ∈ all_held (pool c)) then None
          else if decide (l ∈ poisoned c) then become (shared c) (poisoned c) (Running h q)
          else become (shared c) (poisoned c) (Running (l :: h) p)
      | Unlock l p => become (shared c) (poisoned c) (Running (release l h) p)
      | Act m k =>
          match m (shared c) with
          | Done b s => become s (poisoned c) (Running h (k b))
          | Panicked s => become s (h ++ poisoned c) Crashed
          | Exited _ s => Some (Config s (poisoned c) ((fun _ => Crashed) <$> pool c))
          end
      end
  | _ => None
  end.

Definition step (c c' : config) : Prop := exists i, thread_step i c = Some c'.

(** An interleaving, given as the thread that moves at each step. *)
Fixpoint run_schedule (sched : list nat) (c : config) : option config :=
  match sched with
  | [] => Some c
  | i :: sched => c' ← thread_step i c; run_schedule sched c'
  end.

Definition start (s : S) (ps : list (prog L S A)) : config := Config s [] (Running [] <$> ps).
Definition reachable (s : S) (ps : list (prog L S A)) (c : config) : Prop := rtc step (start s ps) c.
Definition ended (t : thread) : Prop := match t with Running _ _ => False | _ => True end.

#[export] Instance ended_dec t : Decision (ended t).
Proof. destruct t; [right|left..]; simpl; auto. Defined.

Lemma run_schedule_steps sched c c' : run_schedule sched c = Some c' -> rtc step c c'.
Proof.
  revert c. induction sched as [|i sched IH]; simpl; intros c; [by intros [= ->]|].
  destruct (thread_step i c) as [c1|] eqn:E; simpl; [|done]. intros.
  eapply rtc_l; [by exists i|eauto].
Qed.

Lemma pool_length_step (c c' : config) : step c c' -> length (pool c') = length (pool c).
Proof.
  intros [i Hi]. unfold thread_step in Hi. destruct (pool c !! i) as [[h p| |]|]; try done.
  destruct p as [a|l q p|l p|B m k]; [..|destruct (m (shared c))]; repeat case_decide; simplify_eq/=;
    by rewrite ?length_insert, ?length_fmap.
Qed.
Lemma pool_length s ps (c : config) : reachable s ps c -> length (pool c) = length ps.
Proof.
  intros Hc. refine (rtc_ind_r (R := step) (fun c => length (pool c) = length ps) (start s ps) _ _ c Hc).
  - simpl. by rewrite length_fmap.
  - intros y z _ Hs IH. by rewrite (pool_length_step _ _ Hs).
Qed.

Lemma elem_of_all_held l ts : l ∈ all_held ts <-> exists i t, ts !! i = Some t /\ l ∈ held_by t.
Proof.
  unfold all_held. rewrite list_elem_of_bind. split.
  - intros (t & Hl & (i & Hi)%list_elem_of_lookup). eauto.
  - intros (i & t & Hi & Hl). exists t. split; [done|]. by eapply list_elem_of_lookup_2.
Qed.

Lemma elem_of_release l l' h : l' ∈ release l h <-> l' ∈ h /\ l' <> l.
Proof. unfold release. rewrite list_elem_of_filter. tauto. Qed.

(** What the other threads hold is unaffected when thread [i] becomes [t]. *)
Lemma lookup_other (ts : list thread) i j t : i <> j -> <[i := t]> ts !! j = ts !! j.
Proof. apply list_lookup_insert_ne. Qed.
Lemma lookup_self (ts : list thread) i t t0 : ts !! i = Some t0 -> <[i := t]> ts !! i = Some t.
Proof. intros. apply list_lookup_insert_eq. by eapply lookup_lt_Some. Qed.

(** ** Every interleaving is finite *)

(** [t'] is what one step can make of [t]. *)
Definition successor (t' t : thread) : Prop :=
  match t, t' with
  | Running _ p, Running _ p' =>
      match p with
      | Ret _ => False
      | Lock _ q p => p' = q \/ p' = p
      | Unlock _ p => p' = p
      | Act m k => exists b, p' = k b
      end
  | Running _ _, _ => True
  | _, _ => False
  end.

Lemma successor_ended t : ended t -> Acc successor t.
Proof. intros Ht. constructor. intros t' Hs. by destruct t. Qed.

Lemma successor_wf : well_founded successor.
Proof.
  intros [h p| |]; [|apply successor_ended; exact I..]. revert h.
  induction p as [a|l q IHq p IHp|l p IHp|B m k IHk]; intros h; constructor;
    (intros [h' p'| |] Hs; [simpl in Hs|apply successor_ended; exact I..]).
  - destruct Hs.
  - destruct Hs as [->| ->]; auto.
  - by subst.
  - destruct Hs as [b ->]. auto.
Qed.

Definition pool_successor (ts' ts : list thread) : Prop :=
  (exists i t t', ts !! i = Some t /\ successor t' t /\ ts' = <[i := t']> ts) \/
  (exists i h p, ts !! i = Some (Running h p)) /\ ts' = (fun _ => Crashed) <$> ts.

Lemma crashed_acc (ts : list thread) : Acc pool_successor ((fun _ => Crashed) <$> ts).
Proof.
  constructor. intros ts' [(i & t & t' & Hi & Hs & _)|[(i & h & p & Hi) _]];
    rewrite list_lookup_fmap in Hi; destruct (ts !! i); simplify_eq/=; done.
Qed.

Lemma pool_cons_acc t ts : Acc pool_successor ts -> Acc pool_successor (t :: ts).
Proof.
  intros Hts. revert t. induction Hts as [ts Hts IH]. intros t.
  induction (successor_wf t) as [t _ IHt]. constructor. intros ts' [Hs|[_ ->]];
    [|apply (crashed_acc (t :: ts))].
  destruct Hs as ([|i] & t0 & t' & Hi & Hs & ->); simplify_eq/=; [by apply IHt|].
  apply IH. left. eauto 10.
Qed.

Lemma pool_successor_wf : well_founded pool_successor.
Proof.
  intros ts. induction ts as [|t ts IH]; [|by apply pool_cons_acc].
  constructor. intros ts' [(i & t & t' & [=] & _)|[(i & h & p & [=]) _]].
Qed.

Lemma step_successor c c' : step c c' -> pool_successor (pool c') (pool c).
Proof.
  intros [i Hi]. unfold thread_step in Hi. destruct (pool c !! i) as [[h p| |]|] eqn:E; try done.
  destruct p as [a|l q p|l p|B m k].
  - simplify_eq/=. left. exists i, (Running h (Ret a)), (Finished a). by split_and!.
  - repeat case_decide; simplify_eq/=; left; eexists i, _, _; (split; [exact E|split; [|reflexivity]]);
      simpl; auto.
  - simplify_eq/=. left. eexists i, _, _. split; [exact E|]. split; [|reflexivity]. done.
  - destruct (m (shared c)); simplify_eq/=; [left; eexists i, _, _; (split; [exact E|split; [|reflexivity]])..|right].
    + simpl. eauto.
    + exact I.
    + eauto 10.
Qed.

Lemma steps_terminate : well_founded (flip step).
Proof.
  intros c. remember (pool c) as ts eqn:E. revert c E.
  induction (pool_successor_wf ts) as [ts _ IH]. intros c ->. constructor. intros c' Hc.
  by eapply IH; [apply step_successor|].
Qed.
End pool.
Arguments thread : clear implicits.
Arguments config : clear implicits.

(** * Lock order *)

Section order.
Context {L S : Type} `{EqDecision L} (rank : L -> nat).

(** The mutexes are acquired in increasing rank; [K] holds of the mutexes still held at
    the end and of the result. *)
Fixpoint ordered {A} (h : list L) (p : prog L S A) (K : list L -> A -> Prop) : Prop :=
  match p with
  | Ret a => K h a
  | Lock l q p =>
      (forall l', l' ∈ h -> (rank l' < rank l)%nat) /\ ordered h q K /\ ordered (l :: h) p K
  | Unlock l p => ordered (release l h) p K
  | Act _ k => forall b, ordered h (k b) K
  end.

Lemma ordered_mono {A} h (p : prog L S A) (K K' : list L -> A -> Prop) :
  ordered h p K -> (forall h a, K h a -> K' h a) -> ordered h p K'.
Proof.
  intros Hp HK. revert h Hp. induction p; simpl; intros h Hp; [auto| |auto|auto].
  destruct Hp as (? & ? & ?). auto.
Qed.

Lemma ordered_bind {A B} h (p : prog L S A) (k : A -> prog L S B) K :
  ordered h p (fun h a => ordered h (k a) K) -> ordered h (p ≫= k) K.
Proof.
  revert h. induction p as [a|l q IHq p IHp|l p IHp|C m f IHf]; intros h Hp.
  - exact Hp.
  - destruct Hp as (? & ? & ?). split; [done|]. split; [by apply IHq|by apply IHp].
  - by apply IHp.
  - intros b. by apply IHf.
Qed.

Lemma ordered_guarded {B} h l (m : M S B) (K : list L -> B -> Prop) :
  (forall l', l' ∈ h -> (rank l' < rank l)%nat) -> (forall b, K (release l (l :: h)) b) ->
  ordered h (guarded l m) K.
Proof. intros Hl HK. simpl. split; [done|]. split; [by intros []|]. auto. Qed.

(** A guard that is dropped leaves the mutexes held before it. *)
Lemma release_cons (l : L) h : l ∉ h -> release l (l :: h) = h.
Proof.
  intros Hl. unfold release. rewrite filter_cons_False by auto.
  induction h as [|l' h IH]; [done|]. apply not_elem_of_cons in Hl as [? ?].
  rewrite filter_cons_True by congruence. f_equal. auto.
Qed.

Definition pool_ordered {A} (ts : list (thread L S A)) : Prop :=
  Forall (fun t => match t with Running h p => ordered h p (fun _ _ => True) | _ => True end) ts.

Lemma pool_ordered_step {A} (c c' : config L S A) :
  step c c' -> pool_ordered (pool c) -> pool_ordered (pool c').
Proof.
  intros [i Hi] Hc. unfold thread_step in Hi. destruct (pool c !! i) as [[h p| |]|] eqn:E; try done.
  pose proof (Forall_lookup_1 _ _ _ _ Hc E) as Hp. simpl in Hp.
  destruct p as [a|l q p|l p|B m k]; simpl in Hp.
  - simplify_eq/=. by apply Forall_insert.
  - destruct Hp as (? & ? & ?). repeat case_decide; simplify_eq/=; by apply Forall_insert.
  - simplify_eq/=. by apply Forall_insert.
  - destruct (m (shared c)); simplify_eq/=; [by apply Forall_insert; auto..|].
    by apply Forall_fmap, Forall_true.
Qed.

Lemma pool_ordered_reachable {A} s (ps : list (prog L S A)) c :
  Forall (fun p => ordered [] p (fun _ _ => True)) ps -> reachable s ps c -> pool_ordered (pool c).
Proof.
  intros Hps Hc. refine (rtc_ind_r (R := step) (fun c => pool_ordered (pool c)) (start s ps) _ _ c Hc).
  - by apply Forall_fmap.
  - intros y z _ Hstep IH. by eapply pool_ordered_step.
Qed.

(** A thread that cannot move waits for a mutex that some thread holds, of higher rank
    than everything it holds itself. *)
Lemma blocked_inv {A} (c : config L S A) i h p :
  pool_ordered (pool c) -> pool c !! i = Some (Running h p) -> thread_step i c = None ->
  exists l, l ∈ all_held (pool c) /\ forall l', l' ∈ h -> (rank l' < rank l)%nat.
Proof.
  intros Hc E Hi. pose proof (Forall_lookup_1 _ _ _ _ Hc E) as Hp. simpl in Hp.
  unfold thread_step in Hi. rewrite E in Hi. destruct p as [a|l q p|l p|B m k]; [done| |done|].
  - destruct Hp as [Hl _]. repeat case_decide; simplify_eq/=. eauto.
  - by destruct (m (shared c)).
Qed.

Lemma rank_le_max (l : L) ls : l ∈ ls -> (rank l <= max_list (rank <$> ls))%nat.
Proof. intros. by apply max_list_elem_of_le, list_elem_of_fmap_2. Qed.

Lemma holder_moves {A} (c : config L S A) l :
  pool_ordered (pool c) -> l ∈ all_held (pool c) -> exists c', step c c'.
Proof.
  intros Hc. remember (max_list (rank <$> all_held (pool c)) - rank l)%nat as n eqn:En.
  revert l En. induction n as [n IH] using lt_wf_ind. intros l En Hl.
  pose proof (rank_le_max _ _ Hl).
  apply elem_of_all_held in Hl as (i & [h p| |] & E & Hl); simpl in Hl; [|by apply elem_of_nil in Hl..].
  destruct (thread_step i c) as [c'|] eqn:Hi; [by exists c', i|].
  destruct (blocked_inv c i h p) as (l2 & Hl2 & Hr); [done..|]. specialize (Hr l Hl).
  pose proof (rank_le_max _ _ Hl2). eapply IH; [|reflexivity|done]. lia.
Qed.

(** Whatever the interleaving, while a thread has not ended some thread can move. *)
Lemma deadlock_free {A} s (ps : list (prog L S A)) c :
  Forall (fun p => ordered [] p (fun _ _ => True)) ps -> reachable s ps c ->
  Forall ended (pool c) \/ exists c', step c c'.
Proof.
  intros Hps Hc. apply pool_ordered_reachable in Hc as Ho; [|done].
  destruct (decide (Exists (fun t => ~ ended t) (pool c))) as [Hex|Hn].
  - right. apply Exists_exists in Hex as (t & (i & E)%list_elem_of_lookup & Ht).
    destruct t as [h p| |]; [|by destruct Ht..].
    destruct (thread_step i c) as [c'|] eqn:Hi; [by exists c', i|].
    destruct (blocked_inv c i h p) as (l & Hl & _); [done..|]. by eapply holder_moves.
  - left. apply Forall_forall. intros t Ht. destruct (decide (ended t)); [done|].
    destruct Hn. apply Exists_exists. eauto.
Qed.

(** From wherever the threads are, every thread can be brought to its end. *)
Lemma can_end {A} s (ps : list (prog L S A)) c :
  Forall (fun p => ordered [] p (fun _ _ => True)) ps -> reachable s ps c ->
  exists c', rtc step c c' /\ Forall ended (pool c').
Proof.
  intros Hps. induction (steps_terminate c) as [c _ IH]. intros Hc.
  destruct (deadlock_free s ps c) as [He|[c' Hs]]; [done|done|by exists c|].
  destruct (IH c' Hs) as (c2 & ? & ?); [by eapply rtc_r|]. exists c2. split; [by eapply rtc_l|done].
Qed.
(** Some interleaving brings every thread to its end. *)
Lemma some_end {A} s (ps : list (prog L S A)) :
  Forall (fun p => ordered [] p (fun _ _ => True)) ps -> exists c, reachable s ps c /\ Forall ended (pool c).
Proof. intros Hps. apply (can_end s ps (start s ps) Hps). apply rtc_refl. Qed.
End order.

(** * A thread that is not disturbed *)

Section alone.
Context {L S A : Type} `{EqDecision L} (rank : L -> nat).

(** While no other thread holds a mutex and none is poisoned, a thread behaves as the
    program on its own, whatever else is in the pool. *)
Lemma run_alone i (p : prog L S A) : forall c h a s,
  poisoned c = [] -> pool c !! i = Some (Running h p) ->
  (forall j t, i <> j -> pool c !! j = Some t -> held_by t = []) ->
  ordered rank h p (fun _ _ => True) -> run p (shared c) = Done a s ->
  exists sched, run_schedule sched c = Some (Config s [] (<[i := Finished a]> (pool c))).
Proof.
  induction p as [x|l q _ p IH|l p IH|B m k IH]; intros c h a s Hp E Ho Hord Hrun; simpl in *.
  - injection Hrun as <- <-. exists [i]. simpl. unfold thread_step. by rewrite E, Hp.
  - destruct Hord as (Hl & _ & Hord).
    assert (l ∉ all_held (pool c)) as Hfree.
    { intros (j & t & Hj & Ht)%elem_of_all_held. destruct (decide (i = j)) as [<-|Hij].
      - simplify_eq/=. specialize (Hl l Ht). lia.
      - rewrite (Ho j t) in Ht by done. by apply elem_of_nil in Ht. }
    destruct (IH (Config (shared c) [] (<[i := Running (l :: h) p]> (pool c))) (l :: h) a s) as [sched Hs];
      simpl; [done|by eapply lookup_self| |done|done|].
    { intros j t Hij. rewrite lookup_other by done. eauto. }
    exists (i :: sched). simpl. unfold thread_step. rewrite E, decide_False, Hp by done.
    rewrite decide_False by apply not_elem_of_nil. simpl. rewrite Hs. simpl. by rewrite list_insert_insert_eq.
  - destruct (IH (Config (shared c) [] (<[i := Running (release l h) p]> (pool c))) (release l h) a s) as [sched Hs];
      simpl; [done|by eapply lookup_self| |done|done|].
    { intros j t Hij. rewrite lookup_other by done. eauto. }
    exists (i :: sched). simpl. unfold thread_step. rewrite E, Hp. simpl. rewrite Hs. simpl.
    by rewrite list_insert_insert_eq.
  - unfold mbind, M_bind in Hrun. destruct (m (shared c)) as [b s1|s1|z s1] eqn:Em; [|done..].
    destruct (IH b (Config s1 [] (<[i := Running h (k b)]> (pool c))) h a s) as [sched Hs];
      simpl; [done|by eapply lookup_self| |done|done|].
    { intros j t Hij. rewrite lookup_other by done. eauto. }
    exists (i :: sched). simpl. unfold thread_step. rewrite E, Em, Hp. simpl. rewrite Hs. simpl.
    by rewrite list_insert_insert_eq.
Qed.
End alone.

(** * A logic for interleavings *)

(** Which part of the state each mutex protects and with which invariant, what holds at
    every step, how the state may evolve, and whether a thread may end the process. *)
Record discipline (L S : Type) := Discipline {
  agree : L -> S -> S -> Prop;
  lock_inv : L -> S -> Prop;
  global_inv : S -> Prop;
  evolves : S -> S -> Prop;
  can_exit : Prop;
  agree_refl l s : agree l s s;
  agree_trans l s1 s2 s3 : agree l s1 s2 -> agree l s2 s3 -> agree l s1 s3;
  lock_inv_agree l s s' : agree l s s' -> lock_inv l s -> lock_inv l s';
  evolves_refl s : evolves s s;
  evolves_trans s1 s2 s3 : evolves s1 s2 -> evolves s2 s3 -> evolves s1 s3;
}.
Arguments agree {L S} _ _ _ _.
Arguments lock_inv {L S} _ _ _.
Arguments global_inv {L S} _ _.
Arguments evolves {L S} _ _ _.
Arguments can_exit {L S} _.
Arguments agree_refl {L S} _ _ _.
Arguments agree_trans {L S} _ _ _ _ _.
Arguments lock_inv_agree {L S} _ _ _ _.
Arguments evolves_refl {L S} _ _.
Arguments evolves_trans {L S} _ _ _ _.

Section logic.
Context {L S : Type} `{EqDecision L} (D : discipline L S) (may_panic : Prop).

(** What the other threads may do to a thread that holds [h], and what it may do itself. *)
Definition rely (h : list L) (s s' : S) : Prop :=
  evolves D s s' /\ global_inv D s' /\ forall l, l ∈ h -> agree D l s s'.
Definition guarantee (h : list L) (s s' : S) : Prop :=
  evolves D s s' /\ global_inv D s' /\ forall l, l ∉ h -> agree D l s s'.

Fixpoint safe {A} (h : list L) (p : prog L S A) (K : list L -> A -> S -> Prop) (s : S) : Prop :=
  match p with
  | Ret a => forall s', rely h s s' -> K h a s'
  | Lock l q p =>
      (l ∉ h) /\ forall s', rely h s s' ->
        (may_panic -> safe h q K s') /\ (lock_inv D l s' -> safe (l :: h) p K s')
  | Unlock l p => l ∈ h /\ lock_inv D l s /\ safe (release l h) p K s
  | Act m k =>
      forall s', rely h s s' ->
        match m s' with
        | Done b s2 => guarantee h s' s2 /\ safe h (k b) K s2
        | Panicked s2 => may_panic /\ guarantee h s' s2
        | Exited _ s2 => can_exit D /\ evolves D s' s2 /\ global_inv D s2
        end
  end.

Lemma rely_trans h s1 s2 s3 : rely h s1 s2 -> rely h s2 s3 -> rely h s1 s3.
Proof.
  intros (E1 & _ & A1) (E2 & G2 & A2). split; [by eapply evolves_trans|]. split; [done|].
  intros. eapply agree_trans; eauto.
Qed.
Lemma rely_refl h s : global_inv D s -> rely h s s.
Proof. split; [apply evolves_refl|]. split; [done|]. intros. apply agree_refl. Qed.
Lemma guarantee_refl h s : global_inv D s -> guarantee h s s.
Proof. split; [apply evolves_refl|]. split; [done|]. intros. apply agree_refl. Qed.
Lemma rely_release h l s s' : rely h s s' -> rely (release l h) s s'.
Proof.
  intros (E1 & G1 & A1). split; [done|]. split; [done|]. intros l' [? _]%elem_of_release. auto.
Qed.

Lemma safe_rely {A} h (p : prog L S A) K s s' : safe h p K s -> rely h s s' -> safe h p K s'.
Proof.
  revert h s s'. induction p as [a|l q IHq p IHp|l p IHp|B m k IHk]; simpl; intros h s s' Hp Hr.
  - intros. apply Hp. by eapply rely_trans.
  - destruct Hp as [? Hp]. split; [done|]. intros. apply Hp. by eapply rely_trans.
  - destruct Hp as (Hl & Hi & Hp). split; [done|]. split.
    + eapply lock_inv_agree; [|exact Hi]. by apply Hr.
    + eapply IHp; [exact Hp|]. by apply rely_release.
  - intros. apply Hp. by eapply rely_trans.
Qed.

Lemma safe_mono {A} h (p : prog L S A) (K K' : list L -> A -> S -> Prop) s :
  safe h p K s -> (forall h a s, K h a s -> K' h a s) -> safe h p K' s.
Proof.
  intros Hp HK. revert h s Hp. induction p as [a|l q IHq p IHp|l p IHp|B m k IHk]; simpl; intros h s Hp.
  - auto.
  - destruct Hp as [? Hp]. split; [done|]. intros s' Hr. destruct (Hp s' Hr). auto.
  - destruct Hp as (? & ? & ?). auto.
  - intros s' Hr. specialize (Hp s' Hr). destruct (m s'); [|done..]. destruct Hp. auto.
Qed.

Lemma safe_bind {A B} h (p : prog L S A) (k : A -> prog L S B) K s :
  global_inv D s -> safe h p (fun h a s => safe h (k a) K s) s -> safe h (p ≫= k) K s.
Proof.
  revert h s. induction p as [a|l q IHq p IHp|l p IHp|C m f IHf]; intros h s Hg Hp.
  - by apply Hp, rely_refl.
  - destruct Hp as [Hl Hp]. split; [done|]. intros s' Hr. destruct (Hp s' Hr) as [H1 H2].
    assert (global_inv D s') by apply Hr. split; intros; [apply IHq|apply IHp]; auto.
  - destruct Hp as (? & ? & ?). split; [done|]. split; [done|]. by apply IHp.
  - intros s' Hr. specialize (Hp s' Hr). destruct (m s') as [b s2|s2|]; [|done..].
    destruct Hp as [Hg2 Hp]. split; [done|]. apply IHf; [apply Hg2|done].
Qed.

(** ** Soundness *)

(** Reading or writing under a guard that is acquired and dropped at once. *)
Lemma safe_guarded {B} h l (m : M S B) (K : list L -> B -> S -> Prop) s :
  l ∉ h ->
  (forall s', rely h s s' -> lock_inv D l s' ->
     exists b s2, m s' = Done b s2 /\ guarantee (l :: h) s' s2 /\ lock_inv D l s2 /\
       forall s3, rely h s2 s3 -> K h b s3) ->
  safe h (guarded l m) K s.
Proof.
  intros Hl Hm. split; [done|]. intros s' Hr. split.
  - intros Hp s2 Hr2. simpl. split; [done|]. apply guarantee_refl, Hr2.
  - intros Hi s2 Hr2.
    assert (rely h s' s2) as Hr3 by (destruct Hr2 as (? & ? & HA); split_and!; [done..|]; intros; apply HA; by right).
    assert (lock_inv D l s2) as Hi2 by (eapply lock_inv_agree; [apply Hr2; by left|done]).
    destruct (Hm s2) as (b & s4 & Em & Hg & Hi4 & HK); [by eapply rely_trans|done|].
    rewrite Em. split; [done|]. split; [by left|]. split; [done|]. simpl.
    by rewrite release_cons.
Qed.

(** Every result of a program, in whatever states its actions find; only [I] is known of
    each state. *)
Fixpoint outs {A} (I : S -> Prop) (Q : A -> Prop) (p : prog L S A) : Prop :=
  match p with
  | Ret a => Q a
  | Lock _ q p => outs I Q q /\ outs I Q p
  | Unlock _ p => outs I Q p
  | Act m k => forall s b s', I s -> m s = Done b s' -> outs I Q (k b)
  end.

Lemma safe_outs {A} (I : S -> Prop) h (p : prog L S A) K (Q : A -> Prop) s :
  (forall s, global_inv D s -> I s) -> safe h p K s -> outs I Q p ->
  safe h p (fun h a s => K h a s /\ Q a) s.
Proof.
  intros HI. revert h s. induction p as [a|l q IHq p IHp|l p IHp|B m k IHk]; simpl; intros h s Hp HQ.
  - auto.
  - destruct Hp as [? Hp], HQ. split; [done|]. intros s' Hr. destruct (Hp s' Hr). auto.
  - destruct Hp as (? & ? & ?). auto.
  - intros s' Hr. specialize (Hp s' Hr). destruct (m s') as [b s2| |] eqn:E; [|done..]. destruct Hp.
    split; [done|]. apply IHk; [done|]. eapply HQ; [|done]. apply HI, Hr.
Qed.

Context {A : Type}.

Definition top (Q : A -> Prop) (h : list L) (a : A) (s : S) : Prop :=
  Q a /\ forall l, l ∈ h -> lock_inv D l s.

Definition thread_ok (s : S) (Q : A -> Prop) (t : thread L S A) : Prop :=
  match t with
  | Running h p => safe h p (top Q) s
  | Finished a => Q a
  | Crashed => may_panic
  end.

Record pool_ok (Qs : list (A -> Prop)) (c : config L S A) : Prop := {
  ok_global : global_inv D (shared c);
  ok_threads j t : pool c !! j = Some t -> exists Q, Qs !! j = Some Q /\ thread_ok (shared c) Q t;
  ok_excl i j t t' l : pool c !! i = Some t -> pool c !! j = Some t' ->
    l ∈ held_by t -> l ∈ held_by t' -> i = j;
  ok_locks l : l ∉ all_held (pool c) -> l ∉ poisoned c -> lock_inv D l (shared c);
  ok_poison l : l ∈ poisoned c -> may_panic;
}.

Lemma thread_ok_rely s s' Q t : thread_ok s Q t -> rely (held_by t) s s' -> thread_ok s' Q t.
Proof. destruct t; simpl; [apply safe_rely|done..]. Qed.

(** Thread [i] becomes [t'] and the state [s']. *)
Lemma pool_ok_update Qs c i h p Q s' ps' t' :
  pool_ok Qs c -> pool c !! i = Some (Running h p) -> Qs !! i = Some Q ->
  guarantee h (shared c) s' ->
  (forall l, l ∈ held_by t' -> l ∈ h \/ l ∉ all_held (pool c)) ->
  (forall l, l ∈ h -> l ∉ held_by t' -> l ∉ ps' -> lock_inv D l s') ->
  (forall l, l ∈ poisoned c -> l ∈ ps') -> (forall l, l ∈ ps' -> may_panic) ->
  thread_ok s' Q t' ->
  pool_ok Qs (Config s' ps' (<[i := t']> (pool c))).
Proof.
  intros Hc E HQ (Hev & Hg & Hag) Hheld Hrel Hps Hpan Ht.
  assert (forall j t l, i <> j -> pool c !! j = Some t -> l ∈ held_by t -> l ∉ h) as Hother.
  { intros j t l Hij Ej Hl Hh. apply Hij. by eapply (ok_excl _ _ Hc i j). }
  assert (forall j t l, i <> j -> pool c !! j = Some t -> l ∈ held_by t -> l ∈ held_by t' -> False) as Hdisj.
  { intros j t l Hij Ej Hl [Hh|Hh]%Hheld; [by eapply Hother|]. apply Hh, elem_of_all_held. eauto. }
  split; simpl.
  - done.
  - intros j t. destruct (decide (i = j)) as [<-|Hij].
    + rewrite (lookup_self _ _ _ _ E). intros [= <-]. eauto.
    + rewrite lookup_other by done. intros Ej. destruct (ok_threads _ _ Hc j t Ej) as (Qj & EQ & Hok).
      exists Qj. split; [done|]. eapply thread_ok_rely; [exact Hok|]. split_and!; [done..|].
      intros l Hl. apply Hag. by eapply Hother.
  - intros a b ta tb l. destruct (decide (i = a)) as [<-|Ha], (decide (i = b)) as [<-|Hb]; [done|..];
      rewrite ?(lookup_self _ _ _ _ E), ?lookup_other by done; intros Ea Eb Hla Hlb; simplify_eq.
    + exfalso. by eapply (Hdisj b tb).
    + exfalso. by eapply (Hdisj a ta).
    + by eapply (ok_excl _ _ Hc a b).
  - intros l Hl Hp. rewrite elem_of_all_held in Hl. destruct (decide (l ∈ h)) as [Hh|Hh].
    + apply Hrel; [done| |done]. intros Ht'. apply Hl. exists i, t'. by rewrite (lookup_self _ _ _ _ E).
    + eapply lock_inv_agree; [by apply Hag|]. apply (ok_locks _ _ Hc); [|auto].
      rewrite elem_of_all_held. intros (j & t & Ej & Ht2). destruct (decide (i = j)) as [<-|Hij].
      * simplify_eq/=. done.
      * apply Hl. exists j, t. by rewrite lookup_other.
  - done.
Qed.

(** The process has ended. *)
Definition gone (c : config L S A) : Prop :=
  can_exit D /\ Forall (eq Crashed) (pool c) /\ global_inv D (shared c).
Lemma gone_nf c c' : gone c -> ~ step c c'.
Proof.
  intros (_ & Hc & _) [i Hi]. unfold thread_step in Hi. destruct (pool c !! i) as [t|] eqn:E; [|done].
  by rewrite <- (Forall_lookup_1 _ _ _ _ Hc E) in Hi.
Qed.

Lemma pool_ok_step Qs (c c' : config L S A) :
  pool_ok Qs c -> step c c' -> (pool_ok Qs c' \/ gone c') /\ evolves D (shared c) (shared c').
Proof.
  intros Hc [i Hi]. unfold thread_step in Hi.
  destruct (pool c !! i) as [[h p| |]|] eqn:E; [|done..].
  destruct (ok_threads _ _ Hc i _ E) as (Q & HQ & Hok). simpl in Hok.
  pose proof (ok_global _ _ Hc) as Hg. pose proof (guarantee_refl h _ Hg) as Hgr.
  pose proof (rely_refl h _ Hg) as Hrr. pose proof (ok_poison _ _ Hc) as Hpo.
  destruct p as [a|l q p|l p|B m k]; simpl in Hok.
  - simplify_eq/=. split; [left|apply evolves_refl]. destruct (Hok _ Hrr) as [Ha Hl].
    eapply pool_ok_update; [done..| | | | |done]; simpl; try done.
    + by intros l ?%elem_of_nil.
    + auto.
  - destruct Hok as [Hlh Hok]. destruct (Hok _ Hrr) as [Hbad Hgood].
    repeat case_decide; simplify_eq/=; (split; [left|apply evolves_refl]).
    + eapply pool_ok_update; [done..| | | | |]; simpl; eauto. by intros.
    + eapply pool_ok_update; [done..| | | | |]; simpl; eauto.
      * intros l' [->|?]%elem_of_cons; auto.
      * intros l' ? Hn. destruct Hn. by right.
      * apply Hgood, (ok_locks _ _ Hc); done.
  - destruct Hok as (Hlh & Hinv & Hok). simplify_eq/=. split; [left|apply evolves_refl].
    eapply pool_ok_update; [done..| | | | |]; simpl; eauto.
    + intros l' [? _]%elem_of_release. auto.
    + intros l' Hl' Hn _. destruct (decide (l' = l)) as [->|]; [done|]. destruct Hn. by apply elem_of_release.
  - specialize (Hok _ Hrr). destruct (m (shared c)) as [b s2|s2|z s2]; destruct Hok as [H1 H2]; simplify_eq/=.
    + split; [left|apply H1]. eapply pool_ok_update; [done..| | | | |]; simpl; eauto. by intros.
    + split; [left|apply H2]. eapply pool_ok_update; [done..| | | | |]; simpl.
      * by intros l ?%elem_of_nil.
      * intros l Hl _ Hn. destruct Hn. apply elem_of_app. auto.
      * intros l Hl. apply elem_of_app. auto.
      * done.
      * done.
    + split; [right|apply H2]. split; [done|]. split; [|apply H2]. by apply Forall_fmap, Forall_true.
Qed.

(** Every interleaving keeps the invariants, evolves the state, and every result is as its
    thread promises, until the process ends; a thread crashes only where a panic is allowed. *)
Lemma threads_sound Qs s (ps : list (prog L S A)) c :
  global_inv D s -> (forall l, lock_inv D l s) ->
  Forall2 (fun Q p => safe [] p (top Q) s) Qs ps -> reachable s ps c ->
  (pool_ok Qs c \/ gone c) /\ evolves D s (shared c).
Proof.
  intros Hg Hl Hps Hc.
  refine (rtc_ind_r (R := step) (fun c => (pool_ok Qs c \/ gone c) /\ evolves D s (shared c)) (start s ps) _ _ c Hc).
  - split; [left|apply evolves_refl]. split; simpl; [done|..].
    + intros j t Ej. apply list_lookup_fmap_Some in Ej as (p & -> & Ej).
      destruct (Forall2_lookup_r _ _ _ _ _ Hps Ej) as (Q & ? & ?). eauto.
    + intros i j t t' l Ei. apply list_lookup_fmap_Some in Ei as (p & -> & _).
      by intros _ ?%elem_of_nil.
    + auto.
    + by intros l ?%elem_of_nil.
  - intros y z _ Hstep [[IH|IH] IHe]; [|by destruct (gone_nf _ _ IH Hstep)].
    destruct (pool_ok_step _ _ _ IH Hstep). split; [done|].
    by eapply evolves_trans.
Qed.
End logic.

(** * The results of a program *)

Section outs.
Context {L S : Type} (I : S -> Prop).

Lemma outs_any {A} (Q : A -> Prop) (p : prog L S A) : (forall a, Q a) -> outs I Q p.
Proof. intros HQ. induction p; simpl; auto. Qed.
Lemma outs_bind {A B} (Q : B -> Prop) (p : prog L S A) (k : A -> prog L S B) :
  outs I (fun a => outs I Q (k a)) p -> outs I Q (p ≫= k).
Proof.
  induction p as [a|l q IHq p IHp|l p IHp|C m f IH]; intros Hp; [exact Hp| |by apply IHp|].
  - destruct Hp. split; [by apply IHq|by apply IHp].
  - intros s b s' Hs E. eapply IH, Hp; eauto.
Qed.
Lemma outs_mono {A} (Q Q' : A -> Prop) (p : prog L S A) : outs I Q p -> (forall a, Q a -> Q' a) -> outs I Q' p.
Proof.
  intros Hp HQ. induction p as [a|l q IHq p IHp|l p IHp|C m f IH]; simpl in *; [auto| |auto|].
  - destruct Hp. auto.
  - intros s b s' Hs E. eauto.
Qed.
Lemma outs_act {A} (Q : A -> Prop) (m : M S A) :
  (forall s a s', I s -> m s = Done a s' -> Q a) -> outs I Q (act (L := L) m).
Proof. intros H s a s' Hs E. by eapply H. Qed.
Lemma outs_guarded {A} (Q : A -> Prop) l (m : M S A) :
  (forall s a s', I s -> m s = Done a s' -> Q a) -> outs I Q (guarded (L := L) l m).
Proof. intros H. split; [by intros s b|]. intros s a s' Hs E. by eapply H. Qed.
(** When nothing is known of the result of the first part. *)
Lemma outs_then {A B} (Q : B -> Prop) (p : prog L S A) (k : A -> prog L S B) :
  (forall a, outs I Q (k a)) -> outs I Q (p ≫= k).
Proof. intros H. by apply outs_bind, outs_any. Qed.
End outs.
