(* ===== verification/Crypto.v ===== *)
(** The third-party crates the kernel calls, as parameters of the model.

    [Primitives] lists the operations: SHA-256 ([sha2]), HMAC-SHA256 ([hmac]),
    HKDF-SHA256 ([hkdf]), AES-256-GCM ([aes_gcm]), ChaCha20Poly1305
    ([chacha20poly1305]), ML-KEM-1024 ([pqc_kyber]), the operating system's
    random generator ([rand::rngs::OsRng]) and [zeroize].  [PrimitivesOk] states the documented
    behaviour the kernel relies on: output lengths, what is accepted, the AEAD
    correctness law and its converse (a ciphertext that opens is the one sealing
    produces), and ML-KEM decapsulation of an encapsulation.  No secrecy or
    unforgeability statement is assumed.

    Three simplifications: ML-KEM rejects implicitly, so decapsulation of any ciphertext and
    secret key of the right lengths returns some shared secret; its decapsulation failures,
    of probability below 2^-160, are left out; and the operating system's generator always
    delivers ([OsRng] panics when it cannot, which is not represented).

    [toy] is a concrete, insecure instance: it shows the laws can hold together
    and gives the witnesses something to run on. *)
From S2P Require Import Prelude Effects.

Class Primitives := {
  sha256 : bytes -> bytes;
  hmac_sha256 : bytes -> bytes -> bytes;
  (** [Hkdf::new(Some(salt), ikm)]: the pseudo-random key. *)
  hkdf_extract : bytes -> bytes -> bytes;
  (** [hk.expand(info, &mut okm)] for an output of the given length. *)
  hkdf_expand : bytes -> bytes -> Z -> option bytes;
  (** [Aes256Gcm]: key, nonce, associated data, message. *)
  aes_gcm_encrypt : bytes -> bytes -> bytes -> bytes -> option bytes;
  aes_gcm_decrypt : bytes -> bytes -> bytes -> bytes -> option bytes;
  (** [ChaCha20Poly1305]: key, nonce, message. *)
  chacha_encrypt : bytes -> bytes -> bytes -> option bytes;
  chacha_decrypt : bytes -> bytes -> bytes -> option bytes;
  (** [OsRng]: [fill_bytes] for a slice of the given length, and [next_u32]. *)
  rng : Type;
  fill_bytes : Z -> rng -> bytes * rng;
  next_u32 : rng -> Z * rng;
  (** [pqc_kyber]: (public, secret); (ciphertext, shared secret). *)
  kyber_keypair : rng -> (bytes * bytes) * rng;
  kyber_encapsulate : bytes -> rng -> option (bytes * bytes) * rng;
  kyber_decapsulate : bytes -> bytes -> option bytes;
  (** [zeroize::Zeroize] on a byte array. *)
  zeroize : bytes -> bytes;
}.

(** An AEAD with 16-byte tags over 32-byte keys and 12-byte nonces. *)
Record aead_laws (enc dec : bytes -> bytes -> bytes -> bytes -> option bytes) : Prop := {
  aead_total k n a p : lenZ k = 32 -> lenZ n = 12 -> lenZ p < 2 ^ 32 -> lenZ a < 2 ^ 32 ->
    is_Some (enc k n a p);
  aead_open k n a p c : enc k n a p = Some c -> dec k n a c = Some p;
  aead_len k n a p c : enc k n a p = Some c -> lenZ c = lenZ p + 16;
  aead_only k n a p c : dec k n a c = Some p -> enc k n a p = Some c;
}.
Arguments aead_total {enc dec}.
Arguments aead_open {enc dec}.
Arguments aead_len {enc dec}.
Arguments aead_only {enc dec}.

Class PrimitivesOk (P : Primitives) : Prop := {
  sha256_len m : lenZ (sha256 m) = 32;
  hmac_len k m : lenZ (hmac_sha256 k m) = 32;
  hkdf_expand_ok prk info n :
    0 <= n <= 255 * 32 -> exists okm, hkdf_expand prk info n = Some okm /\ lenZ okm = n;
  aes_gcm_ok : aead_laws aes_gcm_encrypt aes_gcm_decrypt;
  chacha_ok : aead_laws (fun k n _ p => chacha_encrypt k n p) (fun k n _ c => chacha_decrypt k n c);
  fill_len n r : 0 <= n -> lenZ (fill_bytes n r).1 = n;
  fill_bytes_ok n r : is_bytes (fill_bytes n r).1;
  next_u32_range r : is_u 32 (next_u32 r).1;
  kyber_keypair_len r :
    lenZ (kyber_keypair r).1.1 = 1568 /\ lenZ (kyber_keypair r).1.2 = 3168;
  kyber_encapsulate_ok pk r :
    is_Some (kyber_encapsulate pk r).1 <-> lenZ pk = 1568;
  kyber_encapsulate_len pk r ct ss :
    (kyber_encapsulate pk r).1 = Some (ct, ss) -> lenZ ct = 1568 /\ lenZ ss = 32;
  kyber_decapsulate_ok ct sk :
    is_Some (kyber_decapsulate ct sk) <-> lenZ ct = 1568 /\ lenZ sk = 3168;
  kyber_decapsulate_len ct sk ss :
    kyber_decapsulate ct sk = Some ss -> lenZ ss = 32;
  kyber_correct r r' pk sk ct ss :
    (kyber_keypair r).1 = (pk, sk) -> (kyber_encapsulate pk r').1 = Some (ct, ss) ->
    kyber_decapsulate ct sk = Some ss;
  zeroize_zeros l : zeroize l = repZ (lenZ l) 0;
}.

(** Calls on the generator, as computations over its state. *)
Section random.
Context `{HP : Primitives}.
Definition draw_bytes (n : Z) : M rng bytes := fun r => Done (fill_bytes n r).1 (fill_bytes n r).2.
Definition draw_u32 : M rng Z := fun r => Done (next_u32 r).1 (next_u32 r).2.
End random.

(** * A concrete instance *)

Section toy.
Definition toy_digest (m : bytes) : Z := foldl (fun h b => (h * 31 + b + 7) mod 2 ^ 61) 17 m.
Definition toy_hash (n : Z) (m : bytes) : bytes :=
  (fun i => (toy_digest m / 2 ^ i + i * toy_digest m) mod 256) <$> seqZ 0 n.
Definition toy_tag (k n a p : bytes) : bytes :=
  toy_hash 16 (k ++ n ++ a ++ p ++ [lenZ a; lenZ p]).
Definition toy_seal (k n a p : bytes) : option bytes := Some (p ++ toy_tag k n a p).
Definition toy_open (k n a c : bytes) : option bytes :=
  let p := takeZ (lenZ c - 16) c in
  if decide (c = p ++ toy_tag k n a p) then Some p else None.

#[export] Instance toy : Primitives := {|
  sha256 := toy_hash 32;
  hmac_sha256 k m := toy_hash 32 (k ++ m);
  hkdf_extract salt ikm := toy_hash 32 (salt ++ ikm);
  hkdf_expand prk info n :=
    if (0 <=? n) && (n <=? 255 * 32) then Some (toy_hash n (prk ++ info)) else None;
  aes_gcm_encrypt := toy_seal;
  aes_gcm_decrypt := toy_open;
  chacha_encrypt k n p := toy_seal k n [] p;
  chacha_decrypt k n c := toy_open k n [] c;
  rng := Z;
  fill_bytes n r := ((fun i => (r + i) mod 256) <$> seqZ 0 n, r + n);
  next_u32 r := (r mod 2 ^ 32, r + 1);
  kyber_keypair r := ((repZ 1568 (r mod 256), repZ 3168 (r mod 256)), r + 1);
  kyber_encapsulate pk r :=
    (if decide (lenZ pk = 1568)
     then Some (repZ 1568 (r mod 256), repZ 32 ((default 0 (head pk) + r mod 256) mod 256))
     else None, r + 1);
  kyber_decapsulate ct sk :=
    if decide (lenZ ct = 1568 /\ lenZ sk = 3168)
    then Some (repZ 32 ((default 0 (head sk) + default 0 (head ct)) mod 256)) else None;
  zeroize l := (fun _ => 0) <$> l;
|}.
End toy.

Lemma toy_hash_len n m : lenZ (toy_hash n m) = Z.max 0 n.
Proof. unfold toy_hash, lenZ. rewrite length_fmap, length_seqZ. lia. Qed.

Lemma toy_aead_laws : aead_laws toy_seal toy_open.
Proof.
  split.
  - intros. eauto.
  - intros k n a p c [= <-]. unfold toy_open.
    assert (takeZ (lenZ (p ++ toy_tag k n a p) - 16) (p ++ toy_tag k n a p) = p) as E.
    { apply takeZ_app_exact. unfold toy_tag. rewrite lenZ_app, toy_hash_len. lia. }
    rewrite E. by rewrite decide_True.
  - intros k n a p c [= <-]. unfold toy_tag. rewrite lenZ_app, toy_hash_len. lia.
  - unfold toy_open, toy_seal. intros k n a p c. case_decide; [|done]. intros [= <-]. congruence.
Qed.

Lemma head_repZ (n x : Z) : 0 < n -> head (repZ n x) = Some x.
Proof.
  intros. unfold repZ. destruct (Z.to_nat n) eqn:E; [lia|done].
Qed.

#[export] Instance toy_ok : PrimitivesOk toy.
Proof.
  split; simpl.
  - intros. rewrite toy_hash_len. lia.
  - intros. rewrite toy_hash_len. lia.
  - intros prk info n Hn. destruct (Z.leb_spec 0 n), (Z.leb_spec n (255 * 32)); try lia.
    eexists. split; [done|]. rewrite toy_hash_len. lia.
  - exact toy_aead_laws.
  - destruct toy_aead_laws as [H1 H2 H3 H4]. split; intros; eauto.
  - intros. unfold lenZ. rewrite length_fmap, length_seqZ. lia.
  - intros. apply Forall_fmap, Forall_true. intros. apply Z.mod_pos_bound. lia.
  - intros. apply Z.mod_pos_bound. lia.
  - intros. rewrite !lenZ_repZ. lia.
  - intros. destruct (decide (lenZ pk = 1568)); [naive_solver|].
    split; [intros [? [=]]|naive_solver].
  - intros pk r ct ss. destruct (decide (lenZ pk = 1568)); [|done].
    intros [= <- <-]. rewrite !lenZ_repZ. lia.
  - intros. destruct (decide (lenZ ct = 1568 /\ lenZ sk = 3168)); [by eauto|].
    split; [by intros [? [=]]|by intros].
  - intros ct sk ss. destruct (decide _); [|done]. intros [= <-]. by rewrite lenZ_repZ.
  - intros r r' pk sk ct ss [= <- <-]. rewrite decide_True by (by rewrite lenZ_repZ).
    intros [= <- <-]. rewrite decide_True by (by rewrite !lenZ_repZ).
    by rewrite !head_repZ by lia.
  - intros l. unfold repZ, lenZ. rewrite Nat2Z.id. induction l as [|x l IH]; [done|]. simpl. by rewrite <- IH.
Qed.
