(* ===== verification/MemoryProtection.v ===== *)
(** [memory_protection.rs]: the zeroizing byte container and the emergency exit.

    [SecureBuffer] holds the vector; [drop_buffer] is what the allocation holds when [Drop]
    hands it back.  The emergency exit first sends [SIGTERM] to its own process: unless the
    application handles that signal its default action already ends the process, so
    whether it does is an argument.  [fmt_debug] is the [Debug] output, which depends on the
    contents only through their length; the capacity is the allocator's choice. *)
From stdpp Require Import pretty.
From S2P Require Import Prelude Effects Crypto.

(** * [SecureBuffer] *)

Record SecureBuffer := { inner : bytes }.
Definition SecureBuffer_new : SecureBuffer := {| inner := [] |}.
Definition with_capacity (cap : Z) : SecureBuffer := {| inner := [] |}.
Definition from_vec (v : bytes) : SecureBuffer := {| inner := v |}.
Definition as_slice (b : SecureBuffer) : bytes := inner b.
(** Writing one byte through [as_mut_slice]; out of bounds panics. *)
Definition write_mut {S} (b : SecureBuffer) (i x : Z) : M S SecureBuffer :=
  _ ← unwrap (nthZ (inner b) i);
  mret {| inner := setZ (inner b) i x |}.
Definition len (b : SecureBuffer) : Z := lenZ (inner b).
Definition is_empty (b : SecureBuffer) : bool := lenZ (inner b) =? 0.

(** The trait implementations: [Default], [Deref], [From<Vec<u8>>] and [Debug]. *)
Definition SecureBuffer_default : SecureBuffer := SecureBuffer_new.
Definition deref (b : SecureBuffer) : bytes := inner b.
Definition deref_mut {S} (b : SecureBuffer) (i x : Z) : M S SecureBuffer := write_mut b i x.
Definition SecureBuffer_from (v : bytes) : SecureBuffer := from_vec v.
Definition fmt_debug (capacity : Z) (b : SecureBuffer) : string :=
  "SecureBuffer { len: " +:+ pretty (len b) +:+ ", capacity: " +:+ pretty capacity +:+ ", .. }".

Section zeroizing.
Context `{HP : Primitives}.

(** [self.inner.zeroize(); self.inner.clear()]: the memory left behind, and the buffer. *)
Definition clear (b : SecureBuffer) : bytes * SecureBuffer := (zeroize (inner b), SecureBuffer_new).
(** [Drop]. *)
Definition drop_buffer (b : SecureBuffer) : bytes := zeroize (inner b).
End zeroizing.

(** * Emergency exit *)

(** A negative exit code stands for termination by that signal. *)
Definition SIGTERM : Z := 15.
Definition execute_panic_exit {S A} (sigterm_handled : bool) : M S A :=
  if sigterm_handled then exit_process 1 else exit_process (- SIGTERM).
