(* ===== verification/RootState.v ===== *)
(** [root_state.rs]: the three root globals, and the message counter of
    [message_cipher.rs] that the two epoch transitions reset.

    [root_statics] holds the statics behind their mutexes.  The operations keep the
    order of the Rust statements, so a panic in the checked build shows the statics
    exactly as the panic leaves them. *)
From S2P Require Import Prelude Effects Crypto.

(** * State *)

Record root_statics := RootStatics {
  root_curr : bytes;
  root_pend : option bytes;
  epoch : Z;
  msg_counter : Z;
}.

Definition with_curr (k : bytes) (s : root_statics) : root_statics :=
  RootStatics k (root_pend s) (epoch s) (msg_counter s).
Definition with_pend (p : option bytes) (s : root_statics) : root_statics :=
  RootStatics (root_curr s) p (epoch s) (msg_counter s).
Definition with_epoch (e : Z) (s : root_statics) : root_statics :=
  RootStatics (root_curr s) (root_pend s) e (msg_counter s).
Definition with_counter (c : Z) (s : root_statics) : root_statics :=
  RootStatics (root_curr s) (root_pend s) (epoch s) c.

(** The values the [OnceLock]s and the atomic start with. *)
Definition root_init : root_statics := RootStatics (repZ 32 0) None 0 1.

Definition u32_max : Z := 2 ^ 32 - 1.

(** * The message counter ([MSG_COUNTER]) *)

Definition next_msg_seq : M root_statics Z :=
  c ← gets msg_counter;
  modify (with_counter ((c + 1) mod 2 ^ 64));;
  mret c.

Definition reset_msg_counter : M root_statics unit := modify (with_counter 1).

Definition current_msg_seq : M root_statics Z := gets msg_counter.

(** * Accessors *)

Definition set_root_state_curr (key : bytes) : M root_statics unit := modify (with_curr key).
Definition read_root_state_curr : M root_statics bytes := gets root_curr.
Definition set_root_state_pend (key : option bytes) : M root_statics unit := modify (with_pend key).
Definition read_root_state_pend : M root_statics (option bytes) := gets root_pend.
Definition read_epoch_id : M root_statics Z := gets epoch.
Definition set_epoch_id (id : Z) : M root_statics unit := modify (with_epoch id).

(** * Epoch transitions *)

Section ops.
Context `{Primitives} `{BuildProfile}.

Definition commit_evolution : M root_statics Z :=
  pend ← gets root_pend;
  match pend with
  | None => mret 1
  | Some new_key =>
      modify (fun s => with_curr (zeroize (root_curr s)) s);;
      modify (with_curr new_key);;
      modify (with_pend None);;
      e ← gets epoch;
      e' ← chk_u 32 (e + 1);
      modify (with_epoch e');;
      reset_msg_counter;;
      mret 0
  end.

Definition roll_epoch_forward (salt info : bytes) : M root_statics Z :=
  curr ← gets root_curr;
  let hk := hkdf_extract salt curr in
  match hkdf_expand hk info 32 with
  | Some okm =>
      modify (fun s => with_curr (zeroize (root_curr s)) s);;
      modify (with_curr okm);;
      e ← gets epoch;
      e' ← chk_u 32 (e + 1);
      modify (with_epoch e');;
      reset_msg_counter;;
      gets epoch
  | None => mret u32_max
  end.
End ops.

(** * Invariant *)

(** The Rust types: 32-byte roots, a [u32] epoch and a [u64] counter. *)
Record root_ok (s : root_statics) : Prop := {
  root_curr_len : lenZ (root_curr s) = 32;
  root_pend_len k : root_pend s = Some k -> lenZ k = 32;
  epoch_range : is_u 32 (epoch s);
  counter_range : is_u 64 (msg_counter s);
}.
#[export] Hint Resolve root_curr_len root_pend_len epoch_range counter_range : kernel.

Lemma root_init_ok : root_ok root_init.
Proof. split; simpl; [by rewrite lenZ_repZ|done|by unfold is_u..]. Qed.

Lemma root_ok_curr k s : root_ok s -> lenZ k = 32 -> root_ok (with_curr k s).
Proof. intros [] ?. by split. Qed.
Lemma root_ok_pend p s : root_ok s -> (forall k, p = Some k -> lenZ k = 32) -> root_ok (with_pend p s).
Proof. intros [] ?. by split. Qed.
Lemma root_ok_epoch e s : root_ok s -> is_u 32 e -> root_ok (with_epoch e s).
Proof. intros [] ?. by split. Qed.
Lemma root_ok_counter c s : root_ok s -> is_u 64 c -> root_ok (with_counter c s).
Proof. intros [] ?. by split. Qed.
#[export] Hint Resolve root_ok_curr root_ok_pend root_ok_epoch root_ok_counter : kernel.

(** * Behaviour *)

Section specs.
Context `{HP : Primitives} `{HB : BuildProfile}.

(** The epoch after a bump: exact below [u32::MAX], wrapped at it. *)
Definition epoch_succ (e : Z) : Z := if e <? u32_max then e + 1 else 0.

Lemma epoch_succ_range e : is_u 32 e -> is_u 32 (epoch_succ e).
Proof. unfold is_u, epoch_succ, u32_max. intros. destruct (Z.ltb_spec e (2 ^ 32 - 1)); lia. Qed.

Lemma chk_epoch_succ e (s : root_statics) :
  is_u 32 e ->
  chk_u 32 (e + 1) s =
    if (e <? u32_max) || negb overflow_checks then Done (epoch_succ e) s else Panicked s.
Proof.
  unfold is_u, epoch_succ, u32_max. intros He. destruct (Z.ltb_spec e (2 ^ 32 - 1)).
  - rewrite chk_u_ok by (unfold is_u; lia). done.
  - rewrite chk_u_over by (unfold is_u; lia). replace (e + 1) with (2 ^ 32) by lia.
    simpl. by destruct overflow_checks.
Qed.

(** The state in which an epoch transition to root [k] ends. *)
Definition advanced (k : bytes) (p : option bytes) (s : root_statics) : root_statics :=
  RootStatics k p (epoch_succ (epoch s)) 1.

Lemma commit_evolution_eval s :
  is_u 32 (epoch s) ->
  commit_evolution s =
    match root_pend s with
    | None => Done 1 s
    | Some k =>
        if (epoch s <? u32_max) || negb overflow_checks then Done 0 (advanced k None s)
        else Panicked (with_pend None (with_curr k s))
    end.
Proof.
  intros He. destruct s as [c [k|] e n]; [|done]. simpl in *.
  cbv [commit_evolution mbind M_bind gets modify with_curr with_pend with_epoch with_counter
       reset_msg_counter mret M_ret]. simpl.
  rewrite chk_epoch_succ by done. by destruct ((e <? u32_max) || negb overflow_checks).
Qed.

Context `{HOk : !PrimitivesOk HP}.

(** The key one roll of the epoch derives. *)
Definition rolled_key (salt info k : bytes) : bytes :=
  default [] (hkdf_expand (hkdf_extract salt k) info 32).

Lemma rolled_key_some salt info k :
  hkdf_expand (hkdf_extract salt k) info 32 = Some (rolled_key salt info k).
Proof.
  unfold rolled_key. by destruct (hkdf_expand_ok (hkdf_extract salt k) info 32) as (okm & -> & _).
Qed.

Lemma rolled_key_len salt info k : lenZ (rolled_key salt info k) = 32.
Proof.
  unfold rolled_key.
  by destruct (hkdf_expand_ok (hkdf_extract salt k) info 32) as (okm & -> & ?).
Qed.

Lemma roll_epoch_forward_eval salt info s :
  is_u 32 (epoch s) ->
  roll_epoch_forward salt info s =
    if (epoch s <? u32_max) || negb overflow_checks
    then Done (epoch_succ (epoch s)) (advanced (rolled_key salt info (root_curr s)) (root_pend s) s)
    else Panicked (with_curr (rolled_key salt info (root_curr s)) s).
Proof.
  intros He. destruct s as [c p e n]. simpl in *.
  cbv [roll_epoch_forward mbind M_bind gets modify with_curr with_pend with_epoch with_counter
       reset_msg_counter mret M_ret]. simpl.
  rewrite rolled_key_some, chk_epoch_succ by done. simpl.
  by destruct ((e <? u32_max) || negb overflow_checks).
Qed.

Lemma advanced_ok k p s :
  root_ok s -> lenZ k = 32 -> (forall k, p = Some k -> lenZ k = 32) -> root_ok (advanced k p s).
Proof.
  intros [] ??. split; simpl; auto; [|by unfold is_u]. by apply epoch_succ_range.
Qed.

(** [commit_evolution]: without a pending root it returns 1 and changes nothing.  With
    one it installs exactly that root, clears the pending slot, moves to the next epoch and
    restarts the message counter at 1, so that a second commit returns 1.  At the last
    epoch a checked build panics halfway: the new root is installed and the pending slot
    cleared while epoch and counter are still the old ones; a release build wraps to
    epoch 0. *)
Theorem commit_evolution_spec s :
  root_ok s ->
  match root_pend s with
  | None => commit_evolution s = Done 1 s
  | Some k =>
      if decide (epoch s < u32_max) then
        exists s', commit_evolution s = Done 0 s' /\ root_ok s' /\ root_curr s' = k /\
          root_pend s' = None /\ epoch s' = epoch s + 1 /\ msg_counter s' = 1 /\
          commit_evolution s' = Done 1 s'
      else if overflow_checks then
        exists s', commit_evolution s = Panicked s' /\ root_curr s' = k /\ root_pend s' = None /\
          epoch s' = epoch s /\ msg_counter s' = msg_counter s
      else exists s', commit_evolution s = Done 0 s' /\ root_curr s' = k /\ epoch s' = 0
  end.
Proof.
  intros Hs. rewrite commit_evolution_eval by apply Hs. destruct (root_pend s) as [k|] eqn:Ep; [|done].
  pose proof (root_pend_len _ Hs k Ep). unfold advanced, epoch_succ.
  case_decide as He; destruct (Z.ltb_spec (epoch s) u32_max); try lia; simpl.
  - eexists. split; [done|]. split; [|by split_and!].
    split; simpl; [done|done| |by unfold is_u]. destruct (epoch_range _ Hs).
    unfold is_u, u32_max in *. lia.
  - destruct overflow_checks; simpl; eexists; by split_and!.
Qed.
End specs.
#[export] Hint Resolve advanced_ok rolled_key_len epoch_succ_range : kernel.

Lemma commit_evolution_spec_witness :
  exists s', commit_evolution (H := toy) (H0 := true) (RootStatics (repZ 32 1) (Some (repZ 32 2)) 7 40) = Done 0 s' /\
    root_curr s' = repZ 32 2 /\ epoch s' = 8 /\ msg_counter s' = 1.
Proof.
  destruct (commit_evolution_spec (HP := toy) (HB := true) (RootStatics (repZ 32 1) (Some (repZ 32 2)) 7 40))
    as (s' & ? & _ & ? & _ & ? & ? & _).
  - split; simpl; [reflexivity|by intros k [= <-]|by unfold is_u..].
  - exists s'. auto.
Defined.
