(* ===== verification/AntiDos.v ===== *)
(** [anti_dos.rs]: epoch roll-forward after packet loss.

    The loop [for _ in 0..gap] is [roll_loop], structurally recursive on the number
    of iterations left; [rolled] is the reference definition of the key it computes. *)
From S2P Require Import Prelude Effects Crypto RootState.

Section ops.
Context `{Primitives} `{BuildProfile}.

Definition roll_salt : bytes := str_bytes "epoch_roll".
Definition roll_info : bytes := str_bytes "LinkChat Epoch Roll".

Fixpoint roll_loop (iterations : nat) (last : Z) : M root_statics Z :=
  match iterations with
  | O => mret last
  | S iterations =>
      r ← roll_epoch_forward roll_salt roll_info;
      if r =? u32_max then mret u32_max else roll_loop iterations r
  end.

Definition recover_after_loss (target_epoch : Z) : M root_statics Z :=
  e ← read_epoch_id;
  if target_epoch <=? e then mret e
  else
    let gap := target_epoch - e in
    if 100000 <? gap then mret u32_max
    else roll_loop (Z.to_nat gap) e.
End ops.

Section specs.
Context `{HP : Primitives} `{HB : BuildProfile} `{HOk : !PrimitivesOk HP}.

(** The key [n] rolls away from [k]. *)
Definition rolled (n : nat) (k : bytes) : bytes :=
  Nat.iter n (rolled_key roll_salt roll_info) k.

Lemma rolled_S n k : rolled (S n) k = rolled n (rolled_key roll_salt roll_info k).
Proof. unfold rolled. by rewrite Nat.iter_succ_r. Qed.

Lemma rolled_add n m k : rolled (n + m) k = rolled n (rolled m k).
Proof. unfold rolled. by rewrite Nat.iter_add. Qed.

Lemma rolled_len n k : lenZ k = 32 -> lenZ (rolled n k) = 32.
Proof. destruct n; [done|]. intros. apply rolled_key_len. Qed.

(** The statics after [n] rolls. *)
Definition rolled_statics (n : nat) (s : root_statics) : root_statics :=
  match n with
  | O => s
  | S _ => RootStatics (rolled n (root_curr s)) (root_pend s) (epoch s + Z.of_nat n) 1
  end.

Lemma rolled_statics_S n s :
  epoch s < u32_max ->
  rolled_statics n (advanced (rolled_key roll_salt roll_info (root_curr s)) (root_pend s) s) =
  rolled_statics (S n) s.
Proof.
  intros. unfold advanced, epoch_succ. destruct (Z.ltb_spec (epoch s) u32_max); [|lia].
  destruct n; [done|]. unfold rolled_statics. simpl root_curr. rewrite <- rolled_S.
  simpl. f_equal. lia.
Qed.

Lemma roll_loop_eval n s :
  0 <= epoch s -> epoch s + Z.of_nat n <= u32_max ->
  roll_loop n (epoch s) s = Done (epoch s + Z.of_nat n) (rolled_statics n s).
Proof.
  revert s. induction n as [|n IH]; intros s H0 Hb; cbn [roll_loop].
  { unfold mret, M_ret. f_equal. lia. }
  assert (epoch s < u32_max) by lia.
  assert (is_u 32 (epoch s)) by (unfold is_u, u32_max in *; lia).
  unfold mbind, M_bind. rewrite roll_epoch_forward_eval by done.
  destruct (Z.ltb_spec (epoch s) u32_max); [|lia]. cbn [orb].
  rewrite <- (rolled_statics_S n s) by done.
  set (s' := advanced _ _ s).
  assert (epoch s' = epoch s + 1) as E.
  { unfold s', advanced, epoch_succ. simpl. destruct (Z.ltb_spec (epoch s) u32_max); lia. }
  change (epoch_succ (epoch s)) with (epoch s').
  destruct (Z.eqb_spec (epoch s') u32_max) as [Hm|Hm].
  - assert (n = 0%nat) as -> by lia. simpl. unfold mret, M_ret. f_equal. lia.
  - rewrite IH by lia. f_equal. lia.
Qed.

Lemma recover_eval t s :
  is_u 32 (epoch s) -> is_u 32 t ->
  recover_after_loss t s =
    if t <=? epoch s then Done (epoch s) s
    else if 100000 <? t - epoch s then Done u32_max s
    else Done t (rolled_statics (Z.to_nat (t - epoch s)) s).
Proof.
  intros He Ht. unfold recover_after_loss, read_epoch_id. step.
  destruct (Z.leb_spec t (epoch s)); [done|].
  destruct (Z.ltb_spec 100000 (t - epoch s)); [done|].
  unfold is_u, u32_max in *. rewrite roll_loop_eval by (unfold u32_max; lia).
  f_equal. lia.
Qed.

(** Functional behaviour of [recover_after_loss] in both build profiles: a target
    at or below the local epoch is a no-op that returns the local epoch; a gap above
    100,000 leaves the statics untouched and returns [u32::MAX]; otherwise the call
    terminates without a panic, returns the target, and leaves the root rolled exactly
    [target - epoch] times, the counter reset to 1 and the pending root unchanged. *)
Theorem recover_after_loss_spec t s :
  root_ok s -> is_u 32 t ->
  recover_after_loss t s =
    if t <=? epoch s then Done (epoch s) s
    else if 100000 <? t - epoch s then Done u32_max s
    else Done t (RootStatics (rolled (Z.to_nat (t - epoch s)) (root_curr s)) (root_pend s) t 1).
Proof.
  intros Hs Ht. rewrite recover_eval by auto with kernel.
  destruct (Z.leb_spec t (epoch s)); [done|].
  destruct (Z.ltb_spec 100000 (t - epoch s)); [done|].
  destruct (Z.to_nat (t - epoch s)) eqn:E; [lia|]. simpl. do 2 f_equal. lia.
Qed.

(** [C25] Convergence after loss: if two peers' roots lie on one roll chain (each is the
    common root [k0] of epoch [e0] rolled up to its own epoch), then recovering both to
    any later epoch within the cap gives both the same root and the same epoch. *)
Theorem recover_converges k0 e0 t s1 s2 s1' s2' r1 r2 :
  root_ok s1 -> root_ok s2 -> is_u 32 t -> e0 <= epoch s1 -> e0 <= epoch s2 ->
  root_curr s1 = rolled (Z.to_nat (epoch s1 - e0)) k0 ->
  root_curr s2 = rolled (Z.to_nat (epoch s2 - e0)) k0 ->
  epoch s1 <= t <= epoch s1 + 100000 -> epoch s2 <= t <= epoch s2 + 100000 ->
  recover_after_loss t s1 = Done r1 s1' -> recover_after_loss t s2 = Done r2 s2' ->
  root_curr s1' = root_curr s2' /\ epoch s1' = t /\ epoch s2' = t /\ r1 = t /\ r2 = t.
Proof.
  intros H1 H2 Ht He1 He2 Hr1 Hr2 Hg1 Hg2.
  assert (forall s s' r, root_ok s -> e0 <= epoch s -> epoch s <= t <= epoch s + 100000 ->
    root_curr s = rolled (Z.to_nat (epoch s - e0)) k0 ->
    recover_after_loss t s = Done r s' ->
    root_curr s' = rolled (Z.to_nat (t - e0)) k0 /\ epoch s' = t /\ r = t) as Hone.
  { clear - HOk Ht. intros s s' r Hs He Hg Hr. rewrite recover_eval by auto with kernel.
    destruct (Z.leb_spec t (epoch s)); [intros [= <- <-]; split; [|lia]; rewrite Hr; f_equal; lia|].
    destruct (Z.ltb_spec 100000 (t - epoch s)); [lia|]. intros [= <- <-].
    destruct (Z.to_nat (t - epoch s)) eqn:E; [lia|].
    cbn [rolled_statics root_curr RootState.epoch]. rewrite Hr, <- rolled_add.
    split; [f_equal; lia|lia]. }
  intros R1 R2. destruct (Hone s1 s1' r1) as (-> & ? & ?); auto.
  destruct (Hone s2 s2' r2) as (-> & ? & ?); auto.
Qed.
End specs.

(** * Witnesses *)

Lemma recover_after_loss_spec_witness :
  root_ok root_init /\
  recover_after_loss (H0 := true) 5 root_init =
    Done 5 (RootStatics (rolled 5 (repZ 32 0)) None 5 1).
Proof.
  split; [exact root_init_ok|].
  apply (recover_after_loss_spec (HB := true) 5 root_init root_init_ok).
  unfold is_u. lia.
Defined.

(** Bob missed two epochs that Alice, who already rolled, did not. *)
Definition lagging_peer : root_statics := root_init.
Definition leading_peer : root_statics := RootStatics (rolled 2 (repZ 32 0)) None 2 7.

Lemma leading_peer_ok : root_ok leading_peer.
Proof.
  split; simpl; [|done|by unfold is_u..]. apply (rolled_len 2). by rewrite lenZ_repZ.
Qed.

Lemma recover_converges_witness :
  exists s1 s2, recover_after_loss (H0 := true) 5 lagging_peer = Done 5 s1 /\
    recover_after_loss (H0 := true) 5 leading_peer = Done 5 s2 /\
    root_curr s1 = root_curr s2.
Proof.
  exists (rolled_statics 5 lagging_peer), (rolled_statics 3 leading_peer).
  assert (recover_after_loss (H0 := true) 5 lagging_peer = Done 5 (rolled_statics 5 lagging_peer)) as E1.
  { rewrite recover_eval by (unfold is_u; simpl; lia). reflexivity. }
  assert (recover_after_loss (H0 := true) 5 leading_peer = Done 5 (rolled_statics 3 leading_peer)) as E2.
  { rewrite recover_eval by (unfold is_u; simpl; lia). reflexivity. }
  split; [exact E1|]. split; [exact E2|].
  refine (proj1 (recover_converges (HB := true) (repZ 32 0) 0 5 lagging_peer leading_peer _ _ 5 5
    root_init_ok leading_peer_ok _ _ _ _ _ _ _ E1 E2)); first [unfold is_u; lia | simpl; lia | reflexivity].
Defined.
