(* ===== verification/TailPadding.v ===== *)
(** [tail_padding.rs]: random tail padding with a two-byte length trailer,
    wire format [payload | noise | u16_le(noise length)]. *)
From S2P Require Import Prelude Effects Crypto.

Definition MIN_PAD : Z := 16.
Definition MAX_PAD : Z := 512.

Section ops.
Context `{Primitives}.

Definition add_tail_padding (payload : bytes) : M rng bytes :=
  x ← draw_u32;
  let l := x mod (MAX_PAD - MIN_PAD + 1) + MIN_PAD in
  let out := payload in
  let old_len := lenZ out in
  let out := out ++ repZ l 0 in
  noise ← draw_bytes l;
  let out := splice old_len noise out in
  mret (out ++ to_le_bytes 2 (l mod 2 ^ 16)).
End ops.

Definition strip_tail_padding {S} (padded : bytes) : M S (option bytes) :=
  if lenZ padded <? 4 then mret None
  else
    b0 ← unwrap (nthZ padded (lenZ padded - 2));
    b1 ← unwrap (nthZ padded (lenZ padded - 1));
    let l := from_le_bytes [b0; b1] in
    if (l <? MIN_PAD) || (MAX_PAD <? l) then mret None
    else if lenZ padded <? 2 + l then mret None
    else
      let payload_end := lenZ padded - 2 - l in
      mret (Some (takeZ payload_end padded)).

(** * Padding *)

(** The padded form of a payload: what the wire carries for a given noise string. *)
Definition padded_form (payload noise : bytes) : bytes :=
  payload ++ noise ++ to_le_bytes 2 (lenZ noise).

Lemma pad_len_range x : 0 <= x -> MIN_PAD <= x mod (MAX_PAD - MIN_PAD + 1) + MIN_PAD <= MAX_PAD.
Proof.
  unfold MIN_PAD, MAX_PAD. intros. pose proof (Z.mod_pos_bound x (512 - 16 + 1)). lia.
Qed.

Lemma splice_tail {A} (l k d : list A) : lenZ k = lenZ d -> splice (lenZ l) d (l ++ k) = l ++ d.
Proof.
  intros E. unfold splice. rewrite takeZ_app_exact by done.
  rewrite dropZ_all by (rewrite lenZ_app; lia). by rewrite app_nil_r.
Qed.

Section add.
Context `{HP : Primitives} `{HOk : !PrimitivesOk HP}.

Lemma add_tail_padding_eval payload (r : rng) :
  exists noise r', add_tail_padding payload r = Done (padded_form payload noise) r' /\
    MIN_PAD <= lenZ noise <= MAX_PAD /\ is_bytes noise.
Proof.
  unfold add_tail_padding, draw_u32, draw_bytes, mbind, M_bind.
  set (l := (next_u32 r).1 mod (MAX_PAD - MIN_PAD + 1) + MIN_PAD).
  assert (MIN_PAD <= l <= MAX_PAD) as Hl by (apply pad_len_range, next_u32_range).
  set (f := fill_bytes l (next_u32 r).2).
  assert (lenZ f.1 = l) as Hlen by (apply fill_len; unfold MIN_PAD in Hl; lia).
  exists f.1, f.2. split; [|split; [lia|apply fill_bytes_ok]].
  unfold mret, M_ret, padded_form. f_equal.
  rewrite splice_tail by (rewrite lenZ_repZ; unfold MIN_PAD in *; lia).
  rewrite <- app_assoc. do 3 f_equal. rewrite Hlen.
  unfold MIN_PAD, MAX_PAD in *. apply Z.mod_small. lia.
Qed.
End add.

(** * Stripping *)

Lemma nthZ_app_r {A} (l k : list A) i : 0 <= i -> nthZ (l ++ k) (lenZ l + i) = nthZ k i.
Proof.
  intros. unfold nthZ, lenZ. destruct (Z.ltb_spec i 0), (Z.ltb_spec (Z.of_nat (length l) + i) 0); try lia.
  rewrite lookup_app_r by lia. f_equal. lia.
Qed.

Lemma from_le_16 z : 0 <= z < 2 ^ 16 -> z mod 256 + 256 * (z / 256 mod 256 + 256 * 0) = z.
Proof. intros. exact (from_to_le_bytes 2 z H). Qed.

(** The trailer of a padded form. *)
Lemma padded_trailer payload noise i :
  0 <= i < 2 -> nthZ (padded_form payload noise) (lenZ payload + lenZ noise + i) = nthZ (to_le_bytes 2 (lenZ noise)) i.
Proof.
  intros Hi. unfold padded_form. rewrite app_assoc. rewrite <- lenZ_app. apply nthZ_app_r. lia.
Qed.
Lemma padded_form_len payload noise : lenZ (padded_form payload noise) = lenZ payload + lenZ noise + 2.
Proof. unfold padded_form. len_lia. Qed.

Lemma strip_padded_form {S} payload noise (s : S) :
  MIN_PAD <= lenZ noise <= MAX_PAD ->
  strip_tail_padding (padded_form payload noise) s = Done (Some payload) s.
Proof.
  intros Hn. unfold MIN_PAD, MAX_PAD in Hn.
  pose proof (padded_form_len payload noise) as Hlen. pose proof (padded_trailer payload noise) as Hnth.
  set (n := lenZ noise) in *. pose proof (lenZ_nonneg payload).
  unfold strip_tail_padding. rewrite Hlen.
  destruct (Z.ltb_spec (lenZ payload + n + 2) 4); [lia|].
  replace (lenZ payload + n + 2 - 2) with (lenZ payload + n + 0) by lia.
  replace (lenZ payload + n + 2 - 1) with (lenZ payload + n + 1) by lia.
  rewrite !Hnth by lia. simpl. unfold mbind, M_bind, mret, M_ret. simpl.
  rewrite from_le_16 by lia. unfold MIN_PAD, MAX_PAD.
  destruct (Z.ltb_spec n 16), (Z.ltb_spec 512 n), (Z.ltb_spec (lenZ payload + n + 2) (2 + n));
    try lia. simpl.
  do 2 f_equal. unfold padded_form. apply takeZ_app_exact. lia.
Qed.

(** The last two bytes of a byte string of at least two. *)
Lemma split_last_two (l : bytes) :
  2 <= lenZ l ->
  exists k b0 b1, l = k ++ [b0; b1] /\ nthZ l (lenZ l - 2) = Some b0 /\ nthZ l (lenZ l - 1) = Some b1.
Proof.
  intros Hl. destruct (dropZ (lenZ l - 2) l) as [|b0 [|b1 [|]]] eqn:E;
    pose proof (lenZ_dropZ (lenZ l - 2) l) as Hd; rewrite E in Hd; autorewrite with len in Hd;
    pose_lens; try lia.
  exists (takeZ (lenZ l - 2) l), b0, b1.
  assert (l = takeZ (lenZ l - 2) l ++ [b0; b1]) as El by (by rewrite <- E, takeZ_dropZ).
  assert (lenZ (takeZ (lenZ l - 2) l) = lenZ l - 2) as Ek by len_lia.
  set (k := takeZ (lenZ l - 2) l) in *. clearbody k. clear E Hd Ek. subst l.
  split; [done|]. replace (lenZ (k ++ [b0; b1])) with (lenZ k + 2) by len_lia.
  split; [replace (lenZ k + 2 - 2) with (lenZ k + 0) by lia|
          replace (lenZ k + 2 - 1) with (lenZ k + 1) by lia]; by rewrite nthZ_app_r.
Qed.

Lemma strip_inv {S} padded p (s s' : S) :
  is_bytes padded -> strip_tail_padding padded s = Done (Some p) s' ->
  exists noise, padded = padded_form p noise /\ MIN_PAD <= lenZ noise <= MAX_PAD /\ s' = s.
Proof.
  unfold strip_tail_padding. intros Hb.
  destruct (Z.ltb_spec (lenZ padded) 4) as [|H4]; [done|].
  destruct (split_last_two padded) as (k & b0 & b1 & Ek & -> & ->); [lia|].
  unfold mbind, M_bind, mret, M_ret. cbn [unwrap mret M_ret].
  set (l := from_le_bytes [b0; b1]).
  destruct (Z.ltb_spec l MIN_PAD), (Z.ltb_spec MAX_PAD l); try done. simpl.
  destruct (Z.ltb_spec (lenZ padded) (2 + l)); [done|]. intros [= <- <-].
  assert (lenZ padded = lenZ k + 2) as Hk by (rewrite Ek; len_lia).
  unfold MIN_PAD, MAX_PAD in *.
  assert (lenZ (dropZ (lenZ padded - 2 - l) k) = l) as Hn by len_lia.
  exists (dropZ (lenZ padded - 2 - l) k). rewrite Hn. split; [|split; [lia|done]].
  rewrite Ek in Hb. apply is_bytes_app in Hb as [_ Hb].
  unfold padded_form. rewrite Hn. unfold l at 3.
  change (to_le_bytes 2 (from_le_bytes [b0; b1])) with
    (to_le_bytes (length [b0; b1]) (from_le_bytes [b0; b1])).
  rewrite to_from_le_bytes by done.
  assert (lenZ padded - 2 - l <= lenZ k) as He by lia.
  revert He. generalize (lenZ padded - 2 - l) as e. intros e He. subst padded.
  rewrite takeZ_app_l by lia. by rewrite app_assoc, takeZ_dropZ.
Qed.

(** * Properties *)

Section props.
Context `{HP : Primitives} `{HOk : !PrimitivesOk HP}.

(** [C31] Round trip: for every payload and every state of the generator, padding
    succeeds and stripping the result gives back exactly the payload. *)
Theorem tail_padding_roundtrip {S} payload (r : rng) (s : S) :
  exists padded r', add_tail_padding payload r = Done padded r' /\
    strip_tail_padding padded s = Done (Some payload) s.
Proof.
  destruct (add_tail_padding_eval payload r) as (noise & r' & E & Hn & _).
  eexists _, r'. split; [exact E|]. by apply strip_padded_form.
Qed.

(** Length bounds: a padded packet starts with the payload and is between 18 and
    514 bytes longer, and its last two bytes are the little-endian noise length, which
    lies in [16, 512]. *)
Theorem tail_padding_bounds payload padded (r r' : rng) :
  add_tail_padding payload r = Done padded r' ->
  exists noise, padded = payload ++ noise ++ to_le_bytes 2 (lenZ noise) /\
    MIN_PAD <= lenZ noise <= MAX_PAD /\
    lenZ payload + 18 <= lenZ padded <= lenZ payload + 514.
Proof.
  destruct (add_tail_padding_eval payload r) as (noise & r1 & -> & Hn & _).
  intros [= <- <-]. exists noise. split; [done|]. unfold padded_form, MIN_PAD, MAX_PAD in *.
  len_lia.
Qed.
End props.

(** Stripping is exact on byte strings: it never panics, and it returns a payload
    precisely for the strings of the form payload, noise of 16 to 512 bytes, and the
    little-endian noise length; every other string is rejected. *)
Theorem strip_tail_padding_exact {S} padded p (s : S) :
  is_bytes padded ->
  (strip_tail_padding padded s = Done (Some p) s <->
   exists noise, padded = p ++ noise ++ to_le_bytes 2 (lenZ noise) /\
     MIN_PAD <= lenZ noise <= MAX_PAD) /\
  (strip_tail_padding padded s = Done None s \/
   exists q, strip_tail_padding padded s = Done (Some q) s).
Proof.
  intros Hb. split; [split|].
  - intros H. destruct (strip_inv _ _ _ _ Hb H) as (noise & -> & Hn & _). by exists noise.
  - intros (noise & -> & Hn). by apply strip_padded_form.
  - unfold strip_tail_padding. destruct (Z.ltb_spec (lenZ padded) 4) as [|H4]; [by left|].
    destruct (split_last_two padded) as (k & b0 & b1 & Ek & -> & ->); [lia|].
    unfold mbind, M_bind, mret, M_ret. cbn [unwrap mret M_ret]. repeat case_match; eauto.
Qed.

(** * Witnesses *)

Lemma tail_padding_roundtrip_witness :
  exists padded r', add_tail_padding [1; 2; 3] (5 : @rng toy) = Done padded r' /\
    strip_tail_padding padded tt = Done (Some [1; 2; 3]) tt.
Proof. exact (tail_padding_roundtrip [1; 2; 3] 5 tt). Defined.

Lemma tail_padding_bounds_witness :
  exists padded r', add_tail_padding [1; 2; 3] (5 : @rng toy) = Done padded r' /\
    21 <= lenZ padded <= 517.
Proof.
  destruct (add_tail_padding_eval (HP := toy) [1; 2; 3] 5) as (noise & r' & E & _).
  exists (padded_form [1; 2; 3] noise), r'. split; [exact E|].
  destruct (tail_padding_bounds _ _ _ _ E) as (_ & _ & _ & Hb). exact Hb.
Defined.

Lemma strip_tail_padding_exact_witness :
  is_bytes ([9] ++ repZ 16 7 ++ [16; 0]) /\
  strip_tail_padding ([9] ++ repZ 16 7 ++ [16; 0]) tt = Done (Some [9]) tt.
Proof.
  assert (is_bytes ([9] ++ repZ 16 7 ++ [16; 0])) as Hb.
  { repeat constructor; unfold is_byte; lia. }
  split; [exact Hb|].
  apply (strip_tail_padding_exact _ [9] tt Hb). exists (repZ 16 7).
  split; [reflexivity|]. rewrite lenZ_repZ. unfold MIN_PAD, MAX_PAD. lia.
Defined.
