(* ===== verification/MessageCipher.v ===== *)
(** [message_cipher.rs]: per-message keys, AES-256-GCM sealing with associated data,
    and decryption with automatic commit of a pending evolution.

    Keys and local copies are zeroized by the Rust code before they go out of scope;
    that has no effect on the statics or on a result and is not represented here. *)
From S2P Require Import Prelude Effects Crypto RootState.

(** * Key derivation *)

Section keys.
Context `{Primitives}.

Definition hkdf_label : bytes := str_bytes "LinkChat HKDF Expand".

(** The 12-byte array [info]: epoch in bytes 0..4, sequence number in bytes 4..12. *)
Definition key_info (epoch msg_seq : Z) : bytes :=
  let info := repZ 12 0 in
  let info := splice 0 (to_le_bytes 4 epoch) info in
  splice 4 (to_le_bytes 8 msg_seq) info.

Definition derive_message_key_from_root {S} (root : bytes) (epoch msg_seq : Z) : M S bytes :=
  let hk := hkdf_extract root hkdf_label in
  unwrap (hkdf_expand hk (key_info epoch msg_seq) 32).

Definition derive_message_key (epoch msg_seq : Z) : M root_statics bytes :=
  curr ← read_root_state_curr;
  let hk := hkdf_extract curr hkdf_label in
  unwrap (hkdf_expand hk (key_info epoch msg_seq) 32).
End keys.

(** * Nonce and associated data *)

Definition build_nonce (epoch timestamp msg_seq : Z) : bytes :=
  let n := repZ 12 0 in
  let n := splice 0 (to_le_bytes 4 epoch) n in
  splice 4 (to_le_bytes 8 (Z.lxor timestamp msg_seq)) n.

Definition PROTO_VERSION : Z := 4.

Definition build_aad (id_stamp : bytes) (outgoing : bool) (epoch msg_seq timestamp : Z) : bytes :=
  id_stamp ++ [if outgoing then 0 else 1] ++ to_le_bytes 4 epoch ++ to_le_bytes 8 msg_seq
    ++ to_le_bytes 8 timestamp ++ to_le_bytes 2 PROTO_VERSION.

(** * Sealing and opening *)

Section cipher.
Context `{Primitives} `{BuildProfile}.

Definition encrypt (plaintext key id_stamp : bytes) (outgoing : bool)
    (epoch msg_seq timestamp : Z) : option bytes :=
  let nonce := build_nonce epoch timestamp msg_seq in
  let aad := build_aad id_stamp outgoing epoch msg_seq timestamp in
  ct ← aes_gcm_encrypt key nonce aad plaintext;
  Some (nonce ++ ct).

Definition decrypt (wire key id_stamp : bytes) (outgoing : bool)
    (epoch msg_seq timestamp : Z) : option bytes :=
  if lenZ wire <? 28 then None
  else
    let nonce_bytes := takeZ 12 wire in
    let ct := dropZ 12 wire in
    let aad := build_aad id_stamp outgoing epoch msg_seq timestamp in
    aes_gcm_decrypt key nonce_bytes aad ct.

Definition try_decrypt_with_evolution (wire id_stamp : bytes) (outgoing : bool)
    (epoch msg_seq timestamp : Z) : M root_statics (option (bytes * bool)) :=
  curr ← read_root_state_curr;
  local_epoch ← read_epoch_id;
  curr_key ← derive_message_key_from_root curr epoch msg_seq;
  match decrypt wire curr_key id_stamp outgoing epoch msg_seq timestamp with
  | Some pt => mret (Some (pt, false))
  | None =>
      next ← chk_u 32 (local_epoch + 1);
      if epoch =? next then
        p ← read_root_state_pend;
        match p with
        | Some pend =>
            pend_key ← derive_message_key_from_root pend epoch msg_seq;
            match decrypt wire pend_key id_stamp outgoing epoch msg_seq timestamp with
            | Some pt =>
                r ← commit_evolution;
                mret (Some (pt, r =? 0))
            | None => mret None
            end
        | None => mret None
        end
      else mret None
  end.

(** The helper [zeroize_key]: a null pointer is [None]; the memory after the call. *)
Definition zeroize_slice (mem : option bytes) : option bytes :=
  match mem with
  | Some m => Some (if lenZ m =? 0 then m else zeroize m)
  | None => None
  end.
End cipher.

(** * Layout lemmas *)

(** Filling a 12-byte array with a 4-byte and an 8-byte field. *)
Lemma splice_4_8 (a b : bytes) :
  lenZ a = 4 -> lenZ b = 8 -> splice 4 b (splice 0 a (repZ 12 0)) = a ++ b.
Proof.
  intros Ha Hb. unfold splice at 2. rewrite Ha. simpl.
  unfold splice. rewrite takeZ_app_exact by done. f_equal.
  rewrite Hb, dropZ_all by len_lia. by rewrite app_nil_r.
Qed.

Lemma key_info_eq e q : key_info e q = to_le_bytes 4 e ++ to_le_bytes 8 q.
Proof. apply splice_4_8; by rewrite lenZ_to_le_bytes. Qed.

Lemma build_nonce_eq e t q : build_nonce e t q = to_le_bytes 4 e ++ to_le_bytes 8 (Z.lxor t q).
Proof. apply splice_4_8; by rewrite lenZ_to_le_bytes. Qed.

Lemma build_nonce_len e t q : lenZ (build_nonce e t q) = 12.
Proof. rewrite build_nonce_eq. len_lia. Qed.

Lemma build_aad_len st o e q t : lenZ st = 32 -> lenZ (build_aad st o e q t) = 55.
Proof. intros. unfold build_aad. len_lia. Qed.

Lemma le_fields_inj n (a a' : Z) (k k' : bytes) :
  0 <= a < 2 ^ (8 * Z.of_nat n) -> 0 <= a' < 2 ^ (8 * Z.of_nat n) ->
  to_le_bytes n a ++ k = to_le_bytes n a' ++ k' -> a = a' /\ k = k'.
Proof.
  intros Ha Ha' [E1 E2]%app_inj_len; [|by rewrite !lenZ_to_le_bytes].
  split; [|done]. by apply (to_le_bytes_inj n).
Qed.

(** * Keys as pure functions *)

Section key_facts.
Context `{HP : Primitives} `{HOk : !PrimitivesOk HP}.

Definition message_key (root : bytes) (e q : Z) : bytes :=
  default [] (hkdf_expand (hkdf_extract root hkdf_label) (key_info e q) 32).

Lemma message_key_some root e q :
  hkdf_expand (hkdf_extract root hkdf_label) (key_info e q) 32 = Some (message_key root e q).
Proof.
  unfold message_key.
  by destruct (hkdf_expand_ok (hkdf_extract root hkdf_label) (key_info e q) 32) as (? & -> & _).
Qed.

Lemma message_key_len root e q : lenZ (message_key root e q) = 32.
Proof.
  unfold message_key.
  by destruct (hkdf_expand_ok (hkdf_extract root hkdf_label) (key_info e q) 32) as (? & -> & ?).
Qed.

Lemma derive_from_root_eval {S} root e q (s : S) :
  derive_message_key_from_root root e q s = Done (message_key root e q) s.
Proof. unfold derive_message_key_from_root. by rewrite message_key_some. Qed.

Lemma derive_message_key_eval e q s :
  derive_message_key e q s = Done (message_key (root_curr s) e q) s.
Proof.
  unfold derive_message_key, read_root_state_curr. step. by rewrite message_key_some.
Qed.
End key_facts.
#[export] Hint Resolve message_key_len : kernel.

(** * Properties *)

(** Associated data is unambiguous: every field can be read back from it. *)
Lemma build_aad_inj st o e q t st' o' e' q' t' :
  lenZ st = 32 -> lenZ st' = 32 -> is_u 32 e -> is_u 32 e' -> is_u 64 q -> is_u 64 q' ->
  is_u 64 t -> is_u 64 t' ->
  build_aad st o e q t = build_aad st' o' e' q' t' ->
  st = st' /\ o = o' /\ e = e' /\ q = q' /\ t = t'.
Proof.
  intros Hs Hs' He He' Hq Hq' Ht Ht'. unfold build_aad, is_u in *.
  intros [-> E]%app_inj_len; [|lia].
  apply app_inj_len in E as [Ho E]; [|done]. injection Ho as Ho.
  apply (le_fields_inj 4) in E as [-> E]; [|lia..].
  apply (le_fields_inj 8) in E as [-> E]; [|lia..].
  apply (le_fields_inj 8) in E as [-> _]; [|lia..].
  by destruct o, o'.
Qed.

(** What the deterministic nonce distinguishes: for in-range fields two nonces
    coincide exactly when the epochs agree and timestamp XOR sequence number agree. So
    under one message key (one epoch and one sequence number) distinct timestamps always
    get distinct nonces, while the nonce alone is not unique per message and does not
    depend on the direction. *)
Theorem build_nonce_eq_iff e t q e' t' q' :
  is_u 32 e -> is_u 32 e' -> is_u 64 t -> is_u 64 t' -> is_u 64 q -> is_u 64 q' ->
  (build_nonce e t q = build_nonce e' t' q' <-> e = e' /\ Z.lxor t q = Z.lxor t' q') /\
  (build_nonce e t q = build_nonce e t' q -> t = t').
Proof.
  intros He He' Ht Ht' Hq Hq'. rewrite !build_nonce_eq.
  assert (forall a b, is_u 64 a -> is_u 64 b -> 0 <= Z.lxor a b < 2 ^ (8 * Z.of_nat 8)) as Hx
    by (intros; by apply (is_u_lxor 64)).
  split; [split|].
  - intros [-> E]%(le_fields_inj 4); [|unfold is_u in *; lia..]. split; [done|].
    apply (to_le_bytes_inj 8); auto.
  - by intros [-> ->].
  - intros [_ E]%(le_fields_inj 4); [|unfold is_u in *; lia..].
    apply (to_le_bytes_inj 8) in E; auto. by apply lxor_inj_l in E.
Qed.

Section props.
Context `{HP : Primitives} `{HB : BuildProfile} `{HOk : !PrimitivesOk HP}.

Lemma encrypt_eval pt k st o e q t :
  lenZ k = 32 -> lenZ st = 32 -> lenZ pt < 2 ^ 32 ->
  exists ct, aes_gcm_encrypt k (build_nonce e t q) (build_aad st o e q t) pt = Some ct /\
    encrypt pt k st o e q t = Some (build_nonce e t q ++ ct) /\ lenZ ct = lenZ pt + 16.
Proof.
  intros Hk Hs Hp.
  destruct (aead_total aes_gcm_ok k (build_nonce e t q) (build_aad st o e q t) pt) as [ct E];
    [done|apply build_nonce_len|done|by rewrite build_aad_len|].
  exists ct. split; [done|]. split; [|by apply (aead_len aes_gcm_ok) in E].
  unfold encrypt. rewrite E. done.
Qed.

(** Opening what was sealed under a nonce and associated data. *)
Lemma decrypt_sealed n ct pt k st o e q t :
  lenZ n = 12 -> aes_gcm_encrypt k n (build_aad st o e q t) pt = Some ct ->
  decrypt (n ++ ct) k st o e q t = Some pt.
Proof.
  intros Hn E. pose proof (aead_len aes_gcm_ok _ _ _ _ _ E).
  unfold decrypt. rewrite lenZ_app. pose proof (lenZ_nonneg pt).
  destruct (Z.ltb_spec (lenZ n + lenZ ct) 28); [lia|].
  rewrite takeZ_app_exact, dropZ_app_exact by done. by apply (aead_open aes_gcm_ok).
Qed.

(** [C3] Round trip: with a 32-byte key and stamp and any plaintext below 4 GiB,
    encryption succeeds, the wire message is 28 bytes longer than the plaintext, and
    decryption with the same key and metadata returns exactly the plaintext. *)
Theorem encrypt_decrypt_roundtrip pt k st o e q t :
  lenZ k = 32 -> lenZ st = 32 -> lenZ pt < 2 ^ 32 ->
  exists wire, encrypt pt k st o e q t = Some wire /\ lenZ wire = lenZ pt + 28 /\
    decrypt wire k st o e q t = Some pt.
Proof.
  intros Hk Hs Hp. destruct (encrypt_eval pt k st o e q t Hk Hs Hp) as (ct & E & E' & Hl).
  eexists. split; [exact E'|]. pose proof (build_nonce_len e t q) as Hn. split.
  - rewrite lenZ_app. lia.
  - by apply decrypt_sealed.
Qed.

Lemma decrypt_inv wire k st o e q t pt :
  decrypt wire k st o e q t = Some pt ->
  exists n ct, wire = n ++ ct /\ lenZ n = 12 /\
    aes_gcm_encrypt k n (build_aad st o e q t) pt = Some ct.
Proof.
  unfold decrypt. destruct (Z.ltb_spec (lenZ wire) 28); [done|]. intros E.
  exists (takeZ 12 wire), (dropZ 12 wire). split; [by rewrite takeZ_dropZ|].
  split; [len_lia|]. by apply (aead_only aes_gcm_ok).
Qed.

(** Authenticated opening, exactly: decryption returns a plaintext if and only if
    the wire is a 12-byte nonce followed by the AES-256-GCM sealing of that plaintext
    under the key, that nonce and the associated data of the presented metadata; in
    particular every wire shorter than 28 bytes is rejected. *)
Theorem decrypt_exact wire k st o e q t pt :
  (decrypt wire k st o e q t = Some pt <->
   exists n ct, wire = n ++ ct /\ lenZ n = 12 /\
     aes_gcm_encrypt k n (build_aad st o e q t) pt = Some ct) /\
  (lenZ wire < 28 -> decrypt wire k st o e q t = None).
Proof.
  split; [split|].
  - apply decrypt_inv.
  - intros (n & ct & -> & Hn & E). by apply decrypt_sealed.
  - intros. unfold decrypt. destruct (Z.ltb_spec (lenZ wire) 28); [done|lia].
Qed.

(** [C22] Key and metadata binding, as a reduction: if one wire opens under a key and a
    metadata tuple (stamp, direction, epoch, sequence number, timestamp) and also under a
    second key and tuple, then key, tuple and plaintext are the same, or the wire holds an
    AES-256-GCM collision: its ciphertext is, with its nonce, the sealing of the two
    plaintexts under two different pairs of key and associated data, the associated data
    being those of the two tuples.  Keys of different messages differ, so both keys are
    free; that no such collision can be found is the security of AES-GCM (for one key) or
    its commitment to the key (for two), which is not proved here. *)
Theorem decrypt_binds_metadata wire k st o e q t p k' st' o' e' q' t' p' :
  lenZ st = 32 -> lenZ st' = 32 -> is_u 32 e -> is_u 32 e' -> is_u 64 q -> is_u 64 q' ->
  is_u 64 t -> is_u 64 t' ->
  decrypt wire k st o e q t = Some p -> decrypt wire k' st' o' e' q' t' = Some p' ->
  (k, st, o, e, q, t, p) = (k', st', o', e', q', t', p') \/
  let a := build_aad st o e q t in
  let a' := build_aad st' o' e' q' t' in
  exists n ct, (k, a) <> (k', a') /\ wire = n ++ ct /\
    aes_gcm_encrypt k n a p = Some ct /\ aes_gcm_encrypt k' n a' p' = Some ct.
Proof.
  intros Hs Hs' He He' Hq Hq' Ht Ht' D D'.
  apply decrypt_inv in D as (n & ct & -> & Hn & E).
  apply decrypt_inv in D' as (n' & ct' & Ew & Hn' & E').
  apply app_inj_len in Ew as [<- <-]; [|lia].
  destruct (decide ((k, build_aad st o e q t) = (k', build_aad st' o' e' q' t'))) as [[= <- Ea]|Ea].
  - left. destruct (build_aad_inj _ _ _ _ _ _ _ _ _ _ Hs Hs' He He' Hq Hq' Ht Ht' Ea)
      as (-> & -> & -> & -> & ->). apply (aead_open aes_gcm_ok) in E, E'. congruence.
  - right. by exists n, ct.
Qed.

(** The two key derivations agree and separate messages: [derive_message_key] never
    panics, leaves the statics alone and returns what [derive_message_key_from_root]
    returns for the current root; for distinct in-range (epoch, sequence number) pairs
    the HKDF info strings of the two keys are distinct. *)
Theorem derive_message_key_equiv e q s :
  derive_message_key e q s = derive_message_key_from_root (root_curr s) e q s /\
  (exists k, derive_message_key e q s = Done k s /\ lenZ k = 32) /\
  (forall e' q', is_u 32 e -> is_u 32 e' -> is_u 64 q -> is_u 64 q' ->
     (e, q) <> (e', q') -> key_info e q <> key_info e' q').
Proof.
  rewrite derive_message_key_eval, derive_from_root_eval. split; [done|]. split.
  - eexists. split; [done|]. apply message_key_len.
  - intros e' q' He He' Hq Hq' Hne E. apply Hne. rewrite !key_info_eq in E.
    unfold is_u in *. apply (le_fields_inj 4) in E as [-> E]; [|lia..].
    apply (to_le_bytes_inj 8) in E as ->; [done|lia..].
Qed.

(** What [try_decrypt_with_evolution] computes below the last epoch. *)
Lemma try_decrypt_eval wire st o e q t s :
  root_ok s -> epoch s < u32_max ->
  try_decrypt_with_evolution wire st o e q t s =
    match decrypt wire (message_key (root_curr s) e q) st o e q t, root_pend s with
    | Some pt, _ => Done (Some (pt, false)) s
    | None, None => Done None s
    | None, Some pend =>
        if e =? epoch s + 1 then
          match decrypt wire (message_key pend e q) st o e q t with
          | Some pt => Done (Some (pt, true)) (advanced pend None s)
          | None => Done None s
          end
        else Done None s
    end.
Proof.
  intros Hs Hmax. pose proof (epoch_range _ Hs) as He.
  unfold try_decrypt_with_evolution, read_root_state_curr, read_epoch_id. step. step.
  erewrite bind_done by apply derive_from_root_eval.
  destruct (decrypt wire (message_key (root_curr s) e q) st o e q t) as [pt|]; [done|].
  erewrite bind_done by (apply chk_u_ok; unfold is_u, u32_max in *; lia).
  destruct (e =? epoch s + 1); [|by destruct (root_pend s)].
  unfold read_root_state_pend. step. destruct (root_pend s) as [pend|] eqn:Ep; [|done].
  erewrite bind_done by apply derive_from_root_eval.
  destruct (decrypt wire (message_key pend e q) st o e q t) as [pt|]; [|done].
  assert (commit_evolution s = Done 0 (advanced pend None s)) as Ec.
  { rewrite commit_evolution_eval, Ep by done. by destruct (Z.ltb_spec (epoch s) u32_max); [|lia]. }
  by erewrite bind_done by exact Ec.
Qed.

(** [C23] Decryption with automatic commit, on every branch and in both build profiles,
    below the last epoch: a message that opens under the current root is returned and
    changes nothing; otherwise, only if the message is exactly one epoch ahead, a root
    is pending and the message opens under it, is the evolution committed (pending root
    promoted, pending cleared, epoch bumped, counter back to 1) and reported; in every
    other case the call returns nothing and changes nothing. *)
Theorem try_decrypt_with_evolution_spec wire st o e q t s :
  root_ok s -> epoch s < u32_max ->
  try_decrypt_with_evolution wire st o e q t s =
    match decrypt wire (message_key (root_curr s) e q) st o e q t, root_pend s with
    | Some pt, _ => Done (Some (pt, false)) s
    | None, None => Done None s
    | None, Some pend =>
        if e =? epoch s + 1 then
          match decrypt wire (message_key pend e q) st o e q t with
          | Some pt => Done (Some (pt, true)) (RootStatics pend None (epoch s + 1) 1)
          | None => Done None s
          end
        else Done None s
    end.
Proof.
  intros Hs Hmax. rewrite try_decrypt_eval by done. unfold advanced, epoch_succ.
  by destruct (Z.ltb_spec (epoch s) u32_max); [|lia].
Qed.

(** The last epoch: at epoch [u32::MAX] a message that does not open under the
    current root makes [local_epoch + 1] overflow, so the checked build panics with the
    statics unchanged, and the release build compares the message epoch with 0. *)
Theorem try_decrypt_last_epoch wire st o e q t s :
  root_ok s -> epoch s = u32_max ->
  decrypt wire (message_key (root_curr s) e q) st o e q t = None ->
  (overflow_checks = true -> try_decrypt_with_evolution wire st o e q t s = Panicked s) /\
  (overflow_checks = false -> e <> 0 -> try_decrypt_with_evolution wire st o e q t s = Done None s).
Proof.
  intros Hs Hmax D. pose proof (epoch_range _ Hs) as He.
  unfold try_decrypt_with_evolution, read_root_state_curr, read_epoch_id.
  split; [intros Hc|intros Hc He0]; do 2 step;
    erewrite bind_done by apply derive_from_root_eval; rewrite D, Hmax.
  - erewrite bind_panic; [done|]. rewrite chk_u_over by (unfold is_u, u32_max; lia).
    by rewrite Hc.
  - erewrite bind_done; [|by rewrite chk_u_over, Hc by (unfold is_u, u32_max; lia)].
    change ((u32_max + 1) mod 2 ^ 32) with 0. by destruct (Z.eqb_spec e 0).
Qed.
End props.

(** * Witnesses *)

Lemma build_nonce_eq_iff_witness :
  build_nonce 3 10 12 = build_nonce 3 9 15 /\ build_nonce 3 10 12 <> build_nonce 3 11 12.
Proof.
  split.
  - apply (build_nonce_eq_iff 3 10 12 3 9 15); [unfold is_u; lia..|]. split; reflexivity.
  - intros E. assert (10 = 11); [|lia].
    apply (build_nonce_eq_iff 3 10 12 3 11 12); [unfold is_u; lia..|exact E].
Defined.

Lemma encrypt_decrypt_roundtrip_witness :
  exists wire, encrypt [72; 105] (repZ 32 1) (repZ 32 2) true 0 1 1000 = Some wire /\
    lenZ wire = 30 /\ decrypt wire (repZ 32 1) (repZ 32 2) true 0 1 1000 = Some [72; 105].
Proof.
  apply (encrypt_decrypt_roundtrip [72; 105] (repZ 32 1) (repZ 32 2) true 0 1 1000);
    rewrite ?lenZ_repZ; first [reflexivity | unfold lenZ; simpl; lia].
Defined.

Lemma decrypt_exact_witness :
  decrypt [1; 2; 3] (repZ 32 1) (repZ 32 2) true 0 1 1000 = None.
Proof.
  apply (decrypt_exact [1; 2; 3] (repZ 32 1) (repZ 32 2) true 0 1 1000 []).
  unfold lenZ. simpl. lia.
Defined.

(** The digest of [toy] is linear, so that it has collisions: one wire opens for two
    timestamps under one key, and for two timestamps under two keys. *)
Definition toy_key (a b : Z) : bytes := a :: b :: repZ 30 1.
Definition toy_wire : bytes := default [] (encrypt [72; 105] (toy_key 0 31) (repZ 32 2) true 0 1 1).

Lemma decrypt_binds_metadata_witness :
  let collides k t k' t' := exists n ct,
    (k, build_aad (repZ 32 2) true 0 1 t) <> (k', build_aad (repZ 32 2) true 0 1 t') /\ toy_wire = n ++ ct /\
    aes_gcm_encrypt k n (build_aad (repZ 32 2) true 0 1 t) [72; 105] = Some ct /\
    aes_gcm_encrypt k' n (build_aad (repZ 32 2) true 0 1 t') [72; 105] = Some ct in
  collides (toy_key 0 31) 1 (toy_key 0 31) 7936 /\ collides (toy_key 0 31) 1 (toy_key 1 0) 7936.
Proof.
  cbv zeta.
  assert (forall k t, (k = toy_key 0 31 \/ k = toy_key 1 0) -> t = 1 \/ t = 7936 ->
    decrypt toy_wire k (repZ 32 2) true 0 1 t = Some [72; 105]) as D.
  { intros k t [-> | ->] [-> | ->]; vm_compute; reflexivity. }
  split;
    [destruct (decrypt_binds_metadata toy_wire (toy_key 0 31) (repZ 32 2) true 0 1 1 [72; 105]
       (toy_key 0 31) (repZ 32 2) true 0 1 7936 [72; 105]) as [E|C]
    |destruct (decrypt_binds_metadata toy_wire (toy_key 0 31) (repZ 32 2) true 0 1 1 [72; 105]
       (toy_key 1 0) (repZ 32 2) true 0 1 7936 [72; 105]) as [E|C]];
    first [exact C | discriminate E | apply D; by auto | by unfold is_u | reflexivity].
Defined.

(** A peer with a pending root that has not committed, and a message from the peer that has. *)
Definition pending_peer : root_statics := RootStatics (repZ 32 0) (Some (repZ 32 9)) 0 4.
Definition next_epoch_wire : bytes :=
  default [] (encrypt [72; 105] (message_key (repZ 32 9) 1 1) (repZ 32 2) true 1 1 1000).

Lemma pending_peer_ok : root_ok pending_peer.
Proof. split; simpl; [done|by intros k [= <-]|by unfold is_u..]. Qed.

Lemma derive_message_key_equiv_witness :
  exists k, derive_message_key 0 1 pending_peer = Done k pending_peer /\ lenZ k = 32.
Proof. exact (proj1 (proj2 (derive_message_key_equiv 0 1 pending_peer))). Defined.

Lemma try_decrypt_with_evolution_spec_witness :
  try_decrypt_with_evolution (H0 := true) next_epoch_wire (repZ 32 2) true 1 1 1000 pending_peer =
    Done (Some ([72; 105], true)) (RootStatics (repZ 32 9) None 1 1).
Proof.
  etransitivity.
  - apply (try_decrypt_with_evolution_spec (HB := true) next_epoch_wire (repZ 32 2) true 1 1 1000
      pending_peer pending_peer_ok). reflexivity.
  - vm_compute. reflexivity.
Defined.

Definition last_epoch_peer : root_statics := RootStatics (repZ 32 0) None u32_max 4.

Lemma try_decrypt_last_epoch_witness :
  try_decrypt_with_evolution (H0 := true) [1; 2; 3] (repZ 32 2) true 1 1 1000 last_epoch_peer =
    Panicked last_epoch_peer.
Proof.
  apply (try_decrypt_last_epoch (HB := true) [1; 2; 3] (repZ 32 2) true 1 1 1000 last_epoch_peer);
    [|reflexivity..].
  split; simpl; [done|done|by unfold is_u..].
Defined.
