(* ===== verification/Evolution.v ===== *)
(** [evolution.rs]: post-quantum key evolution (pending, exchange, commit).

    [evo_statics] holds the module's four mutexes together with the root statics and
    the random generator it uses.  Alice is the peer that calls [start_evolution], Bob
    the peer that generated the key pair and calls [apply_peer_kem]. *)
From S2P Require Import Prelude Effects Crypto MemoryProtection RootState.

(** [dst[..src.len()].copy_from_slice(src)]: the destination after the copy. *)
Definition copy_prefix {S} (dst src : bytes) : M S bytes :=
  if lenZ src <=? lenZ dst then mret (splice 0 src dst) else panic.

(** [slice.try_into()] to a 32-byte array. *)
Definition to_array32 (l : bytes) : option bytes := if lenZ l =? 32 then Some l else None.

(** * State *)

Section evolution.
Context `{HP : Primitives}.

Record evo_statics := EvoStatics {
  ev_root : root_statics;
  kem_cipher : option SecureBuffer;
  bob_keys : bytes * SecureBuffer;
  bob_public_key : bytes;
  peer_pk_hash : bytes;
  ev_rng : rng;
}.

Definition evo_init (r : rng) : evo_statics :=
  EvoStatics root_init None ([], SecureBuffer_new) [] (repZ 32 0) r.

Definition with_root (x : root_statics) (s : evo_statics) : evo_statics :=
  EvoStatics x (kem_cipher s) (bob_keys s) (bob_public_key s) (peer_pk_hash s) (ev_rng s).
Definition with_kem (x : option SecureBuffer) (s : evo_statics) : evo_statics :=
  EvoStatics (ev_root s) x (bob_keys s) (bob_public_key s) (peer_pk_hash s) (ev_rng s).
Definition with_bob_keys (x : bytes * SecureBuffer) (s : evo_statics) : evo_statics :=
  EvoStatics (ev_root s) (kem_cipher s) x (bob_public_key s) (peer_pk_hash s) (ev_rng s).
Definition with_bob_pk (x : bytes) (s : evo_statics) : evo_statics :=
  EvoStatics (ev_root s) (kem_cipher s) (bob_keys s) x (peer_pk_hash s) (ev_rng s).
Definition with_pk_hash (x : bytes) (s : evo_statics) : evo_statics :=
  EvoStatics (ev_root s) (kem_cipher s) (bob_keys s) (bob_public_key s) x (ev_rng s).
Definition with_rng (x : rng) (s : evo_statics) : evo_statics :=
  EvoStatics (ev_root s) (kem_cipher s) (bob_keys s) (bob_public_key s) (peer_pk_hash s) x.

Definition root_lens : lens root_statics evo_statics := Lens ev_root with_root.

(** Calls into [pqc_kyber] with the generator. *)
Definition pqc_keypair : M evo_statics (bytes * bytes) := fun s =>
  Done (kyber_keypair (ev_rng s)).1 (with_rng (kyber_keypair (ev_rng s)).2 s).
Definition pqc_encapsulate (pk : bytes) : M evo_statics (option (bytes * bytes)) := fun s =>
  Done (kyber_encapsulate pk (ev_rng s)).1 (with_rng (kyber_encapsulate pk (ev_rng s)).2 s).

Context `{HB : BuildProfile}.

(** * Operations *)

(** Returns the code and the two output slices. *)
Definition generate_bob_keypair (out_pk out_sk : bytes) : M evo_statics (Z * bytes * bytes) :=
  keypair ← pqc_keypair;
  let pk_vec := keypair.1 in
  let sk_buf := from_vec keypair.2 in
  out_pk ← copy_prefix out_pk pk_vec;
  out_sk ← copy_prefix out_sk (as_slice sk_buf);
  modify (with_bob_keys (pk_vec, sk_buf));;
  mret (0, out_pk, out_sk).

Definition set_peer_public_key (pk : bytes) : M evo_statics unit :=
  modify (with_bob_pk pk);;
  let hash := sha256 pk in
  modify (with_pk_hash hash).

Definition derive_pending_key {S} (ss curr : bytes) : M S bytes :=
  let hk := hkdf_extract ss curr in
  unwrap (hkdf_expand hk (str_bytes "LinkChat Evolution") 32).

Definition start_evolution : M evo_statics Z :=
  curr ← zoom root_lens read_root_state_curr;
  pk ← gets bob_public_key;
  if decide (pk = []) then mret 2
  else
    let current_hash := sha256 pk in
    stored_hash ← gets peer_pk_hash;
    let acc := ct_accumulate current_hash stored_hash in
    if negb (bool_decide (stored_hash = repZ 32 0)) && negb (acc =? 0) then mret 5
    else
      enc ← pqc_encapsulate pk;
      match enc with
      | None => mret 1
      | Some (ct, ss) =>
          let kem_ct := from_vec ct in
          match to_array32 ss with
          | None => mret 4
          | Some ss_arr =>
              derived ← derive_pending_key ss_arr curr;
              zoom root_lens (set_root_state_pend (Some derived));;
              modify (with_kem (Some kem_ct));;
              mret 0
          end
      end.

(** Returns the number of bytes copied and the output slice. *)
Definition get_kem_cipher (out : bytes) : M evo_statics (Z * bytes) :=
  state ← gets kem_cipher;
  match state with
  | Some buf =>
      let n := Z.min (len buf) (lenZ out) in
      out' ← copy_prefix out (takeZ n (as_slice buf));
      mret (n, out')
  | None => mret (0, out)
  end.

Definition kem_cipher_len : M evo_statics Z :=
  state ← gets kem_cipher;
  mret (match state with Some b => len b | None => 0 end).

Definition apply_peer_kem (kem_ct : bytes) : M evo_statics Z :=
  keys ← gets bob_keys;
  let sk := as_slice keys.2 in
  if decide (sk = []) then mret 3
  else
    match kyber_decapsulate kem_ct sk with
    | None => mret 2
    | Some shared_secret =>
        match to_array32 shared_secret with
        | None => mret 4
        | Some ss_arr =>
            curr ← zoom root_lens read_root_state_curr;
            derived ← derive_pending_key ss_arr curr;
            zoom root_lens (set_root_state_pend (Some derived));;
            mret 0
        end
    end.

Definition commit_evolution : M evo_statics Z := zoom root_lens RootState.commit_evolution.
End evolution.

(** * Evaluation *)

Section eval.
Context `{HP : Primitives} `{HB : BuildProfile} `{HOk : !PrimitivesOk HP}.

Lemma zoom_root_gets {A} (f : root_statics -> A) s :
  zoom root_lens (gets f) s = Done (f (ev_root s)) s.
Proof. by destruct s. Qed.

Definition pending_key (ss curr : bytes) : bytes :=
  default [] (hkdf_expand (hkdf_extract ss curr) (str_bytes "LinkChat Evolution") 32).

Lemma derive_pending_key_eval {S} ss curr (s : S) :
  derive_pending_key ss curr s = Done (pending_key ss curr) s.
Proof.
  unfold derive_pending_key, pending_key.
  by destruct (hkdf_expand_ok (hkdf_extract ss curr) (str_bytes "LinkChat Evolution") 32)
    as (? & -> & _).
Qed.

Lemma pending_key_len ss curr : lenZ (pending_key ss curr) = 32.
Proof.
  unfold pending_key.
  by destruct (hkdf_expand_ok (hkdf_extract ss curr) (str_bytes "LinkChat Evolution") 32)
    as (? & -> & ?).
Qed.

(** The statics once a root derived from the shared secret [ss] is pending. *)
Definition pend_set (ss : bytes) (s : evo_statics) : evo_statics :=
  with_root (with_pend (Some (pending_key ss (root_curr (ev_root s)))) (ev_root s)) s.

Lemma not_symmetry_iff (a b : bytes) : a <> b <-> b <> a.
Proof. split; congruence. Qed.

(** The constant-time comparison decides equality of the two digests. *)
Lemma hash_check pk stored :
  lenZ stored = 32 ->
  (negb (bool_decide (stored = repZ 32 0)) && negb (ct_accumulate (sha256 pk) stored =? 0) = true
   <-> stored <> repZ 32 0 /\ stored <> sha256 pk).
Proof.
  intros Hl.
  assert (ct_accumulate (sha256 pk) stored = 0 <-> sha256 pk = stored) as Hct.
  { apply ct_accumulate_eq. pose proof (sha256_len pk). unfold lenZ in *. lia. }
  rewrite andb_true_iff, !negb_true_iff, bool_decide_eq_false, Z.eqb_neq, Hct.
  by rewrite (not_symmetry_iff (sha256 pk)).
Qed.

Lemma start_evolution_eval s :
  lenZ (peer_pk_hash s) = 32 ->
  let pk := bob_public_key s in
  let enc := kyber_encapsulate pk (ev_rng s) in
  start_evolution s =
    if decide (pk = []) then Done 2 s
    else if decide (peer_pk_hash s <> repZ 32 0 /\ peer_pk_hash s <> sha256 pk) then Done 5 s
    else match enc.1 with
         | None => Done 1 (with_rng enc.2 s)
         | Some (ct, ss) => Done 0 (with_kem (Some (from_vec ct)) (pend_set ss (with_rng enc.2 s)))
         end.
Proof.
  intros Hl pk enc. unfold start_evolution, read_root_state_curr.
  erewrite bind_done by apply zoom_root_gets. step. fold pk. destruct (decide (pk = [])); [done|]. step.
  pose proof (hash_check pk (peer_pk_hash s) Hl) as Hc.
  destruct (decide (_ /\ _)) as [Hd|Hd]; [by rewrite (proj2 Hc Hd)|].
  rewrite (not_true_is_false _ (fun H => Hd (proj1 Hc H))).
  unfold pqc_encapsulate. step. fold pk enc.
  destruct enc.1 as [[ct ss]|] eqn:E; [|done].
  apply kyber_encapsulate_len in E as [_ Hss].
  unfold to_array32. rewrite Hss. simpl.
  erewrite bind_done by apply derive_pending_key_eval. done.
Qed.

Lemma apply_peer_kem_eval ct s :
  let sk := as_slice (bob_keys s).2 in
  apply_peer_kem ct s =
    if decide (sk = []) then Done 3 s
    else match kyber_decapsulate ct sk with
         | None => Done 2 s
         | Some ss => Done 0 (pend_set ss s)
         end.
Proof.
  intros sk. unfold apply_peer_kem. step. fold sk.
  destruct (decide (sk = [])); [done|].
  destruct (kyber_decapsulate ct sk) as [ss|] eqn:E; [|done].
  apply kyber_decapsulate_len in E. unfold to_array32. rewrite E. simpl.
  erewrite bind_done by apply zoom_root_gets.
  erewrite bind_done by apply derive_pending_key_eval. done.
Qed.
End eval.
#[export] Hint Resolve pending_key_len : kernel.

(** * Reachable states of the module *)

Section reach.
Context `{HP : Primitives} `{HB : BuildProfile}.

(** One call of the module's API, or any change the other modules make to the root
    statics.  A call that panics takes no step: the process is gone. *)
Inductive evo_step : evo_statics -> evo_statics -> Prop :=
| step_keypair out_pk out_sk r s s' :
    generate_bob_keypair out_pk out_sk s = Done r s' -> evo_step s s'
| step_set_pk pk s s' : set_peer_public_key pk s = Done tt s' -> evo_step s s'
| step_start r s s' : start_evolution s = Done r s' -> evo_step s s'
| step_apply ct r s s' : apply_peer_kem ct s = Done r s' -> evo_step s s'
| step_commit r s s' : commit_evolution s = Done r s' -> evo_step s s'
| step_root x s : root_ok x -> evo_step s (with_root x s).

Definition evo_reachable (s : evo_statics) : Prop := exists r, rtc evo_step (evo_init r) s.

Record evo_ok (s : evo_statics) : Prop := {
  evo_root_ok : root_ok (ev_root s);
  evo_hash_len : lenZ (peer_pk_hash s) = 32;
  evo_hash_bound : bob_public_key s = [] \/ peer_pk_hash s = sha256 (bob_public_key s);
  evo_keys_len : as_slice (bob_keys s).2 = [] \/ lenZ (as_slice (bob_keys s).2) = 3168;
  evo_kem_len b : kem_cipher s = Some b -> len b = 1568;
}.

Context `{HOk : !PrimitivesOk HP}.

Lemma evo_init_ok r : evo_ok (evo_init r).
Proof.
  split; simpl; [apply root_init_ok|by rewrite lenZ_repZ|by left..|done].
Qed.

Lemma evo_ok_root x s : evo_ok s -> root_ok x -> evo_ok (with_root x s).
Proof. intros [] ?. by split. Qed.
Lemma evo_ok_rng x s : evo_ok s -> evo_ok (with_rng x s).
Proof. intros []. by split. Qed.
Lemma evo_ok_kem b s : evo_ok s -> len b = 1568 -> evo_ok (with_kem (Some b) s).
Proof. intros [] ?. split; auto. simpl. by intros ? [= <-]. Qed.
Lemma evo_ok_pend_set ss s : evo_ok s -> evo_ok (pend_set ss s).
Proof.
  intros Hs. apply evo_ok_root; [done|]. apply root_ok_pend; [by apply evo_root_ok|].
  intros k [= <-]. apply pending_key_len.
Qed.

Lemma start_preserves r s s' : evo_ok s -> start_evolution s = Done r s' -> evo_ok s'.
Proof.
  intros Hs. rewrite start_evolution_eval by (by apply evo_hash_len).
  destruct (decide _); [by intros [= _ <-]|].
  destruct (decide _); [by intros [= _ <-]|].
  destruct (kyber_encapsulate _ _).1 as [[ct ss]|] eqn:E; intros [= _ <-].
  - apply evo_ok_kem; [|by apply kyber_encapsulate_len in E as [? _]].
    by apply evo_ok_pend_set, evo_ok_rng.
  - by apply evo_ok_rng.
Qed.

Lemma apply_preserves ct r s s' : evo_ok s -> apply_peer_kem ct s = Done r s' -> evo_ok s'.
Proof.
  intros Hs. rewrite apply_peer_kem_eval. destruct (decide _); [by intros [= _ <-]|].
  destruct (kyber_decapsulate _ _); intros [= _ <-]; [|done]. by apply evo_ok_pend_set.
Qed.

Lemma commit_preserves r s s' : evo_ok s -> commit_evolution s = Done r s' -> evo_ok s'.
Proof.
  intros Hs. unfold commit_evolution, zoom. simpl. pose proof (evo_root_ok _ Hs) as Hr.
  rewrite commit_evolution_eval by (by apply epoch_range).
  destruct (root_pend (ev_root s)) as [k|] eqn:E; [|intros [= _ <-]; by apply evo_ok_root].
  destruct (_ || _); [|done]. intros [= _ <-]. apply evo_ok_root; [done|].
  apply advanced_ok; [done|by eapply root_pend_len|done].
Qed.

Lemma keypair_preserves a b r s s' :
  evo_ok s -> generate_bob_keypair a b s = Done r s' -> evo_ok s'.
Proof.
  intros []. unfold generate_bob_keypair, pqc_keypair, copy_prefix, mbind, M_bind, modify, mret,
    M_ret, panic. simpl. destruct (_ <=? _); [|done]. destruct (_ <=? _); [|done].
  intros [= _ <-]. split; auto. right. simpl. apply kyber_keypair_len.
Qed.

Lemma set_pk_preserves pk s s' :
  evo_ok s -> set_peer_public_key pk s = Done tt s' -> evo_ok s'.
Proof. intros [] [= <-]. split; simpl; auto. apply sha256_len. Qed.

Lemma evo_step_ok s s' : evo_ok s -> evo_step s s' -> evo_ok s'.
Proof.
  intros Hs. destruct 1; eauto using keypair_preserves, set_pk_preserves, start_preserves,
    apply_preserves, commit_preserves, evo_ok_root.
Qed.

Lemma evo_reachable_ok s : evo_reachable s -> evo_ok s.
Proof.
  intros [r Hs]. refine (rtc_ind_r (R := evo_step) evo_ok (evo_init r) _ _ s Hs).
  - apply evo_init_ok.
  - intros y z _ Hstep IH. by eapply evo_step_ok.
Qed.

(** In every reachable state [start_evolution] runs to completion in both build
    profiles, and its result is decided by the stored public key alone: code 2 with
    nothing changed when no key is stored; code 1 with only the generator advanced when
    the key is not 1568 bytes; code 0 otherwise, with a 32-byte root pending (derived
    from the shared secret and the current root), a 1568-byte KEM ciphertext published,
    and current root, epoch, counter and stored keys unchanged. Codes 4 and 5 never
    occur: the stored digest is always that of the stored key. *)
Theorem start_evolution_reachable s :
  evo_reachable s ->
  let pk := bob_public_key s in
  let enc := kyber_encapsulate pk (ev_rng s) in
  (pk = [] -> start_evolution s = Done 2 s) /\
  (pk <> [] -> lenZ pk <> 1568 -> start_evolution s = Done 1 (with_rng enc.2 s)) /\
  (lenZ pk = 1568 -> exists ct ss pend,
     enc.1 = Some (ct, ss) /\ lenZ ct = 1568 /\ lenZ pend = 32 /\
     start_evolution s = Done 0 (EvoStatics
       (with_pend (Some pend) (ev_root s)) (Some (from_vec ct)) (bob_keys s) pk
       (peer_pk_hash s) enc.2)).
Proof.
  intros Hs%evo_reachable_ok pk enc. rewrite start_evolution_eval by (by apply evo_hash_len). fold pk enc.
  destruct (evo_hash_bound _ Hs) as [Hb|Hb]; fold pk in Hb.
  { rewrite decide_True by done. rewrite Hb, lenZ_nil. naive_solver. }
  split; [intros E; by rewrite decide_True|].
  rewrite (decide_False (P := _ /\ _)) by (by intros [_ ?]).
  split.
  - intros Hne Hlen. rewrite decide_False by done.
    destruct enc.1 eqn:E; [|done]. destruct Hlen.
    apply (kyber_encapsulate_ok pk (ev_rng s)). fold enc. by rewrite E.
  - intros Hlen. rewrite decide_False by (intros ->; by rewrite lenZ_nil in Hlen).
    destruct (proj2 (kyber_encapsulate_ok pk (ev_rng s)) Hlen) as [[ct ss] E]. fold enc in E.
    rewrite E. pose proof (kyber_encapsulate_len _ _ _ _ E) as [Hct _].
    by eexists ct, ss, _; split_and!; [done|done|apply pending_key_len|].
Qed.

(** In every reachable state [apply_peer_kem] runs to completion, and returns 3
    with nothing changed when no key pair was generated, 2 with nothing changed when
    the ciphertext is not 1568 bytes, and 0 otherwise, changing only the pending root,
    to a 32-byte value. Code 4 never occurs. *)
Theorem apply_peer_kem_reachable ct s :
  evo_reachable s ->
  let sk := as_slice (bob_keys s).2 in
  (sk = [] -> apply_peer_kem ct s = Done 3 s) /\
  (sk <> [] -> lenZ ct <> 1568 -> apply_peer_kem ct s = Done 2 s) /\
  (sk <> [] -> lenZ ct = 1568 -> exists pend,
     lenZ pend = 32 /\
     apply_peer_kem ct s = Done 0 (with_root (with_pend (Some pend) (ev_root s)) s)).
Proof.
  intros Hs%evo_reachable_ok sk. rewrite apply_peer_kem_eval. fold sk.
  destruct (evo_keys_len _ Hs) as [Hsk|Hsk]; fold sk in Hsk.
  { rewrite decide_True by done. naive_solver. }
  split; [intros E; by rewrite decide_True|].
  split; intros Hne Hlen; rewrite decide_False by done.
  - destruct (kyber_decapsulate ct sk) eqn:E; [|done]. destruct Hlen.
    by apply (kyber_decapsulate_ok ct sk).
  - destruct (proj2 (kyber_decapsulate_ok ct sk) (conj Hlen Hsk)) as [ss ->].
    eexists. split; [apply pending_key_len|done].
Qed.
End reach.

(** * A complete evolution between two peers *)

Section cycle.
Context `{HP : Primitives} `{HB : BuildProfile} `{HOk : !PrimitivesOk HP}.

Lemma splice_whole (src dst : bytes) : lenZ src = lenZ dst -> splice 0 src dst = src.
Proof.
  intros E. unfold splice. rewrite takeZ_0, dropZ_all by lia. simpl. by rewrite app_nil_r.
Qed.

Lemma generate_bob_keypair_eval s :
  let kp := kyber_keypair (ev_rng s) in
  generate_bob_keypair (repZ 1568 0) (repZ 3168 0) s =
    Done (0, kp.1.1, kp.1.2) (with_bob_keys (kp.1.1, from_vec kp.1.2) (with_rng kp.2 s)).
Proof.
  intros kp. destruct (kyber_keypair_len (ev_rng s)) as [Hp Hk]. fold kp in Hp, Hk.
  unfold generate_bob_keypair, pqc_keypair, copy_prefix, as_slice, from_vec. step. fold kp. simpl.
  rewrite Hp, Hk, !lenZ_repZ. simpl. do 3 step.
  by rewrite !splice_whole by (rewrite lenZ_repZ; lia).
Qed.

Lemma set_peer_public_key_eval pk s :
  set_peer_public_key pk s = Done tt (with_pk_hash (sha256 pk) (with_bob_pk pk s)).
Proof. done. Qed.

Lemma get_kem_cipher_eval b s :
  kem_cipher s = Some b -> len b = 1568 ->
  get_kem_cipher (repZ 1568 0) s = Done (1568, as_slice b) s.
Proof.
  intros E Hl. unfold get_kem_cipher. step. rewrite E, Hl, lenZ_repZ.
  unfold copy_prefix, as_slice, len in *. rewrite takeZ_all by (rewrite Hl; lia).
  rewrite Hl, lenZ_repZ. simpl. step. by rewrite splice_whole by (by rewrite lenZ_repZ).
Qed.

Lemma commit_pending s k :
  root_pend (ev_root s) = Some k -> is_u 32 (epoch (ev_root s)) -> epoch (ev_root s) < u32_max ->
  commit_evolution s = Done 0 (with_root (RootStatics k None (epoch (ev_root s) + 1) 1) s).
Proof.
  intros E He Hm. unfold commit_evolution, zoom. simpl.
  rewrite commit_evolution_eval, E by done. unfold advanced, epoch_succ.
  by destruct (Z.ltb_spec (epoch (ev_root s)) u32_max); [|lia].
Qed.

(** The exchange up to the commits: both devices end with the same pending root. *)
Lemma evolution_exchange a b :
  evo_ok a -> evo_ok b -> root_curr (ev_root a) = root_curr (ev_root b) ->
  exists pk sk b1 a1 a2 ct b2 k,
    (generate_bob_keypair (repZ 1568 0) (repZ 3168 0) b = Done (0, pk, sk) b1 /\
     set_peer_public_key pk a = Done tt a1 /\
     start_evolution a1 = Done 0 a2 /\
     get_kem_cipher (repZ 1568 0) a2 = Done (1568, ct) a2 /\
     apply_peer_kem ct b1 = Done 0 b2) /\
    lenZ k = 32 /\ ev_root a2 = with_pend (Some k) (ev_root a) /\
    ev_root b2 = with_pend (Some k) (ev_root b).
Proof.
  intros Ha Hb Hroot.
  set (kp := kyber_keypair (ev_rng b)).
  destruct (kyber_keypair_len (ev_rng b)) as [Hp Hk]. fold kp in Hp, Hk.
  destruct (proj2 (kyber_encapsulate_ok kp.1.1 (ev_rng a)) Hp) as [[ct ss] E].
  pose proof (kyber_correct (ev_rng b) (ev_rng a) kp.1.1 kp.1.2 ct ss) as Hdec.
  pose proof (kyber_encapsulate_len _ _ _ _ E) as [Hct _].
  assert (forall l n : bytes, lenZ l = lenZ n + 1 -> l <> []) as Hne
    by (intros l n Hl ->; rewrite lenZ_nil in Hl; pose proof (lenZ_nonneg n); lia).
  eexists kp.1.1, kp.1.2, _, _, _, ct, _, (pending_key ss (root_curr (ev_root a))).
  split_and!.
  - apply generate_bob_keypair_eval.
  - apply set_peer_public_key_eval.
  - rewrite start_evolution_eval by apply sha256_len. simpl.
    rewrite decide_False by (apply (Hne _ (repZ 1567 0)); by rewrite lenZ_repZ).
    rewrite decide_False by (by intros [_ ?]). by rewrite E.
  - by apply (get_kem_cipher_eval (from_vec ct)).
  - rewrite apply_peer_kem_eval. simpl.
    rewrite decide_False by (apply (Hne _ (repZ 3167 0)); by rewrite lenZ_repZ).
    unfold as_slice. simpl. fold kp.
    by rewrite Hdec by (exact E || exact (surjective_pairing _)).
  - apply pending_key_len.
  - done.
  - simpl. by rewrite Hroot.
Qed.

(** [C5] Key agreement over a complete evolution: take any reachable states of two
    devices that hold the same current root and the same epoch (below the last). If Bob
    generates a key pair, Alice stores the public key Bob's call returned and starts an
    evolution, Bob applies the ciphertext Alice's device publishes, and both commit,
    then every call returns its success code in both build profiles, and the devices
    end with the same new root, nothing pending, the next epoch and a reset counter. *)
Theorem full_evolution_agreement a b :
  evo_reachable a -> evo_reachable b ->
  root_curr (ev_root a) = root_curr (ev_root b) -> epoch (ev_root a) = epoch (ev_root b) ->
  epoch (ev_root a) < u32_max ->
  exists pk sk b1 a1 a2 ct b2 a3 b3,
    generate_bob_keypair (repZ 1568 0) (repZ 3168 0) b = Done (0, pk, sk) b1 /\
    set_peer_public_key pk a = Done tt a1 /\
    start_evolution a1 = Done 0 a2 /\
    get_kem_cipher (repZ 1568 0) a2 = Done (1568, ct) a2 /\
    apply_peer_kem ct b1 = Done 0 b2 /\
    commit_evolution a2 = Done 0 a3 /\
    commit_evolution b2 = Done 0 b3 /\
    ev_root a3 = ev_root b3 /\ root_pend (ev_root a3) = None /\
    epoch (ev_root a3) = epoch (ev_root a) + 1 /\ msg_counter (ev_root a3) = 1.
Proof.
  intros Ha%evo_reachable_ok Hb%evo_reachable_ok Hroot He Hmax.
  pose proof (epoch_range _ (evo_root_ok _ Ha)) as Hra.
  destruct (evolution_exchange a b Ha Hb Hroot)
    as (pk & sk & b1 & a1 & a2 & ct & b2 & k & (E1 & E2 & E3 & E4 & E5) & _ & Ra & Rb).
  eexists pk, sk, b1, a1, a2, ct, b2, _, _.
  split_and!; [exact E1|exact E2|exact E3|exact E4|exact E5| | | | | |].
  - apply (commit_pending a2 k); rewrite Ra; auto.
  - apply (commit_pending b2 k); rewrite Rb; simpl; rewrite <- ?He; auto.
  - rewrite Ra, Rb. simpl. by rewrite He.
  - done.
  - simpl. by rewrite Ra.
  - done.
Qed.
End cycle.

(** * Witnesses *)

Lemma evo_init_reachable (r : @rng toy) : evo_reachable (HB := true) (evo_init r).
Proof. exists r. apply rtc_refl. Qed.

(** A device that stored a 1568-byte key and generated a key pair of its own. *)
Definition paired_device : @evo_statics toy :=
  EvoStatics root_init None (repZ 1568 7, from_vec (repZ 3168 7)) (repZ 1568 9)
    (sha256 (repZ 1568 9)) 8.

Lemma paired_device_reachable : evo_reachable (HB := true) paired_device.
Proof.
  exists (7 : @rng toy).
  eapply rtc_l.
  { eapply (step_keypair (repZ 1568 0) (repZ 3168 0)). apply generate_bob_keypair_eval. }
  eapply rtc_l.
  { apply (step_set_pk (repZ 1568 9)). apply set_peer_public_key_eval. }
  apply rtc_refl.
Qed.

Lemma start_evolution_reachable_witness :
  exists ct ss pend, kyber_encapsulate (repZ 1568 9) (8 : @rng toy) = (Some (ct, ss), 9) /\
    start_evolution paired_device = Done 0 (EvoStatics
      (with_pend (Some pend) root_init) (Some (from_vec ct)) (repZ 1568 7, from_vec (repZ 3168 7))
      (repZ 1568 9) (sha256 (repZ 1568 9)) 9).
Proof.
  destruct (start_evolution_reachable paired_device paired_device_reachable)
    as (_ & _ & Hok).
  destruct Hok as (ct & ss & pend & E & _ & _ & Hs); [exact (lenZ_repZ 1568 9)|].
  exists ct, ss, pend. split; [|exact Hs]. rewrite <- E. reflexivity.
Defined.

Lemma apply_peer_kem_reachable_witness :
  apply_peer_kem [1; 2] paired_device = Done 2 paired_device /\
  exists pend, apply_peer_kem (repZ 1568 3) paired_device =
    Done 0 (with_root (with_pend (Some pend) root_init) paired_device).
Proof.
  assert (repZ 3168 7 <> []) as Hne.
  { intros E. pose proof (lenZ_repZ 3168 7) as L. rewrite E in L. discriminate L. }
  split.
  - destruct (apply_peer_kem_reachable [1; 2] paired_device paired_device_reachable)
      as (_ & H2 & _).
    apply H2; [exact Hne|]. unfold lenZ. simpl. lia.
  - destruct (apply_peer_kem_reachable (repZ 1568 3) paired_device paired_device_reachable)
      as (_ & _ & H0).
    destruct H0 as (pend & _ & E); [exact Hne|by rewrite lenZ_repZ|]. by exists pend.
Defined.

Lemma full_evolution_agreement_witness :
  exists pk sk b1 a1 a2 ct b2 a3 b3,
    generate_bob_keypair (repZ 1568 0) (repZ 3168 0) (evo_init (3 : @rng toy)) = Done (0, pk, sk) b1 /\
    set_peer_public_key pk (evo_init (9 : @rng toy)) = Done tt a1 /\
    start_evolution a1 = Done 0 a2 /\
    get_kem_cipher (repZ 1568 0) a2 = Done (1568, ct) a2 /\
    apply_peer_kem ct b1 = Done 0 b2 /\
    commit_evolution (HB := true) a2 = Done 0 a3 /\
    commit_evolution (HB := true) b2 = Done 0 b3 /\
    ev_root a3 = ev_root b3 /\ root_pend (ev_root a3) = None /\
    epoch (ev_root a3) = 1 /\ msg_counter (ev_root a3) = 1.
Proof.
  apply (full_evolution_agreement (HP := toy) (HB := true) (evo_init (9 : @rng toy))
    (evo_init (3 : @rng toy)));
    first [apply evo_init_reachable | reflexivity].
Defined.
