(* ===== verification/Session.v ===== *)
(** Sessions: what sequences of calls guarantee, across [root_state.rs],
    [message_cipher.rs], [anti_dos.rs] and [evolution.rs].

    [root_op] lists the calls that read or change the root statics during a session;
    [run_ops] runs a sequence of them and collects the (epoch, sequence number) pairs
    handed out to senders.  The second part follows two devices through an evolution
    in which only one of them commits explicitly. *)
From stdpp Require Import sorting.
From S2P Require Import Prelude Effects Crypto RootState AntiDos MessageCipher Evolution.

(** * Sequences of calls *)

Inductive root_op :=
  | OpNextSeq
  | OpSetPend (key : option bytes)
  | OpCommit
  | OpRecover (target : Z)
  | OpTryDecrypt (wire stamp : bytes) (outgoing : bool) (e q t : Z).

Section run.
Context `{HP : Primitives} `{HB : BuildProfile}.

(** One call; the list holds the pair a sender obtains from [get_epoch_id] and
    [msg_counter_next]. *)
Definition run_op (op : root_op) : M root_statics (list (Z * Z)) :=
  match op with
  | OpNextSeq => e ← read_epoch_id; q ← next_msg_seq; mret [(e, q)]
  | OpSetPend key => set_root_state_pend key;; mret []
  | OpCommit => _ ← RootState.commit_evolution; mret []
  | OpRecover target => _ ← recover_after_loss target; mret []
  | OpTryDecrypt wire stamp o e q t =>
      _ ← try_decrypt_with_evolution wire stamp o e q t; mret []
  end.

Fixpoint run_ops (ops : list root_op) : M root_statics (list (Z * Z)) :=
  match ops with
  | [] => mret []
  | op :: ops => l ← run_op op; k ← run_ops ops; mret (l ++ k)
  end.
End run.

(** Arguments of the Rust types. *)
Definition op_ok (op : root_op) : Prop :=
  match op with
  | OpSetPend key => forall k, key = Some k -> lenZ k = 32
  | OpRecover target => is_u 32 target
  | _ => True
  end.

(** How far one call can move the epoch. *)
Definition epoch_budget (op : root_op) : Z :=
  match op with
  | OpCommit | OpTryDecrypt _ _ _ _ _ _ => 1
  | OpRecover _ => 100000
  | _ => 0
  end.
Definition total_budget (ops : list root_op) : Z := foldr (fun op n => epoch_budget op + n) 0 ops.

(** Lexicographic order on (epoch, sequence number). *)
Definition lex_lt (p q : Z * Z) : Prop := p.1 < q.1 \/ p.1 = q.1 /\ p.2 < q.2.
Definition lex_le (p q : Z * Z) : Prop := p.1 < q.1 \/ p.1 = q.1 /\ p.2 <= q.2.

Lemma total_budget_nonneg ops : 0 <= total_budget ops.
Proof. induction ops as [|[] ops IH]; simpl; lia. Qed.

Lemma lex_sorted_NoDup l : StronglySorted lex_lt l -> NoDup l.
Proof.
  induction 1 as [|p l _ IH Hall]; constructor; [|done].
  intros Hin. rewrite Forall_forall in Hall. destruct (Hall _ Hin); lia.
Qed.

Section session.
Context `{HP : Primitives} `{HB : BuildProfile} `{HOk : !PrimitivesOk HP}.

(** A call other than handing out a number either leaves epoch and counter alone or
    moves to a later epoch, within its budget. *)
Definition advances (b : Z) (s s' : root_statics) : Prop :=
  epoch s' = epoch s /\ msg_counter s' = msg_counter s \/
  epoch s < epoch s' <= epoch s + b /\ msg_counter s' = 1.

Lemma no_advance b s (o : outcome root_statics (list (Z * Z))) :
  o = Done [] s -> root_ok s ->
  exists l s', o = Done l s' /\ root_ok s' /\
    (l = [] /\ advances b s s' \/
     l = [(epoch s, msg_counter s)] /\ s' = with_counter (msg_counter s + 1) s).
Proof. intros -> Hs. exists [], s. split; [done|]. split; [done|]. left. by split; [|left]. Qed.

Lemma committed_advance b k s (o : outcome root_statics (list (Z * Z))) :
  root_ok s -> root_pend s = Some k -> epoch s < u32_max -> 1 <= b ->
  o = Done [] (advanced k None s) ->
  exists l s', o = Done l s' /\ root_ok s' /\
    (l = [] /\ advances b s s' \/
     l = [(epoch s, msg_counter s)] /\ s' = with_counter (msg_counter s + 1) s).
Proof.
  intros Hs Ep Hm Hb ->. exists [], (advanced k None s). split; [done|].
  split; [by apply advanced_ok; [|eapply root_pend_len|]|].
  left. split; [done|]. right. simpl. unfold epoch_succ.
  destruct (Z.ltb_spec (epoch s) u32_max); lia.
Qed.

Lemma run_op_step op s :
  root_ok s -> op_ok op -> epoch s + epoch_budget op <= u32_max -> msg_counter s + 1 < 2 ^ 64 ->
  exists l s', run_op op s = Done l s' /\ root_ok s' /\
    (l = [] /\ advances (epoch_budget op) s s' \/
     l = [(epoch s, msg_counter s)] /\ s' = with_counter (msg_counter s + 1) s).
Proof.
  intros Hs Hop Hb Hc. pose proof (epoch_range _ Hs) as He. pose proof (counter_range _ Hs) as Hcr.
  destruct op as [|key| |t|wire st o e q t]; simpl in *.
  - eexists _, _. split; [reflexivity|]. rewrite Z.mod_small by (unfold is_u in *; lia).
    split; [apply root_ok_counter; unfold is_u in *; auto; lia|by right].
  - eexists _, _. split; [reflexivity|]. split; [by apply root_ok_pend|by left; split; [|left]].
  - unfold mbind at 1, M_bind at 1. rewrite commit_evolution_eval by done.
    destruct (root_pend s) as [k|] eqn:Ep; [|by apply no_advance].
    destruct (Z.ltb_spec (epoch s) u32_max); [|lia]. by apply (committed_advance _ k).
  - unfold mbind, M_bind. rewrite recover_eval by done.
    destruct (Z.leb_spec t (epoch s)); [by apply no_advance|].
    destruct (Z.ltb_spec 100000 (t - epoch s)); [by apply no_advance|].
    destruct (Z.to_nat (t - epoch s)) as [|n] eqn:En; [lia|].
    eexists _, _. split; [reflexivity|]. split.
    + split; simpl; [apply rolled_key_len|apply Hs|unfold is_u in *; lia|by unfold is_u].
    + left. split; [done|]. right. simpl. lia.
  - unfold mbind, M_bind. rewrite try_decrypt_eval by (done || lia).
    destruct (decrypt _ _ _ _ _ _ _); [by apply no_advance|].
    destruct (root_pend s) as [k|] eqn:Ep; [|by apply no_advance].
    destruct (e =? epoch s + 1); [|by apply no_advance].
    destruct (decrypt _ _ _ _ _ _ _); [|by apply no_advance].
    apply (committed_advance _ k); (done || lia).
Qed.

Lemma run_ops_sorted ops s :
  root_ok s -> Forall op_ok ops -> epoch s + total_budget ops <= u32_max ->
  msg_counter s + lenZ ops < 2 ^ 64 ->
  exists l s', run_ops ops s = Done l s' /\ root_ok s' /\ StronglySorted lex_lt l /\
    Forall (lex_le (epoch s, msg_counter s)) l.
Proof.
  revert s. induction ops as [|op ops IH]; intros s Hs Hops Hb Hc; simpl in Hb.
  { eexists _, _. split; [reflexivity|]. split_and!; [done|constructor..]. }
  apply Forall_cons in Hops as [Hop Hops]. rewrite lenZ_cons in Hc.
  pose proof (total_budget_nonneg ops). pose proof (lenZ_nonneg ops).
  pose proof (counter_range _ Hs) as Hcr. unfold is_u in Hcr.
  destruct (run_op_step op s) as (l & s1 & E1 & Hs1 & Hstep); [done..|lia|lia|].
  assert (epoch s1 + total_budget ops <= u32_max /\ msg_counter s1 + lenZ ops < 2 ^ 64) as [Hb1 Hc1].
  { destruct Hstep as [[_ [[-> ->]|[? ->]]]|[_ ->]]; simpl in *; destruct op; simpl in *; lia. }
  destruct (IH s1 Hs1 Hops Hb1 Hc1) as (k & s2 & E2 & Hs2 & Hsort & Hlb).
  exists (l ++ k), s2. simpl. erewrite bind_done by exact E1. erewrite bind_done by exact E2.
  split; [done|]. split; [done|].
  destruct Hstep as [[-> Hadv]|[-> ->]]; simpl.
  - split; [done|]. eapply Forall_impl; [exact Hlb|]. intros [e q]. unfold lex_le. simpl.
    destruct Hadv as [[-> ->]|[? ->]]; lia.
  - split.
    + constructor; [done|]. eapply Forall_impl; [exact Hlb|]. intros [e q].
      unfold lex_le, lex_lt. simpl. lia.
    + constructor; [unfold lex_le; simpl; lia|]. eapply Forall_impl; [exact Hlb|].
      intros [e q]. unfold lex_le. simpl. lia.
Qed.

(** [C11] No (epoch, sequence number) pair is ever handed out twice: any sequence of
    calls handing out numbers, setting a pending root, committing, recovering after loss
    and decrypting with automatic commit, in any order, runs without a panic in both
    build profiles, and the pairs handed out are strictly increasing in lexicographic
    order, hence pairwise distinct, as long as the counter cannot reach 2^64 and the
    epoch cannot pass [u32::MAX]. *)
Theorem session_pairs_unique ops s :
  root_ok s -> Forall op_ok ops -> epoch s + total_budget ops <= u32_max ->
  msg_counter s + lenZ ops < 2 ^ 64 ->
  exists l s', run_ops ops s = Done l s' /\ root_ok s' /\ StronglySorted lex_lt l /\ NoDup l.
Proof.
  intros Hs Hops Hb Hc.
  destruct (run_ops_sorted ops s Hs Hops Hb Hc) as (l & s' & E & Hs' & Hsort & _).
  exists l, s'. eauto using lex_sorted_NoDup.
Qed.
End session.

(** * An evolution in which only Bob commits *)

Section auto_commit.
Context `{HP : Primitives} `{HB : BuildProfile} `{HOk : !PrimitivesOk HP}.

(** Bob's send path: a fresh sequence number, its key, the sealed message. *)
Definition send (pt stamp : bytes) (outgoing : bool) (t : Z) :
    M root_statics (Z * Z * option bytes) :=
  e ← read_epoch_id;
  q ← next_msg_seq;
  k ← derive_message_key e q;
  mret (e, q, encrypt pt k stamp outgoing e q t).

Lemma send_eval pt st o t s :
  root_ok s -> lenZ st = 32 -> lenZ pt < 2 ^ 32 ->
  let e := epoch s in let q := msg_counter s in
  exists ct, aes_gcm_encrypt (message_key (root_curr s) e q) (build_nonce e t q)
               (build_aad st o e q t) pt = Some ct /\
    send pt st o t s =
      Done (e, q, Some (build_nonce e t q ++ ct)) (with_counter ((q + 1) mod 2 ^ 64) s).
Proof.
  intros Hs Hst Hpt e q.
  destruct (encrypt_eval pt (message_key (root_curr s) e q) st o e q t) as (ct & E & E' & _);
    auto with kernel.
  exists ct. split; [done|]. unfold send, read_epoch_id. step.
  erewrite (bind_done next_msg_seq) by reflexivity.
  erewrite bind_done by apply derive_message_key_eval.
  cbn [root_curr RootState.epoch with_counter]. fold e q. by rewrite E'.
Qed.

(** [C9] Convergence without an explicit commit by Alice: two devices in reachable
    states with the same root and epoch run the exchange, Bob commits and sends a
    message, and Alice only decrypts it with automatic commit. Then Alice recovers
    exactly the plaintext, commits, and holds Bob's root, epoch and an empty pending
    slot, unless the message is an AES-256-GCM collision that also opens under the
    message key of the root that was replaced. *)
Theorem auto_commit_converges a b pt st o t :
  evo_reachable a -> evo_reachable b ->
  root_curr (ev_root a) = root_curr (ev_root b) -> epoch (ev_root a) = epoch (ev_root b) ->
  epoch (ev_root a) < u32_max -> lenZ st = 32 -> lenZ pt < 2 ^ 32 ->
  exists pk sk b1 a1 a2 ct b2 b3 e q wire b4,
    (generate_bob_keypair (repZ 1568 0) (repZ 3168 0) b = Done (0, pk, sk) b1 /\
     set_peer_public_key pk a = Done tt a1 /\
     start_evolution a1 = Done 0 a2 /\
     get_kem_cipher (repZ 1568 0) a2 = Done (1568, ct) a2 /\
     apply_peer_kem ct b1 = Done 0 b2 /\
     commit_evolution b2 = Done 0 b3 /\
     send pt st o t (ev_root b3) = Done (e, q, Some wire) b4) /\
    ((exists a3, try_decrypt_with_evolution wire st o e q t (ev_root a2) =
        Done (Some (pt, true)) a3 /\
        root_curr a3 = root_curr b4 /\ epoch a3 = epoch b4 /\ root_pend a3 = None) \/
     exists n c p k, k = message_key (root_curr (ev_root a)) e q /\ wire = n ++ c /\
       aes_gcm_encrypt k n (build_aad st o e q t) p = Some c).
Proof.
  intros Ha%evo_reachable_ok Hb%evo_reachable_ok Hroot He Hmax Hst Hpt.
  pose proof (evo_root_ok _ Ha) as Hra. pose proof (epoch_range _ Hra) as Hre.
  destruct (evolution_exchange a b Ha Hb Hroot)
    as (pk & sk & b1 & a1 & a2 & ct & b2 & k & (E1 & E2 & E3 & E4 & E5) & Hk & Ra & Rb).
  set (rb := RootStatics k None (epoch (ev_root a) + 1) 1).
  assert (commit_evolution b2 = Done 0 (with_root rb b2)) as E6.
  { rewrite (commit_pending b2 k) by (rewrite Rb; simpl; rewrite <- ?He; done).
    unfold rb. by rewrite Rb, He. }
  assert (root_ok rb) as Hrb.
  { split; simpl; [done|done|unfold is_u, u32_max in *; lia|by unfold is_u]. }
  destruct (send_eval pt st o t rb Hrb Hst Hpt) as (c & Ec & E7).
  pose proof (decrypt_sealed _ _ _ _ _ _ _ _ _ (build_nonce_len _ _ _) Ec) as Eo.
  set (n := build_nonce (epoch rb) t (msg_counter rb)) in *. clearbody n. simpl in Eo, E7.
  eexists pk, sk, b1, a1, a2, ct, b2, (with_root rb b2), _, _, (n ++ c), _.
  split; [split_and!; [exact E1|exact E2|exact E3|exact E4|exact E5|exact E6|exact E7]|].
  assert (root_ok (ev_root a2)) as Hra2 by (rewrite Ra; apply root_ok_pend; [done|by intros ? [= <-]]).
  rewrite try_decrypt_eval by (done || (by rewrite Ra)). rewrite Ra. simpl.
  destruct (decrypt (n ++ c) (message_key (root_curr (ev_root a)) (epoch (ev_root a) + 1) 1)
    st o (epoch (ev_root a) + 1) 1 t) as [p|] eqn:Ed.
  - right. apply decrypt_inv in Ed as (n' & c' & Ew & _ & Es). by eexists n', c', p, _.
  - left. rewrite Z.eqb_refl, Eo.
    eexists. split; [reflexivity|]. simpl. unfold epoch_succ.
    destruct (Z.ltb_spec (epoch (ev_root a)) u32_max); [done|lia].
Qed.
End auto_commit.

(** * Witnesses *)

Lemma session_pairs_unique_witness :
  let ops := [OpNextSeq; OpNextSeq; OpSetPend (Some (repZ 32 9)); OpCommit; OpNextSeq;
              OpRecover 4; OpNextSeq] in
  run_ops (HB := true) ops root_init = Done [(0, 1); (0, 2); (1, 1); (4, 1)]
    (RootStatics (rolled 3 (repZ 32 9)) None 4 2) /\
  exists l s', run_ops (HB := true) ops root_init = Done l s' /\ NoDup l.
Proof.
  split; [vm_compute; reflexivity|].
  destruct (session_pairs_unique (HB := true)
    [OpNextSeq; OpNextSeq; OpSetPend (Some (repZ 32 9)); OpCommit; OpNextSeq; OpRecover 4; OpNextSeq]
    root_init root_init_ok) as (l & s' & E & _ & _ & Hnd).
  - repeat constructor; simpl; [by intros k [= <-]|unfold is_u; lia].
  - vm_compute. discriminate.
  - vm_compute. reflexivity.
  - exists l, s'. split; [exact E|exact Hnd].
Defined.

Lemma auto_commit_converges_witness :
  exists pk sk b1 a1 a2 ct b2 b3 e q wire b4,
    (generate_bob_keypair (repZ 1568 0) (repZ 3168 0) (evo_init (3 : @rng toy)) = Done (0, pk, sk) b1 /\
     set_peer_public_key pk (evo_init (9 : @rng toy)) = Done tt a1 /\
     start_evolution a1 = Done 0 a2 /\
     get_kem_cipher (repZ 1568 0) a2 = Done (1568, ct) a2 /\
     apply_peer_kem ct b1 = Done 0 b2 /\
     commit_evolution (HB := true) b2 = Done 0 b3 /\
     send [72; 105] (repZ 32 2) true 1000 (ev_root b3) = Done (e, q, Some wire) b4) /\
    ((exists a3, try_decrypt_with_evolution (H0 := true) wire (repZ 32 2) true e q 1000 (ev_root a2) =
        Done (Some ([72; 105], true)) a3 /\
        root_curr a3 = root_curr b4 /\ epoch a3 = epoch b4 /\ root_pend a3 = None) \/
     exists n c p k, k = message_key (repZ 32 0) e q /\ wire = n ++ c /\
       aes_gcm_encrypt k n (build_aad (repZ 32 2) true e q 1000) p = Some c).
Proof.
  apply (auto_commit_converges (HP := toy) (HB := true) (evo_init (9 : @rng toy))
    (evo_init (3 : @rng toy)) [72; 105] (repZ 32 2) true 1000);
    first [apply evo_init_reachable | reflexivity].
Defined.
