(* ===== verification/StdFs.v ===== *)
(** The part of [std::fs] and [libc] the kernel uses, as an executable file system.

    A directory maps paths to inodes, an inode holds bytes and two timestamps (in
    nanoseconds since the epoch), an open file is an inode and a position.  An inode also
    remembers the contents it had since it was last flushed by [sync_all]: those are what a
    loss of power may bring back.  Every system call consults a fault schedule: at a faulty
    tick it fails with [OsFault], a faulty [write_all] having first written some prefix of
    its data.  The theorems about the vault hold for every schedule, so they cover every
    combination of I/O errors. *)
From stdpp Require Import gmap.
From S2P Require Import Prelude Effects.

(** * State *)

(** [i_old] are the earlier contents, the newest first, that were not yet replaced on the
    medium for certain. *)
Record inode := Inode { i_data : bytes; i_atime : Z; i_mtime : Z; i_old : list bytes }.

Record fs := Fs {
  dir : gmap string Z;
  inodes : gmap Z inode;
  fds : gmap Z (Z * Z);
  next_id : Z;
  clock : Z -> Z;
  faults : Z -> option Z;
  tick : Z;
}.

Definition with_dir (x : gmap string Z) (s : fs) : fs :=
  Fs x (inodes s) (fds s) (next_id s) (clock s) (faults s) (tick s).
Definition with_inodes (x : gmap Z inode) (s : fs) : fs :=
  Fs (dir s) x (fds s) (next_id s) (clock s) (faults s) (tick s).
Definition with_fds (x : gmap Z (Z * Z)) (s : fs) : fs :=
  Fs (dir s) (inodes s) x (next_id s) (clock s) (faults s) (tick s).
Definition with_next_id (x : Z) (s : fs) : fs :=
  Fs (dir s) (inodes s) (fds s) x (clock s) (faults s) (tick s).
Definition with_tick (x : Z) (s : fs) : fs :=
  Fs (dir s) (inodes s) (fds s) (next_id s) (clock s) (faults s) x.

Definition now (s : fs) : Z := clock s (tick s).

(** * File contents *)

(** [pwrite] at an offset, with a zero-filled gap past the end. *)
Definition write_at (off : Z) (d content : bytes) : bytes :=
  takeZ off content ++ repZ (off - lenZ content) 0 ++ d ++ dropZ (off + lenZ d) content.
(** [ftruncate]. *)
Definition resize (n : Z) (content : bytes) : bytes :=
  takeZ n content ++ repZ (n - lenZ content) 0.

(** * System calls *)

(** A path with an interior NUL is refused before any system call. *)
Definition has_nul (path : string) : bool :=
  existsb (fun b => b =? 0) (str_bytes path).

(** Advance the clock; a fault, if the schedule has one, is passed to the body. *)
Definition syscall {A} (body : option Z -> M fs (result A)) : M fs (result A) := fun s =>
  body (faults s (tick s)) (with_tick (tick s + 1) s).

Definition on_path {A} (path : string) (body : M fs (result A)) : M fs (result A) :=
  if has_nul path then mret (Err InvalidInput)
  else syscall (fun flt => match flt with Some _ => mret (Err OsFault) | None => body end).

(** [std::fs::metadata]. *)
Definition metadata (path : string) : M fs (result inode) :=
  on_path path (fun s =>
    match dir s !! path with
    | None => Done (Err NotFound) s
    | Some ino =>
        match inodes s !! ino with
        | None => Done (Err NotFound) s
        | Some nd => Done (Ok nd) s
        end
    end).

(** [Path::exists]. *)
Definition path_exists (path : string) : M fs bool :=
  r ← metadata path; mret (is_ok r).

(** [std::fs::remove_file]. *)
Definition remove_file (path : string) : M fs (result unit) :=
  on_path path (fun s =>
    match dir s !! path with
    | None => Done (Err NotFound) s
    | Some _ => Done (Ok tt) (with_dir (delete path (dir s)) s)
    end).

Definition open_ino (ino : Z) (s : fs) : outcome fs (result Z) :=
  Done (Ok (next_id s)) (with_next_id (next_id s + 1) (with_fds (<[next_id s := (ino, 0)]> (fds s)) s)).

(** [OpenOptions] with read, write and [create_new]. *)
Definition open_create_new (path : string) : M fs (result Z) :=
  on_path path (fun s =>
    match dir s !! path with
    | Some _ => Done (Err AlreadyExists) s
    | None =>
        let ino := next_id s in
        let s := with_inodes (<[ino := Inode [] (now s) (now s) []]> (inodes s)) s in
        let s := with_dir (<[path := ino]> (dir s)) s in
        open_ino ino (with_next_id (ino + 1) s)
    end).

(** [OpenOptions] with read and write. *)
Definition open_rw (path : string) : M fs (result Z) :=
  on_path path (fun s =>
    match dir s !! path with
    | None => Done (Err NotFound) s
    | Some ino => open_ino ino s
    end).

(** A call on an open file: its inode number, position and inode. *)
Definition on_fd {A} (fd : Z) (body : option Z -> Z -> Z -> inode -> M fs (result A)) :
    M fs (result A) :=
  syscall (fun flt s =>
    match fds s !! fd with
    | None => Done (Err OsFault) s
    | Some (ino, pos) =>
        match inodes s !! ino with
        | None => Done (Err OsFault) s
        | Some nd => body flt ino pos nd s
        end
    end).

Definition set_pos (fd ino pos : Z) (s : fs) : fs := with_fds (<[fd := (ino, pos)]> (fds s)) s.
Definition set_inode (ino : Z) (nd : inode) (s : fs) : fs :=
  with_inodes (<[ino := nd]> (inodes s)) s.

(** [file.seek(SeekFrom::Start(off))]. *)
Definition seek (fd off : Z) : M fs (result unit) :=
  on_fd fd (fun flt ino pos nd s =>
    match flt with
    | Some _ => Done (Err OsFault) s
    | None => Done (Ok tt) (set_pos fd ino off s)
    end).

(** [file.read_exact] into a buffer of [n] bytes; a position is never negative. *)
Definition read_exact (fd n : Z) : M fs (result bytes) :=
  on_fd fd (fun flt ino pos nd s =>
    match flt with
    | Some _ => Done (Err OsFault) s
    | None =>
        if (0 <=? pos) && (pos + n <=? lenZ (i_data nd)) then
          let s := set_inode ino (Inode (i_data nd) (now s) (i_mtime nd) (i_old nd)) s in
          Done (Ok (slice pos (pos + n) (i_data nd))) (set_pos fd ino (pos + n) s)
        else Done (Err UnexpectedEof) (set_pos fd ino (Z.max pos (lenZ (i_data nd))) s)
    end).

(** [file.write_all]; a fault [Some k] stops it after at most [k] bytes. *)
Definition write_all (fd : Z) (d : bytes) : M fs (result unit) :=
  on_fd fd (fun flt ino pos nd s =>
    let part := match flt with Some k => takeZ k d | None => d end in
    let s := set_inode ino (Inode (write_at pos part (i_data nd)) (i_atime nd) (now s) (i_data nd :: i_old nd)) s in
    Done (match flt with Some _ => Err OsFault | None => Ok tt end)
      (set_pos fd ino (pos + lenZ part) s)).

(** [file.set_len]. *)
Definition set_len (fd n : Z) : M fs (result unit) :=
  on_fd fd (fun flt ino pos nd s =>
    match flt with
    | Some _ => Done (Err OsFault) s
    | None => Done (Ok tt) (set_inode ino (Inode (resize n (i_data nd)) (i_atime nd) (now s) (i_data nd :: i_old nd)) s)
    end).

(** [file.sync_all]: the contents reach the medium. *)
Definition sync_all (fd : Z) : M fs (result unit) :=
  on_fd fd (fun flt ino pos nd s =>
    match flt with
    | Some _ => Done (Err OsFault) s
    | None => Done (Ok tt) (set_inode ino (Inode (i_data nd) (i_atime nd) (i_mtime nd) []) s)
    end).

(** [libc::utimes] with two [timeval]s. *)
Definition utimes (path : string) (atime mtime : Z * Z) : M fs (result unit) :=
  on_path path (fun s =>
    let ns (tv : Z * Z) := tv.1 * 1000000000 + tv.2 * 1000 in
    match dir s !! path with
    | None => Done (Err NotFound) s
    | Some ino =>
        match inodes s !! ino with
        | None => Done (Err NotFound) s
        | Some nd => Done (Ok tt) (set_inode ino (Inode (i_data nd) (ns atime) (ns mtime) (i_old nd)) s)
        end
    end).

(** Dropping a [File]. *)
Definition close (fd : Z) : M fs unit := modify (fun s => with_fds (delete fd (fds s)) s).

(** * Views and frame conditions *)

Definition ino_of (s : fs) (fd : Z) : option Z := fst <$> fds s !! fd.
Definition data_of (s : fs) (ino : Z) : option bytes := i_data <$> inodes s !! ino.

(** The contents a file has and may return to, the present ones first. *)
Definition versions (nd : inode) : list bytes := i_data nd :: i_old nd.
Definition versions_of (s : fs) (ino : Z) : list bytes := from_option versions [] (inodes s !! ino).

(** [fd] is open on inode [ino], which holds [d]. *)
Definition open_on (s : fs) (fd ino : Z) (d : bytes) : Prop :=
  ino_of s fd = Some ino /\ data_of s ino = Some d.

(** What a call leaves alone: directory, open files, and contents except those of [ino]
    (timestamps are not part of the view). *)
Definition only_changes (ino : Z) (s s' : fs) : Prop :=
  dir s' = dir s /\ (forall fd, ino_of s' fd = ino_of s fd) /\
  (forall i, i <> ino -> data_of s' i = data_of s i) /\ next_id s' = next_id s /\
  clock s' = clock s /\ faults s' = faults s /\ tick s <= tick s'.

Lemma only_changes_refl ino s : only_changes ino s s.
Proof. unfold only_changes. split_and!; auto; lia. Qed.
Lemma only_changes_trans ino s1 s2 s3 :
  only_changes ino s1 s2 -> only_changes ino s2 s3 -> only_changes ino s1 s3.
Proof.
  intros (D1 & F1 & I1 & N1 & C1 & L1 & T1) (D2 & F2 & I2 & N2 & C2 & L2 & T2).
  split_and!; intros; rewrite ?F2, ?I2 by done; try congruence; [|lia]. auto.
Qed.
#[export] Hint Resolve only_changes_refl : kernel.

(** * Rules for the calls on an open file *)

Definition faulty (s : fs) : Prop := is_Some (faults s (tick s)).

Lemma ino_of_fds s fd ino pos : fds s !! fd = Some (ino, pos) -> ino_of s fd = Some ino.
Proof. intros E. unfold ino_of. by rewrite E. Qed.

Lemma ino_of_set_pos fd ino pos s fd' :
  ino_of s fd = Some ino -> ino_of (set_pos fd ino pos s) fd' = ino_of s fd'.
Proof.
  unfold ino_of, set_pos. simpl. intros E.
  destruct (decide (fd = fd')) as [<-|]; [by rewrite lookup_insert_eq, E|].
  by rewrite lookup_insert_ne.
Qed.

(** A call that moves the position of [fd] and replaces the inode by [nd]. *)
Definition fd_update (fd ino pos : Z) (nd : inode) (s : fs) : fs :=
  set_pos fd ino pos (set_inode ino nd (with_tick (tick s + 1) s)).

Lemma fd_update_only fd ino pos nd s :
  ino_of s fd = Some ino -> only_changes ino s (fd_update fd ino pos nd s).
Proof.
  intros E. unfold only_changes. split_and!; try done.
  - intros fd'. exact (ino_of_set_pos fd ino pos (set_inode ino nd (with_tick (tick s + 1) s)) fd' E).
  - intros i Hi. unfold data_of. simpl. by rewrite lookup_insert_ne.
  - simpl. lia.
Qed.

Lemma fd_update_open fd ino pos nd s :
  ino_of s fd = Some ino -> open_on (fd_update fd ino pos nd s) fd ino (i_data nd).
Proof.
  intros E. split.
  - rewrite <- E. exact (ino_of_set_pos fd ino pos (set_inode ino nd (with_tick (tick s + 1) s)) fd E).
  - unfold data_of. simpl. by rewrite lookup_insert_eq.
Qed.

Lemma fd_update_pos fd ino pos nd s : fds (fd_update fd ino pos nd s) !! fd = Some (ino, pos).
Proof. simpl. by rewrite lookup_insert_eq. Qed.

Lemma fd_update_inode fd ino pos nd s : inodes (fd_update fd ino pos nd s) !! ino = Some nd.
Proof. simpl. by rewrite lookup_insert_eq. Qed.

Lemma fd_update_id fd ino pos nd s :
  fds s !! fd = Some (ino, pos) -> inodes s !! ino = Some nd ->
  fd_update fd ino pos nd s = with_tick (tick s + 1) s.
Proof.
  intros E1 E2. unfold fd_update, set_pos, set_inode, with_fds, with_inodes, with_tick. simpl.
  by rewrite !insert_id.
Qed.

Lemma open_on_inv s fd ino d :
  open_on s fd ino d -> exists pos nd, fds s !! fd = Some (ino, pos) /\ inodes s !! ino = Some nd /\ i_data nd = d.
Proof.
  intros [E1 E2]. unfold ino_of, data_of in *.
  apply fmap_Some in E1 as ([i p] & E1 & ->). apply fmap_Some in E2 as (nd & E2 & ->).
  by exists p, nd.
Qed.

(** Every call on an open file is an [fd_update]; [r] and [nd'] say with which result. *)
Lemma on_fd_eval {A} fd (body : option Z -> Z -> Z -> inode -> M fs (result A)) s ino pos nd :
  fds s !! fd = Some (ino, pos) -> inodes s !! ino = Some nd ->
  on_fd fd body s = body (faults s (tick s)) ino pos nd (with_tick (tick s + 1) s).
Proof. intros E1 E2. unfold on_fd, syscall. simpl. by rewrite E1, E2. Qed.

Section rules.
Context (fd ino : Z).

Lemma wp_seek off s d (Q : result unit -> fs -> Prop) :
  open_on s fd ino d ->
  (forall nd s', s' = fd_update fd ino off nd s -> inodes s !! ino = Some nd -> i_data nd = d ->
     Q (Ok tt) s') ->
  (forall s', faulty s -> only_changes ino s s' -> open_on s' fd ino d -> Q (Err OsFault) s') ->
  wp (seek fd off) Q s.
Proof.
  intros (pos & nd & E1 & E2 & Ed)%open_on_inv HOk HErr. unfold wp, seek.
  rewrite (on_fd_eval _ _ _ _ _ _ E1 E2).
  destruct (faults s (tick s)) as [k|] eqn:Ef.
  - rewrite <- (fd_update_id fd ino pos nd s) by done. subst d.
    apply HErr; [by exists k|apply fd_update_only|apply fd_update_open]; by eapply ino_of_fds.
  - apply (HOk nd); [|done..]. unfold fd_update, set_pos, set_inode, with_fds, with_inodes, with_tick.
    simpl. by rewrite (insert_id (inodes s)).
Qed.

Lemma wp_write_all dat s pos d (Q : result unit -> fs -> Prop) :
  fds s !! fd = Some (ino, pos) -> data_of s ino = Some d ->
  (forall a o s', s' = fd_update fd ino (pos + lenZ dat) (Inode (write_at pos dat d) a (clock s (tick s + 1)) o) s ->
     Q (Ok tt) s') ->
  (forall k s', faulty s -> only_changes ino s s' -> open_on s' fd ino (write_at pos (takeZ k dat) d) ->
     Q (Err OsFault) s') ->
  wp (write_all fd dat) Q s.
Proof.
  unfold data_of. intros E1 (nd & E2 & ->)%fmap_Some HOk HErr. unfold wp, write_all.
  rewrite (on_fd_eval _ _ _ _ _ _ E1 E2).
  destruct (faults s (tick s)) as [k|] eqn:Ef; [|by eapply (HOk (i_atime nd) (i_data nd :: i_old nd))].
  apply (HErr k); [by exists k| |].
  - by eapply (fd_update_only fd ino), ino_of_fds.
  - by eapply (fd_update_open fd ino _ (Inode _ _ _ _)), ino_of_fds.
Qed.

Lemma wp_read_exact n s pos d (Q : result bytes -> fs -> Prop) :
  0 <= pos -> fds s !! fd = Some (ino, pos) -> data_of s ino = Some d ->
  (forall s', pos + n <= lenZ d -> only_changes ino s s' -> open_on s' fd ino d ->
     Q (Ok (slice pos (pos + n) d)) s') ->
  (forall e s', e = OsFault /\ faulty s \/ e = UnexpectedEof /\ lenZ d < pos + n -> only_changes ino s s' ->
     open_on s' fd ino d -> Q (Err e) s') ->
  wp (read_exact fd n) Q s.
Proof.
  unfold data_of. intros H0 E1 (nd & E2 & ->)%fmap_Some HOk HErr. unfold wp, read_exact.
  rewrite (on_fd_eval _ _ _ _ _ _ E1 E2). destruct (Z.leb_spec 0 pos); [|lia]. cbn [andb].
  destruct (faults s (tick s)) as [k|] eqn:Ef; [|destruct (Z.leb_spec (pos + n) (lenZ (i_data nd)))].
  - rewrite <- (fd_update_id fd ino pos nd s) by done.
    apply HErr; [left; split; [done|by exists k]|apply fd_update_only|apply fd_update_open]; by eapply ino_of_fds.
  - apply HOk; [done| |].
    + by eapply (fd_update_only fd ino), ino_of_fds.
    + by eapply (fd_update_open fd ino _ (Inode _ _ _ _)), ino_of_fds.
  - assert (set_pos fd ino (pos `max` lenZ (i_data nd)) (with_tick (tick s + 1) s) =
      fd_update fd ino (pos `max` lenZ (i_data nd)) nd s) as ->.
    { unfold fd_update, set_pos, set_inode, with_fds, with_inodes, with_tick. simpl.
      by rewrite (insert_id (inodes s)). }
    apply HErr; [by right|apply fd_update_only|apply fd_update_open]; by eapply ino_of_fds.
Qed.

Lemma wp_set_len n s d (Q : result unit -> fs -> Prop) :
  open_on s fd ino d ->
  (forall s', only_changes ino s s' -> open_on s' fd ino (resize n d) -> Q (Ok tt) s') ->
  (forall s', faulty s -> only_changes ino s s' -> open_on s' fd ino d -> Q (Err OsFault) s') ->
  wp (set_len fd n) Q s.
Proof.
  intros (pos & nd & E1 & E2 & <-)%open_on_inv HOk HErr. unfold wp, set_len.
  rewrite (on_fd_eval _ _ _ _ _ _ E1 E2). pose proof (ino_of_fds _ _ _ _ E1) as Ei.
  destruct (faults s (tick s)) as [k|] eqn:Ef.
  - rewrite <- (fd_update_id fd ino pos nd s) by done.
    apply HErr; [by exists k|by apply fd_update_only|by apply fd_update_open].
  - set (nd' := Inode (resize n (i_data nd)) (i_atime nd) (now (with_tick (tick s + 1) s)) (i_data nd :: i_old nd)).
    assert (set_inode ino nd' (with_tick (tick s + 1) s) = fd_update fd ino pos nd' s) as ->.
    { unfold fd_update, set_pos, set_inode, with_fds, with_inodes, with_tick. simpl.
      by rewrite (insert_id (fds s)). }
    apply HOk; [by apply fd_update_only|by apply (fd_update_open fd ino pos nd' s)].
Qed.

Lemma wp_sync_all s d (Q : result unit -> fs -> Prop) :
  open_on s fd ino d ->
  (forall r s', (r = Ok tt \/ r = Err OsFault /\ faulty s) -> fds s' = fds s ->
     only_changes ino s s' -> open_on s' fd ino d -> Q r s') ->
  wp (sync_all fd) Q s.
Proof.
  intros (pos & nd & E1 & E2 & <-)%open_on_inv HQ. unfold wp, sync_all.
  rewrite (on_fd_eval _ _ _ _ _ _ E1 E2). pose proof (ino_of_fds _ _ _ _ E1) as Ei.
  destruct (faults s (tick s)) as [k|] eqn:Ef.
  - rewrite <- (fd_update_id fd ino pos nd s) by done.
    apply HQ; [right; split; [done|by exists k]|cbn; by rewrite insert_id|by apply fd_update_only|by apply fd_update_open].
  - set (nd' := Inode (i_data nd) (i_atime nd) (i_mtime nd) []).
    assert (set_inode ino nd' (with_tick (tick s + 1) s) = fd_update fd ino pos nd' s) as ->.
    { unfold fd_update, set_pos, set_inode, with_fds, with_inodes, with_tick. simpl.
      by rewrite (insert_id (fds s)). }
    apply HQ; [by left|cbn; by rewrite insert_id|by apply fd_update_only|by apply (fd_update_open fd ino pos nd' s)].
Qed.
End rules.

(** * Rules for the calls on a path *)

(** A call that changes no file's contents. *)
Definition keeps_data (s s' : fs) : Prop :=
  dir s' = dir s /\ (forall fd, ino_of s' fd = ino_of s fd) /\
  (forall i, data_of s' i = data_of s i) /\ next_id s' = next_id s /\
  clock s' = clock s /\ faults s' = faults s /\ tick s <= tick s'.

Lemma keeps_data_only ino s s' : keeps_data s s' -> only_changes ino s s'.
Proof. intros (? & ? & D & ?). split_and!; try tauto. intros i _. apply D. Qed.
Lemma keeps_data_open s s' fd ino d : keeps_data s s' -> open_on s fd ino d -> open_on s' fd ino d.
Proof. intros (_ & F & D & _) [? ?]. split; [by rewrite F|by rewrite D]. Qed.
Lemma keeps_data_trans s1 s2 s3 : keeps_data s1 s2 -> keeps_data s2 s3 -> keeps_data s1 s3.
Proof.
  intros (D1 & F1 & I1 & N1 & C1 & L1 & T1) (D2 & F2 & I2 & N2 & C2 & L2 & T2).
  split_and!; intros; rewrite ?F2, ?I2; try congruence; lia.
Qed.
Lemma keeps_data_refl s : keeps_data s s.
Proof. unfold keeps_data. split_and!; auto; lia. Qed.
Lemma keeps_data_tick s : keeps_data s (with_tick (tick s + 1) s).
Proof. unfold keeps_data. split_and!; auto. simpl. lia. Qed.
#[export] Hint Resolve keeps_data_refl keeps_data_tick : kernel.

Lemma wp_on_path {A} path (body : M fs (result A)) (Q : result A -> fs -> Prop) s :
  (has_nul path = true -> Q (Err InvalidInput) s) ->
  (faulty s -> Q (Err OsFault) (with_tick (tick s + 1) s)) ->
  (has_nul path = false -> wp body Q (with_tick (tick s + 1) s)) ->
  wp (on_path path body) Q s.
Proof.
  intros Hn Hf Hb. unfold on_path. destruct (has_nul path) eqn:E; [by apply wp_ret, Hn|].
  unfold wp, syscall. destruct (faults s (tick s)) as [k|] eqn:Ef.
  - apply Hf. by exists k.
  - by apply Hb.
Qed.

(** [metadata] reports the inode the path names, or an error. *)
Lemma wp_metadata path (Q : result inode -> fs -> Prop) s :
  (forall s' ino nd, keeps_data s s' -> inodes s' = inodes s -> tick s' = tick s + 1 ->
     has_nul path = false ->
     dir s !! path = Some ino -> inodes s !! ino = Some nd -> Q (Ok nd) s') ->
  (forall e s', keeps_data s s' -> inodes s' = inodes s ->
     faulty s \/ has_nul path = true \/ dir s !! path ≫= (fun i => inodes s !! i) = None -> Q (Err e) s') ->
  wp (metadata path) Q s.
Proof.
  intros HOk HErr. apply wp_on_path.
  - intros. apply HErr; auto with kernel.
  - intros. apply HErr; auto with kernel.
  - intros Hn. unfold wp. simpl.
    destruct (dir s !! path) as [ino|] eqn:Ed; [|apply HErr; auto with kernel].
    destruct (inodes s !! ino) as [nd|] eqn:Ei; [|apply HErr; auto with kernel].
    by eapply HOk; auto with kernel.
Qed.

Definition timeval_ns (tv : Z * Z) : Z := tv.1 * 1000000000 + tv.2 * 1000.

Lemma wp_utimes path a m (Q : result unit -> fs -> Prop) s :
  (forall s' ino nd, keeps_data s s' -> dir s !! path = Some ino -> inodes s !! ino = Some nd ->
     inodes s' = <[ino := Inode (i_data nd) (timeval_ns a) (timeval_ns m) (i_old nd)]> (inodes s) -> Q (Ok tt) s') ->
  (forall e s', keeps_data s s' ->
     faulty s \/ has_nul path = true \/ dir s !! path ≫= (fun i => inodes s !! i) = None -> Q (Err e) s') ->
  wp (utimes path a m) Q s.
Proof.
  intros HOk HErr. apply wp_on_path.
  - intros. apply HErr; auto with kernel.
  - intros. apply HErr; auto with kernel.
  - intros Hn. unfold wp. simpl.
    destruct (dir s !! path) as [ino|] eqn:Ed; [|apply HErr; auto with kernel].
    destruct (inodes s !! ino) as [nd|] eqn:Ei; [|apply HErr; auto with kernel].
    eapply (HOk _ ino nd); auto. unfold keeps_data. split_and!; auto; [|simpl; lia].
    intros i. unfold data_of. simpl. destruct (decide (ino = i)) as [<-|].
    + by rewrite lookup_insert_eq, Ei.
    + by rewrite lookup_insert_ne.
Qed.
