(* ===== verification/VolumeLayout.v ===== *)
(** [virtual_volume.rs], on-disk layout: constants, key derivation, the superblock
    codec and the block bitmap. *)
From S2P Require Import Prelude Effects Crypto.

(** * Constants *)

Definition BLOCK_SIZE : Z := 4096.
Definition NONCE_SIZE : Z := 12.
Definition PAYLOAD_SIZE : Z := BLOCK_SIZE - 16 - 12.
Definition SUPERBLOCK_MAGIC : Z := 0x53454333.
Definition VAULT_VERSION : Z := 3.
Definition BITMAP_START_BLOCK : Z := 1.
Definition BITMAP_BLOCKS : Z := 8.
Definition DATA_START_BLOCK : Z := BITMAP_START_BLOCK + BITMAP_BLOCKS.
Definition MAX_DATA_BLOCKS : Z := BITMAP_BLOCKS * BLOCK_SIZE * 8.
(** [BITMAP_BLOCKS as usize * BLOCK_SIZE]. *)
Definition BITMAP_BYTES : Z := BITMAP_BLOCKS * BLOCK_SIZE.

Ltac layout := unfold PAYLOAD_SIZE, DATA_START_BLOCK, MAX_DATA_BLOCKS, BITMAP_BYTES,
  BITMAP_START_BLOCK, BITMAP_BLOCKS, BLOCK_SIZE, NONCE_SIZE in *.
Ltac vlia := layout; lia.
Ltac vlen_lia := layout; len_lia.

(** * Superblock *)

Record SuperblockInfo := {
  version : Z;
  sb_total_blocks : Z;
  sb_free_blocks : Z;
  master_key_hash : bytes;
}.

Definition read_superblock (raw : bytes) : option SuperblockInfo :=
  let magic := from_le_bytes (slice 0 4 raw) in
  if negb (magic =? SUPERBLOCK_MAGIC) then None
  else Some {|
    version := from_le_bytes (slice 4 8 raw);
    sb_total_blocks := from_le_bytes (slice 8 16 raw);
    sb_free_blocks := from_le_bytes (slice 16 24 raw);
    master_key_hash := slice 24 56 raw;
  |}.

Definition write_superblock (raw : bytes) (info : SuperblockInfo) : bytes :=
  let raw := splice 0 (to_le_bytes 4 SUPERBLOCK_MAGIC) raw in
  let raw := splice 4 (to_le_bytes 4 (version info)) raw in
  let raw := splice 8 (to_le_bytes 8 (sb_total_blocks info)) raw in
  let raw := splice 16 (to_le_bytes 8 (sb_free_blocks info)) raw in
  let raw := splice 24 (master_key_hash info) raw in
  splice 56 (repZ (lenZ raw - 56) 0) raw.

Record superblock_ok (info : SuperblockInfo) : Prop := {
  sb_version_range : is_u 32 (version info);
  sb_total_range : is_u 64 (sb_total_blocks info);
  sb_free_range : is_u 64 (sb_free_blocks info);
  sb_hash_len : lenZ (master_key_hash info) = 32;
}.

(** Appending one more field to the fields already written. *)
Lemma splice_next {A} off (d l r : list A) :
  lenZ l = off -> lenZ d <= lenZ r -> splice off d (l ++ r) = (l ++ d) ++ dropZ (lenZ d) r.
Proof.
  intros Hl Hd. unfold splice. rewrite takeZ_app_exact by done.
  rewrite dropZ_app_r by len_lia. rewrite <- app_assoc. do 3 f_equal. lia.
Qed.

Definition superblock_bytes (info : SuperblockInfo) : bytes :=
  to_le_bytes 4 SUPERBLOCK_MAGIC ++ to_le_bytes 4 (version info) ++
  to_le_bytes 8 (sb_total_blocks info) ++ to_le_bytes 8 (sb_free_blocks info) ++
  master_key_hash info ++ repZ 4040 0.

Lemma write_superblock_eq raw info :
  lenZ raw = BLOCK_SIZE -> superblock_ok info -> write_superblock raw info = superblock_bytes info.
Proof.
  intros Hr [_ _ _ Hh]. unfold write_superblock, BLOCK_SIZE in *.
  change raw with ([] ++ raw). rewrite (splice_next 0) by len_lia.
  change ([] ++ to_le_bytes 4 SUPERBLOCK_MAGIC) with (to_le_bytes 4 SUPERBLOCK_MAGIC).
  do 4 rewrite splice_next by len_lia.
  match goal with |- splice 56 (repZ (lenZ ?l - 56) 0) _ = _ =>
    assert (lenZ l = 4096) as -> by len_lia end.
  rewrite splice_next by len_lia.
  rewrite (dropZ_all (lenZ (repZ (4096 - 56) 0))) by len_lia.
  by rewrite app_nil_r, <- !app_assoc.
Qed.

Lemma superblock_bytes_len info : superblock_ok info -> lenZ (superblock_bytes info) = BLOCK_SIZE.
Proof. intros []. unfold superblock_bytes, BLOCK_SIZE. len_lia. Qed.

(** Reading a field: skip the fields before it. *)
Lemma slice_skip {A} n a b (l r : list A) :
  lenZ l = n -> n <= a -> slice a b (l ++ r) = slice (a - n) (b - n) r.
Proof.
  intros Hl Ha. unfold slice. rewrite dropZ_app_r by lia. rewrite Hl. f_equal. lia.
Qed.
Lemma slice_here {A} b (d r : list A) : lenZ d = b -> slice 0 b (d ++ r) = d.
Proof. intros Hd. unfold slice. rewrite dropZ_0. apply takeZ_app_exact. lia. Qed.

Lemma read_superblock_bytes info :
  superblock_ok info -> read_superblock (superblock_bytes info) = Some info.
Proof.
  intros [Hv Ht Hf Hh]. unfold read_superblock, superblock_bytes, is_u in *.
  rewrite (slice_here 4) by done.
  rewrite (slice_skip 4 4 8), (slice_here (8 - 4)) by done.
  rewrite (slice_skip 4 8 16), (slice_skip 4 (8 - 4)), (slice_here (16 - 4 - 4)) by done.
  rewrite (slice_skip 4 16 24), (slice_skip 4 (16 - 4)), (slice_skip 8 (16 - 4 - 4)),
    (slice_here (24 - 4 - 4 - 8)) by done.
  rewrite (slice_skip 4 24 56), (slice_skip 4 (24 - 4)), (slice_skip 8 (24 - 4 - 4)),
    (slice_skip 8 (24 - 4 - 4 - 8)), (slice_here (56 - 4 - 4 - 8 - 8)) by done.
  rewrite !from_to_le_bytes by (unfold SUPERBLOCK_MAGIC; lia). by destruct info.
Qed.

(** Superblock round trip: writing an in-range superblock over any 4096-byte block
    gives a 4096-byte block from which exactly the same fields are read back, with every
    byte past offset 56 zero; a block whose first four bytes are not the magic is refused. *)
Theorem superblock_roundtrip raw info :
  lenZ raw = BLOCK_SIZE -> superblock_ok info ->
  lenZ (write_superblock raw info) = BLOCK_SIZE /\
  read_superblock (write_superblock raw info) = Some info /\
  dropZ 56 (write_superblock raw info) = repZ 4040 0 /\
  (from_le_bytes (slice 0 4 raw) <> SUPERBLOCK_MAGIC -> read_superblock raw = None).
Proof.
  intros Hr Hi. rewrite write_superblock_eq by done.
  split_and!; [by apply superblock_bytes_len|by apply read_superblock_bytes| |].
  - destruct Hi. unfold superblock_bytes. rewrite !app_assoc. apply dropZ_app_exact. len_lia.
  - intros Hm. unfold read_superblock. by destruct (Z.eqb_spec (from_le_bytes (slice 0 4 raw)) SUPERBLOCK_MAGIC).
Qed.

(** * Key derivation *)

Section keys.
Context `{HP : Primitives}.
Definition hash_master_key (key : bytes) : bytes := sha256 key.
Definition derive_block_key (master : bytes) (block_idx : Z) : bytes :=
  takeZ 32 (hmac_sha256 master (to_le_bytes 8 block_idx ++ str_bytes "blk_key_v1")).

Lemma derive_block_key_len `{!PrimitivesOk HP} master i : lenZ (derive_block_key master i) = 32.
Proof. unfold derive_block_key. rewrite lenZ_takeZ, hmac_len. lia. Qed.
End keys.

(** * Block bitmap *)

(** [1u8 << (i & 7)] and the byte [i >> 3] it selects. *)
Definition bit_mask (i : Z) : Z := Z.shiftl 1 (Z.land i 7).
Definition bit_byte (i : Z) : Z := Z.shiftr i 3.

(** [bitmap[i >> 3] & mask == 0], [None] where the index is out of bounds. *)
Definition bit_is_free (bm : bytes) (i : Z) : option bool :=
  b ← nthZ bm (bit_byte i); Some (Z.land b (bit_mask i) =? 0).
(** [bitmap[i >> 3] |= mask]. *)
Definition bit_set (bm : bytes) (i : Z) : option bytes :=
  b ← nthZ bm (bit_byte i); Some (setZ bm (bit_byte i) (Z.lor b (bit_mask i))).
(** [bitmap[i >> 3] &= !mask]. *)
Definition bit_clear (bm : bytes) (i : Z) : option bytes :=
  b ← nthZ bm (bit_byte i); Some (setZ bm (bit_byte i) (Z.land b (Z.lxor (bit_mask i) 255))).

(** The abstract reading of the bitmap: is data block number [i] allocated? *)
Definition is_alloc (bm : bytes) (i : Z) : bool :=
  match nthZ bm (i / 8) with Some b => Z.testbit b (i mod 8) | None => false end.

Lemma bit_byte_eq i : bit_byte i = i / 8.
Proof. unfold bit_byte. by rewrite Z.shiftr_div_pow2. Qed.
Lemma bit_mask_eq i : bit_mask i = 2 ^ (i mod 8).
Proof.
  unfold bit_mask. change 7 with (Z.ones 3). rewrite Z.land_ones by lia.
  rewrite Z.shiftl_1_l. done.
Qed.

Lemma land_pow2_eqb b k : 0 <= k -> (Z.land b (2 ^ k) =? 0) = negb (Z.testbit b k).
Proof.
  intros Hk. destruct (Z.eqb_spec (Z.land b (2 ^ k)) 0) as [E|E].
  - apply (f_equal (fun x => Z.testbit x k)) in E.
    rewrite Z.land_spec, Z.pow2_bits_true, Z.bits_0, andb_true_r in E by done. by rewrite E.
  - destruct (Z.testbit b k) eqn:Eb; [done|]. destruct E. apply Z.bits_inj_0. intros j.
    rewrite Z.land_spec. destruct (decide (j = k)) as [->|]; [by rewrite Eb|].
    rewrite Z.pow2_bits_false by congruence. apply andb_false_r.
Qed.

Definition bitmap_ok (bm : bytes) : Prop := lenZ bm = BITMAP_BYTES /\ is_bytes bm.

Lemma bit_byte_range i : 0 <= i < MAX_DATA_BLOCKS -> 0 <= i / 8 < BITMAP_BYTES.
Proof. intros. pose proof (Z.div_mod i 8). pose proof (Z.mod_pos_bound i 8). vlia. Qed.

Lemma bitmap_byte bm i :
  lenZ bm = BITMAP_BYTES -> 0 <= i < MAX_DATA_BLOCKS ->
  exists b, nthZ bm (i / 8) = Some b /\ (is_bytes bm -> is_byte b).
Proof.
  intros Hl Hi. destruct (proj2 (nthZ_Some_iff bm (i / 8))) as [b E].
  { rewrite Hl. by apply bit_byte_range. }
  exists b. split; [done|]. intros Hb. unfold nthZ in E. destruct (i / 8 <? 0); [done|].
  by eapply Forall_lookup_1.
Qed.

Lemma bit_is_free_eq bm i :
  lenZ bm = BITMAP_BYTES -> 0 <= i < MAX_DATA_BLOCKS -> bit_is_free bm i = Some (negb (is_alloc bm i)).
Proof.
  intros Hbm Hi. destruct (bitmap_byte bm i Hbm Hi) as (b & E & _).
  unfold bit_is_free, is_alloc. rewrite bit_byte_eq, E. simpl.
  rewrite bit_mask_eq, land_pow2_eqb by (apply Z.mod_pos_bound; lia). done.
Qed.

Lemma is_alloc_setZ bm i b j :
  lenZ bm = BITMAP_BYTES -> 0 <= i < MAX_DATA_BLOCKS ->
  is_alloc (setZ bm (i / 8) b) j =
    if j / 8 =? i / 8 then Z.testbit b (j mod 8) else is_alloc bm j.
Proof.
  intros Hl Hi. pose proof (bit_byte_range i Hi). unfold is_alloc.
  destruct (Z.eqb_spec (j / 8) (i / 8)) as [->|].
  - by rewrite nthZ_setZ_eq by lia.
  - by rewrite nthZ_setZ_ne by lia.
Qed.

Lemma is_bytes_setZ bm i b : is_bytes bm -> is_byte b -> is_bytes (setZ bm i b).
Proof. intros. by apply Forall_insert. Qed.

Lemma same_byte_ne i j : j / 8 = i / 8 -> i <> j -> i mod 8 <> j mod 8.
Proof. pose proof (Z.div_mod i 8). pose proof (Z.div_mod j 8). lia. Qed.

Lemma bit_set_spec bm i :
  lenZ bm = BITMAP_BYTES -> 0 <= i < MAX_DATA_BLOCKS ->
  exists bm', bit_set bm i = Some bm' /\ (lenZ bm' = BITMAP_BYTES /\ (is_bytes bm -> is_bytes bm')) /\
    forall j, is_alloc bm' j = (i =? j) || is_alloc bm j.
Proof.
  intros Hbm Hi. destruct (bitmap_byte bm i Hbm Hi) as (b & E & Hb).
  unfold bit_set. rewrite bit_byte_eq, E, bit_mask_eq. simpl.
  pose proof (Z.mod_pos_bound i 8). eexists. split; [done|]. split.
  - split; [by rewrite lenZ_setZ|]. intros Hbs. specialize (Hb Hbs).
    apply is_bytes_setZ; [done|]. apply (is_u_bits 8); [lia|].
    apply (is_u_bits 8) in Hb as [H0 Hb]; [|lia]. split.
    + apply Z.lor_nonneg. split; [done|]. apply Z.pow_nonneg. lia.
    + intros l Hl. rewrite Z.lor_spec, Hb, Z.pow2_bits_false by lia. done.
  - intros j. rewrite is_alloc_setZ by done. rewrite Z.lor_spec.
    destruct (Z.eqb_spec (j / 8) (i / 8)) as [Ej|Ej].
    + destruct (Z.eqb_spec i j) as [<-|Hne].
      * rewrite Z.pow2_bits_true by lia. by rewrite orb_true_r.
      * rewrite Z.pow2_bits_false by (by apply same_byte_ne).
        unfold is_alloc. by rewrite Ej, E, orb_false_r.
    + destruct (Z.eqb_spec i j) as [<-|Hne]; done.
Qed.

Lemma bit_clear_spec bm i :
  lenZ bm = BITMAP_BYTES -> 0 <= i < MAX_DATA_BLOCKS ->
  exists bm', bit_clear bm i = Some bm' /\ (lenZ bm' = BITMAP_BYTES /\ (is_bytes bm -> is_bytes bm')) /\
    forall j, is_alloc bm' j = negb (i =? j) && is_alloc bm j.
Proof.
  intros Hbm Hi. destruct (bitmap_byte bm i Hbm Hi) as (b & E & Hb).
  unfold bit_clear. rewrite bit_byte_eq, E, bit_mask_eq. simpl.
  pose proof (Z.mod_pos_bound i 8). eexists. split; [done|]. split.
  - split; [by rewrite lenZ_setZ|]. intros Hbs. specialize (Hb Hbs).
    apply is_bytes_setZ; [done|]. apply (is_u_bits 8); [lia|].
    apply (is_u_bits 8) in Hb as [H0 Hb]; [|lia]. split.
    + apply Z.land_nonneg. by left.
    + intros l Hl. by rewrite Z.land_spec, Hb by lia.
  - intros j. rewrite is_alloc_setZ by done. pose proof (Z.mod_pos_bound j 8).
    rewrite Z.land_spec, Z.lxor_spec.
    change 255 with (Z.ones 8). rewrite Z.ones_spec_low by lia.
    destruct (Z.eqb_spec (j / 8) (i / 8)) as [Ej|Ej].
    + destruct (Z.eqb_spec i j) as [<-|Hne].
      * rewrite Z.pow2_bits_true by lia. by rewrite andb_false_r.
      * rewrite Z.pow2_bits_false by (by apply same_byte_ne).
        unfold is_alloc. by rewrite Ej, E, andb_true_r.
    + destruct (Z.eqb_spec i j) as [<-|Hne]; done.
Qed.

(** * Counting free blocks *)

Definition count_free (bm : bytes) (n : Z) : Z :=
  countb (fun i => negb (is_alloc bm i)) (seqZ 0 n).

Lemma count_free_bounds bm n : 0 <= n -> 0 <= count_free bm n <= n.
Proof.
  intros. unfold count_free. pose proof (countb_bounds (fun i => negb (is_alloc bm i)) (seqZ 0 n)).
  unfold lenZ in *. rewrite length_seqZ in *. lia.
Qed.

Lemma count_free_set bm bm' n i :
  0 <= i < n -> is_alloc bm i = false -> (forall j, is_alloc bm' j = (i =? j) || is_alloc bm j) ->
  count_free bm n = count_free bm' n + 1.
Proof.
  intros Hi Hf H. unfold count_free. apply (countb_drop _ _ _ i).
  - apply NoDup_seqZ.
  - apply elem_of_seqZ. lia.
  - by rewrite Hf.
  - by rewrite H, Z.eqb_refl.
  - intros j Hj. rewrite H. by destruct (Z.eqb_spec i j).
Qed.

Lemma count_free_clear bm bm' n i :
  0 <= i < n -> is_alloc bm i = true -> (forall j, is_alloc bm' j = negb (i =? j) && is_alloc bm j) ->
  count_free bm' n = count_free bm n + 1.
Proof.
  intros Hi Hf H. apply count_free_set with i; [done| |].
  - by rewrite H, Z.eqb_refl.
  - intros j. rewrite H. by destruct (Z.eqb_spec i j) as [<-|].
Qed.

Lemma nthZ_repZ_0 n i b : nthZ (repZ n 0) i = Some b -> b = 0.
Proof.
  unfold nthZ, repZ. destruct (i <? 0); [done|]. by intros [-> _]%lookup_replicate.
Qed.

Lemma is_alloc_zeros n i : is_alloc (repZ n 0) i = false.
Proof.
  unfold is_alloc. destruct (nthZ (repZ n 0) (i / 8)) eqn:E; [|done].
  apply nthZ_repZ_0 in E as ->. apply Z.bits_0.
Qed.

Lemma count_free_zeros k n : 0 <= n -> count_free (repZ k 0) n = n.
Proof.
  intros Hn. unfold count_free. rewrite (countb_ext _ (fun _ => true)).
  - transitivity (lenZ (seqZ 0 n)); [|unfold lenZ; rewrite length_seqZ; lia].
    generalize (seqZ 0 n) as l. induction l; simpl; rewrite ?lenZ_cons; [done|lia].
  - intros. by rewrite is_alloc_zeros.
Qed.

Lemma bitmap_ok_zeros : bitmap_ok (repZ BITMAP_BYTES 0).
Proof. split; [by rewrite lenZ_repZ|apply is_bytes_rep]. Qed.
#[export] Hint Resolve bitmap_ok_zeros derive_block_key_len : kernel.

Lemma superblock_roundtrip_witness :
  let info := {| version := 3; sb_total_blocks := 25; sb_free_blocks := 16;
                 master_key_hash := repZ 32 7 |} in
  read_superblock (write_superblock (repZ 4096 0) info) = Some info.
Proof.
  apply (superblock_roundtrip (repZ 4096 0)).
  - exact (lenZ_repZ 4096 0).
  - split; simpl; unfold is_u; [lia..|exact (lenZ_repZ 32 7)].
Defined.
