(* ===== verification/VirtualVolume.v ===== *)
(** [virtual_volume.rs]: the encrypted vault.

    [VirtualVolume] is the Rust struct; [vol_env] adds the file system and the random
    generator its methods use.  Constructors run over the file system alone.  Methods
    keep the order of the Rust statements: the in-memory bitmap and free count change
    before the bitmap is persisted, so an I/O error leaves the in-memory change in
    place. *)
From S2P Require Import Prelude Effects Crypto StdFs VolumeLayout.

(** * State *)

Record VirtualVolume := Volume {
  file : Z;
  master_key : bytes;
  total_blocks : Z;
  free_blocks : Z;
  block_bitmap : bytes;
  vault_path : string;
  bitmap_write_count : Z;
}.

Definition with_bitmap (bm : bytes) (free : Z) (v : VirtualVolume) : VirtualVolume :=
  Volume (file v) (master_key v) (total_blocks v) free bm (vault_path v) (bitmap_write_count v).

(** [st.duration_since(UNIX_EPOCH)] in seconds and microseconds; zero before the epoch. *)
Definition filetime_from_systemtime (st : Z) : Z * Z :=
  let dur := Z.max 0 st in (dur / 1000000000, dur mod 1000000000 / 1000).

Section volume.
Context `{HP : Primitives} `{HB : BuildProfile}.

Record vol_env := VolEnv { e_fs : fs; e_rng : rng; e_vol : VirtualVolume }.
Definition with_fs (x : fs) (e : vol_env) : vol_env := VolEnv x (e_rng e) (e_vol e).
Definition with_erng (x : rng) (e : vol_env) : vol_env := VolEnv (e_fs e) x (e_vol e).
Definition with_vol (x : VirtualVolume) (e : vol_env) : vol_env := VolEnv (e_fs e) (e_rng e) x.
Definition fs_lens : lens fs vol_env := Lens e_fs with_fs.
Definition rng_lens : lens rng vol_env := Lens e_rng with_erng.
Definition io {A} (m : M fs A) : M vol_env A := zoom fs_lens m.

(** [debug_assert!]: checked in the same builds as overflow. *)
Definition debug_assert {S} (b : bool) : M S unit :=
  if overflow_checks && negb b then panic else mret tt.

(** * Construction *)

(** Dropping a [File] when an error is returned while it is in scope. *)
Definition or_close {A} (fd : Z) (m : M fs (result A)) : M fs (result A) :=
  r ← m; match r with Ok a => mret (Ok a) | Err e => close fd;; mret (Err e) end.

Definition create_new (path : string) (master_key : bytes) (total_data_blocks : Z) :
    M fs (result VirtualVolume) :=
  total_blocks ← chk_u 64 (DATA_START_BLOCK + total_data_blocks);
  total_size ← chk_u 64 (total_blocks * BLOCK_SIZE);
  file <-? open_create_new path;
  or_close file (
    set_len file total_size ;;?
    let key_hash := hash_master_key master_key in
    let sb := {| version := VAULT_VERSION; sb_total_blocks := total_blocks;
                 sb_free_blocks := total_data_blocks; master_key_hash := key_hash |} in
    let raw := write_superblock (repZ BLOCK_SIZE 0) sb in
    seek file 0 ;;?
    write_all file raw ;;?
    let bitmap := repZ BITMAP_BYTES 0 in
    seek file (BITMAP_START_BLOCK * BLOCK_SIZE) ;;?
    write_all file bitmap ;;?
    sync_all file ;;?
    mret (Ok (Volume file master_key total_blocks total_data_blocks bitmap path 0))).

(** The loop that recounts the free blocks. *)
Fixpoint recount {S} (bitmap : bytes) (idxs : list Z) (actual_free : Z) : M S Z :=
  match idxs with
  | [] => mret actual_free
  | i :: idxs =>
      free ← unwrap (bit_is_free bitmap i);
      actual_free ← (if (free : bool) then chk_u 64 (actual_free + 1) else mret actual_free);
      recount bitmap idxs actual_free
  end.

Definition open_existing (path : string) (master_key : bytes) : M fs (result VirtualVolume) :=
  file <-? open_rw path;
  or_close file (
    seek file 0 ;;?
    raw <-? read_exact file BLOCK_SIZE;
    match read_superblock raw with
    | None => mret (Err InvalidData)
    | Some sb =>
        let key_hash := hash_master_key master_key in
        if negb (bool_decide (key_hash = master_key_hash sb)) then mret (Err PermissionDenied)
        else
          seek file (BITMAP_START_BLOCK * BLOCK_SIZE) ;;?
          bitmap <-? read_exact file BITMAP_BYTES;
          if (sb_total_blocks sb <? DATA_START_BLOCK) ||
             (DATA_START_BLOCK + MAX_DATA_BLOCKS <? sb_total_blocks sb)
          then mret (Err InvalidData)
          else
            let total_data := sb_total_blocks sb - DATA_START_BLOCK in
            actual_free ← recount bitmap (seqZ 0 total_data) 0;
            mret (Ok (Volume file master_key (sb_total_blocks sb) actual_free bitmap path 0))
    end).

Definition open_or_create (path : string) (master_key : bytes) (total_data_blocks : Z) :
    M fs (result VirtualVolume) :=
  if MAX_DATA_BLOCKS <? total_data_blocks then mret (Err InvalidInput)
  else
    m ← metadata path;
    let is_empty := match m with Ok nd => lenZ (i_data nd) =? 0 | Err _ => true end in
    ex ← path_exists path;
    if ex && negb is_empty then open_existing path master_key
    else
      ex ← path_exists path;
      (if (ex : bool) then _ ← remove_file path; mret tt else mret tt);;
      create_new path master_key total_data_blocks.

(** * Internal helpers *)

Definition check_data_block (block_idx : Z) : M vol_env (result unit) :=
  v ← gets e_vol;
  if (block_idx <? DATA_START_BLOCK) || (total_blocks v <=? block_idx)
  then mret (Err InvalidInput) else mret (Ok tt).

(** [meta.accessed()] and [meta.modified()] fail only on platforms without these fields, which
    the targets with [libc::utimes] have; such a failure would be that of [metadata]. *)
Definition freeze_timestamps : M vol_env (result unit) :=
  v ← gets e_vol;
  meta <-? io (metadata (vault_path v));
  let atime := filetime_from_systemtime (i_atime meta) in
  let mtime := filetime_from_systemtime (i_mtime meta) in
  if has_nul (vault_path v) then mret (Err InvalidInput)
  else io (utimes (vault_path v) atime mtime).

Definition write_bitmap : M vol_env (result unit) :=
  v ← gets e_vol;
  debug_assert (lenZ (block_bitmap v) =? BITMAP_BYTES);;
  io (seek (file v) (BITMAP_START_BLOCK * BLOCK_SIZE)) ;;?
  io (write_all (file v) (block_bitmap v)) ;;?
  io (sync_all (file v)) ;;?
  freeze_timestamps ;;?
  mret (Ok tt).

(** * Block I/O *)

(** Returns the plaintext the Rust code copies to [out]; [out] is untouched on error. *)
Definition read_block (block_idx : Z) : M vol_env (result bytes) :=
  check_data_block block_idx ;;?
  v ← gets e_vol;
  disk_offset ← chk_u 64 (block_idx * BLOCK_SIZE);
  io (seek (file v) disk_offset) ;;?
  raw <-? io (read_exact (file v) BLOCK_SIZE);
  let stored_nonce := takeZ NONCE_SIZE raw in
  let ciphertext := dropZ NONCE_SIZE raw in
  let key := derive_block_key (master_key v) block_idx in
  match chacha_decrypt key stored_nonce ciphertext with
  | None => mret (Err InvalidData)
  | Some plaintext =>
      if lenZ plaintext =? PAYLOAD_SIZE then mret (Ok plaintext) else panic
  end.

Definition write_block (block_idx : Z) (plaintext : bytes) : M vol_env (result unit) :=
  check_data_block block_idx ;;?
  v ← gets e_vol;
  nonce_bytes ← zoom rng_lens (draw_bytes NONCE_SIZE);
  let key := derive_block_key (master_key v) block_idx in
  match chacha_encrypt key nonce_bytes plaintext with
  | None => mret (Err OtherKind)
  | Some ciphertext =>
      debug_assert (lenZ ciphertext =? BLOCK_SIZE - NONCE_SIZE);;
      disk_offset ← chk_u 64 (block_idx * BLOCK_SIZE);
      io (seek (file v) disk_offset) ;;?
      io (write_all (file v) nonce_bytes) ;;?
      io (write_all (file v) ciphertext) ;;?
      freeze_timestamps ;;?
      mret (Ok tt)
  end.

Definition read_block_raw (block_idx : Z) : M vol_env (result bytes) :=
  check_data_block block_idx ;;?
  v ← gets e_vol;
  disk_offset ← chk_u 64 (block_idx * BLOCK_SIZE);
  io (seek (file v) disk_offset) ;;?
  buf <-? io (read_exact (file v) BLOCK_SIZE);
  mret (Ok buf).

Definition write_block_raw (block_idx : Z) (data : bytes) : M vol_env (result unit) :=
  check_data_block block_idx ;;?
  v ← gets e_vol;
  disk_offset ← chk_u 64 (block_idx * BLOCK_SIZE);
  io (seek (file v) disk_offset) ;;?
  io (write_all (file v) data) ;;?
  mret (Ok tt).

(** * Block allocation *)

(** [self.block_bitmap[..] |= mask] and [&= !mask]. *)
Definition mark (f : bytes -> Z -> option bytes) (bit_idx : Z) : M vol_env unit :=
  v ← gets e_vol;
  bm ← unwrap (f (block_bitmap v) bit_idx);
  modify (with_vol (with_bitmap bm (free_blocks v) v)).
Definition add_free (n : Z) : M vol_env unit :=
  v ← gets e_vol;
  free ← chk_u 64 (free_blocks v + n);
  modify (with_vol (with_bitmap (block_bitmap v) free v)).

Fixpoint allocate_scan (idxs : list Z) : M vol_env (result Z) :=
  match idxs with
  | [] => mret (Err StorageFull)
  | bit_idx :: idxs =>
      v ← gets e_vol;
      free ← unwrap (bit_is_free (block_bitmap v) bit_idx);
      if (free : bool) then
        mark bit_set bit_idx;;
        add_free (-1);;
        let block_idx := DATA_START_BLOCK + bit_idx in
        write_bitmap ;;?
        mret (Ok block_idx)
      else allocate_scan idxs
  end.

Definition allocate_block : M vol_env (result Z) :=
  v ← gets e_vol;
  if free_blocks v =? 0 then mret (Err StorageFull)
  else
    total_data ← chk_u 64 (total_blocks v - DATA_START_BLOCK);
    allocate_scan (seqZ 0 total_data).

Definition reserve_block (block_idx : Z) : M vol_env (result unit) :=
  check_data_block block_idx ;;?
  v ← gets e_vol;
  let bit_idx := block_idx - DATA_START_BLOCK in
  free ← unwrap (bit_is_free (block_bitmap v) bit_idx);
  if negb free then mret (Ok tt)
  else
    mark bit_set bit_idx;;
    add_free (-1);;
    write_bitmap.

Definition free_block (block_idx : Z) : M vol_env (result unit) :=
  check_data_block block_idx ;;?
  v ← gets e_vol;
  let bit_idx := block_idx - DATA_START_BLOCK in
  free ← unwrap (bit_is_free (block_bitmap v) bit_idx);
  if (free : bool) then mret (Err InvalidInput)
  else
    mark bit_clear bit_idx;;
    add_free 1;;
    write_bitmap ;;?
    mret (Ok tt).

(** * Accessors *)

Definition register_touch (block_index byte_offset : Z) : M vol_env unit := mret tt.
Definition data_start_block : Z := DATA_START_BLOCK.
Definition data_blocks (v : VirtualVolume) : Z := total_blocks v - DATA_START_BLOCK.

(** The method [master_key_hash]. *)
Definition read_master_key_hash : M vol_env (result bytes) :=
  v ← gets e_vol;
  io (seek (file v) 0) ;;?
  raw <-? io (read_exact (file v) BLOCK_SIZE);
  match read_superblock raw with
  | None => mret (Err InvalidData)
  | Some sb => mret (Ok (master_key_hash sb))
  end.

(** [Drop]: flush, wipe the key in memory, close the file. *)
Definition drop_volume : M vol_env unit :=
  v ← gets e_vol;
  _ ← io (sync_all (file v));
  modify (with_vol (Volume (file v) (repZ 32 0) (total_blocks v) (free_blocks v)
    (block_bitmap v) (vault_path v) (bitmap_write_count v)));;
  io (close (file v)).
End volume.
