(* ===== verification/ClockAlign.v ===== *)
(** [clock_align.rs]: the skew estimator.

    [SkewRingBuffer] is the Rust ring buffer, [clock_statics] the globals of the module.
    A mutex keeps the flag that a panic while it is held sets: [lock()] fails from then on.
    The reading of the monotonic clock is an argument. *)
From stdpp Require Import sorting.
From S2P Require Import Prelude Effects.

Definition DELTA_HISTORY_SIZE : Z := 16.
Definition SEEK_WINDOW : Z := 10.

(** * Ring buffer *)

Record SkewRingBuffer := Ring { buf : list Z; write_idx : Z; count : Z }.

Definition SkewRingBuffer_new : SkewRingBuffer := Ring (repZ DELTA_HISTORY_SIZE 0) 0 0.

(** Indexing and slicing out of bounds panic: [None]. *)
Definition push (r : SkewRingBuffer) (delta : Z) : option SkewRingBuffer :=
  _ ← nthZ (buf r) (write_idx r);
  Some (Ring (setZ (buf r) (write_idx r) delta) ((write_idx r + 1) mod DELTA_HISTORY_SIZE)
    (if count r <? DELTA_HISTORY_SIZE then count r + 1 else count r)).

(** [v.sort_unstable()] on integers gives the one sorted permutation. *)
Definition sorted_entries (r : SkewRingBuffer) : option (list Z) :=
  if count r <=? lenZ (buf r) then Some (merge_sort Z.le (takeZ (count r) (buf r))) else None.

Section clock.
Context `{HB : BuildProfile}.

Definition median {S} (r : SkewRingBuffer) : M S Z :=
  if count r =? 0 then mret 0
  else
    sorted ← unwrap (sorted_entries r);
    let mid := count r / 2 in
    if count r mod 2 =? 1 then unwrap (nthZ sorted mid)
    else
      a ← unwrap (nthZ sorted (mid - 1));
      b ← unwrap (nthZ sorted mid);
      sum ← chk_i 64 (a + b);
      mret (sum ÷ 2).

(** * Globals *)

Record clock_statics := Clock {
  ESTIMATED_SKEW : Z;
  DELTA_HISTORY : option (SkewRingBuffer * bool);
  LAST_SAMPLE_NS : option (Z * bool);
}.
Definition with_skew (x : Z) (s : clock_statics) : clock_statics :=
  Clock x (DELTA_HISTORY s) (LAST_SAMPLE_NS s).
Definition with_history (x : option (SkewRingBuffer * bool)) (s : clock_statics) : clock_statics :=
  Clock (ESTIMATED_SKEW s) x (LAST_SAMPLE_NS s).
Definition with_last (x : option (Z * bool)) (s : clock_statics) : clock_statics :=
  Clock (ESTIMATED_SKEW s) (DELTA_HISTORY s) x.

Definition clock_init : clock_statics := Clock 0 None None.

(** [OnceLock::set]: the first value stays. *)
Definition set_history : M clock_statics unit :=
  modify (fun s => match DELTA_HISTORY s with
    | None => with_history (Some (SkewRingBuffer_new, false)) s | Some _ => s end).
Definition set_last_sample : M clock_statics unit :=
  modify (fun s => match LAST_SAMPLE_NS s with
    | None => with_last (Some (0, false)) s | Some _ => s end).
Definition init_clock_align : M clock_statics unit := set_history;; set_last_sample.

(** The reading of the monotonic clock: seconds and nanoseconds since the anchor. *)
Definition monotonic_nanos {S} (secs nanos : Z) : M S Z :=
  chk_u 64 (Z.min (secs * 1000000000) (2 ^ 64 - 1) + nanos).

(** The critical section of the history: a panic in it leaves the mutex poisoned. *)
Definition record_delta (delta : Z) : M clock_statics unit := fun s =>
  match DELTA_HISTORY s with
  | Some (r, false) =>
      match push r delta with
      | None => Panicked (with_history (Some (r, true)) s)
      | Some r' =>
          let s := with_history (Some (r', false)) s in
          match median r' s with
          | Done m s => Done tt (with_skew m s)
          | Panicked s => Panicked (with_history (Some (r', true)) s)
          | Exited c s => Exited c s
          end
      end
  | _ => Done tt s
  end.

Definition record_sample_time (secs nanos : Z) : M clock_statics unit := fun s =>
  match LAST_SAMPLE_NS s with
  | Some (ts, false) =>
      match monotonic_nanos secs nanos s with
      | Done t s => Done tt (with_last (Some (t, false)) s)
      | Panicked s => Panicked (with_last (Some (ts, true)) s)
      | Exited c s => Exited c s
      end
  | _ => Done tt s
  end.

Definition record_counter_observation (remote_counter local_counter secs nanos : Z) :
    M clock_statics unit :=
  delta ← chk_i 64 (wrap_i 64 remote_counter - wrap_i 64 local_counter);
  record_delta delta;;
  record_sample_time secs nanos.

Definition estimated_skew : M clock_statics Z := gets ESTIMATED_SKEW.

(** The shorthands [init] and [skew]. *)
Definition clock_align_init : M clock_statics unit := init_clock_align.
Definition skew : M clock_statics Z := estimated_skew.
End clock.

(** * The buffer holds the last sixteen samples *)

Definition last16 (xs : list Z) : list Z := dropZ (lenZ xs - DELTA_HISTORY_SIZE) xs.

(** The slots of the ring, oldest sample first, are the last sixteen samples. *)
Definition ring_repr (r : SkewRingBuffer) (xs : list Z) : Prop :=
  lenZ (buf r) = DELTA_HISTORY_SIZE /\ count r = Z.min (lenZ xs) DELTA_HISTORY_SIZE /\
  if lenZ xs <? DELTA_HISTORY_SIZE then write_idx r = lenZ xs /\ takeZ (lenZ xs) (buf r) = xs
  else 0 <= write_idx r < DELTA_HISTORY_SIZE /\
    dropZ (write_idx r) (buf r) ++ takeZ (write_idx r) (buf r) = last16 xs.

Lemma ring_repr_new : ring_repr SkewRingBuffer_new [].
Proof. done. Qed.

Lemma takeZ_setZ_succ (l : list Z) i x :
  0 <= i < lenZ l -> takeZ (i + 1) (setZ l i x) = takeZ i l ++ [x].
Proof.
  intros Hi. unfold takeZ, setZ, lenZ in *. replace (Z.to_nat (i + 1)) with (S (Z.to_nat i)) by lia.
  rewrite (take_S_r _ _ x) by (apply list_lookup_insert_eq; lia). by rewrite take_insert_ge by lia.
Qed.
Lemma dropZ_setZ_succ (l : list Z) i x :
  0 <= i -> dropZ (i + 1) (setZ l i x) = dropZ (i + 1) l.
Proof. intros Hi. unfold dropZ, setZ. by rewrite drop_insert_lt by lia. Qed.

Lemma dropZ_succ_tail (l : list Z) i : 0 <= i -> dropZ (i + 1) l = dropZ 1 (dropZ i l).
Proof. intros. by rewrite dropZ_dropZ by lia. Qed.

Lemma last16_snoc xs x :
  DELTA_HISTORY_SIZE <= lenZ xs -> last16 (xs ++ [x]) = dropZ 1 (last16 xs) ++ [x].
Proof.
  intros H. unfold last16, DELTA_HISTORY_SIZE in *. rewrite lenZ_app, lenZ_cons, lenZ_nil.
  rewrite dropZ_app_l by lia. rewrite dropZ_dropZ by lia. do 2 f_equal. lia.
Qed.

Lemma push_repr r xs x :
  ring_repr r xs -> exists r', push r x = Some r' /\ ring_repr r' (xs ++ [x]).
Proof.
  intros (Hl & Hc & Hr). unfold push. pose proof (lenZ_nonneg xs) as Hnn.
  assert (0 <= write_idx r < lenZ (buf r)) as Hw.
  { rewrite Hl. destruct (Z.ltb_spec (lenZ xs) DELTA_HISTORY_SIZE); lia. }
  destruct (proj2 (nthZ_Some_iff (buf r) (write_idx r)) Hw) as [y ->]. simpl.
  eexists. split; [done|]. unfold ring_repr. cbn [buf write_idx count].
  rewrite lenZ_setZ, lenZ_app, lenZ_cons, lenZ_nil. unfold DELTA_HISTORY_SIZE in *.
  split_and!; [done| |].
  { rewrite Hc. destruct (Z.ltb_spec (lenZ xs `min` 16) 16); lia. }
  destruct (Z.ltb_spec (lenZ xs) 16) as [Hlt|Hge], (Z.ltb_spec (lenZ xs + (1 + 0)) 16); try lia.
  - destruct Hr as [-> Hr]. rewrite Z.mod_small by lia. split; [lia|].
    rewrite takeZ_setZ_succ by lia. by rewrite Hr.
  - destruct Hr as [-> Hr]. assert (lenZ xs = 15) as Hx by lia. rewrite Hx in *. change ((15 + 1) mod 16) with 0.
    split; [lia|]. rewrite dropZ_0, takeZ_0, app_nil_r. unfold last16. rewrite lenZ_app, Hx.
    change (15 + lenZ [x] - DELTA_HISTORY_SIZE) with 0. rewrite dropZ_0, <- Hr.
    rewrite <- takeZ_setZ_succ by lia. symmetry. apply takeZ_all. rewrite lenZ_setZ. lia.
  - destruct Hr as [_ Hr]. rewrite last16_snoc by done. rewrite <- Hr.
    destruct (decide (write_idx r = 15)) as [E|].
    + rewrite E. change ((15 + 1) mod 16) with 0. split; [lia|]. rewrite dropZ_0, takeZ_0, app_nil_r.
      rewrite dropZ_app_r by (rewrite lenZ_dropZ; lia). rewrite lenZ_dropZ, Hl.
      change (1 - 0 `max` (16 - 0 `max` 15)) with 0. rewrite dropZ_0.
      rewrite <- takeZ_setZ_succ by lia. symmetry. apply takeZ_all. rewrite lenZ_setZ. lia.
    + rewrite Z.mod_small by lia. split; [lia|]. rewrite takeZ_setZ_succ, dropZ_setZ_succ by lia.
      rewrite dropZ_app_l by (rewrite lenZ_dropZ; lia). by rewrite dropZ_succ_tail, <- app_assoc by lia.
Qed.

Lemma ring_perm r xs : ring_repr r xs -> takeZ (count r) (buf r) ≡ₚ last16 xs.
Proof.
  intros (Hl & -> & Hr). pose proof (lenZ_nonneg xs). unfold last16, DELTA_HISTORY_SIZE in *.
  destruct (Z.ltb_spec (lenZ xs) 16).
  - destruct Hr as [_ Hr]. rewrite Z.min_l by lia. rewrite Hr. unfold dropZ.
    by replace (Z.to_nat (lenZ xs - 16)) with 0%nat by lia.
  - destruct Hr as [_ Hr]. rewrite Z.min_r by lia. rewrite takeZ_all by lia. unfold last16 in Hr.
    rewrite <- Hr, Permutation_app_comm. by rewrite takeZ_dropZ.
Qed.

Lemma merge_sort_unique (l k : list Z) : l ≡ₚ k -> merge_sort Z.le l = merge_sort Z.le k.
Proof.
  intros Hp. apply (Sorted_unique Z.le); [apply Sorted_merge_sort, _..|].
  by rewrite !merge_sort_Permutation.
Qed.

Lemma sorted_entries_eq r xs :
  ring_repr r xs -> sorted_entries r = Some (merge_sort Z.le (last16 xs)).
Proof.
  intros Hr. unfold sorted_entries. pose proof Hr as (Hl & Hc & _).
  destruct (Z.leb_spec (count r) (lenZ (buf r))); [|lia]. f_equal. by apply merge_sort_unique, ring_perm.
Qed.

(** * The median *)

(** The median of a list of samples, the mean of the middle two cut towards zero. *)
Definition median_of (xs : list Z) : Z :=
  let s := merge_sort Z.le xs in
  let n := lenZ xs in
  let at_ i := default 0 (nthZ s i) in
  if n =? 0 then 0
  else if n mod 2 =? 1 then at_ (n / 2) else (at_ (n / 2 - 1) + at_ (n / 2)) ÷ 2.

Lemma lenZ_merge_sort (xs : list Z) : lenZ (merge_sort Z.le xs) = lenZ xs.
Proof. unfold lenZ. by rewrite (Permutation_length (merge_sort_Permutation Z.le xs)). Qed.

Lemma nthZ_merge_sort (xs : list Z) i :
  0 <= i < lenZ xs -> exists v, nthZ (merge_sort Z.le xs) i = Some v /\ v ∈ xs.
Proof.
  intros Hi. rewrite <- lenZ_merge_sort in Hi. destruct (proj2 (nthZ_Some_iff _ _) Hi) as [v E].
  exists v. split; [done|]. rewrite <- (merge_sort_Permutation Z.le xs).
  unfold nthZ in E. destruct (i <? 0); [done|]. by apply list_elem_of_lookup_2 in E.
Qed.

Lemma lenZ_last16 xs : lenZ (last16 xs) = Z.min (lenZ xs) DELTA_HISTORY_SIZE.
Proof. unfold last16, DELTA_HISTORY_SIZE. len_lia. Qed.

Lemma last16_sub xs x : x ∈ last16 xs -> x ∈ xs.
Proof.
  unfold last16. set (n := lenZ xs - _). intros H. rewrite <- (takeZ_dropZ n xs).
  apply elem_of_app. by right.
Qed.

Definition small (z : Z) : Prop := - 2 ^ 62 <= z < 2 ^ 62.

Section estimator.
Context `{HB : BuildProfile}.

Lemma median_eval {S} r xs (s : S) :
  ring_repr r xs -> Forall small xs -> median r s = Done (median_of (last16 xs)) s.
Proof.
  intros Hr Hs. assert (count r = lenZ (last16 xs)) as Hc by (rewrite lenZ_last16; apply Hr).
  unfold median, median_of. rewrite Hc. destruct (Z.eqb_spec (lenZ (last16 xs)) 0) as [|Hne]; [done|].
  rewrite (sorted_entries_eq _ _ Hr). unfold unwrap at 1. step.
  set (n := lenZ (last16 xs)) in *. assert (0 <= n) by apply lenZ_nonneg.
  pose proof (Z.div_mod n 2). pose proof (Z.mod_pos_bound n 2).
  destruct (nthZ_merge_sort (last16 xs) (n / 2)) as (b & Eb & Hb); [lia|].
  rewrite Eb. destruct (Z.eqb_spec (n mod 2) 1) as [|Hodd]; [done|].
  destruct (nthZ_merge_sort (last16 xs) (n / 2 - 1)) as (a & Ea & Ha); [lia|].
  rewrite Ea. simpl. do 2 step. rewrite Forall_forall in Hs.
  pose proof (Hs a (last16_sub _ _ Ha)) as Hsa. pose proof (Hs b (last16_sub _ _ Hb)) as Hsb.
  unfold small in *. rewrite (bind_done _ _ _ _ _ (chk_i_ok 64 (a + b) s ltac:(lia))). done.
Qed.

(** ** Sequences of observations *)

Definition observation : Type := Z * Z * (Z * Z).
Definition delta_of (o : observation) : Z := o.1.1 - o.1.2.
Fixpoint observe (obs : list observation) : M clock_statics unit :=
  match obs with
  | [] => mret tt
  | o :: obs => record_counter_observation o.1.1 o.1.2 o.2.1 o.2.2;; observe obs
  end.
(** Counters that fit [i64], less than 2^62 apart, and a process younger than five centuries. *)
Definition observation_ok (o : observation) : Prop :=
  0 <= o.1.1 < 2 ^ 63 /\ 0 <= o.1.2 < 2 ^ 63 /\ - 2 ^ 62 <= delta_of o < 2 ^ 62 /\
  0 <= o.2.1 < 2 ^ 34 /\ 0 <= o.2.2 < 1000000000.

(** The estimator has seen exactly the deltas [xs]. *)
Definition clock_seen (xs : list Z) (s : clock_statics) : Prop :=
  (exists r, DELTA_HISTORY s = Some (r, false) /\ ring_repr r xs) /\
  (exists t, LAST_SAMPLE_NS s = Some (t, false)) /\ ESTIMATED_SKEW s = median_of (last16 xs).

Lemma wrap_i_small z : 0 <= z < 2 ^ 63 -> wrap_i 64 z = z.
Proof.
  intros Hz. unfold wrap_i. rewrite Z.mod_small by lia. destruct (Z.ltb_spec z (2 ^ (64 - 1))); lia.
Qed.

Lemma record_eval xs o s :
  clock_seen xs s -> Forall small xs -> observation_ok o ->
  exists s', record_counter_observation o.1.1 o.1.2 o.2.1 o.2.2 s = Done tt s' /\
    clock_seen (xs ++ [delta_of o]) s'.
Proof.
  intros ((r & Hh & Hr) & (t & Ht) & _) Hs (H1 & H2 & Hd & H3 & H4). unfold record_counter_observation.
  rewrite !wrap_i_small by done. fold (delta_of o).
  change (small (delta_of o)) in Hd.
  rewrite (bind_done _ _ _ _ _ (chk_i_ok 64 (delta_of o) s ltac:(unfold small in Hd; lia))).
  destruct (push_repr r xs (delta_of o) Hr) as (r' & Hp & Hr').
  assert (Forall small (xs ++ [delta_of o])) as Hs' by (apply Forall_app; auto).
  assert (record_delta (delta_of o) s = Done tt (with_skew (median_of (last16 (xs ++ [delta_of o])))
    (with_history (Some (r', false)) s))) as E.
  { unfold record_delta. rewrite Hh, Hp. by rewrite (median_eval r' _ _ Hr' Hs'). }
  rewrite (bind_done _ _ _ _ _ E). unfold record_sample_time. cbn [LAST_SAMPLE_NS with_skew with_history].
  rewrite Ht. unfold monotonic_nanos. rewrite chk_u_ok by (unfold is_u; lia).
  eexists. split; [done|]. split_and!; cbn; eauto.
Qed.

Lemma observe_eval obs xs s :
  clock_seen xs s -> Forall small xs -> Forall observation_ok obs ->
  exists s', observe obs s = Done tt s' /\ clock_seen (xs ++ (delta_of <$> obs)) s'.
Proof.
  intros Hs Hx Ho. revert xs s Hs Hx. induction Ho as [|o obs Ho Hos IH]; intros xs s Hs Hx.
  - exists s. by rewrite app_nil_r.
  - destruct (record_eval xs o s Hs Hx Ho) as (s1 & E1 & H1).
    destruct (IH (xs ++ [delta_of o]) s1) as (s2 & E2 & H2); [done| |].
    + apply Forall_app. split; [done|]. constructor; [|done]. apply Ho.
    + exists s2. cbn [observe]. rewrite (bind_done _ _ _ _ _ E1). split; [done|].
      by rewrite <- app_assoc in H2.
Qed.

Lemma init_seen : exists s, init_clock_align clock_init = Done tt s /\ clock_seen [] s.
Proof. eexists. split; [done|]. split_and!; cbn; eauto using ring_repr_new. Qed.

(** [C32] The estimated skew is the median of the last sixteen deltas, within bounds: when in
    every observation both counters are below 2^63, they differ by less than 2^62 (from -2^62
    up to but not including 2^62) and the clock reads less than 2^34 seconds of uptime
    ([observation_ok]), then after initialisation and any number of such observations, in a
    checked or a release build, no call has panicked and the published skew is the median of
    the last (at most) sixteen values of remote minus local counter.  Larger deltas are
    outside the claim: [median_overflow] shows that two of them defeat the estimator. *)
Theorem skew_is_median obs :
  Forall observation_ok obs ->
  exists s s', init_clock_align clock_init = Done tt s /\ observe obs s = Done tt s' /\
    estimated_skew s' = Done (median_of (last16 (delta_of <$> obs))) s'.
Proof.
  intros Ho. destruct init_seen as (s & E & Hs). exists s.
  destruct (observe_eval obs [] s Hs (Forall_nil_2 _) Ho) as (s' & E' & _ & _ & Hm). exists s'.
  split_and!; [done..|]. unfold estimated_skew, gets. by rewrite Hm.
Qed.
End estimator.

(** * Robustness *)

Section majority.
Context (a b : Z).
Abbreviation inside := (fun x => (a <=? x) && (x <=? b)).

Lemma countb_perm {A} (p : A -> bool) l k : l ≡ₚ k -> countb p l = countb p k.
Proof. induction 1; simpl; try lia. Qed.
Lemma countb_app {A} (p : A -> bool) l k : countb p (l ++ k) = countb p l + countb p k.
Proof. induction l; simpl; lia. Qed.
Lemma countb_none {A} (p : A -> bool) l : Forall (fun x => p x = false) l -> countb p l = 0.
Proof. induction 1 as [|x l Hx Hl IH]; simpl; [done|]. by rewrite Hx, IH. Qed.

(** In a sorted list the element at [i] bounds how many elements can lie inside. *)
Lemma sorted_outside s i v :
  StronglySorted Z.le s -> nthZ s i = Some v ->
  (v < a -> countb inside s <= lenZ s - (i + 1)) /\ (b < v -> countb inside s <= i).
Proof.
  intros Hs E. unfold nthZ in E. destruct (Z.ltb_spec i 0); [done|].
  pose proof (take_drop_middle _ _ _ E) as Hsplit. pose proof (lookup_lt_Some _ _ _ E) as Hlt.
  rewrite <- Hsplit in Hs |- *. set (l := take (Z.to_nat i) s) in *. set (r := drop (S (Z.to_nat i)) s) in *.
  assert (lenZ l = i) as Hl by (unfold lenZ, l; rewrite length_take; lia).
  rewrite countb_app, lenZ_app, lenZ_cons. simpl.
  pose proof (countb_bounds inside l). pose proof (countb_bounds inside r).
  apply StronglySorted_app in Hs as (Hlr & _ & [Hvr _]%StronglySorted_cons). split; intros Hv.
  - rewrite (countb_none inside l).
    + destruct (Z.leb_spec a v); simpl; lia.
    + apply Forall_forall. intros x Hx. assert (x <= v) by (apply Hlr; [done|by left]).
      destruct (Z.leb_spec a x); [lia|done].
  - rewrite (countb_none inside r).
    + destruct (Z.leb_spec v b); rewrite ?andb_false_r; lia.
    + eapply Forall_impl; [exact Hvr|]. intros x Hx. simpl in Hx.
      destruct (Z.leb_spec x b); [lia|]. apply andb_false_r.
Qed.

Lemma median_inside xs :
  lenZ xs < 2 * countb inside xs -> a <= median_of xs <= b.
Proof.
  intros Hmaj. pose proof (countb_bounds inside xs) as Hb. unfold median_of.
  destruct (Z.eqb_spec (lenZ xs) 0); [lia|].
  assert (StronglySorted Z.le (merge_sort Z.le xs)) as Hs by (apply Sorted_StronglySorted, Sorted_merge_sort, _; apply _).
  pose proof (countb_perm inside _ _ (merge_sort_Permutation Z.le xs)) as Hc.
  pose proof (Z.div_mod (lenZ xs) 2). pose proof (Z.mod_pos_bound (lenZ xs) 2).
  destruct (nthZ_merge_sort xs (lenZ xs / 2)) as (v & Ev & _); [lia|].
  destruct (sorted_outside _ _ _ Hs Ev) as [L1 U1]. rewrite lenZ_merge_sort, Hc in L1. rewrite Hc in U1.
  rewrite Ev. destruct (Z.eqb_spec (lenZ xs mod 2) 1); cbn; [lia|].
  destruct (nthZ_merge_sort xs (lenZ xs / 2 - 1)) as (u & Eu & _); [lia|].
  destruct (sorted_outside _ _ _ Hs Eu) as [L2 U2]. rewrite lenZ_merge_sort, Hc in L2. rewrite Hc in U2.
  rewrite Eu. cbn. pose proof (Z.quot_rem (u + v) 2).
  pose proof (Z.rem_bound_abs (u + v) 2). lia.
Qed.
End majority.

Section claims.
Context `{HB : BuildProfile}.

(** A minority of bad samples cannot move the estimate: when more than half of the
    last sixteen deltas lie in an interval, so does the published skew. *)
Theorem skew_majority_robust a b obs :
  Forall observation_ok obs ->
  lenZ (last16 (delta_of <$> obs)) <
    2 * countb (fun x => (a <=? x) && (x <=? b)) (last16 (delta_of <$> obs)) ->
  exists s s' skew, init_clock_align clock_init = Done tt s /\ observe obs s = Done tt s' /\
    estimated_skew s' = Done skew s' /\ a <= skew <= b.
Proof.
  intros Ho Hmaj. destruct init_seen as (s & E & Hs).
  destruct (observe_eval obs [] s Hs (Forall_nil_2 _) Ho) as (s' & E' & _ & _ & Hm).
  exists s, s', (median_of (last16 (delta_of <$> obs))). split_and!; [done..| | |].
  - unfold estimated_skew, gets. by rewrite Hm.
  - by apply (median_inside a b).
  - by apply (median_inside a b).
Qed.

Lemma poisoned_stays r s remote local secs nanos s' :
  DELTA_HISTORY s = Some (r, true) ->
  final (record_counter_observation remote local secs nanos s) = s' ->
  DELTA_HISTORY s' = Some (r, true) /\ ESTIMATED_SKEW s' = ESTIMATED_SKEW s.
Proof.
  intros Hp <-. unfold record_counter_observation, mbind, M_bind.
  destruct (chk_i 64 (wrap_i 64 remote - wrap_i 64 local) s) as [dl s1|s1|c s1] eqn:E;
    unfold chk_i in E; destruct (_ && _), overflow_checks; inversion E; subst; try done;
    unfold record_delta; rewrite Hp; unfold record_sample_time;
    destruct (LAST_SAMPLE_NS s1) as [[ts []]|]; try done;
    unfold monotonic_nanos, chk_u; destruct (_ && _), overflow_checks; done.
Qed.

Lemma poisoned_forever obs r s :
  DELTA_HISTORY s = Some (r, true) -> ESTIMATED_SKEW (final (observe obs s)) = ESTIMATED_SKEW s.
Proof.
  revert s. induction obs as [|o obs IH]; intros s Hp; [done|]. cbn [observe]. unfold mbind, M_bind.
  pose proof (poisoned_stays r s o.1.1 o.1.2 o.2.1 o.2.2 _ Hp eq_refl) as [Hp' He].
  destruct (record_counter_observation _ _ _ _ s); cbn [final] in *; [|done..].
  rewrite <- He. by apply IH.
Qed.

End claims.

(** [C40] Two extreme samples defeat the estimator.  In a checked build the sum of the two
    middle samples overflows inside [median]: the call panics while it holds the history,
    which stays poisoned, and no later observation ever changes the skew.  A release build
    wraps around and publishes a skew of minus one although both deltas are the largest
    positive value. *)
Theorem median_overflow `{HB : BuildProfile} :
  let obs := [(2 ^ 63 - 1, 0, (0, 0)); (2 ^ 63 - 1, 0, (0, 0))] in
  exists s, init_clock_align clock_init = Done tt s /\
  if overflow_checks then
    exists s', observe obs s = Panicked s' /\
      forall later, ESTIMATED_SKEW (final (observe later s')) = ESTIMATED_SKEW s'
  else exists s', observe obs s = Done tt s' /\ estimated_skew s' = Done (-1) s'.
Proof.
  eexists. split; [done|]. destruct overflow_checks eqn:E; unfold overflow_checks in E; subst HB.
  - eexists. split; [vm_compute; reflexivity|]. intros later. by eapply poisoned_forever.
  - eexists. split; vm_compute; reflexivity.
Qed.

Ltac observations_ok :=
  repeat (apply Forall_cons; split; [unfold observation_ok, delta_of; simpl; lia|]); apply Forall_nil_2.

Lemma skew_is_median_witness :
  let obs := [(5, 1, (0, 0)); (20, 3, (1, 0)); (9, 3, (2, 0))] in
  exists s s', init_clock_align clock_init = Done tt s /\ observe (HB := true) obs s = Done tt s' /\
    estimated_skew s' = Done 6 s'.
Proof.
  apply (skew_is_median (HB := true) [(5, 1, (0, 0)); (20, 3, (1, 0)); (9, 3, (2, 0))]).
  observations_ok.
Defined.

Lemma skew_majority_robust_witness :
  let obs := [(5, 1, (0, 0)); (2000000, 3, (1, 0)); (9, 3, (2, 0))] in
  exists s s' skew, init_clock_align clock_init = Done tt s /\ observe (HB := false) obs s = Done tt s' /\
    estimated_skew s' = Done skew s' /\ 4 <= skew <= 6.
Proof.
  apply (skew_majority_robust (HB := false) 4 6 [(5, 1, (0, 0)); (2000000, 3, (1, 0)); (9, 3, (2, 0))]).
  - observations_ok.
  - reflexivity.
Defined.
