(* ===== verification/VolumeProofs.v ===== *)
(** Correctness of the vault: type invariant, I/O behaviour, allocation, persistence.

    Every statement holds for every fault schedule of the file system. *)
From S2P Require Import Prelude Effects Crypto StdFs VolumeLayout VirtualVolume.

(** * Regions of a file *)

(** [d'] differs from [d] only in the byte range [a, b). *)
Definition region_only (a b : Z) (d d' : bytes) : Prop :=
  lenZ d' = lenZ d /\ takeZ a d' = takeZ a d /\ dropZ b d' = dropZ b d.

Lemma region_refl a b d : region_only a b d d.
Proof. done. Qed.

Lemma region_weaken a b a' b' d d' :
  region_only a b d d' -> 0 <= a' -> a' <= a -> b <= b' -> 0 <= b -> region_only a' b' d d'.
Proof.
  intros (Hl & Ht & Hd) H0 Ha Hb Hb0. split; [done|]. split.
  - apply (f_equal (takeZ a')) in Ht. rewrite !takeZ_takeZ in Ht.
    by replace (a' `min` a) with a' in Ht by lia.
  - apply (f_equal (dropZ (b' - b))) in Hd. rewrite !dropZ_dropZ in Hd by lia.
    by replace (b + (b' - b)) with b' in Hd by lia.
Qed.

Lemma region_trans a b d1 d2 d3 :
  region_only a b d1 d2 -> region_only a b d2 d3 -> region_only a b d1 d3.
Proof. intros (? & ? & ?) (? & ? & ?). split_and!; congruence. Qed.

Lemma region_slice_before a b x y d d' :
  region_only a b d d' -> 0 <= x <= y -> y <= a -> slice x y d' = slice x y d.
Proof.
  intros (_ & Ht & _) Hx Hy. apply (f_equal (slice x y)) in Ht.
  unfold slice in *. rewrite !takeZ_dropZ_comm in Ht by lia. rewrite !takeZ_takeZ in Ht.
  replace ((x + (y - x)) `min` a) with (x + (y - x)) in Ht by lia.
  by rewrite <- !takeZ_dropZ_comm in Ht by lia.
Qed.

Lemma region_slice_after a b x y d d' :
  region_only a b d d' -> 0 <= b <= x -> slice x y d' = slice x y d.
Proof.
  intros (_ & _ & Hd) Hx. apply (f_equal (slice (x - b) (y - b))) in Hd.
  unfold slice in *. rewrite !dropZ_dropZ in Hd by lia.
  by replace (b + (x - b)) with x in Hd by lia; replace (y - b - (x - b)) with (y - x) in Hd by lia.
Qed.

(** Writes inside the file are splices. *)
Lemma write_at_inside off dat d :
  0 <= off -> off <= lenZ d -> write_at off dat d = splice off dat d.
Proof.
  intros H0 H. unfold write_at, splice, repZ. by replace (Z.to_nat (off - lenZ d)) with 0%nat by lia.
Qed.

Lemma write_at_region off dat d :
  0 <= off -> off + lenZ dat <= lenZ d ->
  region_only off (off + lenZ dat) d (write_at off dat d).
Proof.
  intros H0 H. pose proof (lenZ_nonneg dat). rewrite write_at_inside by lia.
  split; [by apply lenZ_splice|]. unfold splice. split.
  - apply takeZ_app_exact. len_lia.
  - rewrite dropZ_app_r by len_lia. rewrite dropZ_app_r by len_lia. rewrite dropZ_dropZ by len_lia.
    f_equal. len_lia.
Qed.

Lemma write_at_prefix_region off k dat d :
  0 <= off -> off + lenZ dat <= lenZ d ->
  region_only off (off + lenZ dat) d (write_at off (takeZ k dat) d).
Proof.
  intros H0 H. pose proof (lenZ_nonneg (takeZ k dat)).
  assert (lenZ (takeZ k dat) <= lenZ dat) by len_lia.
  eapply region_weaken; [apply write_at_region; lia|lia..].
Qed.

Lemma write_at_slice off dat d :
  0 <= off -> off + lenZ dat <= lenZ d -> slice off (off + lenZ dat) (write_at off dat d) = dat.
Proof.
  intros H0 H. pose proof (lenZ_nonneg dat). rewrite write_at_inside by lia. by apply slice_splice_eq.
Qed.

(** Data written at [off] up to some byte: none of it, all of it, or a prefix. *)
Definition torn (off : Z) (dat d d' : bytes) : Prop := exists k, d' = write_at off (takeZ k dat) d.

Lemma write_at_nothing off d : 0 <= off <= lenZ d -> write_at off [] d = d.
Proof.
  intros H. rewrite write_at_inside by lia. unfold splice. rewrite lenZ_nil, Z.add_0_r.
  apply takeZ_dropZ.
Qed.
Lemma torn_none off dat d : 0 <= off <= lenZ d -> torn off dat d d.
Proof. intros H. exists 0. rewrite takeZ_0. by rewrite write_at_nothing. Qed.
Lemma torn_all off dat d : torn off dat d (write_at off dat d).
Proof. exists (lenZ dat). by rewrite takeZ_all. Qed.

(** Two writes one after the other are one write. *)
Lemma write_at_app off d1 d2 d :
  0 <= off -> off + lenZ d1 + lenZ d2 <= lenZ d ->
  write_at (off + lenZ d1) d2 (write_at off d1 d) = write_at off (d1 ++ d2) d.
Proof.
  intros H0 H. pose proof (lenZ_nonneg d1). pose proof (lenZ_nonneg d2).
  assert (lenZ (write_at off d1 d) = lenZ d) as Hl by (apply write_at_region; lia).
  rewrite !write_at_inside by lia. unfold splice. rewrite lenZ_app.
  rewrite (takeZ_app_r (off + lenZ d1)) by len_lia. rewrite (takeZ_app_exact _ d1) by len_lia.
  rewrite (dropZ_app_r (off + lenZ d1 + lenZ d2)) by len_lia. rewrite dropZ_app_r by len_lia.
  rewrite dropZ_dropZ by len_lia. rewrite <- !app_assoc. do 4 f_equal. len_lia.
Qed.

(** What a torn write leaves in its range. *)
Lemma torn_slice off dat d d' :
  torn off dat d d' -> 0 <= off -> off + lenZ dat <= lenZ d ->
  exists k, slice off (off + lenZ dat) d' = takeZ k dat ++ dropZ k (slice off (off + lenZ dat) d).
Proof.
  intros [k ->] H0 H. pose proof (lenZ_nonneg dat). set (p := takeZ k dat).
  assert (0 <= lenZ p <= lenZ dat) as Hp by (unfold p; len_lia). exists (lenZ p).
  assert (takeZ (lenZ p) dat = p) as Ep.
  { unfold p. rewrite <- (takeZ_dropZ k dat) at 2. by apply takeZ_app_exact. }
  rewrite Ep, (slice_split off (off + lenZ p)) by lia. rewrite write_at_slice by lia. f_equal.
  rewrite (region_slice_after _ _ _ _ _ _ (write_at_region off p d H0 ltac:(lia))) by lia.
  unfold slice.
  replace (off + lenZ dat - off) with (lenZ p + (off + lenZ dat - (off + lenZ p))) by lia.
  rewrite <- takeZ_dropZ_comm by lia. by rewrite dropZ_dropZ by lia.
Qed.

(** * Invariant *)

Record mem_ok (v : VirtualVolume) : Prop := {
  mem_bitmap : bitmap_ok (block_bitmap v);
  mem_total : DATA_START_BLOCK <= total_blocks v <= DATA_START_BLOCK + MAX_DATA_BLOCKS;
  mem_free : free_blocks v = count_free (block_bitmap v) (total_blocks v - DATA_START_BLOCK);
  mem_key : lenZ (master_key v) = 32;
}.

(** The bitmap region of a vault file, and one of its blocks. *)
Definition disk_bitmap (d : bytes) : bytes :=
  slice (BITMAP_START_BLOCK * BLOCK_SIZE) (BITMAP_START_BLOCK * BLOCK_SIZE + BITMAP_BYTES) d.
Definition disk_block (d : bytes) (i : Z) : bytes := slice (i * BLOCK_SIZE) (i * BLOCK_SIZE + BLOCK_SIZE) d.
(** Conversion unfolds these before it looks into [slice]. *)
Strategy expand [disk_bitmap disk_block].

Section invariant.
Context `{HP : Primitives} `{HB : BuildProfile}.

(** The volume is open on inode [ino], whose contents [d] have the volume's size. *)
Record vol_at (e : vol_env) (ino : Z) (d : bytes) : Prop := {
  vol_mem : mem_ok (e_vol e);
  vol_open : open_on (e_fs e) (file (e_vol e)) ino d;
  vol_size : lenZ d = total_blocks (e_vol e) * BLOCK_SIZE;
}.

(** The type invariant of a live volume. *)
Definition vol_ok (e : vol_env) : Prop := exists ino d, vol_at e ino d.

(** The bitmap on disk is the one in memory. *)
Definition synced (e : vol_env) (d : bytes) : Prop := disk_bitmap d = block_bitmap (e_vol e).

Lemma free_range e ino d : vol_at e ino d -> 0 <= free_blocks (e_vol e) <= MAX_DATA_BLOCKS.
Proof.
  intros [Hm _ _]. rewrite (mem_free _ Hm). destruct (mem_total _ Hm).
  pose proof (count_free_bounds (block_bitmap (e_vol e)) (total_blocks (e_vol e) - DATA_START_BLOCK)).
  lia.
Qed.

(** What an I/O call of the volume may do: nothing outside the byte range [a, b) of its
    own file, and nothing to the struct or the generator. *)
Definition io_step (a b : Z) (ino : Z) (d : bytes) (e e' : vol_env) (d' : bytes) : Prop :=
  (e_vol e' = e_vol e /\ e_rng e' = e_rng e) /\ vol_at e' ino d' /\ region_only a b d d' /\
  only_changes ino (e_fs e) (e_fs e').

Lemma io_step_refl a b ino d e : vol_at e ino d -> io_step a b ino d e e d.
Proof. intros. split_and!; auto with kernel; apply region_refl || done. Qed.

Lemma io_step_trans a b ino d d1 d2 e e1 e2 :
  io_step a b ino d e e1 d1 -> io_step a b ino d1 e1 e2 d2 -> io_step a b ino d e e2 d2.
Proof.
  intros ([V1 G1] & A1 & R1 & C1) ([V2 G2] & A2 & R2 & C2). split_and!; [congruence..|done| |].
  - by eapply region_trans.
  - by eapply only_changes_trans.
Qed.

(** A file-system call that keeps the size keeps the volume. *)
Lemma vol_at_fs e ino d s d' :
  vol_at e ino d -> open_on s (file (e_vol e)) ino d' -> lenZ d' = lenZ d ->
  vol_at (with_fs s e) ino d'.
Proof. intros [Hm Ho Hs] ? E. split; simpl; [done|done|by rewrite E]. Qed.

Lemma io_step_fs a b ino d e s d' :
  vol_at e ino d -> open_on s (file (e_vol e)) ino d' -> region_only a b d d' ->
  only_changes ino (e_fs e) s -> io_step a b ino d e (with_fs s e) d'.
Proof.
  intros Hv Ho Hr Hc. split_and!; [done|done| |done|done]. eapply vol_at_fs; [done..|]. apply Hr.
Qed.

(** No fault is scheduled and the vault's path still names its inode. *)
Definition healthy (e : vol_env) (ino : Z) : Prop :=
  (forall t, faults (e_fs e) t = None) /\ has_nul (vault_path (e_vol e)) = false /\
  dir (e_fs e) !! vault_path (e_vol e) = Some ino.

Lemma healthy_step a b ino d e e' d' :
  io_step a b ino d e e' d' -> healthy e' ino <-> healthy e ino.
Proof.
  intros ([V _] & _ & _ & (D & _ & _ & _ & _ & L & _)). unfold healthy. by rewrite V, D, L.
Qed.

Lemma healthy_not_faulty e ino : healthy e ino -> ~ faulty (e_fs e).
Proof. intros [H _] [k E]. by rewrite H in E. Qed.

(** * Rules for the volume's file-system calls *)

Lemma wp_io_seek a b e ino d off Q :
  vol_at e ino d ->
  (forall e', io_step a b ino d e e' d -> fds (e_fs e') !! file (e_vol e) = Some (ino, off) ->
     Q (Ok tt) e') ->
  (forall e', io_step a b ino d e e' d -> ~ healthy e ino -> Q (Err OsFault) e') ->
  wp (io (seek (file (e_vol e)) off)) Q e.
Proof.
  intros Hv HOk HErr. pose proof (vol_open _ _ _ Hv) as Ho. apply wp_zoom. simpl.
  apply (wp_seek (file (e_vol e)) ino off _ d); [done| |].
  - intros nd s' -> Hnd <-. apply HOk; [|apply fd_update_pos].
    apply io_step_fs; [done| |apply region_refl|].
    + apply fd_update_open, Ho.
    + apply fd_update_only, Ho.
  - intros s' Hf Hc Ho'. apply HErr; [by apply io_step_fs; auto using region_refl|].
    intros Hh. by eapply healthy_not_faulty.
Qed.

Lemma wp_io_write a b e ino d pos dat Q :
  vol_at e ino d -> fds (e_fs e) !! file (e_vol e) = Some (ino, pos) ->
  0 <= a <= pos -> pos + lenZ dat <= b -> pos + lenZ dat <= lenZ d ->
  (forall e', io_step a b ino d e e' (write_at pos dat d) ->
     fds (e_fs e') !! file (e_vol e) = Some (ino, pos + lenZ dat) -> Q (Ok tt) e') ->
  (forall e' k, io_step a b ino d e e' (write_at pos (takeZ k dat) d) -> ~ healthy e ino -> Q (Err OsFault) e') ->
  wp (io (write_all (file (e_vol e)) dat)) Q e.
Proof.
  intros Hv Hp Ha Hb Hl HOk HErr. pose proof (vol_open _ _ _ Hv) as Ho. apply wp_zoom. simpl.
  pose proof (lenZ_nonneg dat).
  apply (wp_write_all (file (e_vol e)) ino _ _ pos d); [done|apply Ho| |].
  - intros at' o s' ->. apply HOk; [|apply fd_update_pos].
    apply io_step_fs; [done| | |].
    + apply (fd_update_open _ _ _ (Inode _ _ _ _)), Ho.
    + eapply region_weaken; [apply write_at_region; lia|lia..].
    + apply fd_update_only, Ho.
  - intros k s' Hf Hc Ho'. eapply (HErr _ k).
    + apply io_step_fs; [done|done| |done].
      eapply region_weaken; [apply (write_at_prefix_region pos k dat d); lia|lia..].
    + intros Hh. by eapply healthy_not_faulty.
Qed.

Lemma wp_io_read a b e ino d pos n Q :
  vol_at e ino d -> fds (e_fs e) !! file (e_vol e) = Some (ino, pos) -> 0 <= pos -> pos + n <= lenZ d ->
  (forall e', io_step a b ino d e e' d -> Q (Ok (slice pos (pos + n) d)) e') ->
  (forall err e', io_step a b ino d e e' d -> ~ healthy e ino -> Q (Err err) e') ->
  wp (io (read_exact (file (e_vol e)) n)) Q e.
Proof.
  intros Hv Hp H0 Hl HOk HErr. pose proof (vol_open _ _ _ Hv) as Ho. apply wp_zoom. simpl.
  apply (wp_read_exact (file (e_vol e)) ino n _ pos d); [done|done|apply Ho| |].
  - intros s' _ Hc Ho'. apply HOk, io_step_fs; auto using region_refl.
  - intros err s' [[_ Hf]|[_ ?]] Hc Ho'; [|lia]. apply HErr; [by apply io_step_fs; auto using region_refl|].
    intros Hh. by eapply healthy_not_faulty.
Qed.

Lemma wp_io_sync a b e ino d Q :
  vol_at e ino d ->
  (forall r e', io_step a b ino d e e' d -> (healthy e ino -> r = Ok tt) ->
     r = Ok tt \/ r = Err OsFault -> Q r e') ->
  wp (io (sync_all (file (e_vol e)))) Q e.
Proof.
  intros Hv HQ. pose proof (vol_open _ _ _ Hv) as Ho. apply wp_zoom. simpl.
  apply (wp_sync_all (file (e_vol e)) ino _ d); [done|].
  intros r s' Hr _ Hc Ho'. apply HQ; [by apply io_step_fs; auto using region_refl| |tauto].
  intros Hh. destruct Hr as [|[_ Hf]]; [done|]. by destruct (healthy_not_faulty _ _ Hh).
Qed.

Lemma wp_freeze a b e ino d Q :
  vol_at e ino d ->
  (forall r e', io_step a b ino d e e' d -> (healthy e ino -> r = Ok tt) -> Q r e') ->
  wp freeze_timestamps Q e.
Proof.
  intros Hv HQ. pose proof (vol_open _ _ _ Hv) as Ho.
  assert (forall s, keeps_data (e_fs e) s -> io_step a b ino d e (with_fs s e) d) as Hstep.
  { intros s Hk. apply io_step_fs; [done| |apply region_refl|by apply keeps_data_only].
    by eapply keeps_data_open. }
  assert (forall s, keeps_data (e_fs e) s -> inodes s = inodes (e_fs e) ->
    healthy e ino -> ~ (faulty s \/ has_nul (vault_path (e_vol e)) = true \/
      dir s !! vault_path (e_vol e) ≫= (fun i => inodes s !! i) = None)) as Hbad.
  { intros s (D & _ & _ & _ & _ & L & _) I (Hf & Hn & Hd). rewrite D, I, Hd. simpl.
    destruct Ho as [_ Hdat]. apply fmap_Some in Hdat as (nd & -> & _).
    intros [[k E]|[E|E]]; [|congruence|done]. by rewrite L, Hf in E. }
  unfold freeze_timestamps. apply wp_bind, wp_zoom || apply wp_bind. cbn.
  apply wp_bind, wp_zoom. simpl. apply wp_metadata.
  - intros s1 i nd K1 I1 _ Hnul _ _. apply wp_try; [|done]. intros ? [= <-].
    rewrite Hnul. apply wp_zoom. simpl. apply wp_utimes.
    + intros s2 i2 nd2 K2 _ _ _. apply HQ; [|done].
      apply (Hstep s2). by eapply keeps_data_trans.
    + intros err s2 K2 Hwhy. apply HQ; [apply (Hstep s2); by eapply keeps_data_trans|].
      intros Hh. by destruct (Hbad s1 K1 I1 Hh).
  - intros err s1 K1 I1 Hwhy. apply wp_try; [done|]. intros ? [= ->]. apply HQ; [by apply Hstep|].
    intros Hh. by destruct (Hbad (e_fs e) (keeps_data_refl _) eq_refl Hh).
Qed.

(** ** Straight-line I/O code

    The rules below run a method that started in [e0] on contents [d0] and may touch the
    range [a, b): each takes what was done so far to what is done after one more call.
    Every failure goes to the one continuation [HErr], with contents in [T]. *)
Section straight.
Context (a b ino : Z) (d0 : bytes) (e0 : vol_env).
Abbreviation sofar := (io_step a b ino d0 e0).
Abbreviation fd := (file (e_vol e0)).
Context {A : Type} (Q : result A -> vol_env -> Prop).
Context (T : bytes -> Prop).
Context (HErr : forall err e' d', sofar e' d' -> T d' -> ~ healthy e0 ino -> Q (Err err) e').

Lemma sofar_file e d : sofar e d -> file (e_vol e) = fd.
Proof. by intros [[-> _] _]. Qed.
Lemma sofar_at e d : sofar e d -> vol_at e ino d.
Proof. by intros (_ & ? & _). Qed.
Lemma sofar_len e d : sofar e d -> lenZ d = lenZ d0.
Proof. by intros (_ & _ & [? _] & _). Qed.

Lemma st_seek e d off k :
  sofar e d -> T d ->
  (forall e', sofar e' d -> fds (e_fs e') !! fd = Some (ino, off) -> wp k Q e') ->
  wp (io (seek fd off) ;;? k) Q e.
Proof using HErr.
  intros Hs HT Hk. rewrite <- (sofar_file _ _ Hs) in *. apply wp_bind.
  apply (wp_io_seek a b e ino d); [by apply sofar_at| |].
  - intros e' Hs' Hp. apply wp_try; [|done]. intros ? _. apply Hk; [|done]. by eapply io_step_trans.
  - intros e' Hs' Hh. apply wp_try; [done|]. intros ? _.
    eapply HErr; [by eapply io_step_trans|done|]. by rewrite <- (healthy_step _ _ _ _ _ _ _ Hs).
Qed.

Lemma st_write e d pos dat k :
  sofar e d -> fds (e_fs e) !! fd = Some (ino, pos) ->
  0 <= a <= pos -> pos + lenZ dat <= b -> pos + lenZ dat <= lenZ d0 ->
  (forall k, T (write_at pos (takeZ k dat) d)) ->
  (forall e', sofar e' (write_at pos dat d) -> fds (e_fs e') !! fd = Some (ino, pos + lenZ dat) ->
     wp k Q e') ->
  wp (io (write_all fd dat) ;;? k) Q e.
Proof using HErr.
  intros Hs Hp Ha Hb Hl HT Hk. rewrite <- (sofar_len _ _ Hs) in Hl.
  rewrite <- (sofar_file _ _ Hs) in *. apply wp_bind.
  apply (wp_io_write a b e ino d pos); [by apply sofar_at|done..| |].
  - intros e' Hs' Hp'. apply wp_try; [|done]. intros ? _. apply Hk; [|done]. by eapply io_step_trans.
  - intros e' n Hs' Hh. apply wp_try; [done|]. intros ? _.
    eapply HErr; [by eapply io_step_trans|done|]. by rewrite <- (healthy_step _ _ _ _ _ _ _ Hs).
Qed.

Lemma st_read e d pos n k :
  sofar e d -> T d -> fds (e_fs e) !! fd = Some (ino, pos) -> 0 <= pos -> pos + n <= lenZ d0 ->
  (forall e', sofar e' d -> wp (k (slice pos (pos + n) d)) Q e') ->
  wp (raw <-? io (read_exact fd n); k raw) Q e.
Proof using HErr.
  intros Hs HT Hp H0 Hl Hk. rewrite <- (sofar_len _ _ Hs) in Hl.
  rewrite <- (sofar_file _ _ Hs) in *. apply wp_bind.
  apply (wp_io_read a b e ino d pos); [by apply sofar_at|done..| |].
  - intros e' Hs'. apply wp_try; [|done]. intros ? [= <-]. apply Hk. by eapply io_step_trans.
  - intros err e' Hs' Hh. apply wp_try; [done|]. intros ? _.
    eapply HErr; [by eapply io_step_trans|done|]. by rewrite <- (healthy_step _ _ _ _ _ _ _ Hs).
Qed.

Lemma st_sync e d k :
  sofar e d -> T d -> (forall e', sofar e' d -> wp k Q e') -> wp (io (sync_all fd) ;;? k) Q e.
Proof using HErr.
  intros Hs HT Hk. rewrite <- (sofar_file _ _ Hs). apply wp_bind.
  apply (wp_io_sync a b e ino d); [by apply sofar_at|]. intros r e' Hs' Hh _.
  assert (sofar e' d) by (by eapply io_step_trans).
  apply wp_try; [intros; by apply Hk|]. intros err ->. eapply HErr; [done|done|].
  rewrite <- (healthy_step _ _ _ _ _ _ _ Hs). intros Hok. by specialize (Hh Hok).
Qed.

Lemma st_freeze e d k :
  sofar e d -> T d -> (forall e', sofar e' d -> wp k Q e') -> wp (freeze_timestamps ;;? k) Q e.
Proof using HErr.
  intros Hs HT Hk. apply wp_bind. apply (wp_freeze a b e ino d); [by apply sofar_at|].
  intros r e' Hs' Hh. assert (sofar e' d) by (by eapply io_step_trans).
  apply wp_try; [intros; by apply Hk|]. intros err ->. eapply HErr; [done|done|].
  rewrite <- (healthy_step _ _ _ _ _ _ _ Hs). intros Hok. by specialize (Hh Hok).
Qed.
End straight.

Lemma wp_debug_assert {S} (p : bool) (Q : unit -> S -> Prop) s :
  p = true -> Q tt s -> wp (debug_assert p) Q s.
Proof. intros -> ?. unfold debug_assert. by rewrite andb_false_r. Qed.

(** * The bitmap on disk *)

Lemma vol_bitmap_len e ino d : vol_at e ino d -> lenZ (block_bitmap (e_vol e)) = BITMAP_BYTES.
Proof. intros [Hm _ _]. by destruct (mem_bitmap _ Hm). Qed.

Lemma vol_len_min e ino d : vol_at e ino d -> DATA_START_BLOCK * BLOCK_SIZE <= lenZ d.
Proof. intros [Hm _ ->]. destruct (mem_total _ Hm). vlia. Qed.

(** [write_bitmap] writes the bitmap of the struct to the bitmap region, all of it when it
    succeeds; on a healthy file system it succeeds. *)
Lemma wp_write_bitmap e ino d Q :
  vol_at e ino d ->
  (forall r e' d', io_step BLOCK_SIZE (DATA_START_BLOCK * BLOCK_SIZE) ino d e e' d' ->
     torn (BITMAP_START_BLOCK * BLOCK_SIZE) (block_bitmap (e_vol e)) d d' ->
     (r = Ok tt -> synced e' d') -> (healthy e ino -> r = Ok tt) -> Q r e') ->
  wp write_bitmap Q e.
Proof.
  intros Hv HQ. pose proof (vol_bitmap_len _ _ _ Hv) as Hb. pose proof (vol_len_min _ _ _ Hv).
  apply wp_bind. cbn. apply wp_bind, wp_debug_assert; [by rewrite Hb|].
  assert (forall err e' d', io_step BLOCK_SIZE (DATA_START_BLOCK * BLOCK_SIZE) ino d e e' d' ->
    torn (BITMAP_START_BLOCK * BLOCK_SIZE) (block_bitmap (e_vol e)) d d' ->
    ~ healthy e ino -> Q (Err err) e') as HErr by (intros; by eapply HQ).
  eapply st_seek; [exact HErr|by apply io_step_refl|apply torn_none; vlia|]. intros e1 H1 P1.
  eapply st_write; [exact HErr|done|done|vlia|vlia|vlia|by eexists|]. intros e2 H2 _.
  eapply st_sync; [exact HErr|done|apply torn_all|]. intros e3 H3.
  eapply st_freeze; [exact HErr|done|apply torn_all|]. intros e4 H4. apply wp_ret.
  eapply HQ; [exact H4|apply torn_all| |done]. intros _. unfold synced, disk_bitmap.
  destruct H4 as [[-> _] _]. rewrite <- Hb. apply write_at_slice; vlia.
Qed.
End invariant.
