(* ===== verification/VolumeBlocks.v ===== *)
(** Block I/O of the vault: what [read_block], [write_block] and their raw variants do to
    the file, under any schedule of I/O errors. *)
From stdpp Require Import gmap.
From S2P Require Import Prelude Effects Crypto StdFs VolumeLayout VirtualVolume VolumeProofs.

Definition in_data (v : VirtualVolume) (i : Z) : Prop := DATA_START_BLOCK <= i < total_blocks v.

(** Two consecutive writes fill the block. *)
Lemma written_block d i n c :
  0 <= i -> lenZ n + lenZ c = BLOCK_SIZE -> i * BLOCK_SIZE + BLOCK_SIZE <= lenZ d ->
  disk_block (write_at (i * BLOCK_SIZE + lenZ n) c (write_at (i * BLOCK_SIZE) n d)) i = n ++ c.
Proof.
  intros Hi Hl Hd. rewrite write_at_app by vlia. unfold disk_block.
  replace (i * BLOCK_SIZE + BLOCK_SIZE) with (i * BLOCK_SIZE + lenZ (n ++ c)) by len_lia.
  apply write_at_slice; vlen_lia.
Qed.

Section blocks.
Context `{HP : Primitives} `{HB : BuildProfile} `{!PrimitivesOk HP}.

(** The plaintext the bytes of a block open to, under the key of its index. *)
Definition open_block (key : bytes) (i : Z) (raw : bytes) : option bytes :=
  chacha_decrypt (derive_block_key key i) (takeZ NONCE_SIZE raw) (dropZ NONCE_SIZE raw).
Definition block_holds (v : VirtualVolume) (d : bytes) (i : Z) : option bytes :=
  open_block (master_key v) i (disk_block d i).

Definition of_option (o : option bytes) : result bytes :=
  match o with Some p => Ok p | None => Err InvalidData end.

(** A result that is an I/O error, which a healthy file system never gives. *)
Definition io_failed {A} (r : result A) (e : vol_env) (ino : Z) : Prop :=
  (exists err, r = Err err) /\ ~ healthy e ino.

Lemma check_data_block_ok e i :
  in_data (e_vol e) i -> check_data_block i e = Done (Ok tt) e.
Proof.
  intros [H1 H2]. unfold check_data_block, gets, mbind, M_bind, mret, M_ret.
  destruct (Z.ltb_spec i DATA_START_BLOCK), (Z.leb_spec (total_blocks (e_vol e)) i); [lia..|done].
Qed.

Lemma check_data_block_err e i :
  ~ in_data (e_vol e) i -> check_data_block i e = Done (Err InvalidInput) e.
Proof.
  unfold in_data. intros H. unfold check_data_block, gets, mbind, M_bind, mret, M_ret.
  by destruct (Z.ltb_spec i DATA_START_BLOCK), (Z.leb_spec (total_blocks (e_vol e)) i); try lia.
Qed.

Lemma wp_checked {A} e i (k : M vol_env (result A)) Q :
  in_data (e_vol e) i -> wp k Q e -> wp (check_data_block i ;;? k) Q e.
Proof.
  intros Hi Hk. apply wp_bind. eapply wp_done; [by apply check_data_block_ok|].
  by apply wp_try.
Qed.

Lemma block_offset_u64 e ino d i : vol_at e ino d -> in_data (e_vol e) i -> is_u 64 (i * BLOCK_SIZE).
Proof. intros [Hm _ _] [H1 H2]. destruct (mem_total _ Hm). unfold is_u. vlia. Qed.

Lemma block_in_file e ino d i :
  vol_at e ino d -> in_data (e_vol e) i ->
  DATA_START_BLOCK * BLOCK_SIZE <= i * BLOCK_SIZE /\ i * BLOCK_SIZE + BLOCK_SIZE <= lenZ d.
Proof. intros [Hm _ ->] [H1 H2]. vlia. Qed.

Lemma disk_block_len e ino d i :
  vol_at e ino d -> in_data (e_vol e) i -> lenZ (disk_block d i) = BLOCK_SIZE.
Proof.
  intros Hv Hi. destruct (block_in_file _ _ _ _ Hv Hi). unfold disk_block.
  rewrite lenZ_slice; vlia.
Qed.

(** What opens has the size of a payload: [copy_from_slice] never panics. *)
Lemma open_block_len key i raw p :
  lenZ raw = BLOCK_SIZE -> open_block key i raw = Some p -> lenZ p = PAYLOAD_SIZE.
Proof.
  intros Hr Hp. apply (aead_only chacha_ok _ _ [] _ _) in Hp.
  apply (aead_len chacha_ok _ _ [] _ _) in Hp. vlen_lia.
Qed.

Lemma wp_read_block e ino d i Q :
  vol_at e ino d -> in_data (e_vol e) i ->
  (forall r e', io_step 0 0 ino d e e' d ->
     r = of_option (block_holds (e_vol e) d i) \/ io_failed r e ino -> Q r e') ->
  wp (read_block i) Q e.
Proof.
  intros Hv Hi HQ. pose proof (block_offset_u64 _ _ _ _ Hv Hi) as Hoff.
  destruct (block_in_file _ _ _ _ Hv Hi) as [Hlo Hhi].
  pose proof (disk_block_len _ _ _ _ Hv Hi) as Hl.
  apply wp_checked; [done|]. apply wp_bind; cbn. apply wp_bind, wp_chk_u; [done|].
  assert (forall err e' d', io_step 0 0 ino d e e' d' -> d' = d -> ~ healthy e ino -> Q (Err err) e') as HErr.
  { intros err e' d' Hs -> Hh. apply HQ; [done|]. right. by split; [eexists|]. }
  eapply st_seek; [exact HErr|by apply io_step_refl|done|]. intros e1 H1 P1.
  eapply (st_read 0 0); [exact HErr|done|done|done|vlia|vlia|]. intros e2 H2.
  change (slice (i * BLOCK_SIZE) (i * BLOCK_SIZE + BLOCK_SIZE) d) with (disk_block d i).
  change (chacha_decrypt _ _ _) with (block_holds (e_vol e) d i).
  destruct (block_holds (e_vol e) d i) as [p|] eqn:Ep.
  - rewrite (open_block_len _ _ _ _ Hl Ep). rewrite Z.eqb_refl.
    apply wp_ret, HQ; auto.
  - apply wp_ret, HQ; auto.
Qed.

(** What a method that may write block [i] leaves behind. *)
Definition touched_block (i ino : Z) (d : bytes) (e e' : vol_env) (d' : bytes) : Prop :=
  e_vol e' = e_vol e /\ vol_at e' ino d' /\
  region_only (i * BLOCK_SIZE) (i * BLOCK_SIZE + BLOCK_SIZE) d d' /\
  only_changes ino (e_fs e) (e_fs e').

Lemma vol_at_rng e ino d r : vol_at e ino d -> vol_at (with_erng r e) ino d.
Proof. by intros []. Qed.

(** A sealing of [p] for block [i]. *)
Definition seals (v : VirtualVolume) (i : Z) (p raw : bytes) : Prop :=
  lenZ raw = BLOCK_SIZE /\ open_block (master_key v) i raw = Some p.

(** The write of a sealing, perhaps torn by an I/O error; all of it on success. *)
Lemma wp_write_torn e ino d i p Q :
  vol_at e ino d -> in_data (e_vol e) i -> lenZ p = PAYLOAD_SIZE ->
  (forall raw r e' d', touched_block i ino d e e' d' -> seals (e_vol e) i p raw ->
     torn (i * BLOCK_SIZE) raw d d' ->
     r = Ok tt /\ disk_block d' i = raw \/ io_failed r e ino -> Q r e') ->
  wp (write_block i p) Q e.
Proof.
  intros Hv Hi Hp HQ. pose proof (block_offset_u64 _ _ _ _ Hv Hi) as Hoff.
  destruct (block_in_file _ _ _ _ Hv Hi) as [Hlo Hhi].
  apply wp_checked; [done|]. apply wp_bind; cbn. apply wp_bind; cbn.
  set (nonce := (fill_bytes NONCE_SIZE (e_rng e)).1). set (e0 := with_erng _ e).
  assert (lenZ nonce = NONCE_SIZE) as Hn by (by apply fill_len).
  set (key := derive_block_key (master_key (e_vol e)) i).
  destruct (aead_total chacha_ok key nonce [] p) as [c Ec];
    [apply derive_block_key_len|done|vlia|done|]. cbn in Ec. rewrite Ec.
  pose proof (aead_len chacha_ok _ _ [] _ _ Ec) as Hc.
  apply wp_bind, wp_debug_assert; [apply Z.eqb_eq; vlia|]. apply wp_bind, wp_chk_u; [done|].
  assert (seals (e_vol e) i p (nonce ++ c)) as Hseal.
  { split; [vlen_lia|]. unfold open_block. rewrite takeZ_app_exact, dropZ_app_exact by done.
    exact (aead_open chacha_ok _ _ [] _ _ Ec). }
  assert (forall e' d', io_step (i * BLOCK_SIZE) (i * BLOCK_SIZE + BLOCK_SIZE) ino d e0 e' d' ->
    touched_block i ino d e e' d') as Ht by (intros ? ? ([V _] & ? & ? & ?); by split_and!).
  assert (forall err e' d', io_step (i * BLOCK_SIZE) (i * BLOCK_SIZE + BLOCK_SIZE) ino d e0 e' d' ->
    torn (i * BLOCK_SIZE) (nonce ++ c) d d' -> ~ healthy e0 ino -> Q (Err err) e') as HErr.
  { intros. eapply HQ; [by apply Ht|done|done|]. right. by split; [eexists|]. }
  assert (forall k, torn (i * BLOCK_SIZE) (nonce ++ c) d
    (write_at (i * BLOCK_SIZE + lenZ nonce) (takeZ k c) (write_at (i * BLOCK_SIZE) nonce d))) as Ttail.
  { intros k. exists (lenZ nonce + Z.max 0 k). rewrite write_at_app by vlen_lia. f_equal.
    rewrite takeZ_app_r by lia. f_equal. unfold takeZ. f_equal. lia. }
  change (e_vol e) with (e_vol e0).
  eapply st_seek; [exact HErr|by apply io_step_refl, vol_at_rng|apply torn_none; vlia|]. intros e1 S1 P1.
  eapply st_write; [exact HErr|done|done|vlia|vlia|vlia| |].
  { intros k. exists (Z.min k (lenZ nonce)). f_equal. rewrite takeZ_app_l by lia. rewrite <- takeZ_takeZ.
    f_equal. by rewrite takeZ_all. }
  intros e2 S2 P2. eapply st_write; [exact HErr|done|done|vlia|vlia|vlia|exact Ttail|]. intros e3 S3 P3.
  specialize (Ttail (lenZ c)). rewrite takeZ_all in Ttail by done.
  eapply st_freeze; [exact HErr|done|exact Ttail|]. intros e4 S4. apply wp_ret.
  eapply HQ; [by apply Ht|done|exact Ttail|]. left. split; [done|]. apply written_block; vlia.
Qed.

Lemma wp_write_block e ino d i p Q :
  vol_at e ino d -> in_data (e_vol e) i -> lenZ p = PAYLOAD_SIZE ->
  (forall r e' d', touched_block i ino d e e' d' ->
     r = Ok tt /\ block_holds (e_vol e) d' i = Some p \/ io_failed r e ino -> Q r e') ->
  wp (write_block i p) Q e.
Proof.
  intros Hv Hi Hp HQ. apply (wp_write_torn e ino d); [done..|]. intros raw r e' d' Ht [_ Hs] _ Hr.
  apply (HQ r e' d'); [done|]. destruct Hr as [[-> Hb]|]; [left|by right]. unfold block_holds. by rewrite Hb.
Qed.

Lemma disk_block_other i j d d' :
  region_only (i * BLOCK_SIZE) (i * BLOCK_SIZE + BLOCK_SIZE) d d' -> 0 <= i -> 0 <= j -> j <> i ->
  disk_block d' j = disk_block d j.
Proof.
  intros Hr Hi Hj Hne. unfold disk_block. destruct (decide (j < i)).
  - eapply region_slice_before; [done|vlia..].
  - eapply region_slice_after; [done|vlia].
Qed.

(** A read on a healthy file system returns what the block opens to. *)
Lemma read_block_eval e ino d i :
  vol_at e ino d -> healthy e ino -> in_data (e_vol e) i ->
  exists e', read_block i e = Done (of_option (block_holds (e_vol e) d i)) e' /\
    io_step 0 0 ino d e e' d.
Proof.
  intros Hv Hh Hi. assert (wp (read_block i) (fun r e' => r = of_option (block_holds (e_vol e) d i) /\
    io_step 0 0 ino d e e' d) e) as H; [|apply wp_inv in H as (r & e' & E & -> & ?); eauto].
  apply (wp_read_block e ino d); [done..|]. intros r e' Hs [->|[_ Hf]]; [done|by destruct Hf].
Qed.

(** [write_block] under any I/O errors: it never panics and keeps the volume's
    invariant; it changes no byte of the file outside the block, so every other data block,
    the superblock and the bitmap are as before, and no other file; when it reports success
    the block opens, under the key of its own index, to exactly the plaintext; and without
    I/O errors it does report success. *)
Theorem write_block_spec e ino d i p :
  vol_at e ino d -> in_data (e_vol e) i -> lenZ p = PAYLOAD_SIZE ->
  exists r e' d', write_block i p e = Done r e' /\ vol_at e' ino d' /\ e_vol e' = e_vol e /\
    takeZ (i * BLOCK_SIZE) d' = takeZ (i * BLOCK_SIZE) d /\
    dropZ (i * BLOCK_SIZE + BLOCK_SIZE) d' = dropZ (i * BLOCK_SIZE + BLOCK_SIZE) d /\
    (forall j, j <> ino -> data_of (e_fs e') j = data_of (e_fs e) j) /\
    (r = Ok tt -> block_holds (e_vol e) d' i = Some p) /\
    (healthy e ino -> r = Ok tt).
Proof.
  intros Hv Hi Hp. assert (wp (write_block i p) (fun r e' => exists d', touched_block i ino d e e' d' /\
    (r = Ok tt /\ block_holds (e_vol e) d' i = Some p \/ io_failed r e ino)) e) as H.
  { apply (wp_write_block e ino d); [done..|]. eauto. }
  apply wp_inv in H as (r & e' & E & d' & (V & Hv' & (_ & R1 & R2) & C) & Hr).
  exists r, e', d'. split_and!; [done..| | |].
  - intros j Hj. by apply C.
  - intros ->. by destruct Hr as [[_ ?]|[[? [=]] _]].
  - intros Hh. by destruct Hr as [[? _]|[_ Hf]]; [|destruct Hf].
Qed.

(** Vault round trip: without I/O errors, a payload written to a data block is read
    back exactly, and reading any other data block gives what it gave before the write. *)
Theorem vault_block_roundtrip e ino d i p :
  vol_at e ino d -> healthy e ino -> in_data (e_vol e) i -> lenZ p = PAYLOAD_SIZE ->
  exists e', write_block i p e = Done (Ok tt) e' /\
    (exists e'', read_block i e' = Done (Ok p) e'') /\
    (forall j, in_data (e_vol e) j -> j <> i -> exists r e1 e2,
       read_block j e = Done r e1 /\ read_block j e' = Done r e2).
Proof.
  intros Hv Hh Hi Hp. assert (wp (write_block i p) (fun r e' => exists d', touched_block i ino d e e' d' /\
    (r = Ok tt /\ block_holds (e_vol e) d' i = Some p \/ io_failed r e ino)) e) as H.
  { apply (wp_write_block e ino d); [done..|]. eauto. }
  apply wp_inv in H as (r & e' & E & d' & (V & Hv' & R & C) & [[-> Ho]|[_ Hf]]); [|by destruct Hf].
  assert (healthy e' ino) as Hh'.
  { destruct C as (D & _ & _ & _ & _ & L & _). unfold healthy. by rewrite V, D, L. }
  exists e'. split_and!; [done| |].
  - destruct (read_block_eval e' ino d' i) as (e'' & E'' & _); [done..|by rewrite V|].
    exists e''. by rewrite E'', V, Ho.
  - intros j Hj Hne. destruct (read_block_eval e ino d j) as (e1 & E1 & _); [done..|].
    destruct (read_block_eval e' ino d' j) as (e2 & E2 & _); [done..|by rewrite V|].
    eexists _, e1, e2. split; [done|]. rewrite E2, V. unfold block_holds.
    by rewrite (disk_block_other i j d d') by (done || (unfold in_data in *; vlia)).
Qed.

(** [C28] [read_block] under any I/O errors: it never panics, changes no contents, and
    when it returns a plaintext the block on disk is exactly nonce and ciphertext of that
    plaintext under the key derived from the master key and the block's index. *)
Theorem read_block_exact e ino d i :
  vol_at e ino d -> in_data (e_vol e) i ->
  exists r e', read_block i e = Done r e' /\ vol_at e' ino d /\ e_vol e' = e_vol e /\
    (forall p, r = Ok p -> lenZ p = PAYLOAD_SIZE /\ exists nonce c, lenZ nonce = NONCE_SIZE /\
       chacha_encrypt (derive_block_key (master_key (e_vol e)) i) nonce p = Some c /\
       disk_block d i = nonce ++ c) /\
    (healthy e ino -> r = of_option (block_holds (e_vol e) d i)).
Proof.
  intros Hv Hi. assert (wp (read_block i) (fun r e' => io_step 0 0 ino d e e' d /\
    (r = of_option (block_holds (e_vol e) d i) \/ io_failed r e ino)) e) as H.
  { apply (wp_read_block e ino d); [done..|]. eauto. }
  pose proof (disk_block_len _ _ _ _ Hv Hi) as Hl.
  apply wp_inv in H as (r & e' & E & ([V _] & Hv' & _) & Hr). exists r, e'. split_and!; [done..| |].
  - intros p ->. destruct Hr as [Hr|[[? [=]] _]].
    destruct (block_holds (e_vol e) d i) as [p'|] eqn:Ep; [|done]. injection Hr as <-.
    split; [by eapply open_block_len|].
    exists (takeZ NONCE_SIZE (disk_block d i)), (dropZ NONCE_SIZE (disk_block d i)). split_and!.
    + rewrite lenZ_takeZ, Hl. vlia.
    + exact (aead_only chacha_ok _ _ [] _ _ Ep).
    + symmetry. apply takeZ_dropZ.
  - intros Hh. by destruct Hr as [?|[_ Hf]]; [|destruct Hf].
Qed.

(** Every method that takes a block index refuses an index outside the data region
    with [InvalidInput], and changes nothing at all. *)
Theorem data_block_guard e i p :
  ~ in_data (e_vol e) i ->
  read_block i e = Done (Err InvalidInput) e /\ write_block i p e = Done (Err InvalidInput) e /\
  read_block_raw i e = Done (Err InvalidInput) e /\
  write_block_raw i p e = Done (Err InvalidInput) e /\
  reserve_block i e = Done (Err InvalidInput) e /\ free_block i e = Done (Err InvalidInput) e.
Proof.
  intros Hi. apply check_data_block_err in Hi.
  split_and!; unfold read_block, write_block, read_block_raw, write_block_raw, reserve_block,
    free_block; by rewrite (bind_done _ _ _ _ _ Hi).
Qed.

(** ** Raw access *)

Lemma wp_read_block_raw e ino d i Q :
  vol_at e ino d -> in_data (e_vol e) i ->
  (forall r e', io_step 0 0 ino d e e' d ->
     r = Ok (disk_block d i) \/ io_failed r e ino -> Q r e') ->
  wp (read_block_raw i) Q e.
Proof.
  intros Hv Hi HQ. pose proof (block_offset_u64 _ _ _ _ Hv Hi) as Hoff.
  destruct (block_in_file _ _ _ _ Hv Hi) as [Hlo Hhi].
  apply wp_checked; [done|]. apply wp_bind; cbn. apply wp_bind, wp_chk_u; [done|].
  assert (forall err e' d', io_step 0 0 ino d e e' d' -> d' = d -> ~ healthy e ino -> Q (Err err) e') as HErr.
  { intros err e' d' Hs -> Hh. apply HQ; [done|]. right. by split; [eexists|]. }
  eapply st_seek; [exact HErr|by apply io_step_refl|done|]. intros e1 H1 P1.
  eapply (st_read 0 0); [exact HErr|done|done|done|vlia|vlia|]. intros e2 H2. apply wp_ret, HQ; auto.
Qed.

Lemma wp_write_block_raw e ino d i raw Q :
  vol_at e ino d -> in_data (e_vol e) i -> lenZ raw = BLOCK_SIZE ->
  (forall r e' d', touched_block i ino d e e' d' -> torn (i * BLOCK_SIZE) raw d d' ->
     r = Ok tt /\ disk_block d' i = raw \/ io_failed r e ino -> Q r e') ->
  wp (write_block_raw i raw) Q e.
Proof.
  intros Hv Hi Hp HQ. pose proof (block_offset_u64 _ _ _ _ Hv Hi) as Hoff.
  destruct (block_in_file _ _ _ _ Hv Hi) as [Hlo Hhi].
  apply wp_checked; [done|]. apply wp_bind; cbn. apply wp_bind, wp_chk_u; [done|].
  assert (forall e' d', io_step (i * BLOCK_SIZE) (i * BLOCK_SIZE + BLOCK_SIZE) ino d e e' d' ->
    touched_block i ino d e e' d') as Ht by (intros ? ? ([V _] & ? & ? & ?); by split_and!).
  assert (forall err e' d', io_step (i * BLOCK_SIZE) (i * BLOCK_SIZE + BLOCK_SIZE) ino d e e' d' ->
    torn (i * BLOCK_SIZE) raw d d' -> ~ healthy e ino -> Q (Err err) e') as HErr.
  { intros. eapply HQ; [by apply Ht|done|]. right. by split; [eexists|]. }
  eapply st_seek; [exact HErr|by apply io_step_refl|apply torn_none; vlia|]. intros e1 S1 P1.
  eapply st_write; [exact HErr|done|done|vlia|vlia|vlia|by eexists|]. intros e2 S2 P2. apply wp_ret.
  eapply HQ; [by apply Ht|apply torn_all|]. left. split; [done|]. unfold disk_block. rewrite <- Hp.
  apply write_at_slice; vlia.
Qed.
End blocks.

(** * A concrete volume: empty, no faults *)

Section demo.
Definition volume_data (n : Z) : bytes := repZ ((DATA_START_BLOCK + n) * BLOCK_SIZE) 0.
Definition volume_fs (n : Z) : fs :=
  Fs {["v"%string := 1]} {[1 := Inode (volume_data n) 0 0 []]} {[2 := (1, 0)]} 3 (fun t => t) (fun _ => None) 0.
Definition volume_of (n : Z) : VirtualVolume :=
  Volume 2 (repZ 32 1) (DATA_START_BLOCK + n) n (repZ BITMAP_BYTES 0) "v" 0.

Lemma volume_at (r : rng) n :
  0 <= n <= MAX_DATA_BLOCKS -> vol_at (VolEnv (volume_fs n) r (volume_of n)) 1 (volume_data n).
Proof.
  intros Hn. split; cbn [e_fs e_vol].
  - split; unfold volume_of; cbn [block_bitmap total_blocks free_blocks master_key];
      [apply bitmap_ok_zeros|lia| |by rewrite lenZ_repZ].
    rewrite count_free_zeros; lia.
  - split; [done|]. unfold data_of, volume_fs. cbn [inodes]. by rewrite lookup_singleton_eq.
  - unfold volume_data. rewrite lenZ_repZ. cbn [volume_of total_blocks]. vlia.
Qed.
Lemma volume_healthy (r : rng) n : healthy (VolEnv (volume_fs n) r (volume_of n)) 1.
Proof. done. Qed.

Definition demo_data : bytes := volume_data 1.
Definition demo_fs : fs := volume_fs 1.
Definition demo_vol : VirtualVolume := volume_of 1.
Definition demo_env : vol_env := VolEnv demo_fs 0 demo_vol.

Lemma demo_at : vol_at demo_env 1 demo_data.
Proof. apply volume_at. vlia. Qed.
Lemma demo_healthy : healthy demo_env 1.
Proof. apply volume_healthy. Qed.
Lemma demo_in_data : in_data (e_vol demo_env) 9.
Proof. unfold in_data. simpl. vlia. Qed.
End demo.
#[export] Hint Resolve demo_at demo_healthy demo_in_data : kernel.

Lemma write_block_spec_witness :
  exists r e' d', write_block (HB := true) 9 (repZ PAYLOAD_SIZE 5) demo_env = Done r e' /\
    vol_at e' 1 d' /\ (r = Ok tt -> block_holds demo_vol d' 9 = Some (repZ PAYLOAD_SIZE 5)).
Proof.
  destruct (write_block_spec (HB := true) demo_env 1 demo_data 9 (repZ PAYLOAD_SIZE 5)
    demo_at demo_in_data (lenZ_repZ _ _)) as (r & e' & d' & ? & ? & _ & _ & _ & _ & ? & _).
  exists r, e', d'. auto.
Defined.

Lemma vault_block_roundtrip_witness :
  exists e' e'', write_block (HB := true) 9 (repZ PAYLOAD_SIZE 5) demo_env = Done (Ok tt) e' /\
    read_block (HB := true) 9 e' = Done (Ok (repZ PAYLOAD_SIZE 5)) e''.
Proof.
  destruct (vault_block_roundtrip (HB := true) demo_env 1 demo_data 9 (repZ PAYLOAD_SIZE 5)
    demo_at demo_healthy demo_in_data (lenZ_repZ _ _)) as (e' & ? & (e'' & ?) & _).
  exists e', e''. auto.
Defined.

Lemma read_block_exact_witness :
  exists r e', read_block (HB := false) 9 demo_env = Done r e' /\ vol_at e' 1 demo_data.
Proof.
  destruct (read_block_exact (HB := false) demo_env 1 demo_data 9 demo_at demo_in_data)
    as (r & e' & ? & ? & _). exists r, e'. auto.
Defined.

Lemma data_block_guard_witness : read_block (HB := true) 8 demo_env = Done (Err InvalidInput) demo_env.
Proof.
  apply (data_block_guard (HB := true) demo_env 8 []). unfold in_data. simpl. vlia.
Defined.
