(* ===== verification/VolumeAlloc.v ===== *)
(** The block allocator of the vault refines a finite set of block numbers. *)
From stdpp Require Import gmap fin_sets.
From S2P Require Import Prelude Effects Crypto StdFs VolumeLayout VirtualVolume VolumeProofs VolumeBlocks.

(** * Specification: a set of allocated blocks *)

Inductive alloc_op := OpAllocate | OpReserve (i : Z) | OpFree (i : Z).

(** The allocator promises: [allocate] takes the least free block, [reserve] is idempotent,
    [free] gives back an allocated block; everything else is an error and changes nothing. *)
Definition spec_step (lo hi : Z) (op : alloc_op) (S : gset Z) : result Z * gset Z :=
  match op with
  | OpAllocate =>
      match List.find (fun i => bool_decide (i ∉ S)) (seqZ lo (hi - lo)) with
      | Some i => (Ok i, {[i]} ∪ S)
      | None => (Err StorageFull, S)
      end
  | OpReserve i =>
      if bool_decide (lo <= i < hi) then (Ok i, {[i]} ∪ S) else (Err InvalidInput, S)
  | OpFree i => if bool_decide (i ∈ S) then (Ok i, S ∖ {[i]}) else (Err InvalidInput, S)
  end.

(** * Abstraction *)

Definition allocated (v : VirtualVolume) : gset Z :=
  list_to_set (filter (fun i => is_alloc (block_bitmap v) (i - DATA_START_BLOCK) = true)
    (seqZ DATA_START_BLOCK (total_blocks v - DATA_START_BLOCK))).

Lemma elem_of_allocated v i :
  i ∈ allocated v <-> in_data v i /\ is_alloc (block_bitmap v) (i - DATA_START_BLOCK) = true.
Proof.
  unfold allocated, in_data. rewrite elem_of_list_to_set, list_elem_of_filter, elem_of_seqZ.
  rewrite Z.add_sub_assoc, Z.add_simpl_l. tauto.
Qed.

(** The free count is what the set leaves of the data region. *)
Lemma free_blocks_size v :
  mem_ok v -> free_blocks v = total_blocks v - DATA_START_BLOCK - Z.of_nat (size (allocated v)).
Proof.
  intros [_ Ht -> _]. unfold count_free, allocated.
  rewrite size_list_to_set by apply NoDup_filter, NoDup_seqZ.
  set (n := total_blocks v - DATA_START_BLOCK) in *.
  pose proof (countb_filter (fun i => is_alloc (block_bitmap v) (i - DATA_START_BLOCK)) (seqZ DATA_START_BLOCK n)) as H.
  unfold lenZ in H. rewrite length_seqZ in H.
  rewrite <- (Z.add_0_r DATA_START_BLOCK), <- fmap_add_seqZ, countb_fmap in H at 1.
  rewrite (countb_ext _ (fun b => negb (is_alloc (block_bitmap v) b))) in H.
  - rewrite Z2Nat.id in H by lia. lia.
  - intros b _. by rewrite Z.add_simpl_l.
Qed.

Lemma find_seqZ_least (p : Z -> bool) lo n i :
  List.find p (seqZ lo n) = Some i ->
  lo <= i < lo + n /\ p i = true /\ forall j, lo <= j < i -> p j = false.
Proof.
  destruct (decide (0 <= n)) as [Hn|]; [|by rewrite seqZ_nil by lia].
  revert lo. pattern n. apply natlike_ind; [by intros lo; rewrite seqZ_nil by lia| |done].
  clear n Hn. intros n Hn IH lo. rewrite seqZ_cons by lia. simpl. destruct (p lo) eqn:E.
  - intros [= <-]. split_and!; [lia..|done|]. lia.
  - rewrite Z.pred_succ. intros (H1 & H2 & H3)%IH. split_and!; [lia..|done|].
    intros j Hj. destruct (decide (j = lo)) as [->|]; [done|]. apply H3. lia.
Qed.

Section alloc.
Context `{HP : Primitives} `{HB : BuildProfile}.

Definition run_alloc (op : alloc_op) : M vol_env (result Z) :=
  match op with
  | OpAllocate => allocate_block
  | OpReserve i => reserve_block i ;;? mret (Ok i)
  | OpFree i => free_block i ;;? mret (Ok i)
  end.

(** What an allocator call may change: the bitmap and the free count in memory, the bitmap
    region on disk. *)
Definition alloc_frame (ino : Z) (d : bytes) (e e' : vol_env) (d' : bytes) : Prop :=
  (exists bm n, e_vol e' = with_bitmap bm n (e_vol e)) /\ vol_at e' ino d' /\
  region_only BLOCK_SIZE (DATA_START_BLOCK * BLOCK_SIZE) d d' /\
  only_changes ino (e_fs e) (e_fs e') /\ e_rng e' = e_rng e.

Lemma alloc_frame_refl ino d e : vol_at e ino d -> alloc_frame ino d e e d.
Proof.
  intros. split_and!; auto with kernel; [|apply region_refl].
  exists (block_bitmap (e_vol e)), (free_blocks (e_vol e)). by destruct e as [? ? []].
Qed.

Lemma alloc_frame_trans ino d d1 d2 e e1 e2 :
  alloc_frame ino d e e1 d1 -> alloc_frame ino d1 e1 e2 d2 -> alloc_frame ino d e e2 d2.
Proof.
  intros ((bm1 & n1 & V1) & A1 & R1 & C1 & G1) ((bm2 & n2 & V2) & A2 & R2 & C2 & G2).
  split_and!; [|done| | |congruence].
  - exists bm2, n2. by rewrite V2, V1.
  - by eapply region_trans.
  - by eapply only_changes_trans.
Qed.

Lemma alloc_frame_healthy ino d e e' d' :
  alloc_frame ino d e e' d' -> healthy e' ino <-> healthy e ino.
Proof.
  intros ((bm & n & V) & _ & _ & (D & _ & _ & _ & _ & L & _) & _). unfold healthy.
  by rewrite V, D, L.
Qed.

Lemma alloc_frame_io ino d e e1 e2 d2 :
  alloc_frame ino d e e1 d ->
  io_step BLOCK_SIZE (DATA_START_BLOCK * BLOCK_SIZE) ino d e1 e2 d2 -> alloc_frame ino d e e2 d2.
Proof.
  intros H1 ([V G] & A & R & C). eapply alloc_frame_trans; [done|]. split_and!; try done.
  exists (block_bitmap (e_vol e1)), (free_blocks (e_vol e1)). rewrite V. by destruct e1 as [? ? []].
Qed.

(** ** The in-memory update *)

Definition set_mem (bm : bytes) (n : Z) (e : vol_env) : vol_env :=
  with_vol (with_bitmap bm n (e_vol e)) e.

Lemma set_mem_frame ino d e bm n :
  vol_at e ino d -> bitmap_ok bm ->
  n = count_free bm (total_blocks (e_vol e) - DATA_START_BLOCK) -> alloc_frame ino d e (set_mem bm n e) d.
Proof.
  intros [[Hb Ht Hf Hk] Ho Hs] Hbm Hn. split_and!; simpl; auto with kernel; [by eexists _, _| |apply region_refl].
  split; [by split|done|done].
Qed.

Lemma wp_update {A} f delta e ino d i bm (k : M vol_env (result A)) Q :
  vol_at e ino d -> in_data (e_vol e) i -> bitmap_ok bm ->
  f (block_bitmap (e_vol e)) (i - DATA_START_BLOCK) = Some bm ->
  count_free bm (total_blocks (e_vol e) - DATA_START_BLOCK) = free_blocks (e_vol e) + delta ->
  wp k Q (set_mem bm (free_blocks (e_vol e) + delta) e) ->
  wp (mark f (i - DATA_START_BLOCK);; add_free delta;; k) Q e.
Proof.
  intros Hv Hi Hbm Hf Hn Hk. pose proof (vol_mem _ _ _ Hv) as Hm. destruct (mem_total _ Hm) as [T1 T2].
  apply wp_bind. unfold mark. apply wp_bind. cbn. rewrite Hf. apply wp_bind. cbn.
  apply wp_bind. unfold add_free. apply wp_bind. cbn. apply wp_bind, wp_chk_u; [|done].
  rewrite <- Hn. pose proof (count_free_bounds bm (total_blocks (e_vol e) - DATA_START_BLOCK)).
  unfold is_u. vlia.
Qed.

Lemma bit_index e ino d i :
  vol_at e ino d -> in_data (e_vol e) i -> 0 <= i - DATA_START_BLOCK < MAX_DATA_BLOCKS.
Proof. intros [Hm _ _] [H1 H2]. destruct (mem_total _ Hm). vlia. Qed.

Lemma unwrap_free e ino d i :
  vol_at e ino d -> in_data (e_vol e) i ->
  bit_is_free (block_bitmap (e_vol e)) (i - DATA_START_BLOCK) =
    Some (bool_decide (i ∉ allocated (e_vol e))).
Proof.
  intros Hv Hi. pose proof (vol_mem _ _ _ Hv) as Hm.
  rewrite bit_is_free_eq by (apply Hm || by eapply bit_index).
  f_equal. pose proof (elem_of_allocated (e_vol e) i) as Ha.
  destruct (is_alloc _ _) eqn:E; symmetry.
  - apply bool_decide_eq_false. tauto.
  - apply bool_decide_eq_true. intros [_ ?]%Ha. congruence.
Qed.

(** The two bitmaps differ in at most one byte. *)
Definition one_byte (bm bm' : bytes) : Prop := exists b, forall j, j <> b -> nthZ bm' j = nthZ bm j.

Lemma one_byte_refl bm : one_byte bm bm.
Proof. by exists 0. Qed.
Lemma bit_set_one bm i bm' : 0 <= i -> bit_set bm i = Some bm' -> one_byte bm bm'.
Proof.
  unfold bit_set. rewrite bit_byte_eq. intros Hi (b & _ & [= <-])%bind_Some. exists (i / 8). intros j Hj.
  apply nthZ_setZ_ne; [apply Z.div_pos; lia|done].
Qed.
Lemma bit_clear_one bm i bm' : 0 <= i -> bit_clear bm i = Some bm' -> one_byte bm bm'.
Proof.
  unfold bit_clear. rewrite bit_byte_eq. intros Hi (b & _ & [= <-])%bind_Some. exists (i / 8). intros j Hj.
  apply nthZ_setZ_ne; [apply Z.div_pos; lia|done].
Qed.

(** Taking a free block and releasing an allocated one, up to the bitmap write. *)
Lemma wp_take {A} e ino d i (k : M vol_env (result A)) Q :
  vol_at e ino d -> in_data (e_vol e) i -> i ∉ allocated (e_vol e) ->
  (forall e', alloc_frame ino d e e' d -> allocated (e_vol e') = {[i]} ∪ allocated (e_vol e) ->
     one_byte (block_bitmap (e_vol e)) (block_bitmap (e_vol e')) -> wp k Q e') ->
  wp (mark bit_set (i - DATA_START_BLOCK);; add_free (-1);; k) Q e.
Proof.
  intros Hv Hi Hna Hk. pose proof (vol_mem _ _ _ Hv) as Hm. pose proof (bit_index _ _ _ _ Hv Hi).
  destruct (bit_set_spec (block_bitmap (e_vol e)) (i - DATA_START_BLOCK)) as (bm & E & [Hbl Hbb] & Ha);
    [apply Hm|done|].
  assert (bitmap_ok bm) as Hbm by (split; [done|apply Hbb, Hm]).
  assert (is_alloc (block_bitmap (e_vol e)) (i - DATA_START_BLOCK) = false) as Hfree.
  { destruct (is_alloc _ _) eqn:Ei; [|done]. destruct Hna. by apply elem_of_allocated. }
  assert (count_free bm (total_blocks (e_vol e) - DATA_START_BLOCK) = free_blocks (e_vol e) + -1) as Hn.
  { rewrite (mem_free _ Hm). rewrite (count_free_set (block_bitmap (e_vol e)) bm _ (i - DATA_START_BLOCK)); [lia| |done..].
    destruct Hi. lia. }
  apply (wp_update bit_set (-1) e ino d i bm); [done..|].
  apply Hk; [by apply set_mem_frame| |by eapply bit_set_one; [|exact E]; lia].
  apply set_eq. intros j. rewrite elem_of_union, elem_of_singleton, !elem_of_allocated. simpl.
  unfold in_data in *. simpl. rewrite Ha. destruct (Z.eqb_spec (i - DATA_START_BLOCK) (j - DATA_START_BLOCK)).
  - assert (i = j) as <- by lia. tauto.
  - assert (i <> j) by lia. simpl. intuition congruence.
Qed.

Lemma wp_release {A} e ino d i (k : M vol_env (result A)) Q :
  vol_at e ino d -> i ∈ allocated (e_vol e) ->
  (forall e', alloc_frame ino d e e' d -> allocated (e_vol e') = allocated (e_vol e) ∖ {[i]} ->
     one_byte (block_bitmap (e_vol e)) (block_bitmap (e_vol e')) -> wp k Q e') ->
  wp (mark bit_clear (i - DATA_START_BLOCK);; add_free 1;; k) Q e.
Proof.
  intros Hv [Hi Hal]%elem_of_allocated Hk. pose proof (vol_mem _ _ _ Hv) as Hm.
  pose proof (bit_index _ _ _ _ Hv Hi).
  destruct (bit_clear_spec (block_bitmap (e_vol e)) (i - DATA_START_BLOCK)) as (bm & E & [Hbl Hbb] & Ha);
    [apply Hm|done|].
  assert (bitmap_ok bm) as Hbm by (split; [done|apply Hbb, Hm]).
  assert (count_free bm (total_blocks (e_vol e) - DATA_START_BLOCK) = free_blocks (e_vol e) + 1) as Hn.
  { rewrite (mem_free _ Hm). apply (count_free_clear _ bm _ (i - DATA_START_BLOCK)); [|done..].
    destruct Hi. lia. }
  apply (wp_update bit_clear 1 e ino d i bm); [done..|].
  apply Hk; [by apply set_mem_frame| |by eapply bit_clear_one; [|exact E]; lia].
  apply set_eq. intros j. rewrite elem_of_difference, elem_of_singleton, !elem_of_allocated. simpl.
  unfold in_data in *. simpl. rewrite Ha. destruct (Z.eqb_spec (i - DATA_START_BLOCK) (j - DATA_START_BLOCK)).
  - assert (i = j) as <- by lia. simpl. intuition congruence.
  - assert (i <> j) by lia. simpl. intuition congruence.
Qed.

(** ** The three calls against the specification *)

Definition spec_of (e : vol_env) (op : alloc_op) : result Z * gset Z :=
  spec_step DATA_START_BLOCK (total_blocks (e_vol e)) op (allocated (e_vol e)).

(** The call gave the answer of the specification, or failed in the bitmap write after the
    in-memory change; either way memory holds the specification's set.  When it succeeded
    and changed the set, or found the disk up to date, the disk is up to date.  At most one
    byte of the bitmap in memory changed, and the disk has it up to some byte. *)
Definition refines (op : alloc_op) (ino : Z) (d : bytes) (e : vol_env) (r : result Z)
    (e' : vol_env) : Prop :=
  exists d', alloc_frame ino d e e' d' /\ allocated (e_vol e') = (spec_of e op).2 /\
    (r = (spec_of e op).1 \/ io_failed r e ino /\ is_ok (spec_of e op).1 = true) /\
    (is_ok (spec_of e op).1 = false -> e' = e) /\
    (is_ok r = true -> synced e d \/ allocated (e_vol e') <> allocated (e_vol e) -> synced e' d') /\
    one_byte (block_bitmap (e_vol e)) (block_bitmap (e_vol e')) /\
    torn (BITMAP_START_BLOCK * BLOCK_SIZE) (block_bitmap (e_vol e')) d d'.

Lemma refines_unchanged op ino d e r :
  vol_at e ino d -> spec_of e op = (r, allocated (e_vol e)) -> refines op ino d e r e.
Proof.
  intros Hv E. pose proof (vol_len_min _ _ _ Hv). exists d. rewrite E.
  split_and!; auto using alloc_frame_refl, one_byte_refl; [by intros _ [?|[]]|]. apply torn_none. vlia.
Qed.

(** The tail of every call: persist the bitmap, then report [i]. *)
Lemma wp_persist op ino d e e1 i S' :
  alloc_frame ino d e e1 d -> allocated (e_vol e1) = S' -> one_byte (block_bitmap (e_vol e)) (block_bitmap (e_vol e1)) ->
  spec_of e op = (Ok i, S') ->
  wp write_bitmap (fun r e' => wp (try_bind (fun _ => mret (Ok i)) r) (refines op ino d e) e') e1.
Proof.
  intros Hf <- Hone E. apply (wp_write_bitmap e1 ino d); [by apply Hf|].
  intros r e2 d2 Hs Htorn Hsync Hh. pose proof (alloc_frame_io _ _ _ _ _ _ Hf Hs) as Hf2.
  assert (e_vol e2 = e_vol e1) as Ev by apply Hs. rewrite <- Ev in *.
  assert (allocated (e_vol e2) = allocated (e_vol e1)) as Ha by (by rewrite Ev).
  apply wp_try.
  - intros [] ->. apply wp_ret. exists d2. rewrite E. split_and!; auto. done.
  - intros err ->. exists d2. rewrite E. split_and!; [done..| |done|done|done|done]. right. split; [|done].
    split; [by eexists|]. rewrite <- (alloc_frame_healthy _ _ _ _ _ Hf). intros Hok.
    by specialize (Hh Hok).
Qed.

Lemma wp_reserve e ino d i : vol_at e ino d -> wp (run_alloc (OpReserve i)) (refines (OpReserve i) ino d e) e.
Proof.
  intros Hv. apply wp_bind. unfold reserve_block. destruct (decide (in_data (e_vol e) i)) as [Hi|Hi].
  - apply wp_checked; [done|]. apply wp_bind. cbn.
    assert (spec_of e (OpReserve i) = (Ok i, {[i]} ∪ allocated (e_vol e))) as Hspec.
    { unfold spec_of. simpl. by rewrite bool_decide_eq_true_2. }
    rewrite (unwrap_free _ _ _ _ Hv Hi). apply wp_bind. cbn.
    case_bool_decide as Ha; simpl.
    + apply (wp_take e ino d i); [done..|]. intros e1 Hf1 Ha1 Hone.
      by eapply wp_persist.
    + apply wp_ret. simpl. apply wp_ret. apply refines_unchanged; [done|]. rewrite Hspec. f_equal.
      by apply subseteq_union_1_L, singleton_subseteq_l.
  - apply wp_bind. eapply wp_done; [by apply check_data_block_err|]. apply wp_ret. simpl. apply wp_ret.
    apply refines_unchanged; [done|]. unfold spec_of. simpl. by rewrite bool_decide_eq_false_2.
Qed.

Lemma wp_free e ino d i : vol_at e ino d -> wp (run_alloc (OpFree i)) (refines (OpFree i) ino d e) e.
Proof.
  intros Hv. apply wp_bind. unfold free_block.
  assert (i ∉ allocated (e_vol e) -> spec_of e (OpFree i) = (Err InvalidInput, allocated (e_vol e))) as Hno.
  { intros. unfold spec_of. simpl. by rewrite bool_decide_eq_false_2. }
  destruct (decide (in_data (e_vol e) i)) as [Hi|Hi].
  - apply wp_checked; [done|]. apply wp_bind. cbn.
    rewrite (unwrap_free _ _ _ _ Hv Hi). apply wp_bind. cbn.
    case_bool_decide as Ha; simpl.
    + apply wp_ret. simpl. apply wp_ret. apply refines_unchanged; auto.
    + apply (wp_release e ino d i); [done..|]. intros e1 Hf1 Ha1 Hone.
      apply wp_bind. eapply wp_mono; [eapply (wp_persist (OpFree i)); [done..|]|].
      { unfold spec_of. simpl. by rewrite bool_decide_eq_true_2. }
      by intros [[]|] e2.
  - apply wp_bind. eapply wp_done; [by apply check_data_block_err|]. apply wp_ret. simpl. apply wp_ret.
    apply refines_unchanged; [done|]. apply Hno. by intros [? _]%elem_of_allocated.
Qed.

Lemma find_seqZ_shift (p : Z -> bool) lo n :
  List.find p (seqZ lo n) = Z.add lo <$> List.find (fun b => p (lo + b)) (seqZ 0 n).
Proof.
  replace (seqZ lo n) with (Z.add lo <$> seqZ 0 n) by (rewrite fmap_add_seqZ; f_equal; lia).
  induction (seqZ 0 n) as [|b l IH]; [done|]. simpl. by destruct (p (lo + b)).
Qed.

Lemma wp_scan e ino d idxs Q :
  vol_at e ino d -> (forall b, b ∈ idxs -> in_data (e_vol e) (DATA_START_BLOCK + b)) ->
  (List.find (fun b => bool_decide (DATA_START_BLOCK + b ∉ allocated (e_vol e))) idxs = None ->
     Q (Err StorageFull) e) ->
  (forall b e1,
     List.find (fun b => bool_decide (DATA_START_BLOCK + b ∉ allocated (e_vol e))) idxs = Some b ->
     alloc_frame ino d e e1 d ->
     allocated (e_vol e1) = {[DATA_START_BLOCK + b]} ∪ allocated (e_vol e) ->
     one_byte (block_bitmap (e_vol e)) (block_bitmap (e_vol e1)) ->
     wp (write_bitmap ;;? mret (Ok (DATA_START_BLOCK + b))) Q e1) ->
  wp (allocate_scan idxs) Q e.
Proof.
  intros Hv Hidx Hnone Hsome. induction idxs as [|b idxs IH]; [by apply wp_ret, Hnone|].
  assert (in_data (e_vol e) (DATA_START_BLOCK + b)) as Hb by (apply Hidx; by left).
  simpl. apply wp_bind. cbn. simpl in Hnone, Hsome.
  pose proof (unwrap_free _ _ _ _ Hv Hb) as Hfree. rewrite Z.add_simpl_l in Hfree. rewrite Hfree.
  apply wp_bind. cbn. case_bool_decide as Ha.
  - pose proof (fun K : M vol_env (result Z) => wp_take e ino d (DATA_START_BLOCK + b) K Q Hv Hb Ha) as Ht.
    rewrite Z.add_simpl_l in Ht. apply Ht. intros e1 Hf1 Ha1 Hone. by apply Hsome.
  - apply IH; [|done..]. intros c Hc. apply Hidx. by right.
Qed.

Lemma full_spec e ino d :
  vol_at e ino d -> free_blocks (e_vol e) = 0 ->
  spec_of e OpAllocate = (Err StorageFull, allocated (e_vol e)).
Proof.
  intros [Hm _ _] Hz. rewrite (mem_free _ Hm) in Hz. unfold spec_of, spec_step.
  destruct (List.find _ _) as [i|] eqn:E; [|done]. exfalso.
  apply List.find_some in E as [Hin%list_elem_of_In%elem_of_seqZ Hna%bool_decide_eq_true_1].
  assert (i - DATA_START_BLOCK ∈ seqZ 0 (total_blocks (e_vol e) - DATA_START_BLOCK)) as Hb.
  { apply elem_of_seqZ. lia. }
  apply (countb_zero _ _ _ Hz), negb_false_iff in Hb. destruct Hna. apply elem_of_allocated.
  split; [|done]. unfold in_data. lia.
Qed.

Lemma wp_allocate e ino d : vol_at e ino d -> wp (run_alloc OpAllocate) (refines OpAllocate ino d e) e.
Proof.
  intros Hv. pose proof (vol_mem _ _ _ Hv) as Hm. destruct (mem_total _ Hm) as [T1 T2].
  unfold run_alloc, allocate_block. apply wp_bind. cbn.
  destruct (Z.eqb_spec (free_blocks (e_vol e)) 0) as [Hz|Hz].
  { apply wp_ret, refines_unchanged; [done|]. by eapply full_spec. }
  apply wp_bind, wp_chk_u; [unfold is_u; vlia|].
  assert (forall o, List.find (fun b => bool_decide (DATA_START_BLOCK + b ∉ allocated (e_vol e)))
      (seqZ 0 (total_blocks (e_vol e) - DATA_START_BLOCK)) = o ->
    spec_of e OpAllocate = match o with
      | Some b => (Ok (DATA_START_BLOCK + b), {[DATA_START_BLOCK + b]} ∪ allocated (e_vol e))
      | None => (Err StorageFull, allocated (e_vol e)) end) as Hspec.
  { intros o E. unfold spec_of, spec_step. rewrite find_seqZ_shift, E. by destruct o. }
  apply (wp_scan e ino d); [done| | |].
  - intros b Hb%elem_of_seqZ. unfold in_data. lia.
  - intros E%Hspec. by apply refines_unchanged.
  - intros b e1 E%Hspec Hf1 Ha1 Hone. apply wp_bind. by eapply wp_persist.
Qed.

Lemma wp_run_alloc op e ino d : vol_at e ino d -> wp (run_alloc op) (refines op ino d e) e.
Proof. destruct op; eauto using wp_allocate, wp_reserve, wp_free. Qed.

(** ** Sequences of calls *)

Fixpoint run_allocs (ops : list alloc_op) : M vol_env (list (result Z)) :=
  match ops with
  | [] => mret []
  | op :: ops => r ← run_alloc op; rs ← run_allocs ops; mret (r :: rs)
  end.
Fixpoint spec_steps (lo hi : Z) (ops : list alloc_op) (S : gset Z) : list (result Z) * gset Z :=
  match ops with
  | [] => ([], S)
  | op :: ops =>
      let '(r, T) := spec_step lo hi op S in
      let '(rs, U) := spec_steps lo hi ops T in (r :: rs, U)
  end.

(** [C10] The allocator implements its specification: for any sequence of allocate,
    reserve and free calls on a live volume and any I/O errors, no call panics, the
    volume's invariant holds at the end, the bitmap in memory denotes exactly the set the
    specification computes, every answer is the specification's or an I/O error where the
    specification succeeds, and only the bitmap region of the file has changed.  On a
    healthy file system the answers are exactly the specification's. *)
Theorem allocator_refines ops e ino d :
  vol_at e ino d ->
  let spec := spec_steps DATA_START_BLOCK (total_blocks (e_vol e)) ops (allocated (e_vol e)) in
  exists rs e' d', run_allocs ops e = Done rs e' /\ alloc_frame ino d e e' d' /\
    allocated (e_vol e') = spec.2 /\
    Forall2 (fun r s => r = s \/ (exists err, r = Err err) /\ is_ok s = true) rs spec.1 /\
    (healthy e ino -> rs = spec.1).
Proof.
  revert e d. induction ops as [|op ops IH]; intros e d Hv.
  { exists [], e, d. split_and!; auto using alloc_frame_refl. }
  pose proof (wp_run_alloc op e ino d Hv) as (r & e1 & E & d1 & Hf1 & Ha1 & Hr & _)%wp_inv.
  destruct (IH e1 d1) as (rs & e2 & d2 & E2 & Hf2 & Ha2 & Hrs & Hh); [by apply Hf1|].
  exists (r :: rs), e2, d2. unfold spec_of in *.
  assert (total_blocks (e_vol e1) = total_blocks (e_vol e)) as Ht.
  { by destruct Hf1 as ((? & ? & ->) & _). }
  rewrite Ht, Ha1 in *. simpl.
  destruct (spec_step _ _ op _) as [s S1]. simpl in *. destruct (spec_steps _ _ ops S1) as [ss S2]. simpl in *.
  split_and!; [| |done| |].
  - unfold mbind, M_bind. by rewrite E, E2.
  - by eapply alloc_frame_trans.
  - constructor; [|done]. destruct Hr as [->|[[? _] ?]]; auto.
  - intros Hok. rewrite Hh by (by apply (alloc_frame_healthy _ _ _ _ _ Hf1)).
    by destruct Hr as [->|[[_ Hbad] _]].
Qed.

(** [allocate_block] under any I/O errors: a block it returns was free, is the lowest
    free data block, is allocated afterwards with one free block less, and is marked in the
    bitmap on disk; with no free block it reports [StorageFull] and changes nothing; with
    one, and no I/O errors, it succeeds. *)
Theorem allocate_block_least e ino d :
  vol_at e ino d ->
  exists r e' d', allocate_block e = Done r e' /\ vol_at e' ino d' /\
    (forall i, r = Ok i -> in_data (e_vol e) i /\ (i ∉ allocated (e_vol e)) /\
       (forall j, in_data (e_vol e) j -> j < i -> j ∈ allocated (e_vol e)) /\
       allocated (e_vol e') = {[i]} ∪ allocated (e_vol e) /\
       free_blocks (e_vol e') = free_blocks (e_vol e) - 1 /\
       disk_bitmap d' = block_bitmap (e_vol e')) /\
    (free_blocks (e_vol e) = 0 -> r = Err StorageFull /\ e' = e) /\
    (0 < free_blocks (e_vol e) -> healthy e ino -> is_ok r = true).
Proof.
  intros Hv. pose proof (wp_allocate e ino d Hv) as (r & e' & E & d' & Hf & Ha & Hr & Hsame & Hsync & _)%wp_inv.
  exists r, e', d'. pose proof (free_blocks_size _ (vol_mem _ _ _ Hv)) as Hn.
  assert (vol_at e' ino d') as Hv' by apply Hf.
  pose proof (free_blocks_size _ (vol_mem _ _ _ Hv')) as Hn'.
  assert (total_blocks (e_vol e') = total_blocks (e_vol e)) as Ht by (by destruct Hf as ((? & ? & ->) & _)).
  split_and!; [done|done| | |].
  - intros i ->. destruct Hr as [Hr|[[[? [=]] _] _]]. unfold spec_of, spec_step in *.
    destruct (List.find _ _) as [i'|] eqn:Ei; [|done]. injection Hr as <-. simpl in *.
    apply find_seqZ_least in Ei as (Hi & Hna%bool_decide_eq_true_1 & Hleast).
    assert (allocated (e_vol e') <> allocated (e_vol e)) as Hne.
    { intros Heq. apply Hna. rewrite <- Heq, Ha. by apply elem_of_union_l, elem_of_singleton_2. }
    split_and!; [unfold in_data; lia|done| |done| |by apply Hsync; [|right]].
    + intros j [Hj _] Hlt. specialize (Hleast j). rewrite bool_decide_eq_false in Hleast.
      apply dec_stable, Hleast. lia.
    + rewrite Hn, Hn', Ht, Ha, size_union, size_singleton by (by apply disjoint_singleton_l). lia.
  - intros Hz. rewrite (full_spec _ _ _ Hv Hz) in *. destruct Hr as [->|[_ [=]]]. auto.
  - intros Hpos Hh. destruct Hr as [->|[[_ Hbad] _]]; [|done].
    unfold spec_of, spec_step. destruct (List.find _ _) as [i'|] eqn:Ei; [done|]. exfalso.
    rewrite (mem_free _ (vol_mem _ _ _ Hv)) in Hpos. apply countb_pos in Hpos as (b & Hb%elem_of_seqZ & Hfree).
    apply List.find_none with (x := DATA_START_BLOCK + b) in Ei;
      [|apply list_elem_of_In, elem_of_seqZ; lia].
    apply bool_decide_eq_false, dec_stable, elem_of_allocated in Ei as [_ Ei].
    rewrite Z.add_simpl_l in Ei. by rewrite Ei in Hfree.
Qed.
End alloc.

Lemma allocator_refines_witness :
  exists rs e' d', run_allocs (HB := true) [OpAllocate; OpAllocate; OpFree 9; OpFree 9] demo_env = Done rs e' /\
    alloc_frame 1 demo_data demo_env e' d'.
Proof.
  destruct (allocator_refines (HB := true) [OpAllocate; OpAllocate; OpFree 9; OpFree 9] demo_env 1 demo_data demo_at)
    as (rs & e' & d' & ? & ? & _). exists rs, e', d'. auto.
Defined.

Lemma allocate_block_least_witness :
  exists r e', allocate_block (HB := true) demo_env = Done r e' /\ is_ok r = true.
Proof.
  destruct (allocate_block_least (HB := true) demo_env 1 demo_data demo_at)
    as (r & e' & d' & ? & _ & _ & _ & Hok).
  exists r, e'. split; [done|]. apply Hok; [reflexivity|exact demo_healthy].
Defined.
