(* ===== verification/VolumeOpen.v ===== *)
(** Opening a vault: [open_existing], [create_new], [open_or_create] and what survives
    closing and reopening. *)
From stdpp Require Import gmap.
From S2P Require Import Prelude Effects Crypto StdFs VolumeLayout VirtualVolume VolumeProofs VolumeBlocks.

(** * Opening a path *)

(** No fault is scheduled. *)
Definition quiet (s : fs) : Prop := forall t, faults s t = None.

(** [fd] was opened on [ino] and read from; no contents changed. *)
Definition opened (fd ino : Z) (s s' : fs) : Prop :=
  dir s' = dir s /\ (forall i, data_of s' i = data_of s i) /\ next_id s' = next_id s + 1 /\
  clock s' = clock s /\ faults s' = faults s /\ ino_of s' fd = Some ino /\
  (forall fd', fd' <> fd -> ino_of s' fd' = ino_of s fd').

(** The call left no trace but in the timestamps and the identifier counter. *)
Definition untouched (s s' : fs) : Prop :=
  dir s' = dir s /\ (forall i, data_of s' i = data_of s i) /\ faults s' = faults s /\
  (forall fd', fd' <> next_id s -> ino_of s' fd' = ino_of s fd').

Lemma opened_step fd ino s s1 s2 d :
  opened fd ino s s1 -> data_of s ino = Some d -> only_changes ino s1 s2 -> open_on s2 fd ino d ->
  opened fd ino s s2.
Proof.
  intros (D & I & N & C & L & F & O) Hd (D' & F' & I' & N' & C' & L' & T') [H1 H2].
  split_and!; try congruence.
  - intros i. destruct (decide (i = ino)) as [->|]; [congruence|]. by rewrite I', I.
  - intros fd' Hne. by rewrite F', O.
Qed.

Lemma opened_close fd ino s s' :
  opened fd ino s s' -> fd = next_id s -> untouched s (with_fds (delete fd (fds s')) s').
Proof.
  intros (D & I & N & C & L & F & O) ->. split_and!; try done. intros fd' Hne. rewrite <- O by done.
  unfold ino_of. simpl. by rewrite lookup_delete_ne.
Qed.

Lemma opened_open fd ino s s' d : opened fd ino s s' -> data_of s ino = Some d -> open_on s' fd ino d.
Proof. intros (D & I & N & C & L & F & O) Hd. split; [done|]. by rewrite I. Qed.

Lemma wp_open_rw path s ino d (Q : result Z -> fs -> Prop) :
  dir s !! path = Some ino -> data_of s ino = Some d -> has_nul path = false ->
  (forall s', opened (next_id s) ino s s' -> Q (Ok (next_id s)) s') ->
  (forall s', ~ quiet s -> untouched s s' -> Q (Err OsFault) s') ->
  wp (open_rw path) Q s.
Proof.
  intros Hd Hi Hn HOk HErr. apply wp_on_path.
  - congruence.
  - intros [k E]. apply HErr; [|by split_and!]. intros H. by rewrite H in E.
  - intros _. unfold wp. simpl. rewrite Hd. apply HOk. split_and!; try done; unfold ino_of; simpl.
    + by rewrite lookup_insert_eq.
    + intros fd' Hne. by rewrite lookup_insert_ne.
Qed.

(** [or_close] hands the open file on, or closes it. *)
Lemma wp_or_close {A} fd (m : M fs (result A)) Q s :
  wp m (fun r s' => match r with
        | Ok a => Q (Ok a) s'
        | Err e => Q (Err e) (with_fds (delete fd (fds s')) s') end) s ->
  wp (or_close fd m) Q s.
Proof.
  intros H. apply wp_bind. eapply wp_mono; [done|]. intros [a|e] s' HQ; [by apply wp_ret|].
  by apply wp_bind.
Qed.

Section recounting.
Context `{HB : BuildProfile}.

Lemma wp_recount_list bm l acc (Q : Z -> fs -> Prop) s :
  lenZ bm = BITMAP_BYTES -> (forall i, i ∈ l -> 0 <= i < MAX_DATA_BLOCKS) ->
  0 <= acc -> acc + lenZ l < 2 ^ 64 ->
  Q (acc + countb (fun i => negb (is_alloc bm i)) l) s -> wp (recount bm l acc) Q s.
Proof.
  intros Hbm. revert acc. induction l as [|i l IH]; intros acc Hr Ha Hu HQ; cbn [recount countb] in *.
  { rewrite Z.add_0_r in HQ. by apply wp_ret. }
  rewrite lenZ_cons in Hu. pose proof (lenZ_nonneg l). rewrite Z.add_assoc in HQ.
  rewrite bit_is_free_eq by (done || apply Hr; by left). apply wp_bind. cbn.
  destruct (is_alloc bm i); simpl in *.
  - apply wp_bind, wp_ret, IH; [intros; apply Hr; by right|lia..|by rewrite Z.add_0_r in HQ].
  - apply wp_bind, wp_chk_u; [unfold is_u; lia|].
    apply IH; [intros; apply Hr; by right|lia..|done].
Qed.

Lemma wp_recount bm n (Q : Z -> fs -> Prop) s :
  lenZ bm = BITMAP_BYTES -> 0 <= n <= MAX_DATA_BLOCKS -> Q (count_free bm n) s ->
  wp (recount bm (seqZ 0 n) 0) Q s.
Proof.
  intros Hbm Hn HQ. apply wp_recount_list; [done| |done| |by rewrite Z.add_0_l].
  - intros i Hi%elem_of_seqZ. lia.
  - unfold lenZ. rewrite length_seqZ. vlia.
Qed.
End recounting.

Section opening.
Context `{HP : Primitives} `{HB : BuildProfile}.

(** ** Straight-line code on the freshly opened file *)
Section straight.
Context (s0 : fs) (ino : Z) (d : bytes) (Hd : data_of s0 ino = Some d).
Abbreviation fd := (next_id s0).
Context {A : Type} (Q : result A -> fs -> Prop).
Context (HErr : forall s', ~ quiet s0 -> opened fd ino s0 s' -> Q (Err OsFault) s').

Lemma op_faulty s : opened fd ino s0 s -> faulty s -> ~ quiet s0.
Proof. intros (_ & _ & _ & _ & L & _) [k E] H. by rewrite L, H in E. Qed.

Lemma op_seek s off k :
  opened fd ino s0 s ->
  (forall s', opened fd ino s0 s' -> fds s' !! fd = Some (ino, off) -> wp k Q s') ->
  wp (seek fd off ;;? k) Q s.
Proof using HErr Hd.
  intros Ho Hk. pose proof (opened_open _ _ _ _ _ Ho Hd) as Hop. apply wp_bind.
  apply (wp_seek fd ino off s d); [done| |].
  - intros nd s' -> Hnd Hdn. apply wp_try; [|done]. intros ? _. apply Hk; [|apply fd_update_pos].
    destruct Hop as [Hi _]. eapply opened_step; [done..|by apply fd_update_only|].
    subst d. by apply fd_update_open.
  - intros s' Hf Hc Ho'. apply wp_try; [done|]. intros ? [= <-].
    apply HErr; [by apply (op_faulty s)|by eapply opened_step].
Qed.

Lemma op_read s pos n k :
  opened fd ino s0 s -> fds s !! fd = Some (ino, pos) -> 0 <= pos ->
  (pos + n <= lenZ d -> forall s', opened fd ino s0 s' -> wp (k (slice pos (pos + n) d)) Q s') ->
  (lenZ d < pos + n -> forall s', opened fd ino s0 s' -> Q (Err UnexpectedEof) s') ->
  wp (raw <-? read_exact fd n; k raw) Q s.
Proof using HErr Hd.
  intros Ho Hp H0 Hk Hshort. pose proof (opened_open _ _ _ _ _ Ho Hd) as Hop. apply wp_bind.
  apply (wp_read_exact fd ino n s pos d); [done|done|apply Hop| |].
  - intros s' Hl Hc Ho'. apply wp_try; [|done]. intros ? [= <-].
    apply Hk; [done|by eapply opened_step].
  - intros e s' Hwhy Hc Ho'. apply wp_try; [done|]. intros ? [= <-].
    assert (opened fd ino s0 s') by (by eapply opened_step).
    destruct Hwhy as [[-> Hf]|[-> Hl]]; [apply HErr; [by apply (op_faulty s)|done]|by apply Hshort].
Qed.
End straight.

(** What [open_existing] accepts. *)
Record good_vault (key d : bytes) (sb : SuperblockInfo) : Prop := {
  good_len : DATA_START_BLOCK * BLOCK_SIZE <= lenZ d;
  good_super : read_superblock (slice 0 BLOCK_SIZE d) = Some sb;
  good_key : master_key_hash sb = hash_master_key key;
  good_total : DATA_START_BLOCK <= sb_total_blocks sb <= DATA_START_BLOCK + MAX_DATA_BLOCKS;
}.

(** The volume it then returns. *)
Definition opened_volume (fd : Z) (path : string) (key d : bytes) (sb : SuperblockInfo) : VirtualVolume :=
  Volume fd key (sb_total_blocks sb)
    (count_free (disk_bitmap d) (sb_total_blocks sb - DATA_START_BLOCK)) (disk_bitmap d) path 0.

Lemma disk_bitmap_ok d :
  DATA_START_BLOCK * BLOCK_SIZE <= lenZ d -> is_bytes (disk_bitmap d) -> bitmap_ok (disk_bitmap d).
Proof.
  intros Hl Hb. split; [|done].
  unfold disk_bitmap. rewrite lenZ_slice; vlia.
Qed.

(** The error of the first check of a list that fails. *)
Fixpoint first_failure (checks : list (bool * io_kind)) : option io_kind :=
  match checks with
  | [] => None
  | (true, _) :: checks => first_failure checks
  | (false, err) :: _ => Some err
  end.

(** The checks that opening a file with contents [d] makes, in the order it makes them: the
    superblock is there, it has the magic, the key is the one of the file, the bitmap is
    there, the block count is in range. *)
Definition open_checks (key d : bytes) : list (bool * io_kind) :=
  let sb := read_superblock (slice 0 BLOCK_SIZE d) in
  let holds (P : SuperblockInfo -> bool) := match sb with Some sb => P sb | None => false end in
  [(BLOCK_SIZE <=? lenZ d, UnexpectedEof);
   (holds (fun _ => true), InvalidData);
   (holds (fun sb => bool_decide (master_key_hash sb = hash_master_key key)), PermissionDenied);
   (DATA_START_BLOCK * BLOCK_SIZE <=? lenZ d, UnexpectedEof);
   (holds (fun sb => (DATA_START_BLOCK <=? sb_total_blocks sb) &&
      (sb_total_blocks sb <=? DATA_START_BLOCK + MAX_DATA_BLOCKS)), InvalidData)].

(** The answer of [open_existing] on a file holding [d] when no system call fails: the error
    of the first check that fails, or the volume. *)
Definition open_answer (fd : Z) (path : string) (key d : bytes) (r : result VirtualVolume) : Prop :=
  match first_failure (open_checks key d) with
  | Some err => r = Err err
  | None => exists sb, good_vault key d sb /\ r = Ok (opened_volume fd path key d sb)
  end.

(** A file that passes every check is a good one, and the other way round. *)
Lemma open_checks_good key d : first_failure (open_checks key d) = None <-> exists sb, good_vault key d sb.
Proof.
  split.
  - unfold open_checks. cbn [first_failure]. destruct (Z.leb_spec BLOCK_SIZE (lenZ d)); [|done].
    destruct (read_superblock _) as [sb|] eqn:Esb; [|done]. case_bool_decide; [|done].
    destruct (Z.leb_spec (DATA_START_BLOCK * BLOCK_SIZE) (lenZ d)); [|done].
    destruct (Z.leb_spec DATA_START_BLOCK (sb_total_blocks sb)); [|done].
    destruct (Z.leb_spec (sb_total_blocks sb) (DATA_START_BLOCK + MAX_DATA_BLOCKS)); [|done].
    intros _. exists sb. by split.
  - intros (sb & [Hl Hs Hk Ht]). unfold open_checks. cbn [first_failure]. rewrite Hs, bool_decide_true by done.
    rewrite !(proj2 (Z.leb_le _ _)) by vlia. done.
Qed.

(** The answer on a file that is long enough. *)
Lemma open_answer_view fd path key d r :
  open_answer fd path key d r -> DATA_START_BLOCK * BLOCK_SIZE <= lenZ d ->
  match read_superblock (slice 0 BLOCK_SIZE d) with
  | None => r = Err InvalidData
  | Some sb => master_key_hash sb <> hash_master_key key /\ r = Err PermissionDenied \/
      master_key_hash sb = hash_master_key key /\ r = Err InvalidData /\
        ~ DATA_START_BLOCK <= sb_total_blocks sb <= DATA_START_BLOCK + MAX_DATA_BLOCKS \/
      master_key_hash sb = hash_master_key key /\ r = Ok (opened_volume fd path key d sb)
  end.
Proof.
  unfold open_answer, open_checks. cbn [first_failure]. intros Ha Hl.
  rewrite !(proj2 (Z.leb_le _ (lenZ d))) in Ha by vlia. revert Ha.
  destruct (read_superblock _) as [sb|] eqn:Esb; [|done]. case_bool_decide; [|by auto].
  destruct (Z.leb_spec DATA_START_BLOCK (sb_total_blocks sb)),
    (Z.leb_spec (sb_total_blocks sb) (DATA_START_BLOCK + MAX_DATA_BLOCKS)); cbn [andb];
    try (intros ->; right; left; split_and!; [done..|lia]).
  intros (sb' & [_ Hs _ _] & ->). assert (sb' = sb) as -> by congruence. auto.
Qed.

(** What [open_existing] guarantees of its answer and the file system after it. *)
Definition open_post (path : string) (key : bytes) (s : fs) (ino : Z) (d : bytes)
    (r : result VirtualVolume) (s' : fs) : Prop :=
  (open_answer (next_id s) path key d r \/ r = Err OsFault /\ ~ quiet s) /\
  match r with Ok _ => opened (next_id s) ino s s' | Err _ => untouched s s' end.

(** Evaluates the checks up to the first that fails. *)
Ltac answers :=
  unfold open_answer, open_checks; cbn [first_failure];
  repeat first [reflexivity | match goal with
    | E : read_superblock _ = _ |- _ => rewrite !E; clear E
    | |- context [bool_decide ?P] => case_bool_decide; try congruence
    | |- context [?a <=? ?b] => destruct (Z.leb_spec a b); try vlia
    end; cbn [andb first_failure]].

Lemma wp_open_existing path key s ino d :
  dir s !! path = Some ino -> data_of s ino = Some d -> has_nul path = false -> is_bytes (disk_bitmap d) ->
  wp (open_existing path key) (open_post path key s ino d) s.
Proof.
  intros Hdir Hd Hn Hb. apply wp_bind. apply (wp_open_rw path s ino d); [done..| |].
  2:{ intros s' Hq Hu. apply wp_try; [done|]. intros err [= <-]. split; [|done]. by right. }
  intros s1 O1. apply wp_try; [|done]. intros fd [= <-]. apply wp_or_close.
  set (Q := fun r s' => match r with Ok a => open_post path key s ino d (Ok a) s'
    | Err e => open_post path key s ino d (Err e) (with_fds (delete (next_id s) (fds s')) s') end).
  assert (forall err s', open_answer (next_id s) path key d (Err err) \/ err = OsFault /\ ~ quiet s ->
    opened (next_id s) ino s s' -> Q (Err err) s') as HEnd.
  { intros err s' Ha Ho. split; [|by eapply opened_close]. destruct Ha as [Ha|[-> Hq]]; [by left|by right]. }
  assert (forall s', ~ quiet s -> opened (next_id s) ino s s' -> Q (Err OsFault) s') as HErr by auto.
  eapply (op_seek s ino d Hd Q HErr); [done|]. intros s2 O2 P2.
  eapply (op_read s ino d Hd Q HErr); [done|done|vlia| |].
  2:{ intros Hl s3 O3. apply HEnd; [left|done]. answers. }
  intros Hl s3 O3. rewrite Z.add_0_l in *. destruct (read_superblock _) as [sb|] eqn:Esb.
  2:{ apply wp_ret, HEnd; [left|done]. answers. }
  cbv zeta. case_bool_decide as Hk; simpl.
  2:{ apply wp_ret, HEnd; [left|done]. answers. }
  eapply (op_seek s ino d Hd Q HErr); [done|]. intros s4 O4 P4.
  eapply (op_read s ino d Hd Q HErr); [done|done|vlia| |].
  2:{ intros Hl2 s5 O5. apply HEnd; [left|done]. answers. }
  intros Hl2 s5 O5.
  replace (slice _ (BITMAP_START_BLOCK * BLOCK_SIZE + BITMAP_BYTES) d) with (disk_bitmap d)
    by (unfold disk_bitmap; reflexivity).
  destruct (Z.ltb_spec (sb_total_blocks sb) DATA_START_BLOCK),
    (Z.ltb_spec (DATA_START_BLOCK + MAX_DATA_BLOCKS) (sb_total_blocks sb)); cbn [orb];
    try (apply wp_ret, HEnd; [left|done]; answers).
  assert (good_vault key d sb) as Hg by (split; [vlia|done|done|lia]).
  apply wp_bind, wp_recount; [apply disk_bitmap_ok; [vlia|done]|lia|].
  apply wp_ret. split; [|done]. left. unfold open_answer.
  rewrite (proj2 (open_checks_good key d)) by eauto. eauto.
Qed.

(** * Creating *)

(** [path] names the new inode, [fd] is open on it with contents [d], all else is as it was. *)
Definition created (path : string) (s s' : fs) (d : bytes) : Prop :=
  dir s' = <[path := next_id s]> (dir s) /\ open_on s' (next_id s + 1) (next_id s) d /\
  faults s' = faults s /\ (forall i, i <> next_id s -> data_of s' i = data_of s i) /\
  (forall fd', fd' <> next_id s + 1 -> ino_of s' fd' = ino_of s fd').

Lemma created_step path s s1 s2 d d' :
  created path s s1 d -> only_changes (next_id s) s1 s2 -> open_on s2 (next_id s + 1) (next_id s) d' ->
  created path s s2 d'.
Proof.
  intros (D & O & L & I & F) (D' & F' & I' & _ & _ & L' & _) Ho.
  split; [congruence|]. split; [done|]. split; [congruence|]. split.
  - intros i Hi. by rewrite I', I.
  - intros fd' Hfd. by rewrite F', F.
Qed.

Lemma created_faulty path s s1 d : created path s s1 d -> faulty s1 -> ~ quiet s.
Proof. intros (_ & _ & L & _) [k E] H. by rewrite L, H in E. Qed.

Lemma wp_open_create path s (Q : result Z -> fs -> Prop) :
  has_nul path = false -> dir s !! path = None ->
  (forall s', created path s s' [] -> Q (Ok (next_id s + 1)) s') ->
  (forall s', ~ quiet s -> keeps_data s s' -> Q (Err OsFault) s') ->
  wp (open_create_new path) Q s.
Proof.
  intros Hn Hd HOk HErr. apply wp_on_path; [congruence| |].
  { intros [k E]. apply HErr; [|by auto with kernel]. intros H. by rewrite H in E. }
  intros _. unfold wp. simpl. rewrite Hd. apply HOk.
  split; [done|]. split; [|split_and!; [done|..]].
  - split; [unfold ino_of|unfold data_of]; simpl; by rewrite lookup_insert_eq.
  - intros i Hi. unfold data_of. simpl. by rewrite lookup_insert_ne.
  - intros fd' Hfd. unfold ino_of. simpl. by rewrite lookup_insert_ne.
Qed.

Section creating.
Context (path : string) (s0 : fs).
Abbreviation fd := (next_id s0 + 1).
Abbreviation ino := (next_id s0).
Context {A : Type} (Q : result A -> fs -> Prop).
(** Every failure goes to [HErr], with contents in [T]. *)
Context (T : bytes -> Prop).
Context (HErr : forall err s' d', ~ quiet s0 -> T d' -> created path s0 s' d' -> Q (Err err) s').

Lemma cr_set_len s d n k :
  created path s0 s d -> T d -> (forall s', created path s0 s' (resize n d) -> wp k Q s') ->
  wp (set_len fd n ;;? k) Q s.
Proof using HErr.
  intros Hc HT Hk. apply wp_bind. apply (wp_set_len fd ino n s d); [by apply Hc| |].
  - intros s' Hs Ho. apply wp_try; [|done]. intros ? _. apply Hk. by eapply created_step.
  - intros s' Hf Hs Ho. apply wp_try; [done|]. intros ? _.
    eapply HErr; [by eapply created_faulty|apply HT|by eapply created_step].
Qed.

Lemma cr_seek s d off k :
  created path s0 s d -> T d ->
  (forall s', created path s0 s' d -> fds s' !! fd = Some (ino, off) -> wp k Q s') ->
  wp (seek fd off ;;? k) Q s.
Proof using HErr.
  intros Hc HT Hk. assert (open_on s fd ino d) as [Hi Hd] by apply Hc.
  apply wp_bind. apply (wp_seek fd ino off s d); [done| |].
  - intros nd s' -> Hnd <-. apply wp_try; [|done]. intros ? _. apply Hk; [|apply fd_update_pos].
    eapply created_step; [done|by apply fd_update_only|by apply fd_update_open].
  - intros s' Hf Hs Ho. apply wp_try; [done|]. intros ? _.
    eapply HErr; [by eapply created_faulty|apply HT|by eapply created_step].
Qed.

Lemma cr_write s d pos dat k :
  created path s0 s d -> fds s !! fd = Some (ino, pos) -> (forall j, T (write_at pos (takeZ j dat) d)) ->
  (forall s', created path s0 s' (write_at pos dat d) -> wp k Q s') ->
  wp (write_all fd dat ;;? k) Q s.
Proof using HErr.
  intros Hc Hp HT Hk. assert (open_on s fd ino d) as [Hi Hd] by apply Hc.
  apply wp_bind. apply (wp_write_all fd ino dat s pos d); [done..| |].
  - intros at' o s' ->. apply wp_try; [|done]. intros ? _. apply Hk.
    eapply created_step; [done|by apply fd_update_only|by apply (fd_update_open _ _ _ (Inode _ _ _ _))].
  - intros n s' Hf Hs Ho. apply wp_try; [done|]. intros ? _.
    eapply HErr; [by eapply created_faulty|apply HT|by eapply created_step].
Qed.

Lemma cr_sync s d k :
  created path s0 s d -> T d -> (forall s', created path s0 s' d -> wp k Q s') ->
  wp (sync_all fd ;;? k) Q s.
Proof using HErr.
  intros Hc HT Hk. assert (open_on s fd ino d) as Ho by apply Hc.
  apply wp_bind. apply (wp_sync_all fd ino s d); [done|].
  intros r s' Hr _ Hs Ho'. assert (created path s0 s' d) by (by eapply created_step).
  destruct Hr as [->|[-> Hf]]; [by apply Hk|]. eapply HErr; [by apply (created_faulty path s0 s d)|exact HT|done].
Qed.
End creating.

(** The volume is described by the superblock of the file. *)
Definition formatted (v : VirtualVolume) (d : bytes) : Prop :=
  exists sb, read_superblock (slice 0 BLOCK_SIZE d) = Some sb /\
    sb_total_blocks sb = total_blocks v /\ master_key_hash sb = hash_master_key (master_key v).

(** The file of a new volume, from its first superblock on. *)
Definition fresh_super (key : bytes) (n : Z) : bytes :=
  write_superblock (repZ BLOCK_SIZE 0)
    {| version := VAULT_VERSION; sb_total_blocks := DATA_START_BLOCK + n; sb_free_blocks := n;
       master_key_hash := hash_master_key key |}.
Definition blank_file (n : Z) : bytes := resize ((DATA_START_BLOCK + n) * BLOCK_SIZE) [].
Definition fresh_file (key : bytes) (n : Z) : bytes :=
  write_at (BITMAP_START_BLOCK * BLOCK_SIZE) (repZ BITMAP_BYTES 0)
    (write_at 0 (fresh_super key n) (blank_file n)).
(** What an interrupted creation leaves: an empty file, or one with part of the superblock;
    the bitmap is written over zeros. *)
Definition unfinished (key : bytes) (n : Z) (d : bytes) : Prop :=
  d = [] \/ torn 0 (fresh_super key n) (blank_file n) d \/
  torn (BITMAP_START_BLOCK * BLOCK_SIZE) (repZ BITMAP_BYTES 0) (write_at 0 (fresh_super key n) (blank_file n)) d.
Definition left_behind (path : string) (key : bytes) (n : Z) (s s' : fs) : Prop :=
  dir s' = dir s \/ exists d, unfinished key n d /\ dir s' = <[path := next_id s]> (dir s) /\
    data_of s' (next_id s) = Some d.

Definition fresh_volume (fd : Z) (path : string) (key : bytes) (n : Z) : VirtualVolume :=
  Volume fd key (DATA_START_BLOCK + n) n (repZ BITMAP_BYTES 0) path 0.

Lemma wp_create_new path key n s (Q : result VirtualVolume -> fs -> Prop) :
  0 <= n <= MAX_DATA_BLOCKS -> has_nul path = false -> dir s !! path = None ->
  (forall s', created path s s' (fresh_file key n) -> Q (Ok (fresh_volume (next_id s + 1) path key n)) s') ->
  (forall err s', ~ quiet s -> left_behind path key n s s' -> Q (Err err) s') ->
  wp (create_new path key n) Q s.
Proof.
  intros Hn Hnul Hdir HOk HErr. unfold create_new.
  apply wp_bind, wp_chk_u; [unfold is_u; vlia|]. apply wp_bind, wp_chk_u; [unfold is_u; vlia|].
  apply wp_bind, wp_open_create; [done..| |].
  2:{ intros s1 Hq K. apply wp_try; [done|]. intros err [= <-]. apply HErr; [done|left; apply K]. }
  intros s1 C1. apply wp_try; [|done]. intros fd [= <-]. apply wp_or_close.
  assert (forall err s' d', ~ quiet s -> unfinished key n d' -> created path s s' d' ->
    Q (Err err) (with_fds (delete (next_id s + 1) (fds s')) s')) as HErr'.
  { intros err s' d' Hq Hd (D & [_ I] & _). apply HErr; [done|]. right. by exists d'. }
  assert (lenZ (blank_file n) = (DATA_START_BLOCK + n) * BLOCK_SIZE) as Hl by (unfold blank_file, resize; vlen_lia).
  eapply cr_set_len; [exact HErr'|done|by left|]. intros s2 C2. fold (blank_file n) in C2.
  eapply cr_seek; [exact HErr'|done|right; left; apply torn_none; vlia|]. intros s3 C3 P3.
  eapply cr_write; [exact HErr'|done|done|intros j; right; left; by exists j|]. intros s4 C4.
  eapply cr_seek; [exact HErr'|done|right; left; apply torn_all|]. intros s5 C5 P5.
  eapply cr_write; [exact HErr'|done|done|intros j; right; right; by exists j|]. intros s6 C6.
  eapply cr_sync; [exact HErr'|done|right; right; apply torn_all|]. intros s7 C7. apply wp_ret. by apply HOk.
Qed.


(** ** The file of a new volume *)

Context `{!PrimitivesOk HP}.

Lemma fresh_super_ok key n :
  0 <= n <= MAX_DATA_BLOCKS ->
  superblock_ok {| version := VAULT_VERSION; sb_total_blocks := DATA_START_BLOCK + n;
    sb_free_blocks := n; master_key_hash := hash_master_key key |}.
Proof. intros Hn. split; simpl; [done|unfold is_u; vlia..|apply sha256_len]. Qed.

Lemma fresh_file_facts key n fd path :
  0 <= n <= MAX_DATA_BLOCKS ->
  lenZ (fresh_file key n) = (DATA_START_BLOCK + n) * BLOCK_SIZE /\
  formatted (fresh_volume fd path key n) (fresh_file key n) /\
  disk_bitmap (fresh_file key n) = repZ BITMAP_BYTES 0.
Proof.
  intros Hn. pose proof (fresh_super_ok key n Hn) as Hok. unfold fresh_file, fresh_super, blank_file.
  rewrite write_superblock_eq by (done || by rewrite lenZ_repZ).
  set (sb := {| version := _ |}) in *. pose proof (superblock_bytes_len sb Hok) as Hl.
  set (z := resize _ []). assert (lenZ z = (DATA_START_BLOCK + n) * BLOCK_SIZE) as Hz.
  { unfold z, resize. vlen_lia. }
  pose proof (write_at_region 0 (superblock_bytes sb) z ltac:(lia) ltac:(vlia)) as R1.
  pose proof (write_at_slice 0 (superblock_bytes sb) z ltac:(lia) ltac:(vlia)) as S1.
  set (d1 := write_at 0 _ z) in *. assert (lenZ d1 = lenZ z) as L1 by apply R1.
  assert (lenZ (repZ BITMAP_BYTES 0) = BITMAP_BYTES) as Lb by (by rewrite lenZ_repZ).
  pose proof (write_at_region (BITMAP_START_BLOCK * BLOCK_SIZE) (repZ BITMAP_BYTES 0) d1
    ltac:(vlia) ltac:(rewrite Lb; vlia)) as R2.
  pose proof (write_at_slice (BITMAP_START_BLOCK * BLOCK_SIZE) (repZ BITMAP_BYTES 0) d1
    ltac:(vlia) ltac:(rewrite Lb; vlia)) as S2.
  rewrite Lb in S2. set (d2 := write_at (BITMAP_START_BLOCK * BLOCK_SIZE) _ d1) in *. split_and!.
  - destruct R2 as [-> _]. lia.
  - exists sb. split; [|split; reflexivity].
    rewrite (region_slice_before _ _ 0 BLOCK_SIZE d1 d2 R2) by vlia.
    rewrite Hl, Z.add_0_l in S1. rewrite S1. by apply read_superblock_bytes.
  - exact S2.
Qed.

Lemma fresh_vol_at path key n s s' r :
  0 <= n <= MAX_DATA_BLOCKS -> lenZ key = 32 -> created path s s' (fresh_file key n) ->
  vol_at (VolEnv s' r (fresh_volume (next_id s + 1) path key n)) (next_id s) (fresh_file key n).
Proof.
  intros Hn Hk (_ & Ho & _). destruct (fresh_file_facts key n 0 path Hn) as (Hl & _ & _).
  split; [split; cbn [fresh_volume e_vol total_blocks free_blocks block_bitmap master_key]|done|done].
  - apply bitmap_ok_zeros.
  - lia.
  - rewrite count_free_zeros by lia. lia.
  - done.
Qed.
End opening.

(** A file with a superblock of block count [total] under the key [1...1], then zeros. *)
Definition demo_file (total len : Z) : bytes :=
  superblock_bytes {| version := VAULT_VERSION; sb_total_blocks := total; sb_free_blocks := 0;
    master_key_hash := hash_master_key (repZ 32 1) |} ++ repZ (len - BLOCK_SIZE) 0.
Definition demo_holding (d : bytes) : fs :=
  Fs {["v"%string := 1]} {[1 := Inode d 0 0 []]} ∅ 3 (fun t => t) (fun _ => None) 0.

