(* ===== verification/VolumeLifecycle.v ===== *)
(** The life of a vault: created, used by any sequence of calls, dropped and reopened. *)
From stdpp Require Import gmap.
From S2P Require Import Prelude Effects Crypto StdFs VolumeLayout VirtualVolume VolumeProofs VolumeBlocks VolumeAlloc VolumeOpen.

Inductive vol_op :=
| VAlloc (op : alloc_op)
| VRead (i : Z)
| VWrite (i : Z) (p : bytes)
| VReadRaw (i : Z)
| VWriteRaw (i : Z) (raw : bytes).

(** Arguments of the Rust types [&[u8; PAYLOAD_SIZE]] and [&[u8; BLOCK_SIZE]]. *)
Definition vol_op_typed (op : vol_op) : Prop :=
  match op with
  | VWrite _ p => lenZ p = PAYLOAD_SIZE
  | VWriteRaw _ raw => lenZ raw = BLOCK_SIZE
  | _ => True
  end.

Section lifecycle.
Context `{HP : Primitives} `{HB : BuildProfile} `{!PrimitivesOk HP}.

Definition forget {A} (m : M vol_env (result A)) : M vol_env (result unit) :=
  m ;;? mret (Ok tt).
Definition run_vol (op : vol_op) : M vol_env (result unit) :=
  match op with
  | VAlloc op => forget (run_alloc op)
  | VRead i => forget (read_block i)
  | VWrite i p => write_block i p
  | VReadRaw i => forget (read_block_raw i)
  | VWriteRaw i raw => write_block_raw i raw
  end.
Fixpoint run_vols (ops : list vol_op) : M vol_env (list (result unit)) :=
  match ops with
  | [] => mret []
  | op :: ops => r ← run_vol op; rs ← run_vols ops; mret (r :: rs)
  end.

(** What any call leaves alone: key, size and path of the volume, the superblock, every
    other file. *)
Definition vol_frame (ino : Z) (d : bytes) (e e' : vol_env) (d' : bytes) : Prop :=
  (exists bm n, e_vol e' = with_bitmap bm n (e_vol e)) /\ vol_at e' ino d' /\
  slice 0 BLOCK_SIZE d' = slice 0 BLOCK_SIZE d /\ only_changes ino (e_fs e) (e_fs e').

Definition vol_post (ino : Z) (d : bytes) (e e' : vol_env) : Prop :=
  exists d', vol_frame ino d e e' d' /\ (healthy e ino -> synced e d -> synced e' d').

Lemma with_bitmap_id v : v = with_bitmap (block_bitmap v) (free_blocks v) v.
Proof. by destruct v. Qed.

Lemma vol_post_refl ino d e : vol_at e ino d -> vol_post ino d e e.
Proof.
  intros Hv. exists d. split; [|done]. split; [|by auto with kernel]. eexists _, _. apply with_bitmap_id.
Qed.

Lemma vol_post_io ino d e e' : io_step 0 0 ino d e e' d -> vol_post ino d e e'.
Proof.
  intros ([V _] & Hv & _ & C). exists d. unfold synced. rewrite V. split; [|done].
  split; [|done]. rewrite V. eexists _, _. apply with_bitmap_id.
Qed.

Lemma vol_post_block ino d e e' d' i :
  in_data (e_vol e) i -> touched_block i ino d e e' d' -> vol_post ino d e e'.
Proof.
  intros [Hi _] (V & Hv & R & C). exists d'. unfold synced. rewrite V. split.
  - split; [rewrite V; eexists _, _; apply with_bitmap_id|]. split_and!; [done| |done].
    eapply region_slice_before; [done|vlia..].
  - intros _ <-. eapply region_slice_before; [done|vlia..].
Qed.

Lemma vol_at_data_eq e ino d d' : vol_at e ino d -> vol_at e ino d' -> d' = d.
Proof. intros [_ [_ E1] _] [_ [_ E2] _]. congruence. Qed.

Lemma vol_post_alloc op ino d e r e' : vol_at e ino d -> refines op ino d e r e' -> vol_post ino d e e'.
Proof.
  intros Hv (d' & (Vx & Hv' & R & C & _) & _ & Hr & Hsame & Hsync & _). exists d'. split.
  - split; [done|]. split_and!; [done| |done]. eapply region_slice_before; [done|vlia..].
  - intros Hh Hs. destruct Hr as [->|[[_ Hbad] _]]; [|done].
    destruct (is_ok (spec_of e op).1) eqn:Eok; [auto|]. specialize (Hsame eq_refl). subst e'.
    by rewrite (vol_at_data_eq _ _ _ _ Hv Hv').
Qed.

Lemma wp_forget {A} (m : M vol_env (result A)) (Q : vol_env -> Prop) e :
  wp m (fun _ => Q) e -> wp (forget m) (fun _ => Q) e.
Proof. intros H. apply wp_bind. eapply wp_mono; [done|]. by intros [] ?. Qed.

(** Every call, under any I/O errors, keeps the invariant. *)
Lemma wp_run_vol op e ino d :
  vol_op_typed op -> vol_at e ino d -> wp (run_vol op) (fun _ => vol_post ino d e) e.
Proof.
  intros Ht Hv.
  assert (forall A (m : M vol_env (result A)), m e = Done (Err InvalidInput) e ->
    wp m (fun _ => vol_post ino d e) e) as Hguard.
  { intros A m E. eapply wp_done; [done|]. by apply vol_post_refl. }
  assert (forall i, ~ in_data (e_vol e) i -> check_data_block i e = Done (Err InvalidInput) e) as Hchk
    by (intros; by apply check_data_block_err).
  destruct op as [op|i|i p|i|i raw]; simpl in *; try apply wp_forget;
    [|destruct (decide (in_data (e_vol e) i)) as [Hi|Hi];
      [|apply Hguard; unfold read_block, write_block, read_block_raw, write_block_raw;
        by rewrite (bind_done _ _ _ _ _ (Hchk i Hi))]..].
  - eapply wp_mono; [by apply wp_run_alloc|]. intros. by eapply vol_post_alloc.
  - apply (wp_read_block e ino d); [done..|]. intros r e' Hs _. by apply vol_post_io.
  - apply (wp_write_block e ino d); [done..|]. intros r e' d' Hs _. by eapply vol_post_block.
  - apply (wp_read_block_raw e ino d); [done..|]. intros r e' Hs _. by apply vol_post_io.
  - apply (wp_write_block_raw e ino d); [done..|]. intros r e' d' Hs _ _. by eapply vol_post_block.
Qed.

Lemma vol_frame_healthy ino d e e' d' : vol_frame ino d e e' d' -> healthy e' ino <-> healthy e ino.
Proof.
  intros ((bm & n & V) & _ & _ & (D & _ & _ & _ & _ & L & _)). unfold healthy. by rewrite V, D, L.
Qed.

Lemma vol_post_trans ino d e e1 e2 d1 :
  vol_frame ino d e e1 d1 -> (healthy e ino -> synced e d -> synced e1 d1) ->
  vol_post ino d1 e1 e2 -> vol_post ino d e e2.
Proof.
  intros H1 S1 (d2 & H2 & S2). exists d2. pose proof (vol_frame_healthy _ _ _ _ _ H1) as Hh.
  destruct H1 as ((bm1 & n1 & V1) & A1 & L1 & C1), H2 as ((bm2 & n2 & V2) & A2 & L2 & C2). split.
  - split; [exists bm2, n2; by rewrite V2, V1|]. split_and!; [done|congruence|].
    by eapply only_changes_trans.
  - intros ? ?. apply S2; [by apply Hh|]. auto.
Qed.

Lemma wp_run_vols ops e ino d :
  Forall vol_op_typed ops -> vol_at e ino d -> wp (run_vols ops) (fun _ => vol_post ino d e) e.
Proof.
  intros Ht. revert e d. induction Ht as [|op ops Ht Hts IH]; intros e d Hv.
  - by apply wp_ret, vol_post_refl.
  - apply wp_bind. eapply wp_mono; [by apply wp_run_vol|]. intros r e1 (d1 & H1 & S1).
    apply wp_bind. eapply wp_mono; [apply IH; apply H1|]. intros rs e2 H2.
    apply wp_ret. by eapply vol_post_trans.
Qed.

(** Type invariant of the vault: any sequence of allocate, reserve, free, read, write
    and raw calls, with any arguments and under any I/O errors, never panics and keeps the
    invariant: the bitmap has its exact size, the free count is the number of zero bits,
    the file keeps the size of the volume; the key, the size, the path and the superblock
    block are never touched, nor any other file. *)
Theorem vault_invariant ops e ino d :
  Forall vol_op_typed ops -> vol_at e ino d ->
  exists rs e' d', run_vols ops e = Done rs e' /\ vol_at e' ino d' /\
    total_blocks (e_vol e') = total_blocks (e_vol e) /\ master_key (e_vol e') = master_key (e_vol e) /\
    vault_path (e_vol e') = vault_path (e_vol e) /\ bitmap_write_count (e_vol e') = bitmap_write_count (e_vol e) /\
    slice 0 BLOCK_SIZE d' = slice 0 BLOCK_SIZE d /\
    (forall i, i <> ino -> data_of (e_fs e') i = data_of (e_fs e) i).
Proof.
  intros Ht Hv. destruct (wp_inv _ _ _ (wp_run_vols ops e ino d Ht Hv))
    as (rs & e' & E & d' & ((bm & n & V) & Hv' & L & C) & _).
  exists rs, e', d'. rewrite V. split_and!; try done. intros i Hi. by apply C.
Qed.

(** * Creating through [open_or_create] *)

Lemma wp_metadata_absent path s (Q : result inode -> fs -> Prop) :
  dir s !! path = None -> (forall err s', keeps_data s s' -> Q (Err err) s') -> wp (metadata path) Q s.
Proof. intros Hd HQ. apply wp_metadata; [congruence|]. auto. Qed.

Lemma wp_exists_absent path s (Q : bool -> fs -> Prop) :
  dir s !! path = None -> (forall s', keeps_data s s' -> Q false s') -> wp (path_exists path) Q s.
Proof. intros Hd HQ. apply wp_bind, wp_metadata_absent; [done|]. intros. by apply wp_ret, HQ. Qed.

Lemma keeps_data_dir s s' : keeps_data s s' -> dir s' = dir s.
Proof. by intros (? & _). Qed.
Lemma keeps_data_quiet s s' : keeps_data s s' -> quiet s -> quiet s'.
Proof. intros (_ & _ & _ & _ & _ & L & _). unfold quiet. by rewrite L. Qed.

Lemma wp_create_fresh path key n s (Q : result VirtualVolume -> fs -> Prop) :
  0 <= n <= MAX_DATA_BLOCKS -> has_nul path = false -> dir s !! path = None ->
  (forall s1 s2, keeps_data s s1 -> created path s1 s2 (fresh_file key n) ->
     Q (Ok (fresh_volume (next_id s1 + 1) path key n)) s2) ->
  (forall err s1 s2, ~ quiet s -> keeps_data s s1 -> left_behind path key n s1 s2 -> Q (Err err) s2) ->
  wp (open_or_create path key n) Q s.
Proof.
  intros Hn Hnul Hd HQ HErr. unfold open_or_create. destruct (Z.ltb_spec MAX_DATA_BLOCKS n); [lia|].
  apply wp_bind, wp_metadata_absent; [done|]. intros err s1 K1. cbv zeta.
  apply wp_bind, wp_exists_absent; [by rewrite (keeps_data_dir _ _ K1)|]. intros s2 K2. simpl.
  pose proof (keeps_data_trans _ _ _ K1 K2) as K12.
  apply wp_bind, wp_exists_absent; [by rewrite (keeps_data_dir _ _ K12)|]. intros s3 K3.
  pose proof (keeps_data_trans _ _ _ K12 K3) as K. apply wp_bind, wp_ret.
  apply wp_create_new; [done|done|by rewrite (keeps_data_dir _ _ K)| |].
  - intros s4. by apply HQ.
  - intros err' s4 Hbad Hleft. apply (HErr err' s3 s4); [|done|done]. intros Hq. destruct Hbad. by eapply keeps_data_quiet.
Qed.

(** A volume, its file and the invariant across restarts. *)
Record vault_state (e : vol_env) (ino : Z) (d : bytes) : Prop := {
  vs_at : vol_at e ino d;
  vs_formatted : formatted (e_vol e) d;
  vs_synced : synced e d;
  vs_healthy : healthy e ino;
}.

Lemma fresh_vault_state path key n s s1 s2 g :
  0 <= n <= MAX_DATA_BLOCKS -> lenZ key = 32 -> has_nul path = false -> quiet s ->
  keeps_data s s1 -> created path s1 s2 (fresh_file key n) ->
  vault_state (VolEnv s2 g (fresh_volume (next_id s1 + 1) path key n)) (next_id s1) (fresh_file key n).
Proof.
  intros Hn Hk Hnul Hq K C.
  destruct (fresh_file_facts key n (next_id s1 + 1) path Hn) as (_ & Hf & Hb).
  split; [by apply fresh_vol_at|done|done|].
  pose proof (keeps_data_quiet _ _ K Hq) as Hq1. destruct C as (D & _ & L & _).
  split_and!; [|done|]; cbn [e_fs e_vol].
  - intros t. rewrite L. apply Hq1.
  - rewrite D. apply lookup_insert_eq.
Qed.

Lemma vault_state_ops ops e ino d :
  Forall vol_op_typed ops -> vault_state e ino d ->
  wp (run_vols ops) (fun _ e' => exists d', vault_state e' ino d' /\
    master_key (e_vol e') = master_key (e_vol e) /\ vault_path (e_vol e') = vault_path (e_vol e)) e.
Proof.
  intros Ht [Hv Hf Hs Hh]. eapply wp_mono; [by apply wp_run_vols|].
  intros _ e' (d' & Hfr & Hsync). exists d'. pose proof (vol_frame_healthy _ _ _ _ _ Hfr) as Hhe.
  destruct Hfr as ((bm & n & V) & Hv' & L & C). rewrite V. split; [|done].
  split; [done| |by apply Hsync|by apply Hhe].
  destruct Hf as (sb & E1 & E2 & E3). exists sb. rewrite L, V. done.
Qed.

(** * Dropping and reopening *)

Lemma wp_drop e ino d (Q : unit -> vol_env -> Prop) :
  vol_at e ino d ->
  (forall e', dir (e_fs e') = dir (e_fs e) -> data_of (e_fs e') ino = Some d ->
     faults (e_fs e') = faults (e_fs e) -> master_key (e_vol e') = repZ 32 0 ->
     ino_of (e_fs e') (file (e_vol e)) = None -> Q tt e') ->
  wp drop_volume Q e.
Proof.
  intros Hv HQ. apply wp_bind. cbn. apply wp_bind.
  apply (wp_io_sync 0 0 e ino d); [done|]. intros r e1 ([V _] & [_ [_ Hd] _] & _ & C) _ _.
  apply wp_bind. cbn. apply HQ; cbn; [by apply C|done|by apply C|done|].
  unfold ino_of. cbn. by rewrite lookup_delete_eq.
Qed.

Lemma wp_metadata_present path s ino d (Q : result inode -> fs -> Prop) :
  dir s !! path = Some ino -> data_of s ino = Some d -> has_nul path = false -> quiet s ->
  (forall nd s', keeps_data s s' -> i_data nd = d -> Q (Ok nd) s') -> wp (metadata path) Q s.
Proof.
  unfold data_of. intros Hd (nd & Hi & ->)%fmap_Some Hn Hq HQ. apply wp_metadata.
  - intros s' i nd' K _ _ _ Hd' Hi'. apply HQ; [done|]. congruence.
  - intros err s' _ _ [[k E]|[E|E]]; [by rewrite Hq in E|congruence|]. by rewrite Hd in E; simpl in E; rewrite Hi in E.
Qed.

Lemma wp_reopen path key n s ino d :
  n <= MAX_DATA_BLOCKS -> 0 < lenZ d ->
  dir s !! path = Some ino -> data_of s ino = Some d -> has_nul path = false -> quiet s ->
  is_bytes (disk_bitmap d) ->
  wp (open_or_create path key n) (fun r s' => exists s1, keeps_data s s1 /\
    open_answer (next_id s1) path key d r /\
    match r with Ok _ => opened (next_id s1) ino s1 s' | Err _ => untouched s1 s' end) s.
Proof.
  intros Hn Hl Hd Hi Hnul Hq Hb. unfold open_or_create. destruct (Z.ltb_spec MAX_DATA_BLOCKS n); [lia|].
  apply wp_bind, (wp_metadata_present path s ino d); [done..|]. intros nd s1 K1 Hnd. cbv zeta.
  rewrite Hnd. destruct (Z.eqb_spec (lenZ d) 0); [lia|].
  assert (forall s', keeps_data s s' -> dir s' !! path = Some ino /\ data_of s' ino = Some d /\ quiet s') as Hk.
  { intros s' K. rewrite (keeps_data_dir _ _ K). split_and!; [done| |by eapply keeps_data_quiet].
    destruct K as (_ & _ & I & _). by rewrite I. }
  destruct (Hk s1 K1) as (Hd1 & Hi1 & Hq1).
  apply wp_bind, wp_bind, (wp_metadata_present path s1 ino d); [done..|]. intros nd2 s2 K2 _.
  apply wp_ret. simpl. pose proof (keeps_data_trans _ _ _ K1 K2) as K.
  destruct (Hk s2 K) as (Hd2 & Hi2 & Hq2).
  eapply wp_mono; [by apply (wp_open_existing path key s2 ino d)|].
  intros r s' [[Ha|[_ Hbad]] Hp]; [|done]. by exists s2.
Qed.

(** A vault file at rest: what is on disk when no process has it open. *)
Record at_rest (path : string) (key : bytes) (total : Z) (s : fs) (ino : Z) (d : bytes) : Prop := {
  rest_dir : dir s !! path = Some ino;
  rest_data : data_of s ino = Some d;
  rest_nul : has_nul path = false;
  rest_quiet : quiet s;
  rest_key : lenZ key = 32;
  rest_total : DATA_START_BLOCK <= total <= DATA_START_BLOCK + MAX_DATA_BLOCKS;
  rest_len : lenZ d = total * BLOCK_SIZE;
  rest_bitmap : bitmap_ok (disk_bitmap d);
  rest_super : exists sb, read_superblock (slice 0 BLOCK_SIZE d) = Some sb /\
    sb_total_blocks sb = total /\ master_key_hash sb = hash_master_key key;
}.

(** Opening it with its key gives the volume on disk; another key is refused. *)
Lemma reopen_rest path key total s ino d key' n g :
  at_rest path key total s ino d -> n <= MAX_DATA_BLOCKS ->
  wp (open_or_create path key' n) (fun r s' =>
    (key' = key -> exists v, r = Ok v /\ vault_state (VolEnv s' g v) ino d /\
       block_bitmap v = disk_bitmap d /\ total_blocks v = total /\ master_key v = key /\ vault_path v = path) /\
    (hash_master_key key' <> hash_master_key key -> r = Err PermissionDenied /\ data_of s' ino = Some d)) s.
Proof.
  intros [Hdir Hi Hnul Hq Hk [T1 T2] Hl Hb (sb & E1 & E2 & E3)] Hn.
  eapply wp_mono; [apply (wp_reopen _ key' n s ino d); try done; [vlia|apply Hb]|].
  intros r s' (s1 & K & Ha & Hp).
  assert (data_of s1 ino = Some d) as Hi1 by (destruct K as (_ & _ & I & _); by rewrite I).
  split.
  - intros ->. assert (good_vault key d sb) as Hgood by (split; [vlia|done|done|lia]).
    revert Ha. unfold open_answer. rewrite (proj2 (open_checks_good key d)) by eauto. intros (sb' & Hg & ->).
    + assert (sb' = sb) as -> by (destruct Hg; congruence).
      eexists. split; [done|]. unfold opened_volume. rewrite E2.
      destruct Hp as (D & I & _ & _ & L & O & _).
      split; [|cbn [block_bitmap total_blocks master_key vault_path]; by split_and!].
      split; [|exists sb; split_and!; [exact E1|exact E2|exact E3]|unfold synced; cbn [e_vol block_bitmap]; reflexivity|].
      * split; [|split; [done|cbn; by rewrite I]|exact Hl].
        split; cbn [e_vol block_bitmap total_blocks free_blocks master_key]; [done|lia|reflexivity|done].
      * split_and!; cbn; [|done|].
        -- intros t. rewrite L. destruct K as (_ & _ & _ & _ & _ & -> & _). apply Hq.
        -- by rewrite D, (keeps_data_dir _ _ K).
  - intros Hne. revert Ha. unfold open_answer, open_checks. cbn [first_failure].
    rewrite (proj2 (Z.leb_le _ _)), E1, bool_decide_false by (vlia || congruence). intros ->.
    split; [done|]. destruct Hp as (_ & I & _). by rewrite I.
Qed.

(** Reopening with the key restores the bitmap and the counts; another key is refused. *)
Lemma reopen_state e ino d key n s g :
  vault_state e ino d -> n <= MAX_DATA_BLOCKS ->
  dir s = dir (e_fs e) -> data_of s ino = Some d -> faults s = faults (e_fs e) ->
  wp (open_or_create (vault_path (e_vol e)) key n) (fun r s' =>
    (key = master_key (e_vol e) -> exists v', r = Ok v' /\ vault_state (VolEnv s' g v') ino d /\
       block_bitmap v' = block_bitmap (e_vol e) /\ free_blocks v' = free_blocks (e_vol e) /\
       total_blocks v' = total_blocks (e_vol e) /\ master_key v' = master_key (e_vol e) /\
       vault_path v' = vault_path (e_vol e)) /\
    (hash_master_key key <> hash_master_key (master_key (e_vol e)) ->
       r = Err PermissionDenied /\ data_of s' ino = Some d)) s.
Proof.
  intros [Hv Hf Hs (Hq & Hnul & Hdir)] Hn Hd Hi Hfl. pose proof (vol_mem _ _ _ Hv) as Hm.
  assert (at_rest (vault_path (e_vol e)) (master_key (e_vol e)) (total_blocks (e_vol e)) s ino d) as Hr.
  { split; [by rewrite Hd|done|done|intros t; by rewrite Hfl|apply Hm|apply Hm|apply Hv| |done].
    unfold synced in Hs. rewrite Hs. apply Hm. }
  eapply wp_mono; [by apply (reopen_rest _ _ _ _ _ _ key n g Hr)|]. intros r s' [H1 H2].
  split; [|done]. intros E. destruct (H1 E) as (v & -> & Hvs & B & T & M & P). exists v.
  rewrite Hs in B. split_and!; try done. rewrite (mem_free v), (mem_free _ Hm), B, T; [done|]. apply Hvs.
Qed.

(** [C1] Persistence: on a healthy file system, a vault created at a free path and used by
    any sequence of calls can be dropped and reopened.  Dropping wipes the key in memory
    and closes the file.  Reopening with the same master key gives a volume with exactly
    the same allocation bitmap, free count and size, in which every block opens to what it
    opened to before; reopening with a master key of another hash is refused with
    [PermissionDenied] and leaves the contents alone. *)
Theorem vault_persistence path key key' n n' ops s g :
  0 <= n <= MAX_DATA_BLOCKS -> n' <= MAX_DATA_BLOCKS -> lenZ key = 32 -> has_nul path = false ->
  dir s !! path = None -> quiet s -> Forall vol_op_typed ops ->
  exists v s1 rs e2 e3 ino d, open_or_create path key n s = Done (Ok v) s1 /\ free_blocks v = n /\
    run_vols ops (VolEnv s1 g v) = Done rs e2 /\ vol_at e2 ino d /\
    drop_volume e2 = Done tt e3 /\ master_key (e_vol e3) = repZ 32 0 /\
    (exists v' s4, open_or_create path key n' (e_fs e3) = Done (Ok v') s4 /\
       vol_at (VolEnv s4 g v') ino d /\
       block_bitmap v' = block_bitmap (e_vol e2) /\ free_blocks v' = free_blocks (e_vol e2) /\
       total_blocks v' = total_blocks (e_vol e2) /\
       (forall i, block_holds v' d i = block_holds (e_vol e2) d i)) /\
    (hash_master_key key' <> hash_master_key key ->
       exists s4, open_or_create path key' n' (e_fs e3) = Done (Err PermissionDenied) s4 /\
         data_of s4 ino = Some d).
Proof.
  intros Hn Hn' Hk Hnul Hd Hq Ht.
  assert (wp (open_or_create path key n) (fun r s' => exists v ino d, r = Ok v /\ free_blocks v = n /\
    master_key v = key /\ vault_path v = path /\ vault_state (VolEnv s' g v) ino d) s) as W1.
  { apply wp_create_fresh; [done..| |done]. intros s1 s2 K C. eexists _, _, _. split; [done|].
    split_and!; [done..|]. by eapply fresh_vault_state. }
  apply wp_inv in W1 as (r & s1 & X1 & v & ino & d1 & -> & Hfree & Hkey & Hpath & Hvs1).
  destruct (wp_inv _ _ _ (vault_state_ops ops _ _ _ Ht Hvs1)) as (rs & e2 & X2 & d & Hvs2 & Hk2 & Hp2).
  cbn in Hk2, Hp2. rewrite Hkey in Hk2. rewrite Hpath in Hp2.
  assert (wp drop_volume (fun _ e' => dir (e_fs e') = dir (e_fs e2) /\ data_of (e_fs e') ino = Some d /\
     faults (e_fs e') = faults (e_fs e2) /\ master_key (e_vol e') = repZ 32 0) e2) as W3.
  { apply (wp_drop e2 ino d); [by apply Hvs2|]. auto. }
  apply wp_inv in W3 as ([] & e3 & X3 & D3 & I3 & F3 & Z3).
  pose proof (reopen_state e2 ino d key n' (e_fs e3) g Hvs2 Hn' D3 I3 F3) as W4.
  pose proof (reopen_state e2 ino d key' n' (e_fs e3) g Hvs2 Hn' D3 I3 F3) as W5.
  rewrite Hp2, Hk2 in W4, W5. apply wp_inv in W4 as (r4 & s4 & X4 & Hsame & _).
  apply wp_inv in W5 as (r5 & s5 & X5 & _ & Hother).
  destruct (Hsame eq_refl) as (v' & -> & Hvs4 & B4 & N4 & T4 & M4 & _).
  exists v, s1, rs, e2, e3, ino, d. split_and!; [done..|by apply Hvs2|done|done| |].
  - exists v', s4. split_and!; [done|by apply Hvs4|done..|]. intros i. unfold block_holds. by rewrite M4, Hk2.
  - intros Hne. destruct (Hother Hne) as [-> ?]. by exists s5.
Qed.
End lifecycle.

(** * Timestamps *)

Section timestamps.
Context `{HP : Primitives} `{HB : BuildProfile}.

(** What [utimes] can express of a time: whole microseconds. *)
Definition trunc_us (t : Z) : Z := t / 1000 * 1000.

Lemma filetime_trunc t : 0 <= t -> timeval_ns (filetime_from_systemtime t) = trunc_us t.
Proof.
  intros Ht. unfold timeval_ns, filetime_from_systemtime, trunc_us. rewrite Z.max_r by done. cbn [fst snd].
  pose proof (Z.div_mod t 1000000000). pose proof (Z.mod_pos_bound t 1000000000).
  pose proof (Z.div_mod (t mod 1000000000) 1000). pose proof (Z.mod_pos_bound (t mod 1000000000) 1000).
  pose proof (Z.div_mod t 1000). pose proof (Z.mod_pos_bound t 1000). lia.
Qed.

(** [freeze_timestamps] re-applies the timestamps the file has when it is called, cut
    to microseconds; it does not bring back earlier ones.  Called after a write, as
    [write_block] and [write_bitmap] call it, it keeps the modification time of that
    write. *)
Theorem freeze_timestamps_current e ino nd :
  healthy e ino -> inodes (e_fs e) !! ino = Some nd -> 0 <= i_atime nd -> 0 <= i_mtime nd ->
  exists e', freeze_timestamps e = Done (Ok tt) e' /\ e_vol e' = e_vol e /\
    inodes (e_fs e') !! ino = Some (Inode (i_data nd) (trunc_us (i_atime nd)) (trunc_us (i_mtime nd)) (i_old nd)).
Proof.
  intros (Hq & Hnul & Hd) Hi Ha Hm.
  assert (wp freeze_timestamps (fun r e' => r = Ok tt /\ e_vol e' = e_vol e /\
    inodes (e_fs e') !! ino = Some (Inode (i_data nd) (trunc_us (i_atime nd)) (trunc_us (i_mtime nd)) (i_old nd))) e) as W.
  { apply wp_bind. cbn. apply wp_bind, wp_zoom. simpl. apply wp_metadata.
    - intros s1 i nd' K1 I1 _ _ Hd' Hi'. assert (i = ino) as -> by congruence.
      assert (nd' = nd) as -> by congruence. apply wp_try; [|done]. intros ? [= <-]. rewrite Hnul.
      apply wp_zoom. simpl. apply wp_utimes.
      + intros s2 i2 nd2 K2 Hd2 Hi2 ->. rewrite (keeps_data_dir _ _ K1), I1 in *.
        assert (i2 = ino) as -> by congruence. assert (nd2 = nd) as -> by congruence.
        split; [done|]. split; [done|]. rewrite lookup_insert_eq, !filetime_trunc by done. done.
      + intros err s2 _ Hbad. rewrite (keeps_data_dir _ _ K1), I1 in Hbad.
        destruct Hbad as [[k E]|[E|E]]; [|congruence|by rewrite Hd in E; cbn in E; rewrite Hi in E].
        destruct K1 as (_ & _ & _ & _ & _ & L & _). by rewrite L, Hq in E.
    - intros err s1 _ _ [[k E]|[E|E]]; [by rewrite Hq in E|congruence|].
      cbn in E. rewrite Hd in E. cbn in E. by rewrite Hi in E. }
  apply wp_inv in W as (r & e' & E & -> & ? & ?). by exists e'.
Qed.
End timestamps.

Lemma vault_invariant_witness :
  exists rs e', run_vols (HB := true) [VAlloc OpAllocate; VRead 9; VWrite 9 (repZ PAYLOAD_SIZE 5); VReadRaw 7]
    demo_env = Done rs e' /\ total_blocks (e_vol e') = 10.
Proof.
  destruct (vault_invariant (HB := true) [VAlloc OpAllocate; VRead 9; VWrite 9 (repZ PAYLOAD_SIZE 5); VReadRaw 7]
    demo_env 1 demo_data ltac:(repeat constructor; exact (lenZ_repZ PAYLOAD_SIZE 5)) demo_at)
    as (rs & e' & d' & E & _ & Ht & _). exists rs, e'. auto.
Defined.

Definition empty_fs : fs := Fs ∅ ∅ ∅ 1 (fun t => t) (fun _ => None) 0.

Lemma vault_persistence_witness :
  exists v s1, open_or_create (HB := true) "v" (repZ 32 1) 4 empty_fs = Done (Ok v) s1 /\ free_blocks v = 4.
Proof.
  destruct (vault_persistence (HP := toy) (HB := true) "v" (repZ 32 1) (repZ 32 2) 4 4
    [VAlloc OpAllocate; VWrite 9 (repZ PAYLOAD_SIZE 5)] empty_fs 0
    ltac:(vlia) ltac:(vlia) (lenZ_repZ 32 1) eq_refl eq_refl (fun _ => eq_refl)
    ltac:(repeat constructor; exact (lenZ_repZ PAYLOAD_SIZE 5))) as (v & s1 & rs & e2 & e3 & ino & d & ? & ? & _).
  exists v, s1. auto.
Defined.

Lemma freeze_timestamps_current_witness :
  exists e', freeze_timestamps demo_env = Done (Ok tt) e' /\ e_vol e' = demo_vol.
Proof.
  destruct (freeze_timestamps_current demo_env 1 (Inode demo_data 0 0 []) demo_healthy
    (lookup_singleton_eq _ _) ltac:(done) ltac:(done)) as (e' & ? & ? & _). exists e'. auto.
Defined.
