(* ===== verification/Durability.v ===== *)
(** What reaches the medium, and what a loss of power leaves of a file.

    [sync_all] puts the contents of a file on the medium; what was written since may be
    there in part, in any order.  So after a loss of power every byte of a file is one the
    file had at that place since it was last flushed ([blend], [mixed]); names are kept.

    [pp] is a partial postcondition, for facts that are added to what [wp] already shows;
    [tracked] follows the contents of a file and those it may return to through the system
    calls, and [run_vol_tracked] through every call on a volume. *)
From stdpp Require Import gmap.
From S2P Require Import Prelude Effects Crypto StdFs VolumeLayout VirtualVolume VolumeProofs VolumeBlocks VolumeAlloc VolumeOpen VolumeLifecycle.

(** * Loss of power *)

(** The [n]-th version of a file, counted back from the present one. *)
Definition version_at (nd : inode) (n : nat) : bytes := default (i_data nd) (versions nd !! n).

(** The contents found after the outage: [pick] chooses a version for the length, at [-1],
    and one for every byte. *)
Definition blend (pick : Z -> nat) (nd : inode) : bytes :=
  (fun k => default 0 (nthZ (version_at nd (pick k)) k)) <$> seqZ 0 (lenZ (version_at nd (pick (-1)))).

Definition power_loss (pick : Z -> Z -> nat) (s : fs) : fs :=
  with_inodes (map_imap (fun ino nd => Some (Inode (blend (pick ino) nd) (i_atime nd) (i_mtime nd) [])) (inodes s)) s.

(** * Mixtures of byte strings *)

(** Every byte of [d] is the byte one of [vs], all of its length, has there. *)
Definition mixed (vs : list bytes) (d : bytes) : Prop :=
  (forall w, w ∈ vs -> lenZ w = lenZ d) /\ forall k, exists w, w ∈ vs /\ nthZ d k = nthZ w k.

Lemma nthZ_out {A} (l : list A) k : ~ 0 <= k < lenZ l -> nthZ l k = None.
Proof. intros H. destruct (nthZ l k) eqn:E; [|done]. destruct H. apply nthZ_Some_iff. by eexists. Qed.

Lemma mixed_one vs w : w ∈ vs -> (forall v, v ∈ vs -> lenZ v = lenZ w) -> mixed vs w.
Proof. intros Hw Hl. split; [done|]. by exists w. Qed.
Lemma mixed_mono vs ws d : mixed vs d -> (forall v, v ∈ vs -> v ∈ ws) -> (forall w, w ∈ ws -> lenZ w = lenZ d) -> mixed ws d.
Proof. intros [_ H] Hi Hl. split; [done|]. intros k. destruct (H k) as (w & Hw & E). eauto. Qed.
Lemma mixed_trans vs ws d : mixed vs d -> (forall v, v ∈ vs -> mixed ws v) -> mixed ws d.
Proof.
  intros [Hl H] Hv. split.
  - intros w Hw. destruct (H 0) as (v & Hin & _). rewrite <- (Hl v Hin). destruct (Hv v Hin) as [Hl' _]. by apply Hl'.
  - intros k. destruct (H k) as (v & Hin & E). destruct (Hv v Hin) as [_ Hk]. destruct (Hk k) as (w & Hw & E').
    exists w. by rewrite E.
Qed.
(** A mixture of one string is that string. *)
Lemma mixed_same vs d x : mixed vs d -> (forall v, v ∈ vs -> v = x) -> d = x.
Proof.
  intros [Hl H] Hx. apply list_eqZ.
  - destruct (H 0) as (v & Hin & _). rewrite <- (Hl v Hin). f_equal. by apply Hx.
  - intros k _. destruct (H k) as (v & Hin & ->). f_equal. by apply Hx.
Qed.

Lemma nthZ_slice {A} a b (l : list A) k :
  0 <= a -> nthZ (slice a b l) k = if decide (0 <= k < b - a) then nthZ l (a + k) else None.
Proof.
  intros Ha. unfold nthZ, slice, takeZ, dropZ. destruct (Z.ltb_spec k 0).
  { destruct (decide _); [lia|done]. }
  destruct (decide _).
  - destruct (Z.ltb_spec (a + k) 0); [lia|]. rewrite lookup_take_lt by lia. rewrite lookup_drop. f_equal. lia.
  - apply lookup_take_ge. lia.
Qed.
Lemma mixed_slice a b vs d : 0 <= a -> mixed vs d -> mixed (slice a b <$> vs) (slice a b d).
Proof.
  intros Ha [Hl H]. split.
  - intros w (v & -> & Hv)%list_elem_of_fmap. unfold slice. autorewrite with len. by rewrite (Hl v Hv).
  - intros k. destruct (H (a + k)) as (v & Hv & E). exists (slice a b v). split; [by apply list_elem_of_fmap_2|].
    rewrite !nthZ_slice by done. by case_decide.
Qed.
Lemma mixed_Forall (P : Z -> Prop) vs d : mixed vs d -> (forall v, v ∈ vs -> Forall P v) -> Forall P d.
Proof.
  intros [_ H] HP. apply Forall_lookup. intros i x Hx. destruct (H (Z.of_nat i)) as (v & Hv & E).
  unfold nthZ in E. destruct (Z.ltb_spec (Z.of_nat i) 0); [lia|]. rewrite Nat2Z.id, Hx in E.
  eapply (Forall_lookup_1 P v); [by apply HP|]. symmetry. exact E.
Qed.

(** A write in part is a mixture of the contents before and after it. *)
Lemma nthZ_write_at off dat d k :
  0 <= off -> off + lenZ dat <= lenZ d ->
  nthZ (write_at off dat d) k = if decide (off <= k < off + lenZ dat) then nthZ dat (k - off) else nthZ d k.
Proof.
  intros H0 H. pose proof (lenZ_nonneg dat). rewrite write_at_inside by lia. unfold splice, nthZ, takeZ, dropZ, lenZ in *.
  destruct (Z.ltb_spec k 0); [destruct (decide _); [lia|done]|].
  destruct (decide (k < off)).
  { destruct (decide _); [lia|]. rewrite lookup_app_l by (rewrite length_take; lia). apply lookup_take_lt. lia. }
  rewrite lookup_app_r by (rewrite length_take; lia). rewrite length_take, Nat.min_l by lia.
  destruct (decide _); [destruct (Z.ltb_spec (k - off) 0); [lia|]|].
  - rewrite lookup_app_l by lia. f_equal. lia.
  - rewrite lookup_app_r by lia. rewrite lookup_drop. f_equal. lia.
Qed.
Lemma mixed_write off j dat d :
  0 <= off -> off + lenZ dat <= lenZ d -> mixed [d; write_at off dat d] (write_at off (takeZ j dat) d).
Proof.
  intros H0 H. pose proof (lenZ_nonneg dat). assert (lenZ (takeZ j dat) <= lenZ dat) as Hj by len_lia.
  assert (lenZ (write_at off dat d) = lenZ d) as L1 by (by apply write_at_region).
  assert (lenZ (write_at off (takeZ j dat) d) = lenZ d) as L2 by (apply write_at_region; lia). split.
  - intros w [->|[->|[]%not_elem_of_nil]%elem_of_cons]%elem_of_cons; lia.
  - intros k. rewrite nthZ_write_at by lia. case_decide as Hk; [|exists d; split; [by left|done]].
    exists (write_at off dat d). split; [right; by left|]. rewrite nthZ_write_at by lia. rewrite decide_True by lia.
    unfold nthZ, takeZ, lenZ in *. destruct (Z.ltb_spec (k - off) 0); [done|]. rewrite length_take in Hk.
    apply lookup_take_lt. lia.
Qed.

(** What is found after an outage is a mixture of the versions. *)
Lemma version_in nd n : version_at nd n ∈ versions nd.
Proof.
  unfold version_at. destruct (versions nd !! n) eqn:E; [by eapply list_elem_of_lookup_2|by left].
Qed.
Lemma blend_mixed pick nd :
  (forall w, w ∈ versions nd -> lenZ w = lenZ (i_data nd)) -> mixed (versions nd) (blend pick nd).
Proof.
  intros Hl. assert (lenZ (blend pick nd) = lenZ (i_data nd)) as E.
  { unfold blend. rewrite lenZ_fmap. pose proof (lenZ_nonneg (i_data nd)). rewrite (Hl _ (version_in nd _)).
    unfold lenZ at 1. rewrite length_seqZ. lia. }
  split; [intros w Hw; rewrite E; by apply Hl|]. intros k. destruct (decide (0 <= k < lenZ (i_data nd))) as [Hk|Hk].
  - exists (version_at nd (pick k)). split; [apply version_in|]. unfold blend, nthZ at 1.
    destruct (Z.ltb_spec k 0); [lia|]. rewrite list_lookup_fmap, lookup_seqZ_lt.
    + cbn. replace (0 + Z.of_nat (Z.to_nat k)) with k by lia.
      destruct (proj2 (nthZ_Some_iff (version_at nd (pick k)) k)) as [x ->]; [|done].
      by rewrite (Hl _ (version_in nd _)).
    + rewrite (Hl _ (version_in nd _)). lia.
  - exists (i_data nd). split; [by left|]. rewrite !nthZ_out; [done|lia|lia].
Qed.
(** An outage may also bring back one version as it was. *)
Lemma blend_const n nd d : versions nd !! n = Some d -> blend (fun _ => n) nd = d.
Proof.
  intros E. unfold blend, version_at. rewrite E. cbn. pose proof (lenZ_nonneg d).
  assert (lenZ ((fun k => default 0 (nthZ d k)) <$> seqZ 0 (lenZ d)) = lenZ d) as Hl.
  { rewrite lenZ_fmap. unfold lenZ at 1. rewrite length_seqZ. lia. }
  apply list_eqZ; [done|]. rewrite Hl. intros k Hk. unfold nthZ at 1. destruct (Z.ltb_spec k 0); [lia|].
  rewrite list_lookup_fmap, lookup_seqZ_lt by lia. cbn. replace (0 + Z.of_nat (Z.to_nat k)) with k by lia.
  by destruct (proj2 (nthZ_Some_iff d k) Hk) as [x ->].
Qed.
Lemma power_loss_data pick s ino nd :
  inodes s !! ino = Some nd ->
  inodes (power_loss pick s) !! ino = Some (Inode (blend (pick ino) nd) (i_atime nd) (i_mtime nd) []).
Proof. intros E. unfold power_loss. cbn. rewrite map_lookup_imap, E. done. Qed.

(** A flushed file survives; of another, any version may come back. *)
Lemma flushed_data pick s ino d : versions_of s ino = [d] -> data_of (power_loss pick s) ino = Some d.
Proof.
  unfold versions_of. destruct (inodes s !! ino) as [nd|] eqn:Hi; [|done]. cbn. intros V. unfold data_of.
  rewrite (power_loss_data _ _ _ _ Hi). cbn. f_equal. change (versions nd = [d]) in V.
  assert (i_data nd = d) as <- by (by injection V). eapply mixed_same; [apply blend_mixed|];
    rewrite V; by intros w ->%list_elem_of_singleton.
Qed.
Lemma lost_data s ino d : d ∈ versions_of s ino -> exists pick, data_of (power_loss pick s) ino = Some d.
Proof.
  unfold versions_of. destruct (inodes s !! ino) as [nd|] eqn:Hi; [|by intros ?%elem_of_nil]. cbn.
  intros [n Hn]%list_elem_of_lookup. exists (fun _ _ => n). unfold data_of. rewrite (power_loss_data _ _ _ _ Hi). cbn.
  f_equal. by apply blend_const.
Qed.

(** * The versions of a file through the system calls *)

(** [fd] is open at [pos] on [ino], which holds [d] and may return to [old]. *)
Definition tracked (fd ino pos : Z) (d : bytes) (old : list bytes) (s : fs) : Prop :=
  fds s !! fd = Some (ino, pos) /\ exists nd, inodes s !! ino = Some nd /\ i_data nd = d /\ i_old nd = old.

Lemma tracked_versions fd ino pos d old s : tracked fd ino pos d old s -> versions_of s ino = d :: old.
Proof. intros (_ & nd & E & <- & <-). unfold versions_of. by rewrite E. Qed.

(** Calls that leave every file as it is, flushed or not. *)
Definition same_files (s s' : fs) : Prop :=
  (forall i, versions_of s' i = versions_of s i) /\ forall fd, fds s !! fd <> None -> ino_of s' fd = ino_of s fd.

Lemma same_files_refl s : same_files s s.
Proof. done. Qed.
Lemma ino_of_None s fd : fds s !! fd = None <-> ino_of s fd = None.
Proof. unfold ino_of. destruct (fds s !! fd); naive_solver. Qed.
Lemma same_files_trans s1 s2 s3 : same_files s1 s2 -> same_files s2 s3 -> same_files s1 s3.
Proof.
  intros [V1 F1] [V2 F2]. split; [congruence|]. intros fd Hfd. rewrite <- F1 by done. apply F2.
  rewrite ino_of_None, F1 by done. by rewrite <- ino_of_None.
Qed.
#[export] Hint Resolve same_files_refl : kernel.

Lemma same_files_update fd ino pos pos' nd nd' s :
  fds s !! fd = Some (ino, pos) -> inodes s !! ino = Some nd -> versions nd' = versions nd ->
  same_files s (set_pos fd ino pos' (set_inode ino nd' (with_tick (tick s + 1) s))).
Proof.
  intros Hf Hi E. split.
  - intros i. unfold versions_of. cbn. destruct (decide (ino = i)) as [<-|]; [|by rewrite lookup_insert_ne].
    by rewrite lookup_insert_eq, Hi.
  - intros fd' _. unfold ino_of. cbn. destruct (decide (fd = fd')) as [<-|]; [|by rewrite lookup_insert_ne].
    by rewrite lookup_insert_eq, Hf.
Qed.
Lemma same_files_tick s : same_files s (with_tick (tick s + 1) s).
Proof. done. Qed.
Lemma same_files_pos fd ino pos pos' s :
  fds s !! fd = Some (ino, pos) -> same_files s (set_pos fd ino pos' (with_tick (tick s + 1) s)).
Proof.
  intros Hf. split; [done|]. intros fd' _. unfold ino_of. cbn.
  destruct (decide (fd = fd')) as [<-|]; [by rewrite lookup_insert_eq, Hf|by rewrite lookup_insert_ne].
Qed.

Ltac on_fd_cases :=
  unfold pp, on_fd, syscall; cbn [fds inodes with_tick];
  match goal with |- context [fds ?s !! ?fd] => destruct (fds s !! fd) as [[ino pos]|] eqn:Hf; [|done] end;
  match goal with |- context [inodes ?s !! ?ino] => destruct (inodes s !! ino) as [nd|] eqn:Hi; [|done] end;
  match goal with |- context [faults ?s ?t] => destruct (faults s t); [done|] end.

Lemma pp_seek fd off s : pp (seek fd off) (fun _ => same_files s) s.
Proof. unfold seek. on_fd_cases. by eapply same_files_pos. Qed.
Lemma pp_read fd n s : pp (read_exact fd n) (fun _ => same_files s) s.
Proof. unfold read_exact. on_fd_cases. destruct (_ && _); [by eapply same_files_update|by eapply same_files_pos]. Qed.
Lemma pp_metadata path s : pp (metadata path) (fun _ => same_files s) s.
Proof.
  unfold pp, metadata, on_path, syscall. destruct (has_nul path); [done|]. destruct (faults s (tick s)); [done|]. cbn.
  destruct (dir s !! path) as [ino|]; [|done]. by destruct (inodes s !! ino).
Qed.
Lemma pp_utimes path a m s : pp (utimes path a m) (fun _ => same_files s) s.
Proof.
  unfold pp, utimes, on_path, syscall. destruct (has_nul path); [done|]. destruct (faults s (tick s)); [done|]. cbn.
  destruct (dir s !! path) as [ino|]; [|done]. destruct (inodes s !! ino) as [nd|] eqn:Hi; [|done].
  split; [|done]. intros i. unfold versions_of. cbn.
  destruct (decide (ino = i)) as [<-|]; [by rewrite lookup_insert_eq, Hi|by rewrite lookup_insert_ne].
Qed.

(** The calls that write, on a file that is followed. *)
Section tracking.
Context (fd ino pos : Z) (d : bytes) (old : list bytes) (s : fs) (Ht : tracked fd ino pos d old s).

Lemma tracked_call {A} (body : option Z -> Z -> Z -> inode -> M fs (result A)) Q :
  (forall nd, i_data nd = d -> i_old nd = old -> pp (body (faults s (tick s)) ino pos nd) Q (with_tick (tick s + 1) s)) ->
  pp (on_fd fd body) Q s.
Proof using Ht.
  destruct Ht as (Hf & nd & Hi & Hd & Ho). intros H. unfold pp, on_fd, syscall in *. cbn [fds inodes with_tick].
  rewrite Hf, Hi. by apply H.
Qed.
Lemma tracked_same s' : same_files s s' -> exists pos', tracked fd ino pos' d old s'.
Proof using Ht.
  intros [V F]. destruct Ht as (Hf & nd & Hi & Hd & Ho). specialize (F fd ltac:(by rewrite Hf)). specialize (V ino).
  unfold ino_of, versions_of in *. rewrite Hf in F. rewrite Hi in V. apply fmap_Some in F as ([i p] & F & [= <-]).
  destruct (inodes s' !! ino) as [nd'|] eqn:Hi'; [|done]. injection V as V1 V2. exists p.
  split; [done|]. exists nd'. split_and!; congruence.
Qed.

Lemma pp_tracked_seek off : pp (seek fd off) (fun r s' => exists p, tracked fd ino p d old s' /\ (r = Ok tt -> p = off)) s.
Proof using Ht.
  unfold seek. apply tracked_call. intros nd Hd Ho. destruct Ht as (Hf & nd' & Hi & Ed & Eo). destruct (faults s (tick s)).
  - exists pos. split; [|done]. split; [done|]. by exists nd'.
  - exists off. split; [|done]. split; [apply lookup_insert_eq|]. by exists nd'.
Qed.
Lemma pp_tracked_write dat :
  pp (write_all fd dat) (fun r s' => exists p k, tracked fd ino p (write_at pos (takeZ k dat) d) (d :: old) s' /\
    (r = Ok tt -> p = pos + lenZ dat /\ takeZ k dat = dat)) s.
Proof using Ht.
  unfold write_all. apply tracked_call. intros nd <- <-. destruct (faults s (tick s)) as [k|].
  - exists (pos + lenZ (takeZ k dat)), k. split; [|done]. split; [apply lookup_insert_eq|].
    eexists. split; [apply lookup_insert_eq|done].
  - assert (takeZ (lenZ dat) dat = dat) as E by (by apply takeZ_all).
    exists (pos + lenZ dat), (lenZ dat). rewrite E. split; [|done]. split; [apply lookup_insert_eq|].
    eexists. split; [apply lookup_insert_eq|done].
Qed.
Lemma pp_tracked_sync :
  pp (sync_all fd) (fun r s' => tracked fd ino pos d (if is_ok r then [] else old) s') s.
Proof using Ht.
  unfold sync_all. apply tracked_call. intros nd <- <-. destruct Ht as (Hf & nd' & Hi & Ed & Eo).
  destruct (faults s (tick s)); (split; [done|]); [by exists nd'|]. eexists. split; [apply lookup_insert_eq|done].
Qed.
Lemma pp_tracked_set_len n :
  pp (set_len fd n) (fun r s' =>
    if is_ok r then tracked fd ino pos (resize n d) (d :: old) s' else tracked fd ino pos d old s') s.
Proof using Ht.
  unfold set_len. apply tracked_call. intros nd <- <-. destruct Ht as (Hf & nd' & Hi & Ed & Eo).
  destruct (faults s (tick s)); (split; [done|]); [by exists nd'|]. eexists. split; [apply lookup_insert_eq|done].
Qed.
End tracking.

(** * The versions of a vault's file through the calls on it *)

(** What a call adds to the versions: mixtures of the contents before and after it. *)
Definition later (d : bytes) (old : list bytes) (d' : bytes) (old' : list bytes) : Prop :=
  lenZ d' = lenZ d /\ forall w, w ∈ old' -> w ∈ old \/ mixed [d; d'] w.

Lemma mixed_before d d' : lenZ d' = lenZ d -> mixed [d; d'] d.
Proof.
  intros E. apply mixed_one; [by left|].
  by intros v [->|[->|[]%not_elem_of_nil]%elem_of_cons]%elem_of_cons.
Qed.
Lemma later_refl d old : later d old d old.
Proof. split; [done|]. auto. Qed.
Lemma later_flushed d old d' : lenZ d' = lenZ d -> later d old d' [].
Proof. intros E. split; [done|]. by intros w ?%elem_of_nil. Qed.
Lemma later_write off dat d old : 0 <= off -> off + lenZ dat <= lenZ d -> later d old (write_at off dat d) (d :: old).
Proof.
  intros H0 H. assert (lenZ (write_at off dat d) = lenZ d) as E by (by apply write_at_region). split; [done|].
  intros w [->|Hw]%elem_of_cons; [right; by apply mixed_before|by left].
Qed.
(** Two writes one after the other. *)
Lemma later_writes off d1 d2 d old :
  0 <= off -> off + lenZ d1 + lenZ d2 <= lenZ d ->
  later d old (write_at (off + lenZ d1) d2 (write_at off d1 d)) (write_at off d1 d :: d :: old).
Proof.
  intros H0 H. pose proof (lenZ_nonneg d1). pose proof (lenZ_nonneg d2). rewrite write_at_app by lia.
  assert (lenZ (write_at off (d1 ++ d2) d) = lenZ d) as E by (apply write_at_region; len_lia). split; [done|].
  intros w [->|[->|Hw]%elem_of_cons]%elem_of_cons; [right|right; by apply mixed_before|by left].
  rewrite <- (takeZ_app_exact (lenZ d1) d1 d2) at 2 by done. apply mixed_write; len_lia.
Qed.

Section volume.
Context `{HP : Primitives} `{HB : BuildProfile} `{HOk : !PrimitivesOk HP}.

(** The volume's file holds [d] and may return to [old]. *)
Definition holds (ino : Z) (d : bytes) (old : list bytes) (e : vol_env) : Prop :=
  exists pos, tracked (file (e_vol e)) ino pos d old (e_fs e).

(** After a call: its versions, and whether what it reports as done is flushed; a call that
    does not flush leaves the contents before it possible. *)
Definition tracks {A} (flushes : Prop) (ino : Z) (d : bytes) (old : list bytes) (r : result A) (e' : vol_env) : Prop :=
  exists d' old', holds ino d' old' e' /\ later d old d' old' /\
    (flushes -> is_ok r = true -> old' = [] \/ d' = d) /\ (flushes \/ d ∈ d' :: old').

Lemma tracks_same {A} F ino d old (r : result A) e' : holds ino d old e' -> tracks F ino d old r e'.
Proof. intros H. exists d, old. split; [done|]. split; [apply later_refl|]. split; [auto|right; by left]. Qed.
Lemma tracks_err {A} F ino d old d' old' err e' :
  holds ino d' old' e' -> later d old d' old' -> d ∈ d' :: old' -> tracks F ino d old (@Err A err) e'.
Proof. intros Hh Hl Hd. exists d', old'. do 2 (split; [done|]). split; [done|by right]. Qed.
Lemma holds_files ino d old e e' :
  holds ino d old e -> e_vol e' = e_vol e -> same_files (e_fs e) (e_fs e') -> holds ino d old e'.
Proof. intros [pos H] V S. unfold holds. rewrite V. by eapply tracked_same. Qed.

(** ** One call after the other *)
Section steps.
Context {A : Type} (k : M vol_env (result A)) (Q : result A -> vol_env -> Prop).
Context (fd ino pos : Z) (d : bytes) (old : list bytes) (e : vol_env) (Ht : tracked fd ino pos d old (e_fs e)).

Lemma io_seek off :
  (forall e', e_vol e' = e_vol e -> tracked fd ino off d old (e_fs e') -> pp k Q e') ->
  (forall err e' p, e_vol e' = e_vol e -> tracked fd ino p d old (e_fs e') -> Q (Err err) e') ->
  pp (io (seek fd off) ;;? k) Q e.
Proof using Ht.
  intros Hk HErr. apply pp_bind, pp_zoom. eapply pp_mono; [by eapply pp_tracked_seek|].
  intros r s' (p & Hp & Hr). apply pp_try; [intros [] ->|intros err ->].
  - rewrite (Hr eq_refl) in Hp. by apply Hk.
  - by eapply HErr.
Qed.
Lemma io_write dat :
  (forall e', e_vol e' = e_vol e -> tracked fd ino (pos + lenZ dat) (write_at pos dat d) (d :: old) (e_fs e') -> pp k Q e') ->
  (forall err e' p j, e_vol e' = e_vol e -> tracked fd ino p (write_at pos (takeZ j dat) d) (d :: old) (e_fs e') ->
     Q (Err err) e') ->
  pp (io (write_all fd dat) ;;? k) Q e.
Proof using Ht.
  intros Hk HErr. apply pp_bind, pp_zoom. eapply pp_mono; [by eapply pp_tracked_write|].
  intros r s' (p & j & Hp & Hr). apply pp_try; [intros [] ->|intros err ->].
  - destruct (Hr eq_refl) as [-> E]. rewrite E in Hp. by apply Hk.
  - by eapply HErr.
Qed.
Lemma io_sync :
  (forall e', e_vol e' = e_vol e -> tracked fd ino pos d [] (e_fs e') -> pp k Q e') ->
  (forall err e', e_vol e' = e_vol e -> tracked fd ino pos d old (e_fs e') -> Q (Err err) e') ->
  pp (io (sync_all fd) ;;? k) Q e.
Proof using Ht.
  intros Hk HErr. apply pp_bind, pp_zoom. eapply pp_mono; [by eapply pp_tracked_sync|].
  intros r s' Hp. apply pp_try; [intros [] ->|intros err ->]; [by apply Hk|by apply HErr].
Qed.
End steps.

Lemma pp_freeze e : pp freeze_timestamps (fun _ e' => e_vol e' = e_vol e /\ same_files (e_fs e) (e_fs e')) e.
Proof.
  apply pp_bind. cbn. apply pp_bind, pp_zoom. eapply pp_mono; [apply pp_metadata|]. intros r s1 S1.
  apply pp_try; [|done]. intros meta _. destruct (has_nul _); [done|]. apply pp_zoom.
  eapply pp_mono; [apply pp_utimes|]. intros r2 s2 S2. split; [done|]. exact (same_files_trans _ _ _ S1 S2).
Qed.
(** The end of a method that has written. *)
Lemma io_freeze F ino d old d' old' e :
  holds ino d' old' e -> later d old d' old' -> (F -> old' = [] \/ d' = d) -> F \/ d ∈ d' :: old' ->
  pp (freeze_timestamps ;;? mret (Ok tt)) (tracks F ino d old) e.
Proof.
  intros Hh Hl HF Hd. apply pp_bind. eapply pp_mono; [apply pp_freeze|]. intros r e' [V S].
  pose proof (holds_files _ _ _ _ _ Hh V S) as Hh'.
  apply pp_try; [intros [] _; apply pp_ret|intros err _]; exists d', old'; (split; [done|]); (split; [done|]); naive_solver.
Qed.

(** ** The methods *)

(** The bitmap and the block [i] lie in the file. *)
Definition fits (d : bytes) (e : vol_env) : Prop :=
  lenZ (block_bitmap (e_vol e)) = BITMAP_BYTES /\ lenZ d = total_blocks (e_vol e) * BLOCK_SIZE /\
  DATA_START_BLOCK <= total_blocks (e_vol e) <= DATA_START_BLOCK + MAX_DATA_BLOCKS.

Lemma pp_write_bitmap ino d old e :
  holds ino d old e -> fits d e -> pp write_bitmap (tracks True ino d old) e.
Proof.
  intros [pos Ht] (Hb & Hl & Htot). apply pp_bind. cbn. apply pp_bind.
  unfold debug_assert. destruct (_ && _); [done|]. cbn.
  eapply (io_seek _ _ _ _ _ _ _ _ Ht).
  2:{ intros err e' p V H. apply tracks_same. exists p. by rewrite V. }
  intros e1 V1 T1. rewrite <- V1 in *. eapply (io_write _ _ _ _ _ _ _ _ T1).
  2:{ intros err e' p j V H. eapply tracks_err; [exists p; by rewrite V| |right; by left]. apply later_write; vlen_lia. }
  intros e2 V2 T2. rewrite <- V2 in *. eapply (io_sync _ _ _ _ _ _ _ _ T2).
  2:{ intros err e' V H. eapply tracks_err; [eexists; by rewrite V| |right; by left]. apply later_write; vlia. }
  intros e3 V3 T3. rewrite <- V3 in *.
  apply io_freeze with (d' := write_at (BITMAP_START_BLOCK * BLOCK_SIZE) (block_bitmap (e_vol e3)) d) (old' := []);
    [by eexists| |by left|by left]. apply later_flushed. apply write_at_region; vlia.
Qed.

(** A change of the bitmap in memory. *)
Definition keeps_size (f : bytes -> Z -> option bytes) : Prop :=
  forall bm i bm', f bm i = Some bm' -> lenZ bm' = lenZ bm.
Lemma bit_set_size : keeps_size bit_set.
Proof. intros bm i bm'. unfold bit_set. destruct (nthZ _ _); [|done]. intros [= <-]. apply lenZ_setZ. Qed.
Lemma bit_clear_size : keeps_size bit_clear.
Proof. intros bm i bm'. unfold bit_clear. destruct (nthZ _ _); [|done]. intros [= <-]. apply lenZ_setZ. Qed.

Lemma pp_update {A} f n i ino d old (k : M vol_env (result A)) Q e :
  keeps_size f -> holds ino d old e -> fits d e ->
  (forall e', holds ino d old e' -> fits d e' -> pp k Q e') -> pp (mark f i;; add_free n;; k) Q e.
Proof.
  intros Hf Hh (Hb & Hfit) Hk. apply pp_bind. apply pp_bind. cbn. apply pp_bind, pp_unwrap. intros bm E. cbn.
  apply pp_bind. apply pp_bind. cbn. apply pp_bind, pp_chk_u. intros free. cbn. apply Hk; [exact Hh|].
  split; [|exact Hfit]. cbn. by rewrite (Hf _ _ _ E).
Qed.

Lemma pp_check {A} i F ino d old (k : M vol_env (result A)) e :
  holds ino d old e -> (in_data (e_vol e) i -> pp k (tracks F ino d old) e) ->
  pp (check_data_block i ;;? k) (tracks F ino d old) e.
Proof.
  intros Hh Hk. apply pp_bind. unfold pp at 1. destruct (decide (in_data (e_vol e) i)) as [Hi|Hi].
  - rewrite check_data_block_ok by done. by apply Hk.
  - rewrite check_data_block_err by done. by apply pp_ret, tracks_same.
Qed.

(** The same call with another reply. *)
Lemma pp_reply {A B} (f : A -> B) (m : M vol_env (result A)) F ino d old e :
  pp m (tracks F ino d old) e -> pp (a <-? m; mret (Ok (f a))) (tracks F ino d old) e.
Proof.
  intros H. apply pp_bind. eapply pp_mono; [exact H|].
  intros [a|err] e' (d' & old' & Hh' & Hl & HF); apply pp_ret; by exists d', old'.
Qed.
Lemma pp_persist {A} (a : A) ino d old e :
  holds ino d old e -> fits d e -> pp (write_bitmap ;;? mret (Ok a)) (tracks True ino d old) e.
Proof. intros Hh Hf. by apply (pp_reply (fun _ => a)), pp_write_bitmap. Qed.

Lemma pp_scan ino d old idxs e :
  holds ino d old e -> fits d e -> pp (allocate_scan idxs) (tracks True ino d old) e.
Proof.
  intros Hh Hf. induction idxs as [|i idxs IH]; cbn [allocate_scan]; [by apply pp_ret, tracks_same|].
  apply pp_bind. cbn. apply pp_bind, pp_unwrap. intros [] _; [|done].
  apply (pp_update _ _ _ ino d old); [apply bit_set_size|done..|]. intros e1 Hh1 Hf1. by apply pp_persist.
Qed.

Lemma pp_run_alloc op ino d old e :
  holds ino d old e -> fits d e -> pp (run_alloc op) (tracks True ino d old) e.
Proof.
  intros Hh Hf. destruct op as [|i|i]; cbn [run_alloc].
  - apply pp_bind. cbn. destruct (_ =? _); [by apply pp_ret, tracks_same|].
    apply pp_bind, pp_chk_u. intros n. by apply pp_scan.
  - apply (pp_reply (fun _ => i)), pp_check; [done|]. intros _. apply pp_bind. cbn. apply pp_bind, pp_unwrap. intros free _.
    destruct free; cbn; [|by apply pp_ret, tracks_same].
    apply (pp_update _ _ _ ino d old); [apply bit_set_size|done..|]. intros e1 Hh1 Hf1. by apply pp_write_bitmap.
  - apply (pp_reply (fun _ => i)), pp_check; [done|]. intros _. apply pp_bind. cbn. apply pp_bind, pp_unwrap. intros free _.
    destruct free; cbn; [by apply pp_ret, tracks_same|].
    apply (pp_update _ _ _ ino d old); [apply bit_clear_size|done..|]. intros e1 Hh1 Hf1. by apply pp_persist.
Qed.

Lemma block_inside d e i :
  fits d e -> in_data (e_vol e) i -> 0 <= i * BLOCK_SIZE /\ i * BLOCK_SIZE + BLOCK_SIZE <= lenZ d /\
  is_u 64 (i * BLOCK_SIZE).
Proof. intros (_ & -> & H) [H1 H2]. unfold is_u. split_and!; vlia. Qed.

Lemma pp_write_block i p ino d old e :
  holds ino d old e -> fits d e -> lenZ p = PAYLOAD_SIZE -> pp (write_block i p) (tracks False ino d old) e.
Proof using HOk.
  intros Hh Hf Hp. apply pp_check; [done|]. intros Hi. destruct (block_inside _ _ _ Hf Hi) as (H0 & Hin & Hu).
  destruct Hh as [pos Ht]. apply pp_bind. cbn. apply pp_bind. cbn. set (nonce := (fill_bytes NONCE_SIZE (e_rng e)).1).
  assert (lenZ nonce = NONCE_SIZE) as Hn by (by apply fill_len). set (e0 := with_erng _ e).
  destruct (chacha_encrypt _ nonce p) as [c|] eqn:Ec; [|apply pp_ret, tracks_same; by exists pos].
  pose proof (aead_len chacha_ok _ _ [] _ _ Ec) as Hc. apply pp_bind. unfold debug_assert. destruct (_ && _); [done|]. cbn.
  apply pp_bind. unfold pp at 1. rewrite chk_u_ok by done.
  change (e_fs e) with (e_fs e0) in Ht. change (e_vol e) with (e_vol e0) in Ht |- *. eapply (io_seek _ _ _ _ _ _ _ _ Ht).
  2:{ intros err e' q V H. apply tracks_same. exists q. by rewrite V. }
  intros e1 V1 T1. rewrite <- V1 in *. eapply (io_write _ _ _ _ _ _ _ _ T1).
  2:{ intros err e' q j V H. eapply tracks_err; [exists q; by rewrite V| |right; by left]. apply later_write; vlen_lia. }
  intros e2 V2 T2. rewrite <- V2 in *. eapply (io_write _ _ _ _ _ _ _ _ T2).
  2:{ intros err e' q j V H. eapply tracks_err; [exists q; by rewrite V| |right; right; by left]. apply later_writes; vlen_lia. }
  intros e3 V3 T3. rewrite <- V3 in *. eapply io_freeze; [by eexists|apply later_writes; vlen_lia|done|right; right; right; by left].
Qed.

Lemma pp_write_raw i raw ino d old e :
  holds ino d old e -> fits d e -> lenZ raw = BLOCK_SIZE -> pp (write_block_raw i raw) (tracks False ino d old) e.
Proof.
  intros Hh Hf Hp. apply pp_check; [done|]. intros Hi. destruct (block_inside _ _ _ Hf Hi) as (H0 & Hin & Hu).
  destruct Hh as [pos Ht]. apply pp_bind. cbn. apply pp_bind. unfold pp at 1. rewrite chk_u_ok by done.
  eapply (io_seek _ _ _ _ _ _ _ _ Ht).
  2:{ intros err e' q V H. apply tracks_same. exists q. by rewrite V. }
  intros e1 V1 T1. rewrite <- V1 in *. eapply (io_write _ _ _ _ _ _ _ _ T1).
  2:{ intros err e' q j V H. eapply tracks_err; [exists q; by rewrite V| |right; by left]. apply later_write; vlen_lia. }
  intros e2 V2 T2. rewrite <- V2 in *. apply pp_ret. eexists _, _.
  split; [by eexists|]. split; [apply later_write; vlia|]. split; [done|right; right; by left].
Qed.

(** Reading: seek, then read. *)
Lemma pp_seek_read {A} fd off n (k : bytes -> M vol_env (result A)) e :
  (forall raw e', pp (k raw) (fun _ e'' => e'' = e') e') ->
  pp (io (seek fd off) ;;? (raw <-? io (read_exact fd n); k raw))
    (fun _ e' => e_vol e' = e_vol e /\ same_files (e_fs e) (e_fs e')) e.
Proof.
  intros Hk. apply pp_bind, pp_zoom. eapply pp_mono; [apply pp_seek|]. intros r s1 S1. apply pp_try; [|done].
  intros _ _. apply pp_bind, pp_zoom. eapply pp_mono; [apply pp_read|]. intros r2 s2 S2.
  assert (same_files (e_fs e) s2) as S by exact (same_files_trans _ _ _ S1 S2).
  apply pp_try; [|done]. intros raw _. eapply pp_mono; [apply Hk|]. by intros r3 e3 ->.
Qed.
Lemma pp_read_block i ino d old e : holds ino d old e -> pp (read_block i) (tracks False ino d old) e.
Proof.
  intros Hh. apply pp_check; [done|]. intros _. apply pp_bind. cbn. apply pp_bind, pp_chk_u. intros off.
  eapply pp_mono; [apply pp_seek_read|].
  - intros raw e'. cbv zeta. destruct (chacha_decrypt _ _ _); [|done]. by destruct (_ =? _).
  - intros r e' [V S]. apply tracks_same. by eapply holds_files.
Qed.
Lemma pp_read_raw i ino d old e : holds ino d old e -> pp (read_block_raw i) (tracks False ino d old) e.
Proof.
  intros Hh. apply pp_check; [done|]. intros _. apply pp_bind. cbn. apply pp_bind, pp_chk_u. intros off.
  eapply pp_mono; [by apply pp_seek_read|]. intros r e' [V S]. apply tracks_same. by eapply holds_files.
Qed.

(** A bitmap that is written has been flushed, and with it all that was written before. *)
Lemma pp_bitmap_flushed ino d old e :
  holds ino d old e -> pp write_bitmap (fun r e' => is_ok r = true -> exists d', holds ino d' [] e') e.
Proof.
  intros [pos Ht]. apply pp_bind. cbn. apply pp_bind. unfold debug_assert. destruct (_ && _); [done|]. cbn.
  eapply (io_seek _ _ _ _ _ _ _ _ Ht); [|done]. intros e1 V1 T1. rewrite <- V1 in *.
  eapply (io_write _ _ _ _ _ _ _ _ T1); [|done]. intros e2 V2 T2. rewrite <- V2 in *.
  eapply (io_sync _ _ _ _ _ _ _ _ T2); [|done]. intros e3 V3 T3. rewrite <- V3 in *.
  apply pp_bind. eapply pp_mono; [apply pp_freeze|]. intros r e' [V S]. apply pp_try; [|by intros err ->].
  intros _ _. apply pp_ret. intros _. eexists. eapply holds_files; [by eexists|done..].
Qed.
Lemma pp_free_flushed i ino d old e :
  holds ino d old e -> fits d e -> pp (free_block i) (fun r e' => is_ok r = true -> exists d', holds ino d' [] e') e.
Proof.
  intros Hh Hf. apply pp_bind. unfold pp at 1.
  destruct (decide (in_data (e_vol e) i)) as [Hi|Hi]; [rewrite check_data_block_ok by done|by rewrite check_data_block_err].
  apply pp_bind. cbn. apply pp_bind, pp_unwrap. intros free _. destruct free; [done|].
  apply (pp_update _ _ _ ino d old); [apply bit_clear_size|done..|]. intros e1 Hh1 _.
  apply pp_bind. eapply pp_mono; [by eapply pp_bitmap_flushed|]. intros [[]|err] e' H; apply pp_ret; [by apply H|done].
Qed.

(** Every call; an allocation reported as done is flushed, with all that was written before. *)
Definition flushing (op : vol_op) : Prop := match op with VAlloc _ => True | _ => False end.
Lemma run_vol_tracked op ino d old e :
  vol_op_typed op -> holds ino d old e -> fits d e -> pp (run_vol op) (tracks (flushing op) ino d old) e.
Proof using HOk.
  intros Hty Hh Hf.
  destruct op as [op|i|i p|i|i raw]; cbn [run_vol flushing vol_op_typed] in *.
  - by apply (pp_reply (fun _ => tt)), pp_run_alloc.
  - by apply (pp_reply (fun _ => tt)), pp_read_block.
  - by apply pp_write_block.
  - by apply (pp_reply (fun _ => tt)), pp_read_raw.
  - by apply pp_write_raw.
Qed.
End volume.
