(* ===== verification/DiskWipe.v ===== *)
(** [disk_wipe.rs]: the multi-pass purge of a vault file.

    Both overwrite loops are [pass], over the chunk each writes.  Loops take fuel; running
    out of it is a panic, which the theorems exclude.  [wp_purge_durable] adds that what the
    purge has removed does not come back when the power fails. *)
From stdpp Require Import gmap.
From S2P Require Import Prelude Effects Crypto StdFs VolumeProofs VolumeOpen Durability.

Definition WIPE_CHUNK : Z := 4096.

Section wipe.
Context `{HP : Primitives}.

Record wipe_env := WipeEnv { w_fs : fs; w_rng : rng }.
Definition wfs_lens : lens fs wipe_env := Lens w_fs (fun x e => WipeEnv x (w_rng e)).
Definition wrng_lens : lens rng wipe_env := Lens w_rng (fun x e => WipeEnv (w_fs e) x).
Definition wio {A} (m : M fs A) : M wipe_env A := zoom wfs_lens m.

(** [while remaining > 0 { ... file.write_all(&chunk[..take])?; remaining -= take; }] *)
Fixpoint pass (chunk : Z -> M wipe_env bytes) (fuel : nat) (file remaining : Z) : M wipe_env (result unit) :=
  if remaining <=? 0 then mret (Ok tt)
  else match fuel with
  | O => panic
  | S fuel =>
      let take := Z.min remaining WIPE_CHUNK in
      data ← chunk take;
      wio (write_all file data) ;;?
      pass chunk fuel file (remaining - take)
  end.
Definition pass_fuel (size : Z) : nat := Z.to_nat (size / WIPE_CHUNK + 1).

Definition random_pass (file size : Z) : M wipe_env (result unit) :=
  pass (fun take => zoom wrng_lens (draw_bytes take)) (pass_fuel size) file size.
Definition zero_pass (file size : Z) : M wipe_env (result unit) :=
  pass (fun take => mret (repZ take 0)) (pass_fuel size) file size.

(** The two passes, each flushed. *)
Definition overwrite (file file_size : Z) : M wipe_env (result unit) :=
  wio (seek file 0) ;;?
  random_pass file file_size ;;?
  wio (sync_all file) ;;?
  wio (seek file 0) ;;?
  zero_pass file file_size ;;?
  wio (sync_all file).

Definition truncate_file (file : Z) : M wipe_env (result unit) :=
  wio (set_len file 0) ;;? wio (sync_all file).

(** The file is dropped on every path out of the function. *)
Definition purge_entire_vault (path : string) : M wipe_env (result unit) :=
  meta <-? wio (metadata path);
  let file_size := lenZ (i_data meta) in
  if file_size =? 0 then mret (Ok tt)
  else
    file <-? wio (open_rw path);
    r ← (overwrite file file_size ;;? truncate_file file);
    wio (close file);;
    mret r.

(** * Rules *)

(** What the purge has done so far to the file opened on [ino]: only its contents changed,
    and they are [d]. *)
Definition wiping (fd ino : Z) (s0 : fs) (e : wipe_env) (d : bytes) : Prop :=
  dir (w_fs e) = dir s0 /\ faults (w_fs e) = faults s0 /\ open_on (w_fs e) fd ino d /\
  (forall i, i <> ino -> data_of (w_fs e) i = data_of s0 i) /\
  (forall fd', fd' <> fd -> ino_of (w_fs e) fd' = ino_of s0 fd').

Lemma wiping_step fd ino s0 e d s d' :
  wiping fd ino s0 e d -> only_changes ino (w_fs e) s -> open_on s fd ino d' ->
  wiping fd ino s0 (WipeEnv s (w_rng e)) d'.
Proof.
  intros (D & L & O & I & F) (D' & F' & I' & _ & _ & L' & _) Ho.
  split; [cbn; congruence|]. split; [cbn; congruence|]. split; [done|]. cbn. split.
  - intros i Hi. by rewrite I', I.
  - intros fd' Hfd. by rewrite F', F.
Qed.

Lemma wiping_faulty fd ino s0 e d : wiping fd ino s0 e d -> faulty (w_fs e) -> ~ quiet s0.
Proof. intros (_ & L & _) [k E] H. by rewrite L, H in E. Qed.

Section steps.
Context (fd ino : Z) (s0 : fs).
Abbreviation sofar := (wiping fd ino s0).
Context (Q : result unit -> wipe_env -> Prop).
Context (HErr : forall err e d, sofar e d -> ~ quiet s0 -> Q (Err err) e).

Lemma w_seek e d off k :
  sofar e d -> (forall e', sofar e' d -> fds (w_fs e') !! fd = Some (ino, off) -> wp k Q e') ->
  wp (wio (seek fd off) ;;? k) Q e.
Proof using HErr.
  intros Hs Hk. assert (open_on (w_fs e) fd ino d) as Ho by apply Hs.
  apply wp_bind, wp_zoom. cbn [lget wfs_lens].
  apply (wp_seek fd ino off _ d); [done| |].
  - intros nd s' -> Hnd <-. apply wp_try; [|done]. intros ? _. apply Hk; [|apply fd_update_pos].
    eapply wiping_step; [done|by apply fd_update_only, Ho|by apply fd_update_open, Ho].
  - intros s' Hf Hc Ho'. apply wp_try; [done|]. intros ? _.
    eapply HErr; [by eapply wiping_step|by eapply wiping_faulty].
Qed.

Lemma w_write e d pos dat k :
  sofar e d -> fds (w_fs e) !! fd = Some (ino, pos) ->
  (forall e', sofar e' (write_at pos dat d) -> w_rng e' = w_rng e ->
     fds (w_fs e') !! fd = Some (ino, pos + lenZ dat) -> wp k Q e') ->
  wp (wio (write_all fd dat) ;;? k) Q e.
Proof using HErr.
  intros Hs Hp Hk. assert (open_on (w_fs e) fd ino d) as [Hi Hd] by apply Hs.
  apply wp_bind, wp_zoom. cbn [lget wfs_lens].
  apply (wp_write_all fd ino dat _ pos d); [done..| |].
  - intros at' o s' ->. apply wp_try; [|done]. intros ? _. apply Hk; [|done|apply fd_update_pos].
    eapply wiping_step; [done|by apply fd_update_only|by apply (fd_update_open _ _ _ (Inode _ _ _ _))].
  - intros n s' Hf Hc Ho. apply wp_try; [done|]. intros ? _.
    eapply HErr; [by eapply wiping_step|by eapply wiping_faulty].
Qed.

Lemma w_sync e d : sofar e d -> (forall e', sofar e' d -> Q (Ok tt) e') -> wp (wio (sync_all fd)) Q e.
Proof using HErr.
  intros Hs Hk. assert (open_on (w_fs e) fd ino d) as Ho by apply Hs.
  apply wp_zoom. cbn [lget wfs_lens]. apply (wp_sync_all fd ino _ d); [done|].
  intros r s' Hr _ Hc Ho'. assert (sofar (WipeEnv s' (w_rng e)) d) by (by eapply wiping_step).
  destruct Hr as [->|[-> Hf]]; [by apply Hk|]. eapply HErr; [done|by apply (wiping_faulty fd ino s0 e d)].
Qed.

Lemma w_set_len e d n k :
  sofar e d -> (forall e', sofar e' (resize n d) -> wp k Q e') -> wp (wio (set_len fd n) ;;? k) Q e.
Proof using HErr.
  intros Hs Hk. apply wp_bind, wp_zoom. cbn [lget wfs_lens].
  apply (wp_set_len fd ino n _ d); [by apply Hs| |].
  - intros s' Hc Ho. apply wp_try; [|done]. intros ? _. apply Hk. by eapply wiping_step.
  - intros s' Hf Hc Ho. apply wp_try; [done|]. intros ? _.
    eapply HErr; [by eapply wiping_step|by eapply wiping_faulty].
Qed.
End steps.

(** ** The overwrite loop *)

Context `{!PrimitivesOk HP}.

(** A chunk source that gives chunks of the right size whose bytes satisfy [P]. *)
Definition chunk_ok (P : Z -> Prop) (chunk : Z -> M wipe_env bytes) : Prop :=
  forall n e, 0 <= n -> exists b r, chunk n e = Done b (WipeEnv (w_fs e) r) /\ lenZ b = n /\ Forall P b.

Lemma write_at_grow (P : Z -> Prop) pos dat d d' :
  0 <= pos -> pos + lenZ dat <= lenZ d -> Forall P dat ->
  lenZ d' = lenZ d -> takeZ (pos + lenZ dat) d' = takeZ (pos + lenZ dat) (write_at pos dat d) ->
  Forall P (dropZ (pos + lenZ dat) d') ->
  takeZ pos d' = takeZ pos d /\ Forall P (dropZ pos d').
Proof.
  intros Hp Hl HP' Hlen Ht Hd. pose proof (lenZ_nonneg dat) as Hn.
  destruct (write_at_region pos dat d Hp Hl) as (_ & R1 & _).
  pose proof (write_at_slice pos dat d Hp Hl) as R2. split.
  - rewrite <- R1. apply (f_equal (takeZ pos)) in Ht. rewrite !takeZ_takeZ in Ht.
    by replace (pos `min` (pos + lenZ dat)) with pos in Ht by lia.
  - rewrite <- (takeZ_dropZ (lenZ dat) (dropZ pos d')). apply Forall_app. split.
    + assert (takeZ (lenZ dat) (dropZ pos d') = dat) as ->; [|done].
      rewrite takeZ_dropZ_comm, Ht, <- takeZ_dropZ_comm by lia. rewrite <- R2 at 3.
      unfold slice. f_equal. lia.
    + by rewrite dropZ_dropZ by lia.
Qed.

Lemma wp_pass P chunk fuel fd ino s0 e d pos remaining (Q : result unit -> wipe_env -> Prop) :
  chunk_ok P chunk ->
  (forall err e d, wiping fd ino s0 e d -> ~ quiet s0 -> Q (Err err) e) ->
  wiping fd ino s0 e d -> fds (w_fs e) !! fd = Some (ino, pos) -> 0 <= pos -> 0 <= remaining ->
  pos + remaining = lenZ d -> remaining <= Z.of_nat fuel * WIPE_CHUNK ->
  (forall e' d', wiping fd ino s0 e' d' -> lenZ d' = lenZ d -> takeZ pos d' = takeZ pos d ->
     Forall P (dropZ pos d') -> Q (Ok tt) e') ->
  wp (pass chunk fuel fd remaining) Q e.
Proof.
  intros Hc HErr. revert e d pos remaining.
  induction fuel as [|fuel IH]; intros e d pos remaining Hs Hp H0 Hr Hl Hf HQ; cbn [pass];
    destruct (Z.leb_spec remaining 0); try (unfold WIPE_CHUNK in *; lia).
  1,2: apply wp_ret, (HQ e d); [done..|]; rewrite dropZ_all by lia; constructor.
  set (take := Z.min remaining WIPE_CHUNK).
  assert (0 < take <= remaining) as Ht by (unfold take, WIPE_CHUNK; lia).
  destruct (Hc take e) as (b & r & E & Hb & HPb); [lia|].
  apply wp_bind. eapply wp_done; [exact E|].
  assert (wiping fd ino s0 (WipeEnv (w_fs e) r) d) as Hs1 by done.
  eapply (w_write fd ino s0 Q HErr); [exact Hs1|exact Hp|]. intros e2 Hs2 _ Hp2.
  assert (lenZ (write_at pos b d) = lenZ d) as Hlw by (apply write_at_region; lia).
  eapply IH; [done|done|lia|lia|rewrite Hlw, Hb; lia|unfold take, WIPE_CHUNK in *; lia|].
  intros e3 d3 Hs3 Hl3 Ht3 HP3. rewrite Hlw in Hl3.
  destruct (write_at_grow P pos b d d3) as [? ?]; [lia..|done|done|done|done|]. by eapply HQ.
Qed.

Lemma random_chunk_ok : chunk_ok is_byte (fun take => zoom wrng_lens (draw_bytes take)).
Proof.
  intros n e Hn. eexists _, _. split; [done|]. split; [by apply fill_len|apply fill_bytes_ok].
Qed.
Lemma zero_chunk_ok : chunk_ok (eq 0) (fun take => mret (repZ take 0)).
Proof.
  intros n [s r] Hn. eexists _, r. split; [done|]. split; [rewrite lenZ_repZ; lia|]. by apply Forall_replicate.
Qed.

Lemma all_zero d : Forall (eq 0) d -> d = repZ (lenZ d) 0.
Proof.
  intros H. unfold repZ, lenZ. rewrite Nat2Z.id. induction H as [|x l <- Hl IH]; [done|].
  simpl. by rewrite <- IH.
Qed.

Lemma pass_fuel_enough size : 0 <= size -> size <= Z.of_nat (pass_fuel size) * WIPE_CHUNK.
Proof.
  intros H. unfold pass_fuel, WIPE_CHUNK. pose proof (Z.div_mod size 4096).
  pose proof (Z.mod_pos_bound size 4096). pose proof (Z.div_pos size 4096). lia.
Qed.

(** Both passes leave zeros over the whole length of the file. *)
Lemma wp_overwrite fd ino s0 e d (Q : result unit -> wipe_env -> Prop) :
  (forall err e d, wiping fd ino s0 e d -> ~ quiet s0 -> Q (Err err) e) ->
  wiping fd ino s0 e d ->
  (forall e', wiping fd ino s0 e' (repZ (lenZ d) 0) -> Q (Ok tt) e') ->
  wp (overwrite fd (lenZ d)) Q e.
Proof.
  intros HErr Hs HQ. pose proof (lenZ_nonneg d) as Hn. pose proof (pass_fuel_enough _ Hn) as Hfuel.
  eapply w_seek; [done..|]. intros e1 H1 P1. apply wp_bind.
  eapply (wp_pass is_byte); [apply random_chunk_ok| |exact H1|exact P1|lia|done|lia|done|].
  { intros err e2 d2 Hs2 Hq. apply wp_ret. by eapply HErr. }
  intros e2 d2 H2 L2 _ _. apply wp_bind. eapply w_sync; [| |].
  2: exact H2.
  { intros err e3 d3 Hs3 Hq. apply wp_ret. by eapply HErr. }
  intros e3 H3. eapply w_seek; [done..|]. intros e4 H4 P4. apply wp_bind.
  eapply (wp_pass (eq 0)); [apply zero_chunk_ok| |exact H4|exact P4|lia|done|lia|done|].
  { intros err e5 d5 Hs5 Hq. apply wp_ret. by eapply HErr. }
  intros e5 d5 H5 L5 _ HZ. rewrite dropZ_0 in HZ. apply all_zero in HZ.
  eapply w_sync; [exact HErr|exact H5|]. intros e6 H6. apply HQ. by rewrite HZ, L5, L2 in H6.
Qed.

(** [C36] The two overwrite passes under any I/O errors: they terminate without a panic for
    every file size, change no other file, and when they report success every byte of the
    file is zero and its length is unchanged; without I/O errors they report success.  (What
    the random pass wrote is overwritten by the pass of zeros and cannot be seen here.) *)
Theorem overwrite_zeroes fd ino e d :
  open_on (w_fs e) fd ino d ->
  exists r e', overwrite fd (lenZ d) e = Done r e' /\
    (r = Ok tt -> data_of (w_fs e') ino = Some (repZ (lenZ d) 0)) /\
    (quiet (w_fs e) -> r = Ok tt) /\ dir (w_fs e') = dir (w_fs e) /\
    (forall i, i <> ino -> data_of (w_fs e') i = data_of (w_fs e) i).
Proof.
  intros Ho. assert (wp (overwrite fd (lenZ d)) (fun r e' => exists d', wiping fd ino (w_fs e) e' d' /\
    (r = Ok tt /\ d' = repZ (lenZ d) 0 \/ (exists err, r = Err err) /\ ~ quiet (w_fs e))) e) as W.
  { eapply (wp_overwrite fd ino (w_fs e)).
    - intros err e1 d1 H1 Hq. exists d1. eauto.
    - split_and!; try done; apply Ho.
    - intros e1 H1. eauto. }
  apply wp_inv in W as (r & e' & E & d' & (D & _ & [_ Hd] & I & _) & Hr). exists r, e'.
  split_and!; [done| | |done|done].
  - intros ->. by destruct Hr as [[_ ->]|[[? [=]] _]].
  - intros Hq. by destruct Hr as [[? _]|[_ Hbad]].
Qed.

Lemma wp_truncate fd ino s0 e d (Q : result unit -> wipe_env -> Prop) :
  (forall err e d, wiping fd ino s0 e d -> ~ quiet s0 -> Q (Err err) e) ->
  wiping fd ino s0 e d -> (forall e', wiping fd ino s0 e' [] -> Q (Ok tt) e') ->
  wp (truncate_file fd) Q e.
Proof.
  intros HErr Hs HQ. eapply w_set_len; [done..|]. intros e1 H1.
  assert (resize 0 d = []) as E.
  { unfold resize, repZ. rewrite takeZ_0. pose proof (lenZ_nonneg d).
    by replace (Z.to_nat (0 - lenZ d)) with 0%nat by lia. }
  rewrite E in H1. by eapply w_sync.
Qed.

(** What the purge leaves behind, whatever it returns. *)
Definition purged (s0 : fs) (ino : Z) (r : result unit) (e' : wipe_env) : Prop :=
  (r = Ok tt -> data_of (w_fs e') ino = Some []) /\ (quiet s0 -> r = Ok tt) /\ dir (w_fs e') = dir s0 /\
  (forall i, i <> ino -> data_of (w_fs e') i = data_of s0 i) /\
  (forall fd, fd <> next_id s0 -> ino_of (w_fs e') fd = ino_of s0 fd) /\ faults (w_fs e') = faults s0.

(** The work on the open file. *)
Lemma wp_purge_body s0 fd ino e d :
  wiping fd ino s0 e d ->
  wp (overwrite fd (lenZ d) ;;? truncate_file fd) (fun r e' => exists d', wiping fd ino s0 e' d' /\
    (r = Ok tt /\ d' = [] \/ (exists err, r = Err err) /\ ~ quiet s0)) e.
Proof.
  intros Hw. apply wp_bind. eapply (wp_overwrite fd ino s0); [|done|].
  - intros err e1 d1 H1 Hq. apply wp_ret. exists d1. eauto.
  - intros e1 H1. cbn [try_bind]. eapply (wp_truncate fd ino s0); [|done|].
    + intros err e2 d2 H2 Hq. exists d2. eauto.
    + intros e2 H2. exists []. eauto.
Qed.

Lemma wp_purge path ino e d :
  dir (w_fs e) !! path = Some ino -> data_of (w_fs e) ino = Some d -> has_nul path = false ->
  wp (purge_entire_vault path) (purged (w_fs e) ino) e.
Proof.
  intros Hdir Hd Hn. set (s0 := w_fs e) in *.
  assert (forall s, faulty s -> faults s = faults s0 -> ~ quiet s0) as Hfq.
  { intros s [k Ek] L Hq. by rewrite L, Hq in Ek. }
  apply wp_bind, wp_zoom. cbn [lget wfs_lens]. fold s0. apply wp_metadata.
  2:{ intros err s1 (D1 & F1 & I1 & _ & _ & L1 & _) _ Hwhy. apply wp_try; [done|]. intros ? _.
      assert (~ quiet s0) as Hq.
      { destruct Hwhy as [Hf|[?|Hno]]; [by eapply Hfq|congruence|]. rewrite Hdir in Hno. cbn in Hno.
        unfold data_of in Hd. by rewrite Hno in Hd. }
      split_and!; auto; [done|tauto]. }
  intros s1 i nd K1 _ _ _ Hi Hnd. assert (i = ino) as -> by congruence.
  apply wp_try; [|done]. intros ? [= <-]. cbv zeta.
  assert (i_data nd = d) as -> by (unfold data_of in Hd; rewrite Hnd in Hd; by injection Hd).
  pose proof K1 as (D1 & F1 & I1 & N1 & _ & L1 & _).
  destruct (Z.eqb_spec (lenZ d) 0) as [Hz|Hnz].
  { apply wp_ret. apply lenZ_0_nil in Hz as ->. split_and!; cbn; auto. intros _. by rewrite I1. }
  apply wp_bind, wp_zoom. cbn. apply (wp_open_rw path s1 ino d); [congruence|by rewrite I1|done| |].
  2:{ intros s2 Hq (D2 & I2 & L2 & F2). apply wp_try; [done|]. intros ? _.
      assert (~ quiet s0) by (unfold quiet in *; by rewrite L1 in Hq).
      split_and!; cbn; [done|done|congruence| | |congruence].
      - intros j _. by rewrite I2, I1.
      - intros fd Hfd. rewrite F2 by (by rewrite N1). apply F1. }
  intros s2 (D2 & I2 & N2 & _ & L2 & O2 & F2). apply wp_try; [|done]. intros fd [= <-]. rewrite N1 in *.
  apply wp_bind. eapply wp_mono; [apply (wp_purge_body s0)|].
  { split; [cbn; congruence|]. split; [cbn; congruence|]. split; [split; [done|by cbn; rewrite I2, I1]|].
    split; [intros j _; cbn; by rewrite I2, I1|]. intros fd Hfd. cbn. by rewrite F2, F1. }
  intros r e1 (d' & (D & L & [_ Hd'] & I & F) & Hr). apply wp_bind, wp_zoom. cbn. apply wp_ret.
  split_and!; cbn; [| |done|done| |done].
  - intros ->. by destruct Hr as [[_ ->]|[[? [=]] _]].
  - intros Hq. by destruct Hr as [[? _]|[_ Hbad]].
  - intros fd Hfd. rewrite <- F by done. unfold ino_of. cbn. by rewrite lookup_delete_ne.
Qed.

(** [purge_entire_vault] under any I/O errors: it never panics; when it reports
    success the file at the path is empty, and without I/O errors it does; whatever
    happens no other file changes, the path still names the same file, and no file is left
    open. *)
Theorem purge_empties path ino e d :
  dir (w_fs e) !! path = Some ino -> data_of (w_fs e) ino = Some d -> has_nul path = false ->
  exists r e', purge_entire_vault path e = Done r e' /\
    (r = Ok tt -> data_of (w_fs e') ino = Some []) /\ (quiet (w_fs e) -> r = Ok tt) /\
    dir (w_fs e') = dir (w_fs e) /\
    (forall i, i <> ino -> data_of (w_fs e') i = data_of (w_fs e) i) /\
    (forall fd, fd <> next_id (w_fs e) -> ino_of (w_fs e') fd = ino_of (w_fs e) fd).
Proof.
  intros Hdir Hd Hn. destruct (wp_inv _ _ _ (wp_purge path ino e d Hdir Hd Hn)) as (r & e' & E & H1 & H2 & H3 & H4 & H5 & _).
  exists r, e'. by split_and!.
Qed.

(** * What reaches the medium *)

(** The file being purged, whatever it holds. *)
Definition followed (fd ino : Z) (e : wipe_env) : Prop := exists pos d old, tracked fd ino pos d old (w_fs e).

Lemma pp_pass chunk fuel fd ino remaining e :
  (forall n e, pp (chunk n) (fun _ e' => w_fs e' = w_fs e) e) -> followed fd ino e ->
  pp (pass chunk fuel fd remaining) (fun _ => followed fd ino) e.
Proof.
  intros Hc. revert remaining e. induction fuel as [|fuel IH]; intros remaining e Hf; cbn [pass];
    destruct (remaining <=? 0); try done.
  apply pp_bind. eapply pp_mono; [apply Hc|]. intros data e1 E1. destruct Hf as (pos & d & old & Ht). rewrite <- E1 in Ht.
  apply pp_bind, pp_zoom. eapply pp_mono; [exact (pp_tracked_write _ _ _ _ _ _ Ht data)|].
  intros r s2 (p & k & Ht2 & _). assert (followed fd ino (WipeEnv s2 (w_rng e1))) as Hf2 by (by eexists _, _, _).
  apply pp_try; [intros _ _; by apply IH|done].
Qed.

(** A step that reports success has flushed the file. *)
Definition flushes (fd ino : Z) (r : result unit) (e : wipe_env) : Prop :=
  followed fd ino e /\ (r = Ok tt -> exists d, versions_of (w_fs e) ino = [d]).

Section medium.
Context (fd ino : Z).

Lemma fw_seek off e : followed fd ino e -> pp (wio (seek fd off)) (fun _ => followed fd ino) e.
Proof.
  intros (p & d & o & T). apply pp_zoom. eapply pp_mono; [exact (pp_tracked_seek _ _ _ _ _ _ T off)|].
  intros r s (p' & T' & _). eexists _, _, _; exact T'.
Qed.
Lemma fw_sync e : followed fd ino e -> pp (wio (sync_all fd)) (flushes fd ino) e.
Proof.
  intros (p & d & o & T). apply pp_zoom. eapply pp_mono; [exact (pp_tracked_sync _ _ _ _ _ _ T)|].
  intros r s T'. split; [eexists _, _, _; exact T'|]. intros ->. exists d. exact (tracked_versions _ _ _ _ _ _ T').
Qed.
Lemma fw_next {A} (m : M wipe_env (result A)) k e :
  pp m (fun _ => followed fd ino) e -> (forall e', followed fd ino e' -> pp k (flushes fd ino) e') ->
  pp (m ;;? k) (flushes fd ino) e.
Proof.
  intros Hm Hk. apply pp_bind. eapply pp_mono; [exact Hm|]. intros r e' F.
  apply pp_try; [intros _ _; by apply Hk|by intros err ->].
Qed.

(** When the passes report success the file as it then is, is on the medium. *)
Lemma pp_overwrite size e : followed fd ino e -> pp (overwrite fd size) (flushes fd ino) e.
Proof.
  intros F0. apply fw_next; [by apply fw_seek|]. intros e1 F1.
  apply fw_next; [apply pp_pass; [done|exact F1]|]. intros e2 F2.
  apply fw_next; [eapply pp_mono; [by apply fw_sync|by intros r e' [? _]]|]. intros e3 F3.
  apply fw_next; [by apply fw_seek|]. intros e4 F4.
  apply fw_next; [apply pp_pass; [done|exact F4]|]. intros e5 F5. by apply fw_sync.
Qed.
Lemma pp_truncate e : followed fd ino e -> pp (truncate_file fd) (flushes fd ino) e.
Proof.
  intros (p & d & o & T). apply fw_next; [|intros; by apply fw_sync]. apply pp_zoom.
  eapply pp_mono; [exact (pp_tracked_set_len _ _ _ _ _ _ T 0)|]. intros [] s T'; eexists _, _, _; exact T'.
Qed.
End medium.

Lemma pp_purge path ino e d :
  dir (w_fs e) !! path = Some ino -> data_of (w_fs e) ino = Some d -> 0 < lenZ d ->
  pp (purge_entire_vault path) (fun r e' => r = Ok tt -> exists d', versions_of (w_fs e') ino = [d']) e.
Proof.
  intros Hdir Hd Hl. apply pp_bind, pp_zoom.
  eapply (pp_mono _ (fun r s' => (forall nd, r = Ok nd -> i_data nd = d) /\ dir s' = dir (w_fs e) /\ data_of s' ino = Some d)).
  { unfold pp, metadata, on_path, syscall. cbn. destruct (has_nul path); [done|].
    destruct (faults _ _); [done|]. cbn. rewrite Hdir. pose proof Hd as Hd'. unfold data_of in Hd'.
    destruct (inodes (w_fs e) !! ino) as [nd|]; [|done]. injection Hd' as <-. split; [by intros nd' [= <-]|done]. }
  intros r s1 (Hnd & D1 & I1). apply pp_try; [|done]. intros nd ->. rewrite (Hnd nd eq_refl). cbv zeta.
  destruct (Z.eqb_spec (lenZ d) 0); [lia|]. apply pp_bind, pp_zoom.
  eapply (pp_mono _ (fun r s' => forall fd, r = Ok fd -> followed fd ino (WipeEnv s' (w_rng e)))).
  { unfold pp, open_rw, on_path, syscall. cbn. destruct (has_nul path); [done|]. destruct (faults _ _); [done|]. cbn.
    rewrite D1, Hdir. intros fd [= <-]. unfold data_of in I1. destruct (inodes s1 !! ino) as [nd1|] eqn:Hi; [|done].
    exists 0, (i_data nd1), (i_old nd1). split; [apply lookup_insert_eq|]. by exists nd1. }
  intros r s2 Hf. apply pp_try; [|done]. intros fd ->. specialize (Hf fd eq_refl). apply pp_bind.
  eapply (pp_mono _ (flushes fd ino)).
  - apply fw_next; [eapply pp_mono; [by apply pp_overwrite|by intros ? ? [? _]]|]. intros e3 F3. by apply pp_truncate.
  - intros r3 e3 [_ HF]. apply pp_bind. cbn. exact HF.
Qed.

(** The purge holds against a loss of power: what it has emptied stays empty. *)
Lemma wp_purge_durable path ino e d :
  dir (w_fs e) !! path = Some ino -> data_of (w_fs e) ino = Some d -> 0 < lenZ d -> has_nul path = false ->
  wp (purge_entire_vault path) (fun r e' => (quiet (w_fs e) -> r = Ok tt) /\
    (r = Ok tt -> data_of (w_fs e') ino = Some [] /\ forall pick, data_of (power_loss pick (w_fs e')) ino = Some []) /\
    dir (w_fs e') = dir (w_fs e) /\ forall i, i <> ino -> data_of (w_fs e') i = data_of (w_fs e) i) e.
Proof.
  intros Hdir Hd Hl Hn. eapply wp_mono; [apply wp_pp; [by apply (wp_purge path ino e d)|by apply (pp_purge path ino e d)]|].
  intros r e' [(H1 & H2 & H3 & H4 & _) HV]. split_and!; [done| |done|done]. intros Hr. split; [by apply H1|]. intros pick.
  destruct (HV Hr) as [d' V]. specialize (H1 Hr). apply flushed_data. rewrite V. f_equal.
  unfold versions_of, data_of in *. destruct (inodes (w_fs e') !! ino); [|done]. cbn in *. injection V as <- _. congruence.
Qed.
End wipe.

Section demo.
Definition wipe_demo : wipe_env (HP := toy) :=
  WipeEnv (HP := toy) (Fs {["f"%string := 1]} {[1 := Inode [1; 2; 3] 0 0 []]} {[2 := (1, 0)]} 3
    (fun t => t) (fun _ => None) 0) 0.
End demo.

Lemma overwrite_zeroes_witness :
  exists r e', overwrite (HP := toy) 2 3 wipe_demo = Done r e' /\ r = Ok tt /\
    data_of (w_fs e') 1 = Some (repZ 3 0).
Proof.
  destruct (overwrite_zeroes (HP := toy) 2 1 wipe_demo [1; 2; 3] ltac:(split; reflexivity))
    as (r & e' & E & Hd & Hq & _). exists r, e'.
  assert (r = Ok tt) as Hr by (apply Hq; intros t; reflexivity). auto.
Defined.

Lemma purge_empties_witness :
  exists r e', purge_entire_vault (HP := toy) "f" wipe_demo = Done r e' /\ r = Ok tt /\
    data_of (w_fs e') 1 = Some [].
Proof.
  destruct (purge_empties (HP := toy) "f" 1 wipe_demo [1; 2; 3] eq_refl eq_refl eq_refl)
    as (r & e' & E & Hd & Hq & _). exists r, e'.
  assert (r = Ok tt) as Hr by (apply Hq; intros t; reflexivity). auto.
Defined.
