(* ===== verification/VolumeCrash.v ===== *)
(** The vault when its process dies.

    The application can be killed at any instruction, also by its own emergency exit.  The
    file then holds what the system calls so far have written, the last write perhaps only
    in part, and the next process opens it.  A [life] is one process: it opens the vault,
    makes calls, and dies in its last call; a schedule of faults that lets nothing through
    after some point is a death at that point, so the last call runs under any schedule.

    [cut] says what such a call may leave behind, and [crash_refinement] that the vault
    follows this specification through any number of lives; [interrupted_creation] and
    [creation_lockout] are about a death while the vault is being created. *)
From stdpp Require Import gmap.
From S2P Require Import Prelude Effects Crypto StdFs VolumeLayout VirtualVolume VolumeProofs VolumeBlocks VolumeAlloc VolumeOpen VolumeLifecycle.

(** * Processes that die *)

Definition with_faults (f : Z -> option Z) (s : fs) : fs :=
  Fs (dir s) (inodes s) (fds s) (next_id s) (clock s) f (tick s).
(** The descriptors of a dead process are closed; its files stay. *)
Definition kill (s : fs) : fs := with_faults (fun _ => None) (with_fds ∅ s).

Record life := Life { l_ops : list vol_op; l_last : vol_op; l_faults : Z -> option Z }.
Definition life_typed (l : life) : Prop := Forall vol_op_typed (l_ops l) /\ vol_op_typed (l_last l).

(** * What a call does to the vault on disk *)

Record vault := Vault { v_alloc : gset Z; v_block : Z -> bytes }.

Section spec.
Context `{HP : Primitives} (key : bytes) (total : Z).

Definition valid (i : Z) : Prop := DATA_START_BLOCK <= i < total.
Definition same_blocks (a a' : vault) : Prop := forall j, valid j -> v_block a' j = v_block a j.
Definition put_block (i : Z) (raw : bytes) (a a' : vault) : Prop :=
  v_alloc a' = v_alloc a /\ forall j, valid j -> v_block a' j = if decide (j = i) then raw else v_block a j.
Definition alloc_spec (op : alloc_op) (a : vault) : result Z * gset Z :=
  spec_step DATA_START_BLOCK total op (v_alloc a).
Definition sealing (i : Z) (p raw : bytes) : Prop :=
  lenZ raw = BLOCK_SIZE /\ open_block key i raw = Some p.

(** A call that runs to its end without I/O errors. *)
Definition completes (op : vol_op) (a : vault) (r : result unit) (a' : vault) : Prop :=
  match op with
  | VAlloc op =>
      is_ok r = is_ok (alloc_spec op a).1 /\ v_alloc a' = (alloc_spec op a).2 /\ same_blocks a a'
  | VRead i =>
      (is_ok r = true <-> valid i /\ is_Some (open_block key i (v_block a i))) /\
      v_alloc a' = v_alloc a /\ same_blocks a a'
  | VReadRaw i => (is_ok r = true <-> valid i) /\ v_alloc a' = v_alloc a /\ same_blocks a a'
  | VWrite i p => (is_ok r = true <-> valid i) /\ exists raw, sealing i p raw /\ put_block i raw a a'
  | VWriteRaw i raw => (is_ok r = true <-> valid i) /\ put_block i raw a a'
  end.

(** A call the process dies in: an allocation has happened or not, a write may have reached
    the disk up to some byte of its block, and nothing else has changed. *)
Definition interrupted (op : vol_op) (a a' : vault) : Prop :=
  match op with
  | VAlloc op => (v_alloc a' = v_alloc a \/ v_alloc a' = (alloc_spec op a).2) /\ same_blocks a a'
  | VRead _ | VReadRaw _ => v_alloc a' = v_alloc a /\ same_blocks a a'
  | VWrite i p =>
      exists raw k, sealing i p raw /\ put_block i (takeZ k raw ++ dropZ k (v_block a i)) a a'
  | VWriteRaw i raw => exists k, put_block i (takeZ k raw ++ dropZ k (v_block a i)) a a'
  end.
(** What was reported as done has been done. *)
Definition cut (op : vol_op) (a : vault) (r : result unit) (a' : vault) : Prop :=
  interrupted op a a' /\ (is_ok r = true -> completes op a r a').

Inductive ops_spec : list vol_op -> vault -> list (result unit) -> vault -> Prop :=
| ops_nil a : ops_spec [] a [] a
| ops_cons op ops a r b rs c :
    completes op a r b -> ops_spec ops b rs c -> ops_spec (op :: ops) a (r :: rs) c.
Inductive lives_spec : list life -> vault -> list (list (result unit) * result unit) -> vault -> Prop :=
| lives_nil a : lives_spec [] a [] a
| lives_cons l ls a rs b r c outs z :
    ops_spec (l_ops l) a rs b -> cut (l_last l) b r c -> lives_spec ls c outs z ->
    lives_spec (l :: ls) a ((rs, r) :: outs) z.
End spec.

(** * Lives *)

Section lives.
Context `{HP : Primitives} `{HB : BuildProfile}.

(** A machine: its disk and its random generator. *)
Definition machine : Type := fs * rng.

(** One life on the vault at [path]; [None] if it did not come to its last call. *)
Definition run_life (path : string) (key : bytes) (n : Z) (l : life) (m : machine) :
    option (list (result unit) * result unit * machine) :=
  match open_or_create path key n m.1 with
  | Done (Ok v) s =>
      match run_vols (l_ops l) (VolEnv s m.2 v) with
      | Done rs e =>
          match run_vol (l_last l) (with_fs (with_faults (l_faults l) (e_fs e)) e) with
          | Done r e' => Some (rs, r, (kill (e_fs e'), e_rng e'))
          | _ => None
          end
      | _ => None
      end
  | _ => None
  end.
Fixpoint run_lives (path : string) (key : bytes) (n : Z) (ls : list life) (m : machine) :
    option (list (list (result unit) * result unit) * machine) :=
  match ls with
  | [] => Some ([], m)
  | l :: ls =>
      '(rs, r, m1) ← run_life path key n l m;
      '(outs, m2) ← run_lives path key n ls m1;
      Some ((rs, r) :: outs, m2)
  end.
End lives.

Section cuts.
Context `{HP : Primitives} `{HB : BuildProfile} `{HOk : !PrimitivesOk HP}.
Context (key : bytes) (total : Z).

(** The vault a file holds. *)
Definition on_disk (d : bytes) : vault :=
  Vault (allocated (Volume 0 key total 0 (disk_bitmap d) EmptyString 0)) (disk_block d).

Lemma on_disk_alloc v d :
  disk_bitmap d = block_bitmap v -> total_blocks v = total -> v_alloc (on_disk d) = allocated v.
Proof. intros E Et. unfold on_disk, allocated. simpl. by rewrite E, Et. Qed.

(** ** A torn bitmap is the old one or the new one *)

Lemma mixed_bitmap k (old new : bytes) :
  lenZ old = lenZ new -> one_byte old new -> takeZ k new ++ dropZ k old = old \/ takeZ k new ++ dropZ k old = new.
Proof.
  intros Hl [b Hb].
  assert (lenZ (takeZ k new ++ dropZ k old) = lenZ new) as Hlen by len_lia.
  assert (forall j, 0 <= j -> nthZ (takeZ k new ++ dropZ k old) j = if decide (j < k) then nthZ new j else nthZ old j) as Hn.
  { intros j Hj. unfold nthZ. destruct (Z.ltb_spec j 0); [lia|]. unfold takeZ, dropZ, lenZ in *.
    destruct (decide (j < k)) as [Hk|Hk].
    - rewrite lookup_app, lookup_take_lt by lia. destruct (new !! Z.to_nat j) eqn:E; [done|].
      apply lookup_ge_None_1 in E. rewrite length_take, lookup_drop. apply lookup_ge_None_2. lia.
    - rewrite lookup_app_r by (rewrite length_take; lia). rewrite lookup_drop, length_take.
      destruct (decide (Z.to_nat k <= length new)%nat); [f_equal; lia|].
      rewrite !lookup_ge_None_2 by lia. done. }
  destruct (decide (b < k)); [right|left]; (apply list_eqZ; [lia|]); intros j [Hj _]; rewrite Hn by done;
    (destruct (decide (j < k)); [|]); try done; [symmetry|]; apply Hb; lia.
Qed.

Lemma torn_range off n new d d' :
  torn off new d d' -> 0 <= off -> off + n <= lenZ d -> lenZ new = n -> one_byte (slice off (off + n) d) new ->
  slice off (off + n) d' = slice off (off + n) d \/ slice off (off + n) d' = new.
Proof.
  intros Ht H0 Hl <- Ho. destruct (torn_slice _ _ _ _ Ht H0 Hl) as [k E]. rewrite E.
  apply mixed_bitmap; [|done]. pose proof (lenZ_nonneg new). rewrite lenZ_slice; lia.
Qed.

Lemma torn_bitmap new d d' :
  torn (BITMAP_START_BLOCK * BLOCK_SIZE) new d d' -> DATA_START_BLOCK * BLOCK_SIZE <= lenZ d ->
  lenZ new = BITMAP_BYTES -> one_byte (disk_bitmap d) new ->
  disk_bitmap d' = disk_bitmap d \/ disk_bitmap d' = new.
Proof. intros. apply torn_range; [done|vlia|vlia|done|done]. Qed.

(** ** Blocks *)

Lemma sealing_exists i p : lenZ p = PAYLOAD_SIZE -> exists raw, sealing key i p raw.
Proof.
  intros Hp. destruct (aead_total chacha_ok (derive_block_key key i) (repZ NONCE_SIZE 0) [] p) as [c Ec];
    [apply derive_block_key_len|by rewrite lenZ_repZ|vlia|done|]. cbn in Ec.
  pose proof (aead_len chacha_ok _ _ [] _ _ Ec) as Hc. exists (repZ NONCE_SIZE 0 ++ c).
  assert (lenZ (repZ NONCE_SIZE 0) = NONCE_SIZE) as Hn by (by rewrite lenZ_repZ).
  split; [vlen_lia|]. unfold open_block. rewrite takeZ_app_exact, dropZ_app_exact by done.
  exact (aead_open chacha_ok _ _ [] _ _ Ec).
Qed.

Lemma same_blocks_alloc d d' :
  region_only BLOCK_SIZE (DATA_START_BLOCK * BLOCK_SIZE) d d' -> same_blocks total (on_disk d) (on_disk d').
Proof. intros Hr j [Hj _]. simpl. unfold disk_block. eapply region_slice_after; [done|vlia]. Qed.

Lemma block_kept_bitmap i d d' :
  region_only (i * BLOCK_SIZE) (i * BLOCK_SIZE + BLOCK_SIZE) d d' -> valid total i ->
  disk_bitmap d' = disk_bitmap d.
Proof. intros Hr [Hi _]. unfold disk_bitmap. eapply region_slice_before; [done|vlia..]. Qed.

Lemma put_on_disk i raw d d' :
  region_only (i * BLOCK_SIZE) (i * BLOCK_SIZE + BLOCK_SIZE) d d' -> valid total i -> disk_block d' i = raw ->
  put_block total i raw (on_disk d) (on_disk d').
Proof.
  intros Hr Hi Hb. split; [simpl; by erewrite block_kept_bitmap|]. intros j [Hj _]. simpl.
  destruct (decide (j = i)) as [->|]; [done|]. destruct Hi. by apply (disk_block_other i); [|vlia..|].
Qed.

Lemma put_nowhere i raw a : ~ valid total i -> put_block total i raw a a.
Proof. intros Hi. split; [done|]. intros j Hj. by destruct (decide (j = i)) as [->|]. Qed.

(** A call outside the data region does nothing. *)
Lemma refused op i d :
  vol_op_typed op -> ~ valid total i -> (op = VRead i \/ op = VReadRaw i \/ (exists p, op = VWrite i p) \/ exists raw, op = VWriteRaw i raw) ->
  completes key total op (on_disk d) (Err InvalidInput) (on_disk d) /\ interrupted key total op (on_disk d) (on_disk d).
Proof.
  intros Ht Hi [->|[->|[[p ->]|[raw ->]]]]; cbn [completes interrupted is_ok vol_op_typed] in *.
  - split; [|done]. split; [|done]. split; [done|]. by intros [].
  - by split.
  - destruct (sealing_exists i p Ht) as [raw Hs]. split; [split; [by split|]; exists raw|exists raw, 0];
      (split; [done|by apply put_nowhere]).
  - split; [split; [by split|]|exists 0]; by apply put_nowhere.
Qed.

(** A torn write of a block, and a whole one. *)
Lemma torn_block i raw d d' :
  torn (i * BLOCK_SIZE) raw d d' -> region_only (i * BLOCK_SIZE) (i * BLOCK_SIZE + BLOCK_SIZE) d d' ->
  valid total i -> lenZ raw = BLOCK_SIZE -> i * BLOCK_SIZE + BLOCK_SIZE <= lenZ d ->
  exists k, put_block total i (takeZ k raw ++ dropZ k (disk_block d i)) (on_disk d) (on_disk d').
Proof.
  intros Ht Hr Hi Hl Hd. destruct Hi as [Hi1 Hi2].
  destruct (torn_slice _ _ _ _ Ht) as [k E]; [vlia|vlia|]. rewrite Hl in E. exists k. by apply put_on_disk.
Qed.

(** ** Every call *)

Definition cut_post (op : vol_op) (ino : Z) (d : bytes) (e : vol_env) (r : result unit) (e' : vol_env) : Prop :=
  exists d', vol_frame ino d e e' d' /\ bitmap_ok (disk_bitmap d') /\
    cut key total op (on_disk d) r (on_disk d') /\
    (healthy e ino -> synced e' d' /\ completes key total op (on_disk d) r (on_disk d')).

Context (e : vol_env) (ino : Z) (d : bytes).
Context (Hv : vol_at e ino d) (Hs : synced e d).
Context (Ht : total_blocks (e_vol e) = total) (Hk : master_key (e_vol e) = key).

Lemma valid_in i : valid total i <-> in_data (e_vol e) i.
Proof using Ht. unfold valid, in_data. by rewrite Ht. Qed.

Lemma vol_frame_same e' : io_step 0 0 ino d e e' d -> vol_frame ino d e e' d.
Proof.
  intros ([V _] & Hv' & _ & C). split; [|done]. rewrite V. eexists _, _. apply with_bitmap_id.
Qed.
Lemma vol_frame_touched i e' d' : in_data (e_vol e) i -> touched_block i ino d e e' d' -> vol_frame ino d e e' d'.
Proof.
  intros [Hi _] (V & Hv' & R & C). split; [rewrite V; eexists _, _; apply with_bitmap_id|].
  split_and!; [done| |done]. eapply region_slice_before; [done|vlia..].
Qed.

Lemma rest_bitmap_ok : bitmap_ok (disk_bitmap d).
Proof using Hv Hs. rewrite Hs. apply Hv. Qed.

Lemma cut_unchanged op r e' :
  io_step 0 0 ino d e e' d -> interrupted key total op (on_disk d) (on_disk d) ->
  (is_ok r = true \/ healthy e ino -> completes key total op (on_disk d) r (on_disk d)) ->
  cut_post op ino d e r e'.
Proof using Hv Hs.
  intros Hio Hi Hc. exists d. split_and!; [by apply vol_frame_same|apply rest_bitmap_ok| |].
  - split; [done|]. auto.
  - intros Hh. split; [|by auto]. unfold synced. by destruct Hio as [[-> _] _].
Qed.

Lemma cut_block op i r e' d' :
  valid total i -> touched_block i ino d e e' d' -> interrupted key total op (on_disk d) (on_disk d') ->
  (is_ok r = true \/ healthy e ino -> completes key total op (on_disk d) r (on_disk d')) ->
  cut_post op ino d e r e'.
Proof using Hv Hs Ht.
  intros Hi Htb Hint Hc. pose proof Htb as (V & _ & R & _). pose proof (block_kept_bitmap _ _ _ R Hi) as Eb.
  exists d'. split_and!; [eapply vol_frame_touched; [by apply valid_in|done]| | |].
  - rewrite Eb. apply rest_bitmap_ok.
  - split; [done|]. auto.
  - intros Hh. split; [|by auto]. unfold synced. by rewrite V, Eb.
Qed.

Lemma cut_alloc op r e' :
  refines op ino d e r e' -> cut_post (VAlloc op) ino d e (match r with Ok _ => Ok tt | Err x => Err x end) e'.
Proof using Hv Hs Ht.
  intros (d' & (Vx & Hv' & R & C & _) & Ha & Hr & Hsame & Hsync & Hone & Htorn).
  pose proof (vol_len_min _ _ _ Hv) as Hl. destruct (vol_mem _ _ _ Hv') as [Hb' _ _ _].
  assert (disk_bitmap d' = disk_bitmap d \/ disk_bitmap d' = block_bitmap (e_vol e')) as Hmix.
  { apply torn_bitmap; [done|done|apply Hb'|]. unfold synced in Hs. by rewrite Hs. }
  assert (total_blocks (e_vol e') = total) as Ht' by (destruct Vx as (? & ? & ->); done).
  assert (alloc_spec total op (on_disk d) = spec_of e op) as Espec.
  { unfold alloc_spec, spec_of. rewrite (on_disk_alloc (e_vol e)) by done. by rewrite Ht. }
  assert (is_ok r = true \/ healthy e ino -> is_ok r = is_ok (spec_of e op).1) as Hok.
  { intros Hc. destruct Hr as [->|[[[err ->] Hbad] E]]; [done|]. by destruct Hc as [[=]|]. }
  assert (is_ok r = true \/ healthy e ino -> synced e' d') as Hsy.
  { intros Hc. destruct (is_ok r) eqn:Er; [by apply Hsync; [|left]|].
    rewrite Hsame in * by (symmetry; by apply Hok). by rewrite <- (vol_at_data_eq _ _ _ _ Hv Hv') in Hs. }
  assert (is_ok r = true \/ healthy e ino -> completes key total (VAlloc op) (on_disk d)
    (match r with Ok _ => Ok tt | Err x => Err x end) (on_disk d')) as Hcomp.
  { intros Hc. cbn [completes]. rewrite Espec. split_and!; [by rewrite <- Hok by done; destruct r| |by apply same_blocks_alloc].
    rewrite (on_disk_alloc (e_vol e')); [done|by apply Hsy|done]. }
  exists d'. split_and!.
  - split; [done|]. split_and!; [done| |done]. eapply region_slice_before; [done|vlia..].
  - destruct Hmix as [->| ->]; [apply rest_bitmap_ok|done].
  - split; [|intros Hc; apply Hcomp; left; by destruct r]. cbn [interrupted]. rewrite Espec.
    split; [|by apply same_blocks_alloc]. destruct Hmix as [E|E]; [left|right].
    + simpl. by rewrite E.
    + by rewrite (on_disk_alloc (e_vol e')).
  - auto.
Qed.

Lemma wp_forget_result {A} (m : M vol_env (result A)) (Q : result unit -> vol_env -> Prop) e0 :
  wp m (fun r => Q (match r with Ok _ => Ok tt | Err x => Err x end)) e0 -> wp (forget m) Q e0.
Proof. intros H. apply wp_bind. eapply wp_mono; [exact H|]. by intros [] ?. Qed.

(** Whatever fails, a call leaves the vault as [cut] says; nothing failing, it completes. *)
Lemma run_vol_cut op : vol_op_typed op -> wp (run_vol op) (cut_post op ino d e) e.
Proof using HOk Hv Hs Ht Hk.
  intros Hty. pose proof (io_step_refl 0 0 _ _ _ Hv) as Hrefl.
  assert (forall i p, ~ valid total i -> read_block i e = Done (Err InvalidInput) e /\
    write_block i p e = Done (Err InvalidInput) e /\ read_block_raw i e = Done (Err InvalidInput) e /\
    write_block_raw i p e = Done (Err InvalidInput) e) as Hchk.
  { intros i p Hi. destruct (data_block_guard e i p) as (? & ? & ? & ? & _); [by rewrite <- valid_in|done]. }
  assert (forall A (m : M vol_env (result A)), m e = Done (Err InvalidInput) e ->
    forall i, ~ valid total i -> (op = VRead i \/ op = VReadRaw i \/ (exists p, op = VWrite i p) \/ exists raw, op = VWriteRaw i raw) ->
    wp m (fun r => cut_post op ino d e (match r with Ok _ => Ok tt | Err x => Err x end)) e) as Hguard.
  { intros A m E i Hi Hop. destruct (refused op i d Hty Hi Hop). eapply wp_done; [exact E|]. by apply cut_unchanged. }
  destruct op as [op|i|i p|i|i raw]; cbn [run_vol vol_op_typed] in *.
  - apply wp_forget_result. eapply wp_mono; [by apply wp_run_alloc|]. intros r e'. apply cut_alloc.
  - apply wp_forget_result. destruct (decide (DATA_START_BLOCK <= i < total)) as [Hi|Hi].
    + apply (wp_read_block e ino d); [done|by apply valid_in|]. intros r e' Hio Hr. apply cut_unchanged; [done|done|].
      intros Hc. cbn [completes]. split; [|done]. destruct Hr as [->|[[err ->] Hbad]]; [|by destruct Hc as [[=]|]].
      change (open_block key i (v_block (on_disk d) i)) with (open_block key i (disk_block d i)).
      unfold block_holds. rewrite Hk. destruct (open_block _ _ _); cbn; (split; [done|]); [done|by intros [_ [? [=]]]].
    + apply (Hguard _ _ (proj1 (Hchk i [] Hi)) i); auto.
  - destruct (decide (DATA_START_BLOCK <= i < total)) as [Hi|Hi].
    + assert (in_data (e_vol e) i) as Hin by (by apply valid_in).
      destruct (block_in_file _ _ _ _ Hv Hin) as [_ Hhi].
      apply (wp_write_torn e ino d); [done..|]. intros raw r e' d' Htb [Hl Hseal] Htn Hr. pose proof Htb as (_ & _ & R & _).
      rewrite Hk in Hseal. apply (cut_block _ i r e' d'); [done|done| |].
      * destruct (torn_block i raw d d') as [k Hput]; [done..|]. by exists raw, k.
      * intros Hc. destruct Hr as [[-> Hb]|[[err ->] Hbad]]; [|by destruct Hc as [[=]|]].
        split; [done|]. exists raw. split; [done|]. by apply put_on_disk.
    + destruct (Hchk i p Hi) as (_ & E & _). eapply wp_mono; [apply (Hguard _ _ E i Hi); eauto|]. by intros [[]|] ?.
  - apply wp_forget_result. destruct (decide (DATA_START_BLOCK <= i < total)) as [Hi|Hi].
    + apply (wp_read_block_raw e ino d); [done|by apply valid_in|]. intros r e' Hio Hr. apply cut_unchanged; [done|done|].
      intros Hc. cbn [completes]. split; [|done]. by destruct Hr as [->|[[err ->] Hbad]]; [|destruct Hc as [[=]|]].
    + destruct (Hchk i [] Hi) as (_ & _ & E & _). apply (Hguard _ _ E i); auto.
  - destruct (decide (DATA_START_BLOCK <= i < total)) as [Hi|Hi].
    + assert (in_data (e_vol e) i) as Hin by (by apply valid_in).
      destruct (block_in_file _ _ _ _ Hv Hin) as [_ Hhi].
      apply (wp_write_block_raw e ino d); [done..|]. intros r e' d' Htb Htn Hr. pose proof Htb as (_ & _ & R & _).
      apply (cut_block _ i r e' d'); [done|done| |].
      * by destruct (torn_block i raw d d') as [k Hput]; [done..|exists k].
      * intros Hc. destruct Hr as [[-> Hb]|[[err ->] Hbad]]; [|by destruct Hc as [[=]|]].
        split; [done|]. by apply put_on_disk.
    + destruct (Hchk i raw Hi) as (_ & _ & _ & E). eapply wp_mono; [apply (Hguard _ _ E i Hi); eauto 10|]. by intros [[]|] ?.
Qed.
End cuts.

(** * Lives follow the specification *)

Section refinement.
Context `{HP : Primitives} `{HB : BuildProfile} `{HOk : !PrimitivesOk HP}.
Context (path : string) (key : bytes) (total : Z).
Abbreviation rest := (at_rest path key total).
Abbreviation disk := (on_disk key total).

(** A volume open on the vault. *)
Record running (e : vol_env) (ino : Z) (d : bytes) : Prop := {
  run_state : vault_state e ino d;
  run_total : total_blocks (e_vol e) = total;
  run_key : master_key (e_vol e) = key;
  run_path : vault_path (e_vol e) = path;
}.

Lemma frame_volume ino d e e' d' :
  vol_frame ino d e e' d' -> total_blocks (e_vol e') = total_blocks (e_vol e) /\
  master_key (e_vol e') = master_key (e_vol e) /\ vault_path (e_vol e') = vault_path (e_vol e).
Proof. by intros ((? & ? & ->) & _). Qed.
Lemma frame_formatted ino d e e' d' :
  vol_frame ino d e e' d' -> formatted (e_vol e) d -> formatted (e_vol e') d'.
Proof.
  intros Hf (sb & E1 & E2 & E3). destruct (frame_volume _ _ _ _ _ Hf) as (T & K & _).
  destruct Hf as (_ & _ & L & _). exists sb. by rewrite L, T, K.
Qed.

(** A call that leaves memory and disk in step. *)
Lemma running_frame ino d e e' d' :
  running e ino d -> vol_frame ino d e e' d' -> synced e' d' -> running e' ino d'.
Proof.
  intros [[Hv Hf Hs Hh] Ht Hk Hp] Hfr Hs'. destruct (frame_volume _ _ _ _ _ Hfr) as (T & K & P).
  split; [split|congruence..]; [apply Hfr|by eapply frame_formatted|done|by eapply vol_frame_healthy].
Qed.

Lemma run_vols_spec ops e ino d :
  Forall vol_op_typed ops -> running e ino d ->
  wp (run_vols ops) (fun rs e' => exists d', running e' ino d' /\ ops_spec key total ops (disk d) rs (disk d')) e.
Proof using HOk.
  intros Hty. revert e d. induction Hty as [|op ops Hop Hty IH]; intros e d He.
  { apply wp_ret. exists d. split; [done|constructor]. }
  pose proof He as [[Hv Hf Hs Hh] Ht Hk Hp]. cbn [run_vols]. apply wp_bind.
  eapply wp_mono; [by apply (run_vol_cut key total e ino d)|]. intros r e1 (d1 & Hfr & _ & _ & Hc).
  destruct (Hc Hh) as [Hs1 Hcomp]. pose proof (running_frame _ _ _ _ _ He Hfr Hs1) as He1.
  apply wp_bind. eapply wp_mono; [by apply IH|]. intros rs e2 (d2 & He2 & Hspec). apply wp_ret.
  exists d2. split; [done|]. by econstructor.
Qed.

(** The last call, under any faults, and the death of the process. *)
Lemma last_call op f e ino d :
  vol_op_typed op -> running e ino d ->
  wp (run_vol op) (fun r e' => exists d', rest (kill (e_fs e')) ino d' /\
    cut key total op (disk d) r (disk d')) (with_fs (with_faults f (e_fs e)) e).
Proof using HOk.
  intros Hty [[Hv Hf Hs (_ & Hnul & Hdir)] Ht Hk Hp]. set (e0 := with_fs _ e).
  assert (vol_at e0 ino d) as Hv0 by (destruct Hv as [Hm [Hi Hd] Hl]; by split).
  eapply wp_mono; [by apply (run_vol_cut key total e0 ino d)|]. intros r e' (d' & Hfr & Hbm & Hcut & _).
  destruct (frame_volume _ _ _ _ _ Hfr) as (T & K & P). pose proof (frame_formatted _ _ _ _ _ Hfr Hf) as Hf'.
  destruct Hfr as (_ & Hv' & _ & (D & _)). cbn [e0 with_fs e_vol e_fs] in T, K, P, D.
  exists d'. split; [|exact Hcut]. pose proof (vol_mem _ _ _ Hv') as Hm'.
  assert (total_blocks (e_vol e') = total) as T' by congruence. assert (master_key (e_vol e') = key) as K' by congruence.
  split; cbn [kill with_faults with_fds dir faults].
  - rewrite D. cbn. by rewrite <- Hp.
  - apply Hv'.
  - by rewrite <- Hp.
  - intros t. reflexivity.
  - rewrite <- K'. apply Hm'.
  - rewrite <- T'. apply Hm'.
  - rewrite <- T'. apply Hv'.
  - done.
  - destruct Hf' as (sb & E1 & E2 & E3). exists sb. by rewrite <- T', <- K'.
Qed.

(** One life on a vault at rest. *)
Lemma life_spec l n s g ino d :
  life_typed l -> n <= MAX_DATA_BLOCKS -> rest s ino d ->
  exists rs r s' g' d1 d', run_life path key n l (s, g) = Some (rs, r, (s', g')) /\ rest s' ino d' /\
    ops_spec key total (l_ops l) (disk d) rs (disk d1) /\ cut key total (l_last l) (disk d1) r (disk d').
Proof using HOk.
  intros [Hty Hlast] Hn Hr.
  destruct (wp_inv _ _ _ (reopen_rest path key total s ino d key n g Hr Hn)) as (r0 & s0 & E0 & Hopen & _).
  destruct (Hopen eq_refl) as (v & -> & Hvs & _ & T & K & P).
  assert (running (VolEnv s0 g v) ino d) as He0 by (by split).
  destruct (wp_inv _ _ _ (run_vols_spec (l_ops l) _ ino d Hty He0)) as (rs & e1 & E1 & d1 & He1 & Hspec).
  destruct (wp_inv _ _ _ (last_call (l_last l) (l_faults l) e1 ino d1 Hlast He1)) as (r & e2 & E2 & d2 & Hr2 & Hcut).
  exists rs, r, (kill (e_fs e2)), (e_rng e2), d1, d2. split_and!; [|done..].
  unfold run_life. cbn [fst snd]. by rewrite E0, E1, E2.
Qed.

Lemma lives_follow ls n s g ino d :
  Forall life_typed ls -> n <= MAX_DATA_BLOCKS -> rest s ino d ->
  exists outs s' g' d', run_lives path key n ls (s, g) = Some (outs, (s', g')) /\ rest s' ino d' /\
    lives_spec key total ls (disk d) outs (disk d').
Proof using HOk.
  intros Hty Hn. revert s g d. induction Hty as [|l ls Hl Hty IH]; intros s g d Hr.
  { exists [], s, g, d. split_and!; [done|done|constructor]. }
  destruct (life_spec l n s g ino d Hl Hn Hr) as (rs & r & s1 & g1 & d1 & d2 & E & Hr1 & Hops & Hcut).
  destruct (IH s1 g1 d2 Hr1) as (outs & s' & g' & d' & E' & Hr' & Hspec).
  exists ((rs, r) :: outs), s', g', d'. split_and!; [|done|by econstructor].
  cbn [run_lives]. rewrite E. cbn. by rewrite E'.
Qed.

(** The vault at rest is what a new process reads. *)
Lemma rest_reads n s g ino d :
  n <= MAX_DATA_BLOCKS -> rest s ino d ->
  exists v s', open_or_create path key n s = Done (Ok v) s' /\ allocated v = v_alloc (disk d) /\
    forall i, valid total i -> exists e', read_block i (VolEnv s' g v) =
      Done (of_option (open_block key i (v_block (disk d) i))) e'.
Proof using HOk.
  intros Hn Hr. destruct (wp_inv _ _ _ (reopen_rest path key total s ino d key n g Hr Hn)) as (r & s' & E & Hopen & _).
  destruct (Hopen eq_refl) as (v & -> & [Hv _ _ Hh] & B & T & K & P). exists v, s'. split; [done|]. split.
  - symmetry. by apply on_disk_alloc.
  - intros i [Hi1 Hi2]. destruct (read_block_eval _ _ _ i Hv Hh) as (e' & E' & _).
    { unfold in_data. cbn [e_vol]. lia. }
    exists e'. rewrite E'. unfold block_holds. cbn [e_vol]. by rewrite K.
Qed.
End refinement.

Section theorems.
Context `{HP : Primitives} `{HB : BuildProfile} `{HOk : !PrimitivesOk HP}.

(** A new vault, its creator dead. *)
Lemma fresh_rest path key n s :
  0 <= n <= MAX_DATA_BLOCKS -> lenZ key = 32 -> has_nul path = false -> dir s !! path = None -> quiet s ->
  wp (open_or_create path key n) (fun r s' => exists v, r = Ok v /\
    at_rest path key (DATA_START_BLOCK + n) (kill s') (next_id s) (fresh_file key n)) s.
Proof using HOk.
  intros Hn Hk Hnul Hd Hq. apply wp_create_fresh; [done..| |done]. intros s1 s2 (_ & _ & _ & N & _) C. eexists. split; [done|].
  rewrite <- N. destruct (fresh_file_facts key n 0 path Hn) as (Hl & (sb & E1 & E2 & E3) & Hb). destruct C as (D & [_ Hi] & _).
  split; cbn [kill with_faults with_fds dir faults].
  - rewrite D. apply lookup_insert_eq.
  - exact Hi.
  - done.
  - intros t. reflexivity.
  - done.
  - lia.
  - done.
  - rewrite Hb. apply bitmap_ok_zeros.
  - by exists sb.
Qed.

Lemma fresh_empty key n : 0 <= n <= MAX_DATA_BLOCKS -> v_alloc (on_disk key (DATA_START_BLOCK + n) (fresh_file key n)) = ∅.
Proof using HOk.
  intros Hn. destruct (fresh_file_facts key n 0 EmptyString Hn) as (_ & _ & Hb). apply set_eq. intros i.
  simpl. rewrite elem_of_allocated. simpl. rewrite Hb, is_alloc_zeros. split; [by intros [_ [=]]|by intros ?%elem_of_empty].
Qed.

(** Crash consistency: a vault is created and then used by any number of processes, each
    of which opens it, makes any calls, and dies at any point of its last call.  Every
    process can open the vault, and what it finds is what the specification allows: every
    completed call has its full effect; of the call the process died in, an allocation,
    reservation or release has happened or has not, a write has reached only its own block,
    up to some byte, and what was reported as done has been done.  The allocated set and
    every block read as the specification says also at the end. *)
Theorem crash_refinement path key n ls s g :
  0 <= n <= MAX_DATA_BLOCKS -> lenZ key = 32 -> has_nul path = false -> dir s !! path = None -> quiet s ->
  Forall life_typed ls ->
  exists v s0 outs m a z, open_or_create path key n s = Done (Ok v) s0 /\
    run_lives path key n ls (kill s0, g) = Some (outs, m) /\
    v_alloc a = ∅ /\ lives_spec key (DATA_START_BLOCK + n) ls a outs z /\
    exists v' s', open_or_create path key n m.1 = Done (Ok v') s' /\ allocated v' = v_alloc z /\
      forall i, valid (DATA_START_BLOCK + n) i -> exists e',
        read_block i (VolEnv s' m.2 v') = Done (of_option (open_block key i (v_block z i))) e'.
Proof using HOk.
  intros Hn Hk Hnul Hd Hq Hls.
  destruct (wp_inv _ _ _ (fresh_rest path key n s Hn Hk Hnul Hd Hq)) as (r & s0 & E & v & -> & Hr).
  destruct (lives_follow path key _ ls n (kill s0) g _ _ Hls ltac:(lia) Hr) as (outs & s1 & g1 & d1 & E1 & Hr1 & Hspec).
  destruct (rest_reads path key _ n s1 g1 _ d1 ltac:(lia) Hr1) as (v' & s' & E' & Ha & Hread).
  exists v, s0, outs, (s1, g1), (on_disk key (DATA_START_BLOCK + n) (fresh_file key n)), (on_disk key (DATA_START_BLOCK + n) d1).
  split_and!; [done..|by apply fresh_empty|done|]. exists v', s'. by split_and!.
Qed.

(** * Death while the vault is created *)

Lemma slice_repZ (a b m x : Z) : 0 <= a <= b -> b <= m -> slice a b (repZ m x) = repZ (b - a) x.
Proof.
  intros Ha Hb. unfold slice, takeZ, dropZ, repZ. rewrite drop_replicate, take_replicate. f_equal. lia.
Qed.
Lemma write_at_same off p d :
  0 <= off -> off + lenZ p <= lenZ d -> slice off (off + lenZ p) d = p -> write_at off p d = d.
Proof.
  intros H0 Hl E. pose proof (lenZ_nonneg p). rewrite write_at_inside by lia. unfold splice. rewrite <- E at 1.
  rewrite <- (takeZ_dropZ off d) at 4. f_equal. unfold slice.
  replace (off + lenZ p - off) with (lenZ p) by lia. rewrite <- dropZ_dropZ by lia. apply takeZ_dropZ.
Qed.
(** Fields on either side of the tear. *)
Lemma slice_mix_old a b k (new old : bytes) :
  k <= a -> 0 <= a <= b -> lenZ new = lenZ old -> slice a b (takeZ k new ++ dropZ k old) = slice a b old.
Proof.
  intros Hk Ha Hl. unfold slice. destruct (decide (k < 0)) as [Hneg|Hpos].
  - unfold takeZ at 2. unfold dropZ at 2. replace (Z.to_nat k) with 0%nat by lia. done.
  - f_equal. rewrite dropZ_app_r by len_lia. rewrite dropZ_dropZ by len_lia.
    destruct (decide (k <= lenZ old)); [f_equal; len_lia|]. rewrite !dropZ_all by len_lia. done.
Qed.
Lemma slice_mix_new a b k (new old : bytes) :
  b <= k -> 0 <= a <= b -> b <= lenZ new -> slice a b (takeZ k new ++ dropZ k old) = slice a b new.
Proof.
  intros Hk Ha Hl. unfold slice. rewrite dropZ_app_l by len_lia. rewrite takeZ_app_l by len_lia.
  rewrite !takeZ_dropZ_comm by lia. rewrite takeZ_takeZ. do 2 f_equal. lia.
Qed.

Section creation.
Context (key : bytes) (n : Z) (Hn : 0 <= n <= MAX_DATA_BLOCKS).

Lemma blank_eq : blank_file n = repZ ((DATA_START_BLOCK + n) * BLOCK_SIZE) 0.
Proof using Hn.
  unfold blank_file, resize. rewrite lenZ_nil, Z.sub_0_r. unfold takeZ. by rewrite take_nil.
Qed.
Lemma blank_len : lenZ (blank_file n) = (DATA_START_BLOCK + n) * BLOCK_SIZE.
Proof using Hn. rewrite blank_eq, lenZ_repZ. vlia. Qed.
Lemma blank_reads :
  0 < lenZ (blank_file n) /\ is_bytes (disk_bitmap (blank_file n)) /\ read_superblock (slice 0 BLOCK_SIZE (blank_file n)) = None.
Proof using Hn.
  rewrite blank_len. split; [vlia|]. rewrite blank_eq. split.
  - unfold disk_bitmap. rewrite slice_repZ by vlia. apply is_bytes_rep.
  - rewrite slice_repZ by vlia. reflexivity.
Qed.
Lemma super_eq : fresh_super key n = superblock_bytes {| version := VAULT_VERSION; sb_total_blocks := DATA_START_BLOCK + n;
  sb_free_blocks := n; master_key_hash := hash_master_key key |}.
Proof using Hn HOk. apply write_superblock_eq; [by rewrite lenZ_repZ|by apply fresh_super_ok]. Qed.
Lemma super_len : lenZ (fresh_super key n) = BLOCK_SIZE.
Proof using Hn HOk. rewrite super_eq. by apply superblock_bytes_len, fresh_super_ok. Qed.

(** The bitmap is written over zeros, so a tear in it cannot be seen. *)
Lemma unfinished_torn d : unfinished key n d -> d = [] \/ torn 0 (fresh_super key n) (blank_file n) d.
Proof using Hn HOk.
  pose proof super_len as Hs. pose proof blank_len as Hb. set (d1 := write_at 0 (fresh_super key n) (blank_file n)).
  assert (region_only 0 (0 + lenZ (fresh_super key n)) (blank_file n) d1) as R by (apply write_at_region; vlia).
  assert (lenZ d1 = lenZ (blank_file n)) as Hl by apply R.
  intros [->|[Ht|[k ->]]]; [by left|by right|right]. rewrite write_at_same; [apply torn_all|vlia| |].
  - rewrite lenZ_takeZ, lenZ_repZ. fold d1. vlia.
  - fold d1. set (p := takeZ k (repZ BITMAP_BYTES 0)).
    assert (p = repZ (lenZ p) 0 /\ lenZ p <= BITMAP_BYTES) as [Ep Hp].
    { unfold p. rewrite lenZ_takeZ, lenZ_repZ. split; [|vlia]. unfold takeZ, repZ. rewrite take_replicate. f_equal. vlia. }
    pose proof (lenZ_nonneg p). rewrite (region_slice_after _ _ _ _ _ _ R) by vlia.
    rewrite blank_eq, slice_repZ by vlia. rewrite Ep at 2. f_equal. vlia.
Qed.

(** The file of a torn creation: its superblock up to some byte, then zeros. *)
Lemma torn_creation d :
  torn 0 (fresh_super key n) (blank_file n) d ->
  lenZ d = (DATA_START_BLOCK + n) * BLOCK_SIZE /\ disk_bitmap d = repZ BITMAP_BYTES 0 /\
  exists k, slice 0 BLOCK_SIZE d = takeZ k (fresh_super key n) ++ dropZ k (repZ BLOCK_SIZE 0).
Proof using Hn HOk.
  intros Ht. pose proof super_len as Hs. pose proof blank_len as Hb.
  assert (region_only 0 BLOCK_SIZE (blank_file n) d) as R.
  { destruct Ht as [k ->]. eapply region_weaken; [apply (write_at_prefix_region 0 k (fresh_super key n)); vlia|vlia..]. }
  split; [rewrite <- Hb; apply R|]. split.
  - unfold disk_bitmap. rewrite (region_slice_after _ _ _ _ _ _ R) by vlia. rewrite blank_eq, slice_repZ by vlia. f_equal; vlia.
  - destruct (torn_slice _ _ _ _ Ht) as [k E]; [lia|vlia|]. exists k. rewrite Hs, Z.add_0_l in E. rewrite E.
    rewrite blank_eq, slice_repZ by vlia. by rewrite Z.sub_0_r.
Qed.

(** A superblock with the whole hash has the whole block count. *)
Lemma torn_super k sb :
  hash_master_key key <> repZ 32 0 ->
  read_superblock (takeZ k (fresh_super key n) ++ dropZ k (repZ BLOCK_SIZE 0)) = Some sb ->
  master_key_hash sb = hash_master_key key -> sb_total_blocks sb = DATA_START_BLOCK + n.
Proof using Hn HOk.
  intros Hh. unfold read_superblock. destruct (negb _); [done|]. intros [= <-]. cbn [master_key_hash sb_total_blocks].
  pose proof super_len as Hl. intros E. destruct (decide (k <= 24)) as [Hk|Hk].
  - destruct Hh. rewrite <- E. rewrite slice_mix_old by (lia || rewrite Hl, lenZ_repZ; vlia).
    by rewrite slice_repZ by vlia.
  - rewrite slice_mix_new by vlia. rewrite super_eq.
    pose proof (read_superblock_bytes _ (fresh_super_ok key n Hn)) as Hr. unfold read_superblock in Hr.
    destruct (negb _); [done|]. by injection Hr.
Qed.
End creation.

Definition empty_vault (n : Z) (v : VirtualVolume) : Prop :=
  total_blocks v = DATA_START_BLOCK + n /\ free_blocks v = n /\ allocated v = ∅.

Lemma zeros_empty v : block_bitmap v = repZ BITMAP_BYTES 0 -> allocated v = ∅.
Proof.
  intros Hb. apply set_eq. intros i. rewrite elem_of_allocated, Hb, is_alloc_zeros.
  split; [by intros [_ [=]]|by intros ?%elem_of_empty].
Qed.
Lemma fresh_is_empty fd path key n : 0 <= n -> empty_vault n (fresh_volume fd path key n).
Proof. intros Hn. split_and!; [done..|by apply zeros_empty]. Qed.

(** An empty file is removed and created again. *)
Lemma wp_recreate path key n s ino (Q : result VirtualVolume -> fs -> Prop) :
  0 <= n <= MAX_DATA_BLOCKS -> has_nul path = false -> quiet s ->
  dir s !! path = Some ino -> data_of s ino = Some [] ->
  (forall s1 s2, keeps_data (with_dir (delete path (dir s)) s) s1 -> created path s1 s2 (fresh_file key n) ->
     Q (Ok (fresh_volume (next_id s1 + 1) path key n)) s2) ->
  wp (open_or_create path key n) Q s.
Proof.
  intros Hn Hnul Hq Hd Hi HQ. unfold open_or_create. destruct (Z.ltb_spec MAX_DATA_BLOCKS n); [lia|].
  assert (forall s' (R : bool -> fs -> Prop), keeps_data s s' -> (forall s2, keeps_data s s2 -> R true s2) ->
    wp (path_exists path) R s') as Hex.
  { intros s' R K HR. apply wp_bind, (wp_metadata_present path s' ino []); try done.
    - by rewrite (keeps_data_dir _ _ K).
    - destruct K as (_ & _ & I & _). by rewrite I.
    - by eapply keeps_data_quiet.
    - intros nd s2 K2 _. apply wp_ret, HR. by eapply keeps_data_trans. }
  apply wp_bind, (wp_metadata_present path s ino []); [done..|]. intros nd s1 K1 Hnd. cbv zeta. rewrite Hnd.
  apply wp_bind, Hex; [done|]. intros s2 K2. cbn [andb negb Z.eqb lenZ length Z.of_nat].
  apply wp_bind, Hex; [done|]. intros s3 K3. apply wp_bind, wp_bind. apply wp_on_path; [congruence| |].
  { intros [k E]. by rewrite (keeps_data_quiet _ _ K3 Hq) in E. }
  intros _. unfold wp at 1. cbn [dir with_tick]. rewrite (keeps_data_dir _ _ K3), Hd.
  apply wp_ret, wp_create_new; [done|done| | |].
  - cbn [dir with_dir]. apply lookup_delete_eq.
  - intros s4 C. apply (HQ _ s4); [|done]. destruct K3 as (_ & F & I & N & C3 & L & T).
    split_and!; cbn; try done. lia.
  - intros err s4 Hbad. destruct Hbad. intros t. cbn. by apply (keeps_data_quiet _ _ K3 Hq).
Qed.

(** A file of the right size without allocated blocks, when its superblock is not sound. *)
Lemma wp_reopen_empty path key n s ino d :
  0 <= n <= MAX_DATA_BLOCKS -> dir s !! path = Some ino -> data_of s ino = Some d -> has_nul path = false -> quiet s ->
  lenZ d = (DATA_START_BLOCK + n) * BLOCK_SIZE -> disk_bitmap d = repZ BITMAP_BYTES 0 ->
  (forall sb, read_superblock (slice 0 BLOCK_SIZE d) = Some sb -> master_key_hash sb = hash_master_key key ->
     sb_total_blocks sb = DATA_START_BLOCK + n) ->
  wp (open_or_create path key n) (fun r _ =>
    ((exists v, r = Ok v /\ empty_vault n v) \/ r = Err InvalidData \/ r = Err PermissionDenied) /\
    (forall sb, read_superblock (slice 0 BLOCK_SIZE d) = Some sb -> master_key_hash sb = hash_master_key key ->
       is_ok r = true)) s.
Proof.
  intros Hn Hd Hi Hnul Hq Hl Hb Hsb.
  eapply wp_mono; [apply (wp_reopen path key n s ino d); [lia|vlia|done..|rewrite Hb; apply is_bytes_rep]|].
  intros r s' (s1 & _ & Ha & _). apply open_answer_view in Ha; [|vlia].
  destruct (read_superblock _) as [sb|] eqn:Hs; [|subst r; split; [auto|done]].
  destruct Ha as [[Hne ->]|[(Hk & -> & Hne)|[Hk ->]]].
  - split; [auto|]. congruence.
  - rewrite (Hsb _ eq_refl Hk) in Hne. vlia.
  - split; [|done]. left. eexists. split; [done|]. unfold opened_volume. rewrite (Hsb _ eq_refl Hk), Hb.
    split_and!; [done| |by apply zeros_empty]. cbn [free_blocks]. rewrite count_free_zeros by lia. lia.
Qed.

(** [C19] Creation, interrupted: whatever fails while a vault is created, and at whatever
    point the process dies, the next [open_or_create] with the same arguments does not
    panic; it gives a vault of the full size with every block free, or refuses the file
    with [InvalidData] or [PermissionDenied] because of a superblock cut short.  A creation
    that reported success is always found.  The claim is about the death of the process, not
    a loss of power, and about keys whose hash is not all zeros, which would hide the cut. *)
Theorem interrupted_creation path key n s :
  0 <= n <= MAX_DATA_BLOCKS -> has_nul path = false -> dir s !! path = None ->
  hash_master_key key <> repZ 32 0 ->
  exists r s1 r2 s2, open_or_create path key n s = Done r s1 /\
    open_or_create path key n (kill s1) = Done r2 s2 /\
    ((exists v, r2 = Ok v /\ empty_vault n v) \/ r2 = Err InvalidData \/ r2 = Err PermissionDenied) /\
    (is_ok r = true -> is_ok r2 = true).
Proof using HOk.
  intros Hn Hnul Hd Hh.
  assert (wp (open_or_create path key n) (fun r s1 => wp (open_or_create path key n) (fun r2 _ =>
    ((exists v, r2 = Ok v /\ empty_vault n v) \/ r2 = Err InvalidData \/ r2 = Err PermissionDenied) /\
    (is_ok r = true -> is_ok r2 = true)) (kill s1)) s) as W.
  2:{ apply wp_inv in W as (r & s1 & E & W). apply wp_inv in W as (r2 & s2 & E2 & H1 & H2).
      by exists r, s1, r2, s2. }
  assert (forall s, quiet (kill s)) as Hq by done.
  apply wp_create_fresh; [done|done|done| |].
  - intros s1 s2 K (D & [_ I] & _). destruct (fresh_file_facts key n 0 path Hn) as (Hl & (sb & E1 & E2 & E3) & Hb).
    eapply wp_mono; [apply (wp_reopen_empty path key n (kill s2) (next_id s1) (fresh_file key n)); try done|].
    + cbn. rewrite D. apply lookup_insert_eq.
    + intros sb' E _. by assert (sb' = sb) as -> by congruence.
    + intros r s3 [H1 H2]. split; [done|]. intros _. by apply (H2 sb).
  - intros err s1 s2 _ K [D|(d & [->|Ht]%unfinished_torn & D & I)]; [| | |done].
    + apply wp_create_fresh; [done|done|cbn; by rewrite D, (keeps_data_dir _ _ K)| |by intros ??? Hbad; destruct Hbad].
      intros s3 s4 _ _. split; [|done]. left. eexists. split; [done|]. apply fresh_is_empty. lia.
    + apply (wp_recreate path key n (kill s2) (next_id s1)); try done.
      * cbn. rewrite D. apply lookup_insert_eq.
      * intros s3 s4 _ _. split; [|done]. left. eexists. split; [done|]. apply fresh_is_empty. lia.
    + destruct (torn_creation key n Hn d Ht) as (Hl & Hb & k & E).
      eapply wp_mono; [apply (wp_reopen_empty path key n (kill s2) (next_id s1) d); try done|].
      * cbn. rewrite D. apply lookup_insert_eq.
      * rewrite E. intros sb. by apply torn_super.
      * intros r s3 [H _]. split; [exact H|done].
Qed.

(** ** Single failures, followed call by call *)

(** The path and file calls at a known tick. *)
Lemma wp_path_at {A} path (body : M fs (result A)) Q s :
  has_nul path = false ->
  wp (match faults s (tick s) with Some _ => mret (Err OsFault) | None => body end) Q (with_tick (tick s + 1) s) ->
  wp (on_path path body) Q s.
Proof. intros Hn H. unfold on_path. rewrite Hn. exact H. Qed.
Lemma wp_fd_at {A} fd (body : option Z -> Z -> Z -> inode -> M fs (result A)) Q s ino pos nd :
  fds s !! fd = Some (ino, pos) -> inodes s !! ino = Some nd ->
  wp (body (faults s (tick s)) ino pos nd) Q (with_tick (tick s + 1) s) -> wp (on_fd fd body) Q s.
Proof. intros Hf Hi H. unfold on_fd, syscall, wp in *. cbn [fds with_tick]. rewrite Hf. cbn [inodes with_tick]. by rewrite Hi. Qed.

Lemma wp_meta_at path Q s :
  has_nul path = false ->
  Q (match faults s (tick s) with
     | Some _ => Err OsFault
     | None => match dir s !! path ≫= (inodes s !!.) with Some nd => Ok nd | None => Err NotFound end
     end) (with_tick (tick s + 1) s) ->
  wp (metadata path) Q s.
Proof.
  intros Hn H. apply wp_path_at; [done|]. destruct (faults s (tick s)); [done|]. unfold wp. cbn.
  destruct (dir s !! path) as [ino|]; cbn in *; [|done]. by destruct (inodes s !! ino).
Qed.

Ltac fs_simpl :=
  cbn [dir inodes fds next_id clock faults tick with_tick with_dir with_next_id with_inodes with_fds set_inode set_pos
       open_ino try_bind option_bind mbind is_ok andb negb i_data i_atime i_mtime now].

(** A file being made: [fd] is open on [ino] at [pos], and the next call is the one at [t]. *)
Record making (names : gmap string Z) (ino fd : Z) (fl : Z -> option Z) (t : Z) (d : bytes) (pos : Z) (s : fs) : Prop := {
  mk_dir : dir s = names;
  mk_fd : fds s !! fd = Some (ino, pos);
  mk_data : data_of s ino = Some d;
  mk_faults : faults s = fl;
  mk_tick : tick s = t;
}.

Section making.
Context (names : gmap string Z) (ino fd : Z) (fl : Z -> option Z) {A : Type} (k : M fs (result A)).
Context (Q : result A -> fs -> Prop) (t : Z) (d : bytes) (pos : Z) (s : fs) (Hm : making names ino fd fl t d pos s).

Lemma mk_call (call : M fs (result unit)) (body : option Z -> Z -> Z -> inode -> M fs (result unit)) d' pos' :
  call = on_fd fd body -> fl t = None ->
  (forall nd, i_data nd = d -> wp (body None ino pos nd) (fun r s' => r = Ok tt /\ making names ino fd fl (t + 1) d' pos' s') (with_tick (t + 1) s)) ->
  (forall s', making names ino fd fl (t + 1) d' pos' s' -> wp k Q s') -> wp (call ;;? k) Q s.
Proof using Hm.
  destruct Hm as [Hd Hf Hi Hl Ht]. apply fmap_Some in Hi as (nd & Hi & Hnd). intros -> Hn Hb Hk.
  apply wp_bind, (wp_fd_at _ _ _ _ _ _ _ Hf Hi). rewrite Hl, Ht, Hn.
  eapply wp_mono; [by apply Hb|]. intros r s' [-> Hm']. by apply Hk.
Qed.
Lemma making_tick : making names ino fd fl (t + 1) d pos (with_tick (t + 1) s).
Proof using Hm. destruct Hm. by split. Qed.

Lemma mk_set_len n :
  fl t = None -> (forall s', making names ino fd fl (t + 1) (resize n d) pos s' -> wp k Q s') ->
  wp (set_len fd n ;;? k) Q s.
Proof using Hm.
  intros Hf Hk. eapply mk_call; [reflexivity|done| |exact Hk]. intros nd Hnd. split; [done|].
  destruct making_tick. split; [done..| |done|done].
  unfold data_of. fs_simpl. rewrite lookup_insert_eq. cbn [fmap option_fmap option_map i_data]. by rewrite Hnd.
Qed.
Lemma mk_seek off :
  fl t = None -> (forall s', making names ino fd fl (t + 1) d off s' -> wp k Q s') -> wp (seek fd off ;;? k) Q s.
Proof using Hm.
  intros Hf Hk. eapply mk_call; [reflexivity|done| |exact Hk]. intros nd _. split; [done|].
  destruct making_tick. split; [done| |done..]. apply lookup_insert_eq.
Qed.
Lemma mk_write p :
  fl t = None -> (forall s', making names ino fd fl (t + 1) (write_at pos p d) (pos + lenZ p) s' -> wp k Q s') ->
  wp (write_all fd p ;;? k) Q s.
Proof using Hm.
  intros Hf Hk. eapply mk_call; [reflexivity|done| |exact Hk]. intros nd Hnd. split; [done|].
  destruct making_tick. split; [done|apply lookup_insert_eq| |done|done].
  unfold data_of. fs_simpl. rewrite lookup_insert_eq. cbn [fmap option_fmap option_map i_data]. by rewrite Hnd.
Qed.
Lemma mk_sync :
  fl t = None -> (forall s', making names ino fd fl (t + 1) d pos s' -> wp k Q s') -> wp (sync_all fd ;;? k) Q s.
Proof using Hm.
  intros Hf Hk. eapply mk_call; [reflexivity|done| |exact Hk]. intros nd Hnd. split; [done|].
  destruct making_tick. split; [done..| |done|done].
  unfold data_of. fs_simpl. rewrite lookup_insert_eq. cbn [fmap option_fmap option_map i_data]. by rewrite Hnd.
Qed.
(** A failing [seek] ends the creation. *)
Lemma mk_seek_fails off :
  is_Some (fl t) -> (forall s', dir s' = names -> data_of s' ino = Some d -> Q (Err OsFault) s') ->
  wp (seek fd off ;;? k) Q s.
Proof using Hm.
  destruct Hm as [Hd Hf Hi Hl Ht]. pose proof Hi as (nd & Hi' & _)%fmap_Some. intros [j Hj] HQ.
  apply wp_bind, (wp_fd_at _ _ _ _ _ _ _ Hf Hi'). rewrite Hl, Ht, Hj. by apply HQ.
Qed.
End making.

Lemma wp_create_open path s (Q : result Z -> fs -> Prop) :
  has_nul path = false -> dir s !! path = None -> faults s (tick s) = None ->
  (forall s', making (<[path := next_id s]> (dir s)) (next_id s) (next_id s + 1) (faults s) (tick s + 1) [] 0 s' ->
     Q (Ok (next_id s + 1)) s') ->
  wp (open_create_new path) Q s.
Proof.
  intros Hn Hd Hf HQ. apply wp_path_at; [done|]. rewrite Hf. unfold wp. cbn [dir with_tick]. rewrite Hd. apply HQ.
  split; [done|apply lookup_insert_eq| |done|done]. unfold data_of. fs_simpl. by rewrite lookup_insert_eq.
Qed.

(** [create_new] when its calls succeed, and when it dies before the superblock. *)
Lemma wp_create_at path key n s (Q : result VirtualVolume -> fs -> Prop) :
  0 <= n <= MAX_DATA_BLOCKS -> has_nul path = false -> dir s !! path = None ->
  (forall t, tick s <= t -> faults s t = None) ->
  (forall s', dir s' !! path = Some (next_id s) -> data_of s' (next_id s) = Some (fresh_file key n) ->
     Q (Ok (fresh_volume (next_id s + 1) path key n)) s') ->
  wp (create_new path key n) Q s.
Proof.
  intros Hn Hnul Hd Hf HQ. unfold create_new.
  apply wp_bind, wp_chk_u; [unfold is_u; vlia|]. apply wp_bind, wp_chk_u; [unfold is_u; vlia|].
  apply wp_bind, wp_create_open; [done..|apply Hf; lia|]. intros s1 M1. fs_simpl. apply wp_or_close.
  eapply mk_set_len; [exact M1|apply Hf; lia|]. intros s2 M2.
  eapply mk_seek; [exact M2|apply Hf; lia|]. intros s3 M3. eapply mk_write; [exact M3|apply Hf; lia|]. intros s4 M4.
  eapply mk_seek; [exact M4|apply Hf; lia|]. intros s5 M5. eapply mk_write; [exact M5|apply Hf; lia|]. intros s6 M6.
  eapply mk_sync; [exact M6|apply Hf; lia|]. intros s7 M7. apply wp_ret, HQ; [|apply M7].
  rewrite (mk_dir _ _ _ _ _ _ _ _ M7). apply lookup_insert_eq.
Qed.
Lemma wp_create_dies path key n s (Q : result VirtualVolume -> fs -> Prop) :
  0 <= n <= MAX_DATA_BLOCKS -> has_nul path = false -> dir s !! path = None ->
  (forall t, tick s <= t < tick s + 2 -> faults s t = None) -> is_Some (faults s (tick s + 2)) ->
  (forall s', dir s' !! path = Some (next_id s) -> data_of s' (next_id s) = Some (blank_file n) -> Q (Err OsFault) s') ->
  wp (create_new path key n) Q s.
Proof.
  intros Hn Hnul Hd Hf Hk HQ. unfold create_new.
  apply wp_bind, wp_chk_u; [unfold is_u; vlia|]. apply wp_bind, wp_chk_u; [unfold is_u; vlia|].
  apply wp_bind, wp_create_open; [done..|apply Hf; lia|]. intros s1 M1. fs_simpl. apply wp_or_close.
  eapply mk_set_len; [exact M1|apply Hf; lia|]. intros s2 M2.
  eapply mk_seek_fails; [exact M2|by replace (tick s + 1 + 1) with (tick s + 2) by lia|].
  intros s3 D I. apply HQ; [|done]. cbn [dir with_fds]. rewrite D. apply lookup_insert_eq.
Qed.

(** What the first half of a creation leaves at [path]. *)
Definition zeroed (path : string) (n : Z) (s : fs) : Prop :=
  exists ino, dir s !! path = Some ino /\ data_of s ino = Some (blank_file n).

(** Lock-out: a process that dies after it has given the new file its size and before
    it has written the superblock leaves a file of zeros; from then on every
    [open_or_create] of that path, whatever key and size it is given, answers
    [InvalidData] and leaves the zeros where they are, so that no vault can be made there
    until somebody removes the file.  (Only a file of length 0 counts as a remnant.) *)
Theorem creation_lockout path key n s :
  0 <= n <= MAX_DATA_BLOCKS -> has_nul path = false -> dir s !! path = None ->
  (forall t, is_Some (faults s t) <-> tick s + 5 <= t) ->
  exists s1, open_or_create path key n s = Done (Err OsFault) s1 /\ zeroed path n s1 /\
    forall key' n' s2, n' <= MAX_DATA_BLOCKS -> quiet s2 -> zeroed path n s2 ->
      exists s3, open_or_create path key' n' s2 = Done (Err InvalidData) s3 /\ zeroed path n s3.
Proof.
  intros Hn Hnul Hd Hf.
  assert (forall t, t < tick s + 5 -> faults s t = None) as Hup.
  { intros t Ht. destruct (faults s t) eqn:E; [|done]. assert (tick s + 5 <= t) by (apply Hf; eauto). lia. }
  assert (wp (open_or_create path key n) (fun r s1 => r = Err OsFault /\ dir s1 !! path = Some (next_id s) /\
    data_of s1 (next_id s) = Some (blank_file n)) s) as W.
  { unfold open_or_create. destruct (Z.ltb_spec MAX_DATA_BLOCKS n); [lia|].
    apply wp_bind, wp_meta_at; [done|]. rewrite Hup, Hd by lia. fs_simpl.
    apply wp_bind, wp_bind, wp_meta_at; [done|]. fs_simpl. rewrite Hup, Hd by lia. apply wp_ret. fs_simpl.
    apply wp_bind, wp_bind, wp_meta_at; [done|]. fs_simpl. rewrite Hup, Hd by lia. apply wp_ret. fs_simpl.
    apply wp_bind, wp_ret, wp_create_dies; fs_simpl; [done..| | |done].
    - intros t Ht. apply Hup. lia.
    - apply Hf. lia. }
  apply wp_inv in W as (r & s1 & E & -> & D & I). exists s1. split; [done|]. split; [by eexists|].
  intros key' n' s2 Hn' Hq (ino & D2 & I2). destruct (blank_reads n Hn) as (Hl & Hb & Hs).
  destruct (wp_inv _ _ _ (wp_reopen path key' n' s2 _ _ Hn' Hl D2 I2 Hnul Hq Hb)) as (r & s3 & E3 & s4 & K & Ha & Hu).
  assert (r = Err InvalidData) as -> by
    (apply open_answer_view in Ha; [by rewrite Hs in Ha|]; pose proof (blank_len n Hn); vlia).
  exists s3. split; [done|]. exists ino. destruct Hu as (D3 & I3 & _). rewrite D3, I3, (keeps_data_dir _ _ K). split; [done|].
  destruct K as (_ & _ & K & _). by rewrite K.
Qed.

(** [C20] A vault lost to one failed call: when the [metadata] call at the start of
    [open_or_create] fails and nothing else does, the vault at the path, whatever it
    holds and whatever its key, is removed and replaced by an empty one, and the caller
    is told [Ok].  ([unwrap_or(true)] takes the failure for an empty file.) *)
Theorem metadata_failure_erases path key n s ino d :
  0 <= n <= MAX_DATA_BLOCKS -> has_nul path = false -> dir s !! path = Some ino -> data_of s ino = Some d ->
  (forall t, is_Some (faults s t) <-> t = tick s) ->
  exists v s' ino', open_or_create path key n s = Done (Ok v) s' /\ empty_vault n v /\
    dir s' !! path = Some ino' /\ data_of s' ino' = Some (fresh_file key n).
Proof.
  unfold data_of at 1. intros Hn Hnul Hd (nd & Hi & ->)%fmap_Some Hf.
  assert (forall t, tick s < t -> faults s t = None) as Hup.
  { intros t Ht. destruct (faults s t) eqn:E; [|done]. assert (t = tick s) by (apply Hf; eauto). lia. }
  assert (wp (open_or_create path key n) (fun r s' => exists v ino', r = Ok v /\ empty_vault n v /\
    dir s' !! path = Some ino' /\ data_of s' ino' = Some (fresh_file key n)) s) as W.
  { unfold open_or_create. destruct (Z.ltb_spec MAX_DATA_BLOCKS n); [lia|].
    destruct (proj2 (Hf (tick s)) eq_refl) as [k Hk].
    apply wp_bind, wp_meta_at; [done|]. rewrite Hk. fs_simpl.
    apply wp_bind, wp_bind, wp_meta_at; [done|]. fs_simpl. rewrite Hup, Hd by lia. fs_simpl. rewrite Hi. apply wp_ret. fs_simpl.
    apply wp_bind, wp_bind, wp_meta_at; [done|]. fs_simpl. rewrite Hup, Hd by lia. fs_simpl. rewrite Hi. apply wp_ret. fs_simpl.
    apply wp_bind, wp_bind, wp_path_at; [done|]. fs_simpl. rewrite Hup by lia. unfold wp at 1. fs_simpl. rewrite Hd.
    apply wp_ret, wp_create_at; fs_simpl; [done|done|apply lookup_delete_eq| |].
    - intros t Ht. apply Hup. lia.
    - intros s' D I. eexists _, _. split; [done|]. split; [apply fresh_is_empty; lia|]. by split. }
  apply wp_inv in W as (r & s' & E & v & ino' & -> & ? & ? & ?). by exists v, s', ino'.
Qed.
End theorems.

(** * Examples *)

Lemma crash_refinement_witness :
  exists v s0 outs m, open_or_create (HB := true) "v" (repZ 32 1) 4 empty_fs = Done (Ok v) s0 /\
    run_lives (HB := true) "v" (repZ 32 1) 4
      [Life [VAlloc OpAllocate] (VWrite 9 (repZ PAYLOAD_SIZE 5)) (fun _ => Some 100);
       Life [] (VAlloc (OpFree 9)) (fun _ => Some 0)] (kill s0, 0) = Some (outs, m).
Proof.
  destruct (crash_refinement (HP := toy) (HB := true) "v" (repZ 32 1) 4
    [Life [VAlloc OpAllocate] (VWrite 9 (repZ PAYLOAD_SIZE 5)) (fun _ => Some 100);
     Life [] (VAlloc (OpFree 9)) (fun _ => Some 0)] empty_fs 0
    ltac:(vlia) (lenZ_repZ 32 1) eq_refl eq_refl (fun _ => eq_refl)
    ltac:(repeat constructor; exact (lenZ_repZ PAYLOAD_SIZE 5))) as (v & s0 & outs & m & a & z & ? & ? & _).
  exists v, s0, outs, m. auto.
Defined.

Lemma interrupted_creation_witness :
  exists r s1, open_or_create (HB := true) "v" (repZ 32 1) 4 (with_faults (fun t => if t =? 6 then Some 20 else None) empty_fs) = Done r s1.
Proof.
  destruct (interrupted_creation (HP := toy) (HB := true) "v" (repZ 32 1) 4
    (with_faults (fun t => if t =? 6 then Some 20 else None) empty_fs)
    ltac:(vlia) eq_refl eq_refl ltac:(vm_compute; discriminate)) as (r & s1 & _ & _ & ? & _).
  by exists r, s1.
Defined.

Lemma creation_lockout_witness :
  exists s1, open_or_create (HB := true) "v" (repZ 32 1) 4
    (with_faults (fun t => if t <? 5 then None else Some 0) empty_fs) = Done (Err OsFault) s1.
Proof.
  destruct (creation_lockout (HP := toy) (HB := true) "v" (repZ 32 1) 4
    (with_faults (fun t => if t <? 5 then None else Some 0) empty_fs) ltac:(vlia) eq_refl eq_refl) as (s1 & E & _).
  { intros t. cbn. destruct (Z.ltb_spec t 5); (split; [intros [? [=]]|]); try lia; eauto. }
  by exists s1.
Defined.

Lemma metadata_failure_erases_witness :
  exists v s', open_or_create (HB := true) "v" (repZ 32 2) 4
    (with_faults (fun t => if t =? tick demo_fs then Some 0 else None) demo_fs) = Done (Ok v) s' /\ empty_vault 4 v.
Proof.
  destruct (metadata_failure_erases (HP := toy) (HB := true) "v" (repZ 32 2) 4
    (with_faults (fun t => if t =? tick demo_fs then Some 0 else None) demo_fs) 1 demo_data
    ltac:(vlia) eq_refl eq_refl) as (v & s' & _ & ? & ? & _).
  - pose proof (vol_open _ _ _ demo_at) as [_ Hd]. exact Hd.
  - intros t. cbn. destruct (Z.eqb_spec t 0); (split; [intros [? [=]]|]); try lia; eauto.
  - exists v, s'. auto.
Defined.
