(* ===== verification/VolumePower.v ===== *)
(** The vault when the power fails.

    A loss of power ends the process like its death does ([VolumeCrash]), and takes with it
    what was not flushed: every byte of the file is then one it had since the last
    [sync_all] ([Durability]).  The specification keeps, beside the vault as it is, the
    vaults it may return to ([dvault]); an allocation, reservation or release that is
    reported as done leaves none, a write adds one.  [power_refinement] shows that the code
    follows it through any number of processes, each ended by its death or by an outage. *)
From stdpp Require Import gmap.
From S2P Require Import Prelude Effects Crypto StdFs VolumeLayout VirtualVolume VolumeProofs VolumeBlocks VolumeAlloc VolumeOpen VolumeLifecycle Durability DiskWipe VolumeCrash.

(** * Specification *)

Inductive ending := Death | Outage (pick : Z -> Z -> nat).

(** The vault now, and those since it was last flushed. *)
Record dvault := DVault { now_v : vault; past_v : list vault }.

Section spec.
Context `{HP : Primitives} (key : bytes) (total : Z).

(** Every block is allocated or not as in one of [vs], every byte of a block is one of theirs. *)
Definition blends (vs : list vault) (v : vault) : Prop :=
  (forall i, exists u, u ∈ vs /\ (i ∈ v_alloc v <-> i ∈ v_alloc u)) /\
  forall i k, valid total i -> exists u, u ∈ vs /\ nthZ (v_block v i) k = nthZ (v_block u i) k.

(** Which vaults remain possible after a call that completes. *)
Definition past_after (op : vol_op) (a : dvault) (alloc' : gset Z) : list vault :=
  match op with
  | VAlloc _ => if decide (alloc' = v_alloc (now_v a)) then past_v a else []
  | VRead _ | VReadRaw _ => past_v a
  | VWrite _ _ | VWriteRaw _ _ => now_v a :: past_v a
  end.
Definition dcompletes (op : vol_op) (a : dvault) (r : result unit) (a' : dvault) : Prop :=
  completes key total op (now_v a) r (now_v a') /\ past_v a' = past_after op a (v_alloc (now_v a')).
(** The call a process ends in. *)
Definition dcut (op : vol_op) (a : dvault) (r : result unit) (a' : dvault) : Prop :=
  if is_ok r then dcompletes op a r a'
  else interrupted key total op (now_v a) (now_v a') /\ past_v a' = now_v a :: past_v a.
(** The end of a process: an outage leaves any blend of the vaults that were possible. *)
Definition ends (en : ending) (a a' : dvault) : Prop :=
  match en with
  | Death => a' = a
  | Outage _ => blends (now_v a :: past_v a) (now_v a') /\ past_v a' = []
  end.

Inductive dops_spec : list vol_op -> dvault -> list (result unit) -> dvault -> Prop :=
| dops_nil a : dops_spec [] a [] a
| dops_cons op ops a r b rs c :
    dcompletes op a r b -> dops_spec ops b rs c -> dops_spec (op :: ops) a (r :: rs) c.
Inductive dlives_spec :
    list (life * ending) -> dvault -> list (list (result unit) * result unit) -> dvault -> Prop :=
| dlives_nil a : dlives_spec [] a [] a
| dlives_cons l en ls a rs b r c c' outs z :
    dops_spec (l_ops l) a rs b -> dcut (l_last l) b r c -> ends en c c' -> dlives_spec ls c' outs z ->
    dlives_spec ((l, en) :: ls) a ((rs, r) :: outs) z.

Lemma blends_self v vs : v ∈ vs -> blends vs v.
Proof. intros H. split; intros; by exists v. Qed.
Lemma blends_trans us vs v : blends vs v -> (forall u, u ∈ vs -> blends us u) -> blends us v.
Proof.
  intros [Ha Hb] H. split.
  - intros i. destruct (Ha i) as (u & Hu & E). destruct (H u Hu) as [Ha' _]. destruct (Ha' i) as (w & Hw & E').
    exists w. split; [done|]. by rewrite E.
  - intros i k Hi. destruct (Hb i k Hi) as (u & Hu & E). destruct (H u Hu) as [_ Hb'].
    destruct (Hb' i k Hi) as (w & Hw & E'). exists w. split; [done|]. by rewrite E.
Qed.
Lemma blends_mono us vs v : blends vs v -> (forall u, u ∈ vs -> u ∈ us) -> blends us v.
Proof. intros H Hi. eapply blends_trans; [exact H|]. intros u Hu. by apply blends_self, Hi. Qed.
(** A vault that looks the same. *)
Lemma blends_same a b us : v_alloc b = v_alloc a -> same_blocks total a b -> b ∈ us -> blends us a.
Proof.
  intros Ha Hb Hin. split; [intros i|intros i k Hi]; exists b; split; try done; [by rewrite Ha|by rewrite Hb].
Qed.
End spec.

(** * Processes ended by death or outage *)

Section lives.
Context `{HP : Primitives} `{HB : BuildProfile}.

Definition ended (en : ending) (s : fs) : fs :=
  match en with Death => s | Outage pick => power_loss pick s end.
Fixpoint run_dlives (path : string) (key : bytes) (n : Z) (ls : list (life * ending)) (m : machine) :
    option (list (list (result unit) * result unit) * machine) :=
  match ls with
  | [] => Some ([], m)
  | (l, en) :: ls =>
      '(rs, r, (s, g)) ← run_life path key n l m;
      '(outs, m2) ← run_dlives path key n ls (ended en s, g);
      Some ((rs, r) :: outs, m2)
  end.
End lives.

(** * A file and what it may return to *)

Section sound.
Context `{HP : Primitives} `{HB : BuildProfile} `{HOk : !PrimitivesOk HP}.
Context (path : string) (key : bytes) (total : Z).
Abbreviation disk := (on_disk key total).
Abbreviation rest := (at_rest path key total).
Abbreviation running := (running path key total).

Lemma mixed_blends ws d : mixed ws d -> blends total (disk <$> ws) (disk d).
Proof.
  intros Hm. split.
  - intros i. cbn [v_alloc on_disk].
    destruct (mixed_slice (BITMAP_START_BLOCK * BLOCK_SIZE) (BITMAP_START_BLOCK * BLOCK_SIZE + BITMAP_BYTES) ws d) as [_ H];
      [vlia|done|]. destruct (H ((i - DATA_START_BLOCK) / 8)) as (x & (w & -> & Hw)%list_elem_of_fmap & E).
    exists (disk w). split; [by apply list_elem_of_fmap_2|]. cbn [v_alloc on_disk]. rewrite !elem_of_allocated.
    unfold in_data, is_alloc. cbn [block_bitmap total_blocks]. unfold disk_bitmap. by rewrite E.
  - intros i k [Hi _]. destruct (mixed_slice (i * BLOCK_SIZE) (i * BLOCK_SIZE + BLOCK_SIZE) ws d) as [_ H]; [vlia|done|].
    destruct (H k) as (x & (w & -> & Hw)%list_elem_of_fmap & E). exists (disk w).
    split; [by apply list_elem_of_fmap_2|exact E].
Qed.

(** What every version of a vault's file has in common. *)
Definition shaped (d w : bytes) : Prop :=
  lenZ w = lenZ d /\ slice 0 BLOCK_SIZE w = slice 0 BLOCK_SIZE d /\ is_bytes (disk_bitmap w).

Lemma shaped_mixed d ws w : mixed ws w -> (forall v, v ∈ ws -> shaped d v) -> shaped d w.
Proof.
  intros Hm Hs. split_and!.
  - destruct Hm as [Hl H]. destruct (H 0) as (v & Hv & _). rewrite <- (Hl v Hv). by apply Hs.
  - eapply mixed_same; [by apply (mixed_slice 0 BLOCK_SIZE ws)|]. intros v (u & -> & Hu)%list_elem_of_fmap. by apply Hs.
  - eapply mixed_Forall; [apply (mixed_slice _ _ ws); [vlia|done]|]. intros v (u & -> & Hu)%list_elem_of_fmap. by apply Hs.
Qed.
Lemma shaped_trans d d' w : shaped d d' -> shaped d w -> shaped d' w.
Proof. intros (L & S & _) (L' & S' & B). split_and!; [by rewrite L'|by rewrite S'|done]. Qed.

(** The file holds [d] and may return to [old] as [a] says. *)
Record sound (a : dvault) (d : bytes) (old : list bytes) : Prop := {
  so_now : now_v a = disk d;
  so_shape : forall w, w ∈ d :: old -> shaped d w;
  so_old : forall w, w ∈ old -> blends total (now_v a :: past_v a) (disk w);
}.

Lemma sound_flushed d : is_bytes (disk_bitmap d) -> sound (DVault (disk d) []) d [].
Proof. intros H. split; [done| |by intros w ?%elem_of_nil]. by intros w ->%list_elem_of_singleton. Qed.

Lemma sound_step a a' d old d' old' :
  sound a d old -> later d old d' old' -> shaped d d' -> now_v a' = disk d' ->
  (forall u, u ∈ now_v a :: past_v a -> blends total (now_v a' :: past_v a') u) -> sound a' d' old'.
Proof.
  intros [En Hs Hold] [_ Hl] Hd' En' Hu.
  assert (forall w, w ∈ [d; d'] -> shaped d w) as Hboth.
  { intros w [->|[->|[]%not_elem_of_nil]%elem_of_cons]%elem_of_cons; [apply Hs; by left|done]. }
  split; [done| |].
  - intros w [->|Hw]%elem_of_cons; apply (shaped_trans d); try done.
    destruct (Hl w Hw) as [Hin|Hm]; [apply Hs; by right|by eapply shaped_mixed].
  - intros w Hw. destruct (Hl w Hw) as [Hin|Hm]; [by eapply blends_trans; [apply Hold|]|].
    eapply blends_trans; [by apply mixed_blends|].
    intros u [->|[->|[]%not_elem_of_nil]%elem_of_cons]%elem_of_cons.
    + apply Hu. rewrite En. by left.
    + apply blends_self. rewrite En'. by left.
Qed.

(** An allocator call that fails changes nothing. *)
Lemma spec_step_err lo hi op S : (spec_step lo hi op S).2 <> S -> is_ok (spec_step lo hi op S).1 = true.
Proof. unfold spec_step. destruct op; repeat case_match; cbn; done. Qed.

(** A call that completed. *)
Lemma completes_sound op a r d old d' old' :
  sound a d old -> later d old d' old' -> shaped d d' -> completes key total op (disk d) r (disk d') ->
  (flushing op -> is_ok r = true -> old' = [] \/ d' = d) ->
  exists a', sound a' d' old' /\ dcompletes key total op a r a'.
Proof.
  intros Hso Hl Hd' Hc HF. pose proof (so_now _ _ _ Hso) as En.
  exists (DVault (disk d') (past_after op a (v_alloc (disk d')))). split; [|split; [by rewrite En|done]].
  assert (v_alloc (disk d') = v_alloc (disk d) -> same_blocks total (disk d) (disk d') ->
    sound (DVault (disk d') (past_v a)) d' old') as Hsame.
  { intros Ea Eb. eapply sound_step; [done..|]. cbn [now_v past_v]. rewrite En. intros u [->|Hu]%elem_of_cons.
    - eapply blends_same; [exact Ea|exact Eb|by left].
    - apply blends_self. by right. }
  assert (sound (DVault (disk d') (now_v a :: past_v a)) d' old') as Hmore.
  { eapply sound_step; [done..|]. intros u Hu. apply blends_self. by right. }
  destruct op as [op|i|i p|i|i raw]; cbn [past_after flushing completes] in *; try exact Hmore;
    [|by apply Hsame; apply Hc..].
  destruct Hc as (Hr & Ha & Hb). rewrite En. case_decide as Hch; [by apply Hsame|].
  destruct (HF I) as [->| ->]; [|split| done].
  { rewrite Hr. apply spec_step_err. intros E. apply Hch. by rewrite Ha. }
  - done.
  - intros w ->%list_elem_of_singleton. by apply (shaped_trans d).
  - by intros w ?%elem_of_nil.
Qed.

(** * The calls of a process *)

Lemma frame_shaped ino d e e' d' :
  vol_at e ino d -> vol_frame ino d e e' d' -> bitmap_ok (disk_bitmap d') -> shaped d d'.
Proof.
  intros Hv (Vx & Hv' & S & _) [_ B]. split_and!; [|done|done].
  rewrite (vol_size _ _ _ Hv), (vol_size _ _ _ Hv'). by destruct Vx as (? & ? & ->).
Qed.
Lemma vol_fits e ino d : vol_at e ino d -> fits d e.
Proof. intros [Hm Ho Hl]. split; [apply Hm|]. split; [done|apply Hm]. Qed.
Lemma holds_data ino d d' old e : holds ino d old e -> vol_at e ino d' -> d' = d.
Proof.
  intros (pos & _ & nd & Hi & Hd & _) [_ [_ Hd'] _]. unfold data_of in Hd'. rewrite Hi in Hd'. cbn in Hd'. congruence.
Qed.
Lemma holds_versions ino d old e : holds ino d old e -> versions_of (e_fs e) ino = d :: old.
Proof. intros [pos H]. by eapply tracked_versions. Qed.
Lemma versions_holds ino d old e : vol_at e ino d -> versions_of (e_fs e) ino = d :: old -> holds ino d old e.
Proof.
  intros [_ Ho _] V. apply open_on_inv in Ho as (pos & nd & Hf & Hi & Hd). exists pos. split; [done|].
  exists nd. unfold versions_of in V. rewrite Hi in V. injection V as V1 V2. by split_and!.
Qed.

(** What [VolumeCrash] says of a call, together with the versions it leaves. *)
Lemma call_post op e ino d old :
  vol_op_typed op -> running e ino d -> holds ino d old e -> forall f, let e0 := with_fs (with_faults f (e_fs e)) e in
  wp (run_vol op) (fun r e' => exists d' old', vol_frame ino d e0 e' d' /\ holds ino d' old' e' /\ later d old d' old' /\
    shaped d d' /\ bitmap_ok (disk_bitmap d') /\ (flushing op -> is_ok r = true -> old' = [] \/ d' = d) /\
    cut key total op (disk d) r (disk d') /\
    (healthy e0 ino -> synced e' d' /\ completes key total op (disk d) r (disk d'))) e0.
Proof using HOk.
  intros Hty [[Hv Hf Hs _] Ht Hk Hp] Hh f e0.
  assert (vol_at e0 ino d) as Hv0 by (destruct Hv as [Hm [Hi Hd] Hl]; by split).
  eapply wp_mono; [apply wp_pp; [by apply (run_vol_cut key total e0 ino d)|
    apply (run_vol_tracked op ino d old); [done|exact Hh|by eapply vol_fits]]|].
  intros r e' [(d1 & Hfr & Hb & Hcut & Hheal) (d' & old' & Hh' & Hl & HF & _)].
  pose proof Hfr as (_ & Hv' & _). pose proof (holds_data _ _ _ _ _ Hh' Hv') as ->.
  exists d', old'. split; [exact Hfr|]. split; [done|]. split; [done|]. split; [by eapply frame_shaped|]. by split_and!.
Qed.

Lemma same_faults e : with_fs (with_faults (faults (e_fs e)) (e_fs e)) e = e.
Proof. by destruct e as [[] g v]. Qed.

Lemma run_vols_sound ops e ino d old a :
  Forall vol_op_typed ops -> running e ino d -> holds ino d old e -> sound a d old ->
  wp (run_vols ops) (fun rs e' => exists d' old' a', running e' ino d' /\ holds ino d' old' e' /\ sound a' d' old' /\
    dops_spec key total ops a rs a') e.
Proof using HOk.
  intros Hty. revert e d old a. induction Hty as [|op ops Hop Hty IH]; intros e d old a He Hh Hso.
  { apply wp_ret. exists d, old, a. split_and!; [done..|constructor]. }
  cbn [run_vols]. apply wp_bind. pose proof (call_post op e ino d old Hop He Hh (faults (e_fs e))) as W.
  cbv zeta in W. rewrite same_faults in W. eapply wp_mono; [exact W|].
  intros r e1 (d1 & old1 & Hfr & Hh1 & Hl & Hsh & _ & HF & _ & Hc). destruct Hc as [Hs1 Hcomp]; [by apply He|].
  destruct (completes_sound op a r d old d1 old1) as (a1 & Hso1 & Hd1); [done..|].
  apply wp_bind. eapply wp_mono; [apply (IH e1 d1 old1 a1); [by eapply running_frame|done|done]|].
  intros rs e2 (d2 & old2 & a2 & He2 & Hh2 & Hso2 & Hspec). apply wp_ret. exists d2, old2, a2.
  split_and!; [done..|by econstructor].
Qed.

Lemma last_sound op f e ino d old a :
  vol_op_typed op -> running e ino d -> holds ino d old e -> sound a d old ->
  wp (run_vol op) (fun r e' => exists d' old' a', rest (kill (e_fs e')) ino d' /\
    versions_of (kill (e_fs e')) ino = d' :: old' /\ sound a' d' old' /\ dcut key total op a r a' /\
    (flushing op -> is_ok r = true -> v_alloc (now_v a') <> v_alloc (now_v a) -> old' = []))
    (with_fs (with_faults f (e_fs e)) e).
Proof using HOk.
  intros Hty He Hh Hso. pose proof (so_now _ _ _ Hso) as En.
  eapply wp_mono; [apply wp_and; [by apply (last_call path key total op f e ino d)|by apply (call_post op e ino d old)]|].
  intros r e' [(d1 & Hr & _) (d' & old' & Hfr & Hh' & Hl & Hsh & _ & HF & [Hint Hok] & _)].
  assert (d1 = d') as ->.
  { pose proof (rest_data _ _ _ _ _ _ Hr) as E. apply holds_versions in Hh'. unfold versions_of, data_of in *. cbn in E.
    destruct (inodes (e_fs e') !! ino); [|done]. injection E as <-. by injection Hh' as ->. }
  exists d', old'. unfold dcut. destruct (is_ok r) eqn:Er.
  - destruct (completes_sound op a r d old d' old') as (a' & Hso' & Hd'); [done..|by apply Hok|by rewrite Er|].
    exists a'. split_and!; [done|by apply holds_versions|done..|]. intros Hfl Hr' Hch.
    destruct (HF Hfl eq_refl) as [->| ->]; [done|]. by rewrite En, (so_now _ _ _ Hso') in Hch.
  - exists (DVault (disk d') (now_v a :: past_v a)). split_and!; [done|by apply holds_versions| |by rewrite En|done|done].
    eapply sound_step; [done..|]. intros u Hu. apply blends_self. by right.
Qed.

(** * The end of a process *)

Lemma outage_sound pick s ino d old a :
  rest s ino d -> versions_of s ino = d :: old -> sound a d old ->
  exists x a', rest (power_loss pick s) ino x /\ versions_of (power_loss pick s) ino = [x] /\ sound a' x [] /\
    ends total (Outage pick) a a'.
Proof.
  intros Hr V Hso. destruct (inodes s !! ino) as [nd|] eqn:Hi; unfold versions_of in V; rewrite Hi in V; [|done].
  cbn in V. injection V as Vd Vo. pose proof (power_loss_data pick s ino nd Hi) as Hi'. set (x := blend (pick ino) nd) in *.
  assert (mixed (d :: old) x) as Hm.
  { rewrite <- Vd, <- Vo. apply blend_mixed. intros w Hw. rewrite Vd. apply (so_shape _ _ _ Hso).
    by rewrite <- Vd, <- Vo. }
  destruct (shaped_mixed d _ _ Hm (so_shape _ _ _ Hso)) as (L & S & B). exists x, (DVault (disk x) []).
  split; [|split; [unfold versions_of; by rewrite Hi'|split; [by apply sound_flushed|split; [|done]]]].
  - destruct Hr as [R1 R2 R3 R4 R5 R6 R7 R8 R9].
    split; [done|unfold data_of; by rewrite Hi'|done|done|done|done|by rewrite L| |by rewrite S].
    split; [|done]. unfold disk_bitmap. rewrite lenZ_slice; vlia.
  - cbn [now_v]. rewrite (so_now _ _ _ Hso). eapply blends_trans; [apply (mixed_blends _ _ Hm)|].
    intros u (w & -> & Hw)%list_elem_of_fmap. apply elem_of_cons in Hw as [->|Hw].
    + apply blends_self. by left.
    + rewrite <- (so_now _ _ _ Hso). by apply (so_old _ _ _ Hso).
Qed.

(** * Opening *)

Definition same_versions (s s' : fs) : Prop := forall i, versions_of s' i = versions_of s i.

Lemma pp_or_close {A} fd (m : M fs (result A)) s0 s :
  pp m (fun _ => same_versions s0) s -> pp (or_close fd m) (fun _ => same_versions s0) s.
Proof. intros H. apply pp_bind. eapply pp_mono; [exact H|]. by intros [a|err] s' Hs. Qed.

Lemma pp_reading {A B} (m : M fs (result A)) (k : A -> M fs (result B)) s0 s :
  same_versions s0 s -> pp m (fun _ => same_files s) s ->
  (forall a s', same_versions s0 s' -> pp (k a) (fun _ => same_versions s0) s') ->
  pp (m ≫= try_bind k) (fun _ => same_versions s0) s.
Proof.
  intros H0 Hm Hk. apply pp_bind. eapply pp_mono; [exact Hm|]. intros r s' [V _].
  assert (same_versions s0 s') as H1 by (intros i; by rewrite V). apply pp_try; [|done]. intros a _. by apply Hk.
Qed.
Lemma pp_recount {S} bitmap idxs n (s : S) : pp (recount bitmap idxs n) (fun _ s' => s' = s) s.
Proof.
  revert n. induction idxs as [|i idxs IH]; intros n; cbn [recount]; [done|].
  apply pp_bind, pp_unwrap. intros free _. apply pp_bind.
  destruct free; [apply pp_chk_u; intros n'|]; apply IH.
Qed.
Lemma pp_open_existing p k s : pp (open_existing p k) (fun _ => same_versions s) s.
Proof.
  apply pp_bind. eapply (pp_mono _ (fun _ => same_versions s)).
  { unfold pp, open_rw, on_path, syscall. destruct (has_nul p); [done|]. destruct (faults s (tick s)); [done|]. cbn.
    by destruct (dir s !! p). }
  intros r s1 S1. apply pp_try; [|done]. intros fd _. apply pp_or_close.
  apply pp_reading; [done|apply pp_seek|]. intros _ s2 S2. apply pp_reading; [done|apply pp_read|]. intros raw s3 S3.
  destruct (read_superblock raw) as [sb|]; [|done]. cbv zeta. destruct (negb _); [done|].
  apply pp_reading; [done|apply pp_seek|]. intros _ s4 S4. apply pp_reading; [done|apply pp_read|]. intros bitmap s5 S5.
  destruct (_ || _); [done|]. apply pp_bind. eapply pp_mono; [apply pp_recount|]. by intros n s6 ->.
Qed.

(** A vault at rest is opened without a change. *)
Lemma pp_reopen n k s ino d :
  rest s ino d -> n <= MAX_DATA_BLOCKS -> pp (open_or_create path k n) (fun _ => same_versions s) s.
Proof.
  intros [R1 R2 R3 R4 R5 R6 R7 _ _] Hn. unfold open_or_create. destruct (Z.ltb_spec MAX_DATA_BLOCKS n); [lia|].
  assert (forall s1, keeps_data s s1 -> wp (metadata path) (fun r s2 =>
    (exists nd, r = Ok nd /\ i_data nd = d /\ keeps_data s s2) /\ same_files s1 s2) s1) as Hmeta.
  { intros s1 K. apply wp_pp; [|apply pp_metadata]. pose proof K as (D & _ & I & _).
    apply (wp_metadata_present path s1 ino d); [by rewrite D|by rewrite I|done|by eapply keeps_data_quiet|].
    intros nd s2 K2 Hnd. exists nd. split_and!; [done..|by eapply keeps_data_trans]. }
  apply pp_bind. eapply pp_mono; [apply pp_of_wp, (Hmeta s), keeps_data_refl|].
  intros r s1 [(nd & -> & -> & K1) [V1 _]]. cbv zeta. destruct (Z.eqb_spec (lenZ d) 0); [vlia|].
  apply pp_bind, pp_bind. eapply pp_mono; [by apply pp_of_wp, (Hmeta s1)|].
  intros r2 s2 [(nd2 & -> & _) [V2 _]]. cbn. eapply pp_mono; [apply pp_open_existing|].
  intros r3 s3 V3 i. by rewrite V3, V2.
Qed.

(** ** A new vault is flushed *)

Lemma pp_create p k n s :
  pp (create_new p k n) (fun r s' => is_ok r = true -> exists d, versions_of s' (next_id s) = [d]) s.
Proof.
  unfold create_new. apply pp_bind, pp_chk_u. intros tb. apply pp_bind, pp_chk_u. intros size. apply pp_bind.
  eapply (pp_mono _ (fun r s' => forall fd, r = Ok fd -> tracked fd (next_id s) 0 [] [] s')).
  { unfold pp, open_create_new, on_path, syscall. destruct (has_nul p); [done|]. destruct (faults s (tick s)); [done|]. cbn.
    destruct (dir s !! p); [done|]. intros fd [= <-]. split; [apply lookup_insert_eq|].
    eexists. split; [apply lookup_insert_eq|done]. }
  intros r s1 T1. apply pp_try; [|done]. intros fd E. specialize (T1 fd E). apply pp_bind.
  eapply (pp_mono _ (fun r s' => is_ok r = true -> exists d, versions_of s' (next_id s) = [d]));
    [|by intros [v|err] s' H].
  apply pp_bind. eapply pp_mono; [by eapply pp_tracked_set_len|]. intros r2 s2 T2. apply pp_try; [|done]. intros [] ->.
  cbn in T2. cbv zeta.
  apply pp_bind. eapply pp_mono; [by eapply pp_tracked_seek|]. intros r3 s3 (p3 & T3 & _). apply pp_try; [|done]. intros _ _.
  apply pp_bind. eapply pp_mono; [by eapply pp_tracked_write|]. intros r4 s4 (p4 & j4 & T4 & _). apply pp_try; [|done]. intros _ _.
  apply pp_bind. eapply pp_mono; [by eapply pp_tracked_seek|]. intros r5 s5 (p5 & T5 & _). apply pp_try; [|done]. intros _ _.
  apply pp_bind. eapply pp_mono; [by eapply pp_tracked_write|]. intros r6 s6 (p6 & j6 & T6 & _). apply pp_try; [|done]. intros _ _.
  apply pp_bind. eapply pp_mono; [by eapply pp_tracked_sync|]. intros r7 s7 T7. apply pp_try; [|done]. intros [] ->.
  apply pp_ret. intros _. eexists. by eapply tracked_versions.
Qed.
Lemma pp_open_fresh p k n s :
  dir s !! p = None ->
  pp (open_or_create p k n) (fun r s' => is_ok r = true -> exists d, versions_of s' (next_id s) = [d]) s.
Proof.
  intros Hd. unfold open_or_create. destruct (_ <? _); [done|].
  assert (forall s1, keeps_data s s1 -> dir s1 !! p = None) as Hk by (intros s1 K; by rewrite (keeps_data_dir _ _ K)).
  apply pp_bind, pp_of_wp, wp_metadata_absent; [done|]. intros err s1 K1. cbv zeta.
  apply pp_bind, pp_of_wp, wp_exists_absent; [by apply Hk|]. intros s2 K2. cbn.
  pose proof (keeps_data_trans _ _ _ K1 K2) as K12.
  apply pp_bind, pp_of_wp, wp_exists_absent; [by apply Hk|]. intros s3 K3. apply pp_bind, pp_ret.
  pose proof (keeps_data_trans _ _ _ K12 K3) as (_ & _ & _ & N & _). rewrite <- N. apply pp_create.
Qed.

(** * Any number of processes *)

(** One process, killed in its last call. *)
Lemma life_ops l n s g ino d old a :
  life_typed l -> n <= MAX_DATA_BLOCKS -> rest s ino d -> versions_of s ino = d :: old -> sound a d old ->
  exists rs r s' g' d' old' b c, run_life path key n l (s, g) = Some (rs, r, (s', g')) /\
    rest s' ino d' /\ versions_of s' ino = d' :: old' /\ sound c d' old' /\
    dops_spec key total (l_ops l) a rs b /\ dcut key total (l_last l) b r c /\
    (flushing (l_last l) -> is_ok r = true -> v_alloc (now_v c) <> v_alloc (now_v b) -> old' = []).
Proof using HOk.
  intros [Hty Hlast] Hn Hr V Hso.
  destruct (wp_inv _ _ _ (wp_pp _ _ _ _ (reopen_rest path key total s ino d key n g Hr Hn) (pp_reopen n key s ino d Hr Hn)))
    as (r0 & s0 & E0 & [Hopen _] & V0).
  destruct (Hopen eq_refl) as (v & -> & Hvs & _ & T & K & P).
  assert (running (VolEnv s0 g v) ino d) as He0 by (by split).
  assert (holds ino d old (VolEnv s0 g v)) as Hh0 by (apply versions_holds; [apply Hvs|by rewrite <- V, <- V0]).
  destruct (wp_inv _ _ _ (run_vols_sound (l_ops l) _ ino d old a Hty He0 Hh0 Hso))
    as (rs & e1 & E1 & d1 & old1 & b & He1 & Hh1 & Hso1 & Hops).
  destruct (wp_inv _ _ _ (last_sound (l_last l) (l_faults l) e1 ino d1 old1 b Hlast He1 Hh1 Hso1))
    as (r & e2 & E2 & d2 & old2 & c & Hr2 & V2 & Hso2 & Hcut & HF).
  exists rs, r, (kill (e_fs e2)), (e_rng e2), d2, old2, b, c. split; [|by split_and!].
  unfold run_life. cbn [fst snd]. by rewrite E0, E1, E2.
Qed.
Lemma life_sound l en n s g ino d old a :
  life_typed l -> n <= MAX_DATA_BLOCKS -> rest s ino d -> versions_of s ino = d :: old -> sound a d old ->
  exists rs r s' g' d' old' b c c', run_life path key n l (s, g) = Some (rs, r, (s', g')) /\
    rest (ended en s') ino d' /\ versions_of (ended en s') ino = d' :: old' /\ sound c' d' old' /\
    dops_spec key total (l_ops l) a rs b /\ dcut key total (l_last l) b r c /\ ends total en c c'.
Proof using HOk.
  intros Hl Hn Hr V Hso. destruct (life_ops l n s g ino d old a Hl Hn Hr V Hso)
    as (rs & r & s2 & g2 & d2 & old2 & b & c & E & Hr2 & V2 & Hso2 & Hops & Hcut & _).
  destruct en as [|pick].
  - by exists rs, r, s2, g2, d2, old2, b, c, c.
  - destruct (outage_sound pick s2 ino d2 old2 c Hr2 V2 Hso2) as (x & c' & Hrx & Vx & Hsox & Hends).
    by exists rs, r, s2, g2, x, [], b, c, c'.
Qed.

Lemma dlives_follow ls n s g ino d old a :
  Forall (fun l => life_typed l.1) ls -> n <= MAX_DATA_BLOCKS -> rest s ino d -> versions_of s ino = d :: old -> sound a d old ->
  exists outs s' g' d' old' z, run_dlives path key n ls (s, g) = Some (outs, (s', g')) /\ rest s' ino d' /\
    versions_of s' ino = d' :: old' /\ sound z d' old' /\ dlives_spec key total ls a outs z.
Proof using HOk.
  intros Hty Hn. revert s g d old a. induction Hty as [|[l en] ls Hl Hty IH]; intros s g d old a Hr V Hso.
  { exists [], s, g, d, old, a. split_and!; [done..|constructor]. }
  destruct (life_sound l en n s g ino d old a Hl Hn Hr V Hso)
    as (rs & r & s1 & g1 & d1 & old1 & b & c & c' & E & Hr1 & V1 & Hso1 & Hops & Hcut & Hends).
  destruct (IH (ended en s1) g1 d1 old1 c' Hr1 V1 Hso1) as (outs & s' & g' & d' & old' & z & E' & Hr' & V' & Hso' & Hspec).
  exists ((rs, r) :: outs), s', g', d', old', z. split_and!; [|done..|by econstructor].
  cbn [run_dlives]. rewrite E. cbn. by rewrite E'.
Qed.
End sound.

Section theorems.
Context `{HP : Primitives} `{HB : BuildProfile} `{HOk : !PrimitivesOk HP}.

(** A new vault and its first versions. *)
Lemma fresh_sound path key n s :
  0 <= n <= MAX_DATA_BLOCKS -> lenZ key = 32 -> has_nul path = false -> dir s !! path = None -> quiet s ->
  exists v s0, open_or_create path key n s = Done (Ok v) s0 /\
    at_rest path key (DATA_START_BLOCK + n) (kill s0) (next_id s) (fresh_file key n) /\
    versions_of (kill s0) (next_id s) = [fresh_file key n] /\
    sound key (DATA_START_BLOCK + n) (DVault (on_disk key (DATA_START_BLOCK + n) (fresh_file key n)) []) (fresh_file key n) [].
Proof using HOk.
  intros Hn Hk Hnul Hd Hq.
  destruct (wp_inv _ _ _ (wp_pp _ _ _ _ (fresh_rest path key n s Hn Hk Hnul Hd Hq) (pp_open_fresh path key n s Hd)))
    as (r & s0 & E & (v & -> & Hr) & Hv). destruct (Hv eq_refl) as [d V]. exists v, s0.
  split; [done|]. split; [done|]. split; [|apply sound_flushed; apply Hr].
  pose proof (rest_data _ _ _ _ _ _ Hr) as Ed. unfold versions_of, data_of in *. cbn in *.
  destruct (inodes s0 !! next_id s); [|done]. unfold versions in *. cbn in *. congruence.
Qed.

(** [C2] A vault is created and then used by any number of processes, each of which opens it,
    makes any calls, and is ended at any point of its last call, by its death or by a loss
    of power.  Every process can open the vault, and finds what the specification allows:
    completed calls have their full effect, an outage may bring back any blend of the vaults
    since the last flush, and a successful allocation or release of a block is a flush.  The
    allocated set and every block read as the specification says also at the end. *)
Theorem power_refinement path key n ls s g :
  0 <= n <= MAX_DATA_BLOCKS -> lenZ key = 32 -> has_nul path = false -> dir s !! path = None -> quiet s ->
  Forall (fun l => life_typed l.1) ls ->
  exists v s0 outs m a z, open_or_create path key n s = Done (Ok v) s0 /\
    run_dlives path key n ls (kill s0, g) = Some (outs, m) /\
    v_alloc (now_v a) = ∅ /\ past_v a = [] /\ dlives_spec key (DATA_START_BLOCK + n) ls a outs z /\
    exists v' s', open_or_create path key n m.1 = Done (Ok v') s' /\ allocated v' = v_alloc (now_v z) /\
      forall i, valid (DATA_START_BLOCK + n) i -> exists e',
        read_block i (VolEnv s' m.2 v') = Done (of_option (open_block key i (v_block (now_v z) i))) e'.
Proof using HOk.
  intros Hn Hk Hnul Hd Hq Hls. destruct (fresh_sound path key n s Hn Hk Hnul Hd Hq) as (v & s0 & E & Hr & V & Hso).
  destruct (dlives_follow path key _ ls n (kill s0) g _ _ [] _ Hls ltac:(lia) Hr V Hso)
    as (outs & s1 & g1 & d1 & old1 & z & E1 & Hr1 & _ & Hso1 & Hspec).
  destruct (rest_reads path key _ n s1 g1 _ d1 ltac:(lia) Hr1) as (v' & s' & E' & Ha & Hread).
  exists v, s0, outs, (s1, g1), (DVault (on_disk key (DATA_START_BLOCK + n) (fresh_file key n)) []), z.
  split_and!; [done..|by apply fresh_empty|done|done|]. exists v', s'. rewrite (so_now _ _ _ _ _ Hso1). by split_and!.
Qed.

(** An allocation or a release that succeeds changes the set. *)
Lemma spec_changes lo hi op S :
  (op = OpAllocate \/ exists i, op = OpFree i) -> is_ok (spec_step lo hi op S).1 = true -> (spec_step lo hi op S).2 <> S.
Proof.
  intros [->|[i ->]]; cbn.
  - destruct (List.find _ _) as [i|] eqn:E; [|done]. apply List.find_some in E as [_ E].
    apply bool_decide_eq_true in E. intros _ H. apply E. rewrite <- H. by apply elem_of_union_l, elem_of_singleton.
  - case_bool_decide as Hi; [|done]. intros _ H. cbn in H. rewrite <- H in Hi.
    apply elem_of_difference in Hi as [_ Hi]. by apply Hi, elem_of_singleton.
Qed.

(** [C12] Durability: after any history of processes and outages, let a process make any calls
    and end with an allocation or a release, under any I/O errors.  If that call reported
    success, a loss of power leaves the vault's file byte for byte as it was, so nothing
    that was done before is lost. *)
Theorem flushed_survives path key n ls ops op f s g :
  0 <= n <= MAX_DATA_BLOCKS -> lenZ key = 32 -> has_nul path = false -> dir s !! path = None -> quiet s ->
  Forall (fun l => life_typed l.1) ls -> Forall vol_op_typed ops -> (op = OpAllocate \/ exists i, op = OpFree i) ->
  exists v s0 outs m rs r s1 g1 ino d, open_or_create path key n s = Done (Ok v) s0 /\
    run_dlives path key n ls (kill s0, g) = Some (outs, m) /\
    run_life path key n (Life ops (VAlloc op) f) m = Some (rs, r, (s1, g1)) /\
    dir s1 !! path = Some ino /\ data_of s1 ino = Some d /\
    (is_ok r = true -> forall pick, data_of (power_loss pick s1) ino = Some d).
Proof using HOk.
  intros Hn Hk Hnul Hd Hq Hls Hops Hop. destruct (fresh_sound path key n s Hn Hk Hnul Hd Hq) as (v & s0 & E & Hr & V & Hso).
  destruct (dlives_follow path key _ ls n (kill s0) g _ _ [] _ Hls ltac:(lia) Hr V Hso)
    as (outs & s1 & g1 & d1 & old1 & z & E1 & Hr1 & V1 & Hso1 & _).
  destruct (life_ops path key _ (Life ops (VAlloc op) f) n s1 g1 _ d1 old1 z ltac:(done) ltac:(lia) Hr1 V1 Hso1)
    as (rs & r & s2 & g2 & d2 & old2 & b & c & E2 & Hr2 & V2 & Hso2 & _ & Hcut & HF).
  exists v, s0, outs, (s1, g1), rs, r, s2, g2, (next_id s), d2. split_and!; [done..|apply Hr2|apply Hr2|].
  intros Hok pick. apply flushed_data. rewrite V2, HF; [done|done|done|].
  unfold dcut in Hcut. cbn [l_last] in Hcut. rewrite Hok in Hcut. destruct Hcut as [(Hr' & Ha & _) _].
  rewrite Ha. apply spec_changes; [done|]. rewrite Hr' in Hok. exact Hok.
Qed.

(** A block that is written is not flushed: after a write that reported success, and
    that every reader sees, some loss of power brings the file back as it was before. *)
Theorem write_may_be_lost e ino d i p :
  vol_at e ino d -> healthy e ino -> in_data (e_vol e) i -> lenZ p = PAYLOAD_SIZE ->
  exists e' d', write_block i p e = Done (Ok tt) e' /\ e_vol e' = e_vol e /\ data_of (e_fs e') ino = Some d' /\
    block_holds (e_vol e') d' i = Some p /\ exists pick, data_of (power_loss pick (e_fs e')) ino = Some d.
Proof using HOk.
  intros Hv Hh Hi Hp. pose proof (vol_open _ _ _ Hv) as (pos & nd & Hf & Hn & Hnd)%open_on_inv.
  assert (holds ino d (i_old nd) e) as Hho by (exists pos; split; [done|by exists nd]).
  assert (wp (write_block i p) (fun r e' => exists d', r = Ok tt /\ touched_block i ino d e e' d' /\
    block_holds (e_vol e) d' i = Some p) e) as W.
  { apply (wp_write_block e ino d); [done..|]. intros r e' d' Ht [[-> Hb]|[_ Hbad]]; [by exists d'|by destruct Hbad]. }
  pose proof (pp_write_block i p ino d _ e Hho (vol_fits _ _ _ Hv) Hp) as P.
  destruct (wp_inv _ _ _ (wp_pp _ _ _ _ W P)) as (r & e' & E & (d' & -> & (V & Hv' & _) & Hb) & d1 & old' & Hh' & _ & _ & [[]|Hd]).
  exists e', d'. split_and!; [done|done|apply Hv'|by rewrite V|]. apply lost_data. by rewrite (holds_versions _ _ _ _ Hh').
Qed.

(** Dropping a volume flushes its file: on a healthy file system an outage afterwards
    loses nothing. *)
Theorem drop_flushes e ino d :
  vol_at e ino d -> healthy e ino ->
  exists e', drop_volume e = Done tt e' /\ forall pick, data_of (power_loss pick (e_fs e')) ino = Some d.
Proof.
  intros Hv Hh. pose proof (vol_open _ _ _ Hv) as (pos & nd & Hf & Hn & Hnd)%open_on_inv.
  assert (tracked (file (e_vol e)) ino pos d (i_old nd) (e_fs e)) as Ht by (split; [done|by exists nd]).
  assert (wp drop_volume (fun _ e' => versions_of (e_fs e') ino = [d]) e) as W.
  { apply wp_bind. cbn. apply wp_bind, wp_zoom. cbn [lget fs_lens].
    eapply wp_mono; [apply (wp_pp _ (fun r _ => r = Ok tt)); [|exact (pp_tracked_sync _ _ _ _ _ _ Ht)]|].
    - apply (wp_sync_all (file (e_vol e)) ino _ d); [by apply Hv|].
      intros r s' [->|[_ Hf']] _ _ _; [done|]. by destruct (healthy_not_faulty _ _ Hh).
    - intros r s' [-> Hs]. apply wp_bind. cbn. exact (tracked_versions _ _ _ _ _ _ Hs). }
  destruct (wp_inv _ _ _ W) as ([] & e' & E & V). exists e'. split; [done|]. intros pick. by apply flushed_data.
Qed.
End theorems.

(** * Examples *)

Definition power_demo : list (life * ending) :=
  [(Life [VAlloc OpAllocate] (VWrite 9 (repZ PAYLOAD_SIZE 5)) (fun _ => None), Outage (fun _ k => if k <? 40000 then 0%nat else 1%nat));
   (Life [] (VAlloc (OpFree 9)) (fun _ => Some 0), Death)].
Lemma power_demo_typed : Forall (fun l => life_typed l.1) power_demo.
Proof. repeat constructor; exact (lenZ_repZ PAYLOAD_SIZE 5). Qed.

Lemma power_refinement_witness :
  exists v s0 outs m, open_or_create (HB := true) "v" (repZ 32 1) 4 empty_fs = Done (Ok v) s0 /\
    run_dlives (HB := true) "v" (repZ 32 1) 4 power_demo (kill s0, 0) = Some (outs, m).
Proof.
  destruct (power_refinement (HP := toy) (HB := true) "v" (repZ 32 1) 4 power_demo empty_fs 0
    ltac:(vlia) (lenZ_repZ 32 1) eq_refl eq_refl (fun _ => eq_refl) power_demo_typed) as (v & s0 & outs & m & a & z & ? & ? & _).
  exists v, s0, outs, m. auto.
Defined.

(** A process allocates the one block of a vault; an outage loses nothing of it. *)
Definition flush_demo_ok : bool :=
  match open_or_create (HP := toy) (HB := true) "v" (repZ 32 1) 1 empty_fs with
  | Done (Ok _) s0 =>
      match run_life (HP := toy) (HB := true) "v" (repZ 32 1) 1 (Life [] (VAlloc OpAllocate) (fun _ => None)) (kill s0, 0) with
      | Some (_, r, _) => is_ok r
      | None => false
      end
  | _ => false
  end.
Lemma flushed_survives_witness :
  exists v s0 rs r s1 g1 d, open_or_create (HB := true) "v" (repZ 32 1) 1 empty_fs = Done (Ok v) s0 /\
    run_life (HB := true) "v" (repZ 32 1) 1 (Life [] (VAlloc OpAllocate) (fun _ => None)) (kill s0, 0) = Some (rs, r, (s1, g1)) /\
    exists ino, dir s1 !! "v" = Some ino /\ forall pick, data_of (power_loss pick s1) ino = Some d.
Proof.
  destruct (flushed_survives (HP := toy) (HB := true) "v" (repZ 32 1) 1 [] [] OpAllocate (fun _ => None) empty_fs 0
    ltac:(vlia) (lenZ_repZ 32 1) eq_refl eq_refl (fun _ => eq_refl)
    ltac:(constructor) ltac:(constructor) (or_introl eq_refl))
    as (v & s0 & outs & m & rs & r & s1 & g1 & ino & d & E1 & E2 & E3 & Hd & _ & Hs).
  assert (flush_demo_ok = true) as Hok by (vm_compute; reflexivity).
  unfold flush_demo_ok in Hok. injection E2 as <- <-. rewrite E1 in Hok. cbn beta iota in Hok.
  rewrite E3 in Hok. cbn beta iota in Hok.
  exists v, s0, rs, r, s1, g1, d. split; [exact E1|]. split; [exact E3|].
  exists ino. split; [exact Hd|exact (Hs Hok)].
Defined.

Lemma write_may_be_lost_witness :
  exists e' pick, write_block (HB := true) 9 (repZ PAYLOAD_SIZE 5) demo_env = Done (Ok tt) e' /\
    data_of (power_loss pick (e_fs e')) 1 = Some demo_data.
Proof.
  destruct (write_may_be_lost (HP := toy) (HB := true) demo_env 1 demo_data 9 (repZ PAYLOAD_SIZE 5)
    demo_at demo_healthy demo_in_data (lenZ_repZ PAYLOAD_SIZE 5)) as (e' & d' & ? & _ & _ & _ & pick & ?).
  exists e', pick. auto.
Defined.

Lemma drop_flushes_witness :
  exists e', drop_volume (HP := toy) demo_env = Done tt e' /\
    data_of (power_loss (fun _ _ => 1%nat) (e_fs e')) 1 = Some demo_data.
Proof.
  destruct (drop_flushes (HP := toy) demo_env 1 demo_data demo_at demo_healthy) as (e' & ? & ?).
  exists e'. auto.
Defined.
