(* ===== verification/VolumeTotal.v ===== *)
(** No call on a volume panics, whatever has become of its file.

    [VolumeProofs] and its successors assume that the volume's file is open and has its
    size.  A purge that fails halfway, or a second vault opened on the same path, breaks
    that; the struct in memory stays well formed ([mem_sane]), and that alone excludes
    every panic of [virtual_volume.rs] and [disk_wipe.rs] in both build profiles. *)
From stdpp Require Import gmap.
From S2P Require Import Prelude Effects Crypto StdFs VolumeLayout VirtualVolume VolumeProofs VolumeBlocks VolumeOpen DiskWipe.

(** * Computations that always return *)

Definition total {S A} (m : M S A) : Prop := forall s, exists a s', m s = Done a s'.

Lemma total_ret {S A} (a : A) : total (S := S) (mret a).
Proof. intros s. by eexists _, _. Qed.
Lemma total_bind {S A B} (m : M S A) (k : A -> M S B) :
  total m -> (forall a, total (k a)) -> total (m ≫= k).
Proof. intros Hm Hk s. destruct (Hm s) as (a & s' & E). erewrite bind_done by exact E. apply Hk. Qed.
Lemma total_try {S A B} (k : A -> M S (result B)) r : (forall a, total (k a)) -> total (try_bind k r).
Proof. intros Hk. destruct r; [apply Hk|apply total_ret]. Qed.
Lemma total_zoom {S T A} (l : lens S T) (m : M S A) : total m -> total (zoom l m).
Proof. intros Hm t. destruct (Hm (lget l t)) as (a & s' & E). unfold zoom. rewrite E. by eexists _, _. Qed.
Create HintDb total.
#[export] Hint Resolve total_ret total_bind total_try total_zoom : total.

Ltac total_prim :=
  intros s; cbv beta delta [on_path on_fd syscall open_ino];
  repeat case_match; eexists _, _; reflexivity.

Lemma total_metadata path : total (metadata path).
Proof. unfold metadata. total_prim. Qed.
Lemma total_remove path : total (remove_file path).
Proof. unfold remove_file. total_prim. Qed.
Lemma total_create path : total (open_create_new path).
Proof. unfold open_create_new. total_prim. Qed.
Lemma total_open path : total (open_rw path).
Proof. unfold open_rw. total_prim. Qed.
Lemma total_seek fd off : total (seek fd off).
Proof. unfold seek. total_prim. Qed.
Lemma total_write fd d : total (write_all fd d).
Proof. unfold write_all. total_prim. Qed.
Lemma total_set_len fd n : total (set_len fd n).
Proof. unfold set_len. total_prim. Qed.
Lemma total_sync fd : total (sync_all fd).
Proof. unfold sync_all. total_prim. Qed.
Lemma total_utimes path a m : total (utimes path a m).
Proof. unfold utimes. total_prim. Qed.
Lemma total_close fd : total (close fd).
Proof. intros s. by eexists _, _. Qed.
#[export] Hint Resolve total_metadata total_remove total_create total_open total_seek total_write
  total_set_len total_sync total_utimes total_close : total.
Lemma total_exists path : total (path_exists path).
Proof. unfold path_exists. eauto with total. Qed.
#[export] Hint Resolve total_exists : total.

(** A read returns as many bytes as were asked for. *)
Lemma read_exact_total fd n s :
  0 <= n -> exists r s', read_exact fd n s = Done r s' /\ forall d, r = Ok d -> lenZ d = n.
Proof.
  intros Hn. unfold read_exact. cbv beta delta [on_fd syscall]. simpl.
  repeat case_match; eexists _, _; (split; [reflexivity|]); try done.
  intros d [= <-]. rewrite lenZ_slice; lia.
Qed.

(** [seek] and [read_exact] in sequence. *)
Lemma wp_seek_read {A} fd off n (k : bytes -> M fs (result A)) (Q : result A -> fs -> Prop) s :
  0 <= n ->
  (forall e s', Q (Err e) s') -> (forall d s', lenZ d = n -> wp (k d) Q s') ->
  wp (seek fd off ;;? d <-? read_exact fd n; k d) Q s.
Proof.
  intros Hn HE Hk. destruct (total_seek fd off s) as (r & s1 & E1).
  apply wp_bind. eapply wp_done; [exact E1|]. apply wp_try; [|auto]. intros [] ->.
  destruct (read_exact_total fd n s1) as (r & s2 & E2 & Hs2); [done|].
  apply wp_bind. eapply wp_done; [exact E2|]. apply wp_try; auto.
Qed.

(** * The struct in memory *)

(** Everything [mem_ok] says except that the bitmap, which may come from a damaged file,
    holds bytes. *)
Record mem_sane (v : VirtualVolume) : Prop := {
  sane_bitmap : lenZ (block_bitmap v) = BITMAP_BYTES;
  sane_total : DATA_START_BLOCK <= total_blocks v <= DATA_START_BLOCK + MAX_DATA_BLOCKS;
  sane_free : free_blocks v = count_free (block_bitmap v) (total_blocks v - DATA_START_BLOCK);
  sane_key : lenZ (master_key v) = 32;
}.

Lemma mem_ok_sane v : mem_ok v -> mem_sane v.
Proof. intros [[] ? ? ?]. by split. Qed.

(** [v'] is the volume [v] with another bitmap and free count. *)
Definition same_volume (v v' : VirtualVolume) : Prop :=
  v' = with_bitmap (block_bitmap v') (free_blocks v') v.

Lemma same_volume_refl v : same_volume v v.
Proof. by destruct v. Qed.
Lemma same_volume_trans v1 v2 v3 : same_volume v1 v2 -> same_volume v2 v3 -> same_volume v1 v3.
Proof. unfold same_volume. intros E1 E2. rewrite E2 at 1. rewrite E1 at 1. by destruct v1. Qed.

Section sane.
Context `{HP : Primitives} `{HB : BuildProfile} `{HOk : !PrimitivesOk HP}.

(** [m] returns, and leaves a well-formed struct of the same volume. *)
Definition sane {A} (m : M vol_env A) : Prop :=
  forall e, mem_sane (e_vol e) ->
    wp m (fun _ e' => mem_sane (e_vol e') /\ same_volume (e_vol e) (e_vol e')) e.

Lemma sane_ret {A} (a : A) : sane (mret a).
Proof. intros e He. apply wp_ret. auto using same_volume_refl. Qed.
Lemma sane_bind {A B} (m : M vol_env A) (k : A -> M vol_env B) :
  sane m -> (forall a, sane (k a)) -> sane (m ≫= k).
Proof.
  intros Hm Hk e He. apply wp_bind. eapply wp_mono; [by apply Hm|]. intros a e1 [H1 S1].
  eapply wp_mono; [by apply Hk|]. intros b e2 [H2 S2]. split; [done|]. by eapply same_volume_trans.
Qed.
Lemma sane_try {A B} (k : A -> M vol_env (result B)) r : (forall a, sane (k a)) -> sane (try_bind k r).
Proof. intros Hk. destruct r; [apply Hk|apply sane_ret]. Qed.
Lemma sane_io {A} (m : M fs A) : total m -> sane (io m).
Proof.
  intros Hm e He. destruct (Hm (e_fs e)) as (a & s' & E). apply wp_zoom. eapply wp_done; [exact E|].
  simpl. auto using same_volume_refl.
Qed.
Lemma sane_draw n : sane (zoom rng_lens (draw_bytes n)).
Proof. intros e He. apply wp_zoom. cbn. auto using same_volume_refl. Qed.
Lemma sane_gets {A} (f : vol_env -> A) : sane (gets f).
Proof. intros e He. cbn. auto using same_volume_refl. Qed.

Definition in_vault (v : VirtualVolume) (i : Z) : Prop := DATA_START_BLOCK <= i < total_blocks v.

Lemma check_eval i e :
  check_data_block i e =
    Done (if bool_decide (in_vault (e_vol e) i) then Ok tt else Err InvalidInput) e.
Proof.
  unfold check_data_block, in_vault. step.
  destruct (Z.ltb_spec i DATA_START_BLOCK), (Z.leb_spec (total_blocks (e_vol e)) i); simpl;
    case_bool_decide; try lia; done.
Qed.

(** A method that starts with the range check. *)
Lemma sane_checked {A} i (k : M vol_env (result A)) :
  (forall e, mem_sane (e_vol e) -> in_vault (e_vol e) i ->
     wp k (fun _ e' => mem_sane (e_vol e') /\ same_volume (e_vol e) (e_vol e')) e) ->
  sane (check_data_block i ;;? k).
Proof.
  intros Hk e He. apply wp_bind. eapply wp_done; [apply check_eval|].
  case_bool_decide; cbn [try_bind]; [by apply Hk|by apply sane_ret].
Qed.

Lemma offset_u64 v i : mem_sane v -> in_vault v i -> is_u 64 (i * BLOCK_SIZE).
Proof. intros [_ Ht _ _] Hi. unfold in_vault, is_u in *. vlia. Qed.

Lemma sane_freeze : sane freeze_timestamps.
Proof.
  unfold freeze_timestamps. apply sane_bind; [apply sane_gets|]. intros v.
  apply sane_bind; [apply sane_io; auto with total|]. intros r. apply sane_try. intros nd.
  destruct (has_nul _); [apply sane_ret|apply sane_io; auto with total].
Qed.

Ltac sane_steps :=
  repeat first
    [ apply sane_freeze
    | apply sane_ret
    | apply sane_draw
    | apply sane_io; solve [eauto with total]
    | apply sane_bind; [|intros ?]
    | apply sane_try; intros ? ].
(** On a known state. *)
Ltac sane_now e He := refine ((_ : sane _) e He); sane_steps.

Lemma sane_write_bitmap : sane write_bitmap.
Proof.
  intros e He. unfold write_bitmap. apply wp_bind. cbn.
  apply wp_bind, wp_debug_assert; [by rewrite (sane_bitmap _ He)|]. sane_now e He.
Qed.

(** * Methods *)

Lemma sane_read_raw {A} i (k : VirtualVolume -> bytes -> M vol_env (result A)) :
  (forall v d, lenZ d = BLOCK_SIZE -> sane (k v d)) ->
  sane (check_data_block i ;;?
    v ← gets e_vol;
    disk_offset ← chk_u 64 (i * BLOCK_SIZE);
    io (seek (file v) disk_offset) ;;?
    raw <-? io (read_exact (file v) BLOCK_SIZE);
    k v raw).
Proof.
  intros Hk. apply sane_checked. intros e He Hi. apply wp_bind. cbn.
  pose proof (offset_u64 _ _ He Hi) as Hu. apply wp_bind, wp_chk_u; [done|].
  destruct (total_seek (file (e_vol e)) (i * BLOCK_SIZE) (e_fs e)) as (r & s1 & E1).
  apply wp_bind, wp_zoom. eapply wp_done; [exact E1|]. apply wp_try; [|intros; split; [done|apply same_volume_refl]].
  intros [] ->. destruct (read_exact_total (file (e_vol e)) BLOCK_SIZE s1) as (r & s2 & E2 & Hs2); [done|].
  apply wp_bind, wp_zoom. eapply wp_done; [exact E2|]. apply wp_try; [|intros; split; [done|apply same_volume_refl]].
  intros d ->. by apply (Hk (e_vol e) d (Hs2 d eq_refl) (with_fs s2 (with_fs s1 e))).
Qed.

Lemma sane_read_block i : sane (read_block i).
Proof.
  apply (sane_read_raw i (fun v raw => match chacha_decrypt (derive_block_key (master_key v) i)
    (takeZ NONCE_SIZE raw) (dropZ NONCE_SIZE raw) with
    | None => mret (Err InvalidData)
    | Some p => if lenZ p =? PAYLOAD_SIZE then mret (Ok p) else panic end)).
  intros v d Hd. destruct (chacha_decrypt _ _ _) as [p|] eqn:E; [|apply sane_ret].
  apply (aead_only chacha_ok _ _ []) in E. apply (aead_len chacha_ok _ _ []) in E.
  rewrite lenZ_dropZ, Hd in E. destruct (Z.eqb_spec (lenZ p) PAYLOAD_SIZE); [apply sane_ret|vlia].
Qed.

Lemma sane_read_block_raw i : sane (read_block_raw i).
Proof. apply (sane_read_raw i (fun _ buf => mret (Ok buf))). intros. apply sane_ret. Qed.

Lemma sane_write_block i p : lenZ p = PAYLOAD_SIZE -> sane (write_block i p).
Proof.
  intros Hp. apply sane_checked. intros e He Hi. apply wp_bind. cbn.
  pose proof (offset_u64 _ _ He Hi) as Hu. apply wp_bind, wp_zoom. eapply wp_done; [reflexivity|].
  cbv beta zeta. destruct (chacha_encrypt _ _ _) as [c|] eqn:E; [|apply wp_ret; split; [done|apply same_volume_refl]].
  apply (aead_len chacha_ok _ _ []) in E.
  apply wp_bind, wp_debug_assert; [apply Z.eqb_eq; vlia|].
  apply wp_bind, wp_chk_u; [done|].
  match goal with |- wp _ _ ?e' => sane_now e' He end.
Qed.

Lemma sane_write_block_raw i d : sane (write_block_raw i d).
Proof.
  apply sane_checked. intros e He Hi. apply wp_bind. cbn.
  apply wp_bind, wp_chk_u; [by eapply offset_u64|]. sane_now e He.
Qed.

(** ** Allocation *)

(** The bitmap and the free count change together. *)
Lemma sane_update {A} f delta i bm (k : M vol_env (result A)) e :
  mem_sane (e_vol e) -> f (block_bitmap (e_vol e)) i = Some bm -> lenZ bm = BITMAP_BYTES ->
  count_free bm (total_blocks (e_vol e) - DATA_START_BLOCK) = free_blocks (e_vol e) + delta ->
  sane k ->
  wp (mark f i;; add_free delta;; k)
    (fun _ e' => mem_sane (e_vol e') /\ same_volume (e_vol e) (e_vol e')) e.
Proof.
  intros He Hf Hbm Hn Hk. destruct (sane_total _ He) as [T1 T2].
  apply wp_bind. unfold mark. apply wp_bind. cbn. rewrite Hf. apply wp_bind. cbn.
  apply wp_bind. unfold add_free. apply wp_bind. cbn. apply wp_bind, wp_chk_u.
  { rewrite <- Hn. pose proof (count_free_bounds bm (total_blocks (e_vol e) - DATA_START_BLOCK)).
    unfold is_u. vlia. }
  set (e1 := with_vol (with_bitmap bm (free_blocks (e_vol e) + delta) (e_vol e)) e).
  eapply (wp_mono k _ _ e1); [apply Hk|].
  - split; simpl; [done|done|by rewrite <- Hn|apply He].
  - intros a e' [H1 H2]. split; [done|]. eapply same_volume_trans; [|exact H2]. by destruct (e_vol e).
Qed.

Lemma bit_range v i : mem_sane v -> in_vault v i -> 0 <= i - DATA_START_BLOCK < MAX_DATA_BLOCKS.
Proof. intros [_ T _ _] Hi. unfold in_vault in Hi. vlia. Qed.

(** Taking a free bit and releasing a taken one. *)
Lemma sane_take {A} i (k : M vol_env (result A)) e :
  mem_sane (e_vol e) -> in_vault (e_vol e) i ->
  is_alloc (block_bitmap (e_vol e)) (i - DATA_START_BLOCK) = false -> sane k ->
  wp (mark bit_set (i - DATA_START_BLOCK);; add_free (-1);; k)
    (fun _ e' => mem_sane (e_vol e') /\ same_volume (e_vol e) (e_vol e')) e.
Proof.
  intros He Hi Hfree Hk. pose proof (bit_range _ _ He Hi).
  destruct (bit_set_spec (block_bitmap (e_vol e)) (i - DATA_START_BLOCK)) as (bm & E & [Hbm _] & Ha);
    [apply He|done|].
  apply (sane_update bit_set (-1) _ bm); [done..| |done]. rewrite (sane_free _ He).
  rewrite (count_free_set (block_bitmap (e_vol e)) bm _ (i - DATA_START_BLOCK)); [lia| |done..].
  unfold in_vault in Hi. lia.
Qed.

Lemma sane_give {A} i (k : M vol_env (result A)) e :
  mem_sane (e_vol e) -> in_vault (e_vol e) i ->
  is_alloc (block_bitmap (e_vol e)) (i - DATA_START_BLOCK) = true -> sane k ->
  wp (mark bit_clear (i - DATA_START_BLOCK);; add_free 1;; k)
    (fun _ e' => mem_sane (e_vol e') /\ same_volume (e_vol e) (e_vol e')) e.
Proof.
  intros He Hi Hal Hk. pose proof (bit_range _ _ He Hi).
  destruct (bit_clear_spec (block_bitmap (e_vol e)) (i - DATA_START_BLOCK)) as (bm & E & [Hbm _] & Ha);
    [apply He|done|].
  apply (sane_update bit_clear 1 _ bm); [done..| |done]. rewrite (sane_free _ He).
  apply (count_free_clear _ bm _ (i - DATA_START_BLOCK)); [|done..]. unfold in_vault in Hi. lia.
Qed.

Lemma unwrap_bit {A} v i (k : bool -> M vol_env A) Q e :
  mem_sane v -> in_vault v i ->
  wp (k (negb (is_alloc (block_bitmap v) (i - DATA_START_BLOCK)))) Q e ->
  wp (free ← unwrap (bit_is_free (block_bitmap v) (i - DATA_START_BLOCK)); k free) Q e.
Proof.
  intros Hv Hi Hk. rewrite bit_is_free_eq; [|apply Hv|by eapply bit_range]. by apply wp_bind.
Qed.

Lemma sane_reserve i : sane (reserve_block i).
Proof.
  apply sane_checked. intros e He Hi. apply wp_bind. cbn. apply unwrap_bit; [done..|].
  destruct (is_alloc _ _) eqn:Ea; simpl; [by apply sane_ret|].
  apply sane_take; [done..|]. apply sane_write_bitmap.
Qed.

Lemma sane_free_block i : sane (free_block i).
Proof.
  apply sane_checked. intros e He Hi. apply wp_bind. cbn. apply unwrap_bit; [done..|].
  destruct (is_alloc _ _) eqn:Ea; simpl; [|by apply sane_ret].
  apply sane_give; [done..|]. apply sane_bind; [apply sane_write_bitmap|]. intros. sane_steps.
Qed.

Lemma sane_scan idxs e :
  mem_sane (e_vol e) -> (forall b, b ∈ idxs -> in_vault (e_vol e) (DATA_START_BLOCK + b)) ->
  wp (allocate_scan idxs) (fun _ e' => mem_sane (e_vol e') /\ same_volume (e_vol e) (e_vol e')) e.
Proof.
  intros He Hidx. induction idxs as [|b idxs IH]; [by apply sane_ret|].
  assert (in_vault (e_vol e) (DATA_START_BLOCK + b)) as Hb by (apply Hidx; by left).
  simpl. apply wp_bind. cbn.
  pose proof (unwrap_bit (A := result Z) (e_vol e) (DATA_START_BLOCK + b)) as Hu. rewrite Z.add_simpl_l in Hu.
  apply Hu; [done..|]. destruct (is_alloc _ b) eqn:Ea; simpl.
  - apply IH. intros c Hc. apply Hidx. by right.
  - pose proof (sane_take (A := Z) (DATA_START_BLOCK + b)) as Ht. rewrite Z.add_simpl_l in Ht.
    apply Ht; [done..|]. apply sane_bind; [apply sane_write_bitmap|]. intros. sane_steps.
Qed.

Lemma sane_allocate : sane allocate_block.
Proof.
  intros e He. unfold allocate_block. apply wp_bind. cbn. destruct (_ =? 0); [by apply sane_ret|].
  destruct (sane_total _ He). apply wp_bind, wp_chk_u; [unfold is_u; vlia|].
  apply sane_scan; [done|]. intros b Hb%elem_of_seqZ. unfold in_vault. lia.
Qed.
End sane.

(** * Opening, creating and purging *)

Section opening.
Context `{HP : Primitives} `{HB : BuildProfile} `{HOk : !PrimitivesOk HP}.

(** What the constructors promise of a volume they return. *)
Definition built (path : string) (key : bytes) (r : result VirtualVolume) : Prop :=
  forall v, r = Ok v -> mem_sane v /\ master_key v = key /\ vault_path v = path.

Lemma built_err path key e : built path key (Err e).
Proof. by intros v. Qed.

Lemma wp_total_try {A B} (m : M fs (result A)) (k : A -> M fs (result B)) (Q : result B -> fs -> Prop) s :
  total m -> (forall e s', Q (Err e) s') -> (forall a s', wp (k a) Q s') ->
  wp (m ≫= try_bind k) Q s.
Proof.
  intros Hm HE Hk. destruct (Hm s) as (r & s' & E). apply wp_bind. eapply wp_done; [exact E|].
  apply wp_try; auto.
Qed.

Lemma built_or_close path key fd (m : M fs (result VirtualVolume)) s :
  wp m (fun r _ => built path key r) s -> wp (or_close fd m) (fun r _ => built path key r) s.
Proof.
  intros H. apply wp_or_close. eapply wp_mono; [exact H|]. intros [v|e] s' Hb; [done|]. apply built_err.
Qed.

Ltac built_step := apply wp_total_try; [auto with total|intros; apply built_err|intros ? ?].

Lemma create_new_total path key n s :
  lenZ key = 32 -> 0 <= n <= MAX_DATA_BLOCKS ->
  wp (create_new path key n) (fun r _ => built path key r) s.
Proof.
  intros Hk Hn. unfold create_new. apply wp_bind, wp_chk_u; [unfold is_u; vlia|].
  apply wp_bind, wp_chk_u; [unfold is_u; vlia|]. built_step. apply built_or_close.
  do 6 built_step. apply wp_ret. intros v [= <-]. split; [|done]. split; cbn [block_bitmap total_blocks free_blocks master_key].
  - by rewrite lenZ_repZ.
  - lia.
  - rewrite Z.add_simpl_l, count_free_zeros by lia. done.
  - done.
Qed.

Lemma open_existing_total path key s :
  lenZ key = 32 -> wp (open_existing path key) (fun r _ => built path key r) s.
Proof.
  intros Hk. unfold open_existing. built_step. apply built_or_close.
  apply wp_seek_read; [done|intros; apply built_err|]. intros raw s1 _.
  destruct (read_superblock raw) as [sb|]; [|apply wp_ret, built_err]. cbv zeta.
  case_bool_decide; simpl negb; cbv iota; [|apply wp_ret, built_err].
  apply wp_seek_read; [done|intros; apply built_err|]. intros bm s2 Hbm.
  destruct (Z.ltb_spec (sb_total_blocks sb) DATA_START_BLOCK),
    (Z.ltb_spec (DATA_START_BLOCK + MAX_DATA_BLOCKS) (sb_total_blocks sb)); cbn [orb];
    try (apply wp_ret, built_err).
  apply wp_bind, wp_recount; [done|lia|]. apply wp_ret. intros v [= <-]. split; [|done].
  split; cbn [block_bitmap total_blocks free_blocks master_key]; [done|lia|done|done].
Qed.

(** The constructors return on every file system, and what they return is well formed. *)
Lemma open_or_create_total path key n s :
  lenZ key = 32 -> 0 <= n -> wp (open_or_create path key n) (fun r _ => built path key r) s.
Proof.
  intros Hk Hn. unfold open_or_create. destruct (Z.ltb_spec MAX_DATA_BLOCKS n).
  { apply wp_ret, built_err. }
  destruct (total_metadata path s) as (m & s1 & E1). apply wp_bind. eapply wp_done; [exact E1|]. cbv zeta.
  destruct (total_exists path s1) as (ex & s2 & E2). apply wp_bind. eapply wp_done; [exact E2|].
  destruct (ex && _); [by apply open_existing_total|].
  destruct (total_exists path s2) as (ex' & s3 & E3). apply wp_bind. eapply wp_done; [exact E3|].
  apply wp_bind. destruct ex'; [|by apply create_new_total].
  destruct (total_remove path s3) as (r & s4 & E4). apply wp_bind. eapply wp_done; [exact E4|].
  by apply create_new_total.
Qed.

Lemma drop_volume_total : total drop_volume.
Proof.
  intros e. unfold drop_volume. step.
  destruct (total_sync (file (e_vol e)) (e_fs e)) as (r & s' & E).
  erewrite bind_done by (by apply zoom_done). step. eexists _, _. reflexivity.
Qed.

(** ** Purge *)

Lemma total_wio {A} (m : M fs A) : total m -> total (wio m).
Proof. apply total_zoom. Qed.

Lemma pass_total chunk fuel fd remaining :
  (forall n, total (chunk n)) -> remaining <= WIPE_CHUNK * Z.of_nat fuel ->
  total (pass chunk fuel fd remaining).
Proof.
  intros Hc. revert remaining. induction fuel as [|fuel IH]; intros remaining Hr; cbn [pass];
    destruct (Z.leb_spec remaining 0); try apply total_ret; [lia|].
  apply total_bind; [done|]. intros d. apply total_bind; [apply total_wio; auto with total|].
  intros r. apply total_try. intros _. apply IH. unfold WIPE_CHUNK in *. lia.
Qed.

Ltac total_wipe := repeat first
  [ apply total_wio; solve [auto with total] | apply total_bind; [|intros ?] | apply total_try; intros ? ].

Lemma purge_total path : total (purge_entire_vault path).
Proof.
  unfold purge_entire_vault. total_wipe. cbv zeta. destruct (_ =? 0); [apply total_ret|]. total_wipe.
  - apply pass_total; [|rewrite Z.mul_comm; apply pass_fuel_enough, lenZ_nonneg]. intros n e. by eexists _, _.
  - apply pass_total; [intros; apply total_ret|rewrite Z.mul_comm; apply pass_fuel_enough, lenZ_nonneg].
  - apply total_ret.
Qed.
End opening.
