(* ===== verification/Kernel.v ===== *)
(** [lib.rs], state and vault entry points: the statics of the whole kernel and the exported
    functions on the vault.

    A data pointer with its length is an [option bytes]: [None] is the null pointer, the
    bytes are what it points to.  A function that fills caller memory returns its new
    contents.  [with_vault_or] locks the vault singleton; a panic while it is locked poisons
    it, and a poisoned or missing vault gives the default. *)
From S2P Require Import Prelude Effects Crypto MemoryProtection RootState Evolution StdFs VolumeLayout VirtualVolume ClockAlign DiskWipe.

(** * [std::str::from_utf8] *)

Definition in_range (lo hi b : Z) : bool := (lo <=? b) && (b <=? hi).
Definition is_cont (b : Z) : bool := in_range 0x80 0xBF b.
(** The second byte a three-byte and a four-byte sequence may have after its first. *)
Definition second3 (b0 b1 : Z) : bool :=
  if b0 =? 0xE0 then in_range 0xA0 0xBF b1
  else if b0 =? 0xED then in_range 0x80 0x9F b1
  else in_range 0xE1 0xEF b0 && is_cont b1.
Definition second4 (b0 b1 : Z) : bool :=
  if b0 =? 0xF0 then in_range 0x90 0xBF b1
  else if b0 =? 0xF4 then in_range 0x80 0x8F b1
  else in_range 0xF1 0xF3 b0 && is_cont b1.
Fixpoint utf8_valid (l : bytes) : bool :=
  match l with
  | [] => true
  | b0 :: r0 =>
      if b0 <? 0x80 then utf8_valid r0
      else match r0 with
      | [] => false
      | b1 :: r1 =>
          if in_range 0xC2 0xDF b0 && is_cont b1 then utf8_valid r1
          else match r1 with
          | [] => false
          | b2 :: r2 =>
              if second3 b0 b1 && is_cont b2 then utf8_valid r2
              else match r2 with
              | [] => false
              | b3 :: r3 =>
                  if second4 b0 b1 && is_cont b2 && is_cont b3 then utf8_valid r3 else false
              end
          end
      end
  end.
Definition string_of_bytes (l : bytes) : string :=
  String.string_of_list_ascii (map (fun b => Ascii.ascii_of_nat (Z.to_nat b)) l).
Definition from_utf8 (l : bytes) : option string :=
  if utf8_valid l then Some (string_of_bytes l) else None.

(** * State *)

Section kernel.
Context `{HP : Primitives} `{HB : BuildProfile}.

Record kernel := Kernel {
  k_evo : evo_statics;
  k_fs : fs;
  VFS : option (VirtualVolume * bool);
  bob_pk_store : bytes;
  CANARY_INTACT : bool;
  k_clock : clock_statics;
}.
Definition with_k_evo (x : evo_statics) (k : kernel) : kernel :=
  Kernel x (k_fs k) (VFS k) (bob_pk_store k) (CANARY_INTACT k) (k_clock k).
Definition with_k_fs (x : fs) (k : kernel) : kernel :=
  Kernel (k_evo k) x (VFS k) (bob_pk_store k) (CANARY_INTACT k) (k_clock k).
Definition with_VFS (x : option (VirtualVolume * bool)) (k : kernel) : kernel :=
  Kernel (k_evo k) (k_fs k) x (bob_pk_store k) (CANARY_INTACT k) (k_clock k).
Definition with_bob_pk_store (x : bytes) (k : kernel) : kernel :=
  Kernel (k_evo k) (k_fs k) (VFS k) x (CANARY_INTACT k) (k_clock k).
Definition with_CANARY (x : bool) (k : kernel) : kernel :=
  Kernel (k_evo k) (k_fs k) (VFS k) (bob_pk_store k) x (k_clock k).
Definition with_k_clock (x : clock_statics) (k : kernel) : kernel :=
  Kernel (k_evo k) (k_fs k) (VFS k) (bob_pk_store k) (CANARY_INTACT k) x.

Definition k_rng (k : kernel) : rng := ev_rng (k_evo k).
Definition with_k_rng (x : rng) (k : kernel) : kernel := with_k_evo (with_rng x (k_evo k)) k.

Definition evo_lens : lens evo_statics kernel := Lens k_evo with_k_evo.
Definition kroot_lens : lens root_statics kernel :=
  Lens (fun k => ev_root (k_evo k)) (fun r k => with_k_evo (with_root r (k_evo k)) k).
Definition kfs_lens : lens fs kernel := Lens k_fs with_k_fs.
Definition clock_lens : lens clock_statics kernel := Lens k_clock with_k_clock.
Definition wipe_lens : lens wipe_env kernel :=
  Lens (fun k => WipeEnv (k_fs k) (k_rng k)) (fun e k => with_k_fs (w_fs e) (with_k_rng (w_rng e) k)).

(** The process starts with every static at its initial value. *)
Definition kernel_init (s : fs) (r : rng) : kernel := Kernel (evo_init r) s None [] false clock_init.

(** * Access to the vault *)

Definition env_of (v : VirtualVolume) (k : kernel) : vol_env := VolEnv (k_fs k) (k_rng k) v.
Definition put_env (e : vol_env) (poisoned : bool) (k : kernel) : kernel :=
  with_VFS (Some (e_vol e, poisoned)) (with_k_fs (e_fs e) (with_k_rng (e_rng e) k)).

Definition with_vault_or {R} (default : R) (f : M vol_env R) : M kernel R := fun k =>
  match VFS k with
  | Some (v, false) =>
      match f (env_of v k) with
      | Done r e => Done r (put_env e false k)
      | Panicked e => Panicked (put_env e true k)
      | Exited c e => Exited c (put_env e false k)
      end
  | _ => Done default k
  end.

(** The code and the buffer, which a failed read leaves as it was. *)
Definition vault_read_block (idx : Z) (out : bytes) : M kernel (Z * bytes) :=
  with_vault_or (1, out) (r ← read_block idx;
    mret (match r with Ok p => (0, p) | Err _ => (1, out) end)).
Definition vault_write_block (idx : Z) (data : bytes) : M kernel Z :=
  with_vault_or 1 (r ← write_block idx data; mret (match r with Ok _ => 0 | Err _ => 1 end)).

(** * Vault entry points *)

Definition u64_max : Z := 2 ^ 64 - 1.

(** [OnceLock::set] keeps the first vault; the second one is dropped. *)
Definition set_VFS (v : VirtualVolume) : M kernel unit := fun k =>
  match VFS k with
  | None => Done tt (with_VFS (Some (v, false)) k)
  | Some _ =>
      match drop_volume (env_of v k) with
      | Done _ e => Done tt (with_k_fs (e_fs e) k)
      | Panicked e => Panicked (with_k_fs (e_fs e) k)
      | Exited c e => Exited c (with_k_fs (e_fs e) k)
      end
  end.

Definition init_virtual_volume (path key : option bytes) (total : Z) : M kernel Z :=
  match path, key with
  | Some path, Some key =>
      if (lenZ path =? 0) || (lenZ key <? 32) then mret 1
      else match from_utf8 path with
      | None => mret 2
      | Some path =>
          let mk := takeZ 32 key in
          r ← zoom kfs_lens (open_or_create path mk total);
          match r with
          | Err _ => mret 3
          | Ok vault => set_VFS vault;; mret 0
          end
      end
  | _, _ => mret 1
  end.

(** The loops stop at the first block that fails; the number of blocks done is returned. *)
Fixpoint read_blocks (start : Z) (idxs : list Z) (out : bytes) (c : Z) : M vol_env (Z * bytes) :=
  match idxs with
  | [] => mret (c, out)
  | i :: idxs =>
      idx ← chk_u 64 (start + i);
      r ← read_block idx;
      match r with
      | Ok buf => read_blocks start idxs (splice (i * PAYLOAD_SIZE) buf out) (c + 1)
      | Err _ => mret (c, out)
      end
  end.
Definition read_vault_blocks (start n : Z) (out : option bytes) : M kernel (Z * option bytes) :=
  match out with
  | Some out' =>
      if n =? 0 then mret (0, out)
      else r ← with_vault_or (0, out') (read_blocks start (seqZ 0 n) out' 0); mret (r.1, Some r.2)
  | None => mret (0, out)
  end.

Fixpoint write_blocks (start : Z) (idxs : list Z) (data : bytes) (c : Z) : M vol_env Z :=
  match idxs with
  | [] => mret c
  | i :: idxs =>
      let buf := slice (i * PAYLOAD_SIZE) ((i + 1) * PAYLOAD_SIZE) data in
      idx ← chk_u 64 (start + i);
      r ← write_block idx buf;
      match r with Ok _ => write_blocks start idxs data (c + 1) | Err _ => mret c end
  end.
Definition write_vault_blocks (start n : Z) (data : option bytes) : M kernel Z :=
  match data with
  | Some data => if n =? 0 then mret 0 else with_vault_or 0 (write_blocks start (seqZ 0 n) data 0)
  | None => mret 0
  end.

Definition allocate_vault_block : M kernel Z :=
  with_vault_or u64_max (r ← allocate_block; mret (match r with Ok i => i | Err _ => u64_max end)).
Definition free_vault_block (idx : Z) : M kernel Z :=
  with_vault_or 1 (r ← free_block idx; mret (match r with Ok _ => 0 | Err _ => 3 end)).

Definition secure_erase_block (idx : Z) : M kernel Z :=
  with_vault_or 1 (
    payload ← zoom rng_lens (draw_bytes PAYLOAD_SIZE);
    w ← write_block idx payload;
    match w with
    | Err _ => mret 3
    | Ok _ => r ← free_block idx; mret (match r with Ok _ => 0 | Err _ => 3 end)
    end).

Definition register_touch_offset (block offset : Z) : M kernel Z :=
  with_vault_or 1 (register_touch block offset;; mret 0).
Definition vault_total_blocks : M kernel Z := with_vault_or 0 (gets (fun e => total_blocks (e_vol e))).
Definition vault_free_blocks : M kernel Z := with_vault_or 0 (gets (fun e => free_blocks (e_vol e))).

(** ** Canary blocks *)

Definition canary_magic : bytes := str_bytes "CANARY".
Fixpoint check_canaries (bs : list Z) : M vol_env Z :=
  match bs with
  | [] => mret 0
  | b :: bs =>
      r ← read_block b;
      match r with
      | Err _ => mret 2
      | Ok buf => if bool_decide (takeZ 6 buf = canary_magic) then check_canaries bs else mret 2
      end
  end.
Definition validate_canary_slots : M kernel Z :=
  code ← with_vault_or 1 (check_canaries (seqZ 995 5));
  (if code =? 0 then modify (with_CANARY true) else mret tt);;
  mret code.
Definition canary_slots_intact : M kernel Z :=
  c ← gets CANARY_INTACT; mret (if (c : bool) then 1 else 0).

Fixpoint reserve_all (bs : list Z) : M vol_env unit :=
  match bs with
  | [] => mret tt
  | b :: bs => _ ← reserve_block b; reserve_all bs
  end.
Definition canary_payload (slot : Z) (noise : bytes) : bytes := canary_magic ++ [slot; 1] ++ noise.
Fixpoint write_canaries (slots : list Z) : M vol_env Z :=
  match slots with
  | [] => mret 0
  | slot :: slots =>
      noise ← zoom rng_lens (draw_bytes (PAYLOAD_SIZE - 8));
      r ← write_block (995 + slot) (canary_payload slot noise);
      match r with Ok _ => write_canaries slots | Err _ => mret 2 end
  end.
Definition init_canary_slots : M kernel Z :=
  with_vault_or 1 (reserve_all (seqZ 994 6);; write_canaries (seqZ 0 5)).

(** ** Purge *)

Definition purge_vault (sigterm_handled : bool) (path : option bytes) : M kernel Z :=
  match path with
  | None => mret 1
  | Some path =>
      if lenZ path =? 0 then mret 1
      else match from_utf8 path with
      | None => mret 2
      | Some path =>
          r ← zoom wipe_lens (purge_entire_vault path);
          match r with
          | Ok _ => execute_panic_exit sigterm_handled
          | Err _ => mret 3
          end
      end
  end.
End kernel.
