(* ===== verification/KernelProofs.v ===== *)
(** The vault entry points of the kernel: multi-block I/O, canary blocks, secure erase, purge. *)
From stdpp Require Import gmap.
From S2P Require Import Prelude Effects Crypto MemoryProtection RootState Evolution StdFs VolumeLayout VirtualVolume VolumeProofs VolumeBlocks VolumeAlloc VolumeOpen ClockAlign DiskWipe Kernel.

Section kernel.
Context `{HP : Primitives} `{HB : BuildProfile} `{!PrimitivesOk HP}.

(** * The live vault *)

(** The kernel has an open vault on a file system without faults. *)
Record vault_live (k : kernel) (v : VirtualVolume) (ino : Z) (d : bytes) : Prop := {
  vl_vfs : VFS k = Some (v, false);
  vl_at : vol_at (env_of v k) ino d;
  vl_healthy : healthy (env_of v k) ino;
}.

Lemma env_put e b k : env_of (e_vol e) (put_env e b k) = e.
Proof. by destruct e. Qed.

Lemma wp_with_vault {R} (dflt : R) f (Q : R -> kernel -> Prop) k v :
  VFS k = Some (v, false) -> wp f (fun r e => Q r (put_env e false k)) (env_of v k) ->
  wp (with_vault_or dflt f) Q k.
Proof. intros E. unfold wp, with_vault_or. rewrite E. by destruct (f (env_of v k)). Qed.

Lemma vault_live_put k e ino d : vol_at e ino d -> healthy e ino -> vault_live (put_env e false k) (e_vol e) ino d.
Proof. intros. split; [done|by rewrite env_put..]. Qed.

(** ** Healthy block I/O *)

(** The volume is usable and still the same struct. *)
Definition usable (v : VirtualVolume) (e : vol_env) (ino : Z) (d : bytes) : Prop :=
  e_vol e = v /\ vol_at e ino d /\ healthy e ino.

Lemma touched_usable v i ino d e e' d' :
  usable v e ino d -> touched_block i ino d e e' d' -> usable v e' ino d'.
Proof.
  intros (V & _ & Hh) (V' & Hv & _ & (D & _ & _ & _ & _ & L & _)). split_and!; [congruence|done|].
  unfold healthy in *. by rewrite V', D, L.
Qed.

Lemma wp_write_ok v e ino d i p (Q : result unit -> vol_env -> Prop) :
  usable v e ino d -> in_data v i -> lenZ p = PAYLOAD_SIZE ->
  (forall e' d', usable v e' ino d' -> block_holds v d' i = Some p ->
     (forall j, in_data v j -> j <> i -> disk_block d' j = disk_block d j) -> Q (Ok tt) e') ->
  wp (write_block i p) Q e.
Proof.
  intros Hu Hi Hp HQ. pose proof Hu as (V & Hv & Hh). subst v.
  apply (wp_write_block e ino d); [done..|]. intros r e' d' Ht [[-> Ho]|[_ Hbad]]; [|done].
  apply (HQ e' d'); [by eapply touched_usable|done|]. intros j Hj Hne. destruct Ht as (_ & _ & R & _).
  eapply disk_block_other; [done|unfold in_data in *; vlia..|done].
Qed.

Lemma wp_read_ok v e ino d i (Q : result bytes -> vol_env -> Prop) :
  usable v e ino d -> in_data v i ->
  (forall e', usable v e' ino d -> Q (of_option (block_holds v d i)) e') ->
  wp (read_block i) Q e.
Proof.
  intros (V & Hv & Hh) Hi HQ. subst v. apply (wp_read_block e ino d); [done..|].
  intros r e' Hs [->|[_ Hbad]]; [|done]. apply HQ. pose proof (healthy_step _ _ _ _ _ _ _ Hs) as Hhe.
  destruct Hs as ([V' _] & Hv' & _). split_and!; [done|done|]. by apply Hhe.
Qed.

Lemma block_index_u64 v e ino d i : usable v e ino d -> in_data v i -> is_u 64 i.
Proof.
  intros (<- & [Hm _ _] & _) [H1 H2]. destruct (mem_total _ Hm). unfold is_u. vlia.
Qed.

(** * Multi-block I/O *)

Definition payload_at (data : bytes) (i : Z) : bytes := slice (i * PAYLOAD_SIZE) ((i + 1) * PAYLOAD_SIZE) data.

Lemma payload_at_len data n i :
  lenZ data = n * PAYLOAD_SIZE -> 0 <= i < n -> lenZ (payload_at data i) = PAYLOAD_SIZE.
Proof. intros Hl Hi. unfold payload_at. rewrite lenZ_slice; vlia. Qed.

Lemma wp_write_blocks v start data n ino a m c e d (Q : Z -> vol_env -> Prop) :
  lenZ data = n * PAYLOAD_SIZE -> 0 <= a -> 0 <= m -> a + m = n ->
  DATA_START_BLOCK <= start -> start + n <= total_blocks v -> usable v e ino d ->
  (forall j, 0 <= j < a -> block_holds v d (start + j) = Some (payload_at data j)) ->
  (forall e' d', usable v e' ino d' ->
     (forall j, 0 <= j < n -> block_holds v d' (start + j) = Some (payload_at data j)) ->
     (forall i, in_data v i -> ~ start + a <= i < start + n -> disk_block d' i = disk_block d i) ->
     Q (c + m) e') ->
  wp (write_blocks start (seqZ a m) data c) Q e.
Proof.
  intros Hl Ha Hm. revert a Ha c e d Q. pattern m. apply natlike_ind; [| |done]; clear m Hm.
  - intros a Ha c e d Q Han H1 H2 Hu Hd HQ. rewrite seqZ_nil by lia. apply wp_ret.
    rewrite <- (Z.add_0_r c). apply (HQ e d); [done| |done]. intros j Hj. apply Hd. lia.
  - intros m Hm IH a Ha c e d Q Han H1 H2 Hu Hd HQ. rewrite seqZ_cons by lia. rewrite Z.pred_succ.
    assert (in_data v (start + a)) as Hi by (unfold in_data; lia). cbn [write_blocks].
    apply wp_bind, wp_chk_u; [by eapply block_index_u64|]. apply wp_bind.
    apply (wp_write_ok v e ino d); [done|done|by apply (payload_at_len data n); lia|].
    intros e1 d1 Hu1 Hb1 Ho1. apply (IH (Z.succ a) ltac:(lia) (c + 1) e1 d1); [lia|done|done|done| |].
    + intros j Hj. destruct (decide (j = a)) as [->|]; [done|]. unfold block_holds.
      rewrite Ho1 by (unfold in_data; lia). apply Hd. lia.
    + intros e2 d2 Hu2 Hb2 Ho2. replace (c + 1 + m) with (c + Z.succ m) by lia. apply (HQ e2 d2); [done|done|].
      intros i Hin Hout. rewrite Ho2 by (done || lia). apply Ho1; [done|lia].
Qed.

Lemma wp_read_blocks v start data n ino d a m c e out (Q : Z * bytes -> vol_env -> Prop) :
  lenZ data = n * PAYLOAD_SIZE -> lenZ out = n * PAYLOAD_SIZE -> 0 <= a -> 0 <= m -> a + m = n ->
  DATA_START_BLOCK <= start -> start + n <= total_blocks v -> usable v e ino d ->
  (forall j, 0 <= j < n -> block_holds v d (start + j) = Some (payload_at data j)) ->
  takeZ (a * PAYLOAD_SIZE) out = takeZ (a * PAYLOAD_SIZE) data ->
  (forall e', usable v e' ino d -> Q (c + m, data) e') ->
  wp (read_blocks start (seqZ a m) out c) Q e.
Proof.
  intros Hl Hlo Ha Hm. revert a Ha c e out Hlo Q. pattern m. apply natlike_ind; [| |done]; clear m Hm.
  - intros a Ha c e out Hlo Q Han H1 H2 Hu Hd Ht HQ. rewrite seqZ_nil by lia. apply wp_ret.
    assert (out = data) as ->.
    { rewrite !takeZ_all in Ht by vlia. done. }
    rewrite <- (Z.add_0_r c). by apply HQ.
  - intros m Hm IH a Ha c e out Hlo Q Han H1 H2 Hu Hd Ht HQ. rewrite seqZ_cons by lia. rewrite Z.pred_succ.
    assert (in_data v (start + a)) as Hi by (unfold in_data; lia). cbn [read_blocks].
    apply wp_bind, wp_chk_u; [by eapply block_index_u64|]. apply wp_bind.
    apply (wp_read_ok v e ino d); [done..|]. intros e1 Hu1. rewrite Hd by lia. cbn [of_option].
    pose proof (payload_at_len data n a Hl ltac:(lia)) as Hp.
    apply (IH (Z.succ a) ltac:(lia) (c + 1) e1); [|lia|done|done|done|done| |].
    + rewrite lenZ_splice; vlia.
    + assert (Z.succ a * PAYLOAD_SIZE = a * PAYLOAD_SIZE + PAYLOAD_SIZE) as -> by lia.
      unfold splice. rewrite app_assoc, takeZ_app_exact by (rewrite lenZ_app, lenZ_takeZ; vlia).
      rewrite Ht. rewrite <- (takeZ_dropZ (a * PAYLOAD_SIZE) (takeZ (a * PAYLOAD_SIZE + PAYLOAD_SIZE) data)).
      rewrite takeZ_takeZ, Z.min_l by vlia. f_equal. unfold payload_at, slice.
      rewrite takeZ_dropZ_comm by vlia. do 2 f_equal. vlia.
    + intros e2 Hu2. replace (c + 1 + m) with (c + Z.succ m) by lia. by apply HQ.
Qed.

(** [C35] Multi-block round trip through the exported functions: on a live vault,
    [write_vault_blocks] of [n] payloads into data blocks writes all of them, a following
    [read_vault_blocks] of the same range returns the count [n] and exactly the bytes
    written, and blocks outside the range are unchanged on disk. *)
Theorem vault_blocks_roundtrip k v ino d start n data out :
  vault_live k v ino d -> 0 < n -> DATA_START_BLOCK <= start -> start + n <= total_blocks v ->
  lenZ data = n * PAYLOAD_SIZE -> lenZ out = n * PAYLOAD_SIZE ->
  exists k1 d1 k2, write_vault_blocks start n (Some data) k = Done n k1 /\ vault_live k1 v ino d1 /\
    (forall i, in_data v i -> ~ start <= i < start + n -> disk_block d1 i = disk_block d i) /\
    read_vault_blocks start n (Some out) k1 = Done (n, Some data) k2 /\ vault_live k2 v ino d1.
Proof.
  intros [E Hv Hh] Hn Hs Ht Hl Hlo.
  assert (wp (write_vault_blocks start n (Some data)) (fun r k1 => r = n /\ exists d1, vault_live k1 v ino d1 /\
    (forall i, in_data v i -> ~ start <= i < start + n -> disk_block d1 i = disk_block d i) /\
    (forall j, 0 <= j < n -> block_holds v d1 (start + j) = Some (payload_at data j))) k) as W1.
  { unfold write_vault_blocks. destruct (Z.eqb_spec n 0); [lia|]. eapply wp_with_vault; [done|].
    apply (wp_write_blocks v start data n ino 0 n 0 _ d); [done|lia..|done|lia|by split_and!|lia|].
    intros e1 d1 (V1 & Hv1 & Hh1) Hb Ho. split; [lia|]. exists d1. split; [|split; [|done]].
    - rewrite <- V1. by apply vault_live_put.
    - intros i Hi Hout. apply Ho; [done|lia]. }
  apply wp_inv in W1 as (r1 & k1 & E1 & -> & d1 & Hl1 & Ho1 & Hb1).
  assert (wp (read_vault_blocks start n (Some out)) (fun r k2 => r = (n, Some data) /\ vault_live k2 v ino d1) k1) as W2.
  { unfold read_vault_blocks. destruct (Z.eqb_spec n 0); [lia|]. apply wp_bind.
    destruct Hl1 as [F1 F2 F3]. eapply wp_with_vault; [done|].
    apply (wp_read_blocks v start data n ino d1 0 n 0); [done|done|lia..|done|lia|by split_and!|done|done|].
    intros e2 (V2 & Hv2 & Hh2). apply wp_ret. split; [done|]. rewrite <- V2. by apply vault_live_put. }
  apply wp_inv in W2 as (r2 & k2 & E2 & -> & Hl2). by exists k1, d1, k2.
Qed.

(** * Canary blocks *)

(** An allocator call kept the volume usable and every data block as it was. *)
Definition alloc_kept (ino : Z) (d : bytes) (e e' : vol_env) (d' : bytes) : Prop :=
  (exists bm n, e_vol e' = with_bitmap bm n (e_vol e)) /\ vol_at e' ino d' /\ healthy e' ino /\
  (forall i, in_data (e_vol e) i -> disk_block d' i = disk_block d i).

Lemma alloc_kept_frame ino d e e' d' :
  healthy e ino -> alloc_frame ino d e e' d' -> alloc_kept ino d e e' d'.
Proof.
  intros Hh Hf. pose proof (alloc_frame_healthy _ _ _ _ _ Hf) as Hhe. destruct Hf as (V & Hv & R & _ & _).
  split_and!; [done|done|by apply Hhe|]. intros i [Hi _]. unfold disk_block.
  eapply region_slice_after; [done|vlia].
Qed.

Lemma wp_reserve_ok e ino d i (Q : result unit -> vol_env -> Prop) :
  vol_at e ino d -> healthy e ino -> in_data (e_vol e) i ->
  (forall e' d', alloc_kept ino d e e' d' -> allocated (e_vol e') = {[i]} ∪ allocated (e_vol e) ->
     Q (Ok tt) e') ->
  wp (reserve_block i) Q e.
Proof.
  intros Hv Hh Hi HQ. pose proof (wp_reserve e ino d i Hv) as W. unfold wp, run_alloc, mbind, M_bind in W.
  unfold wp. destruct (reserve_block i e) as [r e'|e'|c e']; try done.
  destruct r as [[]|err]; cbn in W; destruct W as (d' & Hf & Ha & Hr & _);
    unfold spec_of in *; cbn [spec_step] in *; rewrite bool_decide_eq_true_2 in * by done; cbn in *.
  - apply (HQ e' d'); [by apply alloc_kept_frame|done].
  - by destruct Hr as [|[[_ ?] _]].
Qed.

Lemma wp_reserve_all e ino d bs (Q : unit -> vol_env -> Prop) :
  vol_at e ino d -> healthy e ino -> Forall (in_data (e_vol e)) bs ->
  (forall e' d', alloc_kept ino d e e' d' ->
     allocated (e_vol e') = list_to_set bs ∪ allocated (e_vol e) -> Q tt e') ->
  wp (reserve_all bs) Q e.
Proof.
  intros Hv Hh Hbs. revert e d Hv Hh Hbs Q. induction bs as [|b bs IH]; intros e d Hv Hh Hbs Q HQ.
  - apply wp_ret. apply (HQ e d); [|by cbn [list_to_set]; rewrite union_empty_l_L]. split_and!; [|done..].
    exists (block_bitmap (e_vol e)), (free_blocks (e_vol e)). by destruct (e_vol e).
  - apply Forall_cons in Hbs as [Hb Hbs]. apply wp_bind. apply (wp_reserve_ok e ino d); [done..|].
    intros e1 d1 ((bm1 & n1 & V1) & Hv1 & Hh1 & D1) A1.
    apply (IH e1 d1); [done..|by rewrite V1|]. intros e2 d2 ((bm2 & n2 & V2) & Hv2 & Hh2 & D2) A2.
    rewrite V1 in D2. apply (HQ e2 d2).
    + split_and!; [exists bm2, n2; by rewrite V2, V1|done|done|].
      intros i Hi. by rewrite D2, D1.
    + rewrite A2, A1. cbn [list_to_set]. by rewrite (assoc_L (∪)), (comm_L (∪) (list_to_set bs)).
Qed.

(** The block opens to a payload that starts with the canary magic. *)
Definition is_canary (v : VirtualVolume) (d : bytes) (i : Z) : Prop :=
  exists p, block_holds v d i = Some p /\ takeZ 6 p = canary_magic.

Lemma wp_write_canaries v e ino d a m (Q : Z -> vol_env -> Prop) :
  0 <= a -> 0 <= m -> a + m = 5 -> 1000 <= total_blocks v -> usable v e ino d ->
  (forall b, 995 <= b < 995 + a -> is_canary v d b) ->
  (forall e' d', usable v e' ino d' -> (forall b, 995 <= b < 1000 -> is_canary v d' b) ->
     (forall i, in_data v i -> ~ 995 + a <= i < 1000 -> disk_block d' i = disk_block d i) -> Q 0 e') ->
  wp (write_canaries (seqZ a m)) Q e.
Proof.
  intros Ha Hm. revert a Ha e d Q. pattern m. apply natlike_ind; [| |done]; clear m Hm.
  - intros a Ha e d Q Ham Ht Hu Hc HQ. rewrite seqZ_nil by lia. apply wp_ret.
    apply (HQ e d); [done| |done]. intros b Hb. apply Hc. lia.
  - intros m Hm IH a Ha e d Q Ham Ht Hu Hc HQ. rewrite seqZ_cons by lia. rewrite Z.pred_succ.
    cbn [write_canaries]. apply wp_bind, wp_zoom. unfold draw_bytes, wp at 1. cbn [lget rng_lens].
    set (noise := (fill_bytes _ _).1). set (e0 := lput rng_lens _ e).
    assert (lenZ noise = PAYLOAD_SIZE - 8) as Hno by (apply fill_len; vlia).
    assert (in_data v (995 + a)) as Hi by (unfold in_data; vlia).
    assert (usable v e0 ino d) as Hu0.
    { destruct Hu as (? & ? & ?). split_and!; [done|by apply vol_at_rng|done]. }
    apply wp_bind. apply (wp_write_ok v e0 ino d); [done|done| |].
    { unfold canary_payload. rewrite !lenZ_app, Hno. change (lenZ canary_magic) with 6.
      change (lenZ [a; 1]) with 2. lia. }
    intros e1 d1 Hu1 Hb1 Ho1. apply (IH (Z.succ a) ltac:(lia) e1 d1); [lia|done|done| |].
    + intros b Hb. destruct (decide (b = 995 + a)) as [->|].
      * exists (canary_payload a noise). split; [done|]. apply takeZ_app_exact. done.
      * destruct (Hc b) as (p & Hp & Hm'); [lia|]. exists p. split; [|done]. unfold block_holds.
        rewrite Ho1; [done|unfold in_data in *; vlia|done].
    + intros e2 d2 Hu2 Hc2 Ho2. apply (HQ e2 d2); [done|done|].
      intros i Hin Hout. rewrite Ho2 by (done || lia). apply Ho1; [done|lia].
Qed.

Lemma wp_check_canaries v e ino d a m (Q : Z -> vol_env -> Prop) :
  995 <= a -> 0 <= m -> a + m = 1000 -> 1000 <= total_blocks v -> usable v e ino d ->
  (forall b, 995 <= b < 1000 -> is_canary v d b) ->
  (forall e', usable v e' ino d -> Q 0 e') ->
  wp (check_canaries (seqZ a m)) Q e.
Proof.
  intros Ha Hm. revert a Ha e Q. pattern m. apply natlike_ind; [| |done]; clear m Hm.
  - intros a Ha e Q Ham Ht Hu Hc HQ. rewrite seqZ_nil by lia. by apply wp_ret, HQ.
  - intros m Hm IH a Ha e Q Ham Ht Hu Hc HQ. rewrite seqZ_cons by lia. rewrite Z.pred_succ.
    cbn [check_canaries]. apply wp_bind. apply (wp_read_ok v e ino d); [done|unfold in_data; vlia|].
    intros e1 Hu1. destruct (Hc a) as (p & Hp & Hmg); [lia|]. rewrite Hp. cbn [of_option].
    rewrite bool_decide_eq_true_2 by done. apply (IH (Z.succ a) ltac:(lia)); [lia|done..].
Qed.

Lemma wp_init_canary k v ino d :
  vault_live k v ino d -> 1000 <= total_blocks v ->
  wp init_canary_slots (fun r k1 => r = 0 /\ k_evo k1 = with_rng (k_rng k1) (k_evo k) /\
    exists v1 d1, vault_live k1 v1 ino d1 /\ (exists bm n, v1 = with_bitmap bm n v) /\
    allocated v1 = list_to_set (seqZ 994 6) ∪ allocated v /\
    (forall i, in_data v i -> ~ 995 <= i < 1000 -> disk_block d1 i = disk_block d i) /\
    (forall b, 995 <= b < 1000 -> is_canary v1 d1 b)) k.
Proof.
  intros [E Hv Hh] Ht. eapply wp_with_vault; [done|]. apply wp_bind. apply (wp_reserve_all _ ino d); [done..| |].
  { apply Forall_forall. intros b Hb%elem_of_seqZ. unfold in_data. cbn [e_vol env_of]. vlia. }
  intros e1 d1 ((bm & n & V1) & Hv1 & Hh1 & D1) A1.
  assert (1000 <= total_blocks (e_vol e1)) as Ht1 by (by rewrite V1).
  apply (wp_write_canaries (e_vol e1) e1 ino d1); [lia..|done|by split_and!|lia|].
  intros e2 d2 (V2 & Hv2 & Hh2) Hc Ho. split; [done|]. split; [done|]. exists (e_vol e1), d2.
  split_and!; [rewrite <- V2; by apply vault_live_put|by exists bm, n|done| |done].
  intros i Hi Hout. rewrite Ho by (done || by rewrite V1). by apply D1.
Qed.

(** Canary blocks: on a live vault of at least 1000 blocks [init_canary_slots] returns
    0, reserves exactly blocks 994 to 999 on top of what was allocated and writes five
    canaries, changing no data block but 995 to 999; [validate_canary_slots] then returns 0
    and [canary_slots_intact] reports 1. *)
Theorem canary_roundtrip k v ino d :
  vault_live k v ino d -> 1000 <= total_blocks v ->
  exists k1 v1 d1 k2, init_canary_slots k = Done 0 k1 /\ vault_live k1 v1 ino d1 /\
    allocated v1 = list_to_set (seqZ 994 6) ∪ allocated v /\
    (forall i, in_data v i -> ~ 995 <= i < 1000 -> disk_block d1 i = disk_block d i) /\
    validate_canary_slots k1 = Done 0 k2 /\ canary_slots_intact k2 = Done 1 k2 /\
    vault_live k2 v1 ino d1.
Proof.
  intros Hl Ht. destruct (wp_inv _ _ _ (wp_init_canary k v ino d Hl Ht))
    as (r1 & k1 & E1 & -> & _ & v1 & d1 & Hl1 & (bm & n & V1) & A1 & Ho1 & Hc1).
  assert (1000 <= total_blocks v1) as Ht1 by (by rewrite V1).
  assert (wp validate_canary_slots (fun r k2 => r = 0 /\ CANARY_INTACT k2 = true /\ vault_live k2 v1 ino d1) k1) as W2.
  { apply wp_bind. destruct Hl1 as [F1 F2 F3]. eapply wp_with_vault; [done|].
    apply (wp_check_canaries v1 _ ino d1); [lia..|done|by split_and!|done|].
    intros e2 (V2 & Hv2 & Hh2). cbn. split_and!; [done|done|]. rewrite <- V2.
    split; [done|by destruct e2..]. }
  apply wp_inv in W2 as (r2 & k2 & E2 & -> & Hci & Hl2). exists k1, v1, d1, k2.
  split_and!; try done. unfold canary_slots_intact, mbind, M_bind, gets. by rewrite Hci.
Qed.

(** * Secure erase *)

Lemma wp_free_ok e ino d i (Q : result unit -> vol_env -> Prop) :
  vol_at e ino d -> healthy e ino ->
  (i ∈ allocated (e_vol e) -> forall e' d', alloc_kept ino d e e' d' ->
     allocated (e_vol e') = allocated (e_vol e) ∖ {[i]} -> Q (Ok tt) e') ->
  (i ∉ allocated (e_vol e) -> Q (Err InvalidInput) e) ->
  wp (free_block i) Q e.
Proof.
  intros Hv Hh HOk HErr. pose proof (wp_free e ino d i Hv) as W. unfold wp, run_alloc, mbind, M_bind in W.
  unfold wp. destruct (free_block i e) as [r e'|e'|c e']; try done.
  destruct (decide (i ∈ allocated (e_vol e))) as [Hi|Hi].
  - assert (spec_of e (OpFree i) = (Ok i, allocated (e_vol e) ∖ {[i]})) as Hs
      by (unfold spec_of; cbn [spec_step]; by rewrite bool_decide_eq_true_2).
    destruct r as [[]|err]; cbn in W; destruct W as (d' & Hf & Ha & Hr & _); rewrite Hs in *; cbn in *.
    + apply (HOk Hi e' d'); [by apply alloc_kept_frame|done].
    + by destruct Hr as [|[[_ ?] _]].
  - assert (spec_of e (OpFree i) = (Err InvalidInput, allocated (e_vol e))) as Hs
      by (unfold spec_of; cbn [spec_step]; by rewrite bool_decide_eq_false_2).
    destruct r as [[]|err]; cbn in W; destruct W as (d' & Hf & Ha & Hr & Hsame & _); rewrite Hs in *; cbn in *.
    + by destruct Hr as [|[_ ?]].
    + destruct Hr as [[= ->]|[_ [=]]]. rewrite Hsame by done. auto.
Qed.

(** [secure_erase_block] on a data block of a live vault replaces its payload by fresh
    random bytes and leaves every other data block alone.  It frees the block and returns 0
    when the block was allocated; when it was not, it returns 3 but the payload has been
    replaced all the same. *)
Theorem secure_erase_spec k v ino d i :
  vault_live k v ino d -> in_data v i ->
  exists code k1 v1 d1, secure_erase_block i k = Done code k1 /\ vault_live k1 v1 ino d1 /\
    block_holds v1 d1 i = Some (fill_bytes PAYLOAD_SIZE (k_rng k)).1 /\
    (forall j, in_data v j -> j <> i -> disk_block d1 j = disk_block d j) /\
    (i ∈ allocated v -> code = 0 /\ allocated v1 = allocated v ∖ {[i]}) /\
    ((i ∈ allocated v -> False) -> code = 3 /\ v1 = v).
Proof.
  intros [E Hv Hh] Hi. set (p := (fill_bytes PAYLOAD_SIZE (k_rng k)).1).
  enough (wp (secure_erase_block i) (fun code k1 => exists v1 d1, vault_live k1 v1 ino d1 /\
    block_holds v1 d1 i = Some p /\
    (forall j, in_data v j -> j <> i -> disk_block d1 j = disk_block d j) /\
    (i ∈ allocated v -> code = 0 /\ allocated v1 = allocated v ∖ {[i]}) /\
    ((i ∈ allocated v -> False) -> code = 3 /\ v1 = v)) k) as (code & k1 & E1 & v1 & d1 & H)%wp_inv
    by (exists code, k1, v1, d1; tauto).
  eapply wp_with_vault; [done|]. apply wp_bind, wp_zoom. unfold draw_bytes, wp at 1.
  cbn [lget rng_lens env_of e_rng]. fold p. set (e0 := lput rng_lens _ _).
  assert (lenZ p = PAYLOAD_SIZE) as Hp by (by apply fill_len).
  assert (usable v e0 ino d) as Hu0 by (split_and!; [done|by apply vol_at_rng|done]).
  apply wp_bind. apply (wp_write_ok v e0 ino d); [done..|]. intros e1 d1 (V1 & Hv1 & Hh1) Hb1 Ho1.
  apply wp_bind. apply (wp_free_ok e1 ino d1); [done|done| |]; rewrite V1.
  - intros Ha e2 d2 ((bm & n & V2) & Hv2 & Hh2 & D2) A2. apply wp_ret. exists (e_vol e2), d2.
    rewrite V1 in D2, V2. split_and!; [by apply vault_live_put| | |done|done].
    + unfold block_holds in *. rewrite V2, D2 by done. done.
    + intros j Hj Hne. rewrite D2 by done. by apply Ho1.
  - intros Ha. apply wp_ret. exists v, d1. split_and!; [rewrite <- V1; by apply vault_live_put|done|done|done|].
    auto.
Qed.

(** * Purge *)

(** The file of inode [ino] is empty in [k'] and every other file is as in [k]. *)
Definition only_emptied (k k' : kernel) (ino : Z) : Prop :=
  data_of (k_fs k') ino = Some [] /\ forall i, i <> ino -> data_of (k_fs k') i = data_of (k_fs k) i.

(** [purge_vault] never returns success: on an existing file without I/O errors it
    empties the file and ends the process, with exit code 1 when the application handles
    [SIGTERM] and by that signal otherwise; it returns only an error code, 3, and only when
    an I/O error occurred. *)
Theorem purge_vault_exits h k path name ino d :
  from_utf8 path = Some name -> lenZ path <> 0 -> has_nul name = false ->
  dir (k_fs k) !! name = Some ino -> data_of (k_fs k) ino = Some d ->
  (exists k', purge_vault h (Some path) k = Exited (if h then 1 else -15) k' /\ only_emptied k k' ino) \/
  (exists k', purge_vault h (Some path) k = Done 3 k' /\ ~ quiet (k_fs k)).
Proof.
  intros Hu Hne Hn Hdir Hd. unfold purge_vault. destruct (Z.eqb_spec (lenZ path) 0); [done|]. rewrite Hu.
  destruct (wp_inv _ _ _ (wp_purge name ino (WipeEnv (k_fs k) (k_rng k)) d Hdir Hd Hn))
    as (r & e' & E & H1 & H2 & H3 & H4 & _).
  rewrite (bind_done _ _ _ _ _ (zoom_done wipe_lens _ k _ _ E)).
  destruct r as [[]|err].
  - left. eexists. split; [by destruct h|]. cbn. by split; [apply H1|].
  - right. eexists. split; [done|]. intros Hq. by specialize (H2 Hq).
Qed.
End kernel.

(** * A concrete kernel with an empty vault of 1000 blocks *)

Definition kdemo : kernel (HP := toy) :=
  Kernel (HP := toy) (evo_init (HP := toy) 0) (volume_fs 991) (Some (volume_of 991, false)) [] false clock_init.

Lemma kdemo_live : vault_live (HP := toy) kdemo (volume_of 991) 1 (volume_data 991).
Proof.
  split; [reflexivity| |].
  - apply volume_at. vlia.
  - apply volume_healthy.
Qed.

Lemma vault_blocks_roundtrip_witness :
  exists k1 d1 k2, write_vault_blocks (HP := toy) (HB := true) 20 2 (Some (repZ (2 * PAYLOAD_SIZE) 7)) kdemo = Done 2 k1 /\
    vault_live (HP := toy) k1 (volume_of 991) 1 d1 /\
    read_vault_blocks (HP := toy) (HB := true) 20 2 (Some (repZ (2 * PAYLOAD_SIZE) 0)) k1 =
      Done (2, Some (repZ (2 * PAYLOAD_SIZE) 7)) k2.
Proof.
  destruct (vault_blocks_roundtrip (HP := toy) (HB := true) kdemo (volume_of 991) 1 (volume_data 991) 20 2
    (repZ (2 * PAYLOAD_SIZE) 7) (repZ (2 * PAYLOAD_SIZE) 0) kdemo_live
    ltac:(reflexivity) ltac:(vlia) ltac:(cbn [volume_of total_blocks]; vlia)
    ltac:(rewrite lenZ_repZ; vlia) ltac:(rewrite lenZ_repZ; vlia)) as (k1 & d1 & k2 & ? & ? & _ & ? & _).
  exists k1, d1, k2. auto.
Defined.

Lemma canary_roundtrip_witness :
  exists k1 k2, init_canary_slots (HP := toy) (HB := false) kdemo = Done 0 k1 /\
    validate_canary_slots (HP := toy) (HB := false) k1 = Done 0 k2.
Proof.
  destruct (canary_roundtrip (HP := toy) (HB := false) kdemo (volume_of 991) 1 (volume_data 991) kdemo_live
    ltac:(cbn [volume_of total_blocks]; vlia)) as (k1 & v1 & d1 & k2 & ? & _ & _ & _ & ? & _).
  exists k1, k2. auto.
Defined.

Lemma secure_erase_spec_witness :
  exists code k1, secure_erase_block (HP := toy) (HB := true) 20 kdemo = Done code k1.
Proof.
  destruct (secure_erase_spec (HP := toy) (HB := true) kdemo (volume_of 991) 1 (volume_data 991) 20 kdemo_live
    ltac:(unfold in_data; cbn [volume_of total_blocks]; vlia)) as (code & k1 & v1 & d1 & ? & _).
  exists code, k1. auto.
Defined.

Lemma purge_vault_exits_witness :
  (exists k', purge_vault (HP := toy) true (Some [118]) kdemo = Exited 1 k' /\ data_of (k_fs k') 1 = Some []) \/
  (exists k', purge_vault (HP := toy) true (Some [118]) kdemo = Done 3 k').
Proof.
  destruct (purge_vault_exits (HP := toy) true kdemo [118] "v" 1 (volume_data 991)
    eq_refl ltac:(discriminate) eq_refl eq_refl
    (proj2 (vol_open _ _ _ (vl_at _ _ _ _ kdemo_live)))) as [(k' & ? & ? & _)|(k' & ? & _)].
  - left. exists k'. auto.
  - right. exists k'. auto.
Defined.
