(* ===== verification/InitModule.v ===== *)
(** [init_module.rs]: the out-of-band trust root and the identity stamp, with the exported
    functions of [lib.rs] on them. *)
From S2P Require Import Prelude Effects Crypto RootState Evolution StdFs VolumeLayout VirtualVolume VolumeProofs VolumeBlocks VolumeAlloc Kernel KernelProofs.

(** * Pure parts *)

Fixpoint odd_even_interleave (alice bob : bytes) : bytes :=
  match alice, bob with
  | a :: alice, b :: bob => a :: b :: odd_even_interleave alice bob
  | _, _ => []
  end.

Definition entropy_reject (data : bytes) : bool :=
  if lenZ data <? 64 then true
  else if forallb (fun b => b =? 0) data then true
  else match data with
  | first :: _ => forallb (fun b => b =? first) data
  | [] => false
  end.

Section init.
Context `{HP : Primitives} `{HB : BuildProfile}.

Definition compute_id_stamp (root_state_init bob_pk : bytes) : bytes :=
  sha256 (str_bytes "LinkChat ID Stamp" ++ root_state_init ++ bob_pk).

(** * Initialisation *)

Definition store_bob_public_key (pk : bytes) : M kernel unit := modify (with_bob_pk_store pk).
Definition read_bob_pk : M kernel bytes := gets bob_pk_store.

Definition initialise_root_state (alice bob bob_pk : bytes) : M kernel Z :=
  if entropy_reject alice || entropy_reject bob then mret 2
  else
    let interleaved := odd_even_interleave alice bob in
    if lenZ interleaved <? 64 then mret 1
    else if lenZ bob_pk =? 0 then mret 3
    else
      store_bob_public_key bob_pk;;
      let key := sha256 (str_bytes "LinkChat RootState Init" ++ interleaved) in
      zoom kroot_lens (set_root_state_curr key);;
      zoom kroot_lens (set_epoch_id 0);;
      mret 0.

(** The exported wrapper: empty or null entropy is refused, a null key is an empty one. *)
Definition init_root_state (a b pk : option bytes) : M kernel Z :=
  match a, b with
  | Some a, Some b =>
      if (lenZ a =? 0) || (lenZ b =? 0) then mret 1
      else initialise_root_state a b (default [] pk)
  | _, _ => mret 1
  end.

(** * Identity stamp *)

Definition generate_id_stamp_from_curr : M kernel bytes :=
  curr ← zoom kroot_lens read_root_state_curr;
  pk ← read_bob_pk;
  mret (compute_id_stamp curr pk).

Definition persist_id_stamp (stamp : bytes) : M kernel Z :=
  let buf := splice 0 stamp (repZ 4068 0) in
  vault_write_block 994 buf.

Definition generate_and_persist_id_stamp : M kernel Z :=
  stamp ← generate_id_stamp_from_curr;
  persist_id_stamp stamp.

Definition read_id_stamp : M kernel (option bytes) :=
  r ← vault_read_block 994 (repZ 4068 0);
  if negb (r.1 =? 0) then mret None else mret (Some (takeZ 32 r.2)).

Definition generate_id_stamp : M kernel Z := generate_and_persist_id_stamp.

(** The code and the output buffer. *)
Definition load_id_stamp (out : option bytes) : M kernel (Z * option bytes) :=
  match out with
  | None => mret (1, None)
  | Some o =>
      if lenZ o <? 32 then mret (1, Some o)
      else
        r ← read_id_stamp;
        match r with
        | Some s => mret (0, Some (splice 0 s o))
        | None => mret (1, Some o)
        end
  end.
End init.

(** * Properties *)

Lemma interleave_len alice bob : lenZ (odd_even_interleave alice bob) = 2 * Z.min (lenZ alice) (lenZ bob).
Proof.
  revert bob. induction alice as [|a alice IH]; intros [|b bob]; simpl; rewrite ?lenZ_cons, ?lenZ_nil, ?IH;
    pose_lens; lia.
Qed.

(** The interleave takes bytes of both parties alternately: byte [2i] of the result is
    Alice's byte [i] and byte [2i+1] is Bob's, for as many bytes as both have; so no byte of
    the common prefix is lost and the two streams can be read back from it. *)
Theorem interleave_alternates alice bob :
  lenZ (odd_even_interleave alice bob) = 2 * Z.min (lenZ alice) (lenZ bob) /\
  forall i, 0 <= i < Z.min (lenZ alice) (lenZ bob) ->
    nthZ (odd_even_interleave alice bob) (2 * i) = nthZ alice i /\
    nthZ (odd_even_interleave alice bob) (2 * i + 1) = nthZ bob i.
Proof.
  split; [apply interleave_len|]. revert bob. induction alice as [|a alice IH]; intros [|b bob] i Hi;
    autorewrite with len in Hi; [lia..|].
  assert (forall {A} (x y : A) l j, 0 <= j -> nthZ (x :: y :: l) (j + 2) = nthZ l j) as Hskip.
  { intros A x y l j Hj. unfold nthZ. destruct (Z.ltb_spec (j + 2) 0), (Z.ltb_spec j 0); try lia.
    by replace (Z.to_nat (j + 2)) with (S (S (Z.to_nat j))) by lia. }
  assert (forall {A} (x : A) l j, 0 <= j -> nthZ (x :: l) (j + 1) = nthZ l j) as Hskip1.
  { intros A x l j Hj. unfold nthZ. destruct (Z.ltb_spec (j + 1) 0), (Z.ltb_spec j 0); try lia.
    by replace (Z.to_nat (j + 1)) with (S (Z.to_nat j)) by lia. }
  destruct (decide (i = 0)) as [->|Hne]; [done|].
  destruct (IH bob (i - 1)) as [H1 H2]; [lia|]. cbn [odd_even_interleave].
  replace (2 * i) with (2 * (i - 1) + 2) by lia. replace (2 * (i - 1) + 2 + 1) with (2 * (i - 1) + 1 + 2) by lia.
  rewrite !Hskip by lia. rewrite H1, H2. replace i with (i - 1 + 1) at 2 4 by lia. by rewrite !Hskip1 by lia.
Qed.

Section init_proofs.
Context `{HP : Primitives} `{HB : BuildProfile}.

(** The kernel after a successful initialisation. *)
Definition initialised (alice bob pk : bytes) (k : kernel) : kernel :=
  let r := ev_root (k_evo k) in
  with_bob_pk_store pk (with_k_evo (with_root
    (RootStatics (sha256 (str_bytes "LinkChat RootState Init" ++ odd_even_interleave alice bob))
      (root_pend r) 0 (msg_counter r)) (k_evo k)) k).

Lemma entropy_accept_len data : entropy_reject data = false -> 64 <= lenZ data.
Proof. unfold entropy_reject. destruct (Z.ltb_spec (lenZ data) 64); [done|lia]. Qed.

(** [initialise_root_state] answers 2 when either entropy stream is shorter than 64
    bytes or constant, 3 when the public key is missing, and then changes nothing; code 1
    cannot occur.  Otherwise it returns 0, the root state is the hash of the interleaved
    entropy, the epoch is 0 and the peer's key is stored; a pending evolution and the
    message counter of an earlier session are kept as they were. *)
Theorem initialise_root_state_spec alice bob pk k :
  initialise_root_state alice bob pk k =
    if entropy_reject alice || entropy_reject bob then Done 2 k
    else if decide (pk = []) then Done 3 k
    else Done 0 (initialised alice bob pk k).
Proof.
  unfold initialise_root_state.
  destruct (entropy_reject alice) eqn:Ea, (entropy_reject bob) eqn:Eb; try done. cbn [orb].
  apply entropy_accept_len in Ea, Eb. pose proof (interleave_len alice bob).
  cbv zeta. destruct (Z.ltb_spec (lenZ (odd_even_interleave alice bob)) 64); [lia|].
  case_decide as Hpk.
  - by subst.
  - destruct (Z.eqb_spec (lenZ pk) 0) as [Hz|]; [by apply lenZ_0_nil in Hz|]. done.
Qed.

(** A constant entropy source is refused: a stream of any length whose bytes are all
    equal, the stuck generator the gate is for, gives code 2 whichever party supplies it. *)
Theorem stuck_entropy_refused n b other pk k :
  initialise_root_state (repZ n b) other pk k = Done 2 k /\
  initialise_root_state other (repZ n b) pk k = Done 2 k.
Proof.
  assert (entropy_reject (repZ n b) = true) as Hr.
  { unfold entropy_reject. destruct (Z.ltb_spec (lenZ (repZ n b)) 64) as [|Hl]; [done|].
    destruct (forallb _ _); [done|]. destruct (repZ n b) as [|x l] eqn:E; [by rewrite lenZ_nil in Hl|].
    rewrite <- E. apply forallb_forall. intros y Hy. apply Z.eqb_eq.
    assert (forall z, z ∈ repZ n b -> z = b) as Hall by (intros z Hz; by apply elem_of_replicate in Hz as [-> _]).
    rewrite (Hall x) by (rewrite E; by left). apply Hall. by apply list_elem_of_In. }
  unfold initialise_root_state. rewrite Hr. by destruct (entropy_reject other).
Qed.

Context `{!PrimitivesOk HP}.

Definition stamp_of (k : kernel) : bytes := compute_id_stamp (root_curr (ev_root (k_evo k))) (bob_pk_store k).

Lemma stamp_eval k : generate_id_stamp_from_curr k = Done (stamp_of k) k.
Proof. by destruct k as [[] ? ? ? ? ?]. Qed.

(** The stamp is stored in its block. *)
Definition stamp_stored (v : VirtualVolume) (d stamp : bytes) : Prop :=
  block_holds v d 994 = Some (splice 0 stamp (repZ 4068 0)).

Lemma stamp_buffer_len k : lenZ (splice 0 (stamp_of k) (repZ 4068 0)) = PAYLOAD_SIZE.
Proof.
  assert (lenZ (stamp_of k) = 32) as Hl by apply sha256_len.
  rewrite lenZ_splice; rewrite ?Hl, ?lenZ_repZ; done.
Qed.

Lemma wp_generate_stamp k v ino d :
  vault_live k v ino d -> 995 <= total_blocks v ->
  wp generate_id_stamp (fun r k1 => r = 0 /\ exists d1, vault_live k1 v ino d1 /\ stamp_stored v d1 (stamp_of k)) k.
Proof.
  intros [E Hv Hh] Ht. apply wp_bind. eapply wp_done; [apply stamp_eval|]. eapply wp_with_vault; [done|]. apply wp_bind.
  apply (wp_write_ok v _ ino d); [by split_and!|unfold in_data; vlia|apply stamp_buffer_len|].
  intros e1 d1 (V1 & Hv1 & Hh1) Hb _. apply wp_ret. split; [done|]. exists d1. split; [|done].
  rewrite <- V1. by apply vault_live_put.
Qed.

Lemma wp_read_stamp k v ino d stamp :
  vault_live k v ino d -> 995 <= total_blocks v -> lenZ stamp = 32 -> stamp_stored v d stamp ->
  wp read_id_stamp (fun r _ => r = Some stamp) k.
Proof.
  intros [E Hv Hh] Ht Hl Hs. apply wp_bind. eapply wp_with_vault; [done|]. apply wp_bind.
  apply (wp_read_ok v _ ino d); [by split_and!|unfold in_data; vlia|].
  intros e1 Hu. rewrite Hs. cbn [of_option]. apply wp_ret. cbn [fst snd]. apply wp_ret. f_equal.
  unfold splice. rewrite takeZ_0, app_nil_l. by apply takeZ_app_exact.
Qed.

(** [C34] The identity stamp survives: on a live vault of at least 1000 blocks
    [generate_id_stamp] stores the hash of prefix, root and the peer's public key in block
    994, and [load_id_stamp] into any buffer of at least 32 bytes returns exactly it, also
    after the canary blocks next to it have been initialised. *)
Theorem id_stamp_roundtrip k v ino d out :
  vault_live k v ino d -> 1000 <= total_blocks v -> 32 <= lenZ out ->
  exists k1 k2 k3, generate_id_stamp k = Done 0 k1 /\ init_canary_slots k1 = Done 0 k2 /\
    load_id_stamp (Some out) k2 = Done (0, Some (splice 0 (stamp_of k) out)) k3.
Proof.
  intros Hl Ht Ho.
  destruct (wp_inv _ _ _ (wp_generate_stamp k v ino d Hl ltac:(lia))) as (r1 & k1 & E1 & -> & d1 & Hl1 & Hs1).
  destruct (wp_inv _ _ _ (wp_init_canary k1 v ino d1 Hl1 Ht))
    as (r2 & k2 & E2 & -> & _ & v2 & d2 & Hl2 & (bm & n & V2) & _ & Hd2 & _).
  assert (stamp_stored v2 d2 (stamp_of k)) as Hs2.
  { unfold stamp_stored, block_holds in *. rewrite V2. rewrite Hd2 by (unfold in_data; vlia). done. }
  assert (995 <= total_blocks v2) as Ht2 by (rewrite V2; cbn; lia).
  destruct (wp_inv _ _ _ (wp_read_stamp k2 v2 ino d2 _ Hl2 Ht2 (sha256_len _) Hs2)) as (r3 & k3 & E3 & ->).
  exists k1, k2, k3. split_and!; [done..|]. unfold load_id_stamp.
  destruct (Z.ltb_spec (lenZ out) 32); [lia|]. by rewrite (bind_done _ _ _ _ _ E3).
Qed.
End init_proofs.

Lemma id_stamp_roundtrip_witness :
  exists k1 k2 k3, generate_id_stamp (HP := toy) (HB := true) kdemo = Done 0 k1 /\
    init_canary_slots (HP := toy) (HB := true) k1 = Done 0 k2 /\
    load_id_stamp (HP := toy) (HB := true) (Some (repZ 40 9)) k2 =
      Done (0, Some (splice 0 (stamp_of (HP := toy) kdemo) (repZ 40 9))) k3.
Proof.
  apply (id_stamp_roundtrip (HP := toy) (HB := true) kdemo (volume_of 991) 1 (volume_data 991) (repZ 40 9)).
  - exact kdemo_live.
  - cbn [volume_of total_blocks]. vlia.
  - rewrite lenZ_repZ. lia.
Defined.

Lemma interleave_alternates_witness : nthZ (odd_even_interleave [1; 2; 3] [4; 5]) 3 = Some 5.
Proof.
  destruct (interleave_alternates [1; 2; 3] [4; 5]) as [_ H].
  destruct (H 1 ltac:(unfold lenZ; simpl; lia)) as [_ H2]. exact H2.
Defined.
