(* ===== verification/KernelPower.v ===== *)
(** What the exported vault functions promise when the power fails.

    [secure_erase_block] and [purge_vault] remove data: what they report as removed does not
    come back.  The identity stamp is stored by a write alone, and can be lost. *)
From stdpp Require Import gmap.
From S2P Require Import Prelude Effects Crypto StdFs VolumeLayout VirtualVolume VolumeProofs VolumeBlocks VolumeAlloc VolumeOpen Durability DiskWipe VolumePower Kernel KernelProofs InitModule.

Section exported.
Context `{HP : Primitives} `{HB : BuildProfile} `{HOk : !PrimitivesOk HP}.

(** The file holds [d], and no loss of power changes that; some loss of power leaves [d]. *)
Definition settled (s : fs) (ino : Z) (d : bytes) : Prop :=
  data_of s ino = Some d /\ forall pick, data_of (power_loss pick s) ino = Some d.
Definition may_return (s : fs) (ino : Z) (d : bytes) : Prop := exists pick, data_of (power_loss pick s) ino = Some d.

Lemma flushed_settled s ino d : data_of s ino = Some d -> versions_of s ino = [d] -> settled s ino d.
Proof. intros Hd Hv. split; [done|]. intros pick. by apply flushed_data. Qed.

(** The file of a volume, and what it may return to. *)
Lemma vol_holds e ino d : vol_at e ino d -> exists old, holds ino d old e.
Proof.
  intros Hv. pose proof (vol_open _ _ _ Hv) as (pos & nd & Hf & Hn & Hnd)%open_on_inv.
  exists (i_old nd), pos. split; [done|]. by exists nd.
Qed.

(** Freeing a block, whatever fails: when it succeeds the block is free, no block has
    changed, and the file is flushed. *)
Lemma wp_free_flushes e ino d i (Q : result unit -> vol_env -> Prop) :
  vol_at e ino d -> in_data (e_vol e) i ->
  (forall e' d', vol_at e' ino d' -> (exists bm n, e_vol e' = with_bitmap bm n (e_vol e)) -> i ∉ allocated (e_vol e') ->
     (forall j, in_data (e_vol e) j -> disk_block d' j = disk_block d j) -> versions_of (e_fs e') ino = [d'] -> Q (Ok tt) e') ->
  (forall err e', Q (Err err) e') -> wp (free_block i) Q e.
Proof.
  intros Hv Hi HQ HErr. destruct (vol_holds _ _ _ Hv) as [old Hh].
  pose proof (wp_free e ino d i Hv) as W. pose proof (pp_free_flushed i ino d old e Hh (vol_fits _ _ _ Hv)) as P.
  unfold wp, pp, run_alloc, mbind, M_bind in *. destruct (free_block i e) as [[[]|err] e'|e'|c e']; [|by apply HErr|done..].
  cbn in W, P. destruct W as (d' & (Vx & Hv' & R & _) & Ha & Hr & _). destruct (P eq_refl) as (d1 & Hh1).
  pose proof (holds_data _ _ _ _ _ Hh1 Hv') as ->. apply (HQ e' d1); [done|done| | |by apply holds_versions].
  - rewrite Ha. unfold spec_of in *. cbn [spec_step] in *.
    case_bool_decide; cbn in *; [|by destruct Hr as [|[_ ?]]]. intros [_ Hne]%elem_of_difference. by apply Hne, elem_of_singleton.
  - intros j [Hj _]. unfold disk_block. eapply region_slice_after; [exact R|vlia].
Qed.

(** [C21] Secure erasure holds against I/O errors and a loss of power: when
    [secure_erase_block] returns 0, the block is free and holds fresh random bytes in place
    of its payload, and whatever an outage leaves of unflushed data, it cannot bring the
    payload back: the file stays byte for byte as it is. *)
Theorem secure_erase_durable k v ino d i :
  VFS k = Some (v, false) -> vol_at (env_of v k) ino d -> in_data v i ->
  exists code k1, secure_erase_block i k = Done code k1 /\
    (code = 0 -> exists v1 d1, VFS k1 = Some (v1, false) /\ (i ∉ allocated v1) /\
       block_holds v1 d1 i = Some (fill_bytes PAYLOAD_SIZE (k_rng k)).1 /\ settled (k_fs k1) ino d1).
Proof using HOk.
  intros E Hv Hi. set (p := (fill_bytes PAYLOAD_SIZE (k_rng k)).1).
  assert (lenZ p = PAYLOAD_SIZE) as Hp by (by apply fill_len).
  apply (wp_inv _ (fun code k1 => code = 0 -> exists v1 d1, VFS k1 = Some (v1, false) /\ (i ∉ allocated v1) /\
    block_holds v1 d1 i = Some p /\ settled (k_fs k1) ino d1)).
  eapply wp_with_vault; [done|]. apply wp_bind, wp_zoom. unfold draw_bytes, wp at 1.
  cbn [lget rng_lens env_of e_rng]. fold p. set (e0 := lput rng_lens _ _).
  assert (vol_at e0 ino d) as Hv0 by (by apply vol_at_rng).
  apply wp_bind, (wp_write_block e0 ino d); [done..|]. intros r e1 d1 (V1 & Hv1 & _) Hr.
  destruct r as [[]|err]; [|by apply wp_ret]. destruct Hr as [[_ Hb]|[[err [=]] _]].
  assert (in_data (e_vol e1) i) as Hi1 by (by rewrite V1).
  apply wp_bind, (wp_free_flushes e1 ino d1); [done|done| |by intros err e'; apply wp_ret].
  intros e2 d2 Hv2 (bm & n & V2) Ha Hblk Hver. apply wp_ret. intros _. exists (e_vol e2), d2.
  split_and!; [done|done| |apply flushed_settled; [apply Hv2|done]].
  unfold block_holds in *. rewrite V2, V1, Hblk by done. exact Hb.
Qed.

(** [C26] The identity stamp is stored by a write that is not flushed: on a vault without I/O
    errors [generate_id_stamp] returns 0 and the stamp can be read back, but some loss of
    power leaves the vault's file as it was before, without the stamp. *)
Theorem id_stamp_may_be_lost k v ino d :
  vault_live k v ino d -> in_data v 994 ->
  exists k1 d1, generate_id_stamp k = Done 0 k1 /\ data_of (k_fs k1) ino = Some d1 /\ stamp_stored v d1 (stamp_of k) /\
    may_return (k_fs k1) ino d.
Proof using HOk.
  intros [E Hv Hh] Hi.
  destruct (write_may_be_lost (env_of v k) ino d 994 (splice 0 (stamp_of k) (repZ 4068 0)) Hv Hh Hi (stamp_buffer_len k))
    as (e' & d' & Ew & V & Hd & Hb & pick & Hp).
  exists (put_env e' false k), d'. split_and!; [|done|unfold stamp_stored; by rewrite V in Hb|by exists pick].
  unfold generate_id_stamp, generate_and_persist_id_stamp. rewrite (bind_done _ _ _ _ _ (stamp_eval k)).
  unfold persist_id_stamp, vault_write_block, with_vault_or. rewrite E. by rewrite (bind_done _ _ _ _ _ Ew).
Qed.

(** [C37] [purge_vault] never returns success: on a file that is not empty and without I/O
    errors it empties the file and ends the process, with exit code 1 when the application
    handles [SIGTERM] and by that signal otherwise; it returns only an error code, 3, and
    only when an I/O error occurred.  When it has ended the process, every other file is as
    it was, and no loss of power brings any of the purged file back. *)
Theorem purge_vault_durable h k path name ino d :
  from_utf8 path = Some name -> lenZ path <> 0 -> has_nul name = false ->
  dir (k_fs k) !! name = Some ino -> data_of (k_fs k) ino = Some d -> 0 < lenZ d ->
  (exists k', purge_vault h (Some path) k = Exited (if h then 1 else -15) k' /\ only_emptied k k' ino /\ settled (k_fs k') ino []) \/
  (exists k', purge_vault h (Some path) k = Done 3 k' /\ ~ quiet (k_fs k)).
Proof using HOk.
  intros Hu Hne Hn Hdir Hd Hl. unfold purge_vault. destruct (Z.eqb_spec (lenZ path) 0); [done|]. rewrite Hu.
  destruct (wp_inv _ _ _ (wp_purge_durable name ino (WipeEnv (k_fs k) (k_rng k)) d Hdir Hd Hl Hn))
    as (r & e' & E & Hq & Hok & _ & Hi).
  rewrite (bind_done _ _ _ _ _ (zoom_done wipe_lens _ k _ _ E)). destruct r as [[]|err].
  - left. eexists. split; [by destruct h|]. destruct (Hok eq_refl) as [H1 H2]. by split; [split|].
  - right. eexists. split; [done|]. intros H. by specialize (Hq H).
Qed.
End exported.

(** * Examples *)

(** A canary block of a vault is erased, and no outage changes the file afterwards. *)
Lemma secure_erase_durable_witness :
  exists k v k1 d1, init_canary_slots (HP := toy) (HB := true) kdemo = Done 0 k /\ VFS k = Some (v, false) /\
    secure_erase_block (HP := toy) (HB := true) 995 k = Done 0 k1 /\ settled (k_fs k1) 1 d1.
Proof.
  destruct (wp_inv _ _ _ (wp_init_canary (HP := toy) (HB := true) kdemo (volume_of 991) 1 (volume_data 991) kdemo_live ltac:(vm_compute; discriminate)))
    as (r & k & E & -> & _ & v & d & Hl & (bm & n & V) & Ha & _).
  assert (in_data v 995) as Hi by (rewrite V; unfold in_data; cbn [with_bitmap volume_of total_blocks]; vlia).
  destruct (secure_erase_spec (HP := toy) (HB := true) k v 1 d 995 Hl Hi) as (code & k1 & v1 & d1 & E1 & _ & _ & _ & H0 & _).
  destruct H0 as [-> _]; [rewrite Ha; apply elem_of_union_l, elem_of_list_to_set, elem_of_seqZ; lia|].
  destruct (secure_erase_durable (HP := toy) (HB := true) k v 1 d 995 (vl_vfs _ _ _ _ Hl) (vl_at _ _ _ _ Hl) Hi)
    as (code & k2 & E2 & Hd).
  rewrite E1 in E2. injection E2 as <- <-. destruct (Hd eq_refl) as (v2 & d2 & _ & _ & _ & Hs).
  exists k, v, k1, d2. split; [exact E|]. split; [apply (vl_vfs _ _ _ _ Hl)|]. split; [exact E1|exact Hs].
Defined.

Lemma id_stamp_may_be_lost_witness :
  exists k1 pick, generate_id_stamp (HP := toy) (HB := true) kdemo = Done 0 k1 /\
    data_of (power_loss pick (k_fs k1)) 1 = Some (volume_data 991).
Proof.
  destruct (id_stamp_may_be_lost (HP := toy) (HB := true) kdemo (volume_of 991) 1 (volume_data 991) kdemo_live
    ltac:(unfold in_data; cbn [volume_of total_blocks]; vlia)) as (k1 & d1 & ? & _ & _ & pick & ?).
  exists k1, pick. auto.
Defined.

Lemma purge_vault_durable_witness :
  exists k', purge_vault (HP := toy) true (Some [118]) kdemo = Exited 1 k' /\ settled (k_fs k') 1 [].
Proof.
  pose proof (vol_size _ _ _ (vl_at _ _ _ _ kdemo_live)) as Hl.
  destruct (purge_vault_durable (HP := toy) true kdemo [118] "v" 1 (volume_data 991)
    eq_refl ltac:(discriminate) eq_refl eq_refl (proj2 (vol_open _ _ _ (vl_at _ _ _ _ kdemo_live)))
    ltac:(rewrite Hl; cbn [e_vol env_of volume_of total_blocks]; vlia)) as [(k' & E & _ & Hs)|(k' & _ & Hq)].
  - exists k'. split; [exact E|exact Hs].
  - destruct Hq. intros n. reflexivity.
Defined.
