(* ===== verification/ConstantFlow.v ===== *)
(** [constant_flow.rs]: the cover-traffic engine, as a transition system.

    The statics are [RUNNING], the queued payload and the callback.  [threads] are the timer
    threads that were ever spawned, each at a point of its loop, and [apps] the threads of
    the application, each idle or inside a call.  Every atomic load and store, every short
    critical section, every spawn and every sleep is a step of its own, and the steps of all
    threads interleave.  A timer thread calls the callback while it holds the mutex of
    [tx_callback]; until the callback returns every other use of that mutex waits.  The
    callback is code of the application: inside it any exported call may be made, and a
    thread that needs the mutex it holds itself waits for ever ([std::sync::Mutex] promises
    that such a call does not return).  Time is in seconds and advances between steps.
    [sent] logs, newest first, which thread passed which packet to which callback, and when.
    The generator does not fail and callbacks do not unwind, so no timer thread panics.

    - [start_constant_flow], [stop_constant_flow], [queue_real_message], [build_packet]: the
      functions on their own; [run_call_alone]: the steps of a call that nobody disturbs
      make up the function.
    - [packets_constant]: the shape of the traffic in every execution.
    - [flow_calls_return]: calls return as long as callbacks do not start or stop the engine;
      [callback_stop_deadlocks]: a callback that stops it blocks for ever.
    - [restart_duplicates], [starts_duplicate], [start_lost]: races of start and stop. *)
From S2P Require Import Prelude Effects Crypto.

Definition PACKET_SIZE : Z := 4096.
Definition INTERVAL_SECS : Z := 5.

Section flow.
Context `{HP : Primitives}.

(** * State *)

(** The calls of the engine. *)
Inductive flow_call := CStart (cb : Z) | CStop | CQueue (payload : bytes) | CNoise.

(** Where a call is: before its first access, or in [start_constant_flow] before setting the
    callback, storing [RUNNING] and spawning, or in [stop_constant_flow] before clearing the
    callback and the queue. *)
Inductive call_pc := Enter (c : flow_call) | StartSet (cb : Z) | StartStore | StartSpawn | StopTx | StopQueue.

(** A thread of the application, with the code its last call returned. *)
Inductive app_pc := Idle (code : option Z) | Calling (pc : call_pc).

(** Where a timer thread is: before [while RUNNING], sleeping until a time, before the
    second test of [RUNNING], before taking the queue, before the callback, inside the
    callback (which may be inside a call itself), or ended. *)
Inductive thread_pc :=
| AtLoop | Asleep (until : Z) | AtRecheck | AtBuild | AtSend (packet : bytes)
| InCallback (code : option call_pc) | Ended.

Record sent_packet := Sent { by_thread : Z; to_callback : Z; at_time : Z; content : bytes }.

Record flow := Flow {
  RUNNING : bool;
  pending_payload : option bytes;
  tx_callback : option Z;
  threads : list thread_pc;
  apps : list app_pc;
  flow_now : Z;
  flow_rng : rng;
  sent : list sent_packet;
}.
Definition with_RUNNING (x : bool) (f : flow) : flow :=
  Flow x (pending_payload f) (tx_callback f) (threads f) (apps f) (flow_now f) (flow_rng f) (sent f).
Definition with_pending (x : option bytes) (f : flow) : flow :=
  Flow (RUNNING f) x (tx_callback f) (threads f) (apps f) (flow_now f) (flow_rng f) (sent f).
Definition with_callback (x : option Z) (f : flow) : flow :=
  Flow (RUNNING f) (pending_payload f) x (threads f) (apps f) (flow_now f) (flow_rng f) (sent f).
Definition with_threads (x : list thread_pc) (f : flow) : flow :=
  Flow (RUNNING f) (pending_payload f) (tx_callback f) x (apps f) (flow_now f) (flow_rng f) (sent f).
Definition with_apps (x : list app_pc) (f : flow) : flow :=
  Flow (RUNNING f) (pending_payload f) (tx_callback f) (threads f) x (flow_now f) (flow_rng f) (sent f).
Definition with_now (x : Z) (f : flow) : flow :=
  Flow (RUNNING f) (pending_payload f) (tx_callback f) (threads f) (apps f) x (flow_rng f) (sent f).
Definition with_flow_rng (x : rng) (f : flow) : flow :=
  Flow (RUNNING f) (pending_payload f) (tx_callback f) (threads f) (apps f) (flow_now f) x (sent f).
Definition with_sent (x : list sent_packet) (f : flow) : flow :=
  Flow (RUNNING f) (pending_payload f) (tx_callback f) (threads f) (apps f) (flow_now f) (flow_rng f) x.
Definition frng_lens : lens rng flow := Lens flow_rng with_flow_rng.

(** An application with [n] threads. *)
Definition flow_init (n : nat) (t : Z) (r : rng) : flow :=
  Flow false None None [] (replicate n (Idle None)) t r [].

(** * Operations *)

Definition build_noise_packet : M flow bytes := zoom frng_lens (draw_bytes PACKET_SIZE).

Definition queue_real_message (payload : bytes) : M flow unit := modify (with_pending (Some payload)).

(** [std::thread::spawn]. *)
Definition spawn : M flow unit := modify (fun f => with_threads (threads f ++ [AtLoop]) f).

Definition start_constant_flow (cb : Z) : M flow Z :=
  running ← gets RUNNING;
  if (running : bool) then mret 1
  else
    modify (with_callback (Some cb));;
    modify (with_RUNNING true);;
    spawn;;
    mret 0.

Definition stop_constant_flow : M flow Z :=
  modify (with_RUNNING false);;
  modify (with_callback None);;
  modify (with_pending None);;
  mret 0.

(** The packet of one tick: the queued payload cut or filled up with noise, or noise. *)
Definition build_packet : M flow bytes :=
  q ← gets pending_payload;
  modify (with_pending None);;
  match q with
  | Some data =>
      let pkt := if PACKET_SIZE <? lenZ data then takeZ PACKET_SIZE data else data in
      let n := lenZ pkt in
      noise ← zoom frng_lens (draw_bytes (PACKET_SIZE - n));
      mret (pkt ++ noise)
  | None => build_noise_packet
  end.

(** ** Steps of a call *)

(** The mutex of [tx_callback] is held across steps only by a thread inside its callback. *)
Definition in_callback (pc : thread_pc) : bool := match pc with InCallback _ => true | _ => false end.
Definition tx_locked (f : flow) : bool := existsb in_callback (threads f).

(** The next step of the call locks [tx_callback], which is held. *)
Definition call_blocked (pc : call_pc) (f : flow) : bool :=
  match pc with StartSet _ | StopTx => tx_locked f | _ => false end.

(** One step: on to the next point, or the code the call returns. *)
Definition call_step (pc : call_pc) : M flow (call_pc + Z) :=
  match pc with
  | Enter (CStart cb) =>
      running ← gets RUNNING; mret (if (running : bool) then inr 1 else inl (StartSet cb))
  | StartSet cb => modify (with_callback (Some cb));; mret (inl StartStore)
  | StartStore => modify (with_RUNNING true);; mret (inl StartSpawn)
  | StartSpawn => spawn;; mret (inr 0)
  | Enter CStop => modify (with_RUNNING false);; mret (inl StopTx)
  | StopTx => modify (with_callback None);; mret (inl StopQueue)
  | StopQueue => modify (with_pending None);; mret (inr 0)
  | Enter (CQueue payload) => queue_real_message payload;; mret (inr 0)
  | Enter CNoise => _ ← build_noise_packet; mret (inr 0)
  end.

(** ** Steps of a timer thread *)

Definition thread_blocked (pc : thread_pc) (f : flow) : bool :=
  match pc with
  | AtSend _ => tx_locked f
  | InCallback (Some pc) => call_blocked pc f
  | _ => false
  end.

(** One step of timer thread number [i], which is at [pc]. *)
Definition thread_step (i : Z) (pc : thread_pc) : M flow thread_pc :=
  match pc with
  | AtLoop =>
      running ← gets RUNNING;
      t ← gets flow_now;
      mret (if (running : bool) then Asleep (t + INTERVAL_SECS) else Ended)
  | Asleep until =>
      t ← gets flow_now;
      mret (if until <=? t then AtRecheck else Asleep until)
  | AtRecheck =>
      running ← gets RUNNING;
      mret (if (running : bool) then AtBuild else Ended)
  | AtBuild => packet ← build_packet; mret (AtSend packet)
  | AtSend packet =>
      cb ← gets tx_callback;
      match cb with
      | Some cb =>
          modify (fun f => with_sent (Sent i cb (flow_now f) packet :: sent f) f);; mret (InCallback None)
      | None => mret AtLoop
      end
  | InCallback (Some pc) =>
      r ← call_step pc; mret (InCallback (match r with inl pc => Some pc | inr _ => None end))
  | InCallback None => mret (InCallback None)
  | Ended => mret Ended
  end.

(** * Transition system *)

(** A thread of the application begins a call or makes a step of it; time passes; a timer
    thread makes a step; its callback begins a call or returns. *)
Inductive label :=
| LCall (i : nat) (c : flow_call) | LApp (i : nat) | LTime (t : Z)
| LThread (i : Z) | LCallback (i : Z) (c : flow_call) | LReturn (i : Z).

Definition set_thread (i : Z) (pc : thread_pc) (f : flow) : flow := with_threads (setZ (threads f) i pc) f.
Definition set_app (i : nat) (pc : app_pc) (f : flow) : flow := with_apps (<[i := pc]> (apps f)) f.
Definition after_step (r : call_pc + Z) : app_pc :=
  match r with inl pc => Calling pc | inr code => Idle (Some code) end.

(** [None]: the label is not possible in this state. *)
Definition do_step (l : label) (f : flow) : option flow :=
  match l with
  | LCall i c =>
      match apps f !! i with Some (Idle _) => Some (set_app i (Calling (Enter c)) f) | _ => None end
  | LApp i =>
      match apps f !! i with
      | Some (Calling pc) =>
          if call_blocked pc f then None
          else match call_step pc f with Done r f' => Some (set_app i (after_step r) f') | _ => None end
      | _ => None
      end
  | LTime t => if flow_now f <=? t then Some (with_now t f) else None
  | LThread i =>
      match nthZ (threads f) i with
      | Some pc =>
          if thread_blocked pc f then None
          else match thread_step i pc f with Done pc' f' => Some (set_thread i pc' f') | _ => None end
      | None => None
      end
  | LCallback i c =>
      match nthZ (threads f) i with
      | Some (InCallback None) => Some (set_thread i (InCallback (Some (Enter c))) f)
      | _ => None
      end
  | LReturn i =>
      match nthZ (threads f) i with
      | Some (InCallback None) => Some (set_thread i AtLoop f)
      | _ => None
      end
  end.

Fixpoint run_labels (ls : list label) (f : flow) : option flow :=
  match ls with [] => Some f | l :: ls => f' ← do_step l f; run_labels ls f' end.

(** [f'] is reached from [f] by the steps [ls]. *)
Definition flow_exec (ls : list label) (f f' : flow) : Prop := run_labels ls f = Some f'.

Lemma exec_app ls ls' f f' f'' : flow_exec ls f f' -> flow_exec ls' f' f'' -> flow_exec (ls ++ ls') f f''.
Proof.
  unfold flow_exec. revert f. induction ls as [|l ls IH]; simpl; intros f; [by intros [= ->]|].
  destruct (do_step l f); simpl; [apply IH|done].
Qed.

(** An invariant of the steps holds after every execution. *)
Lemma exec_invariant (I : flow -> Prop) (P : label -> Prop) ls f f' :
  (forall l f f', P l -> do_step l f = Some f' -> I f -> I f') ->
  flow_exec ls f f' -> Forall P ls -> I f -> I f'.
Proof.
  intros HI. unfold flow_exec. revert f. induction ls as [|l ls IH]; simpl; intros f; [by intros [= ->]|].
  intros (f1 & E & E1)%bind_Some [Hl Hls]%Forall_cons Hf. by eapply IH, HI.
Qed.

(** Threads that have not ended. *)
Definition live_threads (f : flow) : Z :=
  countb (fun pc => match pc with Ended => false | _ => true end) (threads f).

(** ** A call that nobody disturbs *)

Fixpoint run_call (fuel : nat) (pc : call_pc) : M flow Z :=
  match fuel with
  | O => panic
  | S fuel => r ← call_step pc; match r with inl pc => run_call fuel pc | inr code => mret code end
  end.
Definition call_alone (c : flow_call) : M flow Z :=
  match c with
  | CStart cb => start_constant_flow cb
  | CStop => stop_constant_flow
  | CQueue payload => queue_real_message payload;; mret 0
  | CNoise => _ ← build_noise_packet; mret 0
  end.
Lemma run_call_alone c f : run_call 4 (Enter c) f = call_alone c f.
Proof.
  destruct c as [cb| | |]; try reflexivity. destruct f as [running ? ? ? ? ? ? ?]. by destruct running.
Qed.

(** * Invariant *)

Context `{!PrimitivesOk HP}.

(** How long ago thread [i] sent, by where it is now. *)
Definition due (now t : Z) (pc : thread_pc) : Prop :=
  match pc with
  | AtLoop | InCallback _ => t <= now
  | Asleep until => t + INTERVAL_SECS <= until
  | AtRecheck | AtBuild | AtSend _ => t + INTERVAL_SECS <= now
  | Ended => True
  end.
Definition pc_ok (pc : thread_pc) : Prop :=
  match pc with AtSend packet => lenZ packet = PACKET_SIZE | _ => True end.

(** Any two packets of one thread are at least an interval apart. *)
Fixpoint spaced (l : list sent_packet) : Prop :=
  match l with
  | [] => True
  | p :: l =>
      (forall q, q ∈ l -> by_thread q = by_thread p -> at_time q + INTERVAL_SECS <= at_time p) /\ spaced l
  end.

Record flow_ok (f : flow) : Prop := {
  ok_pcs i pc : nthZ (threads f) i = Some pc -> pc_ok pc;
  ok_sizes p : p ∈ sent f -> lenZ (content p) = PACKET_SIZE;
  ok_ids p : p ∈ sent f -> 0 <= by_thread p < lenZ (threads f);
  ok_due p pc : p ∈ sent f -> nthZ (threads f) (by_thread p) = Some pc -> due (flow_now f) (at_time p) pc;
  ok_spaced : spaced (sent f);
  ok_excl i j pc pc' : nthZ (threads f) i = Some pc -> nthZ (threads f) j = Some pc' ->
    in_callback pc = true -> in_callback pc' = true -> i = j;
}.

Lemma flow_init_ok n t r : flow_ok (flow_init n t r).
Proof.
  assert (forall i (pc : thread_pc), nthZ [] i = Some pc -> False) as Hn.
  { intros i pc. unfold nthZ. by destruct (i <? 0). }
  split; simpl; try done.
  - by intros i pc ?%Hn.
  - by intros p Hp%elem_of_nil.
  - by intros p Hp%elem_of_nil.
  - by intros p pc Hp%elem_of_nil.
  - by intros i j pc pc' ?%Hn.
Qed.

Lemma nthZ_elem {A} (l : list A) i x : nthZ l i = Some x -> x ∈ l.
Proof. unfold nthZ. destruct (i <? 0); [done|]. apply list_elem_of_lookup_2. Qed.
Lemma nthZ_snoc {A} (l : list A) x i y :
  nthZ (l ++ [x]) i = Some y -> nthZ l i = Some y \/ i = lenZ l /\ y = x.
Proof.
  unfold nthZ, lenZ. destruct (Z.ltb_spec i 0); [done|].
  intros [[? ?]|(? & E)]%lookup_snoc_Some; [by left|]. right. split; [|congruence]. lia.
Qed.
Lemma nthZ_prefix {A} (l k : list A) i x : nthZ l i = Some x -> nthZ (l ++ k) i = Some x.
Proof. unfold nthZ. destruct (i <? 0); [done|]. apply lookup_app_l_Some. Qed.

Lemma tx_locked_true f : tx_locked f = true <-> exists i pc, nthZ (threads f) i = Some pc /\ in_callback pc = true.
Proof.
  unfold tx_locked. rewrite existsb_exists. split.
  - intros (pc & Hin & Hpc). apply list_elem_of_In, list_elem_of_lookup in Hin as [i Hi]. exists (Z.of_nat i), pc.
    split; [|done]. unfold nthZ. destruct (Z.ltb_spec (Z.of_nat i) 0); [lia|]. by rewrite Nat2Z.id.
  - intros (i & pc & Hi & Hpc). exists pc. split; [|done]. by apply list_elem_of_In, (nthZ_elem _ i).
Qed.
Lemma tx_free f i pc : tx_locked f = false -> nthZ (threads f) i = Some pc -> in_callback pc = false.
Proof.
  intros Hf Hi. destruct (in_callback pc) eqn:E; [|done]. rewrite <- Hf. symmetry. apply tx_locked_true. eauto.
Qed.

(** Time that passes only makes threads more due. *)
Lemma due_later now now' t pc : now <= now' -> due now t pc -> due now' t pc.
Proof. destruct pc; simpl; lia. Qed.

Lemma time_ok f t : flow_now f <= t -> flow_ok f -> flow_ok (with_now t f).
Proof.
  intros Ht [H1 H2 H3 H4 H5 H6]. split; simpl; try done. intros p pc Hp Hpc.
  eapply due_later; [done|]. by apply H4.
Qed.

(** Only the fields of the invariant matter. *)
Lemma flow_ok_ext f f' :
  threads f' = threads f -> sent f' = sent f -> flow_now f' = flow_now f -> flow_ok f -> flow_ok f'.
Proof. intros Et Es En [H1 H2 H3 H4 H5 H6]. split; rewrite ?Et, ?Es, ?En; done. Qed.

Lemma spawn_ok f : flow_ok f -> flow_ok (with_threads (threads f ++ [AtLoop]) f).
Proof.
  intros [H1 H2 H3 H4 H5 H6]. split; simpl; [|done|intros p Hp; rewrite lenZ_app; specialize (H3 p Hp); len_lia| |done|].
  - intros i pc [?|[_ ->]]%nthZ_snoc; [by eapply H1|done].
  - intros p pc Hp [?|[Hi _]]%nthZ_snoc; [by apply H4|]. specialize (H3 p Hp). lia.
  - intros i j pc pc' [?|[_ ->]]%nthZ_snoc [?|[_ ->]]%nthZ_snoc; try done. by eapply H6.
Qed.

(** A thread that moves without sending; it may only enter the callback when the mutex is free. *)
Lemma move_ok f i pc pc' :
  flow_ok f -> nthZ (threads f) i = Some pc -> pc_ok pc' ->
  (in_callback pc' = true -> in_callback pc = true \/ tx_locked f = false) ->
  (forall t, due (flow_now f) t pc -> due (flow_now f) t pc') ->
  flow_ok (set_thread i pc' f).
Proof.
  intros [H1 H2 H3 H4 H5 H6] Hi Hok Hcb Hdue.
  assert (0 <= i < lenZ (threads f)) as Hr by (apply nthZ_Some_iff; by eexists).
  assert (forall j pcj, nthZ (setZ (threads f) i pc') j = Some pcj ->
    i = j /\ pcj = pc' \/ i <> j /\ nthZ (threads f) j = Some pcj) as Hset.
  { intros j pcj. destruct (decide (i = j)) as [<-|]; [rewrite nthZ_setZ_eq by done; intros [= <-]; by left|].
    rewrite nthZ_setZ_ne by lia. by right. }
  assert (forall j pcj, i <> j -> nthZ (threads f) j = Some pcj -> in_callback pc' = true -> in_callback pcj = true -> False) as Hx.
  { intros j pcj Hij Hj Hc Hcj. destruct (Hcb Hc) as [Hc'|Hf]; [by apply Hij, (H6 i j pc pcj)|].
    by rewrite (tx_free f j pcj Hf Hj) in Hcj. }
  split; simpl; [|done|intros p Hp; rewrite lenZ_setZ; by apply H3| |done|].
  - intros j pcj [[_ ->]|[_ ?]]%Hset; [done|by eapply H1].
  - intros p pcj Hp [[E ->]|[_ ?]]%Hset; [|by apply H4]. apply Hdue. apply H4; [done|]. by rewrite <- E.
  - intros a b pca pcb [[<- ->]|[? Ha]]%Hset [[<- ->]|[? Hb]]%Hset Hca Hcb'; [done| | |by eapply H6].
    + exfalso. by eapply (Hx b pcb).
    + exfalso. by eapply (Hx a pca).
Qed.

(** A thread that hands its packet to a callback. *)
Lemma send_ok f i cb packet :
  flow_ok f -> nthZ (threads f) i = Some (AtSend packet) -> tx_locked f = false ->
  flow_ok (set_thread i (InCallback None) (with_sent (Sent i cb (flow_now f) packet :: sent f) f)).
Proof.
  intros Hf Hi Hfree. pose proof (ok_pcs _ Hf _ _ Hi) as Hlen.
  assert (flow_ok (set_thread i (InCallback None) f)) as [H1 H2 H3 H4 H5 H6].
  { eapply move_ok; [done|done|done|auto|]. simpl. unfold INTERVAL_SECS. lia. }
  assert (0 <= i < lenZ (threads f)) as Hr by (apply nthZ_Some_iff; by eexists).
  split; simpl; [done| | | | |done].
  - intros p [->|Hp]%elem_of_cons; [done|by apply H2].
  - intros p [->|Hp]%elem_of_cons; [simpl; by rewrite lenZ_setZ|by apply H3].
  - intros p pc [->|Hp]%elem_of_cons; [|by apply H4]. simpl. rewrite nthZ_setZ_eq by done. intros [= <-]. simpl. lia.
  - split; [|done]. intros q Hq Hid. simpl in *. apply (ok_due _ Hf q (AtSend packet) Hq). by rewrite Hid.
Qed.

Lemma build_packet_eval f :
  exists pkt r, build_packet f = Done pkt (with_flow_rng r (with_pending None f)) /\
    lenZ pkt = PACKET_SIZE /\
    (forall data, pending_payload f = Some data ->
       takeZ (Z.min (lenZ data) PACKET_SIZE) pkt = takeZ PACKET_SIZE data).
Proof.
  unfold build_packet. step. step. destruct (pending_payload f) as [data|].
  - cbv zeta. set (pkt := if _ <? _ then _ else _).
    assert (pkt = takeZ PACKET_SIZE data /\ lenZ pkt = Z.min (lenZ data) PACKET_SIZE) as [Ep Lp].
    { unfold pkt, PACKET_SIZE in *. destruct (Z.ltb_spec 4096 (lenZ data)).
      - split; [done|]. len_lia.
      - split; [by rewrite takeZ_all by lia|lia]. }
    assert (0 <= PACKET_SIZE - lenZ pkt) as Hn by lia.
    eexists _, _. split; [reflexivity|]. split.
    + rewrite lenZ_app. cbn. rewrite fill_len by done. lia.
    + intros data' [= <-]. rewrite <- Lp, <- Ep. by apply takeZ_app_exact.
  - eexists _, _. split; [reflexivity|]. split; [by apply fill_len|done].
Qed.

(** What one step of a call does to the fields of the invariant. *)
Lemma call_step_eval pc f :
  exists r f', call_step pc f = Done r f' /\ sent f' = sent f /\ flow_now f' = flow_now f /\ apps f' = apps f /\
    (forall code, r = inr code -> code = 0 \/ code = 1) /\
    (threads f' = threads f \/ pc = StartSpawn /\ threads f' = threads f ++ [AtLoop]).
Proof.
  destruct pc as [[cb| |payload|]|cb| | | |]; eexists _, _;
    (split_and!; [reflexivity|done|done|done|intros code|by auto]);
    [destruct (RUNNING f)|..]; first [done | intros [= <-]; by auto].
Qed.

Lemma call_step_ok pc f r f' : call_step pc f = Done r f' -> flow_ok f -> flow_ok f'.
Proof.
  intros E Hf. destruct (call_step_eval pc f) as (r' & f2 & E' & Hs & Hn & _ & _ & Ht).
  rewrite E' in E. injection E as <- <-. destruct Ht as [Ht|[_ Ht]]; [by eapply flow_ok_ext|].
  eapply flow_ok_ext; [| | |apply spawn_ok, Hf]; [exact Ht|exact Hs|exact Hn].
Qed.

Lemma thread_step_ok f i pc pc' f' :
  flow_ok f -> nthZ (threads f) i = Some pc -> thread_blocked pc f = false ->
  thread_step i pc f = Done pc' f' -> flow_ok (set_thread i pc' f').
Proof.
  intros Hf Hi Hb E. destruct pc as [|until| | |packet|[pc|]|]; simpl in E, Hb.
  - unfold mbind, M_bind, gets, mret, M_ret in E. destruct (RUNNING f); injection E as <- <-;
      (eapply move_ok; [done|done|done|done|]); simpl; unfold INTERVAL_SECS; lia.
  - unfold mbind, M_bind, gets, mret, M_ret in E. destruct (Z.leb_spec until (flow_now f)); injection E as <- <-;
      (eapply move_ok; [done|done|done|done|]); simpl; lia.
  - unfold mbind, M_bind, gets, mret, M_ret in E. destruct (RUNNING f); injection E as <- <-;
      (eapply move_ok; [done|done|done|done|]); simpl; done.
  - destruct (build_packet_eval f) as (pkt & r & Eb & Hl & _). rewrite (bind_done _ _ _ _ _ Eb) in E.
    injection E as <- <-. eapply move_ok; [by apply (flow_ok_ext f)|done|done|done|]. simpl. done.
  - unfold mbind, M_bind, gets, mret, M_ret in E. destruct (tx_callback f) as [cb|]; injection E as <- <-.
    + by apply (send_ok f i cb packet).
    + eapply move_ok; [done|done|done|done|]. simpl. unfold INTERVAL_SECS. lia.
  - destruct (call_step_eval pc f) as (r & f2 & Ec & Hs & Hn & _ & _ & Ht). rewrite (bind_done _ _ _ _ _ Ec) in E.
    injection E as <- <-. eapply (move_ok f2 i (InCallback (Some pc)));
      [by eapply call_step_ok| |done|by left|done].
    destruct Ht as [->|[_ ->]]; [done|by apply nthZ_prefix].
  - injection E as <- <-. eapply move_ok; [done|done|done|by left|done].
  - injection E as <- <-. eapply move_ok; [done|done|done|by left|done].
Qed.

Lemma do_step_ok l f f' : do_step l f = Some f' -> flow_ok f -> flow_ok f'.
Proof.
  intros E Hf. destruct l as [i c|i|t|i|i c|i]; simpl in E.
  - destruct (apps f !! i) as [[code|pc]|]; simplify_eq. by apply (flow_ok_ext f).
  - destruct (apps f !! i) as [[code|pc]|]; simplify_eq. destruct (call_blocked pc f); [done|].
    destruct (call_step pc f) as [r f1| |] eqn:Ec; simplify_eq.
    apply (flow_ok_ext f1); [done..|]. by eapply call_step_ok.
  - destruct (Z.leb_spec (flow_now f) t); simplify_eq. by apply time_ok.
  - destruct (nthZ (threads f) i) as [pc|] eqn:Hi; [|done]. destruct (thread_blocked pc f) eqn:Hb; [done|].
    destruct (thread_step i pc f) as [pc' f1| |] eqn:Et; simplify_eq. by eapply thread_step_ok.
  - destruct (nthZ (threads f) i) as [[| | | | |[pc|]|]|] eqn:Hi; simplify_eq.
    eapply move_ok; [done|done|done|by left|done].
  - destruct (nthZ (threads f) i) as [[| | | | |[pc|]|]|] eqn:Hi; simplify_eq.
    eapply move_ok; [done|done|done|by left|done].
Qed.

Lemma flow_exec_ok ls f f' : flow_exec ls f f' -> flow_ok f -> flow_ok f'.
Proof.
  intros He. eapply (exec_invariant flow_ok (fun _ => True)); [|done|by apply Forall_true].
  intros l g g' _. apply do_step_ok.
Qed.

(** [C33] Constant shape of the cover traffic: in every execution, whatever calls the threads of
    the application and the callbacks make and however all threads interleave, every packet
    handed to a callback has exactly 4096 bytes, two packets of the same timer thread are at
    least five seconds apart, and no two timer threads are inside a callback at once. *)
Theorem packets_constant n t r ls f :
  flow_exec ls (flow_init n t r) f ->
  Forall (fun p => lenZ (content p) = PACKET_SIZE) (sent f) /\ spaced (sent f) /\
  forall i j pc pc', nthZ (threads f) i = Some pc -> nthZ (threads f) j = Some pc' ->
    in_callback pc = true -> in_callback pc' = true -> i = j.
Proof.
  intros He. pose proof (flow_exec_ok _ _ _ He (flow_init_ok n t r)) as [_ H2 _ _ H5 H6].
  split; [|by split]. by apply Forall_forall.
Qed.

(** A queued message is carried by the next packet: the packet has 4096 bytes and
    starts with the message, cut to 4096 bytes; the queue is empty afterwards and the
    other statics are untouched. *)
Theorem queued_message_carried f data :
  exists f1 pkt f2, queue_real_message data f = Done tt f1 /\ build_packet f1 = Done pkt f2 /\
    lenZ pkt = PACKET_SIZE /\ takeZ (Z.min (lenZ data) PACKET_SIZE) pkt = takeZ PACKET_SIZE data /\
    pending_payload f2 = None /\ RUNNING f2 = RUNNING f /\ tx_callback f2 = tx_callback f.
Proof.
  eexists. destruct (build_packet_eval (with_pending (Some data) f)) as (pkt & r & E & Hl & Hp).
  eexists _, _. split_and!; [done|exact E|done|by apply Hp|done..].
Qed.

(** * Calls return *)

(** The callback does not start or stop the engine. *)
Definition polite (l : label) : Prop :=
  match l with LCallback _ (CStart _) | LCallback _ CStop => False | _ => True end.
Definition harmless (pc : call_pc) : Prop :=
  match pc with Enter (CQueue _) | Enter CNoise => True | _ => False end.
Definition polite_state (f : flow) : Prop :=
  forall i pc, nthZ (threads f) i = Some (InCallback (Some pc)) -> harmless pc.

Lemma polite_set f i pc' :
  polite_state f -> 0 <= i < lenZ (threads f) -> (forall pc, pc' = InCallback (Some pc) -> harmless pc) ->
  polite_state (set_thread i pc' f).
Proof.
  intros Hf Hi Hp j pc. simpl. destruct (decide (i = j)) as [<-|].
  - rewrite nthZ_setZ_eq by done. intros [= ->]. by apply Hp.
  - rewrite nthZ_setZ_ne by lia. apply Hf.
Qed.
Lemma polite_call pc f r f' : call_step pc f = Done r f' -> polite_state f -> polite_state f'.
Proof.
  intros E Hf. destruct (call_step_eval pc f) as (r' & f2 & E' & _ & _ & _ & _ & Ht). rewrite E' in E. injection E as <- <-.
  intros i pc2. destruct Ht as [->|[_ ->]]; [apply Hf|]. intros [?|[_ [=]]]%nthZ_snoc. by apply (Hf i).
Qed.

Lemma polite_step l f f' : polite l -> do_step l f = Some f' -> polite_state f -> polite_state f'.
Proof.
  intros Hl E Hf. destruct l as [i c|i|t|i|i c|i]; simpl in E.
  - destruct (apps f !! i) as [[code|pc]|]; simplify_eq. exact Hf.
  - destruct (apps f !! i) as [[code|pc]|]; simplify_eq. destruct (call_blocked pc f); [done|].
    destruct (call_step pc f) as [r f1| |] eqn:Ec; simplify_eq. exact (polite_call pc f r f1 Ec Hf).
  - destruct (Z.leb_spec (flow_now f) t); simplify_eq. exact Hf.
  - destruct (nthZ (threads f) i) as [pc|] eqn:Hi; [|done]. destruct (thread_blocked pc f) eqn:Hb; [done|].
    assert (0 <= i < lenZ (threads f)) as Hr by (apply nthZ_Some_iff; by eexists).
    destruct pc as [|until| | |packet|[pc|]|]; simpl in E.
    1-3,7,8: unfold mbind, M_bind, gets, mret, M_ret in E; simplify_eq; apply polite_set; [done|done|];
      intros pc; repeat case_match; done.
    + destruct (build_packet_eval f) as (pkt & r & Eb & Hl2 & _). rewrite (bind_done _ _ _ _ _ Eb) in E.
      injection E as <-. by apply polite_set.
    + unfold mbind, M_bind, gets, mret, M_ret in E. destruct (tx_callback f); injection E as <-; by apply polite_set.
    + pose proof (Hf i pc Hi) as Hh. destruct pc as [[]| | | | |]; try done; injection E as <-;
        by apply polite_set.
  - destruct (nthZ (threads f) i) as [[| | | | |[pc|]|]|] eqn:Hi; simplify_eq.
    apply polite_set; [done|apply nthZ_Some_iff; by eexists|]. intros pc [= <-]. by destruct c.
  - destruct (nthZ (threads f) i) as [[| | | | |[pc|]|]|] eqn:Hi; simplify_eq.
    apply polite_set; [done|apply nthZ_Some_iff; by eexists|done].
Qed.

(** The mutex of the callback becomes free when the callback returns. *)
Lemma returned_free f i code :
  flow_ok f -> nthZ (threads f) i = Some (InCallback code) -> tx_locked (set_thread i AtLoop f) = false.
Proof.
  intros Hf Hi. destruct (tx_locked _) eqn:E; [|done]. exfalso.
  apply tx_locked_true in E as (j & pc & Hj & Hc). simpl in Hj.
  assert (0 <= i < lenZ (threads f)) as Hr by (apply nthZ_Some_iff; by eexists).
  destruct (decide (i = j)) as [<-|Hij].
  - rewrite nthZ_setZ_eq in Hj by done. by injection Hj as <-.
  - rewrite nthZ_setZ_ne in Hj by lia. by apply Hij, (ok_excl _ Hf i j _ _ Hi Hj).
Qed.

(** Steps of thread [i] of the application and of timer threads; nothing new is begun. *)
Definition only_finishes (i : nat) (l : label) : Prop :=
  match l with LApp j => i = j | LThread _ | LReturn _ => True | _ => False end.

Lemma release_tx f i :
  flow_ok f -> polite_state f ->
  exists ls f', flow_exec ls f f' /\ (length ls <= 2)%nat /\ Forall (only_finishes i) ls /\
    tx_locked f' = false /\ apps f' = apps f.
Proof.
  intros Hf Hp. destruct (tx_locked f) eqn:E; [|exists [], f; by split_and!; [|simpl; lia|..]].
  apply tx_locked_true in E as (j & pc & Hj & Hc). destruct pc as [| | | | |code|]; try done.
  assert (forall f, flow_ok f -> nthZ (threads f) j = Some (InCallback None) ->
    do_step (LReturn j) f = Some (set_thread j AtLoop f) /\ tx_locked (set_thread j AtLoop f) = false) as Hret.
  { intros g Hg Hgj. split; [simpl; by rewrite Hgj|by eapply returned_free]. }
  destruct code as [pc|].
  - pose proof (Hp j pc Hj) as Hh.
    assert (exists g, do_step (LThread j) f = Some g /\ nthZ (threads g) j = Some (InCallback None) /\ apps g = apps f)
      as (g & Eg & Hgj & Ha).
    { cbn [do_step]. rewrite Hj. assert (0 <= j < lenZ (threads f)) as Hr by (apply nthZ_Some_iff; by eexists).
      destruct pc as [[]| | | | |]; try done; (eexists; split; [reflexivity|]; split; [|done]);
        simpl; by rewrite nthZ_setZ_eq. }
    destruct (Hret g) as [Er Ht]; [by eapply do_step_ok|done|].
    exists [LThread j; LReturn j], (set_thread j AtLoop g).
    split_and!; [|simpl; lia|by repeat constructor|done|exact Ha].
    unfold flow_exec. cbn [run_labels]. rewrite Eg. cbn. by rewrite Hgj.
  - destruct (Hret f Hf Hj) as [Er Ht]. exists [LReturn j], (set_thread j AtLoop f).
    split_and!; [|simpl; lia|by repeat constructor|done|done].
    unfold flow_exec. cbn [run_labels]. by rewrite Er.
Qed.

(** How many steps a call has left. *)
Definition steps_left (pc : call_pc) : nat :=
  match pc with Enter _ => 4 | StartSet _ => 3 | StartStore | StopTx => 2 | StartSpawn | StopQueue => 1 end.
Lemma call_progress pc f : exists r f', call_step pc f = Done r f' /\
  forall pc', r = inl pc' -> (steps_left pc' < steps_left pc)%nat.
Proof.
  destruct pc as [[cb| |payload|]|cb| | | |]; eexists _, _; (split; [reflexivity|]); intros pc';
    [destruct (RUNNING f)|..]; first [done | intros [= <-]; simpl; lia].
Qed.

Lemma finish_call n : forall f i pc,
  (steps_left pc <= n)%nat -> tx_locked f = false -> apps f !! i = Some (Calling pc) ->
  exists ls f' code, flow_exec ls f f' /\ (length ls <= n)%nat /\ Forall (only_finishes i) ls /\
    apps f' !! i = Some (Idle (Some code)) /\ (code = 0 \/ code = 1).
Proof.
  induction n as [|n IH]; intros f i pc Hn Hf Hi; [destruct pc; simpl in Hn; lia|].
  destruct (call_progress pc f) as (r & f1 & Ec & Hless).
  destruct (call_step_eval pc f) as (r' & f1' & Ec' & _ & _ & Ha & Hcode & Ht). rewrite Ec in Ec'. injection Ec' as <- <-.
  assert (do_step (LApp i) f = Some (set_app i (after_step r) f1)) as Es.
  { simpl. rewrite Hi. destruct (call_blocked pc f) eqn:Eb; [|by rewrite Ec].
    unfold call_blocked in Eb. rewrite Hf in Eb. by destruct pc. }
  assert (apps (set_app i (after_step r) f1) !! i = Some (after_step r)) as Ei.
  { simpl. rewrite list_lookup_insert_eq; [done|]. rewrite Ha. by eapply lookup_lt_Some. }
  assert (tx_locked (set_app i (after_step r) f1) = false) as Ef.
  { unfold tx_locked in *. simpl. destruct Ht as [->|[_ ->]]; [done|]. by rewrite existsb_app, Hf. }
  destruct r as [pc'|code].
  - destruct (IH (set_app i (after_step (inl pc')) f1) i pc') as (ls & f' & code & He & Hl & Ho & Hd & Hc); [specialize (Hless pc' eq_refl); lia|exact Ef|exact Ei|].
    exists (LApp i :: ls), f', code. split_and!; [|simpl; lia|by constructor|done|done].
    unfold flow_exec. cbn [run_labels]. by rewrite Es.
  - exists [LApp i], (set_app i (after_step (inr code)) f1), code.
    split_and!; [|simpl; lia|by repeat constructor|exact Ei|by apply Hcode].
    unfold flow_exec. cbn [run_labels]. by rewrite Es.
Qed.

(** [C16] The calls of the engine return: as long as no callback starts or stops the engine, then
    wherever an execution has got to, a thread of the application that is inside a call can
    finish it, with code 0 or 1, after at most two steps of timer threads (the callback that
    holds the mutex of [tx_callback] finishes its call and returns) and four steps of its
    own.  No time need pass, no other call need be made and no other thread of the
    application need move: start, stop and the queue wait for a callback at most. *)
Theorem flow_calls_return n t r ls f i pc :
  flow_exec ls (flow_init n t r) f -> Forall polite ls -> apps f !! i = Some (Calling pc) ->
  exists ls' f' code, flow_exec ls' f f' /\ (length ls' <= 6)%nat /\ Forall (only_finishes i) ls' /\
    apps f' !! i = Some (Idle (Some code)) /\ (code = 0 \/ code = 1).
Proof.
  intros He Hls Hi. assert (flow_ok f) as Hf by (eapply flow_exec_ok, flow_init_ok; exact He).
  assert (polite_state f) as Hp.
  { eapply (exec_invariant polite_state polite); [exact polite_step|exact He|exact Hls|].
    intros j p. simpl. unfold nthZ. by destruct (j <? 0). }
  destruct (release_tx f i Hf Hp) as (ls1 & f1 & E1 & L1 & O1 & T1 & A1).
  destruct (finish_call 4 f1 i pc) as (ls2 & f2 & code & E2 & L2 & O2 & Hd & Hc);
    [destruct pc; simpl; lia|done|by rewrite A1|].
  exists (ls1 ++ ls2), f2, code. split_and!; [by eapply exec_app| |by apply Forall_app|done|done].
  rewrite length_app. lia.
Qed.

(** ** A callback that stops the engine *)

(** The step [pc] of a call locks [tx_callback]. *)
Definition needs_tx (pc : call_pc) : Prop := match pc with StartSet _ | StopTx => True | _ => False end.
Definition self_blocked (j : Z) (pc : call_pc) (f : flow) : Prop :=
  nthZ (threads f) j = Some (InCallback (Some pc)) /\ needs_tx pc.

Lemma self_blocked_locked j pc f : self_blocked j pc f -> tx_locked f = true.
Proof. intros [Hj _]. apply tx_locked_true. eauto. Qed.
Lemma self_blocked_set j pc f i pc' :
  self_blocked j pc f -> 0 <= i -> i <> j -> self_blocked j pc (set_thread i pc' f).
Proof. intros [Hj Hn] Hi Hij. split; [|done]. simpl. by rewrite nthZ_setZ_ne. Qed.
Lemma self_blocked_call j pc f pc2 r f' :
  call_step pc2 f = Done r f' -> self_blocked j pc f -> self_blocked j pc f' /\ sent f' = sent f /\ apps f' = apps f.
Proof.
  intros E [Hj Hn]. destruct (call_step_eval pc2 f) as (r' & f2 & E' & Hs & _ & Ha & _ & Ht).
  rewrite E' in E. injection E as <- <-. split; [|done]. split; [|done].
  destruct Ht as [->|[_ ->]]; [done|by apply nthZ_prefix].
Qed.

(** Nothing is sent any more, and every call that needs the mutex stays where it is. *)
Lemma self_blocked_step j pc l f f' :
  do_step l f = Some f' -> self_blocked j pc f ->
  self_blocked j pc f' /\ sent f' = sent f /\
  forall i p, needs_tx p -> apps f !! i = Some (Calling p) -> apps f' !! i = Some (Calling p).
Proof.
  intros E Hs. pose proof (self_blocked_locked _ _ _ Hs) as Hlk. pose proof Hs as [Hj Hn].
  assert (forall p, needs_tx p -> call_blocked p f = true) as Hb by (by intros []).
  assert (forall i k a x p, apps f !! k = Some x -> (forall q, x = Calling q -> ~ needs_tx q) -> needs_tx p ->
    apps f !! i = Some (Calling p) -> <[k := a]> (apps f) !! i = Some (Calling p)) as Hins.
  { intros i k a x p Hk Hx Hp Hi. rewrite list_lookup_insert_ne; [done|]. intros ->. rewrite Hi in Hk.
    injection Hk as <-. by destruct (Hx p). }
  destruct l as [i c|i|t|i|i c|i]; simpl in E.
  - destruct (apps f !! i) as [[code|q]|] eqn:Ei; simplify_eq. split; [done|]. split; [done|].
    intros k p Hp Hk. by eapply Hins.
  - destruct (apps f !! i) as [[code|q]|] eqn:Ei; simplify_eq. destruct (call_blocked q f) eqn:Eb; [done|].
    destruct (call_step q f) as [r f1| |] eqn:Ec; simplify_eq.
    destruct (self_blocked_call _ _ _ _ _ _ Ec Hs) as (? & ? & Ha). split; [done|]. split; [done|].
    intros k p Hp Hk. simpl. rewrite Ha. eapply Hins; [done| |done|done]. intros q' [= <-] Hq. by rewrite Hb in Eb.
  - destruct (Z.leb_spec (flow_now f) t); by simplify_eq.
  - destruct (nthZ (threads f) i) as [q|] eqn:Hi; [|done]. destruct (thread_blocked q f) eqn:Eb; [done|].
    assert (0 <= i < lenZ (threads f)) as Hr by (apply nthZ_Some_iff; by eexists).
    assert (i <> j) as Hij. { intros ->. rewrite Hj in Hi. injection Hi as <-. simpl in Eb. by rewrite Hb in Eb. }
    destruct q as [|until| | |packet|[q|]|]; simpl in E, Eb.
    1-3,7,8: unfold mbind, M_bind, gets, mret, M_ret in E; injection E as <-; (split; [apply self_blocked_set; [done|lia|done]|done]).
    + destruct (build_packet_eval f) as (pkt & r & Ep & _). rewrite (bind_done _ _ _ _ _ Ep) in E.
      injection E as <-. split; [|done]. apply self_blocked_set; [done|lia|done].
    + congruence.
    + destruct (call_step q f) as [r f1| |] eqn:Ec; [|unfold mbind, M_bind in E; by rewrite Ec in E..].
      rewrite (bind_done _ _ _ _ _ Ec) in E. injection E as <-.
      destruct (self_blocked_call _ _ _ _ _ _ Ec Hs) as (? & ? & Ha). split; [apply self_blocked_set; [done|lia|done]|].
      split; [done|]. simpl. by rewrite Ha.
  - destruct (nthZ (threads f) i) as [[| | | | |[q|]|]|] eqn:Hi; simplify_eq. split; [|done].
    apply self_blocked_set; [done| |congruence]. apply (nthZ_Some_iff (threads f)). by eexists.
  - destruct (nthZ (threads f) i) as [[| | | | |[q|]|]|] eqn:Hi; simplify_eq. split; [|done].
    apply self_blocked_set; [done| |congruence]. apply (nthZ_Some_iff (threads f)). by eexists.
Qed.

Lemma self_blocked_exec j pc ls f f' :
  flow_exec ls f f' -> self_blocked j pc f ->
  self_blocked j pc f' /\ sent f' = sent f /\
  forall i p, needs_tx p -> apps f !! i = Some (Calling p) -> apps f' !! i = Some (Calling p).
Proof.
  intros He Hs.
  refine (exec_invariant (fun g => self_blocked j pc g /\ sent g = sent f /\
    forall i p, needs_tx p -> apps f !! i = Some (Calling p) -> apps g !! i = Some (Calling p))
    (fun _ => True) ls f f' _ He _ _); [|by apply Forall_true|done].
  intros l g g' _ Eg (H1 & H2 & H3). destruct (self_blocked_step _ _ _ _ _ Eg H1) as (G1 & G2 & G3).
  split; [done|]. split; [congruence|]. auto.
Qed.

(** Thread [i] of the application makes the whole call [c], of [k] steps. *)
Definition whole_call (i : nat) (c : flow_call) (k : nat) : list label := LCall i c :: replicate k (LApp i).

(** Start, one interval, and the callback for the first packet stops the engine, as does the
    application. *)
Definition callback_trace (cb : Z) : list label :=
  whole_call 0 (CStart cb) 4 ++ [LThread 0; LTime 5; LThread 0; LThread 0; LThread 0; LThread 0;
    LCallback 0 CStop; LThread 0; LCall 0 CStop; LApp 0].

(** A callback that calls [stop_constant_flow] never returns: its thread waits for the mutex of
    [tx_callback], which it holds itself.  From then on nothing is sent in any continuation,
    and a [stop_constant_flow] of the application never returns either. *)
Theorem callback_stop_deadlocks r cb :
  exists f, flow_exec (callback_trace cb) (flow_init 1 0 r) f /\ lenZ (sent f) = 1 /\
    forall ls f', flow_exec ls f f' ->
      nthZ (threads f') 0 = Some (InCallback (Some StopTx)) /\ sent f' = sent f /\
      apps f' !! 0%nat = Some (Calling StopTx).
Proof.
  eexists. split; [unfold flow_exec; cbv -[fill_bytes Z.sub]; reflexivity|]. split; [reflexivity|].
  intros ls f' He. destruct (self_blocked_exec 0 StopTx _ _ _ He) as ([H1 _] & H2 & H3); [done|].
  split_and!; [done|done|]. by apply H3.
Qed.

(** * Starting and stopping *)

(** [pc] is a step of some call in progress. *)
Definition in_progress (f : flow) (pc : call_pc) : Prop :=
  (exists i, apps f !! i = Some (Calling pc)) \/ exists i, nthZ (threads f) i = Some (InCallback (Some pc)).

(** The engine has no callback, and no call in progress will set it; with [up] the engine is
    up, and what begins are starts, without it what begins are stops. *)
Definition harmless_call (up : bool) (c : flow_call) : Prop :=
  match c with CStart _ => up = true | CStop => up = false | _ => True end.
Definition silent_pc (up : bool) (pc : call_pc) : Prop :=
  match pc with Enter c => harmless_call up c | StartSet _ => False | _ => True end.
Record silent (up : bool) (f : flow) : Prop := {
  silent_callback : tx_callback f = None;
  silent_up : up = true -> RUNNING f = true;
  silent_calls pc : in_progress f pc -> silent_pc up pc;
}.
Definition silent_label (up : bool) (l : label) : Prop :=
  match l with LCall _ c | LCallback _ c => harmless_call up c | _ => True end.

Lemma in_progress_app f i a pc : in_progress (set_app i a f) pc -> a = Calling pc \/ in_progress f pc.
Proof.
  intros [[k Hk]|Hk]; [|right; by right]. simpl in Hk. apply list_lookup_insert_Some in Hk as [(_ & -> & _)|[_ Hk]]; [by left|].
  right. left. eauto.
Qed.
Lemma in_progress_thread f i p pc : 0 <= i < lenZ (threads f) ->
  in_progress (set_thread i p f) pc -> p = InCallback (Some pc) \/ in_progress f pc.
Proof.
  intros Hi [Hk|[k Hk]]; [right; by left|]. simpl in Hk. destruct (decide (i = k)) as [<-|].
  - rewrite nthZ_setZ_eq in Hk by done. injection Hk as ->. by left.
  - rewrite nthZ_setZ_ne in Hk by lia. right. right. eauto.
Qed.

(** A step of a call in progress. *)
Lemma silent_call up pc f :
  silent up f -> silent_pc up pc ->
  exists r f', call_step pc f = Done r f' /\ silent up f' /\ sent f' = sent f /\
    forall pc', r = inl pc' -> silent_pc up pc'.
Proof.
  intros Hs Hpc. destruct (call_step_eval pc f) as (r & f' & E & Hsent & _ & Ha & _ & Ht). exists r, f'.
  assert (forall p, in_progress f' p -> in_progress f p) as Hin.
  { intros p [[k Hk]|[k Hk]]; [left; rewrite Ha in Hk; eauto|]. right. destruct Ht as [Ht|[_ Ht]]; rewrite Ht in Hk; [eauto|].
    apply nthZ_snoc in Hk as [?|[_ [=]]]. eauto. }
  split; [done|]. split; [|split; [done|]].
  - destruct Hs as [H1 H2 H3]. split; [| |intros p Hp; by apply H3, Hin];
      destruct pc as [[cb| |payload|]|cb| | | |]; simpl in Hpc; try done; injection E as <- <-; try done.
    by subst up.
  - destruct Hs as [H1 H2 H3]. destruct pc as [[cb| |payload|]|cb| | | |]; simpl in Hpc; try done;
      injection E as <- <-; intros pc'; try (by intros [= <-]). by rewrite (H2 Hpc).
Qed.

Lemma silent_step up l f f' :
  silent_label up l -> do_step l f = Some f' -> silent up f -> silent up f' /\ sent f' = sent f.
Proof.
  intros Hl E Hs. assert (forall g, (forall pc, in_progress g pc -> silent_pc up pc) -> tx_callback g = tx_callback f ->
    RUNNING g = RUNNING f -> silent up g) as Hext.
  { intros g H3 H1 H2. destruct Hs as [G1 G2 _]. split; [congruence|by rewrite H2|done]. }
  destruct l as [i c|i|t|i|i c|i]; simpl in E.
  - destruct (apps f !! i) as [[code|q]|] eqn:Ei; simplify_eq. split; [|done]. apply Hext; [|done..].
    intros pc [[= <-]|H]%in_progress_app; [done|by apply Hs].
  - destruct (apps f !! i) as [[code|q]|] eqn:Ei; simplify_eq. destruct (call_blocked q f); [done|].
    destruct (silent_call up q f Hs) as (r & f1 & Ec & H1 & H2 & H3); [apply Hs; left; eauto|]. rewrite Ec in E. simplify_eq.
    split; [|done]. destruct H1 as [G1 G2 G3]. split; [done|done|].
    intros pc [Hr|H]%in_progress_app; [|by apply G3]. destruct r; simplify_eq/=. by apply H3.
  - destruct (Z.leb_spec (flow_now f) t); simplify_eq. split; [|done]. by apply Hext; [apply Hs|..].
  - destruct (nthZ (threads f) i) as [q|] eqn:Hi; [|done]. destruct (thread_blocked q f) eqn:Eb; [done|].
    assert (0 <= i < lenZ (threads f)) as Hr by (apply nthZ_Some_iff; by eexists).
    assert (forall g p, threads g = threads f -> apps g = apps f -> tx_callback g = tx_callback f -> RUNNING g = RUNNING f ->
      (forall pc, p = InCallback (Some pc) -> False) -> silent up (set_thread i p g)) as Hmove.
    { intros g p Et Ea Ec Er Hp. apply Hext; [|done..]. intros pc Hpc.
      apply in_progress_thread in Hpc as [->|Hpc]; [by destruct (Hp pc)| |by rewrite Et].
      apply Hs. unfold in_progress in *. by rewrite Et, Ea in Hpc. }
    destruct q as [|until| | |packet|[q|]|]; simpl in E.
    1-3,7,8: unfold mbind, M_bind, gets, mret, M_ret in E; injection E as <-; (split; [|done]); apply Hmove; try done;
      intros pc; repeat case_match; done.
    + destruct (build_packet_eval f) as (pkt & r & Ep & _). rewrite (bind_done _ _ _ _ _ Ep) in E.
      injection E as <-. split; [|done]. by apply Hmove.
    + unfold mbind, M_bind, gets in E. rewrite (silent_callback _ _ Hs) in E. injection E as <-. split; [|done]. by apply Hmove.
    + destruct (silent_call up q f Hs) as (r & f1 & Ec & H1 & H2 & H3); [apply Hs; right; eauto|].
      rewrite (bind_done _ _ _ _ _ Ec) in E. injection E as <-. split; [|done]. destruct H1 as [G1 G2 G3]. split; [done|done|].
      destruct (call_step_eval q f) as (r' & f2 & Ec' & _ & _ & _ & _ & Ht). rewrite Ec in Ec'. injection Ec' as <- <-.
      intros pc [Hp|H]%in_progress_thread; [destruct r; simplify_eq/=; by apply H3|by apply G3|].
      destruct Ht as [->|[_ ->]]; [done|]. rewrite lenZ_app. len_lia.
  - destruct (nthZ (threads f) i) as [[| | | | |[q|]|]|] eqn:Hi; simplify_eq. split; [|done]. apply Hext; [|done..].
    intros pc [[= <-]|H]%in_progress_thread; [done|by apply Hs|apply nthZ_Some_iff; by eexists].
  - destruct (nthZ (threads f) i) as [[| | | | |[q|]|]|] eqn:Hi; simplify_eq. split; [|done]. apply Hext; [|done..].
    intros pc [[=]|H]%in_progress_thread; [by apply Hs|apply nthZ_Some_iff; by eexists].
Qed.

Lemma silent_exec up ls f f' :
  flow_exec ls f f' -> Forall (silent_label up) ls -> silent up f -> silent up f' /\ sent f' = sent f.
Proof.
  intros He Hl Hs.
  refine (exec_invariant (fun g => silent up g /\ sent g = sent f) (silent_label up) ls f f' _ He Hl _); [|done].
  intros l g g' Hg Eg [H1 H2]. destruct (silent_step up l g g' Hg Eg H1) as [G1 G2]. split; [done|congruence].
Qed.

(** Stop is immediate: once [stop_constant_flow] has cleared the callback, with no start in
    progress, nothing is sent until a start begins, not even by a timer thread that had
    already built its packet. *)
Theorem stop_silences f f1 r ls f2 :
  call_step StopTx f = Done r f1 -> (forall pc, in_progress f pc -> silent_pc false pc) ->
  flow_exec ls f1 f2 -> Forall (silent_label false) ls -> sent f2 = sent f1.
Proof. intros E Hp He Hl. injection E as <- <-. by apply (silent_exec false ls _ _ He Hl). Qed.

(** Start, let the thread fall asleep, stop, start again, wait, let both threads send. *)
Definition restart_trace (cb : Z) : list label :=
  whole_call 0 (CStart cb) 4 ++ [LThread 0] ++ whole_call 0 CStop 3 ++ whole_call 0 (CStart cb) 4 ++
  [LThread 1; LTime 5; LThread 0; LThread 0; LThread 0; LThread 0; LReturn 0; LThread 1; LThread 1; LThread 1; LThread 1].

(** Stopping and restarting within an interval leaves two timer threads running: a
    thread that sleeps through the stop finds [RUNNING] set again, so the guard against
    concurrent threads fails and two packets leave in the same five seconds. *)
Theorem restart_duplicates r cb :
  exists f p q, flow_exec (restart_trace cb) (flow_init 1 0 r) f /\ live_threads f = 2 /\
    RUNNING f = true /\ sent f = [p; q] /\ by_thread p <> by_thread q /\ at_time p = at_time q.
Proof.
  eexists _, _, _. split; [unfold flow_exec; cbv -[fill_bytes Z.sub]; reflexivity|].
  split_and!; try reflexivity. discriminate.
Qed.

(** Two threads that start the engine at the same time both find it stopped: both calls
    return 0 and two timer threads run. *)
Theorem starts_duplicate r cb cb' :
  exists f, flow_exec ([LCall 0 (CStart cb); LCall 1 (CStart cb'); LApp 0; LApp 1] ++
      replicate 3 (LApp 0) ++ replicate 3 (LApp 1)) (flow_init 2 0 r) f /\
    apps f = [Idle (Some 0); Idle (Some 0)] /\ live_threads f = 2.
Proof. eexists. split; [unfold flow_exec; cbv; reflexivity|]. by split. Qed.

(** A stop that runs inside a start leaves the engine up without a callback: start returns 0,
    later starts find it running and return 1, and nothing is sent until it is stopped. *)
Theorem start_lost r cb :
  exists f, flow_exec ([LCall 0 (CStart cb); LApp 0; LApp 0] ++ whole_call 1 CStop 3 ++ [LApp 0; LApp 0])
      (flow_init 2 0 r) f /\
    apps f = [Idle (Some 0); Idle (Some 0)] /\ RUNNING f = true /\ live_threads f = 1 /\
    forall ls f', flow_exec ls f f' -> Forall (silent_label true) ls -> sent f' = [].
Proof.
  eexists. split; [unfold flow_exec; cbv; reflexivity|]. split_and!; [done|done|done|].
  intros ls f' He Hl. apply (silent_exec true ls _ _ He Hl). split; [done|done|].
  intros pc [[[|[|i]] [=]]|[i Hi]]. unfold nthZ in Hi. destruct (i <? 0); [done|]. simpl in Hi.
  apply list_lookup_singleton_Some in Hi as [_ [=]].
Qed.
End flow.

Lemma packets_constant_witness :
  exists f, flow_exec (HP := toy) (restart_trace 7) (flow_init (HP := toy) 1 0 3) f /\
    Forall (fun p => lenZ (content p) = PACKET_SIZE) (sent f) /\ spaced (sent f).
Proof.
  destruct (run_labels (HP := toy) (restart_trace 7) (flow_init (HP := toy) 1 0 3)) as [f|] eqn:E; [|discriminate].
  exists f. split; [exact E|].
  destruct (packets_constant (HP := toy) 1 0 3 (restart_trace 7) f E) as (H1 & H2 & _). exact (conj H1 H2).
Defined.

(** A stop that waits while the first packet is in its callback. *)
Definition waiting_trace : list label :=
  whole_call 0 (CStart 7) 4 ++ [LThread 0; LTime 5; LThread 0; LThread 0; LThread 0; LThread 0;
    LCallback 0 CNoise; LCall 0 CStop; LApp 0].
Lemma flow_calls_return_witness :
  exists f, flow_exec (HP := toy) waiting_trace (flow_init (HP := toy) 1 0 3) f /\
    do_step (LApp 0) f = None /\
    exists ls' f' code, flow_exec ls' f f' /\ (length ls' <= 6)%nat /\ Forall (only_finishes 0) ls' /\
      apps f' !! 0%nat = Some (Idle (Some code)) /\ (code = 0 \/ code = 1).
Proof.
  destruct (run_labels (HP := toy) waiting_trace (flow_init (HP := toy) 1 0 3)) as [f|] eqn:E; [|discriminate].
  exists f. split; [exact E|].
  assert (do_step (LApp 0) f = None /\ apps f !! 0%nat = Some (Calling StopTx)) as [Hb Hi].
  { assert ((fun g => (bool_decide (is_Some (do_step (LApp 0) g)), apps g !! 0%nat)) <$>
      run_labels (HP := toy) waiting_trace (flow_init (HP := toy) 1 0 3) = Some (false, Some (Calling StopTx))) as H
      by (vm_compute; reflexivity).
    rewrite E in H. injection H as Hn Ha. split; [|exact Ha]. apply eq_None_not_Some. by apply bool_decide_eq_false in Hn. }
  split; [exact Hb|].
  apply (flow_calls_return (HP := toy) 1 0 3 waiting_trace f 0 StopTx E); [by repeat constructor|exact Hi].
Defined.

Lemma stop_silences_witness :
  let f := flow_init (HP := toy) 1 0 3 in
  exists r f1, call_step StopTx f = Done r f1 /\ sent (with_now 9 f1) = sent f1.
Proof.
  eexists _, _. split; [reflexivity|].
  eapply (stop_silences (HP := toy) (flow_init (HP := toy) 1 0 3) _ _ [LTime 9]); [reflexivity| |reflexivity|by repeat constructor].
  intros pc [[[|i] [=]]|[i Hi]]. unfold nthZ in Hi. simpl in Hi. by destruct (i <? 0).
Defined.
