(* ===== verification/Ffi.v ===== *)
(** [lib.rs], the exported functions besides the vault and the trust root.

    Pointer arguments are as in [Kernel]; [out_len] and [did_commit] say whether the caller
    passed a pointer there, and are returned as what is stored through it.  A returned
    pointer is [native]: null, a fresh buffer, or the undefined behaviour of a copy that
    runs past its allocation.  Whether the allocator has memory is the argument
    [alloc_ok]. *)
From S2P Require Import Prelude Effects Crypto MemoryProtection RootState AntiDos TailPadding MessageCipher Evolution StdFs VirtualVolume ClockAlign ConstantFlow Kernel.

(** * Native buffers *)

Inductive native := Null | Buffer (b : bytes) | Overrun (allocated copied : Z).

(** A [usize] length passed as [u32]. *)
Definition as_u32 (n : Z) : Z := n mod 2 ^ 32.

Section ffi.
Context `{HP : Primitives} `{HB : BuildProfile}.
Context (alloc_ok : Z -> bool).

(** The size of the allocation, or null. *)
Definition allocate_native_buffer (size : Z) : option Z :=
  if size =? 0 then None else if alloc_ok size then Some size else None.

(** What the memory holds when it goes back to the allocator. *)
Definition release_native_buffer (buf : option bytes) : option bytes :=
  match buf with
  | Some b => if lenZ b =? 0 then None else Some (repZ (lenZ b) 0)
  | None => None
  end.

(** [allocate_native_buffer(v.len() as u32)] and the copy of [v.len()] bytes. *)
Definition to_native (v : bytes) : native :=
  match allocate_native_buffer (as_u32 (lenZ v)) with
  | None => Null
  | Some size => if lenZ v <=? size then Buffer v else Overrun size (lenZ v)
  end.

(** [*out_len = n] where the pointer is not null. *)
Definition store (out_len : bool) (n : Z) : option Z := if out_len then Some n else None.

(** * Messages *)

Definition get_epoch_id : M kernel Z := zoom kroot_lens read_epoch_id.
Definition msg_counter_next : M kernel Z := zoom kroot_lens next_msg_seq.
Definition msg_counter_current : M kernel Z := zoom kroot_lens current_msg_seq.

Definition ffi_derive_message_key (epoch msg_seq : Z) : M kernel native :=
  key ← zoom kroot_lens (derive_message_key epoch msg_seq);
  mret (match allocate_native_buffer 32 with None => Null | Some _ => Buffer key end).

Definition encrypt_message (pt key stamp : option bytes) (outgoing epoch msg_seq timestamp : Z)
    (out_len : bool) : option Z * native :=
  match pt, key, stamp, out_len with
  | Some pt, Some key, Some stamp, true =>
      if lenZ pt =? 0 then (Some 0, Null)
      else match encrypt pt (takeZ 32 key) (takeZ 32 stamp) (negb (outgoing =? 0)) epoch msg_seq timestamp with
      | Some ct => (Some (as_u32 (lenZ ct)), to_native ct)
      | None => (Some 0, Null)
      end
  | _, _, _, _ => (store out_len 0, Null)
  end.

Definition decrypt_message (ct key stamp : option bytes) (outgoing epoch msg_seq timestamp : Z)
    (out_len : bool) : option Z * native :=
  match ct, key, stamp, out_len with
  | Some ct, Some key, Some stamp, true =>
      if lenZ ct =? 0 then (Some 0, Null)
      else match decrypt ct (takeZ 32 key) (takeZ 32 stamp) (negb (outgoing =? 0)) epoch msg_seq timestamp with
      | Some pt => (Some (as_u32 (lenZ pt)), to_native pt)
      | None => (Some 0, Null)
      end
  | _, _, _, _ => (store out_len 0, Null)
  end.

(** The stores through [out_len] and [did_commit], and the pointer. *)
Definition decrypt_with_auto_commit (ct stamp : option bytes) (outgoing epoch msg_seq timestamp : Z)
    (out_len did_commit : bool) : M kernel (option Z * option Z * native) :=
  match ct, stamp, out_len with
  | Some ct, Some stamp, true =>
      if lenZ ct =? 0 then mret (Some 0, store did_commit 0, Null)
      else
        r ← zoom kroot_lens (try_decrypt_with_evolution ct (takeZ 32 stamp) (negb (outgoing =? 0))
              epoch msg_seq timestamp);
        mret (match r with
          | Some (pt, committed) =>
              (Some (as_u32 (lenZ pt)), store did_commit (if (committed : bool) then 1 else 0), to_native pt)
          | None => (Some 0, store did_commit 0, Null)
          end)
  | _, _, _ => mret (store out_len 0, store did_commit 0, Null)
  end.

(** The memory after the call, and the code. *)
Definition zeroize_key (mem : option bytes) : Z * option bytes := (0, zeroize_slice mem).

(** * Padding *)

Definition krng_lens : lens rng kernel := Lens k_rng with_k_rng.

Definition ffi_add_tail_padding (data : option bytes) (out_len : bool) : M kernel (option Z * native) :=
  match data, out_len with
  | Some d, true =>
      if lenZ d =? 0 then mret (Some 0, Null)
      else
        padded ← zoom krng_lens (add_tail_padding d);
        mret (Some (as_u32 (lenZ padded)), to_native padded)
  | _, _ => mret (store out_len 0, Null)
  end.

Definition ffi_strip_tail_padding (data : option bytes) (out_len : bool) : M kernel (option Z * native) :=
  match data, out_len with
  | Some d, true =>
      if lenZ d =? 0 then mret (Some 0, Null)
      else
        r ← strip_tail_padding d;
        mret (match r with
          | Some pl => (Some (as_u32 (lenZ pl)), to_native pl)
          | None => (Some 0, Null)
          end)
  | _, _ => mret (store out_len 0, Null)
  end.

(** * Evolution *)

Definition ML_KEM_PK_LEN : Z := 1568.
Definition ML_KEM_SK_LEN : Z := 3168.

(** The code and the two caller buffers. *)
Definition evolution_generate_bob_keypair (out_pk out_sk : option bytes) : M kernel (Z * option bytes * option bytes) :=
  match out_pk, out_sk with
  | Some opk, Some osk =>
      if (lenZ opk <? ML_KEM_PK_LEN) || (lenZ osk <? ML_KEM_SK_LEN) then mret (1, out_pk, out_sk)
      else
        r ← zoom evo_lens (generate_bob_keypair (repZ ML_KEM_PK_LEN 0) (repZ ML_KEM_SK_LEN 0));
        let '(code, pk, sk) := r in
        if code =? 0 then mret (0, Some (splice 0 pk opk), Some (splice 0 sk osk))
        else mret (code, out_pk, out_sk)
  | _, _ => mret (1, out_pk, out_sk)
  end.
Definition evolution_set_peer_public_key (pk : option bytes) : M kernel Z :=
  match pk with
  | Some pk => if lenZ pk =? 0 then mret 1 else zoom evo_lens (set_peer_public_key pk);; mret 0
  | None => mret 1
  end.
Definition ffi_start_evolution : M kernel Z := zoom evo_lens start_evolution.
Definition ffi_kem_cipher_len : M kernel Z := n ← zoom evo_lens kem_cipher_len; mret (as_u32 n).
(** The number of bytes, or 1 for "none", and the caller's buffer. *)
Definition ffi_get_kem_cipher (out : option bytes) : M kernel (Z * option bytes) :=
  match out with
  | Some o =>
      if lenZ o =? 0 then mret (1, out)
      else
        r ← zoom evo_lens (get_kem_cipher (repZ (lenZ o) 0));
        let '(n, buf) := r in
        if n =? 0 then mret (1, out) else mret (as_u32 n, Some (splice 0 (takeZ n buf) o))
  | None => mret (1, out)
  end.
Definition ffi_apply_peer_kem (ct : option bytes) : M kernel Z :=
  match ct with
  | Some ct => if lenZ ct =? 0 then mret 1 else zoom evo_lens (apply_peer_kem ct)
  | None => mret 1
  end.
Definition ffi_commit_evolution : M kernel Z := zoom evo_lens Evolution.commit_evolution.
Definition ffi_recover_after_loss (target_epoch : Z) : M kernel Z := zoom kroot_lens (recover_after_loss target_epoch).

(** * Cover traffic and clock *)

(** The code, the stored length and the caller's buffer; the statics of the engine are
    [ConstantFlow.flow]. *)
Definition ffi_build_noise_packet (out : option bytes) (out_len : bool) : M flow (Z * option Z * option bytes) :=
  match out, out_len with
  | Some o, true => pkt ← build_noise_packet; mret (0, Some (lenZ pkt), Some (splice 0 pkt o))
  | _, _ => mret (1, None, out)
  end.
Definition ffi_start_constant_flow (cb : option Z) : M flow Z :=
  match cb with Some cb => start_constant_flow cb | None => mret 1 end.
Definition ffi_stop_constant_flow : M flow Z := stop_constant_flow.

Definition ffi_init_clock_align : M kernel unit := zoom clock_lens clock_align_init.
Definition estimated_clock_skew : M kernel Z := zoom clock_lens skew.
End ffi.

(** * Properties *)

Section ffi_proofs.
Context `{HP : Primitives} `{HB : BuildProfile} `{!PrimitivesOk HP}.
Context (alloc_ok : Z -> bool).

Lemma to_native_ok v :
  0 < lenZ v < 2 ^ 32 -> alloc_ok (lenZ v) = true -> to_native alloc_ok v = Buffer v.
Proof.
  intros Hv Ha. unfold to_native, allocate_native_buffer, as_u32. rewrite Z.mod_small by lia.
  destruct (Z.eqb_spec (lenZ v) 0); [lia|]. rewrite Ha. destruct (Z.leb_spec (lenZ v) (lenZ v)); [done|lia].
Qed.

(** [C38] Message round trip across the boundary: for a non-empty plaintext whose sealed
    form fits a [u32] length, and memory to allocate, [encrypt_message] returns a buffer
    and its exact length, and [decrypt_message] of that buffer with the same key, stamp and
    metadata returns exactly the plaintext and its length. *)
Theorem ffi_message_roundtrip pt key stamp o e q t :
  0 < lenZ pt < 2 ^ 32 - 28 -> 32 <= lenZ key -> 32 <= lenZ stamp -> (forall n, alloc_ok n = true) ->
  exists wire,
    encrypt_message alloc_ok (Some pt) (Some key) (Some stamp) o e q t true = (Some (lenZ pt + 28), Buffer wire) /\
    lenZ wire = lenZ pt + 28 /\
    decrypt_message alloc_ok (Some wire) (Some key) (Some stamp) o e q t true = (Some (lenZ pt), Buffer pt).
Proof.
  intros Hp Hk Hs Ha. set (k := takeZ 32 key). set (st := takeZ 32 stamp). set (out := negb (o =? 0)).
  destruct (encrypt_eval pt k st out e q t) as (ct & E & Ee & Hl);
    [unfold k; len_lia|unfold st; len_lia|lia|].
  pose proof (build_nonce_len e t q) as Hn. set (wire := build_nonce e t q ++ ct) in *.
  assert (lenZ wire = lenZ pt + 28) as Hw by (unfold wire; rewrite lenZ_app; lia).
  exists wire. split_and!; [|done|].
  - unfold encrypt_message. destruct (Z.eqb_spec (lenZ pt) 0); [lia|]. fold k st out. rewrite Ee.
    rewrite to_native_ok by (done || lia). unfold as_u32. rewrite Z.mod_small by lia. by rewrite Hw.
  - unfold decrypt_message. destruct (Z.eqb_spec (lenZ wire) 0); [lia|]. fold k st out. unfold wire.
    rewrite (decrypt_sealed _ _ pt) by done. rewrite to_native_ok by (done || lia).
    unfold as_u32. by rewrite Z.mod_small by lia.
Qed.

(** [C39] A plaintext within 27 bytes of 4 GiB overruns the output buffer: the length of the
    sealed message is cut to 32 bits before the allocation, so [encrypt_message] allocates
    at most 27 bytes and copies more than 4 GiB into them. *)
Theorem encrypt_message_overrun pt key stamp o e q t :
  2 ^ 32 - 28 < lenZ pt < 2 ^ 32 -> 32 <= lenZ key -> 32 <= lenZ stamp -> (forall n, alloc_ok n = true) ->
  encrypt_message alloc_ok (Some pt) (Some key) (Some stamp) o e q t true =
    (Some (lenZ pt + 28 - 2 ^ 32), Overrun (lenZ pt + 28 - 2 ^ 32) (lenZ pt + 28)).
Proof.
  intros Hp Hk Hs Ha. unfold encrypt_message. destruct (Z.eqb_spec (lenZ pt) 0); [lia|].
  destruct (encrypt_eval pt (takeZ 32 key) (takeZ 32 stamp) (negb (o =? 0)) e q t) as (ct & _ & Ee & Hl); [len_lia..|lia|].
  rewrite Ee. pose proof (build_nonce_len e t q) as Hn. set (wire := build_nonce e t q ++ ct).
  assert (lenZ wire = lenZ pt + 28) as Hw by (unfold wire; rewrite lenZ_app; lia).
  assert (as_u32 (lenZ wire) = lenZ pt + 28 - 2 ^ 32) as Hu.
  { unfold as_u32. rewrite Hw. symmetry. apply (Z.mod_unique _ _ 1); lia. }
  unfold to_native, allocate_native_buffer. rewrite Hu, Hw, Ha.
  destruct (Z.eqb_spec (lenZ pt + 28 - 2 ^ 32) 0); [lia|].
  destruct (Z.leb_spec (lenZ pt + 28) (lenZ pt + 28 - 2 ^ 32)); [lia|done].
Qed.
End ffi_proofs.

Lemma ffi_message_roundtrip_witness :
  exists wire,
    encrypt_message (HP := toy) (fun _ => true) (Some [104; 105]) (Some (repZ 32 1)) (Some (repZ 32 2)) 1 3 4 5 true
      = (Some 30, Buffer wire) /\
    decrypt_message (HP := toy) (fun _ => true) (Some wire) (Some (repZ 32 1)) (Some (repZ 32 2)) 1 3 4 5 true
      = (Some 2, Buffer [104; 105]).
Proof.
  destruct (ffi_message_roundtrip (HP := toy) (fun _ => true) [104; 105] (repZ 32 1) (repZ 32 2) 1 3 4 5)
    as (wire & ? & _ & ?).
  - split; reflexivity.
  - discriminate.
  - discriminate.
  - reflexivity.
  - exists wire. auto.
Defined.

Lemma encrypt_message_overrun_witness :
  exists pt, lenZ pt = 2 ^ 32 - 8 /\
    encrypt_message (HP := toy) (fun _ => true) (Some pt) (Some (repZ 32 1)) (Some (repZ 32 2)) 1 3 4 5 true
      = (Some 20, Overrun 20 (2 ^ 32 + 20)).
Proof.
  exists (repZ (2 ^ 32 - 8) 0). assert (lenZ (repZ (2 ^ 32 - 8) 0) = 2 ^ 32 - 8) as Hl by (rewrite lenZ_repZ; lia).
  split; [exact Hl|].
  rewrite (encrypt_message_overrun (HP := toy) (fun _ => true) (repZ (2 ^ 32 - 8) 0) (repZ 32 1) (repZ 32 2) 1 3 4 5).
  - rewrite Hl. reflexivity.
  - rewrite Hl. lia.
  - discriminate.
  - discriminate.
  - reflexivity.
Defined.
