(* ===== verification/Exports.v ===== *)
(** The exported functions of [lib.rs] as one interface, and the kernel's type invariant.

    [call] lists the exported functions that read or change the statics (the cover-traffic
    engine, which has its own statics and threads, is in [ConstantFlow]; the two heap
    helpers touch no static).  [exec] runs one, [exec_all] a sequence.  [kernel_ok] is what
    the Rust types and the modules' own invariants promise of the statics; it holds when
    the process starts, every call keeps it, and under it no call panics. *)
From S2P Require Import Prelude Effects Crypto MemoryProtection RootState AntiDos TailPadding MessageCipher Evolution StdFs VolumeLayout VirtualVolume VolumeProofs VolumeTotal ClockAlign DiskWipe Kernel InitModule Ffi.

(** * Calls and replies *)

Inductive call :=
| InitVirtualVolume (path key : option bytes) (total : Z)
| ReadVaultBlocks (start n : Z) (out : option bytes)
| WriteVaultBlocks (start n : Z) (data : option bytes)
| AllocateVaultBlock
| FreeVaultBlock (idx : Z)
| SecureEraseBlock (idx : Z)
| RegisterTouchOffset (block offset : Z)
| VaultTotalBlocks
| VaultFreeBlocks
| ValidateCanarySlots
| CanarySlotsIntact
| InitCanarySlots
| PurgeVault (path : option bytes)
| InitRootState (a b pk : option bytes)
| GetEpochId
| GenerateIdStamp
| LoadIdStamp (out : option bytes)
| MsgCounterNext
| MsgCounterCurrent
| DeriveMessageKey (epoch msg_seq : Z)
| EncryptMessage (pt key stamp : option bytes) (outgoing epoch msg_seq timestamp : Z) (out_len : bool)
| DecryptMessage (ct key stamp : option bytes) (outgoing epoch msg_seq timestamp : Z) (out_len : bool)
| DecryptWithAutoCommit (ct stamp : option bytes) (outgoing epoch msg_seq timestamp : Z)
    (out_len did_commit : bool)
| ZeroizeKey (mem : option bytes)
| AddTailPadding (data : option bytes) (out_len : bool)
| StripTailPadding (data : option bytes) (out_len : bool)
| GenerateBobKeypair (out_pk out_sk : option bytes)
| SetPeerPublicKey (pk : option bytes)
| StartEvolution
| KemCipherLen
| GetKemCipher (out : option bytes)
| ApplyPeerKem (ct : option bytes)
| CommitEvolution
| RecoverAfterLoss (target_epoch : Z)
| InitClockAlign
| EstimatedClockSkew.

Inductive reply :=
| RNum (n : Z)
| RMem (n : Z) (mem : option bytes)
| RMems (n : Z) (mem1 mem2 : option bytes)
| RNative (len commit : option Z) (p : native)
| RUnit.

Section exec.
Context `{HP : Primitives} `{HB : BuildProfile}.
Context (alloc_ok : Z -> bool) (sigterm_handled : bool).

Definition num (m : M kernel Z) : M kernel reply := n ← m; mret (RNum n).

Definition exec (c : call) : M kernel reply :=
  match c with
  | InitVirtualVolume path key total => num (init_virtual_volume path key total)
  | ReadVaultBlocks start n out => r ← read_vault_blocks start n out; mret (RMem r.1 r.2)
  | WriteVaultBlocks start n data => num (write_vault_blocks start n data)
  | AllocateVaultBlock => num allocate_vault_block
  | FreeVaultBlock idx => num (free_vault_block idx)
  | SecureEraseBlock idx => num (secure_erase_block idx)
  | RegisterTouchOffset block offset => num (register_touch_offset block offset)
  | VaultTotalBlocks => num vault_total_blocks
  | VaultFreeBlocks => num vault_free_blocks
  | ValidateCanarySlots => num validate_canary_slots
  | CanarySlotsIntact => num canary_slots_intact
  | InitCanarySlots => num init_canary_slots
  | PurgeVault path => num (purge_vault sigterm_handled path)
  | InitRootState a b pk => num (init_root_state a b pk)
  | GetEpochId => num get_epoch_id
  | GenerateIdStamp => num generate_id_stamp
  | LoadIdStamp out => r ← load_id_stamp out; mret (RMem r.1 r.2)
  | MsgCounterNext => num msg_counter_next
  | MsgCounterCurrent => num msg_counter_current
  | DeriveMessageKey e q => p ← ffi_derive_message_key alloc_ok e q; mret (RNative None None p)
  | EncryptMessage pt key stamp o e q t out_len =>
      let r := encrypt_message alloc_ok pt key stamp o e q t out_len in mret (RNative r.1 None r.2)
  | DecryptMessage ct key stamp o e q t out_len =>
      let r := decrypt_message alloc_ok ct key stamp o e q t out_len in mret (RNative r.1 None r.2)
  | DecryptWithAutoCommit ct stamp o e q t out_len did_commit =>
      r ← decrypt_with_auto_commit alloc_ok ct stamp o e q t out_len did_commit;
      mret (RNative r.1.1 r.1.2 r.2)
  | ZeroizeKey mem => let r := zeroize_key mem in mret (RMem r.1 r.2)
  | AddTailPadding data out_len =>
      r ← ffi_add_tail_padding alloc_ok data out_len; mret (RNative r.1 None r.2)
  | StripTailPadding data out_len =>
      r ← ffi_strip_tail_padding alloc_ok data out_len; mret (RNative r.1 None r.2)
  | GenerateBobKeypair out_pk out_sk =>
      r ← evolution_generate_bob_keypair out_pk out_sk; mret (RMems r.1.1 r.1.2 r.2)
  | SetPeerPublicKey pk => num (evolution_set_peer_public_key pk)
  | StartEvolution => num ffi_start_evolution
  | KemCipherLen => num ffi_kem_cipher_len
  | GetKemCipher out => r ← ffi_get_kem_cipher out; mret (RMem r.1 r.2)
  | ApplyPeerKem ct => num (ffi_apply_peer_kem ct)
  | CommitEvolution => num ffi_commit_evolution
  | RecoverAfterLoss target => num (ffi_recover_after_loss target)
  | InitClockAlign => ffi_init_clock_align;; mret RUnit
  | EstimatedClockSkew => num estimated_clock_skew
  end.

Fixpoint exec_all (cs : list call) : M kernel (list reply) :=
  match cs with
  | [] => mret []
  | c :: cs => r ← exec c; rs ← exec_all cs; mret (r :: rs)
  end.
End exec.

(** * The type invariant *)

Section invariant.
Context `{HP : Primitives}.

Record kernel_ok (k : kernel) : Prop := {
  kernel_evo : evo_ok (k_evo k);
  kernel_vault v poisoned : VFS k = Some (v, poisoned) -> poisoned = false /\ mem_sane v;
}.

Definition k_root (k : kernel) : root_statics := ev_root (k_evo k).
Definition k_epoch (k : kernel) : Z := epoch (k_root k).

(** Arguments of the Rust types, and buffers as long as the caller says they are. *)
Definition call_ok (c : call) : Prop :=
  match c with
  | InitVirtualVolume _ _ total => is_u 64 total
  | ReadVaultBlocks start n _ => is_u 64 start /\ is_u 32 n
  | WriteVaultBlocks start n data =>
      is_u 64 start /\ is_u 32 n /\ forall d, data = Some d -> lenZ d = n * PAYLOAD_SIZE
  | FreeVaultBlock idx | SecureEraseBlock idx => is_u 64 idx
  | DecryptWithAutoCommit _ _ _ e q t _ _ => is_u 32 e /\ is_u 64 q /\ is_u 64 t
  | RecoverAfterLoss target => is_u 32 target
  | _ => True
  end.

(** How far one call can move the epoch. *)
Definition call_budget (c : call) : Z :=
  match c with
  | CommitEvolution | DecryptWithAutoCommit _ _ _ _ _ _ _ _ => 1
  | RecoverAfterLoss _ => 100000
  | _ => 0
  end.
Definition calls_budget (cs : list call) : Z := foldr (fun c n => call_budget c + n) 0 cs.

Lemma kernel_init_ok s r : kernel_ok (kernel_init s r).
Proof. split; [apply evo_init_ok|done]. Qed.

Lemma kernel_ok_evo x k : kernel_ok k -> evo_ok x -> kernel_ok (with_k_evo x k).
Proof. intros [] ?. by split. Qed.
Lemma kernel_ok_fs x k : kernel_ok k -> kernel_ok (with_k_fs x k).
Proof. intros []. by split. Qed.
Lemma kernel_ok_store x k : kernel_ok k -> kernel_ok (with_bob_pk_store x k).
Proof. intros []. by split. Qed.
Lemma kernel_ok_canary x k : kernel_ok k -> kernel_ok (with_CANARY x k).
Proof. intros []. by split. Qed.
Lemma kernel_ok_clock x k : kernel_ok k -> kernel_ok (with_k_clock x k).
Proof. intros []. by split. Qed.
Lemma kernel_ok_root x k : kernel_ok k -> root_ok x -> kernel_ok (with_k_evo (with_root x (k_evo k)) k).
Proof. intros Hk Hx. apply kernel_ok_evo; [done|]. apply evo_ok_root; [apply Hk|done]. Qed.
Lemma kernel_ok_rng x k : kernel_ok k -> kernel_ok (with_k_rng x k).
Proof. intros Hk. apply kernel_ok_evo; [done|]. apply evo_ok_rng, Hk. Qed.
Lemma kernel_ok_vfs v k : kernel_ok k -> mem_sane v -> kernel_ok (with_VFS (Some (v, false)) k).
Proof. intros [He _] Hv. split; [done|]. by intros v' p [= <- <-]. Qed.
End invariant.
#[export] Hint Resolve kernel_ok_evo kernel_ok_fs kernel_ok_store kernel_ok_canary kernel_ok_clock
  kernel_ok_root kernel_ok_rng kernel_ok_vfs : kernel.

(** * Every call keeps the invariant *)

Section calls.
Context `{HP : Primitives} `{HB : BuildProfile} `{HOk : !PrimitivesOk HP}.

(** A checked build has room for [b] more epochs; a release build wraps instead. *)
Definition room (b e : Z) : Prop := overflow_checks = false \/ e + b <= u32_max.

(** [m] returns, keeps the invariant, and moves the epoch by at most [b]. *)
Definition keeps {A} (b : Z) (m : M kernel A) : Prop :=
  forall k, kernel_ok k -> room b (k_epoch k) ->
    wp m (fun _ k' => kernel_ok k' /\ k_epoch k' <= k_epoch k + b) k.

Lemma room_0 s : root_ok s -> room 0 (epoch s).
Proof. intros Hs. right. pose proof (epoch_range _ Hs). unfold is_u, u32_max in *. lia. Qed.
Lemma room_le b b' e e' : room b e -> b' <= b -> e' <= e -> room b' e'.
Proof. intros [?|?] ??; [by left|right; lia]. Qed.

Lemma keeps_ret {A} (a : A) : keeps 0 (mret a).
Proof. intros k Hk _. apply wp_ret. split; [done|lia]. Qed.
Lemma keeps_bind {A B} b (m : M kernel A) (f : A -> M kernel B) :
  keeps 0 m -> (forall a, keeps b (f a)) -> keeps b (m ≫= f).
Proof.
  intros Hm Hf k Hk Hr. apply wp_bind.
  eapply wp_mono; [apply Hm; [done|apply room_0, Hk]|]. intros a k1 [H1 E1].
  eapply wp_mono; [apply Hf; [done|eapply room_le; [exact Hr|lia|lia]]|].
  intros r k2 [H2 E2]. split; [done|lia].
Qed.
Lemma keeps_result {A B} b (m : M kernel A) (f : A -> B) :
  keeps b m -> keeps b (a ← m; mret (f a)).
Proof. intros Hm k Hk Hr. apply wp_bind. eapply wp_mono; [by apply Hm|]. intros a k1 H1. by apply wp_ret. Qed.

Lemma keeps_vault {R} (d : R) (f : M vol_env R) : sane f -> keeps 0 (with_vault_or d f).
Proof.
  intros Hf k Hk _. unfold wp, with_vault_or. destruct (VFS k) as [[v p]|] eqn:E; [|split; [done|lia]].
  destruct (kernel_vault _ Hk v p E) as [-> Hv].
  destruct (wp_inv _ _ _ (Hf (env_of v k) Hv)) as (r & e & -> & He & _).
  split; [|unfold k_epoch, k_root; simpl; lia]. unfold put_env. auto with kernel.
Qed.

Lemma keeps_root {A} b (m : M root_statics A) :
  (forall s, root_ok s -> room b (epoch s) -> wp m (fun _ s' => root_ok s' /\ epoch s' <= epoch s + b) s) ->
  keeps b (zoom kroot_lens m).
Proof.
  intros Hm k Hk Hr. apply wp_zoom. eapply wp_mono; [apply Hm; [apply Hk|exact Hr]|]. intros a s [H1 H2].
  split; [by apply kernel_ok_root|done].
Qed.

Lemma keeps_evo {A} (m : M evo_statics A) :
  (forall s, evo_ok s -> wp m (fun _ s' => evo_ok s' /\ epoch (ev_root s') = epoch (ev_root s)) s) ->
  keeps 0 (zoom evo_lens m).
Proof.
  intros Hm k Hk _. apply wp_zoom. eapply wp_mono; [apply Hm; apply Hk|]. intros a s [H1 H2].
  split; [by apply kernel_ok_evo|]. simpl in H2. unfold k_epoch, k_root. simpl. lia.
Qed.

(** ** Vault *)

Lemma out_of_vault_read i e :
  ~ in_vault (e_vol e) i -> read_block i e = Done (Err InvalidInput) e.
Proof.
  intros Hi. unfold read_block. erewrite bind_done by apply check_eval.
  by rewrite bool_decide_eq_false_2.
Qed.
Lemma out_of_vault_write i p e :
  ~ in_vault (e_vol e) i -> write_block i p e = Done (Err InvalidInput) e.
Proof.
  intros Hi. unfold write_block. erewrite bind_done by apply check_eval.
  by rewrite bool_decide_eq_false_2.
Qed.
#[local] Instance in_vault_dec v i : Decision (in_vault v i).
Proof. unfold in_vault. apply _. Defined.

Lemma in_vault_u64 v i : mem_sane v -> in_vault v i -> is_u 64 (i + 1).
Proof. intros [_ T _ _] Hi. unfold in_vault, is_u in *. vlia. Qed.

Lemma seqZ_succ a n : 0 < n -> seqZ a n = a :: seqZ (a + 1) (n - 1).
Proof. intros. rewrite seqZ_cons by done. f_equal; lia. Qed.

Lemma sane_read_blocks start m : forall a out c e,
  is_u 64 (start + a) -> mem_sane (e_vol e) ->
  wp (read_blocks start (seqZ a (Z.of_nat m)) out c)
    (fun _ e' => mem_sane (e_vol e') /\ same_volume (e_vol e) (e_vol e')) e.
Proof.
  induction m as [|m IH]; intros a out c e Hu He; [by apply sane_ret|].
  rewrite seqZ_succ by lia. simpl. apply wp_bind, wp_chk_u; [done|].
  destruct (decide (in_vault (e_vol e) (start + a))) as [Hi|Hi].
  - apply wp_bind. eapply wp_mono; [by apply sane_read_block|]. intros [buf|err] e1 [H1 S1]; [|by apply wp_ret].
    replace (Z.of_nat (S m) - 1) with (Z.of_nat m) by lia. eapply wp_mono.
    + apply IH; [|done]. rewrite Z.add_assoc. by apply (in_vault_u64 (e_vol e)).
    + intros r e2 [H2 S2]. split; [done|]. by eapply same_volume_trans.
  - apply wp_bind. eapply wp_done; [by apply out_of_vault_read|]. by apply sane_ret.
Qed.

Lemma sane_write_blocks start data n m : forall a c e,
  lenZ data = n * PAYLOAD_SIZE -> 0 <= a -> a + Z.of_nat m <= n ->
  is_u 64 (start + a) -> mem_sane (e_vol e) ->
  wp (write_blocks start (seqZ a (Z.of_nat m)) data c)
    (fun _ e' => mem_sane (e_vol e') /\ same_volume (e_vol e) (e_vol e')) e.
Proof.
  intros a c e Hd. revert a c e. induction m as [|m IH]; intros a c e Ha Hn Hu He; [by apply sane_ret|].
  rewrite seqZ_succ by lia. simpl. apply wp_bind, wp_chk_u; [done|].
  destruct (decide (in_vault (e_vol e) (start + a))) as [Hi|Hi].
  - apply wp_bind. eapply wp_mono.
    { apply sane_write_block; [|done]. rewrite lenZ_slice by (rewrite ?Hd; unfold PAYLOAD_SIZE, BLOCK_SIZE; nia).
      unfold PAYLOAD_SIZE. lia. }
    intros [[]|err] e1 [H1 S1]; [|by apply wp_ret].
    replace (Z.of_nat (S m) - 1) with (Z.of_nat m) by lia. eapply wp_mono.
    + apply IH; [lia|lia| |done]. rewrite Z.add_assoc. by apply (in_vault_u64 (e_vol e)).
    + intros r e2 [H2 S2]. split; [done|]. by eapply same_volume_trans.
  - apply wp_bind. eapply wp_done; [by apply out_of_vault_write|]. by apply sane_ret.
Qed.

(** ** Root and evolution *)

Lemma room_epoch (s : root_statics) :
  root_ok s -> room 1 (epoch s) -> (epoch s <? u32_max) || negb overflow_checks = true.
Proof.
  intros Hs [Hc|Hr]; [rewrite Hc; apply orb_true_r|]. destruct (Z.ltb_spec (epoch s) u32_max); [done|lia].
Qed.

Lemma epoch_succ_le (e : Z) : is_u 32 e -> epoch_succ e <= e + 1.
Proof. unfold is_u, epoch_succ. intros. destruct (e <? u32_max); lia. Qed.

Lemma commit_keeps s :
  root_ok s -> room 1 (epoch s) ->
  wp RootState.commit_evolution (fun _ s' => root_ok s' /\ epoch s' <= epoch s + 1) s.
Proof.
  intros Hs Hr. pose proof (epoch_range _ Hs) as He. unfold wp. rewrite commit_evolution_eval by done.
  destruct (root_pend s) as [k|] eqn:Ep; [|split; [done|lia]]. rewrite room_epoch by done.
  split; [by apply advanced_ok; [|eapply root_pend_len|]|]. by apply epoch_succ_le.
Qed.

Lemma recover_keeps t s :
  is_u 32 t -> root_ok s -> room 100000 (epoch s) ->
  wp (recover_after_loss t) (fun _ s' => root_ok s' /\ epoch s' <= epoch s + 100000) s.
Proof.
  intros Ht Hs _. pose proof (epoch_range _ Hs) as He. unfold wp. rewrite recover_eval by done.
  destruct (Z.leb_spec t (epoch s)); [split; [done|lia]|].
  destruct (Z.ltb_spec 100000 (t - epoch s)); [split; [done|lia]|].
  destruct (Z.to_nat (t - epoch s)) as [|n] eqn:En; [lia|]. unfold is_u in *.
  split; [|simpl; lia]. split; simpl; [apply rolled_key_len|apply Hs|unfold is_u; lia|by unfold is_u].
Qed.

Lemma chk_next (s : root_statics) (Q : Z -> root_statics -> Prop) :
  root_ok s -> room 1 (epoch s) -> (forall n, Q n s) -> wp (chk_u 32 (epoch s + 1)) Q s.
Proof.
  intros Hs Hr HQ. unfold wp. rewrite chk_epoch_succ by (by apply epoch_range).
  rewrite room_epoch by done. apply HQ.
Qed.

Lemma try_decrypt_keeps wire st o e q t s :
  root_ok s -> room 1 (epoch s) ->
  wp (try_decrypt_with_evolution wire st o e q t) (fun _ s' => root_ok s' /\ epoch s' <= epoch s + 1) s.
Proof.
  intros Hs Hr. unfold try_decrypt_with_evolution. do 2 (apply wp_bind; cbn).
  apply wp_bind. eapply wp_done; [apply derive_from_root_eval|].
  destruct (decrypt _ _ _ _ _ _ _); [apply wp_ret; split; [done|lia]|].
  apply wp_bind, chk_next; [done..|]. intros n. destruct (e =? n); [|apply wp_ret; split; [done|lia]].
  apply wp_bind. cbn. destruct (root_pend s) as [pend|]; [|split; [done|lia]].
  apply wp_bind. eapply wp_done; [apply derive_from_root_eval|].
  destruct (decrypt _ _ _ _ _ _ _); [|apply wp_ret; split; [done|lia]].
  apply wp_bind. eapply wp_mono; [by apply commit_keeps|]. intros r s' H. by apply wp_ret.
Qed.

Lemma keypair_keeps s :
  evo_ok s ->
  wp (generate_bob_keypair (repZ 1568 0) (repZ 3168 0))
    (fun _ s' => evo_ok s' /\ epoch (ev_root s') = epoch (ev_root s)) s.
Proof.
  intros Hs. destruct (generate_bob_keypair (repZ 1568 0) (repZ 3168 0) s) as [r s'|s'|] eqn:E.
  - eapply wp_done; [exact E|]. split; [by eapply keypair_preserves|]. revert E.
    unfold generate_bob_keypair, pqc_keypair, copy_prefix, mbind, M_bind, modify, mret, M_ret, panic.
    cbv beta zeta iota. destruct (_ <=? _); [|done]. destruct (_ <=? _); [|done]. by intros [= _ <-].
  - exfalso. revert E.
    unfold generate_bob_keypair, pqc_keypair, copy_prefix, mbind, M_bind, modify, mret, M_ret, panic.
    cbv beta zeta iota. destruct (kyber_keypair_len (ev_rng s)) as [H1 H2].
    unfold as_slice, from_vec. cbn [inner]. rewrite H1, H2, !lenZ_repZ. done.
  - exfalso. revert E.
    unfold generate_bob_keypair, pqc_keypair, copy_prefix, mbind, M_bind, modify, mret, M_ret, panic.
    cbv beta zeta iota. destruct (_ <=? _); [|done]. by destruct (_ <=? _).
Qed.

Lemma start_keeps s :
  evo_ok s -> wp start_evolution (fun _ s' => evo_ok s' /\ epoch (ev_root s') = epoch (ev_root s)) s.
Proof.
  intros Hs. pose proof (evo_hash_len _ Hs) as Hl. pose proof (start_evolution_eval s Hl) as E. cbv zeta in E.
  unfold wp. destruct (start_evolution s) as [r s'|s'|] eqn:Es.
  - split; [by eapply start_preserves|]. revert E.
    repeat case_match; intros [= -> ->]; done.
  - revert E. by repeat case_match.
  - revert E. by repeat case_match.
Qed.

Lemma apply_keeps ct s :
  evo_ok s -> wp (apply_peer_kem ct) (fun _ s' => evo_ok s' /\ epoch (ev_root s') = epoch (ev_root s)) s.
Proof.
  intros Hs. unfold wp. rewrite apply_peer_kem_eval. cbv zeta.
  destruct (decide _); [done|]. destruct (kyber_decapsulate _ _); [|done].
  split; [by apply evo_ok_pend_set|done].
Qed.

Lemma get_kem_keeps out s :
  evo_ok s -> wp (get_kem_cipher out) (fun _ s' => evo_ok s' /\ epoch (ev_root s') = epoch (ev_root s)) s.
Proof.
  intros Hs. unfold get_kem_cipher. apply wp_bind. cbn. destruct (kem_cipher s) as [b|]; [|done].
  unfold copy_prefix, as_slice, len. destruct (Z.leb_spec (lenZ (takeZ (Z.min (lenZ (inner b)) (lenZ out)) (inner b))) (lenZ out)).
  - by apply wp_bind, wp_ret.
  - len_lia.
Qed.

(** ** The exported functions *)

Lemma keeps_read {A} (f : root_statics -> A) : keeps 0 (zoom kroot_lens (gets f)).
Proof. apply keeps_root. intros s Hs _. cbn. split; [done|lia]. Qed.
Lemma keeps_gets {A} (f : kernel -> A) : keeps 0 (gets f).
Proof. intros k Hk _. cbn. split; [done|lia]. Qed.

Lemma keeps_set_vfs v : mem_sane v -> keeps 0 (set_VFS v).
Proof.
  intros Hv k Hk _. unfold wp, set_VFS. destruct (VFS k) as [[v' p]|] eqn:E.
  - destruct (drop_volume_total (env_of v k)) as (u & e & ->). split; [by apply kernel_ok_fs|].
    unfold k_epoch, k_root. simpl. lia.
  - split; [by apply kernel_ok_vfs|]. unfold k_epoch, k_root. simpl. lia.
Qed.

Lemma init_volume_keeps path key total :
  is_u 64 total -> keeps 0 (init_virtual_volume path key total).
Proof.
  intros Hu. unfold init_virtual_volume. destruct path as [path|], key as [key|]; try apply keeps_ret.
  destruct (Z.eqb_spec (lenZ path) 0), (Z.ltb_spec (lenZ key) 32); cbn [orb]; try apply keeps_ret.
  destruct (from_utf8 path) as [name|]; [|apply keeps_ret]. cbv zeta. intros k Hk Hr. apply wp_bind, wp_zoom.
  eapply wp_mono; [apply open_or_create_total; [len_lia|apply Hu]|].
  intros [v|err] s Hb; cbn [lput kfs_lens].
  - destruct (Hb v eq_refl) as [Hv _].
    refine ((keeps_result 0 (set_VFS v) (fun _ => 0) (keeps_set_vfs v Hv) : keeps 0 (set_VFS v;; mret 0)) _ _ _);
      [by apply kernel_ok_fs|done].
  - apply wp_ret. split; [by apply kernel_ok_fs|]. unfold k_epoch, k_root. simpl. lia.
Qed.

Lemma read_vault_keeps start n out : is_u 64 start -> is_u 32 n -> keeps 0 (read_vault_blocks start n out).
Proof.
  intros Hs Hn. unfold read_vault_blocks. destruct out as [out|]; [|apply keeps_ret].
  destruct (n =? 0); [apply keeps_ret|]. apply keeps_result, keeps_vault. intros e He.
  rewrite <- (Z2Nat.id n) by apply Hn. apply sane_read_blocks; [by rewrite Z.add_0_r|done].
Qed.

Lemma write_vault_keeps start n data :
  is_u 64 start -> is_u 32 n -> (forall d, data = Some d -> lenZ d = n * PAYLOAD_SIZE) ->
  keeps 0 (write_vault_blocks start n data).
Proof.
  intros Hs Hn Hd. unfold write_vault_blocks. destruct data as [data|]; [|apply keeps_ret].
  destruct (n =? 0); [apply keeps_ret|]. apply keeps_vault. intros e He. unfold is_u in Hn.
  pose proof (sane_write_blocks start data n (Z.to_nat n) 0 0 e (Hd data eq_refl)) as H.
  rewrite Z2Nat.id in H by lia. apply H; [lia|lia|by rewrite Z.add_0_r|done].
Qed.

Lemma sane_result {A B} (m : M vol_env A) (f : A -> B) : sane m -> sane (a ← m; mret (f a)).
Proof. intros Hm. apply sane_bind; [done|]. intros. apply sane_ret. Qed.

Lemma sane_erase idx :
  sane (payload ← zoom rng_lens (draw_bytes PAYLOAD_SIZE);
    w ← write_block idx payload;
    match w with
    | Err _ => mret 3
    | Ok _ => r ← free_block idx; mret (match r with Ok _ => 0 | Err _ => 3 end)
    end).
Proof.
  intros e He. apply wp_bind, wp_zoom. eapply wp_done; [reflexivity|].
  pose proof (fill_len PAYLOAD_SIZE (e_rng e)) as Hl. cbn [lput rng_lens].
  refine ((sane_bind _ _ (sane_write_block idx _ (Hl _)) _ : sane _) (with_erng _ e) He); [done|].
  intros [[]|err]; [|apply sane_ret]. apply sane_result, sane_free_block.
Qed.
Lemma erase_keeps idx : keeps 0 (secure_erase_block idx).
Proof. apply keeps_vault, sane_erase. Qed.

Lemma sane_check_canaries bs : sane (check_canaries bs).
Proof.
  induction bs as [|b bs IH]; [apply sane_ret|]. cbn [check_canaries].
  apply sane_bind; [apply sane_read_block|]. intros [buf|err]; [|apply sane_ret].
  case_bool_decide; [apply IH|apply sane_ret].
Qed.

Lemma sane_reserve_all bs : sane (reserve_all bs).
Proof.
  induction bs as [|b bs IH]; [apply sane_ret|]. cbn [reserve_all].
  apply sane_bind; [apply sane_reserve|]. intros _. apply IH.
Qed.

Lemma sane_write_canaries slots : sane (write_canaries slots).
Proof.
  induction slots as [|b slots IH]; [apply sane_ret|]. intros e He. cbn [write_canaries].
  apply wp_bind, wp_zoom. eapply wp_done; [reflexivity|]. cbn [lput rng_lens lget].
  assert (lenZ (canary_payload b (fill_bytes (PAYLOAD_SIZE - 8) (e_rng e)).1) = PAYLOAD_SIZE) as Hl.
  { unfold canary_payload. rewrite !lenZ_app, fill_len by done. reflexivity. }
  refine ((sane_bind _ _ (sane_write_block (995 + b) _ Hl) _ : sane _) (with_erng _ e) He).
  intros [[]|err]; [apply IH|apply sane_ret].
Qed.

Lemma validate_keeps : keeps 0 validate_canary_slots.
Proof.
  unfold validate_canary_slots. apply keeps_bind; [apply keeps_vault, sane_check_canaries|]. intros code.
  apply keeps_bind; [|intros; apply keeps_ret]. destruct (code =? 0); [|apply keeps_ret].
  intros k Hk _. cbn. split; [by apply kernel_ok_canary|]. unfold k_epoch, k_root. simpl. lia.
Qed.

Lemma init_root_keeps a b pk : keeps 0 (init_root_state a b pk).
Proof.
  unfold init_root_state. destruct a as [a|], b as [b|]; try apply keeps_ret.
  destruct (_ || _); [apply keeps_ret|]. unfold initialise_root_state.
  destruct (_ || _); [apply keeps_ret|]. destruct (_ <? _); [apply keeps_ret|].
  destruct (_ =? 0); [apply keeps_ret|]. apply keeps_bind; [|intros _; apply keeps_bind; [|intros _; apply keeps_bind]].
  - intros k Hk _. cbn. split; [by apply kernel_ok_store|]. unfold k_epoch, k_root. simpl. lia.
  - apply keeps_root. intros s Hs _. cbn. split; [|lia]. apply root_ok_curr; [done|apply sha256_len].
  - apply keeps_root. intros s Hs _. cbn. split; [apply root_ok_epoch; [done|by unfold is_u]|].
    pose proof (epoch_range _ Hs). unfold is_u in *. lia.
  - intros _. apply keeps_ret.
Qed.

Lemma id_stamp_keeps : keeps 0 generate_id_stamp.
Proof.
  intros k Hk Hr. unfold generate_id_stamp, generate_and_persist_id_stamp. apply wp_bind.
  assert (generate_id_stamp_from_curr k = Done (compute_id_stamp (root_curr (k_root k)) (bob_pk_store k)) k) as E.
  { by destruct k as [[[] ? ? ? ? ?] ? ? ? ? ?]. }
  eapply wp_done; [exact E|]. unfold persist_id_stamp, vault_write_block.
  apply keeps_vault; [|done..]. apply sane_result, sane_write_block.
  rewrite lenZ_splice; [by rewrite lenZ_repZ|done|]. rewrite lenZ_repZ. unfold compute_id_stamp.
  rewrite sha256_len. done.
Qed.

Lemma load_stamp_keeps out : keeps 0 (load_id_stamp out).
Proof.
  unfold load_id_stamp. destruct out as [o|]; [|apply keeps_ret]. destruct (_ <? _); [apply keeps_ret|].
  apply keeps_bind; [|intros [?|]; apply keeps_ret]. unfold read_id_stamp. apply keeps_bind.
  - apply keeps_vault, sane_result, sane_read_block.
  - intros r. destruct (negb _); apply keeps_ret.
Qed.

Lemma padding_keeps alloc_ok data out_len : keeps 0 (ffi_add_tail_padding alloc_ok data out_len).
Proof.
  unfold ffi_add_tail_padding. destruct data as [d|], out_len; try apply keeps_ret.
  destruct (_ =? 0); [apply keeps_ret|]. apply keeps_result. intros k Hk _. apply wp_zoom.
  destruct (add_tail_padding_eval d (lget krng_lens k)) as (noise & r' & E & _).
  eapply wp_done; [exact E|]. split; [by apply kernel_ok_rng|]. unfold k_epoch, k_root. simpl. lia.
Qed.

Lemma strip_returns padded : exists r, forall k : kernel, strip_tail_padding padded k = Done r k.
Proof.
  unfold strip_tail_padding. destruct (Z.ltb_spec (lenZ padded) 4); [by eexists|].
  destruct (split_last_two padded) as (l & b0 & b1 & _ & -> & ->); [lia|].
  unfold mbind, M_bind. cbn [unwrap mret M_ret]. cbv zeta. unfold mret, M_ret.
  destruct (_ || _); [by eexists|]. destruct (_ <? _); by eexists.
Qed.

Lemma strip_keeps alloc_ok data out_len : keeps 0 (ffi_strip_tail_padding alloc_ok data out_len).
Proof.
  unfold ffi_strip_tail_padding. destruct data as [d|], out_len; try apply keeps_ret.
  destruct (_ =? 0); [apply keeps_ret|]. apply keeps_result. intros k Hk _.
  destruct (strip_returns d) as [r E]. eapply wp_done; [apply E|]. split; [done|lia].
Qed.

Lemma zoom_evo_root {A} (m : M root_statics A) k :
  zoom evo_lens (zoom root_lens m) k = zoom kroot_lens m k.
Proof. unfold zoom. cbn [lget lput evo_lens root_lens kroot_lens]. by destruct (m _). Qed.

Lemma exec_keeps alloc_ok h c :
  call_ok c -> (forall path, c <> PurgeVault path) -> keeps (call_budget c) (exec alloc_ok h c).
Proof.
  intros Hc Hp. destruct c; cbn [exec call_budget call_ok] in *; unfold num.
  - by apply keeps_result, init_volume_keeps.
  - destruct Hc. by apply keeps_result, read_vault_keeps.
  - destruct Hc as (? & ? & ?). by apply keeps_result, write_vault_keeps.
  - apply keeps_result, keeps_vault, sane_result, sane_allocate.
  - apply keeps_result, keeps_vault, sane_result, sane_free_block.
  - apply keeps_result, erase_keeps.
  - apply keeps_result, keeps_vault, sane_result, sane_ret.
  - apply keeps_result, keeps_vault, sane_gets.
  - apply keeps_result, keeps_vault, sane_gets.
  - apply keeps_result, validate_keeps.
  - apply keeps_result, keeps_result, keeps_gets.
  - apply keeps_result, keeps_vault, sane_bind; [apply sane_reserve_all|]. intros _. apply sane_write_canaries.
  - by destruct (Hp path).
  - apply keeps_result, init_root_keeps.
  - apply keeps_result, keeps_read.
  - apply keeps_result, id_stamp_keeps.
  - apply keeps_result, load_stamp_keeps.
  - apply keeps_result, keeps_root. intros s Hs _. eapply wp_done; [reflexivity|]. split; [|simpl; lia].
    apply root_ok_counter; [done|]. apply Z.mod_pos_bound. lia.
  - apply keeps_result, keeps_read.
  - apply keeps_result, keeps_result, keeps_root. intros s Hs _.
    eapply wp_done; [apply derive_message_key_eval|]. split; [done|lia].
  - apply keeps_ret.
  - apply keeps_ret.
  - apply keeps_result. unfold decrypt_with_auto_commit.
    destruct ct as [ct|], stamp as [stamp|], out_len; try (intros k Hk ?; apply wp_ret; split; [done|lia]).
    destruct (_ =? 0); [intros k Hk ?; apply wp_ret; split; [done|lia]|].
    apply keeps_result, keeps_root. intros. by apply try_decrypt_keeps.
  - apply keeps_ret.
  - apply keeps_result, padding_keeps.
  - apply keeps_result, strip_keeps.
  - apply keeps_result. unfold evolution_generate_bob_keypair.
    destruct out_pk as [opk|], out_sk as [osk|]; try apply keeps_ret. destruct (_ || _); [apply keeps_ret|].
    apply keeps_bind; [apply keeps_evo, keypair_keeps|]. intros [[code pk] sk]. destruct (code =? 0); apply keeps_ret.
  - apply keeps_result. unfold evolution_set_peer_public_key. destruct pk as [pk|]; [|apply keeps_ret].
    destruct (_ =? 0); [apply keeps_ret|]. apply keeps_result, keeps_evo. intros s Hs.
    destruct (set_peer_public_key pk s) as [[] s'| |] eqn:E; [|discriminate E..]. eapply wp_done; [exact E|].
    split; [by eapply set_pk_preserves|]. by injection E as <-.
  - apply keeps_result, keeps_evo, start_keeps.
  - apply keeps_result, keeps_result, keeps_evo. intros s Hs. by eapply wp_done.
  - apply keeps_result. unfold ffi_get_kem_cipher. destruct out as [o|]; [|apply keeps_ret].
    destruct (_ =? 0); [apply keeps_ret|]. apply keeps_bind; [apply keeps_evo, get_kem_keeps|].
    intros [n buf]. destruct (n =? 0); apply keeps_ret.
  - apply keeps_result. unfold ffi_apply_peer_kem. destruct ct as [ct|]; [|apply keeps_ret].
    destruct (_ =? 0); [apply keeps_ret|]. apply keeps_evo, apply_keeps.
  - apply keeps_result. unfold ffi_commit_evolution. intros k Hk Hr.
    pose proof (keeps_root 1 RootState.commit_evolution commit_keeps k Hk Hr) as H. unfold wp in *.
    unfold Evolution.commit_evolution. by rewrite zoom_evo_root.
  - apply keeps_result, keeps_root. intros. by apply recover_keeps.
  - apply keeps_result. intros k Hk _. apply wp_zoom. cbn. split; [by apply kernel_ok_clock|]. unfold k_epoch, k_root. simpl. lia.
  - apply keeps_result. intros k Hk _. apply wp_zoom. cbn. split; [by apply kernel_ok_clock|]. unfold k_epoch, k_root. simpl. lia.
Qed.

(** The purge either ends the process or keeps the invariant. *)
Lemma purge_keeps alloc_ok h path k :
  kernel_ok k ->
  match exec alloc_ok h (PurgeVault path) k with
  | Done _ k' => kernel_ok k' /\ k_epoch k' = k_epoch k
  | Panicked _ => False
  | Exited _ _ => True
  end.
Proof.
  intros Hk. cbn [exec]. unfold num, purge_vault. destruct path as [path|]; [|done].
  destruct (_ =? 0); [done|]. destruct (from_utf8 path) as [name|]; [|done].
  destruct (total_zoom wipe_lens _ (purge_total name) k) as (r & k' & E).
  assert (kernel_ok k' /\ k_epoch k' = k_epoch k) as Hk'.
  { unfold zoom in E. destruct (purge_entire_vault name _) as [a e|e|z e]; [|done..].
    injection E as _ <-. split; [|done]. auto with kernel. }
  unfold mbind, M_bind. rewrite E. destruct r as [[]|err]; [by destruct h|]. done.
Qed.

(** [C4] The type invariant of the whole kernel, and freedom from panics: starting from any
    well-formed state of the statics, any sequence of calls of [call] with arguments of
    their types (the exported functions without the cover traffic and the two heap helpers), on any file system and under any schedule of I/O failures, runs without a
    panic, in both build profiles (a checked build needs room for the epochs the calls can
    add below [u32::MAX]).  It answers every call and leaves the statics well formed: roots
    of 32 bytes, epoch and counter in range, the stored key digest that of the stored key,
    key material of the KEM's sizes, the vault's bitmap and counts consistent, no poisoned
    vault.  Only a purge can end it earlier. *)
Theorem exports_never_panic alloc_ok h cs k :
  kernel_ok k -> Forall call_ok cs -> overflow_checks = false \/ k_epoch k + calls_budget cs <= u32_max ->
  match exec_all alloc_ok h cs k with
  | Done rs k' => kernel_ok k' /\ length rs = length cs
  | Panicked _ => False
  | Exited _ _ => exists path, PurgeVault path ∈ cs
  end.
Proof.
  revert k. induction cs as [|c cs IH]; intros k Hk Hcs Hr; [done|].
  apply Forall_cons in Hcs as [Hc Hcs]. cbn [exec_all]. simpl in Hr.
  assert (0 <= calls_budget cs) as Hb by (clear; induction cs as [|[] cs IH]; simpl in *; lia).
  assert (match exec alloc_ok h c k with
    | Done _ k' => kernel_ok k' /\ k_epoch k' <= k_epoch k + call_budget c
    | Panicked _ => False | Exited _ _ => exists path, c = PurgeVault path end) as Hstep.
  { assert ((exists path, c = PurgeVault path) \/ forall path, c <> PurgeVault path) as [[path ->]|Hp]
      by (destruct c; eauto || (right; congruence)).
    - pose proof (purge_keeps alloc_ok h path k Hk) as H. destruct (exec _ _ _ k); [|done|by eauto].
      destruct H as [? ->]. split; [done|]. simpl. lia.
    - pose proof (exec_keeps alloc_ok h c Hc Hp k Hk) as H.
      destruct (wp_inv _ _ _ (H ltac:(unfold room; destruct Hr; [by left|right; lia]))) as (r & k' & -> & ?). done. }
  destruct (exec alloc_ok h c k) as [r k'| |z k'] eqn:E; [|done|].
  - destruct Hstep as [Hk' He]. erewrite bind_done by exact E.
    specialize (IH k' Hk' Hcs). destruct (exec_all alloc_ok h cs k') as [rs k2|k2|z k2] eqn:E2.
    + erewrite bind_done by exact E2. destruct IH as [? Hlen]; [destruct Hr; [by left|right; lia]|].
      split; [done|]. simpl. by rewrite Hlen.
    + destruct IH. destruct Hr; [by left|right; lia].
    + destruct IH as [path Hin]; [destruct Hr; [by left|right; lia]|].
      unfold mbind, M_bind. rewrite E2. exists path. by right.
  - destruct Hstep as [path ->]. unfold mbind, M_bind. rewrite E. exists path. by left.
Qed.
End calls.

(** A session on a fresh process and an empty disk. *)
Definition demo_calls : list call :=
  [InitVirtualVolume (Some (str_bytes "vault.sec")) (Some (repZ 32 1)) 4; AllocateVaultBlock;
   AllocateVaultBlock; FreeVaultBlock 9; SetPeerPublicKey (Some (repZ 1568 3)); StartEvolution;
   CommitEvolution; MsgCounterNext; RecoverAfterLoss 4; FreeVaultBlock 2000].
Definition demo_fs : fs := Fs ∅ ∅ ∅ 1 (fun t => t) (fun _ => None) 0.

Lemma demo_calls_ok : Forall call_ok demo_calls.
Proof. unfold demo_calls. repeat constructor; simpl; try (unfold is_u; lia). Qed.

Lemma exports_never_panic_witness :
  exists rs k', exec_all (HP := toy) (HB := true) (fun _ => true) true demo_calls
    (kernel_init (HP := toy) demo_fs (5 : @rng toy)) = Done rs k' /\ kernel_ok (HP := toy) k' /\
    length rs = 10%nat.
Proof.
  pose proof (exports_never_panic (HP := toy) (HB := true) (fun _ => true) true demo_calls
    (kernel_init (HP := toy) demo_fs (5 : @rng toy)) (kernel_init_ok (HP := toy) _ _) demo_calls_ok) as H.
  destruct (exec_all (HP := toy) (HB := true) (fun _ => true) true demo_calls _) as [rs k'|k'|z k'].
  - destruct H as [Hk Hl]; [right; vm_compute; discriminate|]. exists rs, k'. auto.
  - destruct H. right. vm_compute. discriminate.
  - exfalso. destruct H as [path Hin]; [right; vm_compute; discriminate|].
    unfold demo_calls in Hin. repeat (apply elem_of_cons in Hin as [?|Hin]; [done|]).
    by apply elem_of_nil in Hin.
Defined.
