(* ===== verification/Locks.v ===== *)
(** The exported functions at the granularity of their mutexes.

    The application may call the kernel from several threads.  Here each function is a
    program of [Threads]: it locks and unlocks the mutexes the Rust code locks, for as long
    as its guards live, and does its work between them.  [thread_of] covers the exported
    calls on the root, the evolution, the message counter, the identity stamp, the clock
    and the vault; [run_thread_of] shows that a call nobody disturbs is the sequential [exec].

    The work done on the vault under its mutex is one action here; [SysCalls] splits it
    into its system calls.  Opening and purging a vault use the file system
    without a mutex and are left to [SysCalls]; [threadable] is the set of all other calls. *)
From S2P Require Import Prelude Effects Threads Crypto MemoryProtection RootState AntiDos TailPadding MessageCipher Evolution StdFs VolumeLayout VirtualVolume VolumeProofs VolumeTotal ClockAlign DiskWipe Kernel InitModule Ffi Exports.

(** * Mutexes *)

(** [bob_public_key], [peer_pk_hash], [root_curr], [root_pend], [epoch], [evo_state],
    [bob_keys], [bob_pk_store] and the vault. *)
Inductive mutex := L_pk | L_curr | L_pend | L_epoch | L_hash | L_evo | L_bob | L_store | L_vault.
#[export] Instance mutex_eq_dec : EqDecision mutex.
Proof. solve_decision. Defined.

(** The order in which nested acquisitions happen. *)
Definition mutex_rank (l : mutex) : nat :=
  match l with
  | L_pk => 0 | L_curr => 1 | L_pend => 2 | L_epoch => 3 | L_hash => 4
  | L_evo => 5 | L_bob => 6 | L_store => 7 | L_vault => 8
  end%nat.

Abbreviation kprog := (prog mutex kernel).

Section programs.
Context `{HP : Primitives} `{HB : BuildProfile}.

Definition on_root {A} (m : M root_statics A) : kprog A := act (zoom kroot_lens m).
Definition on_evo {A} (m : M evo_statics A) : kprog A := act (zoom evo_lens m).

(** * [root_state.rs] *)

Definition mt_set_root_state_curr (key : bytes) : kprog unit :=
  guarded L_curr (zoom kroot_lens (set_root_state_curr key)).
Definition mt_read_root_state_curr : kprog bytes := guarded L_curr (zoom kroot_lens read_root_state_curr).
Definition mt_set_root_state_pend (key : option bytes) : kprog unit :=
  guarded L_pend (zoom kroot_lens (set_root_state_pend key)).
Definition mt_read_root_state_pend : kprog (option bytes) :=
  guarded L_pend (zoom kroot_lens read_root_state_pend).
Definition mt_read_epoch_id : kprog Z := guarded L_epoch (zoom kroot_lens read_epoch_id).
Definition mt_set_epoch_id (id : Z) : kprog unit := guarded L_epoch (zoom kroot_lens (set_epoch_id id)).

(** [*e += 1]. *)
Definition bump_epoch : M root_statics unit :=
  e ← gets epoch; e' ← chk_u 32 (e + 1); modify (with_epoch e').

Definition mt_commit_evolution : kprog Z :=
  lock L_curr;; lock L_pend;; lock L_epoch;;
  pend ← on_root (gets root_pend);
  r ← match pend with
      | None => mret 1
      | Some new_key =>
          on_root (modify (fun s => with_curr (zeroize (root_curr s)) s));;
          on_root (modify (with_curr new_key));;
          on_root (modify (with_pend None));;
          on_root bump_epoch;;
          on_root reset_msg_counter;;
          mret 0
      end;
  unlock L_epoch;; unlock L_pend;; unlock L_curr;;
  mret r.

Definition mt_roll_epoch_forward (salt info : bytes) : kprog Z :=
  lock L_curr;; lock L_epoch;;
  curr ← on_root (gets root_curr);
  r ← match hkdf_expand (hkdf_extract salt curr) info 32 with
      | Some okm =>
          on_root (modify (fun s => with_curr (zeroize (root_curr s)) s));;
          on_root (modify (with_curr okm));;
          on_root bump_epoch;;
          on_root reset_msg_counter;;
          on_root (gets epoch)
      | None => mret u32_max
      end;
  unlock L_epoch;; unlock L_curr;;
  mret r.

(** * [anti_dos.rs] *)

Fixpoint mt_roll_loop (iterations : nat) (last : Z) : kprog Z :=
  match iterations with
  | O => mret last
  | S iterations =>
      r ← mt_roll_epoch_forward roll_salt roll_info;
      if r =? u32_max then mret u32_max else mt_roll_loop iterations r
  end.

Definition mt_recover_after_loss (target_epoch : Z) : kprog Z :=
  e ← mt_read_epoch_id;
  if target_epoch <=? e then mret e
  else
    let gap := target_epoch - e in
    if 100000 <? gap then mret u32_max
    else mt_roll_loop (Z.to_nat gap) e.

(** * [message_cipher.rs] *)

(** The counter is an atomic, not a mutex. *)
Definition mt_next_msg_seq : kprog Z := on_root next_msg_seq.
Definition mt_current_msg_seq : kprog Z := on_root current_msg_seq.

Definition mt_derive_message_key (epoch msg_seq : Z) : kprog bytes :=
  curr ← mt_read_root_state_curr;
  act (derive_message_key_from_root curr epoch msg_seq).

Definition mt_try_decrypt_with_evolution (wire id_stamp : bytes) (outgoing : bool)
    (epoch msg_seq timestamp : Z) : kprog (option (bytes * bool)) :=
  curr ← mt_read_root_state_curr;
  local_epoch ← mt_read_epoch_id;
  curr_key ← act (derive_message_key_from_root curr epoch msg_seq);
  match decrypt wire curr_key id_stamp outgoing epoch msg_seq timestamp with
  | Some pt => mret (Some (pt, false))
  | None =>
      next ← act (chk_u 32 (local_epoch + 1));
      if epoch =? next then
        p ← mt_read_root_state_pend;
        match p with
        | Some pend =>
            pend_key ← act (derive_message_key_from_root pend epoch msg_seq);
            match decrypt wire pend_key id_stamp outgoing epoch msg_seq timestamp with
            | Some pt =>
                r ← mt_commit_evolution;
                mret (Some (pt, r =? 0))
            | None => mret None
            end
        | None => mret None
        end
      else mret None
  end.

(** * [evolution.rs] *)

Definition mt_generate_bob_keypair (out_pk out_sk : bytes) : kprog (Z * bytes * bytes) :=
  keypair ← on_evo pqc_keypair;
  let pk_vec := keypair.1 in
  let sk_buf := from_vec keypair.2 in
  out_pk ← act (copy_prefix out_pk pk_vec);
  out_sk ← act (copy_prefix out_sk (as_slice sk_buf));
  lock L_bob;;
  on_evo (modify (with_bob_keys (pk_vec, sk_buf)));;
  unlock L_bob;;
  mret (0, out_pk, out_sk).

Definition mt_set_peer_public_key (pk : bytes) : kprog unit :=
  lock L_pk;;
  on_evo (modify (with_bob_pk pk));;
  let hash := sha256 pk in
  guarded L_hash (zoom evo_lens (modify (with_pk_hash hash)));;
  unlock L_pk.

(** The guard on the public key lives until the function returns. *)
Definition mt_start_evolution : kprog Z :=
  curr ← mt_read_root_state_curr;
  lock L_pk;;
  pk ← on_evo (gets bob_public_key);
  if decide (pk = []) then unlock L_pk;; mret 2
  else
    let current_hash := sha256 pk in
    stored_hash ← guarded L_hash (zoom evo_lens (gets peer_pk_hash));
    let acc := ct_accumulate current_hash stored_hash in
    if negb (bool_decide (stored_hash = repZ 32 0)) && negb (acc =? 0) then unlock L_pk;; mret 5
    else
      enc ← on_evo (pqc_encapsulate pk);
      match enc with
      | None => unlock L_pk;; mret 1
      | Some (ct, ss) =>
          let kem_ct := from_vec ct in
          match to_array32 ss with
          | None => unlock L_pk;; mret 4
          | Some ss_arr =>
              derived ← act (derive_pending_key ss_arr curr);
              mt_set_root_state_pend (Some derived);;
              lock L_evo;;
              on_evo (modify (with_kem (Some kem_ct)));;
              unlock L_evo;; unlock L_pk;;
              mret 0
          end
      end.

Definition mt_get_kem_cipher (out : bytes) : kprog (Z * bytes) :=
  guarded L_evo (zoom evo_lens (get_kem_cipher out)).
Definition mt_kem_cipher_len : kprog Z := guarded L_evo (zoom evo_lens kem_cipher_len).

Definition mt_apply_peer_kem (kem_ct : bytes) : kprog Z :=
  keys ← guarded L_bob (zoom evo_lens (gets bob_keys));
  let sk := as_slice keys.2 in
  if decide (sk = []) then mret 3
  else
    match kyber_decapsulate kem_ct sk with
    | None => mret 2
    | Some shared_secret =>
        match to_array32 shared_secret with
        | None => mret 4
        | Some ss_arr =>
            curr ← mt_read_root_state_curr;
            derived ← act (derive_pending_key ss_arr curr);
            mt_set_root_state_pend (Some derived);;
            mret 0
        end
    end.

(** * The vault singleton *)

(** [with_vault_or]: no vault or a poisoned mutex gives the default. *)
Definition mt_with_vault_or {R} (default : R) (f : M vol_env R) : kprog R :=
  vfs ← act (gets VFS);
  match vfs with
  | None => mret default
  | Some _ =>
      Lock L_vault (Ret default)
        (r ← act (with_vault_or default f); unlock L_vault;; mret r)
  end.

Definition mt_vault_read_block (idx : Z) (out : bytes) : kprog (Z * bytes) :=
  mt_with_vault_or (1, out) (r ← read_block idx;
    mret (match r with Ok p => (0, p) | Err _ => (1, out) end)).
Definition mt_vault_write_block (idx : Z) (data : bytes) : kprog Z :=
  mt_with_vault_or 1 (r ← write_block idx data; mret (match r with Ok _ => 0 | Err _ => 1 end)).

Definition mt_read_vault_blocks (start n : Z) (out : option bytes) : kprog (Z * option bytes) :=
  match out with
  | Some out' =>
      if n =? 0 then mret (0, out)
      else r ← mt_with_vault_or (0, out') (read_blocks start (seqZ 0 n) out' 0); mret (r.1, Some r.2)
  | None => mret (0, out)
  end.
Definition mt_write_vault_blocks (start n : Z) (data : option bytes) : kprog Z :=
  match data with
  | Some data => if n =? 0 then mret 0 else mt_with_vault_or 0 (write_blocks start (seqZ 0 n) data 0)
  | None => mret 0
  end.
Definition mt_allocate_vault_block : kprog Z :=
  mt_with_vault_or u64_max (r ← allocate_block; mret (match r with Ok i => i | Err _ => u64_max end)).
Definition mt_free_vault_block (idx : Z) : kprog Z :=
  mt_with_vault_or 1 (r ← free_block idx; mret (match r with Ok _ => 0 | Err _ => 3 end)).
Definition mt_secure_erase_block (idx : Z) : kprog Z :=
  mt_with_vault_or 1 (
    payload ← zoom rng_lens (draw_bytes PAYLOAD_SIZE);
    w ← write_block idx payload;
    match w with
    | Err _ => mret 3
    | Ok _ => r ← free_block idx; mret (match r with Ok _ => 0 | Err _ => 3 end)
    end).
Definition mt_register_touch_offset (block offset : Z) : kprog Z :=
  mt_with_vault_or 1 (register_touch block offset;; mret 0).
Definition mt_vault_total_blocks : kprog Z := mt_with_vault_or 0 (gets (fun e => total_blocks (e_vol e))).
Definition mt_vault_free_blocks : kprog Z := mt_with_vault_or 0 (gets (fun e => free_blocks (e_vol e))).
(** The flag is stored before the guard is dropped. *)
Definition mt_validate_canary_slots : kprog Z :=
  vfs ← act (gets VFS);
  match vfs with
  | None => mret 1
  | Some _ =>
      Lock L_vault (Ret 1)
        (code ← act (with_vault_or 1 (check_canaries (seqZ 995 5)));
         (if code =? 0 then act (modify (with_CANARY true)) else mret tt);;
         unlock L_vault;; mret code)
  end.
Definition mt_canary_slots_intact : kprog Z := act canary_slots_intact.
Definition mt_init_canary_slots : kprog Z :=
  mt_with_vault_or 1 (reserve_all (seqZ 994 6);; write_canaries (seqZ 0 5)).

(** * [init_module.rs] *)

Definition mt_store_bob_public_key (pk : bytes) : kprog unit := guarded L_store (store_bob_public_key pk).
Definition mt_read_bob_pk : kprog bytes := guarded L_store read_bob_pk.

Definition mt_initialise_root_state (alice bob bob_pk : bytes) : kprog Z :=
  if entropy_reject alice || entropy_reject bob then mret 2
  else
    let interleaved := odd_even_interleave alice bob in
    if lenZ interleaved <? 64 then mret 1
    else if lenZ bob_pk =? 0 then mret 3
    else
      mt_store_bob_public_key bob_pk;;
      let key := sha256 (str_bytes "LinkChat RootState Init" ++ interleaved) in
      mt_set_root_state_curr key;;
      mt_set_epoch_id 0;;
      mret 0.
Definition mt_init_root_state (a b pk : option bytes) : kprog Z :=
  match a, b with
  | Some a, Some b =>
      if (lenZ a =? 0) || (lenZ b =? 0) then mret 1
      else mt_initialise_root_state a b (default [] pk)
  | _, _ => mret 1
  end.

Definition mt_generate_id_stamp : kprog Z :=
  curr ← mt_read_root_state_curr;
  pk ← mt_read_bob_pk;
  let stamp := compute_id_stamp curr pk in
  mt_vault_write_block 994 (splice 0 stamp (repZ 4068 0)).
Definition mt_load_id_stamp (out : option bytes) : kprog (Z * option bytes) :=
  match out with
  | None => mret (1, None)
  | Some o =>
      if lenZ o <? 32 then mret (1, Some o)
      else
        r ← mt_vault_read_block 994 (repZ 4068 0);
        if negb (r.1 =? 0) then mret (1, Some o)
        else mret (0, Some (splice 0 (takeZ 32 r.2) o))
  end.

(** * [clock_align.rs] *)

(** The cells are set once, the estimate is an atomic. *)
Definition on_clock {A} (m : M clock_statics A) : kprog A := act (zoom clock_lens m).
Definition mt_init_clock_align : kprog unit := on_clock set_history;; on_clock set_last_sample.
Definition mt_estimated_clock_skew : kprog Z := on_clock skew.

(** * Exported calls *)

Context (alloc_ok : Z -> bool) (sigterm_handled : bool).

Definition mt_num (p : kprog Z) : kprog reply := n ← p; mret (RNum n).

(** What is left of a call once its pointers are checked. *)
Definition mt_decrypt_with_auto_commit (ct stamp : option bytes) (outgoing epoch msg_seq timestamp : Z)
    (out_len did_commit : bool) : kprog (option Z * option Z * native) :=
  match ct, stamp, out_len with
  | Some ct, Some stamp, true =>
      if lenZ ct =? 0 then mret (Some 0, store did_commit 0, Null)
      else
        r ← mt_try_decrypt_with_evolution ct (takeZ 32 stamp) (negb (outgoing =? 0)) epoch msg_seq timestamp;
        mret (match r with
          | Some (pt, committed) =>
              (Some (as_u32 (lenZ pt)), store did_commit (if (committed : bool) then 1 else 0), to_native alloc_ok pt)
          | None => (Some 0, store did_commit 0, Null)
          end)
  | _, _, _ => mret (store out_len 0, store did_commit 0, Null)
  end.

Definition mt_evolution_generate_bob_keypair (out_pk out_sk : option bytes) :
    kprog (Z * option bytes * option bytes) :=
  match out_pk, out_sk with
  | Some opk, Some osk =>
      if (lenZ opk <? ML_KEM_PK_LEN) || (lenZ osk <? ML_KEM_SK_LEN) then mret (1, out_pk, out_sk)
      else
        r ← mt_generate_bob_keypair (repZ ML_KEM_PK_LEN 0) (repZ ML_KEM_SK_LEN 0);
        let '(code, pk, sk) := r in
        if code =? 0 then mret (0, Some (splice 0 pk opk), Some (splice 0 sk osk))
        else mret (code, out_pk, out_sk)
  | _, _ => mret (1, out_pk, out_sk)
  end.

Definition mt_ffi_get_kem_cipher (out : option bytes) : kprog (Z * option bytes) :=
  match out with
  | Some o =>
      if lenZ o =? 0 then mret (1, out)
      else
        r ← mt_get_kem_cipher (repZ (lenZ o) 0);
        let '(n, buf) := r in
        if n =? 0 then mret (1, out) else mret (as_u32 n, Some (splice 0 (takeZ n buf) o))
  | None => mret (1, out)
  end.

Definition threadable (c : call) : Prop :=
  match c with
  | InitVirtualVolume _ _ _ | PurgeVault _ => False
  | _ => True
  end.

(** Calls without shared state, and those that are not [threadable], are one action. *)
Definition thread_of (c : call) : kprog reply :=
  match c with
  | ReadVaultBlocks start n out => r ← mt_read_vault_blocks start n out; mret (RMem r.1 r.2)
  | WriteVaultBlocks start n data => mt_num (mt_write_vault_blocks start n data)
  | AllocateVaultBlock => mt_num mt_allocate_vault_block
  | FreeVaultBlock idx => mt_num (mt_free_vault_block idx)
  | SecureEraseBlock idx => mt_num (mt_secure_erase_block idx)
  | RegisterTouchOffset block offset => mt_num (mt_register_touch_offset block offset)
  | VaultTotalBlocks => mt_num mt_vault_total_blocks
  | VaultFreeBlocks => mt_num mt_vault_free_blocks
  | ValidateCanarySlots => mt_num mt_validate_canary_slots
  | CanarySlotsIntact => mt_num mt_canary_slots_intact
  | InitCanarySlots => mt_num mt_init_canary_slots
  | InitRootState a b pk => mt_num (mt_init_root_state a b pk)
  | GetEpochId => mt_num mt_read_epoch_id
  | GenerateIdStamp => mt_num mt_generate_id_stamp
  | LoadIdStamp out => r ← mt_load_id_stamp out; mret (RMem r.1 r.2)
  | MsgCounterNext => mt_num mt_next_msg_seq
  | MsgCounterCurrent => mt_num mt_current_msg_seq
  | DeriveMessageKey e q =>
      key ← mt_derive_message_key e q;
      mret (RNative None None
        (match allocate_native_buffer alloc_ok 32 with None => Null | Some _ => Buffer key end))
  | DecryptWithAutoCommit ct stamp o e q t out_len did_commit =>
      r ← mt_decrypt_with_auto_commit ct stamp o e q t out_len did_commit;
      mret (RNative r.1.1 r.1.2 r.2)
  | GenerateBobKeypair out_pk out_sk =>
      r ← mt_evolution_generate_bob_keypair out_pk out_sk; mret (RMems r.1.1 r.1.2 r.2)
  | SetPeerPublicKey pk =>
      match pk with
      | Some pk => if lenZ pk =? 0 then mret (RNum 1) else mt_set_peer_public_key pk;; mret (RNum 0)
      | None => mret (RNum 1)
      end
  | StartEvolution => mt_num mt_start_evolution
  | KemCipherLen => n ← mt_kem_cipher_len; mret (RNum (as_u32 n))
  | GetKemCipher out => r ← mt_ffi_get_kem_cipher out; mret (RMem r.1 r.2)
  | ApplyPeerKem ct =>
      match ct with
      | Some ct => if lenZ ct =? 0 then mret (RNum 1) else mt_num (mt_apply_peer_kem ct)
      | None => mret (RNum 1)
      end
  | CommitEvolution => mt_num mt_commit_evolution
  | RecoverAfterLoss target => mt_num (mt_recover_after_loss target)
  | InitClockAlign => mt_init_clock_align;; mret RUnit
  | EstimatedClockSkew => mt_num mt_estimated_clock_skew
  | c => act (exec alloc_ok sigterm_handled c)
  end.

(** A thread of the application: one call after another. *)
Fixpoint thread_of_all (cs : list call) : kprog (list reply) :=
  match cs with
  | [] => mret []
  | c :: cs => r ← thread_of c; rs ← thread_of_all cs; mret (r :: rs)
  end.
End programs.

(** * A call on its own is the sequential one *)

Section alone.
Context `{HP : Primitives} `{HB : BuildProfile}.

Ltac unfold_run := cbv [run mbind prog_bind M_bind mret M_ret prog_ret act lock unlock guarded crash
  on_root on_evo zoom gets modify lget lput kroot_lens evo_lens root_lens].

Lemma kroot_laws : lens_laws kroot_lens.
Proof. split; intros; by repeat match goal with k : kernel |- _ => destruct k as [[]] end. Qed.
Lemma evo_laws : lens_laws evo_lens.
Proof. split; intros; by repeat match goal with k : kernel |- _ => destruct k end. Qed.

(** The same step on both sides. *)
Ltac run_by tac := rewrite run_bind; apply bind_cong; [tac|intros ? ?].
Ltac run_step := run_by ltac:(first [apply run_guarded | apply run_act]).
Ltac zoom_step H := rewrite (zoom_bind _ _ _ _ H).

Lemma run_commit k : run mt_commit_evolution k = zoom kroot_lens RootState.commit_evolution k.
Proof.
  destruct k as [[[c [p|] e n] ? ? ? ? ?] ? ? ? ? ?]; [|reflexivity].
  unfold mt_commit_evolution, RootState.commit_evolution, bump_epoch, reset_msg_counter. unfold_run. simpl.
  by destruct (chk_u _ _ _).
Qed.

Lemma run_roll salt info k :
  run (mt_roll_epoch_forward salt info) k = zoom kroot_lens (roll_epoch_forward salt info) k.
Proof.
  destruct k as [[[c p e n] ? ? ? ? ?] ? ? ? ? ?].
  unfold mt_roll_epoch_forward, roll_epoch_forward, bump_epoch, reset_msg_counter. unfold_run. simpl.
  destruct (hkdf_expand _ _ _); [|reflexivity]. by destruct (chk_u _ _ _).
Qed.

Lemma run_roll_loop n last k : run (mt_roll_loop n last) k = zoom kroot_lens (roll_loop n last) k.
Proof.
  revert last k. induction n as [|n IH]; intros last k; [symmetry; apply zoom_ret, kroot_laws|].
  cbn [mt_roll_loop roll_loop]. zoom_step kroot_laws. run_by ltac:(apply run_roll).
  destruct (_ =? _); [symmetry; apply zoom_ret, kroot_laws|apply IH].
Qed.

Lemma run_recover t k : run (mt_recover_after_loss t) k = zoom kroot_lens (recover_after_loss t) k.
Proof.
  unfold mt_recover_after_loss, recover_after_loss. zoom_step kroot_laws. run_step.
  destruct (_ <=? _); [symmetry; apply zoom_ret, kroot_laws|]. cbv zeta.
  destruct (_ <? _); [symmetry; apply zoom_ret, kroot_laws|apply run_roll_loop].
Qed.

Lemma zoom_derive (root : bytes) e q k :
  zoom kroot_lens (derive_message_key_from_root root e q) k = derive_message_key_from_root root e q k.
Proof.
  unfold derive_message_key_from_root. cbv zeta. destruct (hkdf_expand _ _ _); cbn [unwrap].
  - apply zoom_ret, kroot_laws.
  - unfold panic, zoom. by rewrite (lput_lget _ kroot_laws).
Qed.

Lemma run_derive e q k : run (mt_derive_message_key e q) k = zoom kroot_lens (derive_message_key e q) k.
Proof.
  unfold mt_derive_message_key, derive_message_key. zoom_step kroot_laws. run_step.
  rewrite run_act. symmetry. apply zoom_derive.
Qed.

Lemma zoom_chk w z k : zoom kroot_lens (chk_u w z) k = chk_u w z k.
Proof.
  unfold chk_u. destruct (_ && _); [apply zoom_ret, kroot_laws|].
  destruct overflow_checks; [unfold panic, zoom; by rewrite (lput_lget _ kroot_laws)|apply zoom_ret, kroot_laws].
Qed.

Lemma run_try_decrypt wire st o e q t k :
  run (mt_try_decrypt_with_evolution wire st o e q t) k =
  zoom kroot_lens (try_decrypt_with_evolution wire st o e q t) k.
Proof.
  unfold mt_try_decrypt_with_evolution, try_decrypt_with_evolution.
  do 2 (zoom_step kroot_laws; run_step). zoom_step kroot_laws. run_by ltac:(by rewrite run_act, zoom_derive).
  destruct (decrypt _ _ _ _ _ _ _); [symmetry; apply zoom_ret, kroot_laws|].
  zoom_step kroot_laws. run_by ltac:(by rewrite run_act, zoom_chk).
  destruct (_ =? _); [|symmetry; apply zoom_ret, kroot_laws].
  zoom_step kroot_laws. run_step. destruct a3 as [pend|]; [|symmetry; apply zoom_ret, kroot_laws].
  zoom_step kroot_laws. run_by ltac:(by rewrite run_act, zoom_derive).
  destruct (decrypt _ _ _ _ _ _ _); [|symmetry; apply zoom_ret, kroot_laws].
  zoom_step kroot_laws. run_by ltac:(apply run_commit). symmetry. apply zoom_ret, kroot_laws.
Qed.

Lemma run_keypair pk sk k : run (mt_generate_bob_keypair pk sk) k = zoom evo_lens (generate_bob_keypair pk sk) k.
Proof.
  destruct k. unfold mt_generate_bob_keypair, generate_bob_keypair, pqc_keypair, copy_prefix. unfold_run. simpl.
  destruct (_ <=? _); [|reflexivity]. by destruct (_ <=? _).
Qed.

Lemma run_set_pk pk k : run (mt_set_peer_public_key pk) k = zoom evo_lens (set_peer_public_key pk) k.
Proof. by destruct k. Qed.

Lemma run_start k : run mt_start_evolution k = zoom evo_lens start_evolution k.
Proof.
  destruct k as [[[] ? ? pk ? ?] ? ? ? ? ?].
  unfold mt_start_evolution, start_evolution, mt_read_root_state_curr, mt_set_root_state_pend,
    read_root_state_curr, set_root_state_pend, pqc_encapsulate, derive_pending_key. unfold_run. simpl.
  destruct (decide (pk = [])); [reflexivity|]. destruct (_ && _); [reflexivity|].
  destruct (kyber_encapsulate _ _).1 as [[ct ss]|]; [|reflexivity].
  destruct (to_array32 ss); [|reflexivity]. by destruct (hkdf_expand _ _ _).
Qed.

Lemma run_apply ct k : run (mt_apply_peer_kem ct) k = zoom evo_lens (apply_peer_kem ct) k.
Proof.
  destruct k as [[[] ? [pk sk] ? ? ?] ? ? ? ? ?].
  unfold mt_apply_peer_kem, apply_peer_kem, mt_read_root_state_curr, mt_set_root_state_pend,
    read_root_state_curr, set_root_state_pend, derive_pending_key. unfold_run. simpl.
  destruct (decide _); [reflexivity|]. destruct (kyber_decapsulate _ _) as [ss|]; [|reflexivity].
  destruct (to_array32 ss); [|reflexivity]. by destruct (hkdf_expand _ _ _).
Qed.

Lemma run_vault {R} (d : R) f k : run (mt_with_vault_or d f) k = with_vault_or d f k.
Proof.
  unfold mt_with_vault_or. rewrite run_bind. erewrite bind_done by (rewrite run_act; reflexivity).
  destruct (VFS k) as [[v p]|] eqn:E; [|unfold with_vault_or; by rewrite E].
  cbn [run]. rewrite run_bind. unfold mbind, M_bind. rewrite run_act. by destruct (with_vault_or d f k).
Qed.

Lemma run_validate k : run mt_validate_canary_slots k = validate_canary_slots k.
Proof.
  unfold mt_validate_canary_slots, validate_canary_slots. rewrite run_bind. erewrite bind_done by (rewrite run_act; reflexivity).
  destruct (VFS k) as [[v p]|] eqn:E.
  - cbn [run]. run_step. by destruct (_ =? _).
  - unfold mbind, M_bind, with_vault_or. by rewrite E.
Qed.

Lemma run_init a b pk k : run (mt_init_root_state a b pk) k = init_root_state a b pk k.
Proof.
  unfold mt_init_root_state, init_root_state. destruct a as [a|], b as [b|]; try reflexivity.
  destruct (_ || _); [reflexivity|]. unfold mt_initialise_root_state, initialise_root_state.
  destruct (_ || _); [reflexivity|]. cbv zeta. destruct (_ <? _); [reflexivity|].
  destruct (_ =? _); [reflexivity|]. do 3 run_step. reflexivity.
Qed.

Lemma run_id_stamp k : run mt_generate_id_stamp k = generate_id_stamp k.
Proof.
  unfold mt_generate_id_stamp, generate_id_stamp, generate_and_persist_id_stamp, generate_id_stamp_from_curr.
  rewrite bind_assoc. run_step. rewrite bind_assoc. run_step. apply run_vault.
Qed.

Lemma run_load out k : run (mt_load_id_stamp out) k = load_id_stamp out k.
Proof.
  unfold mt_load_id_stamp, load_id_stamp. destruct out as [o|]; [|reflexivity]. destruct (_ <? _); [reflexivity|].
  unfold read_id_stamp. rewrite bind_assoc. run_by ltac:(apply run_vault). by destruct (negb _).
Qed.

Lemma run_read_vault start n out k : run (mt_read_vault_blocks start n out) k = read_vault_blocks start n out k.
Proof.
  unfold mt_read_vault_blocks, read_vault_blocks. destruct out; [|reflexivity]. destruct (_ =? _); [reflexivity|].
  by run_by ltac:(apply run_vault).
Qed.
Lemma run_write_vault start n data k :
  run (mt_write_vault_blocks start n data) k = write_vault_blocks start n data k.
Proof.
  unfold mt_write_vault_blocks, write_vault_blocks. destruct data; [|reflexivity].
  destruct (_ =? _); [reflexivity|apply run_vault].
Qed.

Lemma run_auto_commit a ct st o e q t l d k :
  run (mt_decrypt_with_auto_commit a ct st o e q t l d) k = decrypt_with_auto_commit a ct st o e q t l d k.
Proof.
  unfold mt_decrypt_with_auto_commit, decrypt_with_auto_commit.
  destruct ct as [ct|], st as [st|], l; try reflexivity. destruct (_ =? _); [reflexivity|].
  by run_by ltac:(apply run_try_decrypt).
Qed.

Lemma run_gen_keypair pk sk k :
  run (mt_evolution_generate_bob_keypair pk sk) k = evolution_generate_bob_keypair pk sk k.
Proof.
  unfold mt_evolution_generate_bob_keypair, evolution_generate_bob_keypair.
  destruct pk as [pk|], sk as [sk|]; try reflexivity. destruct (_ || _); [reflexivity|].
  run_by ltac:(apply run_keypair). destruct a as [[code p] q]. by destruct (_ =? _).
Qed.

Lemma run_get_kem out k : run (mt_ffi_get_kem_cipher out) k = ffi_get_kem_cipher out k.
Proof.
  unfold mt_ffi_get_kem_cipher, ffi_get_kem_cipher. destruct out as [o|]; [|reflexivity].
  destruct (_ =? _); [reflexivity|]. run_by ltac:(apply run_guarded). destruct a as [n buf]. by destruct (_ =? _).
Qed.

Lemma run_init_clock k : run mt_init_clock_align k = ffi_init_clock_align k.
Proof. by destruct k. Qed.

Lemma run_num (p : kprog Z) (m : M kernel Z) k : (forall k, run p k = m k) -> run (mt_num p) k = num m k.
Proof. intros H. unfold mt_num, num. by run_by ltac:(apply H). Qed.

Lemma run_thread_of a h c k : run (thread_of a h c) k = exec a h c k.
Proof.
  destruct c; cbn [thread_of exec].
  - apply run_act.
  - by run_by ltac:(apply run_read_vault).
  - apply run_num. intros. apply run_write_vault.
  - apply run_num. intros. apply run_vault.
  - apply run_num. intros. apply run_vault.
  - apply run_num. intros. apply run_vault.
  - apply run_num. intros. apply run_vault.
  - apply run_num. intros. apply run_vault.
  - apply run_num. intros. apply run_vault.
  - apply run_num. intros. apply run_validate.
  - apply run_num. intros. apply run_act.
  - apply run_num. intros. apply run_vault.
  - apply run_act.
  - apply run_num. intros. apply run_init.
  - apply run_num. intros. apply run_guarded.
  - apply run_num. intros. apply run_id_stamp.
  - by run_by ltac:(apply run_load).
  - apply run_num. intros. apply run_act.
  - apply run_num. intros. apply run_act.
  - unfold ffi_derive_message_key. rewrite bind_assoc. by run_by ltac:(apply run_derive).
  - apply run_act.
  - apply run_act.
  - by run_by ltac:(apply run_auto_commit).
  - apply run_act.
  - apply run_act.
  - apply run_act.
  - by run_by ltac:(apply run_gen_keypair).
  - unfold num, evolution_set_peer_public_key. destruct pk as [pk|]; [|reflexivity]. destruct (_ =? _); [reflexivity|].
    rewrite bind_assoc. by run_by ltac:(apply run_set_pk).
  - apply run_num. intros. apply run_start.
  - unfold num, ffi_kem_cipher_len. rewrite bind_assoc. by run_by ltac:(apply run_guarded).
  - by run_by ltac:(apply run_get_kem).
  - unfold ffi_apply_peer_kem. destruct ct as [ct|]; [|reflexivity]. destruct (_ =? _); [reflexivity|].
    apply run_num. intros. apply run_apply.
  - apply run_num. intros. unfold ffi_commit_evolution, Evolution.commit_evolution. rewrite zoom_evo_root. apply run_commit.
  - apply run_num. intros. apply run_recover.
  - by run_by ltac:(apply run_init_clock).
  - apply run_num. intros. apply run_act.
Qed.

Lemma run_thread_of_all a h cs k : run (thread_of_all a h cs) k = exec_all a h cs k.
Proof.
  revert k. induction cs as [|c cs IH]; intros k; [reflexivity|]. cbn [thread_of_all exec_all].
  run_by ltac:(apply run_thread_of). by run_by ltac:(apply IH).
Qed.
End alone.

(** * The mutexes are acquired in order *)

Section order.
Context `{HP : Primitives} `{HB : BuildProfile}.

(** [p] acquires mutexes above those held, and holds at the end what it held before. *)
Definition tidy {A} (h : list mutex) (p : kprog A) : Prop := ordered mutex_rank h p (fun h' _ => h' = h).

Lemma tidy_ret {A} h (a : A) : tidy h (mret a).
Proof. done. Qed.
Lemma tidy_act {A} h (m : M kernel A) : tidy h (act m).
Proof. done. Qed.
Lemma tidy_bind {A B} h (p : kprog A) (k : A -> kprog B) :
  tidy h p -> (forall a, tidy h (k a)) -> tidy h (p ≫= k).
Proof.
  intros Hp Hk. apply ordered_bind. eapply ordered_mono; [exact Hp|]. intros h' a ->. apply Hk.
Qed.

(** Locking [l] above everything held. *)
Definition above (l : mutex) (h : list mutex) : Prop := Forall (fun l' => (mutex_rank l' < mutex_rank l)%nat) h.
Lemma above_not_in l h : above l h -> l ∉ h.
Proof. intros H Hl. unfold above in H. rewrite Forall_forall in H. specialize (H l Hl). lia. Qed.
Lemma above_lt l h : above l h -> forall l', l' ∈ h -> (mutex_rank l' < mutex_rank l)%nat.
Proof. intros H. by apply Forall_forall. Qed.

Lemma tidy_guarded {A} h l (m : M kernel A) : above l h -> tidy h (guarded l m).
Proof.
  intros Hl. apply ordered_guarded; [by apply above_lt|]. intros _. by apply release_cons, above_not_in.
Qed.

Lemma ordered_then {A B} h (p : kprog A) (k : A -> kprog B) K :
  tidy h p -> (forall a, ordered mutex_rank h (k a) K) -> ordered mutex_rank h (p ≫= k) K.
Proof.
  intros Hp Hk. apply ordered_bind. eapply ordered_mono; [exact Hp|]. intros h' a ->. apply Hk.
Qed.
Lemma ordered_lock {A} h l (p : kprog A) K :
  above l h -> ordered mutex_rank (l :: h) p K -> ordered mutex_rank h (lock l;; p) K.
Proof. intros Hl Hp. split; [by apply above_lt|]. split; [by intros []|]. exact Hp. Qed.
Lemma ordered_unlock {A} h l (p : kprog A) K :
  ordered mutex_rank (release l h) p K -> ordered mutex_rank h (unlock l;; p) K.
Proof. done. Qed.

Ltac above_tac := repeat constructor.
Ltac tidy_step := lazymatch goal with
  | |- tidy _ _ => unfold tidy
  | |- ordered _ _ (mret _) _ => reflexivity
  | |- ordered _ _ (unlock _) _ => reflexivity
  | |- ordered _ _ (act _) _ => apply tidy_act
  | |- ordered _ _ (on_root _) _ => apply tidy_act
  | |- ordered _ _ (on_evo _) _ => apply tidy_act
  | |- ordered _ _ (on_clock _) _ => apply tidy_act
  | |- ordered _ _ (guarded _ _) _ => apply tidy_guarded; above_tac
  | |- ordered _ _ (mbind _ (lock _)) _ => apply ordered_lock; [above_tac|]
  | |- ordered _ _ (mbind _ (unlock _)) _ => apply ordered_unlock
  | |- ordered _ _ (mbind _ _) _ => apply ordered_then; [|intros ?]
  | |- ordered _ _ (match ?x with _ => _ end) _ => destruct x
  | |- ordered _ ?h ?p _ => change (tidy h p); solve [eauto with tidy]
  end; cbv beta zeta.
Ltac tidy_tac := cbv beta zeta; repeat tidy_step.
Create HintDb tidy.

Lemma tidy_commit : tidy [] mt_commit_evolution.
Proof. unfold mt_commit_evolution. tidy_tac. Qed.
Lemma tidy_roll salt info : tidy [] (mt_roll_epoch_forward salt info).
Proof. unfold mt_roll_epoch_forward. tidy_tac. Qed.
Hint Resolve tidy_commit tidy_roll : tidy.
Lemma tidy_roll_loop n last : tidy [] (mt_roll_loop n last).
Proof.
  revert last. induction n as [|n IH]; intros last; [done|]. cbn [mt_roll_loop].
  apply tidy_bind; [apply tidy_roll|]. intros r. destruct (r =? u32_max); [done|apply IH].
Qed.
Hint Resolve tidy_roll_loop : tidy.
Lemma tidy_recover t : tidy [] (mt_recover_after_loss t).
Proof. unfold mt_recover_after_loss, mt_read_epoch_id. tidy_tac. Qed.
Lemma tidy_try_decrypt wire st o e q t : tidy [] (mt_try_decrypt_with_evolution wire st o e q t).
Proof.
  unfold mt_try_decrypt_with_evolution, mt_read_root_state_curr, mt_read_epoch_id, mt_read_root_state_pend.
  tidy_tac.
Qed.
Lemma tidy_start : tidy [] mt_start_evolution.
Proof. unfold mt_start_evolution, mt_read_root_state_curr, mt_set_root_state_pend. tidy_tac. Qed.
Lemma tidy_set_pk pk : tidy [] (mt_set_peer_public_key pk).
Proof. unfold mt_set_peer_public_key. tidy_tac. Qed.
Lemma tidy_apply ct : tidy [] (mt_apply_peer_kem ct).
Proof. unfold mt_apply_peer_kem, mt_read_root_state_curr, mt_set_root_state_pend. tidy_tac. Qed.
Lemma tidy_keypair pk sk : tidy [] (mt_generate_bob_keypair pk sk).
Proof. unfold mt_generate_bob_keypair. tidy_tac. Qed.
Lemma tidy_vault {R} (d : R) f : tidy [] (mt_with_vault_or d f).
Proof.
  unfold mt_with_vault_or. apply tidy_bind; [apply tidy_act|]. intros [vfs|]; [|done].
  split; [by intros l ?%elem_of_nil|]. split; [done|].
  change (ordered mutex_rank [L_vault] (r ← act (with_vault_or d f); unlock L_vault;; mret r) (fun h' _ => h' = [])).
  tidy_tac.
Qed.
Lemma tidy_validate : tidy [] mt_validate_canary_slots.
Proof.
  unfold mt_validate_canary_slots. apply tidy_bind; [apply tidy_act|]. intros [vfs|]; [|done].
  split; [by intros l ?%elem_of_nil|]. split; [done|].
  intros code. change (ordered mutex_rank [L_vault]
    ((if code =? 0 then act (modify (with_CANARY true)) else mret tt);; unlock L_vault;; mret code) (fun h' _ => h' = [])).
  tidy_tac.
Qed.
Hint Resolve tidy_recover tidy_try_decrypt tidy_start tidy_set_pk tidy_apply tidy_keypair tidy_vault tidy_validate : tidy.

Lemma tidy_thread_of a h c : tidy [] (thread_of a h c).
Proof.
  destruct c; cbn [thread_of];
    unfold mt_num, mt_read_vault_blocks, mt_write_vault_blocks, mt_allocate_vault_block, mt_free_vault_block,
      mt_secure_erase_block, mt_register_touch_offset, mt_vault_total_blocks, mt_vault_free_blocks,
      mt_canary_slots_intact, mt_init_canary_slots, mt_init_root_state, mt_initialise_root_state,
      mt_store_bob_public_key, mt_set_root_state_curr, mt_set_epoch_id, mt_read_epoch_id, mt_generate_id_stamp,
      mt_read_root_state_curr, mt_read_bob_pk, mt_vault_write_block, mt_load_id_stamp, mt_vault_read_block,
      mt_next_msg_seq, mt_current_msg_seq, mt_derive_message_key, mt_read_root_state_curr,
      mt_decrypt_with_auto_commit, mt_evolution_generate_bob_keypair, mt_kem_cipher_len, mt_ffi_get_kem_cipher,
      mt_get_kem_cipher, mt_init_clock_align, mt_estimated_clock_skew; tidy_tac.
Qed.

Lemma tidy_thread_of_all a h cs : tidy [] (thread_of_all a h cs).
Proof.
  induction cs as [|c cs IH]; [done|]. cbn [thread_of_all]. apply tidy_bind; [apply tidy_thread_of|].
  intros r. by apply tidy_bind.
Qed.
End order.
