(* ===== verification/SysCalls.v ===== *)
(** The vault at the granularity of its system calls.

    The vault's mutex protects the volume in memory, not the file: [init_virtual_volume]
    opens and creates files before there is a mutex, and [purge_vault] overwrites the file
    without taking it.  Here every system call is an action of its own, so that these
    functions run in threads beside all others.

    - [fprog], [vprog], [wprog]: programs without locks over the file system, a volume and
      the purge, whose actions are single system calls, random draws or changes of the
      volume in memory; [lift] runs them inside the kernel.
    - [sc_thread_of]: every call of [call] as a program of threads.
    - [run_sc_thread_of]: a call nobody disturbs is the sequential [exec];
      [tidy_sc_thread_of]: mutexes are acquired in order. *)
From S2P Require Import Prelude Effects Threads Crypto MemoryProtection RootState AntiDos TailPadding MessageCipher Evolution StdFs VolumeLayout VirtualVolume VolumeProofs VolumeTotal ClockAlign DiskWipe Kernel InitModule Ffi Exports Locks.

(** * Programs without locks *)

Abbreviation lockfree S := (prog Empty_set S).

Section lift.
Context {L S T : Type} (z : forall B, M S B -> M T B).
(** The same actions in a larger state. *)
Fixpoint lift {A} (p : lockfree S A) : prog L T A :=
  match p with
  | Ret a => Ret a
  | Lock l _ _ => match l with end
  | Unlock l _ => match l with end
  | Act m k => Act (z _ m) (fun b => lift (k b))
  end.
End lift.

(** The operator [?] in programs. *)
Definition ptry {L S A B} (k : A -> prog L S (result B)) (r : result A) : prog L S (result B) :=
  match r with Ok a => k a | Err e => mret (Err e) end.
Notation "x <-! m ; k" := (mbind (ptry (fun x => k)) m)
  (at level 20, m at level 100, k at level 200, only parsing) : effect_scope.
Notation "m ;;! k" := (mbind (ptry (fun _ => k)) m)
  (at level 100, right associativity, only parsing) : effect_scope.

Section programs.
Context `{HP : Primitives} `{HB : BuildProfile}.

Abbreviation fprog := (lockfree fs).
Abbreviation vprog := (lockfree vol_env).
Abbreviation wprog := (lockfree wipe_env).

(** * [virtual_volume.rs] *)

(** ** Opening *)

Definition sc_or_close {A} (fd : Z) (p : fprog (result A)) : fprog (result A) :=
  r ← p; match r with Ok a => mret (Ok a) | Err e => act (close fd);; mret (Err e) end.

Definition sc_create_new (path : string) (master_key : bytes) (total_data_blocks : Z) :
    fprog (result VirtualVolume) :=
  total_blocks ← act (chk_u 64 (DATA_START_BLOCK + total_data_blocks));
  total_size ← act (chk_u 64 (total_blocks * BLOCK_SIZE));
  file <-! act (open_create_new path);
  sc_or_close file (
    act (set_len file total_size) ;;!
    let key_hash := hash_master_key master_key in
    let sb := {| version := VAULT_VERSION; sb_total_blocks := total_blocks;
                 sb_free_blocks := total_data_blocks; master_key_hash := key_hash |} in
    let raw := write_superblock (repZ BLOCK_SIZE 0) sb in
    act (seek file 0) ;;!
    act (write_all file raw) ;;!
    let bitmap := repZ BITMAP_BYTES 0 in
    act (seek file (BITMAP_START_BLOCK * BLOCK_SIZE)) ;;!
    act (write_all file bitmap) ;;!
    act (sync_all file) ;;!
    mret (Ok (Volume file master_key total_blocks total_data_blocks bitmap path 0))).

Definition sc_open_existing (path : string) (master_key : bytes) : fprog (result VirtualVolume) :=
  file <-! act (open_rw path);
  sc_or_close file (
    act (seek file 0) ;;!
    raw <-! act (read_exact file BLOCK_SIZE);
    match read_superblock raw with
    | None => mret (Err InvalidData)
    | Some sb =>
        let key_hash := hash_master_key master_key in
        if negb (bool_decide (key_hash = master_key_hash sb)) then mret (Err PermissionDenied)
        else
          act (seek file (BITMAP_START_BLOCK * BLOCK_SIZE)) ;;!
          bitmap <-! act (read_exact file BITMAP_BYTES);
          if (sb_total_blocks sb <? DATA_START_BLOCK) ||
             (DATA_START_BLOCK + MAX_DATA_BLOCKS <? sb_total_blocks sb)
          then mret (Err InvalidData)
          else
            let total_data := sb_total_blocks sb - DATA_START_BLOCK in
            actual_free ← act (recount bitmap (seqZ 0 total_data) 0);
            mret (Ok (Volume file master_key (sb_total_blocks sb) actual_free bitmap path 0))
    end).

Definition sc_path_exists (path : string) : fprog bool := r ← act (metadata path); mret (is_ok r).

Definition sc_open_or_create (path : string) (master_key : bytes) (total_data_blocks : Z) :
    fprog (result VirtualVolume) :=
  if MAX_DATA_BLOCKS <? total_data_blocks then mret (Err InvalidInput)
  else
    m ← act (metadata path);
    let is_empty := match m with Ok nd => lenZ (i_data nd) =? 0 | Err _ => true end in
    ex ← sc_path_exists path;
    if ex && negb is_empty then sc_open_existing path master_key
    else
      ex ← sc_path_exists path;
      (if (ex : bool) then _ ← act (remove_file path); mret tt else mret tt);;
      sc_create_new path master_key total_data_blocks.

(** ** Block I/O *)

Definition sys {A} (m : M fs A) : vprog A := act (io m).

Definition sc_freeze_timestamps : vprog (result unit) :=
  v ← act (gets e_vol);
  meta <-! sys (metadata (vault_path v));
  let atime := filetime_from_systemtime (i_atime meta) in
  let mtime := filetime_from_systemtime (i_mtime meta) in
  if has_nul (vault_path v) then mret (Err InvalidInput)
  else sys (utimes (vault_path v) atime mtime).

Definition sc_write_bitmap : vprog (result unit) :=
  v ← act (gets e_vol);
  act (debug_assert (lenZ (block_bitmap v) =? BITMAP_BYTES));;
  sys (seek (file v) (BITMAP_START_BLOCK * BLOCK_SIZE)) ;;!
  sys (write_all (file v) (block_bitmap v)) ;;!
  sys (sync_all (file v)) ;;!
  sc_freeze_timestamps ;;!
  mret (Ok tt).

Definition sc_read_block (block_idx : Z) : vprog (result bytes) :=
  act (check_data_block block_idx) ;;!
  v ← act (gets e_vol);
  disk_offset ← act (chk_u 64 (block_idx * BLOCK_SIZE));
  sys (seek (file v) disk_offset) ;;!
  raw <-! sys (read_exact (file v) BLOCK_SIZE);
  let stored_nonce := takeZ NONCE_SIZE raw in
  let ciphertext := dropZ NONCE_SIZE raw in
  let key := derive_block_key (master_key v) block_idx in
  match chacha_decrypt key stored_nonce ciphertext with
  | None => mret (Err InvalidData)
  | Some plaintext =>
      if lenZ plaintext =? PAYLOAD_SIZE then mret (Ok plaintext) else crash
  end.

Definition sc_write_block (block_idx : Z) (plaintext : bytes) : vprog (result unit) :=
  act (check_data_block block_idx) ;;!
  v ← act (gets e_vol);
  nonce_bytes ← act (zoom rng_lens (draw_bytes NONCE_SIZE));
  let key := derive_block_key (master_key v) block_idx in
  match chacha_encrypt key nonce_bytes plaintext with
  | None => mret (Err OtherKind)
  | Some ciphertext =>
      act (debug_assert (lenZ ciphertext =? BLOCK_SIZE - NONCE_SIZE));;
      disk_offset ← act (chk_u 64 (block_idx * BLOCK_SIZE));
      sys (seek (file v) disk_offset) ;;!
      sys (write_all (file v) nonce_bytes) ;;!
      sys (write_all (file v) ciphertext) ;;!
      sc_freeze_timestamps ;;!
      mret (Ok tt)
  end.

(** ** Block allocation; the bitmap and the free count in memory change together. *)

Definition sc_mark (f : bytes -> Z -> option bytes) (bit_idx n : Z) : vprog unit :=
  act (mark f bit_idx;; add_free n).

Fixpoint sc_allocate_scan (idxs : list Z) : vprog (result Z) :=
  match idxs with
  | [] => mret (Err StorageFull)
  | bit_idx :: idxs =>
      v ← act (gets e_vol);
      free ← act (unwrap (bit_is_free (block_bitmap v) bit_idx));
      if (free : bool) then
        sc_mark bit_set bit_idx (-1);;
        let block_idx := DATA_START_BLOCK + bit_idx in
        sc_write_bitmap ;;!
        mret (Ok block_idx)
      else sc_allocate_scan idxs
  end.

Definition sc_allocate_block : vprog (result Z) :=
  v ← act (gets e_vol);
  if free_blocks v =? 0 then mret (Err StorageFull)
  else
    total_data ← act (chk_u 64 (total_blocks v - DATA_START_BLOCK));
    sc_allocate_scan (seqZ 0 total_data).

Definition sc_reserve_block (block_idx : Z) : vprog (result unit) :=
  act (check_data_block block_idx) ;;!
  v ← act (gets e_vol);
  let bit_idx := block_idx - DATA_START_BLOCK in
  free ← act (unwrap (bit_is_free (block_bitmap v) bit_idx));
  if negb free then mret (Ok tt)
  else
    sc_mark bit_set bit_idx (-1);;
    sc_write_bitmap.

Definition sc_free_block (block_idx : Z) : vprog (result unit) :=
  act (check_data_block block_idx) ;;!
  v ← act (gets e_vol);
  let bit_idx := block_idx - DATA_START_BLOCK in
  free ← act (unwrap (bit_is_free (block_bitmap v) bit_idx));
  if (free : bool) then mret (Err InvalidInput)
  else
    sc_mark bit_clear bit_idx 1;;
    sc_write_bitmap ;;!
    mret (Ok tt).

(** ** [Drop] of a volume that no thread can see *)

Definition sc_drop_volume (v : VirtualVolume) : fprog unit :=
  _ ← act (sync_all (file v)); act (close (file v)).

(** * [disk_wipe.rs] *)

Definition wsys {A} (m : M fs A) : wprog A := act (wio m).

Fixpoint sc_pass (chunk : Z -> M wipe_env bytes) (fuel : nat) (file remaining : Z) : wprog (result unit) :=
  if remaining <=? 0 then mret (Ok tt)
  else match fuel with
  | O => crash
  | S fuel =>
      let take := Z.min remaining WIPE_CHUNK in
      data ← act (chunk take);
      wsys (write_all file data) ;;!
      sc_pass chunk fuel file (remaining - take)
  end.

Definition sc_overwrite (file file_size : Z) : wprog (result unit) :=
  wsys (seek file 0) ;;!
  sc_pass (fun take => zoom wrng_lens (draw_bytes take)) (pass_fuel file_size) file file_size ;;!
  wsys (sync_all file) ;;!
  wsys (seek file 0) ;;!
  sc_pass (fun take => mret (repZ take 0)) (pass_fuel file_size) file file_size ;;!
  wsys (sync_all file).

Definition sc_purge_entire_vault (path : string) : wprog (result unit) :=
  meta <-! wsys (metadata path);
  let file_size := lenZ (i_data meta) in
  if file_size =? 0 then mret (Ok tt)
  else
    file <-! wsys (open_rw path);
    r ← (sc_overwrite file file_size ;;! wsys (set_len file 0) ;;! wsys (sync_all file));
    wsys (close file);;
    mret r.

(** * [lib.rs] *)

(** The contents of the locked mutex, with the file system and the generator. *)
Definition on_vault {A} (m : M vol_env A) : M kernel A := fun k =>
  match VFS k with
  | Some (v, _) =>
      match m (env_of v k) with
      | Done r e => Done r (put_env e false k)
      | Panicked e => Panicked (put_env e true k)
      | Exited c e => Exited c (put_env e false k)
      end
  | None => Panicked k
  end.
Definition is_poisoned (k : kernel) : bool := match VFS k with Some (_, p) => p | None => false end.

(** The guard lives until [f] and then [g], which needs no volume, are done. *)
Definition sc_with_vault {R} (default : R) (f : vprog R) (g : R -> kprog unit) : kprog R :=
  vfs ← act (gets VFS);
  match vfs with
  | None => mret default
  | Some _ =>
      Lock L_vault (Ret default)
        (p ← act (gets is_poisoned);
         if (p : bool) then unlock L_vault;; mret default
         else r ← lift (@on_vault) f; g r;; unlock L_vault;; mret r)
  end.
Definition sc_with_vault_or {R} (default : R) (f : vprog R) : kprog R :=
  sc_with_vault default f (fun _ => mret tt).

Definition sc_vault_read_block (idx : Z) (out : bytes) : kprog (Z * bytes) :=
  sc_with_vault_or (1, out) (r ← sc_read_block idx;
    mret (match r with Ok p => (0, p) | Err _ => (1, out) end)).
Definition sc_vault_write_block (idx : Z) (data : bytes) : kprog Z :=
  sc_with_vault_or 1 (r ← sc_write_block idx data; mret (match r with Ok _ => 0 | Err _ => 1 end)).

(** [OnceLock::set]: one thread wins; the others drop their volume. *)
Definition try_set (v : VirtualVolume) : M kernel bool := fun k =>
  match VFS k with
  | None => Done true (with_VFS (Some (v, false)) k)
  | Some _ => Done false k
  end.
Definition sc_set_VFS (v : VirtualVolume) : kprog unit :=
  was_set ← act (try_set v);
  if (was_set : bool) then mret tt else lift (fun B => zoom (A := B) kfs_lens) (sc_drop_volume v).

Definition sc_init_virtual_volume (path key : option bytes) (total : Z) : kprog Z :=
  match path, key with
  | Some path, Some key =>
      if (lenZ path =? 0) || (lenZ key <? 32) then mret 1
      else match from_utf8 path with
      | None => mret 2
      | Some path =>
          let mk := takeZ 32 key in
          r ← lift (fun B => zoom (A := B) kfs_lens) (sc_open_or_create path mk total);
          match r with
          | Err _ => mret 3
          | Ok vault => sc_set_VFS vault;; mret 0
          end
      end
  | _, _ => mret 1
  end.

Fixpoint sc_read_blocks (start : Z) (idxs : list Z) (out : bytes) (c : Z) : vprog (Z * bytes) :=
  match idxs with
  | [] => mret (c, out)
  | i :: idxs =>
      idx ← act (chk_u 64 (start + i));
      r ← sc_read_block idx;
      match r with
      | Ok buf => sc_read_blocks start idxs (splice (i * PAYLOAD_SIZE) buf out) (c + 1)
      | Err _ => mret (c, out)
      end
  end.
Definition sc_read_vault_blocks (start n : Z) (out : option bytes) : kprog (Z * option bytes) :=
  match out with
  | Some out' =>
      if n =? 0 then mret (0, out)
      else r ← sc_with_vault_or (0, out') (sc_read_blocks start (seqZ 0 n) out' 0); mret (r.1, Some r.2)
  | None => mret (0, out)
  end.
Fixpoint sc_write_blocks (start : Z) (idxs : list Z) (data : bytes) (c : Z) : vprog Z :=
  match idxs with
  | [] => mret c
  | i :: idxs =>
      let buf := slice (i * PAYLOAD_SIZE) ((i + 1) * PAYLOAD_SIZE) data in
      idx ← act (chk_u 64 (start + i));
      r ← sc_write_block idx buf;
      match r with Ok _ => sc_write_blocks start idxs data (c + 1) | Err _ => mret c end
  end.
Definition sc_write_vault_blocks (start n : Z) (data : option bytes) : kprog Z :=
  match data with
  | Some data => if n =? 0 then mret 0 else sc_with_vault_or 0 (sc_write_blocks start (seqZ 0 n) data 0)
  | None => mret 0
  end.

Definition sc_allocate_vault_block : kprog Z :=
  sc_with_vault_or u64_max (r ← sc_allocate_block; mret (match r with Ok i => i | Err _ => u64_max end)).
Definition sc_free_vault_block (idx : Z) : kprog Z :=
  sc_with_vault_or 1 (r ← sc_free_block idx; mret (match r with Ok _ => 0 | Err _ => 3 end)).
Definition sc_secure_erase_block (idx : Z) : kprog Z :=
  sc_with_vault_or 1 (
    payload ← act (zoom rng_lens (draw_bytes PAYLOAD_SIZE));
    w ← sc_write_block idx payload;
    match w with
    | Err _ => mret 3
    | Ok _ => r ← sc_free_block idx; mret (match r with Ok _ => 0 | Err _ => 3 end)
    end).
Definition sc_register_touch_offset (block offset : Z) : kprog Z :=
  sc_with_vault_or 1 (act (register_touch block offset);; mret 0).
Definition sc_vault_total_blocks : kprog Z := sc_with_vault_or 0 (act (gets (fun e => total_blocks (e_vol e)))).
Definition sc_vault_free_blocks : kprog Z := sc_with_vault_or 0 (act (gets (fun e => free_blocks (e_vol e)))).

Fixpoint sc_check_canaries (bs : list Z) : vprog Z :=
  match bs with
  | [] => mret 0
  | b :: bs =>
      r ← sc_read_block b;
      match r with
      | Err _ => mret 2
      | Ok buf => if bool_decide (takeZ 6 buf = canary_magic) then sc_check_canaries bs else mret 2
      end
  end.
Definition sc_validate_canary_slots : kprog Z :=
  sc_with_vault 1 (sc_check_canaries (seqZ 995 5))
    (fun code => if code =? 0 then act (modify (with_CANARY true)) else mret tt).
Fixpoint sc_reserve_all (bs : list Z) : vprog unit :=
  match bs with
  | [] => mret tt
  | b :: bs => _ ← sc_reserve_block b; sc_reserve_all bs
  end.
Fixpoint sc_write_canaries (slots : list Z) : vprog Z :=
  match slots with
  | [] => mret 0
  | slot :: slots =>
      noise ← act (zoom rng_lens (draw_bytes (PAYLOAD_SIZE - 8)));
      r ← sc_write_block (995 + slot) (canary_payload slot noise);
      match r with Ok _ => sc_write_canaries slots | Err _ => mret 2 end
  end.
Definition sc_init_canary_slots : kprog Z :=
  sc_with_vault_or 1 (sc_reserve_all (seqZ 994 6);; sc_write_canaries (seqZ 0 5)).

Definition sc_purge_vault (sigterm_handled : bool) (path : option bytes) : kprog Z :=
  match path with
  | None => mret 1
  | Some path =>
      if lenZ path =? 0 then mret 1
      else match from_utf8 path with
      | None => mret 2
      | Some path =>
          r ← lift (fun B => zoom (A := B) wipe_lens) (sc_purge_entire_vault path);
          match r with
          | Ok _ => act (execute_panic_exit sigterm_handled)
          | Err _ => mret 3
          end
      end
  end.

(** * [init_module.rs] *)

Definition sc_generate_id_stamp : kprog Z :=
  curr ← mt_read_root_state_curr;
  pk ← mt_read_bob_pk;
  let stamp := compute_id_stamp curr pk in
  sc_vault_write_block 994 (splice 0 stamp (repZ 4068 0)).
Definition sc_load_id_stamp (out : option bytes) : kprog (Z * option bytes) :=
  match out with
  | None => mret (1, None)
  | Some o =>
      if lenZ o <? 32 then mret (1, Some o)
      else
        r ← sc_vault_read_block 994 (repZ 4068 0);
        if negb (r.1 =? 0) then mret (1, Some o)
        else mret (0, Some (splice 0 (takeZ 32 r.2) o))
  end.

(** * Exported calls *)

Context (alloc_ok : Z -> bool) (sigterm_handled : bool).

Definition sc_thread_of (c : call) : kprog reply :=
  match c with
  | InitVirtualVolume path key total => mt_num (sc_init_virtual_volume path key total)
  | ReadVaultBlocks start n out => r ← sc_read_vault_blocks start n out; mret (RMem r.1 r.2)
  | WriteVaultBlocks start n data => mt_num (sc_write_vault_blocks start n data)
  | AllocateVaultBlock => mt_num sc_allocate_vault_block
  | FreeVaultBlock idx => mt_num (sc_free_vault_block idx)
  | SecureEraseBlock idx => mt_num (sc_secure_erase_block idx)
  | RegisterTouchOffset block offset => mt_num (sc_register_touch_offset block offset)
  | VaultTotalBlocks => mt_num sc_vault_total_blocks
  | VaultFreeBlocks => mt_num sc_vault_free_blocks
  | ValidateCanarySlots => mt_num sc_validate_canary_slots
  | InitCanarySlots => mt_num sc_init_canary_slots
  | PurgeVault path => mt_num (sc_purge_vault sigterm_handled path)
  | GenerateIdStamp => mt_num sc_generate_id_stamp
  | LoadIdStamp out => r ← sc_load_id_stamp out; mret (RMem r.1 r.2)
  | c => thread_of alloc_ok sigterm_handled c
  end.
Fixpoint sc_thread_of_all (cs : list call) : kprog (list reply) :=
  match cs with
  | [] => mret []
  | c :: cs => r ← sc_thread_of c; rs ← sc_thread_of_all cs; mret (r :: rs)
  end.
End programs.

(** * A call on its own is the sequential one *)

Section lifted.
Context {L S T : Type}.

Lemma run_lift_zoom {A} (l : lens S T) (p : lockfree S A) t :
  lens_laws l -> run (lift (L := L) (fun B => zoom (A := B) l) p) t = zoom l (run p) t.
Proof.
  intros Hl. revert t. induction p as [a|[]|[]|B m k IH]; intros t; [symmetry; by apply zoom_ret|].
  cbn [lift run]. rewrite zoom_bind by done. by apply bind_ext.
Qed.
End lifted.

Section alone.
Context `{HP : Primitives} `{HB : BuildProfile}.

Lemma run_ptry {L S A B} (k : A -> prog L S (result B)) r s :
  run (ptry k r) s = try_bind (fun a => run (k a)) r s.
Proof. by destruct r. Qed.

(** Both sides make the same call, or choose the same branch. *)
Create HintDb run.
Ltac run_step := first
  [ reflexivity
  | apply run_act
  | solve [eauto with run]
  | rewrite run_bind; apply bind_cong; [|intros ? ?]
  | match goal with |- run (ptry _ ?r) _ = _ => destruct r; cbn [ptry try_bind] end
  | match goal with |- context [match ?x with _ => _ end] => destruct x end ].
Ltac run_tac := cbv beta zeta; repeat (run_step; cbv beta zeta).

Lemma run_or_close {A} fd (p : lockfree fs (result A)) m s :
  (forall s, run p s = m s) -> run (sc_or_close fd p) s = or_close fd m s.
Proof. intros H. unfold sc_or_close, or_close. rewrite run_bind. apply bind_cong; [done|]. intros [] s'; run_tac. Qed.
Lemma run_create_new path key n s : run (sc_create_new path key n) s = create_new path key n s.
Proof.
  unfold sc_create_new, create_new. do 3 (rewrite run_bind; apply bind_cong; [apply run_act|intros ? ?]).
  destruct a1; [|done]. cbn [ptry try_bind]. apply run_or_close. intros s2. run_tac.
Qed.
Lemma run_open_existing path key s : run (sc_open_existing path key) s = open_existing path key s.
Proof.
  unfold sc_open_existing, open_existing. rewrite run_bind. apply bind_cong; [apply run_act|intros r s1].
  destruct r; [|done]. cbn [ptry try_bind]. apply run_or_close. intros s2. run_tac.
Qed.
Hint Resolve run_create_new run_open_existing : run.
Lemma run_open_or_create path key n s : run (sc_open_or_create path key n) s = open_or_create path key n s.
Proof. unfold sc_open_or_create, open_or_create, sc_path_exists, path_exists. run_tac. Qed.

Lemma run_freeze e : run sc_freeze_timestamps e = freeze_timestamps e.
Proof. unfold sc_freeze_timestamps, freeze_timestamps. run_tac. Qed.
Hint Resolve run_freeze : run.
Lemma run_write_bitmap e : run sc_write_bitmap e = write_bitmap e.
Proof. unfold sc_write_bitmap, write_bitmap. run_tac. Qed.
Hint Resolve run_write_bitmap : run.
Lemma run_read_block i e : run (sc_read_block i) e = read_block i e.
Proof. unfold sc_read_block, read_block. run_tac. Qed.
Lemma run_write_block i p e : run (sc_write_block i p) e = write_block i p e.
Proof. unfold sc_write_block, write_block. run_tac. Qed.
Hint Resolve run_read_block run_write_block : run.

(** The two halves of a change in memory. *)
Lemma run_mark {A} f i n (p : lockfree vol_env A) m e :
  (forall e, run p e = m e) -> run (sc_mark f i n;; p) e = (mark f i;; add_free n;; m) e.
Proof.
  intros H. rewrite run_bind. unfold sc_mark. rewrite <- bind_assoc. apply bind_cong; [apply run_act|auto].
Qed.
Lemma run_allocate_scan idxs e : run (sc_allocate_scan idxs) e = allocate_scan idxs e.
Proof.
  revert e. induction idxs as [|i idxs IH]; intros e; [done|]. cbn [sc_allocate_scan allocate_scan].
  do 2 (rewrite run_bind; apply bind_cong; [apply run_act|intros ? ?]). destruct a0; [|done].
  apply run_mark. intros e'. run_tac.
Qed.
Hint Resolve run_allocate_scan : run.
Lemma run_allocate e : run sc_allocate_block e = allocate_block e.
Proof. unfold sc_allocate_block, allocate_block. run_tac. Qed.
Lemma run_reserve i e : run (sc_reserve_block i) e = reserve_block i e.
Proof.
  unfold sc_reserve_block, reserve_block. rewrite run_bind. apply bind_cong; [apply run_act|intros r e1].
  destruct r; [|done]. cbn [ptry try_bind].
  do 2 (rewrite run_bind; apply bind_cong; [apply run_act|intros ? ?]). destruct a1; [|done].
  apply run_mark. intros e'. run_tac.
Qed.
Lemma run_free i e : run (sc_free_block i) e = free_block i e.
Proof.
  unfold sc_free_block, free_block. rewrite run_bind. apply bind_cong; [apply run_act|intros r e1].
  destruct r; [|done]. cbn [ptry try_bind].
  do 2 (rewrite run_bind; apply bind_cong; [apply run_act|intros ? ?]). destruct a1; [done|].
  apply run_mark. intros e'. run_tac.
Qed.
Hint Resolve run_allocate run_reserve run_free : run.

Lemma run_read_blocks start idxs out c e : run (sc_read_blocks start idxs out c) e = read_blocks start idxs out c e.
Proof. revert out c e. induction idxs as [|i idxs IH]; intros out c e; [done|]. cbn [sc_read_blocks read_blocks]. run_tac. Qed.
Lemma run_write_blocks start idxs data c e : run (sc_write_blocks start idxs data c) e = write_blocks start idxs data c e.
Proof. revert c e. induction idxs as [|i idxs IH]; intros c e; [done|]. cbn [sc_write_blocks write_blocks]. run_tac. Qed.
Lemma run_check_canaries bs e : run (sc_check_canaries bs) e = check_canaries bs e.
Proof. revert e. induction bs as [|b bs IH]; intros e; [done|]. cbn [sc_check_canaries check_canaries]. run_tac. Qed.
Lemma run_reserve_all bs e : run (sc_reserve_all bs) e = reserve_all bs e.
Proof. revert e. induction bs as [|b bs IH]; intros e; [done|]. cbn [sc_reserve_all reserve_all]. run_tac. Qed.
Lemma run_write_canaries bs e : run (sc_write_canaries bs) e = write_canaries bs e.
Proof. revert e. induction bs as [|b bs IH]; intros e; [done|]. cbn [sc_write_canaries write_canaries]. run_tac. Qed.
Hint Resolve run_read_blocks run_write_blocks run_check_canaries run_reserve_all run_write_canaries : run.

Lemma run_pass chunk fuel fd n e : run (sc_pass chunk fuel fd n) e = pass chunk fuel fd n e.
Proof. revert n e. induction fuel as [|fuel IH]; intros n e; cbn [sc_pass pass]; run_tac. Qed.
Hint Resolve run_pass : run.
Lemma run_overwrite fd n e : run (sc_overwrite fd n) e = overwrite fd n e.
Proof. unfold sc_overwrite, overwrite, random_pass, zero_pass. run_tac. Qed.
Hint Resolve run_overwrite : run.
Lemma run_purge path e : run (sc_purge_entire_vault path) e = purge_entire_vault path e.
Proof. unfold sc_purge_entire_vault, purge_entire_vault, truncate_file. run_tac. Qed.
Hint Resolve run_purge : run.

Lemma run_on_vault {A} (p : lockfree vol_env A) v k :
  VFS k = Some (v, false) ->
  run (lift (L := mutex) (@on_vault HP) p) k =
    match run p (env_of v k) with
    | Done r e => Done r (put_env e false k)
    | Panicked e => Panicked (put_env e true k)
    | Exited c e => Exited c (put_env e false k)
    end.
Proof.
  revert v k. induction p as [a|[]|[]|B m f IH]; intros v k E.
  - cbn. by destruct k as [[]]; simplify_eq/=.
  - cbn [lift run]. unfold mbind, M_bind, on_vault at 1. rewrite E.
    destruct (m (env_of v k)) as [b e|e|c e]; [|done..].
    rewrite (IH b (e_vol e)) by done. replace (env_of (e_vol e) (put_env e false k)) with e by (by destruct e, k as [[]]).
    by destruct (run (f b) e).
Qed.

Lemma run_with_vault {R} (d : R) (f : lockfree vol_env R) g m h k :
  (forall e, run f e = m e) -> (forall r k, run (g r) k = h r k) -> (forall k, h d k = Done tt k) ->
  run (sc_with_vault d f g) k = (r ← with_vault_or d m; h r;; mret r) k.
Proof.
  intros Hf Hg Hd. unfold sc_with_vault. rewrite run_bind. erewrite bind_done by (rewrite run_act; reflexivity).
  assert (with_vault_or d m k = Done d k -> (r ← with_vault_or d m; h r;; mret r) k = Done d k) as Hdef.
  { intros Em. erewrite bind_done by exact Em. by erewrite bind_done by apply Hd. }
  destruct (VFS k) as [[v p]|] eqn:E; [|symmetry; apply Hdef; unfold with_vault_or; by rewrite E].
  cbn [run]. rewrite run_bind. erewrite bind_done by (rewrite run_act; reflexivity). unfold is_poisoned. rewrite E.
  destruct p; [symmetry; apply Hdef; unfold with_vault_or; by rewrite E|].
  rewrite run_bind. apply bind_cong.
  - rewrite (run_on_vault f v k E), Hf. unfold with_vault_or. by rewrite E.
  - intros r k'. rewrite run_bind. apply bind_cong; [apply Hg|done].
Qed.
Lemma run_with_vault_or {R} (d : R) (f : lockfree vol_env R) m k :
  (forall e, run f e = m e) -> run (sc_with_vault_or d f) k = with_vault_or d m k.
Proof.
  intros Hf. unfold sc_with_vault_or. rewrite (run_with_vault d f _ m (fun _ k => Done tt k)) by done.
  unfold mbind, M_bind. by destruct (with_vault_or d m k).
Qed.
Hint Extern 1 (run (sc_with_vault_or _ _) _ = _) => apply run_with_vault_or; intros; run_tac : run.

(** What the exported functions do under the vault's mutex. *)
Lemma run_result {A R} (p : lockfree vol_env A) (m : M vol_env A) (f : A -> R) e :
  (forall e, run p e = m e) -> run (r ← p; mret (f r)) e = (r ← m; mret (f r)) e.
Proof. intros H. rewrite run_bind. by apply bind_cong. Qed.
Lemma run_erase idx e :
  run (payload ← act (zoom rng_lens (draw_bytes PAYLOAD_SIZE));
       w ← sc_write_block idx payload;
       match w with
       | Err _ => mret 3
       | Ok _ => r ← sc_free_block idx; mret (match r with Ok _ => 0 | Err _ => 3 end)
       end) e =
  (payload ← zoom rng_lens (draw_bytes PAYLOAD_SIZE);
   w ← write_block idx payload;
   match w with
   | Err _ => mret 3
   | Ok _ => r ← free_block idx; mret (match r with Ok _ => 0 | Err _ => 3 end)
   end) e.
Proof. run_tac. Qed.
Lemma run_init_canaries bs slots e :
  run (sc_reserve_all bs;; sc_write_canaries slots) e = (reserve_all bs;; write_canaries slots) e.
Proof. run_tac. Qed.

Lemma kfs_laws : lens_laws kfs_lens.
Proof. split; intros; by repeat match goal with k : kernel |- _ => destruct k end. Qed.
Lemma wipe_laws : lens_laws wipe_lens.
Proof. split; intros; by repeat match goal with k : kernel |- _ => destruct k as [[]] | e : wipe_env |- _ => destruct e end. Qed.

Lemma run_set_VFS v k : run (sc_set_VFS v) k = set_VFS v k.
Proof.
  unfold sc_set_VFS, set_VFS. rewrite run_bind. unfold mbind at 1, M_bind at 1. rewrite run_act. unfold try_set.
  destruct (VFS k); [|done]. rewrite (run_lift_zoom kfs_lens _ _ kfs_laws). unfold zoom. cbn [lget lput kfs_lens].
  unfold sc_drop_volume, drop_volume. cbn [run]. unfold mbind, M_bind, gets, io, zoom, modify, close, env_of. cbn.
  unfold mbind, M_bind, modify. by destruct (sync_all (file v) (k_fs k)).
Qed.
Lemma run_init_volume path key n k : run (sc_init_virtual_volume path key n) k = init_virtual_volume path key n k.
Proof.
  unfold sc_init_virtual_volume, init_virtual_volume. destruct path as [path|], key as [key|]; try reflexivity.
  destruct (_ || _); [done|]. destruct (from_utf8 path); [|done]. rewrite run_bind. apply bind_cong.
  - rewrite (run_lift_zoom kfs_lens _ _ kfs_laws). unfold zoom. by rewrite run_open_or_create.
  - intros [v|] k'; [|done]. rewrite run_bind. apply bind_cong; [apply run_set_VFS|done].
Qed.
Lemma run_purge_vault h path k : run (sc_purge_vault h path) k = purge_vault h path k.
Proof.
  unfold sc_purge_vault, purge_vault. destruct path as [path|]; [|done]. destruct (_ =? _); [done|].
  destruct (from_utf8 path); [|done]. rewrite run_bind. apply bind_cong.
  - rewrite (run_lift_zoom wipe_lens _ _ wipe_laws). unfold zoom. by rewrite run_purge.
  - intros [] k'; [apply run_act|done].
Qed.
Lemma run_validate_slots k : run sc_validate_canary_slots k = validate_canary_slots k.
Proof.
  unfold sc_validate_canary_slots, validate_canary_slots. apply run_with_vault; [apply run_check_canaries| |done].
  intros r k'. destruct (_ =? _); [apply run_act|done].
Qed.
Lemma run_sc_id_stamp k : run sc_generate_id_stamp k = generate_id_stamp k.
Proof.
  unfold sc_generate_id_stamp, generate_id_stamp, generate_and_persist_id_stamp, generate_id_stamp_from_curr.
  rewrite bind_assoc, run_bind. apply bind_cong; [apply run_guarded|intros curr k1].
  rewrite bind_assoc, run_bind. apply bind_cong; [apply run_guarded|intros pk k2]. cbv zeta.
  apply run_with_vault_or. intros e. run_tac.
Qed.
Lemma run_sc_load out k : run (sc_load_id_stamp out) k = load_id_stamp out k.
Proof.
  unfold sc_load_id_stamp, load_id_stamp, read_id_stamp. destruct out as [o|]; [|done]. destruct (_ <? _); [done|].
  rewrite bind_assoc, run_bind. apply bind_cong; [apply run_with_vault_or; intros e; run_tac|].
  intros r k1. by destruct (negb _).
Qed.
Lemma run_sc_read start n out k : run (sc_read_vault_blocks start n out) k = read_vault_blocks start n out k.
Proof.
  unfold sc_read_vault_blocks, read_vault_blocks. destruct out; [|done]. destruct (_ =? _); [done|].
  rewrite run_bind. apply bind_cong; [apply run_with_vault_or; intros e; run_tac|done].
Qed.
Lemma run_sc_write start n data k : run (sc_write_vault_blocks start n data) k = write_vault_blocks start n data k.
Proof.
  unfold sc_write_vault_blocks, write_vault_blocks. destruct data; [|done]. destruct (_ =? _); [done|].
  apply run_with_vault_or. intros e. run_tac.
Qed.

Lemma run_sc_thread_of a h c k : run (sc_thread_of a h c) k = exec a h c k.
Proof.
  destruct c; cbn [sc_thread_of];
    lazymatch goal with |- run (thread_of _ _ _) _ = _ => apply run_thread_of | _ => cbn [exec] end;
    lazymatch goal with
    | |- run (mt_num _) _ = _ => apply run_num; intros ?
    | _ => rewrite run_bind; apply bind_cong; [|done]
    end;
    eauto using run_init_volume, run_purge_vault, run_validate_slots, run_sc_id_stamp, run_sc_load, run_sc_read,
      run_sc_write; apply run_with_vault_or; intros e; run_tac.
Qed.
Lemma run_sc_thread_of_all a h cs k : run (sc_thread_of_all a h cs) k = exec_all a h cs k.
Proof.
  revert k. induction cs as [|c cs IH]; intros k; [done|]. cbn [sc_thread_of_all exec_all].
  rewrite run_bind. apply bind_cong; [apply run_sc_thread_of|intros r k1].
  rewrite run_bind. apply bind_cong; [apply IH|done].
Qed.
End alone.

(** * The mutexes are acquired in order *)

Section order.
Context `{HP : Primitives} `{HB : BuildProfile}.

Lemma tidy_lift {S A} (z : forall B, M S B -> M kernel B) (p : lockfree S A) h : tidy h (lift z p).
Proof. induction p as [a|[]|[]|B m k IH]; [done|]. intros b. apply IH. Qed.
Lemma tidy_with_vault {R} (d : R) f g : (forall r, tidy [L_vault] (g r)) -> tidy [] (sc_with_vault d f g).
Proof.
  intros Hg. apply tidy_bind; [apply tidy_act|]. intros [vfs|]; [|done].
  split; [by intros l ?%elem_of_nil|]. split; [done|]. intros [|]; [done|].
  apply ordered_then; [apply tidy_lift|]. intros r. apply ordered_then; [apply Hg|]. done.
Qed.
Lemma tidy_with_vault_or {R} (d : R) f : tidy [] (sc_with_vault_or d f).
Proof. by apply tidy_with_vault. Qed.
Lemma tidy_init_volume path key n : tidy [] (sc_init_virtual_volume path key n).
Proof.
  unfold sc_init_virtual_volume. destruct path, key; try done. destruct (_ || _); [done|].
  destruct (from_utf8 _); [|done]. apply tidy_bind; [apply tidy_lift|]. intros [v|]; [|done].
  apply tidy_bind; [|done]. apply tidy_bind; [apply tidy_act|]. intros [|]; [done|apply tidy_lift].
Qed.
Lemma tidy_purge_vault h path : tidy [] (sc_purge_vault h path).
Proof.
  unfold sc_purge_vault. destruct path; [|done]. destruct (_ =? _); [done|]. destruct (from_utf8 _); [|done].
  apply tidy_bind; [apply tidy_lift|]. by intros [].
Qed.

Lemma tidy_read_blocks start n out : tidy [] (sc_read_vault_blocks start n out).
Proof.
  unfold sc_read_vault_blocks. destruct out; [|done]. destruct (_ =? _); [done|].
  apply tidy_bind; [apply tidy_with_vault_or|done].
Qed.
Lemma tidy_write_blocks start n data : tidy [] (sc_write_vault_blocks start n data).
Proof. unfold sc_write_vault_blocks. destruct data; [|done]. destruct (_ =? _); [done|apply tidy_with_vault_or]. Qed.
Lemma tidy_id_stamp : tidy [] sc_generate_id_stamp.
Proof.
  apply tidy_bind; [apply tidy_guarded; constructor|intros curr]. apply tidy_bind; [apply tidy_guarded; constructor|intros pk].
  apply tidy_with_vault_or.
Qed.
Lemma tidy_load_stamp out : tidy [] (sc_load_id_stamp out).
Proof.
  unfold sc_load_id_stamp. destruct out as [o|]; [|done]. destruct (_ <? _); [done|].
  apply tidy_bind; [apply tidy_with_vault_or|]. intros r. by destruct (negb _).
Qed.

Lemma tidy_sc_thread_of a h c : tidy [] (sc_thread_of a h c).
Proof.
  destruct c; cbn [sc_thread_of]; lazymatch goal with
    | |- tidy _ (thread_of _ _ _) => apply tidy_thread_of
    | |- tidy _ (mt_num _) => apply tidy_bind; [|done]
    | _ => apply tidy_bind; [|done]
    end; lazymatch goal with
    | |- tidy _ (sc_init_virtual_volume _ _ _) => apply tidy_init_volume
    | |- tidy _ (sc_purge_vault _ _) => apply tidy_purge_vault
    | |- tidy _ (sc_load_id_stamp _) => apply tidy_load_stamp
    | |- tidy _ sc_generate_id_stamp => apply tidy_id_stamp
    | |- tidy _ sc_validate_canary_slots => apply tidy_with_vault; intros r; by destruct (_ =? _)
    | |- tidy _ (sc_read_vault_blocks _ _ _) => apply tidy_read_blocks
    | |- tidy _ (sc_write_vault_blocks _ _ _) => apply tidy_write_blocks
    | _ => apply tidy_with_vault_or
    end.
Qed.
Lemma tidy_sc_thread_of_all a h cs : tidy [] (sc_thread_of_all a h cs).
Proof.
  induction cs as [|c cs IH]; [done|]. apply tidy_bind; [apply tidy_sc_thread_of|]. intros r.
  apply tidy_bind; [exact IH|done].
Qed.
End order.
