(* ===== verification/Concurrency.v ===== *)
(** What the kernel guarantees when the application calls it from several threads.

    [kdisc] says which mutex protects which static, and with which invariant: the stored
    digest is that of the stored peer key whenever the mutex of that key is free.  [typed]
    holds at every step of every interleaving.  The lock-level programs of [Locks] respect
    this discipline, so the logic of [Threads] applies to any number of threads making any
    threadable calls.  [Interleavings] draws the consequences. *)
From S2P Require Import Prelude Effects Threads Crypto MemoryProtection RootState AntiDos TailPadding MessageCipher Evolution StdFs VolumeLayout VirtualVolume VolumeTotal ClockAlign DiskWipe Kernel InitModule Ffi Exports Locks.

(** * The discipline *)

Section discipline.
Context `{HP : Primitives}.

(** What holds at every step: the types and sizes of the statics, and a usable vault. *)
Record typed (k : kernel) : Prop := {
  ty_root : root_ok (k_root k);
  ty_hash : lenZ (peer_pk_hash (k_evo k)) = 32;
  ty_keys : as_slice (bob_keys (k_evo k)).2 = [] \/ lenZ (as_slice (bob_keys (k_evo k)).2) = 3168;
  ty_kem b : kem_cipher (k_evo k) = Some b -> len b = 1568;
  ty_vault v poisoned : VFS k = Some (v, poisoned) -> poisoned = false /\ mem_sane v;
}.

(** The digest is that of the stored key. *)
Definition bound (k : kernel) : Prop :=
  bob_public_key (k_evo k) = [] \/ peer_pk_hash (k_evo k) = sha256 (bob_public_key (k_evo k)).

Lemma kernel_ok_typed k : kernel_ok k <-> typed k /\ bound k.
Proof.
  split.
  - intros [[] ?]. split; [by split|done].
  - intros [[] ?]. split; [by split|done].
Qed.

(** The static behind each mutex; the digest changes only while the key is locked too, and
    the vault can be set, once, without its mutex. *)
Definition kagree (l : mutex) (k k' : kernel) : Prop :=
  match l with
  | L_pk => bob_public_key (k_evo k') = bob_public_key (k_evo k) /\
            peer_pk_hash (k_evo k') = peer_pk_hash (k_evo k)
  | L_curr => root_curr (k_root k') = root_curr (k_root k)
  | L_pend => root_pend (k_root k') = root_pend (k_root k)
  | L_epoch => epoch (k_root k') = epoch (k_root k)
  | L_hash => True
  | L_evo => kem_cipher (k_evo k') = kem_cipher (k_evo k)
  | L_bob => bob_keys (k_evo k') = bob_keys (k_evo k)
  | L_store => bob_pk_store k' = bob_pk_store k
  | L_vault => is_Some (VFS k) -> VFS k' = VFS k
  end.

Definition klock_inv (l : mutex) (k : kernel) : Prop := match l with L_pk => bound k | _ => True end.

(** What the application's calls leave out: with [epochs_grow] no call restarts the epochs,
    so they never go back, and only with [may_purge] does a call end the process. *)
Record promises := Promises { epochs_grow :> Prop; may_purge : Prop }.

Lemma kagree_trans l k1 k2 k3 : kagree l k1 k2 -> kagree l k2 k3 -> kagree l k1 k3.
Proof.
  destruct l; simpl; try congruence; [intros [? ?] [? ?]; split; congruence|].
  intros H1 H2 Hs. rewrite H2; [by apply H1|]. by rewrite H1.
Qed.

Program Definition kdisc (mono : promises) : discipline mutex kernel :=
  Discipline _ _ kagree klock_inv typed
    (fun k k' => (mono -> k_epoch k <= k_epoch k') /\ (is_Some (VFS k) -> is_Some (VFS k'))) (may_purge mono) _ _ _ _ _.
Next Obligation. by intros _ []. Qed.
Next Obligation. intros _ l k1 k2 k3. apply kagree_trans. Qed.
Next Obligation. intros _ [] k k'; simpl; try done. intros [E1 E2]. unfold bound. by rewrite E1, E2. Qed.
Next Obligation. intros mono k. split; [lia|done]. Qed.
Next Obligation. intros mono k1 k2 k3 [H1 V1] [H2 V2]. split; [|auto]. intros Hm. specialize (H1 Hm). specialize (H2 Hm). lia. Qed.
End discipline.

(** Membership in the list of mutexes held. *)
Ltac not_in := let H := fresh in intros H; repeat (apply elem_of_cons in H as [H|H]; [discriminate H|]);
  apply elem_of_nil in H; exact H.
Ltac is_in := repeat constructor.

(** * Reasoning about one program *)

Section triples.
Context `{HP : Primitives} `{HB : BuildProfile} (mono : promises).
Abbreviation D := (kdisc mono).
Abbreviation may_panic := (overflow_checks = true).

Definition stable (h : list mutex) (P : kernel -> Prop) : Prop :=
  forall k k', P k -> rely D h k k' -> P k'.

Definition act_ok {A} (h : list mutex) (m : M kernel A) (k : kernel) (Q : A -> kernel -> Prop) : Prop :=
  match m k with
  | Done b k' => guarantee D h k k' /\ Q b k'
  | Panicked k' => may_panic /\ guarantee D h k k'
  | Exited _ k' => may_purge mono /\ evolves D k k' /\ typed k'
  end.

(** From every well-typed state with [P], a thread that holds [h] can run [p]. *)
Definition tr {A} (h : list mutex) (P : kernel -> Prop) (p : kprog A)
    (K : list mutex -> A -> kernel -> Prop) : Prop :=
  forall k, typed k -> P k -> safe D may_panic h p K k.

(** ... and holds [h'] at the end, with [Q] of the result. *)
Definition ends {A} (h' : list mutex) (Q : A -> kernel -> Prop) (h : list mutex) (a : A) (k : kernel) : Prop :=
  h = h' /\ typed k /\ Q a k.

Lemma tr_ret {A} h P (a : A) K :
  stable h P -> (forall k, typed k -> P k -> K h a k) -> tr h P (mret a) K.
Proof. intros Hs HK k Hk HPk k' Hr. apply HK; [apply Hr|by eapply Hs]. Qed.

Lemma tr_act {A B} h P (m : M kernel A) (Q : A -> kernel -> Prop) (f : A -> kprog B) K :
  stable h P -> (forall k, typed k -> P k -> act_ok h m k Q) -> (forall b, tr h (Q b) (f b) K) ->
  tr h P (b ← act m; f b) K.
Proof.
  intros Hs Hm Hf k Hk HPk k' Hr. specialize (Hm k' (proj1 (proj2 Hr)) (Hs _ _ HPk Hr)).
  unfold act_ok in Hm. destruct (m k') as [b k2|k2|]; [|done..]. destruct Hm as [Hg HQ].
  split; [done|]. apply Hf; [apply Hg|done].
Qed.

Lemma tr_lock {A} h P l (p : kprog A) K :
  stable h P -> l ∉ h -> tr (l :: h) (fun k => P k /\ klock_inv l k) p K -> tr h P (lock l;; p) K.
Proof.
  intros Hs Hl Hp k Hk HPk. split; [done|]. intros k' Hr. split.
  - intros Hmp k2 Hr2. simpl. split; [done|]. apply guarantee_refl, Hr2.
  - intros Hi. apply Hp; [apply Hr|]. split; [by eapply Hs|done].
Qed.

Lemma tr_unlock {A} h P l (p : kprog A) K :
  l ∈ h -> (forall k, P k -> klock_inv l k) -> tr (release l h) P p K -> tr h P (unlock l;; p) K.
Proof. intros Hl Hi Hp k Hk HPk. split; [done|]. split; [by apply Hi|]. by apply Hp. Qed.

Lemma tr_bind {A B} h h' P (p : kprog A) (Q : A -> kernel -> Prop) (f : A -> kprog B) K :
  tr h P p (ends h' Q) -> (forall a, tr h' (Q a) (f a) K) -> tr h P (p ≫= f) K.
Proof.
  intros Hp Hf k Hk HPk. apply safe_bind; [done|]. eapply safe_mono; [by apply Hp|].
  intros h2 a k2 (-> & Hk2 & HQ). by apply Hf.
Qed.

Lemma tr_weaken {A} h (P P' : kernel -> Prop) (p : kprog A) K :
  tr h P' p K -> (forall k, typed k -> P k -> P' k) -> tr h P p K.
Proof. intros Hp HP' k Hk HPk. apply Hp; auto. Qed.

(** An action under a temporary guard on [l]. *)
Lemma tr_guarded {A} h P l (m : M kernel A) (Q : A -> kernel -> Prop) :
  stable h P -> (forall b, stable h (Q b)) -> l ∉ h ->
  (forall k, typed k -> P k -> klock_inv l k -> act_ok (l :: h) m k (fun b k' => Q b k' /\ klock_inv l k')) ->
  tr h P (guarded l m) (ends h Q).
Proof.
  intros Hs HQ Hl Hm. apply tr_lock; [done..|].
  apply (tr_act _ _ m (fun b k => Q b k /\ klock_inv l k)).
  - intros k k' [HPk Hi] Hr. split.
    + apply (Hs k k' HPk). destruct Hr as (? & ? & HA). split_and!; [done..|]. intros. apply HA. by right.
    + eapply (lock_inv_agree D l); [apply Hr; by left|done].
  - intros k Hk [HPk Hi]. by apply Hm.
  - intros b. apply tr_unlock; [by left|by intros k []|]. rewrite release_cons by done.
    apply (tr_weaken _ _ (Q b)); [|by intros k _ []]. apply tr_ret; [apply HQ|]. done.
Qed.

Lemma stable_const h (P : Prop) : stable h (fun _ => P).
Proof. by intros k k'. Qed.
End triples.

(** * The lock-level programs respect the discipline *)

Section programs.
Context `{HP : Primitives} `{HB : BuildProfile} `{HOk : !PrimitivesOk HP}.
(** Epochs can be promised not to go back only where an overflow panics. *)
Context (mono : promises) (Hmono : mono -> overflow_checks = true).
Abbreviation D := (kdisc mono).
Abbreviation may_panic := (overflow_checks = true).
Abbreviation tr := (tr mono).
Abbreviation aok := (act_ok mono).
Abbreviation stable := (stable mono).

Definition put_root (r : root_statics) (k : kernel) : kernel := with_k_evo (with_root r (k_evo k)) k.

Lemma typed_root r k : typed k -> root_ok r -> typed (put_root r k).
Proof. intros [] ?. by split. Qed.
Lemma typed_rng x k : typed k -> typed (with_k_rng x k).
Proof. intros []. by split. Qed.

(** The change of the root statics is within what [h] protects. *)
Definition root_frame (h : list mutex) (r r' : root_statics) : Prop :=
  (L_curr ∉ h -> root_curr r' = root_curr r) /\ (L_pend ∉ h -> root_pend r' = root_pend r) /\
  (L_epoch ∉ h -> epoch r' = epoch r) /\ (mono -> epoch r <= epoch r').

Lemma root_frame_refl h r : root_frame h r r.
Proof. split_and!; [done..|]. lia. Qed.

Lemma guarantee_root h r k :
  typed k -> root_ok r -> root_frame h (k_root k) r -> guarantee D h k (put_root r k).
Proof.
  intros Hk Hr (H1 & H2 & H3 & H4). split; [by split|]. split; [by apply typed_root|].
  intros [] Hl; simpl; auto.
Qed.

Lemma act_root {A} h (m : M root_statics A) k (Q : A -> kernel -> Prop) :
  typed k ->
  match m (k_root k) with
  | Done b r => root_ok r /\ root_frame h (k_root k) r /\ Q b (put_root r k)
  | Panicked r => may_panic /\ root_ok r /\ root_frame h (k_root k) r
  | Exited _ _ => False
  end -> aok h (zoom kroot_lens m) k Q.
Proof.
  intros Hk Hm. unfold act_ok, zoom. cbn [lget lput kroot_lens].
  change (ev_root (k_evo k)) with (k_root k).
  destruct (m (k_root k)) as [b r|r|]; [|destruct Hm as (? & ? & ?)|done].
  - destruct Hm as (? & ? & ?). split; [by apply guarantee_root|done].
  - split; [done|by apply guarantee_root].
Qed.

Lemma act_read {A} h (m : M kernel A) k b (Q : A -> kernel -> Prop) :
  typed k -> m k = Done b k -> Q b k -> aok h m k Q.
Proof. intros Hk E HQ. unfold act_ok. rewrite E. split; [by apply guarantee_refl|done]. Qed.

Lemma root_read {A} (f : root_statics -> A) k : zoom kroot_lens (gets f) k = Done (f (k_root k)) k.
Proof. by destruct k as [[]]. Qed.
Lemma evo_read {A} (f : evo_statics -> A) k : zoom evo_lens (gets f) k = Done (f (k_evo k)) k.
Proof. by destruct k. Qed.

(** Mutexes without an invariant. *)
Lemma tr_lock_plain {A} h P l (p : kprog A) K :
  l <> L_pk -> stable h P -> l ∉ h -> tr (l :: h) P p K -> tr h P (lock l;; p) K.
Proof. intros ?? Hl Hp. apply tr_lock; [done..|]. eapply tr_weaken; [exact Hp|]. by intros k _ []. Qed.
Lemma tr_unlock_plain {A} h P l (p : kprog A) K :
  l <> L_pk -> l ∈ h -> tr (release l h) P p K -> tr h P (unlock l;; p) K.
Proof. intros ? Hl Hp. apply tr_unlock; [done| |done]. by destruct l. Qed.
Lemma tr_guarded_plain {A} h P l (m : M kernel A) (Q : A -> kernel -> Prop) :
  l <> L_pk -> stable h P -> (forall b, stable h (Q b)) -> l ∉ h ->
  (forall k, typed k -> P k -> aok (l :: h) m k Q) ->
  tr h P (guarded l m) (ends h Q).
Proof.
  intros Hne Hs HQ Hl Hm. apply tr_guarded; [done..|]. intros k Hk HPk _. specialize (Hm k Hk HPk).
  unfold act_ok in *. destruct (m k); [|done..]. destruct Hm. split; [done|]. by destruct l.
Qed.

(** Value-only facts need no stability. *)
Definition val {A} (Q : A -> Prop) (a : A) (k : kernel) : Prop := Q a.
Lemma stable_val {A} h (Q : A -> Prop) a : stable h (val Q a).
Proof. by intros k k'. Qed.
Hint Resolve stable_val stable_const : core.

Lemma tr_then {A B} h P (m : M kernel A) (Q : A -> Prop) (f : A -> kprog B) K :
  stable h P -> (forall k, typed k -> P k -> aok h m k (fun b k' => P k' /\ Q b)) ->
  (forall b, Q b -> tr h P (f b) K) -> tr h P (b ← act m; f b) K.
Proof.
  intros Hs Hm Hf. apply (tr_act mono h P m (fun b k => P k /\ Q b)); [done..|].
  intros b k Hk [HPk HQ]. by apply Hf.
Qed.

(** ** Reads of the root *)

Lemma spec_read_curr h :
  L_curr ∉ h -> tr h (fun _ => True) mt_read_root_state_curr (ends h (val (fun c => lenZ c = 32))).
Proof.
  intros Hh. apply tr_guarded_plain; [done|done|auto|done|]. intros k Hk _.
  eapply act_read; [done|apply root_read|]. apply Hk.
Qed.
Lemma spec_read_pend h :
  L_pend ∉ h -> tr h (fun _ => True) mt_read_root_state_pend
    (ends h (val (fun p => forall key, p = Some key -> lenZ key = 32))).
Proof.
  intros Hh. apply tr_guarded_plain; [done|done|auto|done|]. intros k Hk _.
  eapply act_read; [done|apply root_read|]. unfold val. intros key. apply Hk.
Qed.
(** The epoch read is a lower bound ever after. *)
Definition at_least (n : Z) (k : kernel) : Prop := mono -> n <= k_epoch k.
Lemma stable_at_least h n : stable h (at_least n).
Proof. intros k k' H ([He _] & _) Hm. specialize (H Hm). specialize (He Hm). lia. Qed.
Lemma spec_read_epoch h :
  L_epoch ∉ h -> tr h (fun _ => True) mt_read_epoch_id (ends h (fun e k => is_u 32 e /\ at_least e k)).
Proof.
  intros Hh. apply tr_guarded_plain; [done|done| |done|].
  - intros e k k' [? H] Hr. split; [done|]. by eapply stable_at_least.
  - intros k Hk _. eapply act_read; [done|apply root_read|]. split; [apply Hk|]. intros _. unfold k_epoch. lia.
Qed.
Lemma spec_set_pend h key :
  L_pend ∉ h -> lenZ key = 32 -> tr h (fun _ => True) (mt_set_root_state_pend (Some key)) (ends h (val (fun _ => True))).
Proof.
  intros Hh Hkey. apply tr_guarded_plain; [done|done|auto|done|]. intros k Hk _. apply act_root; [done|]. simpl.
  split; [apply root_ok_pend; [apply Hk|by intros ? [= <-]]|]. split; [|done].
  split_and!; simpl; [done| |done|lia]. intros Hn. destruct Hn. by left.
Qed.

(** ** Epoch transitions *)

Lemma tr_root {A B} h P (m : M root_statics A) (Q : A -> kernel -> Prop) (f : A -> kprog B) K :
  stable h P ->
  (forall k, typed k -> P k ->
    match m (k_root k) with
    | Done b r => root_ok r /\ root_frame h (k_root k) r /\ Q b (put_root r k)
    | Panicked r => may_panic /\ root_ok r /\ root_frame h (k_root k) r
    | Exited _ _ => False
    end) ->
  (forall b, tr h (Q b) (f b) K) -> tr h P (b ← on_root m; f b) K.
Proof. intros Hs Hm Hf. apply (tr_act mono h P _ Q); [done| |done]. intros k Hk HPk. apply act_root; [done|by apply Hm]. Qed.

(** Writing the root while it is locked keeps every lower bound of the epoch. *)
Lemma tr_set_curr {B} h n (f : root_statics -> bytes) (g : unit -> kprog B) K :
  L_curr ∈ h -> (forall r, root_ok r -> lenZ (f r) = 32) -> tr h (at_least n) (g tt) K ->
  tr h (at_least n) (b ← on_root (modify (fun s => with_curr (f s) s)); g b) K.
Proof.
  intros Hh Hf Hg. apply (tr_root _ _ _ (fun _ => at_least n)); [apply stable_at_least| |by intros []].
  intros k Hk HPk. simpl. split; [apply root_ok_curr; [apply Hk|apply Hf, Hk]|]. split; [|exact HPk].
  split_and!; simpl; [|done|done|lia]. intros Hn. by destruct Hn.
Qed.

Lemma tr_clear_pend {B} h n (g : unit -> kprog B) K :
  L_pend ∈ h -> tr h (at_least n) (g tt) K ->
  tr h (at_least n) (b ← on_root (modify (with_pend None)); g b) K.
Proof.
  intros Hh Hg. apply (tr_root _ _ _ (fun _ => at_least n)); [apply stable_at_least| |by intros []].
  intros k Hk HPk. simpl. split; [by apply root_ok_pend; [apply Hk|]|]. split; [|exact HPk].
  split_and!; simpl; [done| |done|lia]. intros Hn. by destruct Hn.
Qed.

Lemma tr_reset_counter {B} h n (g : unit -> kprog B) K :
  tr h (at_least n) (g tt) K -> tr h (at_least n) (b ← on_root reset_msg_counter; g b) K.
Proof.
  intros Hg. apply (tr_root _ _ _ (fun _ => at_least n)); [apply stable_at_least| |by intros []].
  intros k Hk HPk. simpl. split; [apply root_ok_counter; [apply Hk|by unfold is_u]|]. split; [|exact HPk].
  split_and!; simpl; [done..|lia].
Qed.

Lemma tr_bump {B} h n (g : unit -> kprog B) K :
  L_epoch ∈ h -> tr h (at_least (n + 1)) (g tt) K -> tr h (at_least n) (b ← on_root bump_epoch; g b) K.
Proof using Hmono.
  intros Hh Hg. apply (tr_root _ _ _ (fun _ => at_least (n + 1))); [apply stable_at_least| |by intros []].
  intros k Hk HPk. unfold bump_epoch. step. pose proof (epoch_range _ (ty_root _ Hk)) as He.
  unfold mbind, M_bind. rewrite chk_epoch_succ by done.
  destruct (Z.ltb_spec (epoch (k_root k)) u32_max) as [Hlt|Hge].
  - cbn [orb]. simpl.
    assert (epoch_succ (epoch (k_root k)) = epoch (k_root k) + 1) as ->.
    { unfold epoch_succ. destruct (Z.ltb_spec (epoch (k_root k)) u32_max); lia. }
    split; [apply root_ok_epoch; [apply Hk|unfold is_u, u32_max in *; lia]|]. split.
    + split_and!; simpl; [done|done| |lia]. intros Hn. by destruct Hn.
    + intros Hm. specialize (HPk Hm). unfold k_epoch in *. simpl. lia.
  - destruct overflow_checks eqn:Hc; simpl.
    + split; [done|]. split; [apply Hk|apply root_frame_refl].
    + assert (~ mono) as Hnm by (intros Hm; specialize (Hmono Hm); congruence).
      split; [apply root_ok_epoch; [apply Hk|by apply epoch_succ_range]|]. split; [|by intros ?].
      split_and!; simpl; [done|done| |by intros ?]. intros Hn. by destruct Hn.
Qed.

Lemma zeroized_len r : root_ok r -> lenZ (zeroize (root_curr r)) = 32.
Proof. intros Hr. rewrite zeroize_zeros, lenZ_repZ, (root_curr_len _ Hr). done. Qed.

Lemma spec_commit : tr [] (fun _ => True) mt_commit_evolution (ends [] (val (fun r => r = 0 \/ r = 1))).
Proof using HOk Hmono.
  unfold mt_commit_evolution.
  do 3 (apply tr_lock_plain; [done|done|not_in|]).
  apply (tr_root _ _ _ (fun p => val (fun p => forall key, p = Some key -> lenZ key = 32) p)); [done| |].
  { intros k Hk _. simpl. split; [apply Hk|]. split; [apply root_frame_refl|]. intros key. apply Hk. }
  intros pend. apply (tr_bind mono _ [L_epoch; L_pend; L_curr] _ _ (val (fun r => r = 0 \/ r = 1))).
  - destruct pend as [key|]; [|apply tr_ret; [done|]; intros; split; [done|]; split; [done|by right]].
    intros k Hk Hlen. specialize (Hlen key eq_refl).
    match goal with |- safe _ _ ?h ?p ?K _ => cut (tr h (at_least 0) p K) end.
    { intros H. apply H; [done|]. intros _. apply Hk. }
    clear k Hk.
    apply tr_set_curr; [is_in|apply zeroized_len|]. apply (tr_set_curr _ _ (fun _ => key)); [is_in|done|].
    apply tr_clear_pend; [is_in|]. apply tr_bump; [is_in|]. apply tr_reset_counter.
    apply tr_ret; [apply stable_at_least|]. intros. split; [done|]. split; [done|by left].
  - intros r. apply tr_unlock_plain; [done|is_in|]. apply tr_unlock_plain; [done|is_in|].
    apply tr_unlock_plain; [done|is_in|]. apply tr_ret; [auto|]. done.
Qed.

(** The epoch a roll returns is past the lower bound known before it. *)
Lemma spec_roll n salt info :
  tr [] (at_least n) (mt_roll_epoch_forward salt info)
    (ends [] (fun r k => is_u 32 r /\ (mono -> n + 1 <= r) /\ at_least r k)).
Proof using HOk Hmono.
  unfold mt_roll_epoch_forward. apply tr_lock_plain; [done|apply stable_at_least|not_in|].
  apply tr_lock_plain; [done|apply stable_at_least|not_in|].
  apply (tr_root _ _ _ (fun _ => at_least n)); [apply stable_at_least| |].
  { intros k Hk HPk. simpl. split; [apply Hk|]. split; [apply root_frame_refl|exact HPk]. }
  intros curr.
  apply (tr_bind mono _ [L_epoch; L_curr] _ _ (fun r k => is_u 32 r /\ (mono -> n + 1 <= r) /\ at_least r k)).
  - rewrite (rolled_key_some salt info curr).
    apply tr_set_curr; [is_in|apply zeroized_len|].
    apply (tr_set_curr _ _ (fun _ => rolled_key salt info curr)); [is_in|intros; apply rolled_key_len|].
    apply tr_bump; [is_in|]. apply tr_reset_counter.
    intros k Hk HPk k' Hr. rewrite root_read. split; [by apply guarantee_refl, Hr|].
    intros k2 Hr2. split; [done|]. split; [apply Hr2|]. split; [apply (proj1 (proj2 Hr))|].
    pose proof (stable_at_least _ _ _ _ HPk Hr) as HP'. split; [exact HP'|].
    intros Hm. apply (proj1 (proj1 Hr2) Hm).
  - assert (forall r h, stable h (fun k => is_u 32 r /\ (mono -> n + 1 <= r) /\ at_least r k)) as Hst.
    { intros r h k k' (? & ? & H) Hr. split; [done|]. split; [done|]. by eapply stable_at_least. }
    intros r. apply tr_unlock_plain; [done|is_in|]. apply tr_unlock_plain; [done|is_in|].
    apply tr_ret; [apply Hst|]. done.
Qed.

(** While the epochs cannot go back, recovery never stops short of its target. *)
Lemma spec_roll_loop n : forall last t,
  is_u 32 t -> is_u 32 last -> (mono -> t <= last + Z.of_nat n) ->
  tr [] (at_least last) (mt_roll_loop n last) (ends [] (val (fun r => is_u 32 r /\ (mono -> t <= r)))).
Proof using HOk Hmono.
  induction n as [|n IH]; intros last t Ht Hl Hb; cbn [mt_roll_loop].
  { apply tr_ret; [apply stable_at_least|]. intros k Hk _. split; [done|]. split; [done|].
    split; [done|]. intros Hm. specialize (Hb Hm). lia. }
  eapply tr_bind; [apply spec_roll|]. intros r k Hk (Hr & Hr1 & Hr2).
  destruct (Z.eqb_spec r u32_max).
  - intros k' Hrel. split; [done|]. split; [apply Hrel|]. split; [by unfold is_u|].
    intros _. unfold is_u, u32_max in *. lia.
  - apply IH; [done|done| |done|done]. intros Hm. specialize (Hb Hm). specialize (Hr1 Hm). lia.
Qed.

Lemma spec_recover t :
  is_u 32 t -> tr [] (fun _ => True) (mt_recover_after_loss t)
    (ends [] (val (fun r => is_u 32 r /\ (mono -> t <= r)))).
Proof using HOk Hmono.
  intros Ht. eapply tr_bind; [apply spec_read_epoch; not_in|]. intros e.
  apply (tr_weaken _ _ _ (fun k => is_u 32 e /\ at_least e k)); [|done]. intros k Hk [He Hle].
  destruct (Z.leb_spec t e).
  { intros k' Hr. split; [done|]. split; [apply Hr|]. by split. }
  cbv zeta. destruct (_ <? _).
  { intros k' Hr. split; [done|]. split; [apply Hr|]. split; [by unfold is_u|].
    intros _. unfold is_u, u32_max in *. lia. }
  apply spec_roll_loop; [done|done| |done|done]. intros _. lia.
Qed.

Lemma tr_derive {A} h root e q (f : bytes -> kprog A) K :
  (forall b, tr h (fun _ => True) (f b) K) ->
  tr h (fun _ => True) (b ← act (derive_message_key_from_root root e q); f b) K.
Proof using HOk.
  intros Hf. apply (tr_act mono h _ _ (fun _ _ => True)); [done| |auto]. intros k Hk _.
  eapply act_read; [done|apply derive_from_root_eval|done].
Qed.

Lemma tr_chk {A} h w z (f : Z -> kprog A) K :
  0 <= w -> (forall b, tr h (fun _ => True) (f b) K) -> tr h (fun _ => True) (b ← act (chk_u w z); f b) K.
Proof.
  intros Hw Hf. apply (tr_act mono h _ _ (fun _ _ => True)); [done| |auto]. intros k Hk _.
  unfold act_ok, chk_u. destruct (_ && _); [split; [by apply guarantee_refl|done]|].
  destruct overflow_checks; (split; [|]); try done; by apply guarantee_refl.
Qed.

Definition any {A} (a : A) : Prop := True.

Lemma spec_try_decrypt wire st o e q t :
  tr [] (fun _ => True) (mt_try_decrypt_with_evolution wire st o e q t) (ends [] (val any)).
Proof using HOk Hmono.
  assert (forall r : option (bytes * bool), tr [] (fun _ => True) (mret r) (ends [] (val any))) as Hret.
  { intros r. apply tr_ret; [done|]. done. }
  eapply tr_bind; [apply spec_read_curr; not_in|]. intros curr.
  apply (tr_weaken _ _ _ (fun _ => True)); [|done].
  eapply tr_bind; [apply spec_read_epoch; not_in|]. intros le.
  apply (tr_weaken _ _ _ (fun _ => True)); [|done].
  apply tr_derive. intros ck. destruct (decrypt _ _ _ _ _ _ _); [apply Hret|].
  apply tr_chk; [done|]. intros next. destruct (_ =? _); [|apply Hret].
  eapply tr_bind; [apply spec_read_pend; not_in|]. intros p.
  apply (tr_weaken _ _ _ (fun _ => True)); [|done]. destruct p as [pend|]; [|apply Hret].
  apply tr_derive. intros pk. destruct (decrypt _ _ _ _ _ _ _); [|apply Hret].
  eapply tr_bind; [apply spec_commit|]. intros r.
  apply (tr_weaken _ _ _ (fun _ => True)); [|done]. apply Hret.
Qed.

(** ** Evolution *)

(** With the peer key locked, it stays the one read, and the digest is its digest. *)
Definition pinned (pk : bytes) (k : kernel) : Prop := bob_public_key (k_evo k) = pk /\ bound k.

Lemma stable_pinned h pk : L_pk ∈ h -> stable h (pinned pk).
Proof.
  intros Hh k k' [E Hb] (_ & _ & HA). destruct (HA L_pk Hh) as [E1 E2]. unfold pinned, bound in *.
  by rewrite E1, E2.
Qed.
Lemma stable_bound h : L_pk ∈ h -> stable h bound.
Proof. intros Hh k k' Hb Hr. by destruct (stable_pinned h (bob_public_key (k_evo k)) Hh k k'). Qed.

(** A change of the evolution statics within what [h] protects. *)
Lemma guarantee_evo h x k :
  typed k -> typed (with_k_evo x k) -> ev_root x = k_root k ->
  (L_evo ∉ h -> kem_cipher x = kem_cipher (k_evo k)) ->
  (L_bob ∉ h -> bob_keys x = bob_keys (k_evo k)) ->
  (L_pk ∉ h -> bob_public_key x = bob_public_key (k_evo k) /\ peer_pk_hash x = peer_pk_hash (k_evo k)) ->
  guarantee D h k (with_k_evo x k).
Proof.
  intros Hk Hx Hr H1 H2 H3. split; [split; [intros _; unfold k_epoch, k_root; simpl; rewrite Hr; unfold k_root; lia|done]|].
  split; [done|]. intros [] Hl; simpl; unfold k_root; simpl; rewrite ?Hr; auto.
Qed.

Lemma spec_set_pend_pinned pk key :
  lenZ key = 32 ->
  tr [L_pk] (pinned pk) (mt_set_root_state_pend (Some key)) (ends [L_pk] (fun _ => pinned pk)).
Proof.
  intros Hkey. apply tr_guarded_plain; [done|apply stable_pinned; is_in|intros _; apply stable_pinned; is_in|not_in|].
  intros k Hk Hp. apply act_root; [done|]. simpl.
  split; [apply root_ok_pend; [apply Hk|by intros ? [= <-]]|]. split; [|exact Hp].
  split_and!; simpl; [done| |done|lia]. intros Hn. destruct Hn. is_in.
Qed.

Lemma tr_done_pk pk (n : Z) (Q : Z -> Prop) :
  Q n -> tr [L_pk] (pinned pk) (unlock L_pk;; mret n) (ends [] (val Q)).
Proof.
  intros HQ. apply tr_unlock; [is_in|by intros k []|]. apply (tr_weaken _ _ _ (fun _ => True)); [|done].
  apply tr_ret; [done|]. done.
Qed.

Lemma tr_publish pk ct K :
  lenZ ct = 1568 ->
  tr [L_pk] (pinned pk) K (ends [] (val (fun n => n = 0))) ->
  tr [L_pk] (pinned pk)
    (lock L_evo;; on_evo (modify (with_kem (Some (from_vec ct))));; unlock L_evo;; K) (ends [] (val (fun n => n = 0))).
Proof.
  intros Hct HK. apply tr_lock_plain; [done|apply stable_pinned; is_in|not_in|].
  apply (tr_act mono _ _ _ (fun _ => pinned pk)); [apply stable_pinned; is_in| |].
  - intros k Hk Hp. unfold act_ok. cbn. split; [|exact Hp].
    apply guarantee_evo; [done| |done| |done|done].
    + destruct Hk. split; simpl; [done..| |done]. by intros b [= <-].
    + intros Hn. destruct Hn. is_in.
  - intros _. by apply tr_unlock_plain; [|is_in|].
Qed.

Lemma tr_pure {A} h P (phi : Prop) (p : kprog A) K :
  (phi -> tr h P p K) -> tr h (fun k => P k /\ phi) p K.
Proof. intros H k Hk [HPk Hphi]. by apply H. Qed.

Lemma tr_result {A} h h' P (p : kprog A) (Q Q' : A -> Prop) :
  tr h P p (ends h' (val Q)) -> (forall a, Q a -> Q' a) -> tr h P p (ends h' (val Q')).
Proof.
  intros Hp HQ k Hk HPk. eapply safe_mono; [by apply Hp|]. intros h2 a k2 (? & ? & ?). split; [done|].
  split; [done|]. by apply HQ.
Qed.

(** The end of [start_evolution], once a secret is encapsulated. *)
Lemma tr_finish pk ct ss curr :
  lenZ ct = 1568 -> lenZ ss = 32 ->
  tr [L_pk] (pinned pk) (match to_array32 ss with
    | None => unlock L_pk;; mret 4
    | Some ss_arr => derived ← act (derive_pending_key ss_arr curr); mt_set_root_state_pend (Some derived);;
      lock L_evo;; on_evo (modify (with_kem (Some (from_vec ct))));; unlock L_evo;; unlock L_pk;; mret 0 end)
    (ends [] (val (fun r => r = 0))).
Proof using HOk.
  intros Hct Hss. unfold to_array32. rewrite Hss. cbn [Z.eqb Pos.eqb].
  apply (tr_act mono _ _ _ (fun d k => pinned pk k /\ lenZ d = 32)); [apply stable_pinned; is_in| |].
  { intros k Hk Hp. eapply act_read; [done|apply derive_pending_key_eval|]. split; [done|apply pending_key_len]. }
  intros d. apply tr_pure. intros Hd. eapply tr_bind; [by apply spec_set_pend_pinned|]. intros ?.
  apply tr_publish; [done|]. by apply tr_done_pk.
Qed.

(** In every interleaving the stored digest matches the stored key when it is checked. *)
Lemma spec_start :
  tr [] (fun _ => True) mt_start_evolution (ends [] (val (fun r => r = 0 \/ r = 1 \/ r = 2))).
Proof using HOk.
  eapply tr_bind; [apply spec_read_curr; not_in|]. intros curr. apply (tr_weaken _ _ _ (fun _ => True)); [|done].
  apply tr_lock; [done|not_in|]. apply (tr_weaken _ _ _ bound); [|by intros k _ []].
  apply (tr_act mono _ _ _ pinned); [apply stable_bound; is_in| |].
  { intros k Hk Hb. eapply act_read; [done|apply evo_read|]. by split. }
  intros pk. destruct (decide (pk = [])) as [Hpk|Hpk]; [apply tr_done_pk; auto|]. cbv zeta.
  apply (tr_bind mono _ [L_pk] _ _ (fun stored k => pinned pk k /\ lenZ stored = 32 /\ stored = sha256 pk)).
  { apply tr_guarded_plain; [done|apply stable_pinned; is_in| |not_in|].
    - intros stored k k' [Hp ?] Hr. split; [|done]. revert Hp Hr. apply stable_pinned. is_in.
    - intros k Hk [E Hb]. eapply act_read; [done|apply evo_read|]. split; [by split|]. split; [by apply ty_hash|].
      destruct Hb as [Hb|Hb]; congruence. }
  intros stored. apply tr_pure. intros [Hl Hst].
  rewrite (not_true_is_false _ (fun H => proj2 (proj1 (hash_check pk stored Hl) H) Hst)). cbv iota.
  apply (tr_act mono _ _ _ (fun enc k => pinned pk k /\
    forall ct ss, enc = Some (ct, ss) -> lenZ ct = 1568 /\ lenZ ss = 32)); [apply stable_pinned; is_in| |].
  { intros k Hk Hp. unfold act_ok, zoom, pqc_encapsulate. cbn. split.
    - apply guarantee_evo; [done|by apply typed_rng|done..].
    - split; [exact Hp|]. intros ct ss E. by eapply kyber_encapsulate_len. }
  intros enc. apply tr_pure. intros Henc. destruct enc as [[ct ss]|]; [|apply tr_done_pk; auto].
  destruct (Henc ct ss eq_refl). eapply tr_result; [by apply tr_finish|]. intros n ->. by left.
Qed.

Lemma spec_set_pk pk : tr [] (fun _ => True) (mt_set_peer_public_key pk) (ends [] (val any)).
Proof using HOk.
  unfold mt_set_peer_public_key. apply tr_lock; [done|not_in|]. apply (tr_weaken _ _ _ (fun _ => True)); [|done].
  apply (tr_act mono _ _ _ (fun _ k => bob_public_key (k_evo k) = pk)); [done| |].
  { intros k Hk _. unfold act_ok. cbn. split; [|done]. apply guarantee_evo; [done| |done|done|done|].
    - destruct Hk. by split.
    - intros Hn. destruct Hn. is_in. }
  intros _. cbv zeta.
  assert (stable [L_pk] (fun k => bob_public_key (k_evo k) = pk)) as Hst.
  { intros k k' E (_ & _ & HA). destruct (HA L_pk) as [-> _]; [is_in|done]. }
  eapply (tr_bind mono _ [L_pk] _ _ (fun _ => bound)).
  { apply tr_guarded_plain; [done|done|intros _; apply stable_bound; is_in|not_in|].
    intros k Hk E. unfold act_ok. cbn. split; [|by right; simpl; rewrite E].
    apply guarantee_evo; [done| |done|done|done|].
    - destruct Hk. split; simpl; [done|apply sha256_len|done..].
    - intros Hn. destruct Hn. is_in. }
  intros _. apply (tr_unlock mono [L_pk] bound L_pk (mret tt)); [is_in|done|].
  apply (tr_weaken _ _ _ (fun _ => True)); [|done]. apply tr_ret; [done|]. done.
Qed.

(** A result, once nothing about the state is known any more. *)
Lemma tr_mret {A} h (a : A) (Q : A -> Prop) : Q a -> tr h (fun _ => True) (mret a) (ends h (val Q)).
Proof. intros HQ. apply tr_ret; [done|]. done. Qed.

Lemma tr_next {A B} h P (p : kprog A) (Q : A -> kernel -> Prop) (f : A -> kprog B) K :
  tr h P p (ends h Q) -> (forall a, tr h (fun _ => True) (f a) K) -> tr h P (p ≫= f) K.
Proof. intros Hp Hf. eapply tr_bind; [exact Hp|]. intros a. by apply (tr_weaken _ _ _ (fun _ => True)). Qed.

Lemma spec_apply ct : tr [] (fun _ => True) (mt_apply_peer_kem ct) (ends [] (val (fun r => r = 0 \/ r = 2 \/ r = 3))).
Proof using HOk.
  apply (tr_bind mono _ [] _ _ (val any)).
  { apply tr_guarded_plain; [done|done|auto|not_in|]. intros k Hk _. eapply act_read; [done|apply evo_read|done]. }
  intros keys. apply (tr_weaken _ _ _ (fun _ => True)); [|done]. cbv zeta.
  destruct (decide (as_slice keys.2 = [])); [apply tr_mret; auto|].
  destruct (kyber_decapsulate ct _) as [ss|] eqn:E; [|apply tr_mret; auto].
  unfold to_array32. rewrite (kyber_decapsulate_len _ _ _ E). cbn [Z.eqb Pos.eqb].
  eapply tr_bind; [apply spec_read_curr; not_in|]. intros curr. apply (tr_weaken _ _ _ (fun _ => True)); [|done].
  apply (tr_act mono _ _ _ (fun d k => True /\ lenZ d = 32)); [done| |].
  { intros k Hk _. eapply act_read; [done|apply derive_pending_key_eval|]. split; [done|apply pending_key_len]. }
  intros d. apply tr_pure. intros Hd.
  eapply tr_bind; [by apply spec_set_pend; [not_in|]|]. intros ?. apply (tr_weaken _ _ _ (fun _ => True)); [|done].
  apply tr_mret. auto.
Qed.

Ltac next := eapply tr_next; [|intros ?].

Lemma spec_keypair :
  tr [] (fun _ => True) (mt_generate_bob_keypair (repZ ML_KEM_PK_LEN 0) (repZ ML_KEM_SK_LEN 0)) (ends [] (val any)).
Proof using HOk.
  apply (tr_act mono _ _ _ (fun kp k => True /\ lenZ kp.1 = 1568 /\ lenZ kp.2 = 3168)); [done| |].
  { intros k Hk _. unfold act_ok, zoom, pqc_keypair. cbn. split; [|split; [done|apply kyber_keypair_len]].
    apply guarantee_evo; [done|by apply typed_rng|done..]. }
  intros kp. apply tr_pure. intros [H1 H2]. cbv zeta.
  assert (forall n src, lenZ src = n -> forall k : kernel, copy_prefix (repZ n 0) src k = Done (splice 0 src (repZ n 0)) k) as Hcp.
  { intros n src E k. unfold copy_prefix. rewrite lenZ_repZ, E.
    destruct (Z.leb_spec n (Z.max 0 n)); [done|lia]. }
  apply (tr_act mono _ _ _ (fun _ _ => True)); [done| |].
  { intros k Hk _. eapply act_read; [done|by apply Hcp|done]. }
  intros opk. apply (tr_act mono _ _ _ (fun _ _ => True)); [done| |].
  { intros k Hk _. eapply act_read; [done|by apply Hcp|done]. }
  intros osk. apply tr_lock_plain; [done|done|not_in|].
  apply (tr_act mono _ _ _ (fun _ _ => True)); [done| |].
  { intros k Hk _. unfold act_ok. cbn. split; [|done]. apply guarantee_evo; [done| |done|done| |done].
    - destruct Hk. split; simpl; [done|done| |done|done]. by right.
    - intros Hn. destruct Hn. is_in. }
  intros _. apply tr_unlock_plain; [done|is_in|]. by apply tr_mret.
Qed.

(** ** The vault *)

Lemma act_vault {R} h (d : R) (f : M vol_env R) k :
  typed k -> L_vault ∈ h -> sane f -> aok h (with_vault_or d f) k (fun _ _ => True).
Proof.
  intros Hk Hh Hf. unfold act_ok, with_vault_or. destruct (VFS k) as [[v p]|] eqn:E; [|by split; [apply guarantee_refl|]].
  destruct (ty_vault _ Hk v p E) as [-> Hv].
  destruct (wp_inv _ _ _ (Hf (env_of v k) Hv)) as (r & e & -> & He & _). split; [|done].
  split; [split; [intros _; unfold k_epoch, k_root; simpl; lia|done]|]. split.
  - destruct Hk. split; simpl; [done..|]. by intros v' p' [= <- <-].
  - intros [] Hl; simpl; try done.
Qed.

(** Work under the vault's mutex; a poisoned mutex gives the default. *)
Lemma tr_open_vault {R} (d : R) (p : kprog R) :
  tr [L_vault] (fun _ => True) p (ends [] (val any)) ->
  tr [] (fun _ => True) (vfs ← act (gets VFS);
    match vfs with None => mret d | Some _ => Lock L_vault (Ret d) p end) (ends [] (val any)).
Proof.
  intros Hp. apply (tr_act mono _ _ _ (fun _ _ => True)); [done| |].
  { intros k Hk _. by eapply act_read. }
  intros [vfs|]; [|by apply tr_mret]. intros k Hk _. split; [not_in|]. intros k' Hr. split.
  - intros _ k2 Hr2. split; [done|]. split; [apply Hr2|done].
  - intros _. apply Hp; [apply Hr|done].
Qed.

Lemma spec_vault {R} (d : R) f :
  sane f -> tr [] (fun _ => True) (mt_with_vault_or d f) (ends [] (val any)).
Proof.
  intros Hf. apply tr_open_vault. apply (tr_act mono _ _ _ (fun _ _ => True)); [done| |].
  { intros k Hk _. apply act_vault; [done|is_in|done]. }
  intros r. apply (tr_unlock_plain _ _ L_vault (mret r)); [done|is_in|]. by apply tr_mret.
Qed.

Lemma spec_validate : tr [] (fun _ => True) mt_validate_canary_slots (ends [] (val any)).
Proof.
  apply tr_open_vault. apply (tr_act mono _ _ _ (fun _ _ => True)); [done| |].
  { intros k Hk _. apply act_vault; [done|is_in|apply sane_check_canaries]. }
  intros code. apply (tr_bind mono _ [L_vault] _ _ (val any)).
  - destruct (code =? 0); [|by apply tr_mret]. intros k2 Hk2 _ k3 Hr3. simpl.
    assert (typed (with_CANARY true k3)) as Hk3 by (destruct Hr3 as (_ & [] & _); by split).
    split; [|intros k4 Hr4; split; [done|]; split; [apply Hr4|done]].
    split; [split; [intros _; unfold k_epoch, k_root; simpl; lia|done]|]. split; [done|]. by intros [] ?.
  - intros ?. apply (tr_unlock_plain _ _ L_vault (mret code)); [done|is_in|].
    apply (tr_weaken _ _ _ (fun _ => True)); [|done]. by apply tr_mret.
Qed.

Lemma spec_read_vault start n out :
  is_u 64 start -> is_u 32 n -> tr [] (fun _ => True) (mt_read_vault_blocks start n out) (ends [] (val any)).
Proof.
  intros Hs Hn. unfold mt_read_vault_blocks. destruct out as [out|]; [|by apply tr_mret].
  destruct (n =? 0); [by apply tr_mret|]. next; [|by apply tr_mret]. apply spec_vault. intros e He.
  rewrite <- (Z2Nat.id n) by apply Hn. apply sane_read_blocks; [by rewrite Z.add_0_r|done].
Qed.

Lemma spec_write_vault start n data :
  is_u 64 start -> is_u 32 n -> (forall d, data = Some d -> lenZ d = n * PAYLOAD_SIZE) ->
  tr [] (fun _ => True) (mt_write_vault_blocks start n data) (ends [] (val any)).
Proof.
  intros Hs Hn Hd. unfold mt_write_vault_blocks. destruct data as [data|]; [|by apply tr_mret].
  destruct (n =? 0); [by apply tr_mret|]. apply spec_vault. intros e He. unfold is_u in Hn.
  pose proof (sane_write_blocks start data n (Z.to_nat n) 0 0 e (Hd data eq_refl)) as H.
  rewrite Z2Nat.id in H by lia. apply H; [lia|lia|by rewrite Z.add_0_r|done].
Qed.

(** ** Trust root and identity stamp *)

(** A new trust root restarts the epochs, so it is excluded where they must not go back. *)
Lemma spec_init a b pk : ~ mono -> tr [] (fun _ => True) (mt_init_root_state a b pk) (ends [] (val any)).
Proof using HOk.
  intros Hnm. unfold mt_init_root_state. destruct a as [a|], b as [b|]; try by apply tr_mret.
  destruct (_ || _); [by apply tr_mret|]. unfold mt_initialise_root_state.
  destruct (_ || _); [by apply tr_mret|]. cbv zeta. destruct (_ <? _); [by apply tr_mret|].
  destruct (_ =? _); [by apply tr_mret|].
  next. { apply (tr_guarded_plain _ _ _ _ (fun _ _ => True)); [done|done|auto|not_in|]. intros k Hk _.
    unfold act_ok. cbn. split; [|done]. split; [split; [intros _; unfold k_epoch, k_root; simpl; lia|done]|].
    split; [destruct Hk; by split|]. intros [] Hl; simpl; try done. destruct Hl. is_in. }
  next. { apply (tr_guarded_plain _ _ _ _ (fun _ _ => True)); [done|done|auto|not_in|]. intros k Hk _.
    apply act_root; [done|]. simpl. split; [apply root_ok_curr; [apply Hk|apply sha256_len]|]. split; [|done].
    split_and!; simpl; [|done|done|lia]. intros Hn. destruct Hn. is_in. }
  next. { apply (tr_guarded_plain _ _ _ _ (fun _ _ => True)); [done|done|auto|not_in|]. intros k Hk _.
    apply act_root; [done|]. simpl. split; [apply root_ok_epoch; [apply Hk|by unfold is_u]|]. split; [|done].
    split_and!; simpl; [done|done| |done]. intros Hn. destruct Hn. is_in. }
  by apply tr_mret.
Qed.

Lemma spec_read_store : tr [] (fun _ => True) mt_read_bob_pk (ends [] (val any)).
Proof. apply tr_guarded_plain; [done|done|auto|not_in|]. intros k Hk _. by eapply act_read. Qed.

Lemma spec_id_stamp : tr [] (fun _ => True) mt_generate_id_stamp (ends [] (val any)).
Proof using HOk.
  next; [apply spec_read_curr; not_in|]. next; [apply spec_read_store|]. apply spec_vault.
  apply sane_result, sane_write_block. rewrite lenZ_splice; [by rewrite lenZ_repZ|done|].
  rewrite lenZ_repZ. unfold compute_id_stamp. rewrite sha256_len. done.
Qed.

Lemma spec_load out : tr [] (fun _ => True) (mt_load_id_stamp out) (ends [] (val any)).
Proof.
  unfold mt_load_id_stamp. destruct out as [o|]; [|by apply tr_mret]. destruct (_ <? _); [by apply tr_mret|].
  next; [apply spec_vault, sane_result, sane_read_block|]. destruct (negb _); by apply tr_mret.
Qed.

(** ** Exported calls *)

Lemma tr_num (p : kprog Z) (Q : Z -> Prop) :
  tr [] (fun _ => True) p (ends [] (val Q)) ->
  tr [] (fun _ => True) (mt_num p) (ends [] (val (fun r => exists n, r = RNum n /\ Q n))).
Proof.
  intros Hp. eapply tr_bind; [exact Hp|]. intros n k Hk HQ k' Hr. split; [done|]. split; [apply Hr|]. by exists n.
Qed.

(** An action that changes nothing but the random generator. *)
Lemma tr_rng (m : M kernel reply) :
  (forall k, exists r x, m k = Done r (with_k_rng x k)) -> tr [] (fun _ => True) (act m) (ends [] (val any)).
Proof.
  intros Hm. apply (tr_act mono [] (fun _ => True) m (fun _ _ => True) Ret); [done| |].
  - intros k Hk _. destruct (Hm k) as (r & x & E). unfold act_ok. rewrite E. split; [|done].
    apply guarantee_evo; [done|by apply typed_rng|done..].
  - intros r. by apply tr_mret.
Qed.
Lemma rng_same (k : kernel) : with_k_rng (ev_rng (k_evo k)) k = k.
Proof. by destruct k as [[]]. Qed.
Lemma tr_pure_call (m : M kernel reply) :
  (forall k, exists r, m k = Done r k) -> tr [] (fun _ => True) (act m) (ends [] (val any)).
Proof. intros Hm. apply tr_rng. intros k. destruct (Hm k) as [r E]. exists r, (ev_rng (k_evo k)). by rewrite rng_same. Qed.

Lemma spec_counter (m : M root_statics Z) :
  (forall s, exists n, m s = Done n s) \/ m = next_msg_seq -> tr [] (fun _ => True) (on_root m) (ends [] (val any)).
Proof.
  intros Hm. apply (tr_root [] (fun _ => True) m (fun _ _ => True) Ret); [done| |intros; by apply tr_mret].
  intros k Hk _. destruct Hm as [Hm| ->].
  - destruct (Hm (k_root k)) as [n ->]. split; [apply Hk|]. split; [apply root_frame_refl|done].
  - simpl. split; [apply root_ok_counter; [apply Hk|]; apply Z.mod_pos_bound; lia|]. split; [|done].
    split_and!; simpl; [done..|lia].
Qed.

Lemma spec_derive e q : tr [] (fun _ => True) (mt_derive_message_key e q) (ends [] (val any)).
Proof using HOk.
  next; [apply spec_read_curr; not_in|]. apply (tr_derive [] a e q Ret). intros b. by apply tr_mret.
Qed.

Lemma spec_auto_commit a ct st o e q t l d :
  tr [] (fun _ => True) (mt_decrypt_with_auto_commit a ct st o e q t l d) (ends [] (val any)).
Proof using HOk Hmono.
  unfold mt_decrypt_with_auto_commit. destruct ct as [ct|], st as [st|], l; try by apply tr_mret.
  destruct (_ =? _); [by apply tr_mret|]. next; [apply spec_try_decrypt|by apply tr_mret].
Qed.

Lemma spec_gen_keypair pk sk : tr [] (fun _ => True) (mt_evolution_generate_bob_keypair pk sk) (ends [] (val any)).
Proof using HOk.
  unfold mt_evolution_generate_bob_keypair. destruct pk as [pk|], sk as [sk|]; try by apply tr_mret.
  destruct (_ || _); [by apply tr_mret|]. next; [apply spec_keypair|].
  destruct a as [[code p] x]. destruct (_ =? _); by apply tr_mret.
Qed.

Lemma get_kem_returns (out : bytes) (s : evo_statics) : exists r, get_kem_cipher out s = Done r s.
Proof.
  unfold get_kem_cipher. unfold mbind, M_bind. cbn. destruct (kem_cipher s) as [b|]; [|by eexists].
  unfold copy_prefix, as_slice, len.
  destruct (Z.leb_spec (lenZ (takeZ (Z.min (lenZ (inner b)) (lenZ out)) (inner b))) (lenZ out)); [by eexists|len_lia].
Qed.

Lemma spec_evo_read {A} l (m : M evo_statics A) :
  l <> L_pk -> (forall s, exists r, m s = Done r s) ->
  tr [] (fun _ => True) (guarded l (zoom evo_lens m)) (ends [] (val any)).
Proof.
  intros Hl Hm. apply tr_guarded_plain; [done|done|auto|not_in|]. intros k Hk _. destruct (Hm (k_evo k)) as [r E].
  eapply act_read; [done| |done]. unfold zoom. cbn [lget lput evo_lens]. rewrite E. by destruct k.
Qed.

Lemma spec_get_kem out : tr [] (fun _ => True) (mt_ffi_get_kem_cipher out) (ends [] (val any)).
Proof.
  unfold mt_ffi_get_kem_cipher. destruct out as [o|]; [|by apply tr_mret].
  destruct (_ =? _); [by apply tr_mret|]. next; [apply spec_evo_read; [done|apply get_kem_returns]|].
  destruct a as [n buf]. destruct (_ =? _); by apply tr_mret.
Qed.

(** The answers of the calls on the root and the evolution, in every interleaving, that rest
    on the discipline; [Replies] lists those of all calls. *)
Definition evolution_reply (c : call) (r : reply) : Prop :=
  match c with
  | StartEvolution => exists n, r = RNum n /\ (n = 0 \/ n = 1 \/ n = 2)
  | ApplyPeerKem ct => exists n, r = RNum n /\
      if default 0 (lenZ <$> ct) =? 0 then n = 1 else n = 0 \/ n = 2 \/ n = 3
  | CommitEvolution => exists n, r = RNum n /\ (n = 0 \/ n = 1)
  | GetEpochId => exists n, r = RNum n /\ is_u 32 n
  | RecoverAfterLoss t => exists n, r = RNum n /\ is_u 32 n /\ (mono -> t <= n)
  | _ => True
  end.

(** The call does not restart the epochs. *)
Definition keeps_epoch (c : call) : Prop := match c with InitRootState _ _ _ => False | _ => True end.

Lemma tr_any {A} (p : kprog A) (Q Q' : A -> Prop) :
  tr [] (fun _ => True) p (ends [] (val Q)) -> (forall a, Q' a) -> tr [] (fun _ => True) p (ends [] (val Q')).
Proof. intros Hp HQ. eapply tr_result; [exact Hp|auto]. Qed.

Lemma padding_rng a h data out_len (k : kernel) :
  exists r x, exec a h (AddTailPadding data out_len) k = Done r (with_k_rng x k).
Proof using HOk.
  assert (forall r : reply, exists r' x, Done r k = Done r' (with_k_rng x k)) as Hr.
  { intros r. exists r, (ev_rng (k_evo k)). by rewrite rng_same. }
  cbn [exec]. unfold ffi_add_tail_padding. destruct data as [d|], out_len; try apply Hr.
  destruct (_ =? 0); [apply Hr|]. unfold mbind, M_bind, zoom.
  destruct (add_tail_padding_eval d (lget krng_lens k)) as (noise & r' & E & _). rewrite E. by do 2 eexists.
Qed.
Lemma strip_pure a h data out_len :
  exists r, forall k : kernel, exec a h (StripTailPadding data out_len) k = Done r k.
Proof.
  cbn [exec]. unfold ffi_strip_tail_padding. destruct data as [d|], out_len; try by eexists.
  destruct (_ =? 0); [by eexists|]. destruct (strip_returns d) as [r E]. eexists. intros k. unfold mbind, M_bind. by rewrite E.
Qed.

(** An action on the statics of the clock, which no mutex above guards. *)
Lemma tr_clock {A} (m : M clock_statics A) :
  (forall s, exists r s', m s = Done r s') -> tr [] (fun _ => True) (on_clock m) (ends [] (val any)).
Proof.
  intros Hm. apply (tr_act mono [] (fun _ => True) _ (fun _ _ => True) Ret); [done| |intros; by apply tr_mret].
  intros k Hk _. destruct (Hm (k_clock k)) as (r & s' & E). unfold act_ok, zoom. cbn [lget lput clock_lens].
  rewrite E. split; [|done]. split; [split; [intros _; unfold k_epoch, k_root; simpl; lia|done]|].
  split; [by destruct Hk; split|]. by intros [] ?.
Qed.
Lemma spec_init_clock : tr [] (fun _ => True) mt_init_clock_align (ends [] (val any)).
Proof. unfold mt_init_clock_align. next; [apply tr_clock|apply tr_clock]; intros s; by do 2 eexists. Qed.

Lemma tr_vault_num d f :
  sane f -> tr [] (fun _ => True) (mt_num (mt_with_vault_or d f)) (ends [] (val (fun _ => True))).
Proof. intros Hf. eapply tr_any; [by apply tr_num, spec_vault|done]. Qed.

Lemma spec_thread_of a h c :
  call_ok c -> threadable c -> (mono -> keeps_epoch c) ->
  tr [] (fun _ => True) (thread_of a h c) (ends [] (val (evolution_reply c))).
Proof using HOk Hmono.
  intros Hc Ht Hm. destruct c; cbn [thread_of call_ok threadable keeps_epoch evolution_reply] in *;
    try (lazymatch type of Ht with False => destruct Ht end).
  - next; [destruct Hc; by apply spec_read_vault|by apply tr_mret].
  - destruct Hc as (? & ? & ?). eapply tr_any; [by apply tr_num, spec_write_vault|done].
  - apply tr_vault_num. apply sane_result, sane_allocate.
  - apply tr_vault_num. apply sane_result, sane_free_block.
  - apply tr_vault_num, sane_erase.
  - apply tr_vault_num. apply sane_result, sane_ret.
  - apply tr_vault_num. apply sane_gets.
  - apply tr_vault_num. apply sane_gets.
  - eapply tr_any; [apply tr_num, spec_validate|done].
  - eapply tr_any; [apply (tr_num _ any)|done]. apply (tr_act mono _ _ _ (fun _ _ => True) Ret); [done| |intros; by apply tr_mret].
    intros k Hk _. by eapply act_read.
  - apply tr_vault_num. apply sane_bind; [apply sane_reserve_all|]. intros _. apply sane_write_canaries.
  - eapply tr_any; [apply tr_num, spec_init|done]. intros Hmm. by apply Hm.
  - eapply tr_result; [apply (tr_num _ (is_u 32))|]; [|done]. intros k Hk _.
    eapply safe_mono; [by apply spec_read_epoch; [not_in|..]|]. intros h2 e k2 (? & ? & ? & _). done.
  - eapply tr_any; [apply tr_num, spec_id_stamp|done].
  - next; [apply spec_load|by apply tr_mret].
  - eapply tr_any; [apply tr_num, spec_counter; by right|done].
  - eapply tr_any; [apply tr_num, spec_counter|done]. left. by eexists.
  - next; [apply spec_derive|by apply tr_mret].
  - eapply tr_any; [apply tr_pure_call|done]. by eexists.
  - eapply tr_any; [apply tr_pure_call|done]. by eexists.
  - next; [apply spec_auto_commit|by apply tr_mret].
  - eapply tr_any; [apply tr_pure_call|done]. by eexists.
  - eapply tr_any; [apply tr_rng|done]. apply padding_rng.
  - eapply tr_any; [apply tr_pure_call|done]. intros k. destruct (strip_pure a h data out_len) as [r E]. by exists r.
  - next; [apply spec_gen_keypair|by apply tr_mret].
  - destruct pk as [pk|]; [|by apply tr_mret]. destruct (_ =? _); [by apply tr_mret|].
    next; [apply spec_set_pk|by apply tr_mret].
  - eapply tr_result; [apply tr_num, spec_start|done].
  - next; [apply spec_evo_read; [done|]|by apply tr_mret]. intros s. unfold kem_cipher_len. by eexists.
  - next; [apply spec_get_kem|by apply tr_mret].
  - destruct ct as [ct|]; [|apply tr_mret; by exists 1]. destruct (lenZ ct =? 0) eqn:El.
    + apply tr_mret. exists 1. split; [done|]. cbn. by rewrite El.
    + eapply tr_result; [apply tr_num, spec_apply|]. cbn. by rewrite El.
  - eapply tr_result; [apply tr_num, spec_commit|done].
  - eapply tr_result; [by apply tr_num, spec_recover|done].
  - next; [apply spec_init_clock|by apply tr_mret].
  - eapply tr_any; [apply tr_num, tr_clock|done]. intros s. by do 2 eexists.
Qed.

(** A program keeps the discipline, and its results satisfy what they satisfy in every state. *)
Lemma tr_outs {A} h P (p : kprog A) (Q Q' : A -> Prop) :
  tr h P p (ends [] (val Q)) -> outs typed Q' p -> tr h P p (ends [] (val (fun a => Q a /\ Q' a))).
Proof.
  intros Hp Ho k Hk HPk. eapply safe_mono; [by eapply (safe_outs D _ typed); [|by apply Hp|exact Ho]|].
  intros h' a k' [(-> & ? & ?) ?]. done.
Qed.

(** Calls a thread may make where [mono] is promised. *)
Definition thread_call (c : call) : Prop := call_ok c /\ threadable c /\ (mono -> keeps_epoch c).

Lemma spec_thread_of_all a h cs :
  Forall thread_call cs ->
  tr [] (fun _ => True) (thread_of_all a h cs) (ends [] (val (Forall2 evolution_reply cs))).
Proof using HOk Hmono.
  induction cs as [|c cs IH]; intros Hcs; [apply tr_mret; constructor|].
  apply Forall_cons in Hcs as [(H1 & H2 & H3) Hcs]. cbn [thread_of_all].
  eapply tr_bind; [by apply spec_thread_of|]. intros r k Hk Hr.
  apply (tr_bind mono [] [] (fun _ => True) _ (val (Forall2 evolution_reply cs))); [by apply IH| |done|done].
  intros rs k2 Hk2 Hrs k3 Hr3. split; [done|]. split; [apply Hr3|]. by constructor.
Qed.

(** Every interleaving of threads that answer as they should keeps the discipline. *)
Lemma calls_sound (R : call -> reply -> Prop) (thr : list call -> kprog (list reply)) css k c :
  kernel_ok k -> Forall (fun cs => tr [] (fun _ => True) (thr cs) (ends [] (val (Forall2 R cs)))) css ->
  reachable k (thr <$> css) c ->
  (pool_ok D may_panic (Forall2 R <$> css) c \/ gone D c) /\ (mono -> k_epoch k <= k_epoch (shared c)).
Proof.
  intros [Hk Hb]%kernel_ok_typed Hcss Hc.
  destruct (threads_sound D may_panic (Forall2 R <$> css) k (thr <$> css) c) as [H [He _]]; [done| | |done|done].
  - by intros [].
  - apply Forall2_fmap, Forall_Forall2_diag. eapply Forall_impl; [exact Hcss|]. intros cs Hcs.
    eapply safe_mono; [by apply Hcs|]. intros h' rs k' (-> & _ & HQ). split; [done|].
    by intros l ?%elem_of_nil.
Qed.
Lemma interleavings_sound a h css k c :
  kernel_ok k -> Forall (Forall thread_call) css -> reachable k (thread_of_all a h <$> css) c ->
  (pool_ok D may_panic (Forall2 evolution_reply <$> css) c \/ gone D c) /\ (mono -> k_epoch k <= k_epoch (shared c)).
Proof using HOk Hmono.
  intros Hk Hcss. apply calls_sound; [done|]. eapply Forall_impl; [exact Hcss|]. intros cs. apply spec_thread_of_all.
Qed.
End programs.
