(* ===== verification/Replies.v ===== *)
(** The replies of every exported function, in every interleaving.

    [reply_ok] lists, call by call, what the application can get back: the exact codes, the
    ranges of the numbers, and what is written to the buffers.  A reply does not depend on
    luck: [outs_sc_thread_of] shows that every result of the program of [SysCalls] is in the
    table whatever the other threads do between its actions, of which only the invariant
    [typed] is used; the answers that rest on the lock discipline come from [Concurrency]. *)
From S2P Require Import Prelude Effects Threads Crypto MemoryProtection RootState AntiDos TailPadding MessageCipher Evolution StdFs VolumeLayout VirtualVolume VolumeProofs VolumeTotal ClockAlign DiskWipe Kernel InitModule Ffi Exports Locks SysCalls Concurrency.

(** * The table *)

Section table.
Context `{HP : Primitives} `{HB : BuildProfile} (mono : promises) (alloc_ok : Z -> bool).

(** The code of [init_root_state], from its arguments alone. *)
Definition init_root_code (a b pk : option bytes) : Z :=
  match a, b with
  | Some a, Some b =>
      if (lenZ a =? 0) || (lenZ b =? 0) then 1
      else if entropy_reject a || entropy_reject b then 2
      else if lenZ (odd_even_interleave a b) <? 64 then 1
      else if lenZ (default [] pk) =? 0 then 3 else 0
  | _, _ => 1
  end.

(** A purge with this call can end the process. *)
Definition purges (c : call) : Prop :=
  exists path, c = PurgeVault (Some path) /\ lenZ path <> 0 /\ is_Some (from_utf8 path).

Definition reply_ok (c : call) (r : reply) : Prop :=
  match c with
  | InitVirtualVolume path key _ => exists n, r = RNum n /\
      match path, key with
      | Some path, Some key =>
          if (lenZ path =? 0) || (lenZ key <? 32) then n = 1
          else match from_utf8 path with None => n = 2 | Some _ => n = 0 \/ n = 3 end
      | _, _ => n = 1
      end
  | ReadVaultBlocks _ n out => exists c mem, r = RMem c mem /\ 0 <= c <= n /\ (c = 0 -> mem = out)
  | WriteVaultBlocks _ n _ => exists c, r = RNum c /\ 0 <= c <= n
  | AllocateVaultBlock => exists i, r = RNum i /\
      (i = u64_max \/ DATA_START_BLOCK <= i < DATA_START_BLOCK + MAX_DATA_BLOCKS)
  | FreeVaultBlock _ | SecureEraseBlock _ => exists n, r = RNum n /\ (n = 0 \/ n = 1 \/ n = 3)
  | RegisterTouchOffset _ _ => exists n, r = RNum n /\ (n = 0 \/ n = 1)
  | VaultTotalBlocks => exists n, r = RNum n /\
      (n = 0 \/ DATA_START_BLOCK <= n <= DATA_START_BLOCK + MAX_DATA_BLOCKS)
  | VaultFreeBlocks => exists n, r = RNum n /\ 0 <= n <= MAX_DATA_BLOCKS
  | ValidateCanarySlots | InitCanarySlots => exists n, r = RNum n /\ (n = 0 \/ n = 1 \/ n = 2)
  | CanarySlotsIntact => exists n, r = RNum n /\ (n = 0 \/ n = 1)
  (* a purge that returns has failed *)
  | PurgeVault path => exists n, r = RNum n /\
      if default 0 (lenZ <$> path) =? 0 then n = 1
      else match path ≫= from_utf8 with None => n = 2 | Some _ => n = 3 end
  | InitRootState a b pk => r = RNum (init_root_code a b pk)
  | GetEpochId => exists n, r = RNum n /\ is_u 32 n
  | GenerateIdStamp => exists n, r = RNum n /\ (n = 0 \/ n = 1)
  | LoadIdStamp out => r = RMem 1 out \/ exists o stamp, out = Some o /\ 32 <= lenZ o /\
      lenZ stamp = 32 /\ r = RMem 0 (Some (splice 0 stamp o))
  | MsgCounterNext | MsgCounterCurrent => exists n, r = RNum n /\ is_u 64 n
  | DeriveMessageKey e q => exists root, lenZ root = 32 /\
      r = RNative None None (match allocate_native_buffer alloc_ok 32 with
        | None => Null | Some _ => Buffer (message_key root e q) end)
  | EncryptMessage pt key stamp o e q t out_len =>
      let x := encrypt_message alloc_ok pt key stamp o e q t out_len in r = RNative x.1 None x.2
  | DecryptMessage ct key stamp o e q t out_len =>
      let x := decrypt_message alloc_ok ct key stamp o e q t out_len in r = RNative x.1 None x.2
  (* a plaintext is what the message opens to under the key of some root *)
  | DecryptWithAutoCommit ct stamp o e q t out_len did_commit =>
      r = RNative (store out_len 0) (store did_commit 0) Null \/
      exists ct' stamp' root pt committed, ct = Some ct' /\ stamp = Some stamp' /\ out_len = true /\
        lenZ root = 32 /\
        decrypt ct' (message_key root e q) (takeZ 32 stamp') (negb (o =? 0)) e q t = Some pt /\
        r = RNative (Some (as_u32 (lenZ pt))) (store did_commit (if (committed : bool) then 1 else 0))
              (to_native alloc_ok pt)
  | ZeroizeKey mem => let x := zeroize_key mem in r = RMem x.1 x.2
  | AddTailPadding data out_len =>
      r = RNative (store out_len 0) None Null \/
      exists d g padded g', data = Some d /\ out_len = true /\ add_tail_padding d g = Done padded g' /\
        r = RNative (Some (as_u32 (lenZ padded))) None (to_native alloc_ok padded)
  | StripTailPadding data out_len =>
      exists x, r = RNative x.1 None x.2 /\ forall k, ffi_strip_tail_padding alloc_ok data out_len k = Done x k
  | GenerateBobKeypair pk sk => r = RMems 1 pk sk \/
      exists opk osk npk nsk, pk = Some opk /\ sk = Some osk /\
        ML_KEM_PK_LEN <= lenZ opk /\ ML_KEM_SK_LEN <= lenZ osk /\
        lenZ npk = ML_KEM_PK_LEN /\ lenZ nsk = ML_KEM_SK_LEN /\
        r = RMems 0 (Some (splice 0 npk opk)) (Some (splice 0 nsk osk))
  | SetPeerPublicKey pk => r = RNum (if default 0 (lenZ <$> pk) =? 0 then 1 else 0)
  | StartEvolution => exists n, r = RNum n /\ (n = 0 \/ n = 1 \/ n = 2)
  | KemCipherLen => r = RNum 0 \/ r = RNum 1568
  | GetKemCipher out => r = RMem 1 out \/ exists o d, out = Some o /\
      lenZ d = Z.min 1568 (lenZ o) /\ r = RMem (lenZ d) (Some (splice 0 d o))
  | ApplyPeerKem ct => exists n, r = RNum n /\
      if default 0 (lenZ <$> ct) =? 0 then n = 1 else n = 0 \/ n = 2 \/ n = 3
  | CommitEvolution => exists n, r = RNum n /\ (n = 0 \/ n = 1)
  | RecoverAfterLoss t => exists n, r = RNum n /\ is_u 32 n /\ (mono -> t <= n)
  | InitClockAlign => r = RUnit
  | EstimatedClockSkew => exists n, r = RNum n
  end.
End table.

(** * Every result is in the table *)

Section programs.
Context `{HP : Primitives} `{HB : BuildProfile} `{HOk : !PrimitivesOk HP}.

Definition sane_env (e : vol_env) : Prop := mem_sane (e_vol e).

Lemma outs_try {L S A B} (I : S -> Prop) (Q : result B -> Prop) (p : prog L S (result A)) (k : A -> prog L S (result B)) :
  (forall a, outs I Q (k a)) -> (forall e, Q (Err e)) -> outs I Q (p ≫= ptry k).
Proof. intros Hk He. apply outs_then. intros [a|e]; [apply Hk|apply He]. Qed.

(** Splits a program at its binds and tests, down to its results. *)
Ltac outs_step := first
  [ progress cbv beta zeta
  | apply outs_try; [intros ?|intros ?]
  | apply outs_then; intros ?
  | match goal with |- outs _ _ (match ?x with _ => _ end) => destruct x eqn:? end ].
Ltac outs_all := repeat outs_step.

(** ** Under the mutex of the vault *)

Lemma outs_lift_zoom {L S T A} (I : T -> Prop) (I' : S -> Prop) (l : lens S T) (Q : A -> Prop) (p : lockfree S A) :
  (forall t, I t -> I' (lget l t)) -> outs I' Q p -> outs I Q (lift (L := L) (fun B => zoom (A := B) l) p).
Proof.
  intros HI. induction p as [a|[]|[]|B m k IH]; intros Hp; [exact Hp|]. intros t b t' Ht E. unfold zoom in E.
  destruct (m (lget l t)) as [b' s'| |] eqn:Em; simplify_eq/=. eapply IH, Hp; [by apply HI|done].
Qed.
Lemma outs_lift_vault {A} (Q : A -> Prop) (p : lockfree vol_env A) :
  outs sane_env Q p -> outs typed Q (lift (L := mutex) (@on_vault HP) p).
Proof.
  induction p as [a|[]|[]|B m k IH]; intros Hp; [exact Hp|]. intros t b t' Ht E. unfold on_vault in E.
  destruct (VFS t) as [[v x]|] eqn:Ev; [|done]. destruct (m (env_of v t)) as [b' e| |] eqn:Em; simplify_eq/=.
  eapply IH, Hp; [|done]. by destruct (ty_vault _ Ht _ _ Ev).
Qed.
Lemma outs_with_vault {R} (Q : R -> Prop) d (f : lockfree vol_env R) g :
  Q d -> outs sane_env Q f -> outs typed Q (sc_with_vault d f g).
Proof.
  intros Hd Hf. apply outs_then. intros [vfs|]; [|exact Hd]. split; [exact Hd|]. apply outs_then. intros [|].
  - apply outs_then. intros _. exact Hd.
  - apply outs_bind. eapply outs_mono; [by apply outs_lift_vault|]. intros r Hr. do 2 (apply outs_then; intros _). exact Hr.
Qed.
Lemma outs_with_vault_or {R} (Q : R -> Prop) d (f : lockfree vol_env R) :
  Q d -> outs sane_env Q f -> outs typed Q (sc_with_vault_or d f).
Proof. apply outs_with_vault. Qed.

Lemma outs_read_block i : outs sane_env (fun r => forall p, r = Ok p -> lenZ p = PAYLOAD_SIZE) (sc_read_block i).
Proof.
  unfold sc_read_block. outs_all; try done. intros p [= <-]. lia.
Qed.
Lemma outs_read_blocks start idxs out c :
  outs sane_env (fun r => c <= r.1 <= c + lenZ idxs /\ (r.1 = c -> r.2 = out)) (sc_read_blocks start idxs out c).
Proof.
  revert out c. induction idxs as [|i idxs IH]; intros out c; cbn [sc_read_blocks].
  { split; simpl; [rewrite lenZ_nil; lia|done]. }
  rewrite lenZ_cons. pose proof (lenZ_nonneg idxs).
  apply outs_then. intros idx. apply outs_then. intros [buf|e].
  - eapply outs_mono; [apply IH|]. intros r [Hr _]. split; [lia|lia].
  - split; simpl; [lia|done].
Qed.
Lemma outs_write_blocks start idxs data c :
  outs sane_env (fun r => c <= r <= c + lenZ idxs) (sc_write_blocks start idxs data c).
Proof.
  revert c. induction idxs as [|i idxs IH]; intros c; cbn [sc_write_blocks].
  { simpl. rewrite lenZ_nil. lia. }
  rewrite lenZ_cons. pose proof (lenZ_nonneg idxs).
  cbv zeta. apply outs_then. intros idx. apply outs_then. intros [buf|e].
  - eapply outs_mono; [apply IH|]. simpl. lia.
  - simpl. lia.
Qed.
Lemma outs_scan idxs :
  outs sane_env (fun r => forall i, r = Ok i -> i - DATA_START_BLOCK ∈ idxs) (sc_allocate_scan idxs).
Proof.
  induction idxs as [|i idxs IH]; cbn [sc_allocate_scan]; [done|]. do 2 (apply outs_then; intros ?). destruct a0.
  - apply outs_then. intros _. cbv zeta. apply outs_try; [intros _|done]. intros j [= <-]. rewrite Z.add_simpl_l. by left.
  - eapply outs_mono; [exact IH|]. intros r Hr j ->. right. by apply Hr.
Qed.
Lemma outs_allocate :
  outs sane_env (fun r => forall i, r = Ok i -> DATA_START_BLOCK <= i < DATA_START_BLOCK + MAX_DATA_BLOCKS) sc_allocate_block.
Proof.
  apply outs_bind, outs_act. intros e v e' He [= <- <-]. destruct (_ =? 0); [done|].
  apply outs_bind, outs_act. intros e2 n e3 _ Hn. pose proof (sane_total _ He) as Ht.
  rewrite chk_u_ok in Hn by (unfold is_u; vlia). injection Hn as <- _.
  eapply outs_mono; [apply outs_scan|]. intros r Hr i Hi. specialize (Hr i Hi). apply elem_of_seqZ in Hr. lia.
Qed.
Lemma outs_free_count :
  outs sane_env (fun n => 0 <= n <= MAX_DATA_BLOCKS) (act (gets (fun e : vol_env => free_blocks (e_vol e))) : lockfree vol_env Z).
Proof.
  apply outs_act. intros e n e' He [= <- <-]. rewrite (sane_free _ He). pose proof (sane_total _ He).
  unfold count_free. pose proof (countb_bounds (fun i => negb (is_alloc (block_bitmap (e_vol e)) i))
    (seqZ 0 (total_blocks (e_vol e) - DATA_START_BLOCK))) as Hb. unfold lenZ in Hb. rewrite length_seqZ in Hb. lia.
Qed.
Lemma outs_canaries bs : outs sane_env (fun r => r = 0 \/ r = 2) (sc_check_canaries bs).
Proof.
  induction bs as [|b bs IH]; cbn [sc_check_canaries]; [by left|]. outs_all; [|by right|by right]. exact IH.
Qed.
Lemma outs_write_canaries bs : outs sane_env (fun r => r = 0 \/ r = 2) (sc_write_canaries bs).
Proof. induction bs as [|b bs IH]; cbn [sc_write_canaries]; [by left|]. outs_all; [exact IH|by right]. Qed.

(** ** The calls of the vault *)

Lemma outs_num {I : kernel -> Prop} (Q : reply -> Prop) (p : kprog Z) :
  outs I (fun n => Q (RNum n)) p -> outs I Q (mt_num p).
Proof. intros Hp. apply outs_bind. exact Hp. Qed.

Lemma outs_init_volume path key n mono al :
  outs typed (fun r => reply_ok mono al (InitVirtualVolume path key n) (RNum r)) (sc_init_virtual_volume path key n).
Proof.
  unfold sc_init_virtual_volume, reply_ok. destruct path as [path|], key as [key|]; try by eexists.
  destruct (_ || _); [by eexists|]. destruct (from_utf8 path); [|by eexists]. cbv zeta.
  apply outs_then. intros [v|e]; [|eexists; split; [done|by right]].
  apply outs_then. intros _. eexists. split; [done|by left].
Qed.
Lemma outs_purge h path mono al :
  outs typed (fun r => reply_ok mono al (PurgeVault path) (RNum r)) (sc_purge_vault h path).
Proof.
  unfold sc_purge_vault, reply_ok. destruct path as [path|]; [|by eexists].
  change (default 0 (lenZ <$> Some path)) with (lenZ path). change (Some path ≫= from_utf8) with (from_utf8 path).
  destruct (lenZ path =? 0); [by exists 1|]. destruct (from_utf8 path) as [path'|]; [|by exists 2].
  apply outs_then. intros [u|e]; [|by exists 3]. intros k b k' _. by destruct h.
Qed.
Lemma outs_read_vault start n out :
  0 <= n -> outs typed (fun r => 0 <= r.1 <= n /\ (r.1 = 0 -> r.2 = out)) (sc_read_vault_blocks start n out).
Proof.
  intros Hn. unfold sc_read_vault_blocks. destruct out as [out|]; [|done].
  destruct (n =? 0); [done|]. apply outs_bind, outs_with_vault_or; [done|].
  eapply outs_mono; [apply outs_read_blocks|]. intros r [Hr He]. unfold lenZ in Hr. rewrite length_seqZ in Hr. simpl.
  split; [lia|]. intros E. by rewrite He.
Qed.
Lemma outs_write_vault start n data :
  0 <= n -> outs typed (fun r => 0 <= r <= n) (sc_write_vault_blocks start n data).
Proof.
  intros Hn. unfold sc_write_vault_blocks. destruct data as [data|]; [|simpl; lia].
  destruct (n =? 0); [simpl; lia|]. apply outs_with_vault_or; [lia|].
  eapply outs_mono; [apply outs_write_blocks|]. intros r Hr. unfold lenZ in Hr. rewrite length_seqZ in Hr. lia.
Qed.
Lemma outs_load out :
  outs typed (fun r => r = (1, out) \/ exists o stamp, out = Some o /\ 32 <= lenZ o /\ lenZ stamp = 32 /\
    r = (0, Some (splice 0 stamp o))) (sc_load_id_stamp out).
Proof.
  unfold sc_load_id_stamp. destruct out as [o|]; [|by left]. destruct (Z.ltb_spec (lenZ o) 32); [by left|].
  apply outs_bind. eapply (outs_mono _ (fun r => r.1 = 0 -> lenZ r.2 = PAYLOAD_SIZE)).
  - apply outs_with_vault_or; [done|]. apply outs_bind. eapply outs_mono; [apply outs_read_block|].
    intros [p|e] Hp; [|done]. intros _. by apply Hp.
  - intros [c p] Hp. simpl in *. destruct (Z.eqb_spec c 0) as [->|]; simpl; [|by left]. right. exists o, (takeZ 32 p).
    split_and!; [done|lia| |done]. rewrite lenZ_takeZ, Hp by done. done.
Qed.

(** ** The calls on the root and the evolution *)

Lemma outs_curr : outs typed (fun root => lenZ root = 32) (mt_read_root_state_curr : kprog bytes).
Proof.
  apply outs_guarded. intros k c k' Hk E. rewrite (root_read root_curr k : zoom kroot_lens read_root_state_curr k = _) in E.
  simplify_eq. apply Hk.
Qed.
Lemma outs_pend : outs typed (fun p => forall key, p = Some key -> lenZ key = 32) mt_read_root_state_pend.
Proof.
  apply outs_guarded. intros k c k' Hk E key ->. rewrite (root_read root_pend k : zoom kroot_lens read_root_state_pend k = _) in E.
  injection E as E _. by eapply Hk.
Qed.
Lemma outs_derive root e q : outs typed (eq (message_key root e q)) (act (derive_message_key_from_root root e q) : kprog bytes).
Proof. apply outs_act. intros k c k' _ E. rewrite derive_from_root_eval in E. by simplify_eq. Qed.

Lemma outs_try_decrypt wire st o e q t :
  outs typed (fun r => forall pt b, r = Some (pt, b) ->
    exists root, lenZ root = 32 /\ decrypt wire (message_key root e q) st o e q t = Some pt)
    (mt_try_decrypt_with_evolution wire st o e q t).
Proof.
  apply outs_bind. eapply outs_mono; [apply outs_curr|]. intros curr Hc. apply outs_then. intros ep.
  apply outs_bind. eapply outs_mono; [apply outs_derive|]. intros ? <-.
  destruct (decrypt _ _ _ _ _ _ _) as [pt|] eqn:Ed; [intros ? ? [= <- <-]; by exists curr|].
  apply outs_then. intros next. destruct (_ =? _); [|done]. apply outs_bind.
  eapply outs_mono; [apply outs_pend|]. intros [p|] Hp; [|done]. apply outs_bind.
  eapply outs_mono; [apply outs_derive|]. intros ? <-.
  destruct (decrypt _ (message_key p e q) _ _ _ _ _) as [pt|] eqn:Ed2; [|done].
  apply outs_then. intros r ? ? [= <- <-]. exists p. split; [by apply Hp|done].
Qed.

Lemma outs_keypair :
  outs typed (fun r => r.1.1 = 0 /\ lenZ r.1.2 = ML_KEM_PK_LEN /\ lenZ r.2 = ML_KEM_SK_LEN)
    (mt_generate_bob_keypair (repZ ML_KEM_PK_LEN 0) (repZ ML_KEM_SK_LEN 0)).
Proof.
  assert (forall n src (k k' : kernel) d, 0 <= n -> copy_prefix (repZ n 0) src k = Done d k' -> lenZ d = n) as Hc.
  { intros n src k k' d Hn. unfold copy_prefix. destruct (Z.leb_spec (lenZ src) (lenZ (repZ n 0))); [|done].
    intros [= <- _]. rewrite lenZ_splice; [|lia|lia]. rewrite lenZ_repZ. lia. }
  apply outs_then. intros kp. cbv zeta. apply outs_bind, outs_act. intros k d k' _ E%Hc; [|done].
  apply outs_bind, outs_act. intros k2 d2 k2' _ E2%Hc; [|done]. do 3 (apply outs_then; intros _). done.
Qed.

Lemma outs_get_kem out :
  outs typed (fun r => r = (1, out) \/ exists o d, out = Some o /\ lenZ d = Z.min 1568 (lenZ o) /\
    r = (lenZ d, Some (splice 0 d o))) (mt_ffi_get_kem_cipher out).
Proof.
  unfold mt_ffi_get_kem_cipher. destruct out as [o|]; [|by left]. destruct (Z.eqb_spec (lenZ o) 0) as [|Ho]; [by left|].
  pose proof (lenZ_nonneg o). apply outs_bind.
  eapply (outs_mono _ (fun r => r.1 = 0 \/ r.1 = Z.min 1568 (lenZ o) /\ lenZ r.2 = lenZ o)).
  - apply outs_guarded. intros k [n buf] k' Hk E. unfold zoom in E. cbn [lget lput evo_lens] in E.
    unfold get_kem_cipher, mbind, M_bind in E. cbn in E. destruct (kem_cipher (k_evo k)) as [b|] eqn:Eb; [|injection E as <- _ _; by left].
    pose proof (ty_kem _ Hk _ Eb) as Hl. unfold copy_prefix in E. rewrite lenZ_repZ in E.
    destruct (Z.leb_spec (lenZ (takeZ (len b `min` Z.max 0 (lenZ o)) (as_slice b))) (Z.max 0 (lenZ o))); [|done].
    simplify_eq/=. rewrite Hl in *. right. split; [lia|]. rewrite lenZ_splice; rewrite ?lenZ_repZ; lia.
  - intros [n buf] Hr. simpl in Hr. destruct (Z.eqb_spec n 0); [by left|]. destruct Hr as [|[-> Hb]]; [done|].
    right. exists o, (takeZ (1568 `min` lenZ o) buf). split; [done|]. rewrite lenZ_takeZ, Hb. split; [lia|].
    unfold as_u32. rewrite Z.mod_small by lia. f_equal. lia.
Qed.

(** ** The calls with buffers on the native heap *)

Lemma outs_auto_commit mono a h ct stamp o e q t out_len did_commit :
  let c := DecryptWithAutoCommit ct stamp o e q t out_len did_commit in
  outs typed (reply_ok mono a c) (sc_thread_of a h c).
Proof using HOk.
  apply outs_bind. unfold mt_decrypt_with_auto_commit.
  destruct ct as [ct|], stamp as [st|], out_len; try (by left). destruct (_ =? _); [by left|].
  apply outs_bind. eapply outs_mono; [apply outs_try_decrypt|]. intros [[pt b]|] Hr; [|by left].
  destruct (Hr _ _ eq_refl) as (root & ? & ?). right. by exists ct, st, root, pt, b.
Qed.
Lemma outs_padding mono a h data out_len :
  let c := AddTailPadding data out_len in outs typed (reply_ok mono a c) (sc_thread_of a h c).
Proof.
  apply outs_act. intros k r k' _. cbn [exec]. unfold ffi_add_tail_padding.
  destruct data as [d|], out_len; try (intros [= <- <-]; by left). destruct (_ =? 0); [intros [= <- <-]; by left|].
  unfold mbind, M_bind, zoom. destruct (add_tail_padding d _) as [padded g'| |] eqn:E; intros [= <- <-].
  right. by exists d, (lget krng_lens k), padded, g'.
Qed.
Lemma outs_strip mono a h data out_len :
  let c := StripTailPadding data out_len in outs typed (reply_ok mono a c) (sc_thread_of a h c).
Proof.
  apply outs_act. intros k r k' _. cbn [exec]. unfold mbind, M_bind.
  destruct (ffi_strip_tail_padding _ _ _ k) as [x k2| |] eqn:E; intros [= <- <-]. exists x. split; [done|].
  intros k3. revert E. unfold ffi_strip_tail_padding. destruct data as [d|], out_len; try (by intros [= <- <-]).
  destruct (_ =? 0); [by intros [= <- <-]|]. destruct (strip_returns d) as [y Ey]. unfold mbind, M_bind.
  rewrite !Ey. by intros [= <- <-].
Qed.
Lemma outs_gen_keypair mono a h out_pk out_sk :
  let c := GenerateBobKeypair out_pk out_sk in outs typed (reply_ok mono a c) (sc_thread_of a h c).
Proof.
  apply outs_bind. unfold mt_evolution_generate_bob_keypair. destruct out_pk as [pk|], out_sk as [sk|]; try by left.
  destruct (Z.ltb_spec (lenZ pk) ML_KEM_PK_LEN), (Z.ltb_spec (lenZ sk) ML_KEM_SK_LEN); try by left. cbn [orb].
  apply outs_bind. eapply outs_mono; [apply outs_keypair|]. intros [[code p] s] (? & ? & ?). simplify_eq/=.
  right. by exists pk, sk, p, s.
Qed.

(** ** Every call *)

(** Those that rest on the discipline are in [Concurrency]. *)
Definition by_discipline (c : call) : Prop :=
  match c with
  | StartEvolution | ApplyPeerKem _ | CommitEvolution | GetEpochId | RecoverAfterLoss _ => True
  | _ => False
  end.

Lemma outs_thread_of mono a h c :
  ~ by_discipline c -> call_ok c -> outs typed (reply_ok mono a c) (sc_thread_of a h c).
Proof using HOk.
  intros Hd Hc. destruct c; cbn [sc_thread_of thread_of]; try (by destruct Hd); try apply outs_num.
  - apply outs_init_volume.
  - destruct Hc as [_ Hn]. apply outs_bind. eapply outs_mono; [apply outs_read_vault, Hn|].
    intros r [H1 H2]. exists r.1, r.2. done.
  - destruct Hc as (_ & Hn & _). eapply outs_mono; [apply outs_write_vault, Hn|]. intros r Hr. by exists r.
  - apply outs_with_vault_or; [exists u64_max; auto|]. apply outs_bind. eapply outs_mono; [apply outs_allocate|].
    intros [i|e] Hi; eexists; (split; [done|]); [right; by apply Hi|by left].
  - apply outs_with_vault_or; [exists 1; auto|]. apply outs_then. intros [u|e]; eexists; (split; [done|]); auto.
  - apply outs_with_vault_or; [exists 1; auto|]. apply outs_then. intros payload. apply outs_then. intros [w|e]; [|exists 3; auto].
    apply outs_then. intros [u|e]; eexists; (split; [done|]); auto.
  - apply outs_with_vault_or; [exists 1; auto|]. apply outs_then. intros _. exists 0. auto.
  - apply outs_with_vault_or; [exists 0; auto|]. apply outs_act. intros e n e' He [= <- <-].
    eexists. split; [done|]. right. apply He.
  - apply outs_with_vault_or; [exists 0; split; [done|vlia]|]. eapply outs_mono; [apply outs_free_count|]. intros n Hn. by exists n.
  - apply outs_with_vault; [exists 1; auto|]. eapply outs_mono; [apply outs_canaries|].
    intros r [->| ->]; eexists; (split; [done|]); auto.
  - apply outs_act. intros k n k' _ [= <- <-]. eexists. split; [done|]. destruct (CANARY_INTACT k); auto.
  - apply outs_with_vault_or; [exists 1; auto|]. apply outs_then. intros _.
    eapply outs_mono; [apply outs_write_canaries|]. intros r [->| ->]; eexists; (split; [done|]); auto.
  - apply outs_purge.
  - unfold mt_init_root_state, mt_initialise_root_state, reply_ok, init_root_code. outs_all; done.
  - do 2 (apply outs_then; intros ?). cbv zeta. apply outs_with_vault_or; [exists 1; auto|].
    apply outs_then. intros [u|e]; eexists; (split; [done|]); auto.
  - apply outs_bind. eapply outs_mono; [apply outs_load|]. intros r [->|(o & st & -> & ? & ? & ->)]; [by left|].
    right. by exists o, st.
  - apply outs_act. intros k n k' Hk [= <- <-]. eexists. split; [done|]. apply Hk.
  - apply outs_act. intros k n k' Hk [= <- <-]. eexists. split; [done|]. apply Hk.
  - apply outs_bind, outs_bind. eapply outs_mono; [apply outs_curr|]. intros root Hr.
    eapply outs_mono; [apply outs_derive|]. intros ? <-. by exists root.
  - apply outs_act. by intros k r k' _ [= <- <-].
  - apply outs_act. by intros k r k' _ [= <- <-].
  - exact (outs_auto_commit mono a h _ _ _ _ _ _ _ _).
  - apply outs_act. by intros k r k' _ [= <- <-].
  - exact (outs_padding mono a h _ _).
  - exact (outs_strip mono a h _ _).
  - exact (outs_gen_keypair mono a h _ _).
  - destruct pk as [pk|]; [|done]. destruct (lenZ pk =? 0) eqn:E.
    + simpl. by rewrite E.
    + apply outs_then. intros _. simpl. by rewrite E.
  - apply outs_bind, outs_guarded. intros k n k' Hk E. unfold zoom in E. cbn in E. injection E as <- _.
    destruct (kem_cipher (k_evo k)) as [b|] eqn:Eb; [|by left]. right. by rewrite (ty_kem _ Hk _ Eb).
  - apply outs_bind. eapply outs_mono; [apply outs_get_kem|]. intros r [->|(o & d & -> & ? & ->)]; [by left|].
    right. by exists o, d.
  - apply outs_then. done.
  - apply outs_any. intros n. by exists n.
Qed.

(** From the two parts of the table to the whole. *)
Lemma reply_ok_by_discipline mono a c r : by_discipline c -> evolution_reply mono c r -> reply_ok mono a c r.
Proof. by destruct c. Qed.
End programs.
