(* ===== verification/Interleavings.v ===== *)
(** The kernel under concurrent calls: what every interleaving guarantees, and what some do.

    The first part holds for any number of threads making any threadable calls, with the
    vault's work under its mutex one step: they always finish, the statics stay well formed,
    and the replies are those the functions document.
    The second part exhibits interleavings that the mutexes of the code do not exclude:
    two recoveries at once roll past their target, a message proves one pending key while
    another is committed, and a sequence number is handed out twice in one epoch. *)
From S2P Require Import Prelude Effects Threads Crypto MemoryProtection RootState AntiDos TailPadding MessageCipher Evolution StdFs VolumeLayout VirtualVolume VolumeTotal ClockAlign DiskWipe Kernel InitModule Ffi Exports Locks Concurrency.

(** * Every interleaving *)

Section every.
Context `{HP : Primitives} `{HB : BuildProfile}.

(** The application's threads, each a sequence of calls. *)
Definition app (a : Z -> bool) (h : bool) (css : list (list call)) : list (kprog (list reply)) :=
  thread_of_all a h <$> css.

Lemma app_ordered a h css :
  Forall (fun p => ordered mutex_rank [] p (fun _ _ => True)) (app a h css).
Proof.
  apply Forall_fmap, Forall_true. intros cs. eapply ordered_mono; [apply tidy_thread_of_all|]. done.
Qed.

(** Some interleaving brings every thread to its end. *)
Lemma app_ends a h css k : exists c, reachable k (app a h css) c /\ Forall ended (pool c).
Proof. apply (some_end mutex_rank), app_ordered. Qed.

(** Liveness: however the operating system interleaves any number of threads making
    any calls on the root, the evolution, the messages and the vault, the run is finite,
    and where it cannot go on every thread has ended: the calls never deadlock, because
    the code acquires its mutexes in one order. *)
Theorem calls_never_deadlock a h css k c :
  Forall (Forall threadable) css -> reachable k (app a h css) c ->
  Acc (flip step) c /\ forall c', rtc step c c' -> nf step c' -> Forall ended (pool c').
Proof.
  intros _ Hc. split; [apply steps_terminate|]. intros c' Hc' Hnf.
  destruct (deadlock_free mutex_rank k (app a h css) c') as [?|Hs]; [apply app_ordered| |done|done].
  unfold reachable in *. by etrans.
Qed.

Context `{HOk : !PrimitivesOk HP}.

(** In every interleaving of any threads, from a well-formed state of the statics: the
    statics stay well formed at every step; the stored digest is that of the stored peer
    key whenever the key's mutex is free; and every thread that finishes has the replies of
    [evolution_reply] -- [start_evolution] never reports a corrupt key (5) or a bad
    secret (4).  In a release build no thread crashes. *)
Theorem interleavings_keep_statics a h css k c :
  kernel_ok k -> Forall (Forall (fun x => call_ok x /\ threadable x)) css -> reachable k (app a h css) c ->
  typed (shared c) /\
  (L_pk ∉ all_held (pool c) -> L_pk ∉ poisoned c -> bound (shared c)) /\
  (forall j cs rs, css !! j = Some cs -> pool c !! j = Some (Finished rs) -> Forall2 (evolution_reply (Promises False False)) cs rs) /\
  (overflow_checks = false -> Crashed ∉ pool c).
Proof using HOk.
  intros Hk Hcss Hc.
  destruct (interleavings_sound (Promises False False) (False_ind _) a h css k c) as [[[Hg Ht _ Hl _]|[[] _]] _]; [done| |done|].
  { eapply Forall_impl; [exact Hcss|]. intros cs Hcs. eapply Forall_impl; [exact Hcs|]. intros x []. by split_and!. }
  split_and!; [done|exact (Hl L_pk)| |].
  - intros j cs rs Hj Hf. destruct (Ht _ _ Hf) as (Q & HQ & Hok). rewrite list_lookup_fmap, Hj in HQ.
    by injection HQ as <-.
  - intros Hov (j & Hj)%list_elem_of_lookup. destruct (Ht _ _ Hj) as (Q & _ & Hok). simpl in Hok. congruence.
Qed.

(** In a checked build, and as long as no new trust root is installed, the epoch never
    goes back in any interleaving, and a concurrent [recover_after_loss(t)] that returns
    returns an epoch of at least [t]: no thread is left behind its peer. *)
Theorem epochs_never_go_back a h css k c :
  overflow_checks = true -> kernel_ok k ->
  Forall (Forall (fun x => call_ok x /\ threadable x /\ keeps_epoch x)) css -> reachable k (app a h css) c ->
  k_epoch k <= k_epoch (shared c) /\
  forall j cs rs i t n, css !! j = Some cs -> pool c !! j = Some (Finished rs) ->
    cs !! i = Some (RecoverAfterLoss t) -> rs !! i = Some (RNum n) -> t <= n.
Proof using HOk.
  intros Hov Hk Hcss Hc.
  destruct (interleavings_sound (Promises True False) (fun _ => Hov) a h css k c) as [[[_ Ht _ _ _]|[[] _]] He]; [done| |done|].
  { eapply Forall_impl; [exact Hcss|]. intros cs Hcs. eapply Forall_impl; [exact Hcs|]. intros x (? & ? & ?). by split_and!. }
  split; [by apply He|]. intros j cs rs i t n Hj Hf Hi Hr. destruct (Ht _ _ Hf) as (Q & HQ & Hok).
  rewrite list_lookup_fmap, Hj in HQ. injection HQ as <-. simpl in Hok.
  destruct (Forall2_lookup_lr _ _ _ _ _ _ Hok Hi Hr) as (n' & [= <-] & _ & Hle). by apply Hle.
Qed.
End every.

(** * A single thread *)

Section single.
Context `{HP : Primitives} `{HB : BuildProfile}.

(** With one thread the next step is determined. *)
Lemma single_step (c c' : config mutex kernel (list reply)) :
  length (pool c) = 1%nat -> step c c' -> thread_step 0 c = Some c' /\ length (pool c') = 1%nat.
Proof.
  intros Hl [i Hi]. assert (i = 0%nat) as ->.
  { destruct i as [|i]; [done|]. unfold thread_step in Hi. by rewrite lookup_ge_None_2 in Hi by lia. }
  split; [done|]. unfold thread_step in Hi.
  repeat case_match; simplify_eq/=; rewrite ?length_insert, ?length_fmap; done.
Qed.

Lemma single_det (c c1 c2 : config mutex kernel (list reply)) :
  length (pool c) = 1%nat -> rtc step c c1 -> nf step c1 -> rtc step c c2 -> nf step c2 -> c1 = c2.
Proof.
  intros Hl H1 N1 H2 N2. induction H1 as [c|c x c1 Hx _ IH].
  - destruct H2 as [|c y c2 Hy _]; [done|]. destruct N1. by exists y.
  - destruct H2 as [c|c y c2 Hy H2]; [destruct N2; by exists x|].
    destruct (single_step _ _ Hl Hx) as [Ex Lx], (single_step _ _ Hl Hy) as [Ey _].
    simplify_eq. by apply IH.
Qed.

Lemma ended_nf (c : config mutex kernel (list reply)) : Forall ended (pool c) -> nf step c.
Proof.
  intros He [c' [i Hi]]. unfold thread_step in Hi. destruct (pool c !! i) as [[held p| |]|] eqn:E; [|done..].
  by apply (Forall_lookup_1 _ _ _ _ He E).
Qed.

(** The lock-level programs are the functions: an application with one thread gets
    from every call sequence exactly what the sequential model computes -- the same
    replies, the same state of the statics, and no mutex poisoned. *)
Theorem one_thread_is_sequential a h cs k rs k' c :
  exec_all a h cs k = Done rs k' -> reachable k (app a h [cs]) c -> Forall ended (pool c) ->
  c = Config k' [] [Finished rs].
Proof.
  intros Hx Hc He. symmetry. eapply (single_det (start k (app a h [cs]))); [done| |by apply ended_nf; repeat constructor|exact Hc|by apply ended_nf].
  destruct (run_alone mutex_rank 0 (thread_of_all a h cs) (start k (app a h [cs])) [] rs k') as [sched Hs]; [done|done| | | |].
  - intros [|j] t Hj Ht; [done|done].
  - eapply ordered_mono; [apply tidy_thread_of_all|done].
  - by rewrite run_thread_of_all.
  - by eapply run_schedule_steps.
Qed.
End single.

(** * Some interleavings *)

Section some.
Context `{HP : Primitives} `{HB : BuildProfile} `{HOk : !PrimitivesOk HP}.

(** A thread runs to its end while the others, which hold nothing, stand still. *)
Lemma finish_thread i p (c : config mutex kernel (list reply)) rs k :
  poisoned c = [] -> pool c !! i = Some (Running [] p) ->
  (forall j t, i <> j -> pool c !! j = Some t -> held_by t = []) ->
  tidy [] p -> run p (shared c) = Done rs k ->
  rtc step c (Config k [] (<[i := Finished rs]> (pool c))).
Proof.
  intros Hp Hi Ho Ht Hr. destruct (run_alone mutex_rank i p c [] rs k) as [sched Hs]; [done..| |done|].
  - eapply ordered_mono; [exact Ht|done].
  - by eapply run_schedule_steps.
Qed.

Lemma two_threads_idle (p q : kprog (list reply)) i j t :
  i <> j -> [Running [] p; Running [] q] !! j = Some t -> held_by t = [].
Proof. intros _. destruct j as [|[|j]]; by intros [= <-]. Qed.

(** [recover_after_loss] once it has read the epoch [e]. *)
Definition recovering (t e : Z) : kprog (list reply) :=
  r ← mt_num (if t <=? e then mret e
    else let gap := t - e in if 100000 <? gap then mret u32_max else mt_roll_loop (Z.to_nat gap) e);
  rs ← mret []; mret (r :: rs).

Lemma recovering_tidy t e : tidy [] (recovering t e).
Proof.
  unfold recovering, mt_num. repeat (apply tidy_bind; [|intros; try apply tidy_ret]).
  destruct (_ <=? _); [apply tidy_ret|]. cbv zeta. destruct (_ <? _); [apply tidy_ret|apply tidy_roll_loop].
Qed.

(** Rolling on from a later epoch than the one read. *)
Lemma recovering_run t e k :
  0 < t - e <= 100000 -> 0 <= k_epoch k -> k_epoch k + (t - e) <= u32_max ->
  run (recovering t e) k =
    Done [RNum (k_epoch k + (t - e))] (put_root (rolled_statics (Z.to_nat (t - e)) (k_root k)) k).
Proof.
  intros Hg H0 Hb. unfold recovering, mt_num.
  destruct (Z.leb_spec t e); [lia|]. cbv zeta. destruct (Z.ltb_spec 100000 (t - e)); [lia|].
  assert (run (mt_roll_loop (Z.to_nat (t - e)) e) k =
    Done (k_epoch k + (t - e)) (put_root (rolled_statics (Z.to_nat (t - e)) (k_root k)) k)) as E.
  { rewrite run_roll_loop. unfold zoom. cbn [lget lput kroot_lens]. change (ev_root (k_evo k)) with (k_root k).
    assert (roll_loop (Z.to_nat (t - e)) e = roll_loop (Z.to_nat (t - e)) (epoch (k_root k))) as ->.
    { by destruct (Z.to_nat (t - e)) eqn:En; [lia|]. }
    unfold k_epoch in *. rewrite roll_loop_eval by lia. by rewrite Z2Nat.id by lia. }
  rewrite run_bind. erewrite bind_done; [|rewrite run_bind; erewrite bind_done by exact E; reflexivity].
  reflexivity.
Qed.

Lemma rolled_statics_twice n s :
  rolled_statics n (rolled_statics n s) =
    RootStatics (rolled (n + n) (root_curr s)) (root_pend s) (epoch s + 2 * Z.of_nat n)
      (match n with O => msg_counter s | S _ => 1 end).
Proof.
  destruct n as [|n]; [by destruct s; simpl; rewrite Z.add_0_r|].
  unfold rolled_statics. cbn [root_curr root_pend epoch]. rewrite rolled_add. f_equal. lia.
Qed.

Lemma recover_reads a h t cs k :
  run_schedule [0; 0; 0]%nat (start k (app a h [[RecoverAfterLoss t]; cs])) =
    Some (Config k [] [Running [] (recovering t (k_epoch k)); Running [] (thread_of_all a h cs)]).
Proof. by destruct k as [[[]]]. Qed.

Lemma recover_alone a h t k :
  kernel_ok k -> 0 < t - k_epoch k <= 100000 -> t <= u32_max ->
  exec_all a h [RecoverAfterLoss t] k =
    Done [RNum t] (put_root (rolled_statics (Z.to_nat (t - k_epoch k)) (k_root k)) k).
Proof using HOk.
  intros Hk Hg Ht. pose proof (epoch_range _ (evo_root_ok _ (kernel_evo _ Hk))) as He.
  cbn [exec_all exec]. unfold num, ffi_recover_after_loss.
  assert (zoom kroot_lens (recover_after_loss t) k =
    Done t (put_root (rolled_statics (Z.to_nat (t - k_epoch k)) (k_root k)) k)) as E.
  { unfold zoom. cbn [lget lput kroot_lens]. rewrite recover_eval; [|done|unfold is_u, u32_max, k_epoch, k_root in *; lia].
    unfold k_epoch, k_root in *. destruct (Z.leb_spec t (epoch (ev_root (k_evo k)))); [lia|].
    destruct (Z.ltb_spec 100000 (t - epoch (ev_root (k_evo k)))); [lia|done]. }
  unfold mbind, M_bind. by rewrite E.
Qed.

(** Concurrent recovery overshoots: when two threads ask for the same epoch [t] at
    once, some interleaving rolls the root once for each of them, to [t + (t - epoch)] and
    past the peer, because the gap is computed from an epoch read under a guard that is
    dropped before the rolls. *)
Theorem concurrent_recovery_overshoots a h k t :
  kernel_ok k -> 0 < t - k_epoch k <= 100000 -> t + (t - k_epoch k) <= u32_max ->
  exists k',
    reachable k (app a h [[RecoverAfterLoss t]; [RecoverAfterLoss t]])
      (Config k' [] [Finished [RNum (t + (t - k_epoch k))]; Finished [RNum t]]) /\
    k_epoch k' = t + (t - k_epoch k) /\
    root_curr (k_root k') = rolled (Z.to_nat (2 * (t - k_epoch k))) (root_curr (k_root k)).
Proof using HOk.
  intros Hk Hg Hb. pose proof (epoch_range _ (evo_root_ok _ (kernel_evo _ Hk))) as [H0 _].
  change (0 <= k_epoch k) in H0.
  remember (Z.to_nat (t - k_epoch k)) as n eqn:En.
  set (k1 := put_root (rolled_statics n (k_root k)) k).
  set (k2 := put_root (rolled_statics n (k_root k1)) k1).
  assert (k_epoch k1 = t) as E1.
  { change (epoch (rolled_statics n (k_root k)) = t). unfold rolled_statics. destruct n; [lia|]. cbn [epoch]. unfold k_epoch in *. lia. }
  exists k2. split; [|change (k_root k2) with (rolled_statics n (rolled_statics n (k_root k)));
    change (k_epoch k2) with (epoch (rolled_statics n (rolled_statics n (k_root k))));
    rewrite rolled_statics_twice; cbn [epoch root_curr]; unfold k_epoch in *; split; [lia|]; f_equal; lia].
  unfold reachable. etrans; [by eapply run_schedule_steps, recover_reads|].
  etrans; [eapply (finish_thread 1); [done|done|apply two_threads_idle|apply tidy_thread_of_all|]|].
  { rewrite run_thread_of_all. apply recover_alone; [done|done|lia]. }
  assert (run (recovering t (k_epoch k)) k1 = Done [RNum (t + (t - k_epoch k))] k2) as Hrun.
  { rewrite recovering_run by lia. by rewrite E1, <- En. }
  cbn [shared pool]. rewrite <- En.
  refine (finish_thread 0 (recovering t (k_epoch k)) (Config k1 [] [_; _]) _ k2 _ _ _ _ Hrun);
    [done|done| |apply recovering_tidy].
  intros [|[|j]] x Hj; [done|by intros [= <-]..].
Qed.

(** Thread 0 moves through a read under a guard, or an action, while thread 1 stands still. *)
Lemma advance_guarded s s' l q {B} (m : M kernel B) f b p' (other : kprog (list reply)) :
  m s = Done b s' -> f b = Unlock l p' ->
  rtc step (Config s [] [Running [] (Lock l q (Act m f)); Running [] other])
           (Config s' [] [Running [] p'; Running [] other]).
Proof.
  intros Hm Hf. apply (run_schedule_steps [0; 0; 0]%nat).
  assert (forall x c : config mutex kernel (list reply), thread_step 0 x = Some c -> forall t, run_schedule (0%nat :: t) x = run_schedule t c) as Hcons.
  { intros x c E t. simpl. by rewrite E. }
  rewrite (Hcons _ (Config s [] [Running [l] (Act m f); Running [] other])) by reflexivity.
  rewrite (Hcons _ (Config s' [] [Running [l] (f b); Running [] other])) by (unfold thread_step; simpl; by rewrite Hm).
  rewrite Hf. simpl. unfold thread_step. simpl. unfold release. by rewrite filter_cons_False by auto.
Qed.

Lemma advance_act s s' {B} (m : M kernel B) f b (other : kprog (list reply)) :
  m s = Done b s' ->
  rtc step (Config s [] [Running [] (Act m f); Running [] other])
           (Config s' [] [Running [] (f b); Running [] other]).
Proof. intros Hm. apply (run_schedule_steps [0%nat]). simpl. unfold thread_step. simpl. by rewrite Hm. Qed.

(** [decrypt_with_auto_commit] once the message has opened under the pending key. *)
Definition committing (a : Z -> bool) (pt : bytes) : kprog (list reply) :=
  r ← (r ← (r ← (r ← mt_commit_evolution; mret (Some (pt, r =? 0)));
            mret (match (r : option (bytes * bool)) with
              | Some (pt, committed) =>
                  (Some (as_u32 (lenZ pt)), store true (if (committed : bool) then 1 else 0), to_native a pt)
              | None => (Some 0, store true 0, Null)
              end));
       mret (RNative r.1.1 r.1.2 r.2));
  rs ← mret []; mret (r :: rs).

(** The message opens under the pending root and not under the current one. *)
Definition opens_pending (k : kernel) (wire st : bytes) (o : Z) (q ts : Z) (pt : bytes) : Prop :=
  exists pend, root_pend (k_root k) = Some pend /\ 0 < lenZ wire /\
    let e := k_epoch k + 1 in
    decrypt wire (message_key (root_curr (k_root k)) e q) (takeZ 32 st) (negb (o =? 0)) e q ts = None /\
    decrypt wire (message_key pend e q) (takeZ 32 st) (negb (o =? 0)) e q ts = Some pt.

Lemma decrypt_checks a h k wire st o q ts pt cs :
  kernel_ok k -> k_epoch k < u32_max -> opens_pending k wire st o q ts pt ->
  rtc step (start k (app a h [[DecryptWithAutoCommit (Some wire) (Some st) o (k_epoch k + 1) q ts true true]; cs]))
    (Config k [] [Running [] (committing a pt); Running [] (thread_of_all a h cs)]).
Proof using HOk.
  intros Hk Hmax (pend & Hpend & Hlen & Hno & Hyes).
  pose proof (epoch_range _ (evo_root_ok _ (kernel_evo _ Hk))) as He. change (is_u 32 (k_epoch k)) in He.
  unfold start, app. cbn [fmap list_fmap thread_of_all thread_of]. unfold mt_decrypt_with_auto_commit.
  destruct (Z.eqb_spec (lenZ wire) 0); [lia|]. unfold mt_try_decrypt_with_evolution.
  etrans; [eapply advance_guarded; [apply root_read|reflexivity]|].
  etrans; [eapply advance_guarded; [apply root_read|reflexivity]|].
  etrans; [eapply advance_act, derive_from_root_eval|]. cbv beta. fold (k_epoch k). rewrite Hno.
  etrans; [eapply advance_act, (chk_u_ok 32); unfold is_u, u32_max, k_epoch in *; lia|]. cbv beta.
  fold (k_epoch k). rewrite Z.eqb_refl.
  etrans; [eapply advance_guarded; [apply root_read|reflexivity]|]. rewrite Hpend.
  etrans; [eapply advance_act, derive_from_root_eval|]. cbv beta. rewrite Hyes. reflexivity.
Qed.

Lemma committing_tidy a pt : tidy [] (committing a pt).
Proof.
  unfold committing. do 4 (apply tidy_bind; [|intros; first [apply tidy_ret|apply tidy_bind; intros; apply tidy_ret]]).
  apply tidy_commit.
Qed.
Lemma run_then {A B} (p : kprog A) (f : A -> kprog B) k b k' :
  run p k = Done b k' -> run (p ≫= f) k = run (f b) k'.
Proof. intros E. rewrite run_bind. by erewrite bind_done. Qed.

Lemma commit_run k new :
  kernel_ok k -> k_epoch k < u32_max -> root_pend (k_root k) = Some new ->
  run mt_commit_evolution k = Done 0 (put_root (RootStatics new None (k_epoch k + 1) 1) k).
Proof.
  intros Hk Hmax Hp. pose proof (epoch_range _ (evo_root_ok _ (kernel_evo _ Hk))) as He.
  rewrite run_commit. unfold zoom. cbn [lget lput kroot_lens]. rewrite commit_evolution_eval by done.
  unfold k_root, k_epoch, k_root in *. rewrite Hp. unfold advanced, epoch_succ.
  by destruct (Z.ltb_spec (epoch (ev_root (k_evo k))) u32_max); [|lia].
Qed.

Lemma committing_run a pt k new :
  kernel_ok k -> k_epoch k < u32_max -> root_pend (k_root k) = Some new ->
  run (committing a pt) k =
    Done [RNative (Some (as_u32 (lenZ pt))) (Some 1) (to_native a pt)]
      (put_root (RootStatics new None (k_epoch k + 1) 1) k).
Proof.
  intros Hk Hmax Hp. unfold committing.
  pose proof (commit_run k new Hk Hmax Hp) as E.
  erewrite run_then; [|erewrite run_then; [|erewrite run_then; [|erewrite run_then; [|exact E]]]].
  4: reflexivity. 3: reflexivity. 2: reflexivity. reflexivity.
Qed.

(** [apply_peer_kem] with a ciphertext that decapsulates. *)
Lemma apply_alone a h kem ss k :
  0 < lenZ kem -> kyber_decapsulate kem (as_slice (bob_keys (k_evo k)).2) = Some ss ->
  as_slice (bob_keys (k_evo k)).2 <> [] ->
  exec_all a h [ApplyPeerKem (Some kem)] k = Done [RNum 0] (with_k_evo (pend_set ss (k_evo k)) k).
Proof using HOk.
  intros Hl Hd Hsk. cbn [exec_all exec]. unfold ffi_apply_peer_kem, num.
  destruct (Z.eqb_spec (lenZ kem) 0); [lia|].
  assert (zoom evo_lens (apply_peer_kem kem) k = Done 0 (with_k_evo (pend_set ss (k_evo k)) k)) as E.
  { unfold zoom. cbn [lget lput evo_lens]. rewrite apply_peer_kem_eval. cbv zeta.
    rewrite decide_False, Hd by done. done. }
  unfold mbind, M_bind. by rewrite E.
Qed.

(** [C24] The key committed need not be the key proved: a message that opens under the
    pending root makes [decrypt_with_auto_commit] commit whatever is pending when it comes
    to commit.  If another thread applies a new KEM ciphertext in between, the call
    reports a commit, and the root becomes the newly derived key, which no message has
    proved, at the next epoch. *)
Theorem auto_commit_race a h k wire st o q ts pt kem ss :
  kernel_ok k -> k_epoch k < u32_max -> opens_pending k wire st o q ts pt ->
  0 < lenZ kem -> kyber_decapsulate kem (as_slice (bob_keys (k_evo k)).2) = Some ss ->
  as_slice (bob_keys (k_evo k)).2 <> [] ->
  exists k',
    reachable k (app a h [[DecryptWithAutoCommit (Some wire) (Some st) o (k_epoch k + 1) q ts true true];
                          [ApplyPeerKem (Some kem)]])
      (Config k' [] [Finished [RNative (Some (as_u32 (lenZ pt))) (Some 1) (to_native a pt)]; Finished [RNum 0]]) /\
    k_root k' = RootStatics (pending_key ss (root_curr (k_root k))) None (k_epoch k + 1) 1.
Proof using HOk.
  intros Hk Hmax Hopen Hl Hd Hsk. set (k1 := with_k_evo (pend_set ss (k_evo k)) k).
  assert (kernel_ok k1) as Hk1 by (apply kernel_ok_evo; [done|]; apply evo_ok_pend_set, Hk).
  eexists. split.
  - unfold reachable. etrans; [by apply decrypt_checks|].
    etrans; [eapply (finish_thread 1); [done|done|apply two_threads_idle|apply tidy_thread_of_all|]|].
    { rewrite run_thread_of_all. by apply apply_alone. }
    refine (finish_thread 0 (committing a pt) (Config k1 [] [_; _]) _ _ _ _ _ _ _);
      [done|done| |apply committing_tidy|by apply committing_run].
    intros [|[|j]] x Hj; [done|by intros [= <-]..].
  - reflexivity.
Qed.

(** A sequence number can be used twice in one epoch: a thread that takes a number and
    then reads the epoch, while another commits in between, sees the new epoch with the
    old number, and the same pair again for the first message of the new epoch, because
    the commit resets the counter. *)
Theorem sequence_pairs_repeat a h k new :
  kernel_ok k -> k_epoch k < u32_max -> root_pend (k_root k) = Some new -> msg_counter (k_root k) = 1 ->
  exists k',
    reachable k (app a h [[MsgCounterNext; GetEpochId; MsgCounterNext; GetEpochId]; [CommitEvolution]])
      (Config k' [] [Finished [RNum 1; RNum (k_epoch k + 1); RNum 1; RNum (k_epoch k + 1)]; Finished [RNum 0]]).
Proof.
  intros Hk Hmax Hp Hc.
  set (rest := fun n => rs ← thread_of_all a h [GetEpochId; MsgCounterNext; GetEpochId]; mret (RNum n :: rs) : kprog _).
  set (k1 := put_root (with_counter 2 (k_root k)) k).
  set (k2 := put_root (RootStatics new None (k_epoch k1 + 1) 1) k1).
  assert (kernel_ok k1) as Hk1.
  { apply kernel_ok_root; [done|]. apply root_ok_counter; [apply Hk|by unfold is_u]. }
  assert (zoom kroot_lens next_msg_seq k = Done 1 k1) as E1.
  { assert (next_msg_seq (k_root k) = Done 1 (with_counter 2 (k_root k))) as E.
    { unfold next_msg_seq, mbind, M_bind, gets. by rewrite Hc. }
    unfold zoom. cbn [lget lput kroot_lens]. fold (k_root k). by rewrite E. }
  eexists. unfold reachable. etrans; [by eapply (advance_act _ k1)|].
  etrans; [eapply (finish_thread 1); [done|done|apply two_threads_idle|apply tidy_thread_of_all|]|].
  { cbn [thread_of_all thread_of]. unfold mt_num. erewrite run_then; [|by erewrite run_then by (by apply (commit_run k1 new))].
    reflexivity. }
  refine (finish_thread 0 (rest 1) (Config k2 [] [_; _]) _ _ _ _ _ _ _);
      [done|done| | |].
  - intros [|[|j]] x Hj; [done|by intros [= <-]..].
  - apply tidy_bind; [apply tidy_thread_of_all|]. intros. apply tidy_ret.
  - unfold rest. erewrite run_then; [|by rewrite run_thread_of_all]. reflexivity.
Qed.
End some.

(** * Witnesses *)

(** A fresh process, and one with a pending root and a key pair. *)
Definition fresh : kernel (HP := toy) := kernel_init (HP := toy) demo_fs (5 : @rng toy).
Definition pairing : kernel (HP := toy) :=
  with_k_evo (EvoStatics (HP := toy) pending_peer None (repZ 1568 3, from_vec (repZ 3168 3)) [] (repZ 32 0) (5 : @rng toy)) fresh.

Lemma fresh_ok : kernel_ok (HP := toy) fresh.
Proof. apply kernel_init_ok. Qed.
Lemma pairing_ok : kernel_ok (HP := toy) pairing.
Proof.
  apply kernel_ok_evo; [apply fresh_ok|]. split; simpl; [apply pending_peer_ok|done|by left| |done].
  right. unfold from_vec, as_slice. simpl inner. apply lenZ_repZ.
Qed.

(** Two threads: one commits and recovers, the other evolves and takes numbers. *)
Definition demo_threads : list (list call) :=
  [[CommitEvolution; RecoverAfterLoss 4]; [StartEvolution; MsgCounterNext; GetEpochId]].
Definition demo_alloc (_ : Z) : bool := true.

Lemma demo_threads_ok : Forall (Forall (fun x => call_ok x /\ threadable x /\ keeps_epoch x)) demo_threads.
Proof. unfold demo_threads. repeat constructor; simpl; unfold is_u; lia. Qed.

(** The configuration after a few steps of each. *)
Definition demo_schedule : list nat := [1; 1; 1; 1; 0; 0; 0; 0]%nat.
Definition demo_config := default (start fresh [])
  (run_schedule demo_schedule (start fresh (app (HP := toy) (HB := true) demo_alloc true demo_threads))).
Lemma demo_reachable :
  reachable fresh (app (HP := toy) (HB := true) demo_alloc true demo_threads) demo_config.
Proof.
  apply (run_schedule_steps demo_schedule). unfold demo_config.
  assert (bool_decide (is_Some (run_schedule demo_schedule
    (start fresh (app (HP := toy) (HB := true) demo_alloc true demo_threads)))) = true) as E by (vm_compute; reflexivity).
  apply bool_decide_eq_true in E as [c E]. rewrite E. reflexivity.
Qed.

Lemma calls_never_deadlock_witness :
  Acc (flip step) demo_config /\ forall c', rtc step demo_config c' -> nf step c' -> Forall ended (pool c').
Proof.
  apply (calls_never_deadlock (HP := toy) (HB := true) demo_alloc true demo_threads fresh demo_config).
  - repeat constructor.
  - exact demo_reachable.
Defined.

Lemma interleavings_keep_statics_witness : typed (HP := toy) (shared demo_config).
Proof.
  apply (interleavings_keep_statics (HP := toy) (HB := true) demo_alloc true demo_threads fresh demo_config).
  - exact fresh_ok.
  - unfold demo_threads. repeat constructor; simpl; unfold is_u; lia.
  - exact demo_reachable.
Defined.

Lemma epochs_never_go_back_witness : 0 <= k_epoch (HP := toy) (shared demo_config).
Proof.
  apply (epochs_never_go_back (HP := toy) (HB := true) demo_alloc true demo_threads fresh demo_config eq_refl
    fresh_ok demo_threads_ok demo_reachable).
Defined.

Lemma one_thread_is_sequential_witness :
  exists c, reachable fresh (app (HP := toy) (HB := true) demo_alloc true [[MsgCounterNext; GetEpochId]]) c /\
    pool c = [Finished [RNum 1; RNum 0]].
Proof.
  destruct (app_ends (HP := toy) (HB := true) demo_alloc true [[MsgCounterNext; GetEpochId]] fresh) as (c & Hc & He).
  exists c. split; [exact Hc|].
  rewrite (one_thread_is_sequential (HP := toy) (HB := true) demo_alloc true [MsgCounterNext; GetEpochId] fresh
    [RNum 1; RNum 0] _ c eq_refl Hc He). reflexivity.
Defined.

Lemma concurrent_recovery_overshoots_witness :
  exists k', reachable fresh (app (HP := toy) (HB := true) demo_alloc true [[RecoverAfterLoss 2]; [RecoverAfterLoss 2]])
      (Config k' [] [Finished [RNum 4]; Finished [RNum 2]]) /\ k_epoch (HP := toy) k' = 4.
Proof.
  destruct (concurrent_recovery_overshoots (HP := toy) (HB := true) demo_alloc true fresh 2 fresh_ok)
    as (k' & H1 & H2 & _); [vm_compute; split; [reflexivity|discriminate]|vm_compute; discriminate|].
  exists k'. split; [exact H1|exact H2].
Defined.

Lemma pairing_opens : opens_pending (HP := toy) pairing next_epoch_wire (repZ 32 2) 1 1 1000 [72; 105].
Proof. exists (repZ 32 9). vm_compute. auto. Qed.

Lemma auto_commit_race_witness :
  exists k', reachable pairing (app (HP := toy) (HB := true) demo_alloc true
      [[DecryptWithAutoCommit (Some next_epoch_wire) (Some (repZ 32 2)) 1 1 1 1000 true true];
       [ApplyPeerKem (Some (repZ 1568 3))]])
      (Config k' [] [Finished [RNative (Some 2) (Some 1) (Buffer [72; 105])]; Finished [RNum 0]]) /\
    root_curr (k_root (HP := toy) k') <> repZ 32 9.
Proof.
  destruct (auto_commit_race (HP := toy) (HB := true) demo_alloc true pairing next_epoch_wire (repZ 32 2) 1 1 1000
    [72; 105] (repZ 1568 3) (repZ 32 6) pairing_ok eq_refl pairing_opens) as (k' & H1 & H2);
    [reflexivity|vm_compute; reflexivity|vm_compute; discriminate|].
  exists k'. split; [exact H1|]. rewrite H2. vm_compute. discriminate.
Defined.

Definition first_message : kernel (HP := toy) := put_root (with_counter 1 pending_peer) pairing.
Lemma first_message_ok : kernel_ok (HP := toy) first_message.
Proof.
  apply kernel_ok_root; [apply pairing_ok|]. apply root_ok_counter; [apply pending_peer_ok|by unfold is_u].
Qed.
Lemma sequence_pairs_repeat_witness :
  exists k', reachable first_message (app (HP := toy) (HB := true) demo_alloc true
      [[MsgCounterNext; GetEpochId; MsgCounterNext; GetEpochId]; [CommitEvolution]])
      (Config k' [] [Finished [RNum 1; RNum 1; RNum 1; RNum 1]; Finished [RNum 0]]).
Proof.
  refine (sequence_pairs_repeat (HP := toy) (HB := true) demo_alloc true first_message (repZ 32 9)
    first_message_ok eq_refl eq_refl eq_refl).
Defined.
