(* ===== verification/VaultThreads.v ===== *)
(** The vault in every interleaving of its system calls.

    [SysCalls] runs all calls of [call] in threads, with every system call an action of its own, so that a vault may be opened twice at the same time and purged while it is
    written.  Whatever the other threads do to the files, the struct behind the vault's
    mutex stays well formed and no function panics on it ([vok], [returns]); the logic of
    [Threads] turns this into a theorem about every interleaving, with the replies of
    [Replies].  [VaultRaces] exhibits interleavings that the code does not exclude. *)
From stdpp Require Import gmap.
From S2P Require Import Prelude Effects Threads Crypto MemoryProtection RootState AntiDos TailPadding MessageCipher Evolution StdFs VolumeLayout VirtualVolume VolumeProofs VolumeBlocks VolumeOpen VolumeTotal ClockAlign DiskWipe Kernel InitModule Ffi Exports Locks SysCalls Concurrency Replies Interleavings.

(** * Programs that return whatever happens between their actions *)

Section returns.
Context {S : Type}.

(** Every action returns in every state, and the result satisfies [K]. *)
Fixpoint returns {A} (p : lockfree S A) (K : A -> Prop) : Prop :=
  match p with
  | Ret a => K a
  | Lock _ _ _ | Unlock _ _ => True
  | Act m k => forall s, exists b s', m s = Done b s' /\ returns (k b) K
  end.

Lemma returns_bind {A B} (p : lockfree S A) (k : A -> lockfree S B) K :
  returns p (fun a => returns (k a) K) -> returns (p ≫= k) K.
Proof.
  induction p as [a|[]|[]|C m f IH]; intros Hp; [exact Hp|]. intros s. destruct (Hp s) as (b & s' & E & Hb).
  exists b, s'. split; [done|]. by apply IH.
Qed.
Lemma returns_ret {A} (a : A) (K : A -> Prop) : K a -> returns (mret a) K.
Proof. done. Qed.
Lemma returns_mono {A} (p : lockfree S A) (K K' : A -> Prop) :
  returns p K -> (forall a, K a -> K' a) -> returns p K'.
Proof.
  intros Hp HK. induction p as [a|[]|[]|C m f IH]; [by apply HK|]. intros s.
  destruct (Hp s) as (b & s' & E & Hb). eauto.
Qed.
Lemma returns_act {A B} (m : M S A) (k : A -> lockfree S B) (P : A -> Prop) K :
  (forall s, exists a s', m s = Done a s' /\ P a) -> (forall a, P a -> returns (k a) K) ->
  returns (a ← act m; k a) K.
Proof. intros Hm Hk s. destruct (Hm s) as (a & s' & E & Ha). exists a, s'. split; [done|]. by apply Hk. Qed.
Lemma returns_total {A B} (m : M S A) (k : A -> lockfree S B) K :
  total m -> (forall a, returns (k a) K) -> returns (a ← act m; k a) K.
Proof.
  intros Hm Hk. apply (returns_act m k (fun _ => True)); [|auto]. intros s. destruct (Hm s) as (a & s' & E). eauto.
Qed.
Lemma returns_last {A} (m : M S A) (K : A -> Prop) : total m -> (forall a, K a) -> returns (act m) K.
Proof. intros Hm Hk. by apply (returns_total m Ret). Qed.
Lemma returns_try {A B} (m : M S (result A)) (k : A -> lockfree S (result B)) (P : A -> Prop) K :
  (forall s, exists r s', m s = Done r s' /\ forall a, r = Ok a -> P a) ->
  (forall a, P a -> returns (k a) K) -> (forall e, K (Err e)) -> returns (act m ≫= ptry k) K.
Proof.
  intros Hm Hk He. apply (returns_act m _ (fun r => forall a, r = Ok a -> P a)); [done|].
  intros [a|e] Ha; [by apply Hk, Ha|apply He].
Qed.
Lemma returns_sys {A B} (m : M S (result A)) (k : A -> lockfree S (result B)) K :
  total m -> (forall a, returns (k a) K) -> (forall e, K (Err e)) -> returns (act m ≫= ptry k) K.
Proof.
  intros Hm Hk He. apply (returns_try m k (fun _ => True)); [|auto|done]. intros s.
  destruct (Hm s) as (a & s' & E). exists a, s'. auto.
Qed.
End returns.

Section opening.
Context `{HP : Primitives} `{HB : BuildProfile} `{HOk : !PrimitivesOk HP}.

Lemma returns_chk {S B} w z (k : Z -> lockfree S B) K :
  is_u w z -> returns (k z) K -> returns (a ← act (chk_u w z); k a) K.
Proof. intros Hz Hk s. exists z, s. split; [by apply chk_u_ok|done]. Qed.
Lemma returns_read {B} fd n (k : bytes -> lockfree fs (result B)) K :
  0 <= n -> (forall d, lenZ d = n -> returns (k d) K) -> (forall e, K (Err e)) ->
  returns (act (read_exact fd n) ≫= ptry k) K.
Proof. intros Hn Hk He. apply (returns_try _ _ (fun d => lenZ d = n)); [|done|done]. intros s. by apply read_exact_total. Qed.

Lemma returns_or_close path key fd (p : lockfree fs (result VirtualVolume)) :
  returns p (built path key) -> returns (sc_or_close fd p) (built path key).
Proof.
  intros Hp. apply returns_bind. eapply returns_mono; [exact Hp|]. intros [v|e] Hb; [done|].
  apply returns_total; [apply total_close|]. intros _. apply built_err.
Qed.

Ltac sys_step := apply returns_sys; [solve [auto with total]|intros ?|apply built_err].

Lemma returns_create path key n :
  lenZ key = 32 -> 0 <= n <= MAX_DATA_BLOCKS -> returns (sc_create_new path key n) (built path key).
Proof.
  intros Hk Hn. unfold sc_create_new. do 2 (apply returns_chk; [unfold is_u; vlia|]). sys_step.
  apply returns_or_close. do 6 sys_step. intros v [= <-]. split; [|done].
  split; cbn [block_bitmap total_blocks free_blocks master_key].
  - by rewrite lenZ_repZ.
  - lia.
  - rewrite Z.add_simpl_l, count_free_zeros by lia. done.
  - done.
Qed.
Lemma returns_open path key : lenZ key = 32 -> returns (sc_open_existing path key) (built path key).
Proof.
  intros Hk. unfold sc_open_existing. sys_step. apply returns_or_close. sys_step.
  apply returns_read; [done|intros raw _|apply built_err].
  destruct (read_superblock raw) as [sb|]; [|apply built_err]. cbv zeta.
  case_bool_decide; simpl negb; cbv iota; [|apply built_err]. sys_step.
  apply returns_read; [done|intros bm Hbm|apply built_err].
  destruct (Z.ltb_spec (sb_total_blocks sb) DATA_START_BLOCK),
    (Z.ltb_spec (DATA_START_BLOCK + MAX_DATA_BLOCKS) (sb_total_blocks sb)); cbn [orb]; try apply built_err.
  intros s. exists (count_free bm (sb_total_blocks sb - DATA_START_BLOCK)), s. split.
  - assert (wp (recount bm (seqZ 0 (sb_total_blocks sb - DATA_START_BLOCK)) 0)
      (fun r s' => r = count_free bm (sb_total_blocks sb - DATA_START_BLOCK) /\ s' = s) s) as W
      by (apply wp_recount; [done|lia|done]).
    by apply wp_inv in W as (r & s' & E & -> & ->).
  - intros v [= <-]. split; [|done]. split; cbn [block_bitmap total_blocks free_blocks master_key]; [done|lia|done|done].
Qed.
Lemma returns_open_or_create path key n :
  lenZ key = 32 -> 0 <= n -> returns (sc_open_or_create path key n) (built path key).
Proof.
  intros Hk Hn. unfold sc_open_or_create. destruct (Z.ltb_spec MAX_DATA_BLOCKS n); [apply built_err|].
  apply returns_total; [auto with total|intros m]. cbv zeta.
  apply returns_bind, returns_total; [auto with total|intros r]. apply returns_ret.
  destruct (is_ok r && _); [by apply returns_open|].
  apply returns_bind, returns_total; [auto with total|intros r2]. apply returns_ret, returns_bind.
  destruct (is_ok r2); [|by apply returns_create]. apply returns_total; [auto with total|intros _].
  apply returns_ret. by apply returns_create.
Qed.
Lemma returns_drop v : returns (sc_drop_volume v) (fun _ => True).
Proof. apply returns_total; [auto with total|intros r]. apply returns_last; [auto with total|done]. Qed.

(** ** The purge *)

Lemma total_wsys {A} (m : M fs A) : total m -> total (wio m).
Proof. apply total_wio. Qed.
Hint Resolve total_wsys : total.

Lemma returns_pass chunk fuel fd remaining :
  (forall n, total (chunk n)) -> remaining <= WIPE_CHUNK * Z.of_nat fuel ->
  returns (sc_pass chunk fuel fd remaining) (fun _ => True).
Proof.
  intros Hc. revert remaining. induction fuel as [|fuel IH]; intros remaining Hr; cbn [sc_pass];
    destruct (Z.leb_spec remaining 0); try done; [lia|].
  apply returns_total; [done|intros d]. apply returns_sys; [auto with total|intros _|done].
  apply IH. unfold WIPE_CHUNK in *. lia.
Qed.
Lemma returns_overwrite fd n : 0 <= n -> returns (sc_overwrite fd n) (fun _ => True).
Proof.
  intros Hn. pose proof (pass_fuel_enough n Hn) as Hf. rewrite Z.mul_comm in Hf. unfold sc_overwrite.
  apply returns_sys; [auto with total|intros _|done]. apply returns_bind.
  eapply returns_mono; [apply returns_pass; [intros m e; by eexists _, _|done]|].
  intros [u|e] _; [|done]. do 2 (apply returns_sys; [auto with total|intros _|done]). apply returns_bind.
  eapply returns_mono; [apply returns_pass; [intros; apply total_ret|done]|].
  intros [u2|e] _; [|done]. apply returns_last; [auto with total|done].
Qed.
Lemma returns_purge path : returns (sc_purge_entire_vault path) (fun _ => True).
Proof.
  unfold sc_purge_entire_vault. apply returns_sys; [auto with total|intros meta|done]. cbv zeta.
  destruct (_ =? 0); [done|]. apply returns_sys; [auto with total|intros fd|done]. apply returns_bind, returns_bind.
  eapply returns_mono; [apply returns_overwrite, lenZ_nonneg|].
  assert (forall r : result unit, returns (wsys (close fd);; mret r) (fun _ => True)) as Hend.
  { intros r. apply returns_total; [auto with total|done]. }
  intros [u|e] _; [|apply Hend]. apply returns_sys; [auto with total|intros _|intros; apply Hend].
  apply returns_last; [auto with total|intros; apply Hend].
Qed.
End opening.

(** * Work on the locked volume *)

(** From the volume [v], whatever the file system and the generator are before each action:
    the action returns and leaves a well-formed volume; [K] holds at the end. *)
Fixpoint vok {HP : Primitives} {A} (p : lockfree vol_env A) (K : A -> VirtualVolume -> Prop) (v : VirtualVolume) : Prop :=
  match p with
  | Ret a => K a v
  | Lock _ _ _ | Unlock _ _ => True
  | Act m k => forall s r,
      match m (VolEnv s r v) with
      | Done b e => mem_sane (e_vol e) /\ vok (k b) K (e_vol e)
      | _ => False
      end
  end.

Section vok.
Context `{HP : Primitives} `{HB : BuildProfile} `{HOk : !PrimitivesOk HP}.

Lemma vok_ret {A} (a : A) K v : K a v -> vok (mret a) K v.
Proof. done. Qed.
Lemma vok_bind {A B} (p : lockfree vol_env A) (k : A -> lockfree vol_env B) K v :
  vok p (fun a v' => vok (k a) K v') v -> vok (p ≫= k) K v.
Proof.
  revert v. induction p as [a|[]|[]|C m f IH]; intros v Hp; [exact Hp|]. intros s r. specialize (Hp s r).
  destruct (m (VolEnv s r v)) as [b e|e|c e]; [|done..]. destruct Hp. split; [done|]. by apply IH.
Qed.
Lemma vok_mono {A} (p : lockfree vol_env A) (K K' : A -> VirtualVolume -> Prop) v :
  vok p K v -> (forall a v, K a v -> K' a v) -> vok p K' v.
Proof.
  intros Hp HK. revert v Hp. induction p as [a|[]|[]|C m f IH]; intros v Hp; [by apply HK|]. intros s r.
  specialize (Hp s r). destruct (m (VolEnv s r v)); [|done..]. destruct Hp. eauto.
Qed.

(** [p] keeps the volume well formed. *)
Definition vsane {A} (p : lockfree vol_env A) : Prop := forall v, mem_sane v -> vok p (fun _ v' => mem_sane v') v.

Lemma vsane_ret {A} (a : A) : vsane (mret a).
Proof. by intros v Hv. Qed.
Lemma vsane_bind {A B} (p : lockfree vol_env A) (k : A -> lockfree vol_env B) :
  vsane p -> (forall a, vsane (k a)) -> vsane (p ≫= k).
Proof. intros Hp Hk v Hv. apply vok_bind. eapply vok_mono; [by apply Hp|]. intros a v' Hv'. by apply Hk. Qed.
Lemma vsane_act {A} (m : M vol_env A) : sane m -> vsane (act m).
Proof.
  intros Hm v Hv s r. specialize (Hm (VolEnv s r v) Hv). unfold wp in Hm.
  destruct (m (VolEnv s r v)); [|done..]. destruct Hm. by split.
Qed.
Lemma vsane_sys {A} (m : M fs A) : total m -> vsane (sys m).
Proof. intros. by apply vsane_act, sane_io. Qed.
Lemma vsane_try {A B} (p : lockfree vol_env (result A)) (k : A -> lockfree vol_env (result B)) :
  vsane p -> (forall a, vsane (k a)) -> vsane (p ≫= ptry k).
Proof. intros Hp Hk. apply vsane_bind; [done|]. intros [a|e]; [apply Hk|apply vsane_ret]. Qed.

(** ** Actions on a known volume *)

Lemma vok_gets {B} (k : VirtualVolume -> lockfree vol_env B) K v :
  mem_sane v -> vok (k v) K v -> vok (x ← act (gets e_vol); k x) K v.
Proof. intros Hv Hk s r. by split. Qed.
Lemma vok_chk {B} z (k : Z -> lockfree vol_env B) K v :
  mem_sane v -> is_u 64 z -> vok (k z) K v -> vok (x ← act (chk_u 64 z); k x) K v.
Proof. intros Hv Hz Hk s r. simpl. by rewrite chk_u_ok. Qed.
Lemma vok_assert {B} b (k : unit -> lockfree vol_env B) K v :
  mem_sane v -> b = true -> vok (k tt) K v -> vok (x ← act (debug_assert b); k x) K v.
Proof. intros Hv -> Hk s r. simpl. unfold debug_assert. rewrite andb_false_r. by split. Qed.
Lemma vok_draw {B} n (k : bytes -> lockfree vol_env B) K v :
  mem_sane v -> 0 <= n -> (forall d, lenZ d = n -> vok (k d) K v) -> vok (x ← act (zoom rng_lens (draw_bytes n)); k x) K v.
Proof. intros Hv Hn Hk s r. cbn. split; [done|]. apply Hk. by apply fill_len. Qed.
Lemma vok_read {B} fd n (k : bytes -> lockfree vol_env (result B)) K v :
  mem_sane v -> 0 <= n -> (forall d, lenZ d = n -> vok (k d) K v) -> (forall e, K (Err e) v) ->
  vok (sys (read_exact fd n) ≫= ptry k) K v.
Proof.
  intros Hv Hn Hk He s r. destruct (read_exact_total fd n s Hn) as (d & s' & E & Hd). simpl. unfold io, zoom. cbn.
  rewrite E. cbn. split; [done|]. destruct d as [d|e]; [by apply Hk, Hd|apply He].
Qed.
Lemma vok_total {A B} (m : M fs (result A)) (k : A -> lockfree vol_env (result B)) K v :
  mem_sane v -> total m -> (forall a, vok (k a) K v) -> (forall e, K (Err e) v) -> vok (sys m ≫= ptry k) K v.
Proof.
  intros Hv Hm Hk He s r. destruct (Hm s) as (d & s' & E). simpl. unfold io, zoom. cbn.
  rewrite E. cbn. split; [done|]. destruct d as [d|e]; [apply Hk|apply He].
Qed.
Lemma vok_check {B} i (k : lockfree vol_env (result B)) K v :
  mem_sane v -> (in_vault v i -> vok k K v) -> (forall e, K (Err e) v) -> vok (act (check_data_block i) ;;! k) K v.
Proof.
  intros Hv Hk He s r. simpl. rewrite check_eval. cbn [e_vol]. split; [done|].
  case_bool_decide; [by apply Hk|apply He].
Qed.
Lemma vok_bit {B} i (k : bool -> lockfree vol_env B) K v :
  mem_sane v -> in_vault v i ->
  vok (k (negb (is_alloc (block_bitmap v) (i - DATA_START_BLOCK)))) K v ->
  vok (free ← act (unwrap (bit_is_free (block_bitmap v) (i - DATA_START_BLOCK))); k free) K v.
Proof. intros Hv Hi Hk s r. rewrite bit_is_free_eq; [by split|apply Hv|by eapply bit_range]. Qed.

(** The change in memory, from the sequential rules. *)
Lemma vok_mark {B} f i n (k : unit -> lockfree vol_env B) (K : B -> VirtualVolume -> Prop) v :
  (forall s r, wp (mark f i;; add_free n;; mret (Ok tt)) (fun _ e => mem_sane (e_vol e) /\ same_volume v (e_vol e)) (VolEnv s r v)) ->
  (forall v', mem_sane v' -> vok (k tt) K v') -> vok (x ← sc_mark f i n; k x) K v.
Proof.
  intros Hm Hk s r. specialize (Hm s r). simpl. unfold wp in Hm. unfold mbind, M_bind in *.
  destruct (mark f i (VolEnv s r v)) as [? e1|e1|c e1]; [|done..].
  destruct (add_free n e1) as [[] e2|e2|c e2]; [|done..]. destruct Hm as [Hm _]. split; [done|by apply Hk].
Qed.

(** ** Methods *)

Lemma vsane_freeze : vsane sc_freeze_timestamps.
Proof.
  intros v Hv. apply vok_gets; [done|]. apply vok_total; [done|auto with total|intros nd|done]. cbv zeta.
  destruct (has_nul _); [done|]. by apply vsane_sys; [auto with total|].
Qed.
Lemma vsane_write_bitmap : vsane sc_write_bitmap.
Proof.
  intros v Hv. apply vok_gets; [done|]. apply vok_assert; [done|by rewrite (sane_bitmap _ Hv)|].
  do 3 (apply vok_total; [done|auto with total|intros _|done]).
  apply (vsane_try sc_freeze_timestamps); [apply vsane_freeze|intros; apply vsane_ret|done].
Qed.
(** A call that succeeds was in range. *)
Definition ranged {A} (i : Z) (v : VirtualVolume) (r : result A) (v' : VirtualVolume) : Prop :=
  mem_sane v' /\ (is_ok r = true -> in_vault v i).
Lemma vok_read_block i v : mem_sane v -> vok (sc_read_block i) (ranged i v) v.
Proof using HOk.
  intros Hv. apply vok_check; [done|intros Hi|done]. apply vok_gets; [done|].
  apply vok_chk; [done|by eapply offset_u64|]. apply vok_total; [done|auto with total|intros _|done].
  apply vok_read; [done|done|intros raw Hraw|done]. cbv zeta.
  destruct (chacha_decrypt _ _ _) as [p|] eqn:E; [|done].
  apply (aead_only chacha_ok _ _ []) in E. apply (aead_len chacha_ok _ _ []) in E.
  rewrite lenZ_dropZ, Hraw in E. destruct (Z.eqb_spec (lenZ p) PAYLOAD_SIZE); [done|vlia].
Qed.
Lemma vok_write_block i p v : lenZ p = PAYLOAD_SIZE -> mem_sane v -> vok (sc_write_block i p) (ranged i v) v.
Proof using HOk.
  intros Hp Hv. apply vok_check; [done|intros Hi|done]. apply vok_gets; [done|].
  apply vok_draw; [done|done|intros nonce _]. cbv zeta.
  destruct (chacha_encrypt _ _ _) as [c|] eqn:E; [|done]. apply (aead_len chacha_ok _ _ []) in E.
  apply vok_assert; [done|apply Z.eqb_eq; vlia|]. apply vok_chk; [done|by eapply offset_u64|].
  do 3 (apply vok_total; [done|auto with total|intros _|done]). eapply vok_mono.
  - apply (vsane_try sc_freeze_timestamps); [apply vsane_freeze|intros; apply vsane_ret|done].
  - intros r v' Hv'. by split.
Qed.
Lemma vsane_read_block i : vsane (sc_read_block i).
Proof using HOk. intros v Hv. eapply vok_mono; [by apply vok_read_block|]. by intros r v' []. Qed.
Lemma vsane_write_block i p : lenZ p = PAYLOAD_SIZE -> vsane (sc_write_block i p).
Proof using HOk. intros Hp v Hv. eapply vok_mono; [by apply vok_write_block|]. by intros r v' []. Qed.

Lemma vok_take {B} i (k : unit -> lockfree vol_env B) (K : B -> VirtualVolume -> Prop) v :
  mem_sane v -> in_vault v i -> is_alloc (block_bitmap v) (i - DATA_START_BLOCK) = false ->
  (forall v', mem_sane v' -> vok (k tt) K v') -> vok (x ← sc_mark bit_set (i - DATA_START_BLOCK) (-1); k x) K v.
Proof. intros Hv Hi Hf Hk. apply vok_mark; [|done]. intros s r. by apply (sane_take i _ (VolEnv s r v)); [..|apply sane_ret]. Qed.
Lemma vok_give {B} i (k : unit -> lockfree vol_env B) (K : B -> VirtualVolume -> Prop) v :
  mem_sane v -> in_vault v i -> is_alloc (block_bitmap v) (i - DATA_START_BLOCK) = true ->
  (forall v', mem_sane v' -> vok (k tt) K v') -> vok (x ← sc_mark bit_clear (i - DATA_START_BLOCK) 1; k x) K v.
Proof. intros Hv Hi Hf Hk. apply vok_mark; [|done]. intros s r. by apply (sane_give i _ (VolEnv s r v)); [..|apply sane_ret]. Qed.

Lemma vsane_persist {A} (a : A) : vsane (sc_write_bitmap ;;! mret (Ok a)).
Proof. apply vsane_try; [apply vsane_write_bitmap|intros; apply vsane_ret]. Qed.
Lemma vsane_reserve i : vsane (sc_reserve_block i).
Proof.
  intros v Hv. apply vok_check; [done|intros Hi|done]. apply vok_gets; [done|]. cbv zeta. apply vok_bit; [done..|].
  destruct (is_alloc _ _) eqn:Ea; [done|]. apply vok_take; [done..|]. apply vsane_write_bitmap.
Qed.
Lemma vsane_free_block i : vsane (sc_free_block i).
Proof.
  intros v Hv. apply vok_check; [done|intros Hi|done]. apply vok_gets; [done|]. cbv zeta. apply vok_bit; [done..|].
  destruct (is_alloc _ _) eqn:Ea; [|done]. apply vok_give; [done..|]. apply vsane_persist.
Qed.
Lemma vok_scan idxs v :
  mem_sane v -> (forall b, b ∈ idxs -> in_vault v (DATA_START_BLOCK + b)) ->
  vok (sc_allocate_scan idxs) (fun _ v' => mem_sane v') v.
Proof.
  intros Hv Hidx. induction idxs as [|b idxs IH]; [done|].
  assert (in_vault v (DATA_START_BLOCK + b)) as Hb by (apply Hidx; by left).
  cbn [sc_allocate_scan]. apply vok_gets; [done|].
  pose proof (vok_bit (B := result Z) (DATA_START_BLOCK + b)) as Hu. rewrite Z.add_simpl_l in Hu. apply Hu; [done..|].
  destruct (is_alloc _ b) eqn:Ea; cbn [negb].
  - apply IH. intros c Hc. apply Hidx. by right.
  - pose proof (vok_take (B := result Z) (DATA_START_BLOCK + b)) as Ht. rewrite Z.add_simpl_l in Ht.
    apply Ht; [done..|]. apply vsane_persist.
Qed.
Lemma vsane_allocate : vsane sc_allocate_block.
Proof.
  intros v Hv. apply vok_gets; [done|]. destruct (_ =? 0); [done|]. destruct (sane_total _ Hv).
  apply vok_chk; [done|unfold is_u; vlia|]. apply vok_scan; [done|].
  intros b Hb%elem_of_seqZ. unfold in_vault. lia.
Qed.

(** ** The loops of [lib.rs] *)

Lemma vok_read_blocks start m : forall a out c v,
  is_u 64 (start + a) -> mem_sane v ->
  vok (sc_read_blocks start (seqZ a (Z.of_nat m)) out c) (fun _ v' => mem_sane v') v.
Proof using HOk.
  induction m as [|m IH]; intros a out c v Hu Hv; [done|]. rewrite seqZ_succ by lia. cbn [sc_read_blocks].
  apply vok_chk; [done..|]. apply vok_bind. eapply vok_mono; [by apply vok_read_block|].
  intros [buf|err] v' [Hv' Hi]; [|done]. replace (Z.of_nat (S m) - 1) with (Z.of_nat m) by lia.
  apply IH; [|done]. rewrite Z.add_assoc. apply (in_vault_u64 v); [done|by apply Hi].
Qed.
Lemma vok_write_blocks start data n m : forall a c v,
  lenZ data = n * PAYLOAD_SIZE -> 0 <= a -> a + Z.of_nat m <= n -> is_u 64 (start + a) -> mem_sane v ->
  vok (sc_write_blocks start (seqZ a (Z.of_nat m)) data c) (fun _ v' => mem_sane v') v.
Proof using HOk.
  intros a c v Hd. revert a c v. induction m as [|m IH]; intros a c v Ha Hn Hu Hv; [done|].
  rewrite seqZ_succ by lia. cbn [sc_write_blocks]. apply vok_chk; [done..|]. apply vok_bind.
  eapply vok_mono; [apply vok_write_block; [|done]|].
  { rewrite lenZ_slice by (rewrite ?Hd; unfold PAYLOAD_SIZE, BLOCK_SIZE; nia). unfold PAYLOAD_SIZE. lia. }
  intros [u|err] v' [Hv' Hi]; [|done]. replace (Z.of_nat (S m) - 1) with (Z.of_nat m) by lia.
  apply IH; [lia|lia| |done]. rewrite Z.add_assoc. apply (in_vault_u64 v); [done|by apply Hi].
Qed.
Lemma vsane_erase i :
  vsane (payload ← act (zoom rng_lens (draw_bytes PAYLOAD_SIZE));
    w ← sc_write_block i payload;
    match w with
    | Err _ => mret 3
    | Ok _ => r ← sc_free_block i; mret (match r with Ok _ => 0 | Err _ => 3 end)
    end).
Proof using HOk.
  intros v Hv. apply vok_draw; [done|done|intros p Hp].
  apply (vsane_bind (sc_write_block i p)); [by apply vsane_write_block| |done]. intros [u|e]; [|apply vsane_ret].
  apply vsane_bind; [apply vsane_free_block|intros; apply vsane_ret].
Qed.
Lemma vsane_check_canaries bs : vsane (sc_check_canaries bs).
Proof using HOk.
  induction bs as [|b bs IH]; [apply vsane_ret|]. cbn [sc_check_canaries].
  apply vsane_bind; [apply vsane_read_block|]. intros [buf|err]; [|apply vsane_ret].
  case_bool_decide; [apply IH|apply vsane_ret].
Qed.
Lemma vsane_reserve_all bs : vsane (sc_reserve_all bs).
Proof.
  induction bs as [|b bs IH]; [apply vsane_ret|]. cbn [sc_reserve_all]. apply vsane_bind; [apply vsane_reserve|done].
Qed.
Lemma vsane_write_canaries slots : vsane (sc_write_canaries slots).
Proof using HOk.
  induction slots as [|b slots IH]; [apply vsane_ret|]. intros v Hv. cbn [sc_write_canaries].
  apply vok_draw; [done|vlia|intros noise Hn].
  apply (vsane_bind (sc_write_block (995 + b) (canary_payload b noise))); [| |done].
  - apply vsane_write_block. unfold canary_payload. rewrite !lenZ_app, Hn. reflexivity.
  - intros [u|err]; [apply IH|apply vsane_ret].
Qed.
End vok.

(** * Threads *)

Section threads.
Context `{HP : Primitives} `{HB : BuildProfile} `{HOk : !PrimitivesOk HP}.
Context (mono : promises) (Hmono : mono -> overflow_checks = true).
Abbreviation D := (kdisc mono).
Abbreviation may_panic := (overflow_checks = true).
Abbreviation tr := (tr mono).

(** A change of the files and the generator touches nothing a mutex protects. *)
Lemma guarantee_files h s r k : typed k -> guarantee D h k (with_k_fs s (with_k_rng r k)).
Proof.
  intros Hk. split; [split; [intros _; unfold k_epoch, k_root; simpl; lia|done]|]. split; [destruct Hk; by split|].
  by intros [] ?.
Qed.

(** Work on files without a mutex. *)
Lemma tr_wipe {A} h (p : lockfree wipe_env A) (Q : A -> Prop) :
  returns p Q -> tr h (fun _ => True) (lift (fun B => zoom (A := B) wipe_lens) p) (ends h (val Q)).
Proof.
  intros Hp k Hk _. revert k Hk. induction p as [a|[]|[]|B m f IH]; intros k Hk.
  - intros k' Hr. split; [done|]. split; [apply Hr|exact Hp].
  - intros k' Hr. destruct (Hp (lget wipe_lens k')) as (b & e & E & Hb). unfold zoom. rewrite E. cbn [lput wipe_lens].
    assert (guarantee D h k' (with_k_fs (w_fs e) (with_k_rng (w_rng e) k'))) as Hg by (apply guarantee_files, Hr).
    split; [done|]. by apply IH, Hg.
Qed.
Lemma tr_files {A} h (p : lockfree fs A) (Q : A -> Prop) :
  returns p Q -> tr h (fun _ => True) (lift (fun B => zoom (A := B) kfs_lens) p) (ends h (val Q)).
Proof.
  intros Hp k Hk _. revert k Hk. induction p as [a|[]|[]|B m f IH]; intros k Hk.
  - intros k' Hr. split; [done|]. split; [apply Hr|exact Hp].
  - intros k' Hr. destruct (Hp (lget kfs_lens k')) as (b & s & E & Hb). unfold zoom. rewrite E. cbn [lput kfs_lens].
    assert (guarantee D h k' (with_k_fs s k')) as Hg.
    { replace (with_k_fs s k') with (with_k_fs s (with_k_rng (k_rng k') k')) by (by destruct k' as [[]]).
      apply guarantee_files, Hr. }
    split; [done|]. by apply IH, Hg.
Qed.

(** Work on the locked volume. *)
Definition holds_vault (K : VirtualVolume -> Prop) (k : kernel) : Prop := exists v, VFS k = Some (v, false) /\ K v.
Lemma stable_vault h K : L_vault ∈ h -> stable mono h (holds_vault K).
Proof. intros Hh k k' (v & E & HK) (_ & _ & Ha). exists v. rewrite (Ha L_vault Hh); [done|]. by rewrite E. Qed.

Lemma safe_vault {A} h (p : lockfree vol_env A) (K : A -> VirtualVolume -> Prop) v k :
  L_vault ∈ h -> typed k -> VFS k = Some (v, false) -> vok p K v ->
  safe D may_panic h (lift (@on_vault HP) p) (ends h (fun a => holds_vault (K a))) k.
Proof.
  intros Hh. revert v k. induction p as [a|[]|[]|B m f IH]; intros v k Hk E Hp.
  - intros k' Hr. split; [done|]. split; [apply Hr|]. apply (stable_vault h (K a) Hh k k'); [by exists v|done].
  - intros k' Hr. destruct (stable_vault h (eq v) Hh k k') as (v' & E' & <-); [by exists v|done|].
    unfold on_vault. rewrite E'. specialize (Hp (k_fs k') (k_rng k')). change (VolEnv (k_fs k') (k_rng k') v) with (env_of v k') in Hp.
    destruct (m (env_of v k')) as [b e|e|c e]; [|done..]. destruct Hp as [He Hp].
    assert (guarantee D h k' (put_env e false k')) as Hg.
    { split; [split; [intros _; unfold k_epoch, k_root; simpl; lia|done]|]. split.
      - destruct Hr as (_ & [] & _). split; simpl; [done..|]. by intros v' p' [= <- <-].
      - by intros [] Hl. }
    split; [done|]. apply (IH b (e_vol e)); [apply Hg|done|done].
Qed.

Lemma tr_done {A} h P (a : A) (Q : A -> Prop) : Q a -> tr h P (mret a) (ends h (val Q)).
Proof. intros HQ. apply (tr_weaken _ _ _ (fun _ => True)); [by apply tr_mret|done]. Qed.

Lemma spec_with_vault {R} (d : R) f g :
  vsane f -> (forall r, tr [L_vault] (fun _ => True) (g r) (ends [L_vault] (val any))) ->
  tr [] (fun _ => True) (sc_with_vault d f g) (ends [] (val any)).
Proof.
  intros Hf Hg. apply (tr_act mono _ _ _ (fun vfs k => is_Some vfs -> is_Some (VFS k))); [done| |].
  { intros k Hk _. by eapply act_read. }
  intros [vfs|]; [|by apply tr_done]. intros k Hk Hset. split; [not_in|]. intros k1 Hr1. split.
  { intros _ k2 Hr2. split; [done|]. split; [apply Hr2|done]. }
  intros _ k2 Hr2. assert (is_Some (VFS k1)) as [[v p] E] by (apply Hr1, Hset; eauto).
  assert (VFS k2 = Some (v, p)) as E2.
  { destruct Hr2 as (_ & _ & Ha). rewrite (Ha L_vault); [done|is_in|]. by rewrite E. }
  assert (typed k2) as Hk2 by apply Hr2. destruct (ty_vault _ Hk2 v p E2) as [-> Hv].
  cbn. split; [by apply guarantee_refl|]. unfold is_poisoned. rewrite E2.
  apply safe_bind; [done|]. eapply safe_mono; [apply (safe_vault [L_vault] f (fun _ v => mem_sane v) v); [is_in|done|done|by apply Hf]|].
  intros h' r k3 (-> & Hk3 & _). apply safe_bind; [done|]. eapply safe_mono; [by apply Hg|].
  intros h' u k4 (-> & Hk4 & _). split; [is_in|]. split; [done|]. intros k5 Hr5. split; [done|]. split; [apply Hr5|done].
Qed.
Lemma spec_with_vault_or {R} (d : R) f : vsane f -> tr [] (fun _ => True) (sc_with_vault_or d f) (ends [] (val any)).
Proof. intros Hf. apply spec_with_vault; [done|]. intros r. by apply tr_done. Qed.

Lemma spec_set_VFS v : mem_sane v -> tr [] (fun _ => True) (sc_set_VFS v) (ends [] (val any)).
Proof.
  intros Hv. apply (tr_act mono _ _ _ (fun _ _ => True)); [done| |].
  - intros k Hk _. unfold act_ok, try_set. destruct (VFS k) as [vfs|] eqn:E; [split; [by apply guarantee_refl|done]|].
    split; [|done]. split; [split; [intros _; unfold k_epoch, k_root; simpl; lia|done]|].
    split; [destruct Hk; split; simpl; [done..|]; by intros v' p' [= <- <-]|].
    intros [] ?; simpl; try done. rewrite E. by intros [? [=]].
  - intros [|]; [by apply tr_done|]. eapply tr_result; [apply tr_files, returns_drop|done].
Qed.

Lemma spec_init_volume path key n :
  is_u 64 n -> tr [] (fun _ => True) (sc_init_virtual_volume path key n) (ends [] (val any)).
Proof using HOk.
  intros Hn. unfold sc_init_virtual_volume.
  destruct path as [path|], key as [key|]; try (by apply tr_done).
  destruct (Z.eqb_spec (lenZ path) 0); [by apply tr_done|]. cbn [orb].
  destruct (Z.ltb_spec (lenZ key) 32); [by apply tr_done|].
  destruct (from_utf8 path) as [path'|]; [|by apply tr_done]. cbv zeta.
  eapply tr_bind; [apply tr_files, returns_open_or_create; [len_lia|apply Hn]|].
  intros [v|e]; [|by apply tr_done]. intros k Hk Hb. destruct (Hb v eq_refl) as [Hv _].
  apply (tr_bind mono [] [] (fun _ => True) _ (val any)); [by apply spec_set_VFS| |done|done].
  intros u. by apply tr_done.
Qed.

Lemma spec_purge h path :
  (purges (PurgeVault path) -> may_purge mono) ->
  tr [] (fun _ => True) (sc_purge_vault h path) (ends [] (val any)).
Proof.
  intros Hp. unfold sc_purge_vault. destruct path as [path|]; [|by apply tr_done].
  destruct (Z.eqb_spec (lenZ path) 0); [by apply tr_done|].
  destruct (from_utf8 path) as [path'|] eqn:Eu; [|by apply tr_done].
  assert (may_purge mono) as Hm by (apply Hp; exists path; by rewrite Eu).
  eapply tr_bind; [apply tr_wipe, returns_purge|]. intros [u|e]; [|by apply tr_done].
  intros k Hk _ k' Hr. unfold execute_panic_exit. assert (typed k') by apply Hr.
  destruct h; (split; [done|]; split; [|done]); split; [lia|done|lia|done].
Qed.

Lemma vsane_result {A B} (p : lockfree vol_env A) (f : A -> B) : vsane p -> vsane (a ← p; mret (f a)).
Proof. intros Hp. apply vsane_bind; [done|]. intros. apply vsane_ret. Qed.

Lemma spec_sc_read start n out :
  is_u 64 start -> is_u 32 n -> tr [] (fun _ => True) (sc_read_vault_blocks start n out) (ends [] (val any)).
Proof using HOk.
  intros Hs Hn. unfold sc_read_vault_blocks. destruct out as [out|]; [|by apply tr_done].
  destruct (n =? 0); [by apply tr_done|]. eapply tr_bind; [apply spec_with_vault_or|intros r; by apply tr_done].
  intros v Hv. rewrite <- (Z2Nat.id n) by apply Hn. apply vok_read_blocks; [by rewrite Z.add_0_r|done].
Qed.
Lemma spec_sc_write start n data :
  is_u 64 start -> is_u 32 n -> (forall d, data = Some d -> lenZ d = n * PAYLOAD_SIZE) ->
  tr [] (fun _ => True) (sc_write_vault_blocks start n data) (ends [] (val any)).
Proof using HOk.
  intros Hs Hn Hd. unfold sc_write_vault_blocks. destruct data as [data|]; [|by apply tr_done].
  destruct (n =? 0); [by apply tr_done|]. apply spec_with_vault_or. intros v Hv. unfold is_u in Hn.
  pose proof (vok_write_blocks start data n (Z.to_nat n) 0 0 v (Hd data eq_refl)) as H.
  rewrite Z2Nat.id in H by lia. apply H; [lia|lia|by rewrite Z.add_0_r|done].
Qed.
Lemma spec_sc_validate : tr [] (fun _ => True) sc_validate_canary_slots (ends [] (val any)).
Proof using HOk.
  apply spec_with_vault; [apply vsane_check_canaries|]. intros code.
  destruct (code =? 0); [|by apply tr_done]. intros k2 Hk2 _ k3 Hr3. simpl.
  assert (typed (with_CANARY true k3)) as Hk3 by (destruct Hr3 as (_ & [] & _); by split).
  split; [|intros k4 Hr4; split; [done|]; split; [apply Hr4|done]].
  split; [split; [intros _; unfold k_epoch, k_root; simpl; lia|done]|]. split; [done|]. by intros [] ?.
Qed.
Lemma spec_sc_id_stamp : tr [] (fun _ => True) sc_generate_id_stamp (ends [] (val any)).
Proof using HOk.
  eapply tr_bind; [apply spec_read_curr; not_in|]. intros curr. apply (tr_weaken _ _ _ (fun _ => True)); [|done].
  eapply tr_bind; [apply spec_read_store|]. intros pk. apply (tr_weaken _ _ _ (fun _ => True)); [|done].
  apply spec_with_vault_or, vsane_result, vsane_write_block. rewrite lenZ_splice; [by rewrite lenZ_repZ|done|].
  rewrite lenZ_repZ. unfold compute_id_stamp. rewrite sha256_len. done.
Qed.
Lemma spec_sc_load out : tr [] (fun _ => True) (sc_load_id_stamp out) (ends [] (val any)).
Proof using HOk.
  unfold sc_load_id_stamp. destruct out as [o|]; [|by apply tr_done]. destruct (_ <? _); [by apply tr_done|].
  eapply tr_bind; [apply spec_with_vault_or, vsane_result, vsane_read_block|]. intros r.
  destruct (negb _); by apply tr_done.
Qed.

(** What an application's call must satisfy here: it is well typed, and keeps the promises. *)
Definition sc_call (c : call) : Prop :=
  call_ok c /\ (mono -> keeps_epoch c) /\ (purges c -> may_purge mono).

Lemma spec_sc_num (p : kprog Z) c :
  (forall r, evolution_reply mono c r) -> tr [] (fun _ => True) p (ends [] (val any)) ->
  tr [] (fun _ => True) (mt_num p) (ends [] (val (evolution_reply mono c))).
Proof. intros Hc Hp. eapply tr_any; [by apply tr_num|done]. Qed.

Lemma spec_sc_evolution a h c :
  sc_call c -> tr [] (fun _ => True) (sc_thread_of a h c) (ends [] (val (evolution_reply mono c))).
Proof using HOk Hmono.
  intros (Hc & Hm & Hp). destruct c; cbn [sc_thread_of];
    lazymatch goal with
    | |- Concurrency.tr _ _ _ (thread_of _ _ ?c) _ => by apply (spec_thread_of mono Hmono a h c)
    | |- Concurrency.tr _ _ _ (mt_num _) _ => apply spec_sc_num; [done|]
    | _ => idtac
    end.
  - by apply spec_init_volume.
  - destruct Hc. eapply tr_bind; [by apply spec_sc_read|intros r; by apply tr_done].
  - destruct Hc as (? & ? & ?). by apply spec_sc_write.
  - by apply spec_with_vault_or, vsane_result, vsane_allocate.
  - by apply spec_with_vault_or, vsane_result, vsane_free_block.
  - apply spec_with_vault_or, vsane_erase.
  - apply spec_with_vault_or, vsane_bind; [by apply vsane_act, sane_ret|intros; apply vsane_ret].
  - apply spec_with_vault_or, vsane_act, sane_gets.
  - apply spec_with_vault_or, vsane_act, sane_gets.
  - apply spec_sc_validate.
  - apply spec_with_vault_or, vsane_bind; [apply vsane_reserve_all|intros; apply vsane_write_canaries].
  - by apply spec_purge.
  - apply spec_sc_id_stamp.
  - eapply tr_bind; [apply spec_sc_load|intros r; by apply tr_done].
Qed.
Lemma spec_sc_thread_of a h c :
  sc_call c -> tr [] (fun _ => True) (sc_thread_of a h c) (ends [] (val (reply_ok mono a c))).
Proof using HOk Hmono.
  intros Hc. pose proof (spec_sc_evolution a h c Hc) as He.
  assert (by_discipline c \/ ~ by_discipline c) as [Hd|Hd] by (destruct c; simpl; tauto).
  - eapply tr_result; [exact He|]. intros r. by apply reply_ok_by_discipline.
  - eapply tr_result; [apply (tr_outs mono _ _ _ _ (reply_ok mono a c) He), outs_thread_of; [done|apply Hc]|]. by intros r [].
Qed.
Lemma spec_sc_thread_of_all a h cs :
  Forall sc_call cs -> tr [] (fun _ => True) (sc_thread_of_all a h cs) (ends [] (val (Forall2 (reply_ok mono a) cs))).
Proof using HOk Hmono.
  induction cs as [|c cs IH]; intros Hcs; [by apply tr_done|]. apply Forall_cons in Hcs as [Hc Hcs].
  cbn [sc_thread_of_all]. eapply tr_bind; [by apply spec_sc_thread_of|]. intros r k Hk Hr.
  apply (tr_bind mono [] [] (fun _ => True) _ (val (Forall2 (reply_ok mono a) cs))); [by apply IH| |done|done].
  intros rs k2 Hk2 Hrs k3 Hr3. split; [done|]. split; [apply Hr3|]. by constructor.
Qed.
End threads.

(** * Every interleaving *)

Section every.
Context `{HP : Primitives} `{HB : BuildProfile}.

(** The application's threads, at the granularity of system calls. *)
Definition sc_app (a : Z -> bool) (h : bool) (css : list (list call)) : list (kprog (list reply)) :=
  sc_thread_of_all a h <$> css.

Lemma sc_app_ordered a h css : Forall (fun p => ordered mutex_rank [] p (fun _ _ => True)) (sc_app a h css).
Proof.
  apply Forall_fmap, Forall_true. intros cs. eapply ordered_mono; [apply tidy_sc_thread_of_all|]. done.
Qed.

(** Some interleaving brings every thread to its end. *)
Lemma sc_app_ends a h css k : exists c, reachable k (sc_app a h css) c /\ Forall ended (pool c).
Proof. apply (some_end mutex_rank), sc_app_ordered. Qed.

(** [C7] No deadlock: any number of threads make any calls of [call], opening and purging
    vaults included, and the operating system interleaves their system calls and lock
    operations in any way; these are the exported functions other than the three of the
    cover traffic, whose locks [ConstantFlow] treats, and the two heap helpers, which touch
    no static.  At every point of every run, while
    some thread has not ended some thread can take its next step, so that the threads never
    wait for each other's mutexes in a circle, and the run can be continued until every
    thread has ended: with its replies, by a panic, or with the process. *)
Theorem all_calls_never_deadlock a h css k c :
  reachable k (sc_app a h css) c ->
  ((exists t, t ∈ pool c /\ ~ ended t) -> exists i c', thread_step i c = Some c') /\
  exists c', rtc step c c' /\ Forall ended (pool c').
Proof.
  intros Hc. split; [|apply (can_end mutex_rank k (sc_app a h css)); [apply sc_app_ordered|done]].
  intros (t & Ht & Hn).
  destruct (deadlock_free mutex_rank k (sc_app a h css) c) as [He|(c' & i & Hi)]; [apply sc_app_ordered|done| |eauto].
  rewrite Forall_forall in He. by destruct Hn; apply He.
Qed.

(** The system-call programs are the functions: an application with one thread gets from
    every call sequence exactly what the sequential model computes. *)
Theorem one_thread_of_system_calls a h cs k rs k' c :
  exec_all a h cs k = Done rs k' -> reachable k (sc_app a h [cs]) c -> Forall ended (pool c) ->
  c = Config k' [] [Finished rs].
Proof.
  intros Hx Hc He. symmetry. eapply (single_det (start k (sc_app a h [cs]))); [done| |by apply ended_nf; repeat constructor|exact Hc|by apply ended_nf].
  destruct (run_alone mutex_rank 0 (sc_thread_of_all a h cs) (start k (sc_app a h [cs])) [] rs k') as [sched Hs]; [done|done| | | |].
  - intros [|j] t Hj Ht; [done|done].
  - eapply ordered_mono; [apply tidy_sc_thread_of_all|done].
  - by rewrite run_sc_thread_of_all.
  - by eapply run_schedule_steps.
Qed.

Context `{HOk : !PrimitivesOk HP}.

(** [C8] In every interleaving of the system calls of any threads making any calls of [call],
    vaults being opened at the same time and purged while they are used: at every step the
    statics are well formed, the struct of the vault included.  Either some thread was to
    purge a vault under a non-empty path in UTF-8 and the process has ended, all threads
    with it; or the process lives, and then the stored digest is that of the stored peer key
    whenever that key's mutex is free, every thread that finishes has for each of its calls
    a reply of the table [reply_ok] (exact codes, ranges of numbers and contents of buffers
    for every call; a purge that returns has failed), and in a release build no thread has
    ended early and no mutex is poisoned.  So without such a purge no call ends the process. *)
Theorem system_calls_keep_statics a h css k c :
  let purging := Exists (Exists purges) css in
  kernel_ok k -> Forall (Forall call_ok) css -> reachable k (sc_app a h css) c ->
  typed (shared c) /\
  (purging /\ Forall (eq Crashed) (pool c) \/
   (L_pk ∉ all_held (pool c) -> L_pk ∉ poisoned c -> bound (shared c)) /\
   (forall j cs rs, css !! j = Some cs -> pool c !! j = Some (Finished rs) ->
      Forall2 (reply_ok (Promises False purging) a) cs rs) /\
   (overflow_checks = false -> (Crashed ∉ pool c) /\ poisoned c = [])).
Proof using HOk.
  intros purging Hk Hcss Hc.
  destruct (calls_sound (Promises False purging) (reply_ok (Promises False purging) a) (sc_thread_of_all a h) css k c)
    as [[[Hg Ht _ Hl Hpo]|(Hp & Hx & Hg)] _]; [done| |done|..].
  { apply Forall_forall. intros cs Hcs. apply spec_sc_thread_of_all; [done|]. apply Forall_forall. intros x Hx.
    rewrite Forall_forall in Hcss. specialize (Hcss cs Hcs). rewrite Forall_forall in Hcss. split_and!; [by apply Hcss|done|].
    intros Hpx. apply Exists_exists. exists cs. split; [done|]. apply Exists_exists. by exists x. }
  - split; [done|right]. split_and!; [exact (Hl L_pk)| |].
    + intros j cs rs Hj Hf. destruct (Ht _ _ Hf) as (Q & HQ & Hok). rewrite list_lookup_fmap, Hj in HQ.
      by injection HQ as <-.
    + intros Hov. split.
      * intros (j & Hj)%list_elem_of_lookup. destruct (Ht _ _ Hj) as (Q & _ & Hok). simpl in Hok. congruence.
      * destruct (poisoned c) as [|l ls] eqn:E; [done|]. specialize (Hpo l ltac:(by left)). congruence.
  - split; [done|left]. done.
Qed.

(** [C15] In a checked build, and as long as no new trust root is installed, the epoch never
    goes back in any interleaving, also while vaults are opened and purged, and a
    [recover_after_loss(t)] that returns returns an epoch of at least [t], or the error code
    [u32::MAX], which is at least [t] too. *)
Theorem system_calls_keep_epochs a h css k c :
  overflow_checks = true -> kernel_ok k -> Forall (Forall (fun x => call_ok x /\ keeps_epoch x)) css ->
  reachable k (sc_app a h css) c ->
  k_epoch k <= k_epoch (shared c) /\
  forall j cs rs i t n, css !! j = Some cs -> pool c !! j = Some (Finished rs) ->
    cs !! i = Some (RecoverAfterLoss t) -> rs !! i = Some (RNum n) -> t <= n.
Proof using HOk.
  intros Hov Hk Hcss Hc.
  destruct (calls_sound (Promises True True) (reply_ok (Promises True True) a) (sc_thread_of_all a h) css k c) as [Hok He]; [done| |done|].
  { eapply Forall_impl; [exact Hcss|]. intros cs Hcs. apply spec_sc_thread_of_all; [done|].
    eapply Forall_impl; [exact Hcs|]. intros x []. by split_and!. }
  split; [by apply He|]. intros j cs rs i t n Hj Hf Hi Hr.
  destruct Hok as [[_ Ht _ _ _]|(_ & Hx & _)]; [|by specialize (Forall_lookup_1 _ _ _ _ Hx Hf)].
  destruct (Ht _ _ Hf) as (Q & HQ & Hok). rewrite list_lookup_fmap, Hj in HQ. injection HQ as <-. simpl in Hok.
  destruct (Forall2_lookup_lr _ _ _ _ _ _ Hok Hi Hr) as (n' & [= <-] & _ & Hle). by apply Hle.
Qed.
End every.

(** * Examples *)

(** One thread opens a vault and uses it, one purges it, one evolves the root. *)
Definition sc_demo_threads : list (list call) :=
  [[InitVirtualVolume (Some [118]) (Some (repZ 32 1)) 4; AllocateVaultBlock];
   [VaultFreeBlocks; PurgeVault (Some [118])]; [CommitEvolution; RecoverAfterLoss 4]].
Lemma sc_demo_ok : Forall (Forall (fun x => call_ok x /\ keeps_epoch x)) sc_demo_threads.
Proof. unfold sc_demo_threads. repeat constructor; simpl; unfold is_u; lia. Qed.
Definition sc_demo_schedule : list nat := [0; 0; 1; 2; 0; 0; 0; 2; 1; 0; 2; 2; 1]%nat.
Definition sc_demo_config := default (start fresh [])
  (run_schedule sc_demo_schedule (start fresh (sc_app (HP := toy) (HB := true) demo_alloc true sc_demo_threads))).
Lemma sc_demo_reachable :
  reachable fresh (sc_app (HP := toy) (HB := true) demo_alloc true sc_demo_threads) sc_demo_config.
Proof.
  apply (run_schedule_steps sc_demo_schedule). unfold sc_demo_config.
  assert (bool_decide (is_Some (run_schedule sc_demo_schedule
    (start fresh (sc_app (HP := toy) (HB := true) demo_alloc true sc_demo_threads)))) = true) as E by (vm_compute; reflexivity).
  apply bool_decide_eq_true in E as [c E]. rewrite E. reflexivity.
Qed.

(** In the middle of a run: some thread can move, and all can be brought to their end. *)
Lemma all_calls_never_deadlock_witness :
  (exists i c', thread_step i sc_demo_config = Some c') /\ exists c', rtc step sc_demo_config c' /\ Forall ended (pool c').
Proof.
  destruct (all_calls_never_deadlock (HP := toy) (HB := true) demo_alloc true sc_demo_threads fresh sc_demo_config
    sc_demo_reachable) as [Hs He]. split; [apply Hs|exact He].
  - assert (bool_decide (Exists (fun t => ~ ended t) (pool sc_demo_config)) = true) as E by (vm_compute; reflexivity).
    apply bool_decide_eq_true, Exists_exists in E as (t & ? & ?). eauto.
Defined.

Lemma one_thread_of_system_calls_witness :
  exists c, reachable fresh (sc_app (HP := toy) (HB := true) demo_alloc true [[VaultFreeBlocks; PurgeVault None]]) c /\
    pool c = [Finished [RNum 0; RNum 1]].
Proof.
  pose (c := Config (L := mutex) fresh [] [Finished [RNum 0; RNum 1]]).
  assert (reachable fresh (sc_app (HP := toy) (HB := true) demo_alloc true [[VaultFreeBlocks; PurgeVault None]]) c) as Hc
    by (apply (run_schedule_steps [0; 0]%nat); reflexivity).
  exists c. split; [exact Hc|].
  rewrite (one_thread_of_system_calls (HP := toy) (HB := true) demo_alloc true [VaultFreeBlocks; PurgeVault None] fresh
    [RNum 0; RNum 1] fresh c eq_refl Hc ltac:(repeat constructor)). reflexivity.
Defined.

(** Without a purge, in a release build: a run to the end in which every thread finishes with
    replies of the table. *)
Definition sc_calm_threads : list (list call) :=
  [[InitVirtualVolume (Some [118]) (Some (repZ 32 1)) 4; AllocateVaultBlock; VaultFreeBlocks];
   [VaultFreeBlocks; PurgeVault None]; [CommitEvolution; MsgCounterNext]].
Lemma system_calls_keep_statics_witness :
  exists c, reachable fresh (sc_app (HP := toy) (HB := false) demo_alloc true sc_calm_threads) c /\
    typed (HP := toy) (shared c) /\ poisoned c = [] /\
    forall j cs, sc_calm_threads !! j = Some cs -> exists rs, pool c !! j = Some (Finished rs) /\
      Forall2 (reply_ok (HP := toy) (Promises False (Exists (Exists purges) sc_calm_threads)) demo_alloc) cs rs.
Proof.
  destruct (sc_app_ends (HP := toy) (HB := false) demo_alloc true sc_calm_threads fresh) as (c & Hc & He).
  exists c. split; [exact Hc|].
  destruct (system_calls_keep_statics (HP := toy) (HB := false) demo_alloc true sc_calm_threads fresh c)
    as (Ht & [[Hp _]|(_ & Hr & Hx)]); [exact fresh_ok|unfold sc_calm_threads; repeat constructor; simpl; unfold is_u; lia|done|..].
  - exfalso. unfold sc_calm_threads in Hp. repeat (apply Exists_cons in Hp as [Hp|Hp]); [..|by apply Exists_nil in Hp];
      repeat (apply Exists_cons in Hp as [Hp|Hp]); try (by apply Exists_nil in Hp); by destruct Hp as (path & [=] & _).
  - destruct (Hx eq_refl) as [Hnc Hpo]. split; [done|]. split; [done|]. intros j cs Hj.
    assert (length (pool c) = 3)%nat as Hl by (by rewrite (pool_length _ _ _ Hc)).
    destruct (lookup_lt_is_Some_2 (pool c) j) as [t Et]; [rewrite Hl; by apply lookup_lt_Some in Hj|].
    pose proof (Forall_lookup_1 _ _ _ _ He Et) as Hend. destruct t as [|rs|]; [done| |].
    + exists rs. split; [done|]. by apply (Hr j).
    + destruct Hnc. by apply list_elem_of_lookup_2 in Et.
Defined.

Lemma system_calls_keep_epochs_witness : 0 <= k_epoch (HP := toy) (shared sc_demo_config).
Proof.
  apply (system_calls_keep_epochs (HP := toy) (HB := true) demo_alloc true sc_demo_threads fresh sc_demo_config eq_refl
    fresh_ok sc_demo_ok sc_demo_reachable).
Defined.
