(* ===== verification/VaultRaces.v ===== *)
(** Interleavings of system calls that lose what the vault holds, or keep what a purge
    should remove.

    [init_virtual_volume] looks at the path, removes a file of length 0 and creates its own
    in separate system calls, and [purge_vault] overwrites the file without the mutex of
    the vault.  [open_race] and [purge_race] give interleavings of [SysCalls] in which this
    shows; [psteps] follows one thread between two points where another moves. *)
From stdpp Require Import gmap.
From S2P Require Import Prelude Effects Threads Crypto MemoryProtection RootState AntiDos TailPadding MessageCipher Evolution StdFs VolumeLayout VirtualVolume VolumeProofs VolumeBlocks VolumeAlloc VolumeOpen VolumeLifecycle VolumeCrash VolumeTotal ClockAlign DiskWipe Kernel KernelProofs InitModule Ffi Exports Locks SysCalls Concurrency Interleavings VaultThreads.

(** * Following one thread *)

Section psteps.
Context {L S : Type} `{EqDecision L}.

(** Actions of a program that return, without locks. *)
Inductive psteps {A} : prog L S A -> S -> prog L S A -> S -> Prop :=
| psteps_refl p s : psteps p s p s
| psteps_act {B} (m : M S B) f s b s1 p' s' :
    m s = Done b s1 -> psteps (f b) s1 p' s' -> psteps (Act m f) s p' s'.

Lemma psteps_trans {A} (p : prog L S A) s p1 s1 p2 s2 :
  psteps p s p1 s1 -> psteps p1 s1 p2 s2 -> psteps p s p2 s2.
Proof. induction 1; [done|]. intros. eapply psteps_act; [done|auto]. Qed.
Lemma psteps_bind {A B} (p : prog L S A) (k : A -> prog L S B) s p' s' :
  psteps p s p' s' -> psteps (p ≫= k) s (p' ≫= k) s'.
Proof. induction 1; [apply psteps_refl|]. eapply psteps_act; [done|]. done. Qed.

Lemma psteps_pool {A} (p p' : prog L S A) s s' i h (c : config L S A) :
  psteps p s p' s' -> shared c = s -> pool c !! i = Some (Running h p) ->
  rtc step c (Config s' (poisoned c) (<[i := Running h p']> (pool c))).
Proof.
  intros Hp. revert c. induction Hp as [p s|B m f s b s1 p' s' E Hp IH]; intros c <- Hi.
  - rewrite list_insert_id by done. by destruct c.
  - eapply rtc_l; [exists i; unfold thread_step; rewrite Hi, E; reflexivity|].
    specialize (IH (Config s1 (poisoned c) (<[i := Running h (f b)]> (pool c))) eq_refl).
    simpl in IH. rewrite list_insert_insert_eq in IH. apply IH. by eapply lookup_self.
Qed.
Lemma psteps_move {A} i h (p p' : prog L S A) (c c' : config L S A) :
  psteps p (shared c) p' (shared c') -> pool c !! i = Some (Running h p) -> poisoned c' = poisoned c ->
  pool c' = <[i := Running h p']> (pool c) -> rtc step c c'.
Proof. intros Hp Hi Ep Et. pose proof (psteps_pool _ _ _ _ i h c Hp eq_refl Hi) as R. destruct c'. by simplify_eq/=. Qed.
End psteps.

(** A program without locks, inside a larger state, up to some point or to its end. *)
Lemma psteps_lift {L S T A} (l : lens S T) (p p' : lockfree S A) s s' t :
  lens_laws l -> psteps p s p' s' -> lget l t = s ->
  psteps (lift (L := L) (fun B => zoom (A := B) l) p) t (lift (fun B => zoom (A := B) l) p') (lput l s' t).
Proof.
  intros Hl Hp. revert t. induction Hp as [p s|B m f s b s1 p' s' E Hp IH]; intros t Ht.
  - rewrite <- Ht, (lput_lget _ Hl). apply psteps_refl.
  - cbn [lift]. eapply psteps_act; [apply zoom_done; by rewrite Ht|].
    rewrite <- (lput_lput _ Hl s' s1). apply IH. apply (lget_lput _ Hl).
Qed.
Lemma psteps_run {S A} (p : lockfree S A) s a s' : run p s = Done a s' -> psteps p s (Ret a) s'.
Proof.
  revert s. induction p as [x|[]|[]|B m f IH]; intros s; cbn [run].
  - intros [= -> ->]. apply psteps_refl.
  - unfold mbind, M_bind. destruct (m s) as [b s1|s1|c s1] eqn:E; [|done..]. intros Hr.
    eapply psteps_act; [exact E|by apply IH].
Qed.

(** * Two opens at once *)

Section open_race.
Context `{HP : Primitives} `{HB : BuildProfile} `{HOk : !PrimitivesOk HP}.

Lemma wp_run_sys {S A B} (m : M S (result A)) (k : A -> lockfree S (result B)) Q s :
  wp (m ≫= try_bind (fun a => run (k a))) Q s -> wp (run (act m ≫= ptry k)) Q s.
Proof.
  unfold wp. rewrite run_bind. unfold mbind, M_bind. rewrite run_act. by destruct (m s) as [[]| |].
Qed.
Lemma wp_run_or_close {A} fd (p : lockfree fs (result A)) Q s :
  wp (run p) (fun r s' => match r with
    | Ok a => Q (Ok a) s'
    | Err e => Q (Err e) (with_fds (delete fd (fds s')) s') end) s -> wp (run (sc_or_close fd p)) Q s.
Proof. intros H. unfold wp. rewrite (run_or_close fd p (run p)) by done. by apply wp_or_close. Qed.

Lemma metadata_absent path s :
  has_nul path = false -> quiet s -> dir s !! path = None ->
  metadata path s = Done (Err NotFound) (with_tick (tick s + 1) s).
Proof. intros Hn Hq Hd. unfold metadata, on_path, syscall. rewrite Hn, Hq. cbn. by rewrite Hd. Qed.
Lemma create_absent path s :
  has_nul path = false -> quiet s -> dir s !! path = None ->
  exists s', open_create_new path s = Done (Ok (next_id s + 1)) s' /\ next_id s' = next_id s + 1 + 1 /\
    making (<[path := next_id s]> (dir s)) (next_id s) (next_id s + 1) (faults s) (tick s + 1) [] 0 s'.
Proof.
  intros Hn Hq Hd. unfold open_create_new, on_path, syscall. rewrite Hn, Hq. cbn. rewrite Hd. eexists.
  split; [reflexivity|]. split; [done|]. split; cbn; [done|apply lookup_insert_eq| |done|done].
  unfold data_of. cbn. by rewrite lookup_insert_eq.
Qed.

(** The creation of a file, interrupted right after the file exists, and its other half. *)
Lemma create_halves path key n s :
  0 <= n <= MAX_DATA_BLOCKS -> has_nul path = false -> quiet s -> dir s !! path = None ->
  exists p s1, psteps (sc_open_or_create path key n) s p s1 /\ next_id s1 = next_id s + 2 /\
    (exists t, making (<[path := next_id s]> (dir s)) (next_id s) (next_id s + 1) (faults s) t [] 0 s1) /\
    forall names pos s2, quiet s2 -> making names (next_id s) (next_id s + 1) (faults s2) (tick s2) [] pos s2 ->
      wp (run p) (fun r s3 => r = Ok (fresh_volume (next_id s + 1) path key n) /\ dir s3 = names /\
        ino_of s3 (next_id s + 1) = Some (next_id s)) s2.
Proof.
  intros Hn Hnul Hq Hd.
  destruct (create_absent path (with_tick (tick s + 1 + 1 + 1) s)) as (s1 & E1 & N1 & M1); [done..|].
  eexists _, s1. split; [|split; [cbn in N1; lia|split; [by eexists|]]].
  - unfold sc_open_or_create. destruct (Z.ltb_spec MAX_DATA_BLOCKS n); [lia|].
    eapply psteps_act; [by apply metadata_absent|]. eapply psteps_act; [by apply (metadata_absent path (with_tick _ s))|].
    eapply psteps_act; [by apply (metadata_absent path (with_tick _ s))|].
    eapply psteps_act; [apply chk_u_ok; unfold is_u; vlia|]. eapply psteps_act; [apply chk_u_ok; unfold is_u; vlia|].
    eapply psteps_act; [exact E1|]. apply psteps_refl.
  - intros names pos s2 Hq2 M2. cbn [next_id with_tick ptry]. apply wp_run_or_close.
    apply wp_run_sys. eapply mk_set_len; [exact M2|apply Hq2|]. intros s3 M3.
    apply wp_run_sys. eapply mk_seek; [exact M3|apply Hq2|]. intros s4 M4.
    apply wp_run_sys. eapply mk_write; [exact M4|apply Hq2|]. intros s5 M5.
    apply wp_run_sys. eapply mk_seek; [exact M5|apply Hq2|]. intros s6 M6.
    apply wp_run_sys. eapply mk_write; [exact M6|apply Hq2|]. intros s7 M7.
    apply wp_run_sys. eapply mk_sync; [exact M7|apply Hq2|]. intros s8 M8. apply wp_ret.
    split; [done|]. split; [apply M8|]. eapply ino_of_fds, M8.
Qed.

(** The other thread, meanwhile: it finds an empty file, removes it and creates its own. *)
Lemma second_open name key n A names fl t s1 :
  0 <= n <= MAX_DATA_BLOCKS -> has_nul name = false -> (forall u, fl u = None) ->
  making (<[name := A]> names) A (A + 1) fl t [] 0 s1 -> next_id s1 = A + 2 ->
  wp (open_or_create name key n) (fun r s2 => exists v, r = Ok v /\ file v = A + 3 /\ quiet s2 /\
    dir s2 = <[name := A + 2]> (delete name (<[name := A]> names)) /\
    data_of s2 A = Some [] /\ ino_of s2 (A + 1) = Some A) s1.
Proof.
  intros Hn Hnul Hq [D1 F1 I1 L1 _] N1. apply (wp_recreate _ _ _ _ A); [done|done| | |done|].
  - intros u. rewrite L1. apply Hq.
  - rewrite D1. apply lookup_insert_eq.
  - intros s2 s3 (D2 & F2 & I2 & X2 & _ & L2 & _) (D3 & [O3 _] & L3 & I3 & F3). cbn in D2, F2, I2, X2, L2.
    assert (next_id s2 = A + 2) as X by lia. eexists. split; [done|]. split; [cbn; lia|].
    split; [intros u; rewrite L3, L2, L1; apply Hq|]. split; [by rewrite D3, D2, X, D1|].
    split; [rewrite I3, I2 by lia; exact I1|]. rewrite F3, F2 by lia. by eapply ino_of_fds.
Qed.

(** The volume of the thread that comes second is closed. *)
Lemma drop_frame v s :
  exists s', run (sc_drop_volume v) s = Done tt s' /\ dir s' = dir s /\
    forall fd, fd <> file v -> ino_of s' fd = ino_of s fd.
Proof.
  assert (exists r s1, sync_all (file v) s = Done r s1 /\ dir s1 = dir s /\ fds s1 = fds s) as (r & s1 & E & D & F).
  { unfold sync_all, on_fd, syscall. cbn. repeat case_match; by eexists _, _. }
  unfold sc_drop_volume. rewrite run_bind. erewrite bind_done by (rewrite run_act; exact E). rewrite run_act.
  eexists. split; [reflexivity|]. split; [done|]. intros fd Hfd. unfold ino_of. cbn. by rewrite lookup_delete_ne, F.
Qed.

(** ** The thread around [open_or_create] *)

Abbreviation lift_fs := (lift (fun B => zoom (A := B) kfs_lens)).

Definition after_open (q : kprog (result VirtualVolume)) : kprog (list reply) :=
  r ← mt_num (r ← q; match r with Err _ => mret 3 | Ok vault => sc_set_VFS vault;; mret 0 end);
  rs ← mret []; mret (r :: rs).

Lemma thread_opens a h path name key n :
  from_utf8 path = Some name -> lenZ path <> 0 -> 32 <= lenZ key ->
  sc_thread_of_all a h [InitVirtualVolume (Some path) (Some key) n] =
    after_open (lift_fs (sc_open_or_create name (takeZ 32 key) n)).
Proof.
  intros Hu Hl Hk. cbn [sc_thread_of_all sc_thread_of]. unfold sc_init_virtual_volume.
  destruct (Z.eqb_spec (lenZ path) 0); [done|]. destruct (Z.ltb_spec (lenZ key) 32); [lia|]. cbn [orb]. by rewrite Hu.
Qed.
Lemma open_psteps p s p' s' k :
  psteps p s p' s' -> k_fs k = s -> psteps (after_open (lift_fs p)) k (after_open (lift_fs p')) (with_k_fs s' k).
Proof. intros Hp Hk. do 3 apply psteps_bind. by apply (psteps_lift kfs_lens _ _ s); [apply kfs_laws|..]. Qed.
(** The first thread sets the vault. *)
Lemma first_psteps v k :
  VFS k = None -> psteps (after_open (Ret (Ok v))) k (Ret [RNum 0]) (with_VFS (Some (v, false)) k).
Proof. intros E. eapply psteps_act; [unfold try_set; by rewrite E|]. apply psteps_refl. Qed.
(** The second one is told the same. *)
Lemma second_psteps v w k :
  VFS k = Some w -> exists s', psteps (after_open (Ret (Ok v))) k (Ret [RNum 0]) (with_k_fs s' k) /\
    dir s' = dir (k_fs k) /\ forall fd, fd <> file v -> ino_of s' fd = ino_of (k_fs k) fd.
Proof.
  intros E. destruct (drop_frame v (k_fs k)) as (s' & Er & Hd & Hf). exists s'. split; [|done].
  assert (psteps (L := mutex) (lift_fs (sc_drop_volume v)) k (Ret tt) (with_k_fs s' k)) as Hp.
  { apply (psteps_lift kfs_lens _ (Ret tt) (k_fs k)); [apply kfs_laws|by apply psteps_run|done]. }
  eapply psteps_act; [unfold try_set; by rewrite E|].
  apply (psteps_bind _ (fun _ : unit => mret 0)) in Hp. apply (psteps_bind _ (fun n => mret (RNum n))) in Hp.
  apply (psteps_bind _ (fun r => rs ← mret []; mret (r :: rs))) in Hp. exact Hp.
Qed.

(** [fd] is open on a file that no path leads to. *)
Definition nameless (fd : Z) (s : fs) : Prop :=
  exists ino, ino_of s fd = Some ino /\ forall q, dir s !! q <> Some ino.

(** [C17] Two opens at once lose the vault: when two threads call [init_virtual_volume] for the
    same path, where there is no file yet, and the second runs while the file of the first
    has length 0, both calls return 0, but the vault in use is a file without a name: the
    second thread has removed it.  Everything written from then on is lost when the
    process ends. *)
Theorem open_race a h path name key key' n n' k :
  from_utf8 path = Some name -> lenZ path <> 0 -> 32 <= lenZ key -> 32 <= lenZ key' ->
  0 <= n <= MAX_DATA_BLOCKS -> 0 <= n' <= MAX_DATA_BLOCKS -> VFS k = None ->
  has_nul name = false -> quiet (k_fs k) -> dir (k_fs k) !! name = None ->
  (forall q i, dir (k_fs k) !! q = Some i -> i < next_id (k_fs k)) ->
  exists c v,
    reachable k (sc_app a h [[InitVirtualVolume (Some path) (Some key) n]; [InitVirtualVolume (Some path) (Some key') n']]) c /\
    pool c = [Finished [RNum 0]; Finished [RNum 0]] /\
    VFS (shared c) = Some (v, false) /\ nameless (file v) (k_fs (shared c)).
Proof.
  intros Hu Hl Hk Hk' Hn Hn' Hv Hnul Hq Hd Hold. set (s := k_fs k) in *. set (A := next_id s).
  destruct (create_halves name (takeZ 32 key) n s) as (p & s1 & P1 & N1 & (t & M1) & Hrest); [done..|].
  pose proof (second_open name (takeZ 32 key') n' A (dir s) (faults s) t s1 Hn' Hnul Hq M1 N1) as W.
  apply wp_inv in W as (r & s2 & E2 & vB & -> & FB & Q2 & D2 & I2 & O2).
  unfold ino_of in O2. apply fmap_Some in O2 as ([i pos] & O2 & Hi). simpl in Hi. subst i.
  destruct (wp_inv _ _ _ (Hrest (dir s2) pos s2 Q2 ltac:(by split))) as (r & s3 & E3 & -> & D3 & O3).
  set (vA := fresh_volume (next_id s + 1) name (takeZ 32 key) n) in *.
  destruct (second_psteps vB (vA, false) (with_VFS (Some (vA, false)) (with_k_fs s3 k)) eq_refl) as (s4 & P4 & D4 & O4).
  pose (pB := lift_fs (sc_open_or_create name (takeZ 32 key') n') : kprog _).
  assert (rtc step (start k (sc_app a h [[InitVirtualVolume (Some path) (Some key) n]; [InitVirtualVolume (Some path) (Some key') n']]))
    (Config (with_k_fs s1 k) [] [Running [] (after_open (lift_fs p)); Running [] (after_open pB)])) as R1.
  { unfold start, sc_app. cbn [fmap list_fmap]. rewrite !(thread_opens a h path name) by done.
    eapply (psteps_move 0%nat []); [exact (open_psteps _ _ _ _ k P1 eq_refl)|done..]. }
  assert (rtc step (Config (with_k_fs s1 k) [] [Running [] (after_open (lift_fs p)); Running [] (after_open pB)])
    (Config (with_k_fs s2 k) [] [Running [] (after_open (lift_fs p)); Running [] (after_open (Ret (Ok vB)))])) as R2.
  { rewrite <- run_open_or_create in E2. apply psteps_run in E2.
    eapply (psteps_move 1%nat []); [exact (open_psteps _ _ _ _ (with_k_fs s1 k) E2 eq_refl)|done..]. }
  assert (rtc step (Config (with_k_fs s2 k) [] [Running [] (after_open (lift_fs p)); Running [] (after_open (Ret (Ok vB)))])
    (Config (with_VFS (Some (vA, false)) (with_k_fs s3 k)) [] [Running [] (Ret [RNum 0]); Running [] (after_open (Ret (Ok vB)))])) as R3.
  { apply psteps_run in E3. pose proof (open_psteps _ _ _ _ (with_k_fs s2 k) E3 eq_refl) as P.
    pose proof (psteps_trans _ _ _ _ _ _ P (first_psteps vA (with_k_fs s3 k) Hv)) as P'.
    eapply (psteps_move 0%nat []); [exact P'|done..]. }
  exists (Config (with_k_fs s4 (with_VFS (Some (vA, false)) (with_k_fs s3 k))) [] [Finished [RNum 0]; Finished [RNum 0]]), vA. split; [|split; [done|]].
  - unfold reachable. etrans; [exact R1|]. etrans; [exact R2|]. etrans; [exact R3|].
    eapply rtc_l; [by exists 0%nat|]. 
    etrans; [eapply (psteps_pool _ _ _ _ 1%nat []); [exact P4|done..]|].
    apply rtc_once. by exists 1%nat.
  - cbn. split; [done|]. exists A. split; [rewrite O4 by (cbn; lia); exact O3|].
    intros q. rewrite D4. cbn. rewrite D3, D2. destruct (decide (q = name)) as [->|Hne].
    + rewrite lookup_insert_eq. intros [=]. lia.
    + rewrite lookup_insert_ne, lookup_delete_ne, lookup_insert_ne by done. intros Hq'. apply Hold in Hq'. lia.
Qed.
End open_race.

(** * A write after the purge *)

Section purge_race.
Context `{HP : Primitives} `{HB : BuildProfile} `{HOk : !PrimitivesOk HP}.

(** [freeze_timestamps] needs only that the path names a file. *)
Lemma freeze_named e ino :
  healthy e ino -> is_Some (data_of (e_fs e) ino) ->
  wp freeze_timestamps (fun r e' => r = Ok tt /\ e_vol e' = e_vol e /\ e_rng e' = e_rng e /\ keeps_data (e_fs e) (e_fs e')) e.
Proof.
  intros (Hf & Hn & Hd) [d Hi]. apply fmap_Some in Hi as (nd & Hi & _).
  assert (forall s, keeps_data (e_fs e) s -> inodes s = inodes (e_fs e) ->
    ~ (faulty s \/ has_nul (vault_path (e_vol e)) = true \/ dir s !! vault_path (e_vol e) ≫= (fun i => inodes s !! i) = None)) as Hok.
  { intros s (D & _ & _ & _ & _ & L & _) I [[u E]|[E|E]]; [by rewrite L, Hf in E|congruence|].
    rewrite D, I, Hd in E. simpl in E. congruence. }
  unfold freeze_timestamps. apply wp_bind. cbn. apply wp_bind, wp_zoom. simpl. apply wp_metadata.
  - intros s1 i nd1 K1 I1 _ _ _ _. apply wp_try; [|done]. intros ? [= <-]. rewrite Hn. apply wp_zoom. simpl. apply wp_utimes.
    + intros s2 i2 nd2 K2 _ _ _. split_and!; try done. by eapply keeps_data_trans.
    + intros err s2 K2 Hwhy. by destruct (Hok s1 K1 I1).
  - intros err s1 K1 I1 Hwhy. by destruct (Hok (e_fs e) (keeps_data_refl _) eq_refl).
Qed.

(** A block written to a file of length 0 comes after a gap of zeros. *)
Lemma write_empty off n c : 0 <= off -> write_at (off + lenZ n) c (write_at off n []) = repZ off 0 ++ n ++ c.
Proof.
  intros Ho. pose proof (lenZ_nonneg n). pose proof (lenZ_nonneg c).
  assert (write_at off n [] = repZ off 0 ++ n) as ->.
  { unfold write_at. rewrite lenZ_nil, Z.sub_0_r. unfold takeZ, dropZ. by rewrite take_nil, drop_nil, app_nil_r. }
  unfold write_at. rewrite takeZ_all, dropZ_all by len_lia. replace (off + lenZ n - lenZ (repZ off 0 ++ n)) with 0 by len_lia.
  change (repZ 0 0) with (@nil Z). by rewrite app_nil_l, app_nil_r, <- app_assoc.
Qed.

Lemma slice_gap off n (raw : bytes) : 0 <= off -> lenZ raw = n -> slice off (off + n) (repZ off 0 ++ raw) = raw.
Proof.
  intros Ho <-. unfold slice. replace (off + lenZ raw - off) with (lenZ raw) by lia.
  rewrite dropZ_app_exact by (rewrite lenZ_repZ; lia). by apply takeZ_all.
Qed.

Lemma wp_write_short e ino i p :
  open_on (e_fs e) (file (e_vol e)) ino [] -> healthy e ino -> mem_sane (e_vol e) -> in_vault (e_vol e) i ->
  lenZ p = PAYLOAD_SIZE ->
  wp (write_block i p) (fun r e' => r = Ok tt /\ e_vol e' = e_vol e /\ dir (e_fs e') = dir (e_fs e) /\
    exists raw, data_of (e_fs e') ino = Some (repZ (i * BLOCK_SIZE) 0 ++ raw) /\ seals (e_vol e) i p raw) e.
Proof using HOk.
  intros Ho Hh Hv Hi Hp. unfold write_block. apply wp_bind. eapply wp_done; [apply check_eval|].
  rewrite bool_decide_true by done. cbn [try_bind]. apply wp_bind; cbn. apply wp_bind; cbn.
  set (nonce := (fill_bytes NONCE_SIZE (e_rng e)).1).
  assert (lenZ nonce = NONCE_SIZE) as Hn by (by apply fill_len). set (key := derive_block_key _ i).
  destruct (aead_total chacha_ok key nonce [] p) as [c Ec]; [apply derive_block_key_len|done|vlia|done|]. cbn in Ec. rewrite Ec.
  pose proof (aead_len chacha_ok _ _ [] _ _ Ec) as Hc.
  apply wp_bind, wp_debug_assert; [apply Z.eqb_eq; vlia|]. apply wp_bind, wp_chk_u; [by eapply offset_u64|].
  assert (forall s, faults s = faults (e_fs e) -> ~ faulty s) as Hnf by (intros s L [u E]; destruct Hh as [Hf _]; by rewrite L, Hf in E).
  assert (seals (e_vol e) i p (nonce ++ c)) as Hseal.
  { split; [vlen_lia|]. unfold open_block. rewrite takeZ_app_exact, dropZ_app_exact by done.
    exact (aead_open chacha_ok _ _ [] _ _ Ec). }
  destruct Ho as [Hfd Hdat].
  apply wp_bind, wp_zoom. cbn. apply (wp_seek _ ino _ _ []); [done| |by intros s' ?%Hnf].
  intros nd s1 -> Hnd Hd1. apply wp_try; [|done]. intros u _.
  apply wp_bind, wp_zoom. cbn [lget fs_lens e_fs with_fs]. eapply (wp_write_all _ ino _ _ _ []); [apply fd_update_pos| | |by intros j s' ?%Hnf].
  { rewrite <- Hd1. by apply fd_update_open. }
  intros t1 o1 s2 ->. apply wp_try; [|done]. intros u2 _.
  apply wp_bind, wp_zoom. cbn [lget fs_lens e_fs with_fs]. eapply (wp_write_all _ ino _ _ _ (write_at (i * BLOCK_SIZE) nonce [])); [apply fd_update_pos| | |by intros j s' ?%Hnf].
  { eapply (fd_update_open _ _ _ (Inode _ _ _ _)). by apply fd_update_open. }
  intros t2 o2 s3 ->. apply wp_try; [|done]. intros u3 _. rewrite write_empty by (unfold in_vault in Hi; vlia).
  match goal with |- wp _ _ ?e4 => assert (e_vol e4 = e_vol e /\ dir (e_fs e4) = dir (e_fs e) /\
    faults (e_fs e4) = faults (e_fs e) /\ data_of (e_fs e4) ino = Some (repZ (i * BLOCK_SIZE) 0 ++ nonce ++ c)) as (V & D & L & I);
    [do 3 (split; [done|])|generalize dependent e4] end.
  { cbn [e_fs lput fs_lens with_fs]. unfold data_of, fd_update. cbn [inodes set_pos set_inode with_inodes with_fds]. by rewrite lookup_insert_eq. }
  intros e4 V D L I. apply wp_bind. eapply wp_mono; [apply (freeze_named e4 ino); [|by eexists]|].
  { unfold healthy. by rewrite V, D, L. }
  intros r e5 (-> & V5 & _ & K). apply wp_ret. rewrite V5, (keeps_data_dir _ _ K). split_and!; [done..|].
  exists (nonce ++ c). destruct K as (_ & _ & K & _). by rewrite K.
Qed.

(** ** The thread around [purge_entire_vault] *)

Definition after_purge (h : bool) (q : kprog (result unit)) : kprog (list reply) :=
  r ← mt_num (r ← q; match r with Ok _ => act (execute_panic_exit h) | Err _ => mret 3 end);
  rs ← mret []; mret (r :: rs).

Lemma thread_purges a h path name :
  from_utf8 path = Some name -> lenZ path <> 0 ->
  sc_thread_of_all a h [PurgeVault (Some path)] =
    after_purge h (lift (fun B => zoom (A := B) wipe_lens) (sc_purge_entire_vault name)).
Proof.
  intros Hu Hl. cbn [sc_thread_of_all sc_thread_of]. unfold sc_purge_vault.
  destruct (Z.eqb_spec (lenZ path) 0); [done|]. by rewrite Hu.
Qed.
Lemma exit_step h (k : kernel) t :
  exists c', step (Config k [] [Running [] (after_purge h (Ret (Ok tt))); t]) c' /\ shared c' = k /\ pool c' = [Crashed; Crashed].
Proof. destruct h; eexists; (split; [by exists 0%nat|done]). Qed.

(** The one-block write on the truncated file, as a call. *)
Lemma exec_write_short a h k v ino i p :
  VFS k = Some (v, false) -> open_on (k_fs k) (file v) ino [] -> healthy (env_of v k) ino -> mem_sane v ->
  in_vault v i -> lenZ p = PAYLOAD_SIZE ->
  wp (exec_all a h [WriteVaultBlocks i 1 (Some p)]) (fun rs k' => rs = [RNum 1] /\ dir (k_fs k') = dir (k_fs k) /\
    exists raw, data_of (k_fs k') ino = Some (repZ (i * BLOCK_SIZE) 0 ++ raw) /\ seals v i p raw) k.
Proof using HOk.
  intros Hv Ho Hh Hs Hi Hp. cbn [exec_all exec]. apply wp_bind. unfold num. apply wp_bind. cbn [write_vault_blocks Z.eqb].
  eapply wp_with_vault; [exact Hv|]. change (seqZ 0 1) with [0]. cbn [write_blocks].
  apply wp_bind, wp_chk_u; [unfold in_vault in Hi; destruct (sane_total _ Hs); unfold is_u; vlia|].
  rewrite Z.add_0_r. replace (slice _ _ p) with p by (unfold slice; by rewrite dropZ_0, takeZ_all by lia).
  apply wp_bind. eapply wp_mono; [by apply (wp_write_short (env_of v k) ino)|].
  intros r e (-> & V & D & raw & I & S). apply wp_ret, wp_ret, wp_bind, wp_ret, wp_ret.
  split; [done|]. split; [exact D|]. by exists raw.
Qed.

(** The file at the vault's path holds [p], sealed under the master key, in block [i]. *)
Definition still_holds (v : VirtualVolume) (i : Z) (p : bytes) (s : fs) : Prop :=
  exists ino d, dir s !! vault_path v = Some ino /\ data_of s ino = Some d /\ block_holds v d i = Some p.

(** [C18] A write survives the purge: when one thread purges the vault in use and another writes
    a block after the file has been truncated and before the process ends, the write
    reports success, and what the process leaves behind, under the vault's path, is a file
    with that block in it, which opens with the master key. *)
Theorem purge_race a h path i p k v ino d :
  vault_live k v ino d -> file v < next_id (k_fs k) -> from_utf8 path = Some (vault_path v) -> lenZ path <> 0 ->
  in_data v i -> lenZ p = PAYLOAD_SIZE ->
  exists c c', reachable k (sc_app a h [[PurgeVault (Some path)]; [WriteVaultBlocks i 1 (Some p)]]) c /\
    pool c !! 1%nat = Some (Finished [RNum 1]) /\ step c c' /\ pool c' = [Crashed; Crashed] /\
    still_holds v i p (k_fs (shared c')).
Proof using HOk.
  intros [Hv Hat Hh] Hfd Hu Hl Hi Hp. destruct Hh as (Hq & Hnul & Hdir). cbn in Hq, Hnul, Hdir.
  destruct (vol_open _ _ _ Hat) as [Ho Hd]. cbn in Ho, Hd.
  destruct (wp_inv _ _ _ (wp_purge (vault_path v) ino (WipeEnv (k_fs k) (k_rng k)) d Hdir Hd Hnul))
    as (r & e & E & H1 & H2 & H3 & _ & H5 & H6). cbn in H2, H3, H5, H6.
  specialize (H2 Hq) as ->. specialize (H1 eq_refl). set (k1 := lput wipe_lens e k).
  assert (wp (exec_all a h [WriteVaultBlocks i 1 (Some p)]) (fun rs k' => rs = [RNum 1] /\ dir (k_fs k') = dir (k_fs k1) /\
    exists raw, data_of (k_fs k') ino = Some (repZ (i * BLOCK_SIZE) 0 ++ raw) /\ seals v i p raw) k1) as W.
  { apply exec_write_short; [done| | |apply mem_ok_sane, Hat|exact Hi|done].
    - split; [|exact H1]. cbn. rewrite H5 by lia. exact Ho.
    - split_and!; cbn; [by rewrite H6|done|by rewrite H3]. }
  apply wp_inv in W as (rs & k2 & E2 & -> & D2 & raw & I2 & S2).
  pose (pB := sc_thread_of_all a h [WriteVaultBlocks i 1 (Some p)]).
  assert (rtc step (start k (sc_app a h [[PurgeVault (Some path)]; [WriteVaultBlocks i 1 (Some p)]]))
    (Config k1 [] [Running [] (after_purge h (Ret (Ok tt))); Running [] pB])) as R1.
  { unfold start, sc_app. cbn [fmap list_fmap]. rewrite (thread_purges a h path (vault_path v)) by done.
    rewrite <- run_purge in E. apply psteps_run in E.
    eapply (psteps_move 0%nat []); [|done..]. do 3 apply psteps_bind.
    by apply (psteps_lift wipe_lens _ (Ret (Ok tt)) _ _ k wipe_laws E). }
  destruct (run_alone mutex_rank 1 pB (Config k1 [] [Running [] (after_purge h (Ret (Ok tt))); Running [] pB]) [] [RNum 1] k2)
    as [sched R2%run_schedule_steps]; [done|done| | | |].
  { intros [|[|j]] t Hj Ht; [by simplify_eq/=|done|done]. }
  { eapply ordered_mono; [apply tidy_sc_thread_of_all|done]. }
  { unfold pB. by rewrite run_sc_thread_of_all. }
  destruct (exit_step h k2 (Finished [RNum 1])) as (c' & R3 & Ek & Ep).
  exists (Config k2 [] [Running [] (after_purge h (Ret (Ok tt))); Finished [RNum 1]]), c'. rewrite Ek.
  split; [unfold reachable; by etrans|]. split_and!; [done..|]. exists ino, (repZ (i * BLOCK_SIZE) 0 ++ raw).
  split; [rewrite D2; cbn; by rewrite H3|]. split; [done|]. destruct S2 as [Hraw S2]. unfold block_holds, disk_block.
  rewrite slice_gap; [done|destruct Hi; vlia|done].
Qed.
End purge_race.

(** * Examples *)

Lemma open_race_witness :
  exists c, reachable (kernel_init (HP := toy) empty_fs 0)
      (sc_app (HP := toy) (HB := true) (fun _ => true) false
        [[InitVirtualVolume (Some [118]) (Some (repZ 32 1)) 4]; [InitVirtualVolume (Some [118]) (Some (repZ 32 2)) 4]]) c /\
    pool c = [Finished [RNum 0]; Finished [RNum 0]].
Proof.
  destruct (open_race (HP := toy) (HB := true) (fun _ => true) false [118] "v" (repZ 32 1) (repZ 32 2) 4 4 (kernel_init (HP := toy) empty_fs 0)
    eq_refl ltac:(done) ltac:(done) ltac:(done) ltac:(vlia) ltac:(vlia) eq_refl eq_refl ltac:(done) eq_refl) as (c & v & H1 & H2 & _).
  - intros q i Hq. cbn in Hq. by rewrite lookup_empty in Hq.
  - by exists c.
Defined.

Lemma purge_race_witness :
  exists c c', reachable kdemo (sc_app (HP := toy) (HB := true) (fun _ => true) false
      [[PurgeVault (Some [118])]; [WriteVaultBlocks 9 1 (Some (repZ PAYLOAD_SIZE 5))]]) c /\
    step c c' /\ pool c' = [Crashed; Crashed].
Proof.
  destruct (purge_race (HP := toy) (HB := true) (fun _ => true) false [118] 9 (repZ PAYLOAD_SIZE 5) kdemo (volume_of 991) 1 (volume_data 991)
    kdemo_live ltac:(done) eq_refl ltac:(done) ltac:(unfold in_data; cbn; vlia) (lenZ_repZ PAYLOAD_SIZE 5))
    as (c & c' & H1 & _ & H3 & H4 & _).
  exists c, c'. auto.
Defined.
