(* ===== verification/Linear.v ===== *)
(** Concurrent calls that take effect at one point.

    The exported calls on the vault, the message counter, the epoch, the published KEM
    ciphertext and the message functions have one step that reads or writes the statics
    ([atomic_call]).  [astep] is the machine in which every call is one step, [exec].  Every
    interleaving of threads making such calls is a run of that machine ([calls_linearize]): the
    calls behave as if they were made one after the other, in the order of those steps.
    The two last theorems use it: numbers and blocks are never handed out twice.
    [VaultLinear] and [Handouts] have the same at the granularity of system calls. *)
From stdpp Require Import gmap.
From S2P Require Import Prelude Effects Threads Crypto MemoryProtection RootState AntiDos TailPadding MessageCipher Evolution StdFs VolumeLayout VirtualVolume VolumeProofs VolumeBlocks VolumeAlloc VolumeTotal ClockAlign DiskWipe Kernel KernelProofs InitModule Ffi Exports Locks Concurrency Interleavings.

Definition atomic_call (c : call) : Prop :=
  match c with
  | ReadVaultBlocks _ _ _ | WriteVaultBlocks _ _ _ | AllocateVaultBlock | FreeVaultBlock _
  | SecureEraseBlock _ | RegisterTouchOffset _ _ | VaultTotalBlocks | VaultFreeBlocks
  | CanarySlotsIntact | InitCanarySlots | GetEpochId | LoadIdStamp _ | MsgCounterNext | MsgCounterCurrent
  | DeriveMessageKey _ _ | EncryptMessage _ _ _ _ _ _ _ _ | DecryptMessage _ _ _ _ _ _ _ _
  | ZeroizeKey _ | AddTailPadding _ _ | StripTailPadding _ _ | KemCipherLen | GetKemCipher _
  | EstimatedClockSkew => True
  | _ => False
  end.

Section linear.
Context `{HP : Primitives} `{HB : BuildProfile} `{HOk : !PrimitivesOk HP}.
Context (a : Z -> bool) (h : bool).

(** * The atomic machine *)

(** A thread: the replies it has and the calls it still makes. *)
Definition athread : Type := list reply * list call.

Inductive astep : kernel * list athread -> kernel * list athread -> Prop :=
| astep_call i k k' ts dn c cs r :
    ts !! i = Some (dn, c :: cs) -> exec a h c k = Done r k' ->
    astep (k, ts) (k', <[i := (dn ++ [r], cs)]> ts).

(** * Programs that follow it *)

(** The statics are well formed, and there is a vault or there is none. *)
Context (V : bool).
Definition has_vault (k : kernel) : bool := match VFS k with Some _ => true | None => false end.
Definition good (k : kernel) : Prop := kernel_ok k /\ has_vault k = V.

(** A call that changes nothing and always answers the same. *)
Definition quiet_call (s s' : athread) : Prop :=
  exists dn c cs r, s = (dn, c :: cs) /\ s' = (dn ++ [r], cs) /\ forall k, good k -> exec a h c k = Done r k.

(** Every action of the program is either silent or the one step of the next call. *)
Fixpoint lin {A} (p : kprog A) (s : athread) (K : athread -> A -> Prop) : Prop :=
  exists s', rtc quiet_call s s' /\
  match p with
  | Ret x => K s' x
  | Lock _ _ p | Unlock _ p => lin p s' K
  | Act m f =>
      (forall k, good k -> exists b, m k = Done b k /\ lin (f b) s' K) \/
      (exists dn c cs, s' = (dn, c :: cs) /\
        forall k, good k -> exists b r k', m k = Done b k' /\ exec a h c k = Done r k' /\ good k' /\
          lin (f b) (dn ++ [r], cs) K)
  end.

Lemma lin_quiet {A} (p : kprog A) s s' K : rtc quiet_call s s' -> lin p s' K -> lin p s K.
Proof. intros Hs Hp. destruct p; destruct Hp as (s2 & ? & ?); exists s2; (split; [by etrans|done]). Qed.

Lemma lin_mono {A} (p : kprog A) (K K' : athread -> A -> Prop) s :
  lin p s K -> (forall s x, K s x -> K' s x) -> lin p s K'.
Proof.
  intros Hp HK. revert s Hp. induction p as [x|l q _ p IH|l p IH|B m f IH]; intros s (s' & Hs & Hp); exists s';
    (split; [done|]); [auto..|].
  destruct Hp as [Hp|(dn & c & cs & E & Hp)]; [left|right].
  - intros k Hk. destruct (Hp k Hk) as (b & ? & ?). eauto.
  - exists dn, c, cs. split; [done|]. intros k Hk. destruct (Hp k Hk) as (b & r & k' & ? & ? & ? & ?). eauto 10.
Qed.

Lemma lin_bind {A B} (p : kprog A) (f : A -> kprog B) s K :
  lin p s (fun s x => lin (f x) s K) -> lin (p ≫= f) s K.
Proof.
  revert s. induction p as [x|l q _ p IH|l p IH|C m g IH]; intros s (s' & Hs & Hp).
  - by eapply lin_quiet.
  - exists s'. split; [done|]. by apply IH.
  - exists s'. split; [done|]. by apply IH.
  - exists s'. split; [done|]. destruct Hp as [Hp|(dn & c & cs & E & Hp)]; [left|right].
    + intros k Hk. destruct (Hp k Hk) as (b & ? & ?). exists b. split; [done|]. by apply IH.
    + exists dn, c, cs. split; [done|]. intros k Hk. destruct (Hp k Hk) as (b & r & k' & ? & ? & ? & ?).
      exists b, r, k'. split_and!; [done..|]. by apply IH.
Qed.

Lemma lin_ret {A} (x : A) s (K : athread -> A -> Prop) : K s x -> lin (mret x) s K.
Proof. intros HK. exists s. done. Qed.

(** The answer [g x] of call [c], once its step has given [x]. *)
Definition answered {A} (dn : list reply) (cs : list call) (g : A -> reply) (s : athread) (x : A) : Prop :=
  s = (dn ++ [g x], cs).

(** A call that does not read the statics. *)
Lemma lin_const {A} (x : A) g dn c cs :
  (forall k, good k -> exec a h c k = Done (g x) k) -> lin (mret x) (dn, c :: cs) (answered dn cs g).
Proof.
  intros Hx. exists (dn ++ [g x], cs). split; [|done]. apply rtc_once. by exists dn, c, cs, (g x).
Qed.

(** A call whose step is the action [m]. *)
Lemma lin_act {A} (m : M kernel A) g dn c cs :
  (forall k, good k -> exists x k', m k = Done x k' /\ good k') ->
  (forall k, exec a h c k = (x ← m; mret (g x)) k) ->
  lin (act m) (dn, c :: cs) (answered dn cs g).
Proof.
  intros Hm Hx. exists (dn, c :: cs). split; [done|]. right. exists dn, c, cs. split; [done|].
  intros k Hk. destruct (Hm k Hk) as (x & k' & E & Hk'). exists x, (g x), k'. split_and!; [done| |done|].
  - rewrite Hx. by erewrite bind_done.
  - by apply lin_ret.
Qed.

Lemma lin_guarded {A} l (m : M kernel A) g dn c cs :
  (forall k, good k -> exists x k', m k = Done x k' /\ good k') ->
  (forall k, exec a h c k = (x ← m; mret (g x)) k) ->
  lin (guarded l m) (dn, c :: cs) (answered dn cs g).
Proof.
  intros Hm Hx. apply lin_bind. exists (dn, c :: cs). split; [done|]. exists (dn, c :: cs). split; [done|].
  apply lin_bind. eapply lin_mono; [by apply lin_act|]. intros s x Hs. apply lin_bind.
  exists s. split; [done|]. exists s. split; [done|]. by apply lin_ret.
Qed.

Lemma lin_vault {R} (d : R) f g dn c cs :
  sane f -> (forall k, exec a h c k = (x ← with_vault_or d f; mret (g x)) k) ->
  lin (mt_with_vault_or d f) (dn, c :: cs) (answered dn cs g).
Proof.
  intros Hf Hx. exists (dn, c :: cs). split; [done|].
  assert (V = true \/ V = false) as [EV|EV] by (destruct V; auto); [left|right].
  - intros k [Hk Hv]. exists (VFS k). split; [done|]. unfold has_vault in Hv. rewrite EV in Hv. destruct (VFS k) as [vfs|]; [|done].
    exists (dn, c :: cs). split; [done|]. apply lin_bind. eapply lin_mono; [apply lin_act; [|exact Hx]|].
    + intros k2 [Hk2 Hv2].
      destruct (wp_inv _ _ _ (keeps_vault d f Hf k2 Hk2 (room_0 _ (evo_root_ok _ (kernel_evo _ Hk2)))))
        as (x & k3 & E & H3 & _).
      exists x, k3. split; [done|]. split; [done|]. revert E Hv2. unfold with_vault_or, has_vault.
      destruct (VFS k2) as [[v p]|] eqn:E2; [|by intros [= _ <-]; rewrite E2].
      destruct p; [by intros [= _ <-]; rewrite E2|]. by destruct (f (env_of v k2)); intros [= _ <-].
    + intros s x Hs. apply lin_bind. exists s. split; [done|]. exists s. split; [done|]. by apply lin_ret.
  - exists dn, c, cs. split; [done|]. intros k [Hk Hv]. exists (VFS k), (g d), k. split; [done|].
    unfold has_vault in Hv. rewrite EV in Hv. split_and!; [|split; [done|unfold has_vault; by rewrite EV]|].
    + rewrite Hx. unfold mbind, M_bind, with_vault_or. by destruct (VFS k).
    + destruct (VFS k); [done|]. by apply lin_ret.
Qed.

(** Actions that leave the vault singleton alone and keep the statics well formed. *)
Lemma good_keeps {A} (m : M kernel A) :
  keeps 0 m -> (forall k x k', m k = Done x k' -> VFS k' = VFS k) ->
  forall k, good k -> exists x k', m k = Done x k' /\ good k'.
Proof.
  intros Hm Hv k [Hk HV].
  destruct (wp_inv _ _ _ (Hm k Hk (room_0 _ (evo_root_ok _ (kernel_evo _ Hk))))) as (x & k' & E & H & _).
  exists x, k'. split; [done|]. split; [done|]. unfold has_vault. by rewrite (Hv _ _ _ E).
Qed.

Lemma zoom_root_vfs {A} (m : M root_statics A) k x k' : zoom kroot_lens m k = Done x k' -> VFS k' = VFS k.
Proof. unfold zoom. destruct (m _); by intros [= _ <-]. Qed.
Lemma zoom_evo_vfs {A} (m : M evo_statics A) k x k' : zoom evo_lens m k = Done x k' -> VFS k' = VFS k.
Proof. unfold zoom. destruct (m _); by intros [= _ <-]. Qed.

Lemma good_root {A} (m : M root_statics A) : keeps 0 (zoom kroot_lens m) ->
  forall k, good k -> exists x k', zoom kroot_lens m k = Done x k' /\ good k'.
Proof. intros Hm. apply good_keeps; [done|]. apply zoom_root_vfs. Qed.

Lemma lin_num (p : kprog Z) dn c cs :
  lin p (dn, c :: cs) (answered dn cs RNum) -> lin (mt_num p) (dn, c :: cs) (answered dn cs (fun r => r)).
Proof. intros Hp. apply lin_bind. eapply lin_mono; [exact Hp|]. intros s n ->. by apply lin_ret. Qed.

(** The tail of a call: what is left is computed from the answer. *)
Lemma lin_then {A} (p : kprog A) (f : A -> reply) dn c cs :
  lin p (dn, c :: cs) (answered dn cs f) ->
  lin (x ← p; mret (f x)) (dn, c :: cs) (answered dn cs (fun r => r)).
Proof. intros Hp. apply lin_bind. eapply lin_mono; [exact Hp|]. intros s n ->. by apply lin_ret. Qed.

(** A call that may change the random generator. *)
Lemma good_rng x k : good k -> good (with_k_rng x k).
Proof. intros [Hk HV]. split; [by apply kernel_ok_rng|done]. Qed.

Lemma lin_read_vault start n out dn cs :
  is_u 64 start -> is_u 32 n ->
  lin (mt_read_vault_blocks start n out) (dn, ReadVaultBlocks start n out :: cs)
    (answered dn cs (fun r => RMem r.1 r.2)).
Proof using HOk.
  intros Hs Hn. unfold mt_read_vault_blocks. destruct out as [out|]; [|by apply lin_const].
  destruct (n =? 0) eqn:En; [by apply lin_const; intros; cbn [exec]; unfold read_vault_blocks; rewrite En|].
  apply lin_bind. eapply lin_mono; [apply (lin_vault _ _ (fun x => RMem x.1 (Some x.2)))|].
  - intros e He. rewrite <- (Z2Nat.id n) by apply Hn. apply sane_read_blocks; [by rewrite Z.add_0_r|done].
  - intros k. cbn [exec]. unfold read_vault_blocks. rewrite En. by rewrite bind_assoc.
  - intros s x ->. by apply lin_ret.
Qed.

Lemma lin_write_vault start n data dn cs :
  is_u 64 start -> is_u 32 n -> (forall d, data = Some d -> lenZ d = n * PAYLOAD_SIZE) ->
  lin (mt_write_vault_blocks start n data) (dn, WriteVaultBlocks start n data :: cs) (answered dn cs RNum).
Proof using HOk.
  intros Hs Hn Hd. unfold mt_write_vault_blocks. destruct data as [data|]; [|by apply lin_const].
  destruct (n =? 0) eqn:En; [by apply lin_const; intros; cbn [exec]; unfold num, write_vault_blocks; rewrite En|].
  apply lin_vault; [|intros k; cbn [exec]; unfold num, write_vault_blocks; by rewrite En].
  intros e He. unfold is_u in Hn. pose proof (sane_write_blocks start data n (Z.to_nat n) 0 0 e (Hd data eq_refl)) as H.
  rewrite Z2Nat.id in H by lia. apply H; [lia|lia|by rewrite Z.add_0_r|done].
Qed.

Lemma lin_load out dn cs :
  lin (mt_load_id_stamp out) (dn, LoadIdStamp out :: cs) (answered dn cs (fun r => RMem r.1 r.2)).
Proof using HOk.
  unfold mt_load_id_stamp. destruct out as [o|]; [|by apply lin_const].
  destruct (lenZ o <? 32) eqn:Eo; [by apply lin_const; intros; cbn [exec]; unfold load_id_stamp; rewrite Eo|].
  apply lin_bind. eapply lin_mono.
  - apply (lin_vault _ _ (fun r => if negb (r.1 =? 0) then RMem 1 (Some o) else RMem 0 (Some (splice 0 (takeZ 32 r.2) o)))).
    + apply sane_result, sane_read_block.
    + intros k. cbn [exec]. unfold load_id_stamp, read_id_stamp. rewrite Eo, !bind_assoc. apply bind_ext.
      intros r k'. by destruct (negb _).
  - intros s r ->. by destruct (negb _); apply lin_ret.
Qed.

Lemma exec_derive e q k :
  exec a h (DeriveMessageKey e q) k = Done (RNative None None
    (match allocate_native_buffer a 32 with None => Null | Some _ => Buffer (message_key (root_curr (k_root k)) e q) end)) k.
Proof using HOk.
  cbn [exec]. unfold ffi_derive_message_key, mbind, M_bind, zoom. cbn [lget lput kroot_lens].
  rewrite derive_message_key_eval. by destruct k as [[]].
Qed.

Lemma lin_derive e q dn cs :
  lin (mt_derive_message_key e q) (dn, DeriveMessageKey e q :: cs)
    (answered dn cs (fun key => RNative None None
      (match allocate_native_buffer a 32 with None => Null | Some _ => Buffer key end))).
Proof using HOk.
  apply lin_bind. eapply lin_mono.
  - apply (lin_guarded _ _ (fun curr => RNative None None
      (match allocate_native_buffer a 32 with None => Null | Some _ => Buffer (message_key curr e q) end))).
    + apply good_root, keeps_read.
    + intros k. rewrite exec_derive. unfold mbind, M_bind, read_root_state_curr. by rewrite root_read.
  - intros s curr ->. eexists. split; [done|]. left. intros k Hk.
    exists (message_key curr e q). split; [apply derive_from_root_eval|]. by apply lin_ret.
Qed.

(** A call that is one action on its own. *)
Lemma lin_exec c dn cs :
  (forall k, exists r x, exec a h c k = Done r (with_k_rng x k)) ->
  lin (act (exec a h c)) (dn, c :: cs) (answered dn cs (fun r => r)).
Proof.
  intros Hc. apply lin_act.
  - intros k Hk. destruct (Hc k) as (r & x & E). exists r, (with_k_rng x k). split; [done|]. by apply good_rng.
  - intros k. unfold mbind, M_bind. by destruct (exec a h c k).
Qed.
Lemma rng_kept (k : kernel) (r : reply) : exists r' x, Done r k = Done r' (with_k_rng x k).
Proof. exists r, (ev_rng (k_evo k)). by rewrite rng_same. Qed.

Lemma lin_get_kem out dn cs :
  lin (mt_ffi_get_kem_cipher out) (dn, GetKemCipher out :: cs) (answered dn cs (fun r => RMem r.1 r.2)).
Proof.
  unfold mt_ffi_get_kem_cipher. destruct out as [o|]; [|by apply lin_const].
  destruct (lenZ o =? 0) eqn:Eo; [by apply lin_const; intros; cbn [exec]; unfold ffi_get_kem_cipher; rewrite Eo|].
  apply lin_bind. eapply lin_mono.
  - apply (lin_guarded _ _ (fun r => if r.1 =? 0 then RMem 1 (Some o) else RMem (as_u32 r.1) (Some (splice 0 (takeZ r.1 r.2) o)))).
    + intros k [Hk HV]. destruct (get_kem_returns (repZ (lenZ o) 0) (k_evo k)) as [r E]. exists r, k.
      split; [|done]. unfold zoom. cbn [lget lput evo_lens]. rewrite E. by destruct k.
    + intros k. cbn [exec]. unfold ffi_get_kem_cipher. rewrite Eo, bind_assoc. apply bind_ext.
      intros [n buf] k'. cbn [fst snd]. by destruct (n =? 0).
  - intros s [n buf] ->. cbn [fst snd]. by destruct (n =? 0); apply lin_ret.
Qed.

Lemma lin_thread_of c dn cs :
  call_ok c -> atomic_call c -> lin (thread_of a h c) (dn, c :: cs) (answered dn cs (fun r => r)).
Proof using HOk.
  intros Hc Ha. destruct c; cbn [atomic_call call_ok thread_of] in *; try (lazymatch type of Ha with False => destruct Ha end).
  - destruct Hc. by apply lin_then, lin_read_vault.
  - destruct Hc as (? & ? & ?). by apply lin_num, lin_write_vault.
  - apply lin_num, lin_vault; [apply sane_result, sane_allocate|done].
  - apply lin_num, lin_vault; [apply sane_result, sane_free_block|done].
  - apply lin_num, lin_vault; [apply sane_erase|done].
  - apply lin_num, lin_vault; [apply sane_result, sane_ret|done].
  - apply lin_num, lin_vault; [apply sane_gets|done].
  - apply lin_num, lin_vault; [apply sane_gets|done].
  - apply lin_num, lin_act; [|done]. intros k Hk. by eexists _, k.
  - apply lin_num, lin_vault; [|done]. apply sane_bind; [apply sane_reserve_all|]. intros _. apply sane_write_canaries.
  - apply lin_num, lin_guarded; [apply good_root, keeps_read|done].
  - apply lin_then, lin_load.
  - apply lin_num, lin_act; [|done]. apply good_root, keeps_root. intros s Hs _.
    eapply wp_done; [reflexivity|]. split; [|simpl; lia]. apply root_ok_counter; [done|]. apply Z.mod_pos_bound. lia.
  - apply lin_num, lin_act; [|done]. apply good_root, keeps_read.
  - apply (lin_then (mt_derive_message_key epoch msg_seq)), lin_derive.
  - apply lin_exec. intros k. apply rng_kept.
  - apply lin_exec. intros k. apply rng_kept.
  - apply lin_exec. intros k. apply rng_kept.
  - apply lin_exec. apply padding_rng.
  - apply lin_exec. intros k. destruct (strip_pure a h data out_len) as [r E]. rewrite E. apply rng_kept.
  - apply (lin_then mt_kem_cipher_len (fun n => RNum (as_u32 n))). apply lin_guarded; [|intros; cbn [exec]; unfold num, ffi_kem_cipher_len; by rewrite bind_assoc].
    apply good_keeps; [apply keeps_evo; intros s Hs; by eapply wp_done|apply zoom_evo_vfs].
  - apply lin_then, lin_get_kem.
  - apply lin_num, lin_act; [|done]. intros k Hk. exists (ESTIMATED_SKEW (k_clock k)), k. by destruct k.
Qed.

Definition atomic_thread (cs : list call) : Prop := Forall (fun c => call_ok c /\ atomic_call c) cs.

Lemma lin_thread_of_all cs : forall dn,
  atomic_thread cs -> lin (thread_of_all a h cs) (dn, cs) (fun s rs => s = (dn ++ rs, [])).
Proof using HOk.
  induction cs as [|c cs IH]; intros dn Hcs; [apply lin_ret; by rewrite app_nil_r|].
  apply Forall_cons in Hcs as [[Hc Ha] Hcs]. cbn [thread_of_all]. apply lin_bind.
  eapply lin_mono; [by apply lin_thread_of|]. intros s r ->. apply lin_bind.
  eapply lin_mono; [by apply IH|]. intros s rs ->. apply lin_ret. by rewrite <- app_assoc.
Qed.

(** * The simulation *)

Definition follows (s : athread) (t : thread mutex kernel (list reply)) : Prop :=
  match t with
  | Running _ p => lin p s (fun s rs => s = (rs, []))
  | Finished rs => s = (rs, [])
  | Crashed => False
  end.

Lemma quiet_asteps i k s s' : good k -> rtc quiet_call s s' ->
  forall ts, ts !! i = Some s -> rtc astep (k, ts) (k, <[i := s']> ts).
Proof.
  intros Hk Hs. induction Hs as [s|s s1 s2 (dn & c & cs & r & -> & -> & Hc) _ IH]; intros ts Hi.
  - by rewrite list_insert_id.
  - eapply rtc_l; [by eapply astep_call; [|apply Hc]|]. rewrite <- (list_insert_insert_eq ts i s2 (dn ++ [r], cs)).
    apply IH. apply list_lookup_insert_eq. by eapply lookup_lt_Some.
Qed.

Record simulated (c : config mutex kernel (list reply)) (ts : list athread) : Prop := {
  sim_good : good (shared c);
  sim_clean : poisoned c = [];
  sim_pool : Forall2 follows ts (pool c);
}.

Lemma simulated_move c ts i s t k : simulated c ts -> good k -> follows s t ->
  simulated (Config k [] (<[i := t]> (pool c))) (<[i := s]> ts).
Proof. intros [_ _ Hp] Hk Hf. split; [done|done|]. by apply Forall2_insert. Qed.

Lemma simulated_step c ts c' : simulated c ts -> step c c' ->
  exists ts', rtc astep (shared c, ts) (shared c', ts') /\ simulated c' ts'.
Proof.
  intros Hsim [i Hi]. pose proof Hsim as [Hg Hcl Hp]. unfold thread_step in Hi.
  destruct (pool c !! i) as [[held p| |]|] eqn:Ei; [|done..].
  destruct (Forall2_lookup_r _ _ _ _ _ Hp Ei) as (s & Es & Hf).
  assert (forall t, follows s t -> exists ts', rtc astep (shared c, ts) (shared c, ts') /\
    simulated (Config (shared c) [] (<[i := t]> (pool c))) ts') as Hstay.
  { intros t Ht. exists ts. split; [done|]. rewrite <- (list_insert_id ts i s) by done. by apply simulated_move. }
  rewrite Hcl in Hi. destruct p as [rs|l q p|l p|B m f]; destruct Hf as (s' & Hq & Hf).
  - simplify_eq/=. exists (<[i := (rs, [])]> ts). split; [by eapply quiet_asteps|]. by apply simulated_move.
  - destruct (decide (l ∈ all_held (pool c))); [done|]. rewrite decide_False in Hi by apply not_elem_of_nil.
    simplify_eq/=. apply Hstay. by eapply lin_quiet.
  - simplify_eq/=. apply Hstay. by eapply lin_quiet.
  - destruct Hf as [Hf|(dn & cl & cs & -> & Hf)].
    + destruct (Hf _ Hg) as (b & E & Hl). rewrite E in Hi. simplify_eq/=. apply Hstay. by eapply lin_quiet.
    + destruct (Hf _ Hg) as (b & r & k' & E & Ex & Hg' & Hl). rewrite E in Hi. simplify_eq/=.
      exists (<[i := (dn ++ [r], cs)]> ts). split; [|by apply simulated_move].
      etrans; [by eapply quiet_asteps|]. apply rtc_once.
      pose proof (astep_call i (shared c) k' (<[i := (dn, cl :: cs)]> ts) dn cl cs r) as Ha.
      rewrite list_insert_insert_eq in Ha. apply Ha; [|done].
      apply list_lookup_insert_eq. by eapply lookup_lt_Some.
Qed.

Lemma simulated_start k css :
  good k -> Forall atomic_thread css -> simulated (start k (app a h css)) (pair [] <$> css).
Proof using HOk.
  intros Hk Hcss. split; [done|done|]. unfold start, app. cbn [pool]. apply Forall2_fmap, Forall2_fmap_r, Forall_Forall2_diag.
  eapply Forall_impl; [exact Hcss|]. intros cs Hcs. by apply (lin_thread_of_all cs []).
Qed.

Lemma simulation k css c :
  good k -> Forall atomic_thread css -> reachable k (app a h css) c ->
  exists ts, rtc astep (k, pair [] <$> css) (shared c, ts) /\ simulated c ts.
Proof using HOk.
  intros Hk Hcss Hc. refine (rtc_ind_r (R := step) (fun c => exists ts,
    rtc astep (k, pair [] <$> css) (shared c, ts) /\ simulated c ts) _ _ _ c Hc).
  - exists (pair [] <$> css). split; [done|]. by apply simulated_start.
  - intros c1 c2 _ Hs (ts & Hts & Hsim). destruct (simulated_step _ _ _ Hsim Hs) as (ts' & Hts' & Hsim').
    exists ts'. split; [by etrans|done].
Qed.
End linear.

(** * Linearizability *)

Section theorems.
Context `{HP : Primitives} `{HB : BuildProfile} `{HOk : !PrimitivesOk HP}.

(** Linearizability: whatever the interleaving, threads making calls on the vault, the
    message counter, the epoch, the published ciphertext and the message functions behave
    as if every call were made at one instant: the state of the statics and the replies
    are those of a run in which the calls are executed one after the other, each thread's
    in its order.  No thread crashes. *)
Theorem calls_linearize a h css k c :
  kernel_ok k -> Forall atomic_thread css -> reachable k (app a h css) c ->
  exists ts, rtc (astep a h) (k, pair [] <$> css) (shared c, ts) /\
    (forall j rs, pool c !! j = Some (Finished rs) -> ts !! j = Some (rs, [])) /\ Crashed ∉ pool c.
Proof using HOk.
  intros Hk Hcss Hc. destruct (simulation a h (has_vault k) k css c) as (ts & Hts & [_ _ Hp]); [done|done|done|].
  exists ts. split; [done|]. split.
  - intros j rs Hj. destruct (Forall2_lookup_r _ _ _ _ _ Hp Hj) as (s & Es & ->). done.
  - intros (j & Hj)%list_elem_of_lookup. by destruct (Forall2_lookup_r _ _ _ _ _ Hp Hj) as (s & _ & []).
Qed.

(** * What is handed out *)

#[local] Instance lenZ_perm A : Proper (Permutation ==> eq) (@lenZ A).
Proof. intros l k E. unfold lenZ. by rewrite E. Qed.

Definition handed (ts : list athread) : list reply := concat (fst <$> ts).
Definition waiting (ts : list athread) : list call := concat (snd <$> ts).

Lemma handed_step ts i dn c cs r : ts !! i = Some (dn, c :: cs) ->
  handed (<[i := (dn ++ [r], cs)]> ts) ≡ₚ r :: handed ts /\
  waiting ts ≡ₚ c :: waiting (<[i := (dn ++ [r], cs)]> ts).
Proof.
  revert i. unfold handed, waiting. induction ts as [|[d' w] ts IH]; intros [|i] Hi; simplify_eq/=.
  - split; [|done]. rewrite <- app_assoc. simpl. by rewrite Permutation_middle.
  - destruct (IH i Hi) as [H1 H2]. split; [by rewrite H1, Permutation_middle|].
    rewrite H2. by rewrite Permutation_middle.
Qed.

(** All threads have ended: their replies are what was handed out. *)
Definition replied (s : athread) (t : thread mutex kernel (list reply)) : Prop :=
  match t with Running _ _ => True | Finished rs => s = (rs, []) | Crashed => False end.
Lemma ended_replies ts (ths : list (thread mutex kernel (list reply))) :
  Forall2 replied ts ths -> Forall ended ths -> ths = Finished <$> (fst <$> ts) /\ waiting ts = [].
Proof.
  intros Hp He. unfold waiting. induction Hp as [|s t ts ths Hf _ IH]; [done|].
  apply Forall_cons in He as [Ht He]. destruct (IH He) as [E1 E2].
  destruct t as [| |]; [destruct Ht| |destruct Hf]. simpl in Hf. subst s. cbn. split; [by f_equal|exact E2].
Qed.

(** Properties of the atomic machine by induction on its runs. *)
Definition step_keeps a h (I : kernel -> list athread -> Prop) : Prop :=
  forall k ts i dn x cs r k', I k ts -> ts !! i = Some (dn, x :: cs) -> exec a h x k = Done r k' ->
    I k' (<[i := (dn ++ [r], cs)]> ts).
Lemma astep_invariant a h I k ts k' ts' :
  step_keeps a h I -> rtc (astep a h) (k, ts) (k', ts') -> I k ts -> I k' ts'.
Proof.
  intros Hstep Hxy. change (I (k, ts).1 (k, ts).2 -> I (k', ts').1 (k', ts').2).
  induction Hxy as [|x y z Hs _ IH]; [done|]. intros Hx. apply IH. destruct Hs. by eapply Hstep.
Qed.
Lemma atomic_invariant a h css k c (I : kernel -> list athread -> Prop) :
  kernel_ok k -> Forall atomic_thread css -> reachable k (app a h css) c -> Forall ended (pool c) ->
  step_keeps a h I -> I k (pair [] <$> css) ->
  exists ts, pool c = Finished <$> (fst <$> ts) /\ waiting ts = [] /\ I (shared c) ts.
Proof using HOk.
  intros Hk Hcss Hc He Hstep HI.
  destruct (simulation a h (has_vault k) k css c) as (ts & Hts & [_ _ Hp]); [done|done|done|].
  destruct (ended_replies ts (pool c)) as [Hf Hw]; [|done|].
  { eapply Forall2_impl; [exact Hp|]. by intros s [| |]. }
  exists ts. split; [done|]. split; [done|]. by eapply astep_invariant.
Qed.

(** Threads that make one kind of call, [ns] times each. *)
Definition repeated (c : call) (ns : list nat) : list (list call) := (fun n => replicate n c) <$> ns.

Lemma repeated_atomic c ns : call_ok c -> atomic_call c -> Forall atomic_thread (repeated c ns).
Proof. intros ??. apply Forall_fmap, Forall_true. intros n. by apply Forall_replicate. Qed.

Lemma repeated_waiting c ns : Forall (eq c) (waiting (pair [] <$> repeated c ns)).
Proof.
  unfold waiting. induction ns as [|n ns IH]; [constructor|]. simpl. apply Forall_app. split; [|exact IH].
  by apply Forall_replicate.
Qed.
Lemma repeated_handed css : handed (pair [] <$> css) = [].
Proof. unfold handed. induction css as [|cs css IH]; [done|]. exact IH. Qed.

Lemma repeated_length c ns : lenZ (waiting (pair [] <$> repeated c ns)) = Z.of_nat (sum_list ns).
Proof.
  induction ns as [|n ns IH]; [done|].
  change (waiting _) with (replicate n c ++ waiting (pair [] <$> repeated c ns)). rewrite lenZ_app, IH.
  unfold lenZ. rewrite length_replicate. simpl. lia.
Qed.

(** The next call of a thread, when all wait for the same call. *)
Lemma next_call ts i dn x cs c r :
  Forall (eq c) (waiting ts) -> ts !! i = Some (dn, x :: cs) ->
  x = c /\ Forall (eq c) (waiting (<[i := (dn ++ [r], cs)]> ts)).
Proof.
  intros Hw Hi. destruct (handed_step ts i dn x cs r Hi) as [_ E]. rewrite E in Hw.
  apply Forall_cons in Hw as [<- Hw]. done.
Qed.

Lemma exec_next a h k :
  exec a h MsgCounterNext k =
    Done (RNum (msg_counter (k_root k))) (put_root (with_counter ((msg_counter (k_root k) + 1) mod 2 ^ 64) (k_root k)) k).
Proof. reflexivity. Qed.

(** [total] numbers are taken from [c0] on: the ones handed out are those below the counter. *)
Definition numbers_given (c0 total : Z) (k : kernel) (ts : list athread) : Prop :=
  Forall (eq MsgCounterNext) (waiting ts) /\
  handed ts ≡ₚ RNum <$> seqZ c0 (msg_counter (k_root k) - c0) /\ c0 <= msg_counter (k_root k) /\
  msg_counter (k_root k) + lenZ (waiting ts) = c0 + total.

Lemma numbers_start k ns :
  numbers_given (msg_counter (k_root k)) (Z.of_nat (sum_list ns)) k (pair [] <$> repeated MsgCounterNext ns).
Proof.
  split; [apply repeated_waiting|]. rewrite repeated_handed, repeated_length. split; [by rewrite Z.sub_diag|lia].
Qed.
Lemma numbers_step a h c0 total : 0 <= c0 -> c0 + total < 2 ^ 64 -> step_keeps a h (numbers_given c0 total).
Proof.
  intros Hc0 Hmax k1 ts i dn x cs r k2 (Hw & Hh & Hle & Hlen) Hi Hx.
  destruct (next_call ts i dn x cs MsgCounterNext r Hw Hi) as [-> Hw']. rewrite exec_next in Hx.
  injection Hx as <- <-. destruct (handed_step ts i dn _ cs (RNum (msg_counter (k_root k1))) Hi) as [E1 E2].
  rewrite E2, lenZ_cons in Hlen. pose proof (lenZ_nonneg (waiting (<[i := (dn ++ [RNum (msg_counter (k_root k1))], cs)]> ts))).
  split; [done|]. cbn [k_root put_root k_evo with_k_evo ev_root with_root msg_counter with_counter].
  fold (k_root k1). rewrite Z.mod_small by lia. split_and!; [|lia|lia].
  rewrite E1, Hh. replace (msg_counter (k_root k1) + 1 - c0) with (msg_counter (k_root k1) - c0 + 1) by lia.
  rewrite seqZ_app by lia. rewrite fmap_app, Permutation_cons_append.
  by replace (c0 + (msg_counter (k_root k1) - c0)) with (msg_counter (k_root k1)) by lia.
Qed.
Lemma numbers_all c0 total k ts :
  numbers_given c0 total k ts -> waiting ts = [] -> concat (fst <$> ts) ≡ₚ RNum <$> seqZ c0 total.
Proof.
  intros (_ & Hh & _ & Hlen) Hw. rewrite Hw, lenZ_nil in Hlen. fold (handed ts). rewrite Hh.
  by replace (msg_counter (k_root k) - c0) with total by lia.
Qed.

(** Concurrent senders never get the same sequence number: when any number of threads
    take numbers and nothing resets the counter, the numbers they get together are exactly
    the next ones, each once. *)
Theorem concurrent_numbers_distinct a h k ns c :
  kernel_ok k -> msg_counter (k_root k) + Z.of_nat (sum_list ns) < 2 ^ 64 ->
  reachable k (app a h (repeated MsgCounterNext ns)) c -> Forall ended (pool c) ->
  exists rss, pool c = Finished <$> rss /\
    concat rss ≡ₚ RNum <$> seqZ (msg_counter (k_root k)) (Z.of_nat (sum_list ns)).
Proof using HOk.
  intros Hk Hmax Hc He. pose proof (counter_range _ (evo_root_ok _ (kernel_evo _ Hk))) as [Hc0 _].
  destruct (atomic_invariant a h (repeated MsgCounterNext ns) k c
    (numbers_given (msg_counter (k_root k)) (Z.of_nat (sum_list ns)))) as (ts & Hp & Hw & Hts);
    [done|by apply repeated_atomic|done|done|by apply numbers_step|apply numbers_start|].
  exists (fst <$> ts). split; [done|]. by eapply numbers_all.
Qed.

(** The blocks among the replies of [allocate_vault_block]: [u64::MAX] is an error. *)
Definition blocks_of (rs : list reply) : list Z :=
  omap (fun r => match r with RNum n => if n =? u64_max then None else Some n | _ => None end) rs.

Lemma exec_allocate a h k v ino d r k' :
  VFS k = Some (v, false) -> vol_at (env_of v k) ino d -> exec a h AllocateVaultBlock k = Done r k' ->
  exists v' d', VFS k' = Some (v', false) /\ vol_at (env_of v' k') ino d' /\
    total_blocks v' = total_blocks v /\ allocated v ⊆ allocated v' /\
    forall i, blocks_of [r] = [i] -> in_data v i /\ (i ∉ allocated v) /\ i ∈ allocated v'.
Proof.
  intros Hv Hat Hx.
  destruct (wp_inv _ _ _ (wp_allocate (env_of v k) ino d Hat)) as (rr & e' & E & d' & Hf & Ha & Hr & _).
  assert (r = RNum (match rr with Ok i => i | Err _ => u64_max end) /\ k' = put_env e' false k) as [-> ->].
  { revert Hx. cbn [exec]. unfold num, allocate_vault_block, with_vault_or, mbind, M_bind. rewrite Hv.
    change (run_alloc OpAllocate) with allocate_block in E. rewrite E. by intros [= <- <-]. }
  exists (e_vol e'), d'. destruct Hf as ((bm & n & V) & Hat' & _).
  split; [done|]. rewrite env_put. split; [done|]. split; [by rewrite V|].
  unfold spec_of, spec_step in *. cbn [env_of e_vol] in *.
  destruct (List.find _ _) as [j|] eqn:Ej; cbn [fst snd] in *; rewrite Ha.
  - apply find_seqZ_least in Ej as (Hj & Hna%bool_decide_eq_true_1 & _). split; [apply union_subseteq_r|].
    intros i Hi. destruct Hr as [->|[[[err ->] _] _]]; [|done]. revert Hi. cbn. destruct (_ =? _); [done|].
    intros [= ->]. split; [unfold in_data; lia|]. split; [done|]. by apply elem_of_union_l, elem_of_singleton_2.
  - split; [done|]. intros i Hi. destruct Hr as [->|[_ ?]]; [|done]. done.
Qed.

(** The blocks handed out so far, of a vault that was [v] at the start. *)
Definition blocks_given (v : VirtualVolume) (ino : Z) (k : kernel) (ts : list athread) : Prop :=
  Forall (eq AllocateVaultBlock) (waiting ts) /\
  exists v1 d1, VFS k = Some (v1, false) /\ vol_at (env_of v1 k) ino d1 /\
    total_blocks v1 = total_blocks v /\ allocated v ⊆ allocated v1 /\ NoDup (blocks_of (handed ts)) /\
    forall i, i ∈ blocks_of (handed ts) -> in_data v i /\ (i ∉ allocated v) /\ i ∈ allocated v1.

Lemma blocks_start k v ino d ns :
  VFS k = Some (v, false) -> vol_at (env_of v k) ino d ->
  blocks_given v ino k (pair [] <$> repeated AllocateVaultBlock ns).
Proof.
  intros Hv Hat. split; [apply repeated_waiting|]. exists v, d. rewrite repeated_handed.
  split_and!; [done..|constructor|]. by intros i ?%elem_of_nil.
Qed.
Lemma blocks_of_reply r : blocks_of [r] = [] \/ exists i, blocks_of [r] = [i].
Proof. unfold blocks_of. cbn. repeat case_match; simplify_eq/=; eauto. Qed.
Lemma blocks_step a h v ino : step_keeps a h (blocks_given v ino).
Proof.
  intros k1 ts i dn x cs r k2 (Hw & v1 & d1 & Hv1 & Hat1 & Ht1 & Hsub & Hnd & Hall) Hi Hx.
  destruct (next_call ts i dn x cs AllocateVaultBlock r Hw Hi) as [-> Hw']. split; [done|].
  destruct (exec_allocate a h k1 v1 ino d1 r k2 Hv1 Hat1 Hx) as (v2 & d2 & Hv2 & Hat2 & Ht2 & Hsub2 & Hr).
  destruct (handed_step ts i dn _ cs r Hi) as [E1 _].
  assert (blocks_of (handed (<[i := (dn ++ [r], cs)]> ts)) ≡ₚ blocks_of [r] ++ blocks_of (handed ts)) as Eb.
  { unfold blocks_of. rewrite E1. by rewrite <- omap_app. }
  exists v2, d2. split_and!; [done|done|congruence|by etrans|..].
  - rewrite Eb. destruct (blocks_of_reply r) as [->|[j Er]]; [done|]. rewrite Er.
    apply NoDup_cons. split; [|done]. intros Hj. apply Hall in Hj as (_ & _ & Hj). by apply (Hr j Er).
  - intros j. rewrite Eb, elem_of_app. intros [Hj|Hj].
    + destruct (blocks_of_reply r) as [Er|[j' Er]]; rewrite Er in Hj; [by apply elem_of_nil in Hj|].
      apply list_elem_of_singleton in Hj as ->.
      destruct (Hr j' Er) as (H1 & H2 & H3). split_and!; [unfold in_data in *; lia|by intros ?%Hsub|done].
    + destruct (Hall j Hj) as (H1 & H2 & H3). split_and!; [done..|by apply Hsub2].
Qed.

(** Concurrent allocations never share a block: when any number of threads allocate
    from one vault, under any I/O errors, the blocks they get together are pairwise
    distinct; each was free before, is a data block, and is allocated afterwards. *)
Theorem concurrent_allocations_distinct a h k v ino d ns c :
  kernel_ok k -> VFS k = Some (v, false) -> vol_at (env_of v k) ino d ->
  reachable k (app a h (repeated AllocateVaultBlock ns)) c -> Forall ended (pool c) ->
  exists rss v', pool c = Finished <$> rss /\ VFS (shared c) = Some (v', false) /\
    NoDup (blocks_of (concat rss)) /\
    forall i, i ∈ blocks_of (concat rss) -> in_data v i /\ (i ∉ allocated v) /\ i ∈ allocated v'.
Proof using HOk.
  intros Hk Hv Hat Hc He.
  destruct (atomic_invariant a h (repeated AllocateVaultBlock ns) k c (blocks_given v ino))
    as (ts & Hp & _ & _ & v1 & d1 & Hv1 & _ & _ & _ & Hnd & Hall);
    [done|by apply repeated_atomic|done|done|apply blocks_step|by eapply blocks_start|].
  by exists (fst <$> ts), v1.
Qed.
End theorems.

(** * Witnesses *)

Lemma calls_linearize_witness :
  exists c ts, reachable fresh (app (HP := toy) (HB := true) demo_alloc true (repeated MsgCounterNext [2; 1]%nat)) c /\
    rtc (astep (HP := toy) (HB := true) demo_alloc true) (fresh, pair [] <$> repeated MsgCounterNext [2; 1]%nat) (shared c, ts).
Proof.
  destruct (app_ends (HP := toy) (HB := true) demo_alloc true (repeated MsgCounterNext [2; 1]%nat) fresh) as (c & Hc & _).
  destruct (calls_linearize (HP := toy) (HB := true) demo_alloc true (repeated MsgCounterNext [2; 1]%nat) fresh c
    fresh_ok (repeated_atomic MsgCounterNext _ I I) Hc) as (ts & Hts & _).
  exists c, ts. split; [exact Hc|exact Hts].
Defined.

Lemma concurrent_numbers_distinct_witness :
  exists c rss, reachable fresh (app (HP := toy) (HB := true) demo_alloc true (repeated MsgCounterNext [2; 1]%nat)) c /\
    pool c = Finished <$> rss /\ concat rss ≡ₚ [RNum 1; RNum 2; RNum 3].
Proof.
  destruct (app_ends (HP := toy) (HB := true) demo_alloc true (repeated MsgCounterNext [2; 1]%nat) fresh) as (c & Hc & He).
  destruct (concurrent_numbers_distinct (HP := toy) (HB := true) demo_alloc true fresh [2; 1]%nat c
    fresh_ok eq_refl Hc He) as (rss & Hp & Hrs).
  exists c, rss. split; [exact Hc|]. split; [exact Hp|exact Hrs].
Defined.

(** A kernel with an open vault of four data blocks. *)
Definition vaulted : kernel (HP := toy) :=
  Kernel (evo_init (HP := toy) (5 : @rng toy)) (volume_fs 4) (Some (volume_of 4, false)) [] false clock_init.
Lemma vaulted_ok : kernel_ok (HP := toy) vaulted.
Proof.
  split; [apply evo_init_ok|]. intros v p [= <- <-]. split; [done|]. apply mem_ok_sane.
  apply (vol_mem _ _ _ (volume_at (5 : @rng toy) 4 ltac:(vlia))).
Qed.

Lemma concurrent_allocations_distinct_witness :
  exists c rss, reachable vaulted (app (HP := toy) (HB := true) demo_alloc true (repeated AllocateVaultBlock [2; 3]%nat)) c /\
    pool c = Finished <$> rss /\ NoDup (blocks_of (concat rss)).
Proof.
  destruct (app_ends (HP := toy) (HB := true) demo_alloc true (repeated AllocateVaultBlock [2; 3]%nat) vaulted) as (c & Hc & He).
  destruct (concurrent_allocations_distinct (HP := toy) (HB := true) demo_alloc true vaulted (volume_of 4) 1 (volume_data 4)
    [2; 3]%nat c vaulted_ok eq_refl (volume_at (5 : @rng toy) 4 ltac:(vlia)) Hc He) as (rss & v' & Hp & _ & Hnd & _).
  exists c, rss. split; [exact Hc|]. split; [exact Hp|exact Hnd].
Defined.
