(* ===== verification/VaultLinear.v ===== *)
(** Linearizability at the granularity of system calls.

    [Linear] takes the work of the vault under its mutex as one step.  Here every system
    call is a step of its own ([SysCalls]), and other threads move between them.  While a
    thread holds the vault's mutex the kernel is the one before its call with the volume,
    the file system and the generator as the call has left them so far ([veil]); the call
    takes effect when the mutex is released.  So calls on the vault, the counter, the epoch
    and the message functions behave as if each were made at one instant
    ([system_calls_linearize]), as long as no thread opens or purges a vault or draws from
    the generator outside the mutex. *)
From stdpp Require Import gmap.
From S2P Require Import Prelude Effects Threads Crypto MemoryProtection RootState AntiDos TailPadding MessageCipher Evolution StdFs VolumeLayout VirtualVolume VolumeProofs VolumeBlocks VolumeAlloc VolumeTotal ClockAlign DiskWipe Kernel KernelProofs InitModule Ffi Exports Locks SysCalls Concurrency Interleavings VaultThreads Linear.

(** Calls that take effect at one point and use the generator under the vault's mutex only. *)
Definition steady_call (c : call) : Prop :=
  atomic_call c /\ match c with AddTailPadding _ _ => False | _ => True end.

Section linear.
Context `{HP : Primitives} `{HB : BuildProfile} `{HOk : !PrimitivesOk HP}.
Context (a : Z -> bool) (h : bool) (V : bool).

(** * A call in progress *)

(** The kernel as other threads see it while one is at work on the vault. *)
Definition veil (w : option vol_env) (k : kernel) : kernel :=
  match w with None => k | Some e => put_env e false k end.
(** [e] is the vault of [k], with the file system and the generator. *)
Definition vault_is (e : vol_env) (k : kernel) : Prop :=
  VFS k = Some (e_vol e, false) /\ env_of (e_vol e) k = e.
Definition same_vault (k k' : kernel) : Prop := VFS k' = VFS k /\ k_fs k' = k_fs k /\ k_rng k' = k_rng k.

Lemma vault_is_same e k k' : vault_is e k -> same_vault k k' -> vault_is e k'.
Proof. intros [E1 E2] (H1 & H2 & H3). split; [by rewrite H1|]. unfold env_of in *. by rewrite H2, H3. Qed.
Lemma put_put e e' p p' k : put_env e' p' (put_env e p k) = put_env e' p' k.
Proof. by destruct k as [[]]. Qed.
Lemma vault_is_put e k : vault_is e k -> put_env e false k = k.
Proof.
  intros [E1 E2]. destruct k as [ev fs vfs pk can cl]. unfold env_of in E2. cbn in *. subst vfs.
  unfold put_env. rewrite <- E2 at 2 3. cbn. destruct ev. done.
Qed.
Lemma vault_is_of k : good true k -> exists e, vault_is e k.
Proof.
  intros [Hk Hv]. unfold has_vault in Hv. destruct (VFS k) as [[v p]|] eqn:E; [|done].
  destruct (kernel_vault _ Hk v p E) as [-> _]. exists (env_of v k). by split.
Qed.

(** A program that follows the calls of [s]: outside the mutex each of its actions is silent
    or the one step of the next call; inside, with the vault [e0] at the entry and [e] now,
    it works on the vault alone, and releases it when that work is the next call. *)
Fixpoint vlin {A} (p : kprog A) (md : option (vol_env * vol_env)) (s : athread) (K : athread -> A -> Prop) : Prop :=
  match md with
  | None =>
      exists s', rtc (quiet_call a h V) s s' /\
      match p with
      | Ret x => K s' x
      | Lock l _ p =>
          if decide (l = L_vault) then V = true /\ forall e, mem_sane (e_vol e) -> vlin p (Some (e, e)) s' K
          else vlin p None s' K
      | Unlock l p => l <> L_vault /\ vlin p None s' K
      | Act m f =>
          (forall k w, good V k -> (is_Some w -> V = true) ->
             exists b, m (veil w k) = Done b (veil w k) /\ vlin (f b) None s' K) \/
          (exists dn c cs, s' = (dn, c :: cs) /\ forall k w, good V k -> (is_Some w -> V = true) ->
             exists b r k', m (veil w k) = Done b (veil w k') /\ exec a h c k = Done r k' /\ good V k' /\
               same_vault k k' /\ vlin (f b) None (dn ++ [r], cs) K)
      end
  | Some (e0, e) =>
      match p with
      | Unlock l p =>
          l = L_vault /\ exists dn c cs r, s = (dn, c :: cs) /\
            (forall k, good V k -> vault_is e0 k -> exec a h c k = Done r (put_env e false k) /\ good V (put_env e false k)) /\
            vlin p None (dn ++ [r], cs) K
      | Act m f => exists b e', (forall k, m (put_env e false k) = Done b (put_env e' false k)) /\ vlin (f b) (Some (e0, e')) s K
      | _ => False
      end
  end.

Lemma vlin_quiet {A} (p : kprog A) s s' K : rtc (quiet_call a h V) s s' -> vlin p None s' K -> vlin p None s K.
Proof. intros Hs Hp. destruct p; destruct Hp as (s2 & ? & ?); exists s2; (split; [by etrans|done]). Qed.

Lemma vlin_mono {A} (p : kprog A) (K K' : athread -> A -> Prop) md s :
  vlin p md s K -> (forall s x, K s x -> K' s x) -> vlin p md s K'.
Proof.
  intros Hp HK. revert md s Hp. induction p as [x|l q _ p IH|l p IH|B m f IH]; intros [[e0 e]|] s Hp; cbn in *.
  all: try done.
  - destruct Hp as (s' & Hs & Hp). eauto.
  - destruct Hp as (s' & Hs & Hp). exists s'. split; [done|]. case_decide; [|by apply IH]. destruct Hp as [HV Hp]. eauto.
  - destruct Hp as (-> & dn & c & cs & r & -> & Hx & Hp). split; [done|]. exists dn, c, cs, r. split_and!; auto.
  - destruct Hp as (s' & Hs & Hl & Hp). eauto 10.
  - destruct Hp as (b & e' & Hm & Hp). eauto.
  - destruct Hp as (s' & Hs & Hp). exists s'. split; [done|]. destruct Hp as [Hp|(dn & c & cs & E & Hp)]; [left|right].
    + intros k w Hk Hw. destruct (Hp k w Hk Hw) as (b & ? & ?). eauto.
    + exists dn, c, cs. split; [done|]. intros k w Hk Hw. destruct (Hp k w Hk Hw) as (b & r & k' & ? & ? & ? & ? & ?).
      exists b, r, k'. eauto 10.
Qed.

Lemma vlin_bind {A B} (p : kprog A) (f : A -> kprog B) md s K :
  vlin p md s (fun s x => vlin (f x) None s K) -> vlin (p ≫= f) md s K.
Proof.
  revert md s. induction p as [x|l q _ p IH|l p IH|C m g IH]; intros [[e0 e]|] s Hp;
    try (change (vlin (Lock l (mbind f q) (mbind f p)) None s K)).
  - destruct Hp.
  - destruct Hp as (s' & Hs & Hp). by eapply vlin_quiet.
  - destruct Hp.
  - destruct Hp as (s' & Hs & Hp). exists s'. split; [done|]. case_decide; [|by apply IH].
    destruct Hp as [HV Hp]. split; [done|]. intros e He. by apply IH, Hp.
  - destruct Hp as (-> & dn & c & cs & r & -> & Hx & Hp). split; [done|]. exists dn, c, cs, r. split_and!; [done|done|].
    by apply IH.
  - destruct Hp as (s' & Hs & Hl & Hp). exists s'. split_and!; [done|done|]. by apply IH.
  - destruct Hp as (b & e' & Hm & Hp). exists b, e'. split; [done|]. by apply IH.
  - destruct Hp as (s' & Hs & Hp). exists s'. split; [done|]. destruct Hp as [Hp|(dn & c & cs & E & Hp)]; [left|right].
    + intros k w Hk Hw. destruct (Hp k w Hk Hw) as (b & ? & ?). exists b. split; [done|]. by apply IH.
    + exists dn, c, cs. split; [done|]. intros k w Hk Hw. destruct (Hp k w Hk Hw) as (b & r & k' & ? & ? & ? & ? & ?).
      exists b, r, k'. split_and!; [done..|]. by apply IH.
Qed.

Lemma vlin_ret {A} (x : A) s (K : athread -> A -> Prop) : K s x -> vlin (mret x) None s K.
Proof. intros HK. exists s. done. Qed.
Lemma vlin_const {A} (x : A) g dn c cs :
  (forall k, good V k -> exec a h c k = Done (g x) k) -> vlin (mret x) None (dn, c :: cs) (answered dn cs g).
Proof. intros Hx. exists (dn ++ [g x], cs). split; [|done]. apply rtc_once. by exists dn, c, cs, (g x). Qed.
Lemma vlin_then {A B} (p : kprog A) (g : A -> reply) (f : A -> B) (g' : B -> reply) dn c cs :
  (forall x, g' (f x) = g x) -> vlin p None (dn, c :: cs) (answered dn cs g) ->
  vlin (x ← p; mret (f x)) None (dn, c :: cs) (answered dn cs g').
Proof.
  intros E Hp. apply vlin_bind. eapply vlin_mono; [exact Hp|]. intros s x ->. apply vlin_ret. unfold answered. by rewrite E.
Qed.

(** ** Steps outside the mutex *)

(** [m] returns, keeps the statics well formed, and does not look at the vault. *)
Definition unveiled {A} (m : M kernel A) : Prop :=
  forall k, good V k -> exists x k', m k = Done x k' /\ good V k' /\ same_vault k k' /\
    forall e, m (put_env e false k) = Done x (put_env e false k').

Lemma vlin_act {A} (m : M kernel A) g dn c cs :
  unveiled m -> (forall k, exec a h c k = (x ← m; mret (g x)) k) ->
  vlin (act m) None (dn, c :: cs) (answered dn cs g).
Proof.
  intros Hm Hx. exists (dn, c :: cs). split; [done|]. right. exists dn, c, cs. split; [done|].
  intros k w Hk _. destruct (Hm k Hk) as (x & k' & E & Hk' & Hs & Hv). exists x, (g x), k'. split_and!; try done.
  - destruct w as [e|]; [apply Hv|done].
  - rewrite Hx. by erewrite bind_done.
  - by apply vlin_ret.
Qed.
Lemma vlin_guarded {A} l (m : M kernel A) g dn c cs :
  l <> L_vault -> unveiled m -> (forall k, exec a h c k = (x ← m; mret (g x)) k) ->
  vlin (guarded l m) None (dn, c :: cs) (answered dn cs g).
Proof.
  intros Hl Hm Hx. apply vlin_bind. exists (dn, c :: cs). split; [done|]. rewrite decide_False by done.
  exists (dn, c :: cs). split; [done|].
  apply vlin_bind. eapply vlin_mono; [by apply vlin_act|]. intros s x Hs. apply vlin_bind.
  exists s. split; [done|]. split; [done|]. exists s. split; [done|]. by apply vlin_ret.
Qed.

(** ** The work on the vault *)

Lemma on_vault_put {A} (m : M vol_env A) e x e' k :
  m e = Done x e' -> on_vault m (put_env e false k) = Done x (put_env e' false k).
Proof.
  intros E. unfold on_vault. cbn [VFS put_env with_VFS]. rewrite env_put, E. by rewrite put_put.
Qed.
Lemma vlin_lift {A B} (f : lockfree vol_env A) (g : A -> kprog B) e0 e x e1 s K :
  run f e = Done x e1 -> vlin (g x) (Some (e0, e1)) s K -> vlin (lift (@on_vault HP) f ≫= g) (Some (e0, e)) s K.
Proof.
  revert e. induction f as [y|[]|[]|C m k IH]; intros e E Hg.
  - injection E as -> ->. exact Hg.
  - cbn [run] in E. unfold mbind, M_bind in E. destruct (m e) as [b e'| |] eqn:Em; [|done..].
    exists b, e'. split; [intros k'; by apply on_vault_put|]. by apply IH.
Qed.

Lemma vlin_vault {R} (d : R) (f : lockfree vol_env R) (m : M vol_env R) g dn c cs :
  (forall e, run f e = m e) -> sane m -> (forall k, exec a h c k = (x ← with_vault_or d m; mret (g x)) k) ->
  vlin (sc_with_vault_or d f) None (dn, c :: cs) (answered dn cs g).
Proof.
  intros Hf Hm Hx. exists (dn, c :: cs). split; [done|].
  assert (V = true \/ V = false) as [EV|EV] by (destruct V; auto); [left|right].
  - intros k w [Hk Hv] _. eexists. split; [reflexivity|].
    assert (exists vfs, VFS (veil w k) = Some vfs) as [vfs ->].
    { destruct w; [by eexists|]. unfold has_vault in Hv. rewrite EV in Hv. cbn. destruct (VFS k); [by eexists|done]. }
    exists (dn, c :: cs). split; [done|]. rewrite decide_True by done. split; [done|]. intros e He.
    exists false, e. split; [done|]. destruct (wp_inv _ _ _ (Hm e He)) as (x & e1 & E & He1 & _). rewrite <- Hf in E.
    apply vlin_lift with (x := x) (e1 := e1); [done|]. split; [done|]. exists dn, c, cs, (g x). split; [done|]. split.
    + intros k2 [Hk2 Hv2] [E1 E2]. split.
      * rewrite Hx. unfold mbind, M_bind, with_vault_or. rewrite E1, E2, <- Hf, E. done.
      * split; [|by rewrite EV]. unfold put_env. auto with kernel.
    + exists (dn ++ [g x], cs). done.
  - exists dn, c, cs. split; [done|]. intros k w [Hk Hv] Hw. destruct w as [e|]; [by specialize (Hw ltac:(by eexists)); congruence|].
    unfold has_vault in Hv. rewrite EV in Hv. destruct (VFS k) eqn:Ek; [done|].
    exists None, (g d), k. split_and!; [unfold gets; cbn [veil]; by rewrite Ek| |by split; [|rewrite EV; unfold has_vault; rewrite Ek]|done|].
    + rewrite Hx. unfold mbind, M_bind, with_vault_or. by rewrite Ek.
    + by apply vlin_ret.
Qed.

(** ** The calls outside the vault *)

Lemma unveiled_read {A} (m : M kernel A) :
  (forall k, good V k -> exists x, m k = Done x k /\ forall e, m (put_env e false k) = Done x (put_env e false k)) ->
  unveiled m.
Proof. intros Hm k Hk. destruct (Hm k Hk) as (x & E & Hv). by exists x, k. Qed.
Lemma unveiled_root {A} (m : M root_statics A) : keeps 0 (zoom kroot_lens m) -> unveiled (zoom kroot_lens m).
Proof.
  intros Hm k Hk. destruct (good_root V m Hm k Hk) as (x & k' & E & Hk'). exists x, k'. split; [done|]. split; [done|].
  revert E. clear Hk Hk'. unfold zoom. cbn [lget lput kroot_lens]. destruct k as [[] fs vfs pk can cl]. cbn.
  destruct (m _) as [y r| |]; by intros [= <- <-].
Qed.

(** A call that computes from its arguments. *)
Lemma vlin_pure c dn cs :
  (exists r, forall k, exec a h c k = Done r k) -> vlin (act (exec a h c)) None (dn, c :: cs) (answered dn cs (fun r => r)).
Proof.
  intros [r Hc]. apply vlin_act.
  - apply unveiled_read. intros k _. exists r. split; [apply Hc|]. intros e. apply Hc.
  - intros k. unfold mbind, M_bind. by destruct (exec a h c k).
Qed.

Lemma vlin_read_vault start n out dn cs :
  is_u 64 start -> is_u 32 n ->
  vlin (sc_read_vault_blocks start n out) None (dn, ReadVaultBlocks start n out :: cs)
    (answered dn cs (fun r => RMem r.1 r.2)).
Proof using HOk.
  intros Hs Hn. unfold sc_read_vault_blocks. destruct out as [out|]; [|by apply vlin_const].
  destruct (n =? 0) eqn:En; [by apply vlin_const; intros; cbn [exec]; unfold read_vault_blocks; rewrite En|].
  apply (vlin_then _ (fun x => RMem x.1 (Some x.2))); [done|]. eapply vlin_vault.
  - intros e. apply run_read_blocks.
  - intros e He. rewrite <- (Z2Nat.id n) by apply Hn. apply sane_read_blocks; [by rewrite Z.add_0_r|done].
  - intros k. cbn [exec]. unfold read_vault_blocks. rewrite En. by rewrite bind_assoc.
Qed.

Lemma vlin_write_vault start n data dn cs :
  is_u 64 start -> is_u 32 n -> (forall d, data = Some d -> lenZ d = n * PAYLOAD_SIZE) ->
  vlin (sc_write_vault_blocks start n data) None (dn, WriteVaultBlocks start n data :: cs) (answered dn cs RNum).
Proof using HOk.
  intros Hs Hn Hd. unfold sc_write_vault_blocks. destruct data as [data|]; [|by apply vlin_const].
  destruct (n =? 0) eqn:En; [by apply vlin_const; intros; cbn [exec]; unfold num, write_vault_blocks; rewrite En|].
  eapply vlin_vault; [intros e; apply run_write_blocks| |intros k; cbn [exec]; unfold num, write_vault_blocks; by rewrite En].
  intros e He. unfold is_u in Hn. pose proof (sane_write_blocks start data n (Z.to_nat n) 0 0 e (Hd data eq_refl)) as H.
  rewrite Z2Nat.id in H by lia. apply H; [lia|lia|by rewrite Z.add_0_r|done].
Qed.

Lemma vlin_load out dn cs :
  vlin (sc_load_id_stamp out) None (dn, LoadIdStamp out :: cs) (answered dn cs (fun r => RMem r.1 r.2)).
Proof using HOk.
  unfold sc_load_id_stamp. destruct out as [o|]; [|by apply vlin_const].
  destruct (lenZ o <? 32) eqn:Eo; [by apply vlin_const; intros; cbn [exec]; unfold load_id_stamp; rewrite Eo|].
  apply vlin_bind. eapply vlin_mono.
  - eapply (vlin_vault _ _ _ (fun r => if negb (r.1 =? 0) then RMem 1 (Some o) else RMem 0 (Some (splice 0 (takeZ 32 r.2) o)))).
    + intros e. apply run_result, run_read_block.
    + apply sane_result, sane_read_block.
    + intros k. cbn [exec]. unfold load_id_stamp, read_id_stamp. rewrite Eo, !bind_assoc. apply bind_ext.
      intros r k'. by destruct (negb _).
  - intros s r ->. by destruct (negb _); apply vlin_ret.
Qed.

Lemma vlin_derive e q dn cs :
  vlin (mt_derive_message_key e q) None (dn, DeriveMessageKey e q :: cs)
    (answered dn cs (fun key => RNative None None
      (match allocate_native_buffer a 32 with None => Null | Some _ => Buffer key end))).
Proof using HOk.
  apply vlin_bind. eapply vlin_mono.
  - apply (vlin_guarded _ _ (fun curr => RNative None None
      (match allocate_native_buffer a 32 with None => Null | Some _ => Buffer (message_key curr e q) end))).
    + done.
    + apply unveiled_root, keeps_read.
    + intros k. rewrite exec_derive. unfold mbind, M_bind, read_root_state_curr. by rewrite root_read.
  - intros s curr ->. eexists. split; [done|]. left. intros k w Hk _.
    exists (message_key curr e q). split; [apply derive_from_root_eval|]. by apply vlin_ret.
Qed.

Lemma unveiled_evo {A} (m : M evo_statics A) (f : option SecureBuffer -> A) :
  (forall s, m s = Done (f (kem_cipher s)) s) -> unveiled (zoom evo_lens m).
Proof.
  intros Hm. apply unveiled_read. intros k _. exists (f (kem_cipher (k_evo k))). unfold zoom. cbn [lget lput evo_lens].
  split; [rewrite Hm; by destruct k|]. intros e. rewrite Hm. by destruct k as [[]].
Qed.
(** What [get_kem_cipher] copies. *)
Definition kem_copy (out : bytes) (c : option SecureBuffer) : Z * bytes :=
  match c with
  | Some b => let n := Z.min (len b) (lenZ out) in (n, splice 0 (takeZ n (as_slice b)) out)
  | None => (0, out)
  end.
Lemma get_kem_reads out s : get_kem_cipher out s = Done (kem_copy out (kem_cipher s)) s.
Proof.
  unfold get_kem_cipher, kem_copy. unfold mbind, M_bind. cbn. destruct (kem_cipher s) as [b|]; [|done].
  unfold copy_prefix, as_slice, len.
  destruct (Z.leb_spec (lenZ (takeZ (Z.min (lenZ (inner b)) (lenZ out)) (inner b))) (lenZ out)); [done|len_lia].
Qed.

Lemma vlin_get_kem out dn cs :
  vlin (mt_ffi_get_kem_cipher out) None (dn, GetKemCipher out :: cs) (answered dn cs (fun r => RMem r.1 r.2)).
Proof.
  unfold mt_ffi_get_kem_cipher. destruct out as [o|]; [|by apply vlin_const].
  destruct (lenZ o =? 0) eqn:Eo; [by apply vlin_const; intros; cbn [exec]; unfold ffi_get_kem_cipher; rewrite Eo|].
  apply vlin_bind. eapply vlin_mono.
  - apply (vlin_guarded _ _ (fun r => if r.1 =? 0 then RMem 1 (Some o) else RMem (as_u32 r.1) (Some (splice 0 (takeZ r.1 r.2) o)))).
    + done.
    + eapply unveiled_evo, get_kem_reads.
    + intros k. cbn [exec]. unfold ffi_get_kem_cipher. rewrite Eo, bind_assoc. apply bind_ext.
      intros [n buf] k'. cbn [fst snd]. by destruct (n =? 0).
  - intros s [n buf] ->. cbn [fst snd]. by destruct (n =? 0); apply vlin_ret.
Qed.

Lemma vlin_num (p : kprog Z) dn c cs :
  vlin p None (dn, c :: cs) (answered dn cs RNum) -> vlin (mt_num p) None (dn, c :: cs) (answered dn cs (fun r => r)).
Proof. by apply vlin_then. Qed.

Lemma vlin_thread_of c dn cs :
  call_ok c -> steady_call c -> vlin (sc_thread_of a h c) None (dn, c :: cs) (answered dn cs (fun r => r)).
Proof using HOk.
  intros Hc [Ha Hn]. destruct c; cbn [atomic_call call_ok sc_thread_of thread_of] in *;
    try (lazymatch type of Ha with False => destruct Ha end);
    try (lazymatch type of Hn with False => destruct Hn end).
  - destruct Hc. by eapply vlin_then, vlin_read_vault.
  - destruct Hc as (? & ? & ?). by apply vlin_num, vlin_write_vault.
  - eapply vlin_num, vlin_vault; [intros e; apply run_result, run_allocate|apply sane_result, sane_allocate|done].
  - eapply vlin_num, vlin_vault; [intros e; apply run_result, run_free|apply sane_result, sane_free_block|done].
  - eapply vlin_num, vlin_vault; [intros e; apply run_erase|apply sane_erase|done].
  - eapply vlin_num, vlin_vault; [intros e; apply run_result, run_act|apply sane_result, sane_ret|done].
  - eapply vlin_num, vlin_vault; [intros e; apply run_act|apply sane_gets|done].
  - eapply vlin_num, vlin_vault; [intros e; apply run_act|apply sane_gets|done].
  - apply vlin_num, vlin_act; [|done]. apply unveiled_read. intros k _. eexists. done.
  - eapply vlin_num, vlin_vault; [intros e; apply run_init_canaries| |done].
    apply sane_bind; [apply sane_reserve_all|]. intros _. apply sane_write_canaries.
  - apply vlin_num, vlin_guarded; [done|apply unveiled_root, keeps_read|done].
  - eapply vlin_then, vlin_load. done.
  - apply vlin_num, vlin_act; [|done]. apply unveiled_root, keeps_root. intros s Hs _.
    eapply wp_done; [reflexivity|]. split; [|simpl; lia]. apply root_ok_counter; [done|]. apply Z.mod_pos_bound. lia.
  - apply vlin_num, vlin_act; [|done]. apply unveiled_root, keeps_read.
  - by eapply (vlin_then (mt_derive_message_key epoch msg_seq)), vlin_derive.
  - apply vlin_pure. by eexists.
  - apply vlin_pure. by eexists.
  - apply vlin_pure. by eexists.
  - apply vlin_pure, strip_pure.
  - apply (vlin_then mt_kem_cipher_len (fun n => RNum (as_u32 n))); [done|].
    apply vlin_guarded; [done|by apply (unveiled_evo _ (fun c => match c with Some b => len b | None => 0 end))|intros; cbn [exec]; unfold num, ffi_kem_cipher_len; by rewrite bind_assoc].
  - by eapply vlin_then, vlin_get_kem.
  - apply vlin_num, vlin_act; [|done]. apply unveiled_read. intros k _. exists (ESTIMATED_SKEW (k_clock k)). by destruct k as [[]].
Qed.

Definition steady_thread (cs : list call) : Prop := Forall (fun c => call_ok c /\ steady_call c) cs.

Lemma vlin_thread_of_all cs : forall dn,
  steady_thread cs -> vlin (sc_thread_of_all a h cs) None (dn, cs) (fun s rs => s = (dn ++ rs, [])).
Proof using HOk.
  induction cs as [|c cs IH]; intros dn Hcs; [apply vlin_ret; by rewrite app_nil_r|].
  apply Forall_cons in Hcs as [[Hc Ha] Hcs]. cbn [sc_thread_of_all]. apply vlin_bind.
  eapply vlin_mono; [by apply vlin_thread_of|]. intros s r ->. apply vlin_bind.
  eapply vlin_mono; [by apply IH|]. intros s rs ->. apply vlin_ret. by rewrite <- app_assoc.
Qed.

(** * The simulation *)

(** The thread at work on the vault, the vault when it entered, and the vault now. *)
Definition entry : Type := option (nat * vol_env * vol_env).
Definition mode_of (md : entry) (j : nat) : option (vol_env * vol_env) :=
  match md with Some (i, e0, e) => if decide (i = j) then Some (e0, e) else None | None => None end.
Definition work_of (md : entry) : option vol_env := snd <$> md.

Definition vfollows (m : option (vol_env * vol_env)) (s : athread) (t : thread mutex kernel (list reply)) : Prop :=
  match t with
  | Running held p => vlin p m s (fun s rs => s = (rs, [])) /\ (is_Some m <-> L_vault ∈ held)
  | Finished rs => s = (rs, []) /\ m = None
  | Crashed => False
  end.

(** The kernel [k] of the atomic machine, and the shared one. *)
Definition entered (md : entry) (k : kernel) (n : nat) : Prop :=
  forall i e0 e, md = Some (i, e0, e) -> V = true /\ vault_is e0 k /\ (i < n)%nat.
Record vsimulated (c : config mutex kernel (list reply)) (k : kernel) (ts : list athread) (md : entry) : Prop := {
  vsim_good : good V k;
  vsim_clean : poisoned c = [];
  vsim_shared : shared c = veil (work_of md) k;
  vsim_entry : entered md k (length (pool c));
  vsim_length : length ts = length (pool c);
  vsim_pool : forall j s t, ts !! j = Some s -> pool c !! j = Some t -> vfollows (mode_of md j) s t;
}.

Lemma vsimulated_move c k ts md i s t k' md' :
  vsimulated c k ts md -> good V k' -> entered md' k' (length (pool c)) ->
  (forall j, i <> j -> mode_of md' j = mode_of md j) -> vfollows (mode_of md' i) s t ->
  vsimulated (Config (veil (work_of md') k') [] (<[i := t]> (pool c))) k' (<[i := s]> ts) md'.
Proof.
  intros [_ _ _ _ Hl Hp] Hk He Hm Hf. split; [done|done|done| |cbn [pool]; by rewrite !length_insert|].
  - cbn [pool]. by rewrite length_insert.
  - intros j s' t' Hs Ht. cbn [pool] in Ht. destruct (decide (i = j)) as [<-|Hj].
    + apply list_lookup_insert_Some in Hs as [(_ & <- & _)|[]]; [|done].
      by apply list_lookup_insert_Some in Ht as [(_ & <- & _)|[]].
    + rewrite list_lookup_insert_ne in Hs by done. rewrite list_lookup_insert_ne in Ht by done. rewrite Hm by done. by apply Hp.
Qed.

Lemma entered_same md k k' n : entered md k n -> same_vault k k' -> entered md k' n.
Proof. intros He Hk i e0 e E. destruct (He i e0 e E) as (? & ? & ?). split_and!; [done|by eapply vault_is_same|done]. Qed.
Lemma entered_works md k n : entered md k n -> is_Some (work_of md) -> V = true.
Proof. intros He [w Hw]. destruct md as [[[i e0] e]|]; [|done]. by destruct (He i e0 e eq_refl). Qed.

(** Nobody is at work when the mutex is free. *)
Lemma vault_free c k ts md : vsimulated c k ts md -> L_vault ∉ all_held (pool c) -> md = None.
Proof.
  intros Hsim Hl. destruct md as [[[i e0] e]|]; [exfalso|done].
  destruct (vsim_entry _ _ _ _ Hsim i e0 e eq_refl) as (_ & _ & Hi).
  destruct (lookup_lt_is_Some_2 _ _ Hi) as [t Et]. rewrite <- (vsim_length _ _ _ _ Hsim) in Hi.
  destruct (lookup_lt_is_Some_2 _ _ Hi) as [s Es].
  pose proof (vsim_pool _ _ _ _ Hsim i s t Es Et) as Hf. cbn in Hf. rewrite decide_True in Hf by done.
  destruct t as [held p|rs|]; [|by destruct Hf|done]. destruct Hf as [_ Hh]. apply Hl, elem_of_all_held.
  exists i, (Running held p). split; [done|]. by apply Hh.
Qed.
Lemma mode_entry md i e0 e : mode_of md i = Some (e0, e) -> md = Some (i, e0, e).
Proof. destruct md as [[[j f0] f]|]; [|done]. cbn. case_decide; [|done]. intros [= -> ->]. by subst. Qed.
Lemma mode_other i e0 e j : i <> j -> mode_of (Some (i, e0, e)) j = None.
Proof. intros. cbn. by rewrite decide_False. Qed.

(** A step of the thread at work. *)
Lemma work_step c k ts i e0 e s held p c' :
  vsimulated c k ts (Some (i, e0, e)) -> ts !! i = Some s -> pool c !! i = Some (Running held p) ->
  thread_step i c = Some c' ->
  exists k' ts' md', rtc (astep a h) (k, ts) (k', ts') /\ vsimulated c' k' ts' md'.
Proof.
  intros Hsim Es Ei Hi. pose proof Hsim as [Hg Hcl Hsh He _ Hp]. destruct (He i e0 e eq_refl) as (HV & Hv & Hn).
  pose proof (Hp i s _ Es Ei) as [Hf Hh]. cbn in Hf, Hh, Hsh. rewrite decide_True in Hf, Hh by done.
  unfold thread_step in Hi. rewrite Ei, Hcl, Hsh in Hi.
  destruct p as [rs|l q p|l p|B m f]; cbn in Hf; [done|done|..].
  - destruct Hf as (-> & dn & cl & cs & r & -> & Hx & Hf). destruct (Hx k Hg Hv) as [Ex Hg']. simplify_eq/=.
    exists (put_env e false k), (<[i := (dn ++ [r], cs)]> ts), None. split; [by apply rtc_once, astep_call with cl|].
    apply (vsimulated_move _ _ _ _ _ _ _ _ None Hsim); [done|done| |split; [done|]].
    + intros j Hj. symmetry. by apply mode_other.
    + split; [by intros []|]. by intros [_ []]%elem_of_release.
  - destruct Hf as (b & e' & Hm & Hf). rewrite Hm in Hi. simplify_eq/=.
    exists k, ts, (Some (i, e0, e')). split; [done|]. rewrite <- (list_insert_id ts i s) by done.
    apply (vsimulated_move _ _ _ _ _ _ _ _ (Some (i, e0, e')) Hsim); [done| | |].
    + by intros i' e1 e2 [= <- <- <-].
    + intros j Hj. by rewrite !mode_other by done.
    + cbn. rewrite decide_True by done. split; [done|]. split; [|by eexists]. intros _. by apply Hh; eexists.
Qed.

(** A step of another thread. *)
Lemma other_step c k ts md i s held p c' :
  vsimulated c k ts md -> mode_of md i = None -> ts !! i = Some s -> pool c !! i = Some (Running held p) ->
  thread_step i c = Some c' ->
  exists k' ts' md', rtc (astep a h) (k, ts) (k', ts') /\ vsimulated c' k' ts' md'.
Proof.
  intros Hsim Hmd Es Ei Hi. pose proof Hsim as [Hg Hcl Hsh He _ Hp].
  pose proof (Hp i s _ Es Ei) as [Hf Hh]. rewrite Hmd in Hf, Hh.
  assert (L_vault ∉ held) as Hnh by (intros [w ?]%Hh; done).
  unfold thread_step in Hi. rewrite Ei, Hcl, Hsh in Hi.
  assert (forall s' t k', good V k' -> same_vault k k' -> vfollows None s' t ->
    vsimulated (Config (veil (work_of md) k') [] (<[i := t]> (pool c))) k' (<[i := s']> ts) md) as Hmove.
  { intros s' t k' Hk' Hs Ht. apply vsimulated_move with k md; [done|done|by eapply entered_same|done|by rewrite Hmd]. }
  assert (forall s', rtc (quiet_call a h V) s s' -> rtc (astep a h) (k, ts) (k, <[i := s']> ts)) as Hq
    by (intros; by eapply quiet_asteps).
  destruct p as [rs|l q p|l p|B m f]; destruct Hf as (s' & Hs & Hf); specialize (Hq s' Hs).
  - simplify_eq/=. exists k, (<[i := (rs, [])]> ts), md. split; [done|]. by apply Hmove.
  - destruct (decide (l ∈ all_held (pool c))) as [|Hfree]; [done|]. rewrite decide_False in Hi by apply not_elem_of_nil.
    simplify_eq/=. case_decide as El.
    + subst l. destruct Hf as [HV Hf]. pose proof (vault_free _ _ _ _ Hsim Hfree) as ->.
      rewrite HV in Hg. destruct (vault_is_of k Hg) as [e Hv]. pose proof (kernel_vault _ (proj1 Hg) _ _ (proj1 Hv)) as [_ Hm].
      rewrite <- HV in Hg. exists k, (<[i := s']> ts), (Some (i, e, e)). split; [done|].
      rewrite <- (vault_is_put e k Hv) at 1.
      apply (vsimulated_move _ _ _ _ _ _ _ _ (Some (i, e, e)) Hsim); [done| | |].
      * intros i' e1 e2 [= <- <- <-]. split_and!; [done|done|]. by eapply lookup_lt_Some.
      * intros j Hj. by apply mode_other.
      * cbn. rewrite decide_True by done. split; [by apply Hf|]. split; [intros _; apply elem_of_cons; by left|by eexists].
    + exists k, (<[i := s']> ts), md. split; [done|]. apply Hmove; [done|done|]. split; [done|].
      split; [by intros []|]. by intros [|]%elem_of_cons.
  - simplify_eq/=. exists k, (<[i := s']> ts), md. split; [done|]. destruct Hf as [Hl Hf]. apply Hmove; [done|done|].
    split; [done|]. split; [by intros []|]. by intros [? _]%elem_of_release.
  - pose proof (entered_works _ _ _ He) as Hw. destruct Hf as [Hf|(dn & cl & cs & -> & Hf)].
    + destruct (Hf k _ Hg Hw) as (b & E & Hl). rewrite E in Hi. simplify_eq/=. exists k, (<[i := s']> ts), md.
      split; [done|]. by apply Hmove.
    + destruct (Hf k _ Hg Hw) as (b & r & k' & E & Ex & Hg' & Hsame & Hl). rewrite E in Hi. simplify_eq/=.
      exists k', (<[i := (dn ++ [r], cs)]> ts), md. split; [|by apply Hmove].
      etrans; [exact Hq|]. apply rtc_once.
      pose proof (astep_call a h i k k' (<[i := (dn, cl :: cs)]> ts) dn cl cs r) as Ha.
      rewrite list_insert_insert_eq in Ha. apply Ha; [|done].
      apply list_lookup_insert_eq. by eapply lookup_lt_Some.
Qed.

Lemma vsimulated_step c k ts md c' : vsimulated c k ts md -> step c c' ->
  exists k' ts' md', rtc (astep a h) (k, ts) (k', ts') /\ vsimulated c' k' ts' md'.
Proof.
  intros Hsim [i Hi]. destruct (pool c !! i) as [[held p| |]|] eqn:Ei;
    [|by unfold thread_step in Hi; rewrite Ei in Hi..].
  destruct (lookup_lt_is_Some_2 ts i) as [s Es].
  { rewrite (vsim_length _ _ _ _ Hsim). by eapply lookup_lt_Some. }
  destruct (mode_of md i) as [[e0 e]|] eqn:Em; [|by eapply other_step].
  apply mode_entry in Em as ->. by eapply work_step.
Qed.

Lemma vsimulated_start k css :
  good V k -> Forall steady_thread css -> vsimulated (start k (sc_app a h css)) k (pair [] <$> css) None.
Proof using HOk.
  intros Hk Hcss. split; [done|done|done|done| |]; unfold start, sc_app; cbn [pool]; [by rewrite !length_fmap|].
  intros j s t Hs Ht. rewrite !list_lookup_fmap in *. destruct (css !! j) as [cs|] eqn:E; simplify_eq/=.
  split; [|by split; [intros []|intros ?%elem_of_nil]].
  apply (vlin_thread_of_all cs []). by eapply Forall_lookup_1 in E.
Qed.

Lemma vsimulation k css c :
  good V k -> Forall steady_thread css -> reachable k (sc_app a h css) c ->
  exists k' ts md, rtc (astep a h) (k, pair [] <$> css) (k', ts) /\ vsimulated c k' ts md.
Proof using HOk.
  intros Hk Hcss Hc. refine (rtc_ind_r (R := step) (fun c => exists k' ts md,
    rtc (astep a h) (k, pair [] <$> css) (k', ts) /\ vsimulated c k' ts md) _ _ _ c Hc).
  - exists k, (pair [] <$> css), None. split; [done|]. by apply vsimulated_start.
  - intros c1 c2 _ Hs (k1 & ts & md & Hts & Hsim).
    destruct (vsimulated_step _ _ _ _ _ Hsim Hs) as (k' & ts' & md' & Hts' & Hsim').
    exists k', ts', md'. split; [by etrans|done].
Qed.

Lemma vsimulated_replied c k ts md : vsimulated c k ts md -> Forall2 replied ts (pool c).
Proof.
  intros Hsim. apply Forall2_same_length_lookup. split; [apply (vsim_length _ _ _ _ Hsim)|].
  intros j s t Hs Ht. pose proof (vsim_pool _ _ _ _ Hsim j s t Hs Ht) as Hf. by destruct t as [| |]; [|destruct Hf|].
Qed.
Lemma ended_free {L S A} (ts : list (thread L S A)) l : Forall ended ts -> l ∉ all_held ts.
Proof.
  intros He (i & t & Ht & Hl)%elem_of_all_held. eapply Forall_lookup_1 in He; [|exact Ht].
  destruct t; [done|by apply elem_of_nil in Hl..].
Qed.
End linear.

(** * Linearizability *)

Section theorems.
Context `{HP : Primitives} `{HB : BuildProfile} `{HOk : !PrimitivesOk HP}.

(** [C6] Linearizability at the granularity of system calls: however the operating system
    interleaves the lock operations and single system calls of threads making steady calls
    ([steady_thread]: work on the vault's blocks, the message counter, the epoch, the
    published ciphertext and the message functions, without automatic commit, recovery,
    commit, canary validation, opening or purging a vault), they behave as if every call were made at one instant: the replies are those
    of a run in which the calls are executed one after the other, each thread's in its
    order, and so is the state of the statics and of the disk whenever nobody is inside the
    vault; the root state is at all times.  No thread crashes. *)
Theorem system_calls_linearize a h css k c :
  kernel_ok k -> Forall steady_thread css -> reachable k (sc_app a h css) c ->
  exists k' ts, rtc (astep a h) (k, pair [] <$> css) (k', ts) /\
    (forall j rs, pool c !! j = Some (Finished rs) -> ts !! j = Some (rs, [])) /\ (Crashed ∉ pool c) /\
    k_root (shared c) = k_root k' /\ (L_vault ∉ all_held (pool c) -> shared c = k').
Proof using HOk.
  intros Hk Hcss Hc. destruct (vsimulation a h (has_vault k) k css c) as (k' & ts & md & Hts & Hsim); [done|done|done|].
  pose proof (vsimulated_replied _ _ _ _ _ _ _ Hsim) as Hp. exists k', ts. split_and!; [done|..].
  - intros j rs Hj. by destruct (Forall2_lookup_r _ _ _ _ _ Hp Hj) as (s & Es & ->).
  - intros (j & Hj)%list_elem_of_lookup. by destruct (Forall2_lookup_r _ _ _ _ _ Hp Hj) as (s & _ & []).
  - rewrite (vsim_shared _ _ _ _ _ _ _ Hsim). by destruct (work_of md).
  - intros Hf. rewrite (vsim_shared _ _ _ _ _ _ _ Hsim). by rewrite (vault_free _ _ _ _ _ _ _ Hsim Hf).
Qed.

Lemma steady_invariant a h css k c (I : kernel -> list athread -> Prop) :
  kernel_ok k -> Forall steady_thread css -> reachable k (sc_app a h css) c -> Forall ended (pool c) ->
  step_keeps a h I -> I k (pair [] <$> css) ->
  exists ts, pool c = Finished <$> (fst <$> ts) /\ waiting ts = [] /\ I (shared c) ts.
Proof using HOk.
  intros Hk Hcss Hc He Hstep HI.
  destruct (vsimulation a h (has_vault k) k css c) as (k' & ts & md & Hts & Hsim); [done|done|done|].
  destruct (ended_replies ts (pool c)) as [Hf Hw]; [by eapply vsimulated_replied|done|].
  exists ts. split; [done|]. split; [done|]. rewrite (vsim_shared _ _ _ _ _ _ _ Hsim).
  rewrite (vault_free _ _ _ _ _ _ _ Hsim (ended_free _ _ He)). by eapply astep_invariant.
Qed.
End theorems.

(** * Witness *)

Lemma system_calls_linearize_witness :
  exists c k' ts, reachable vaulted (sc_app (HP := toy) (HB := true) demo_alloc true [[AllocateVaultBlock]; [MsgCounterNext]]) c /\
    rtc (astep (HP := toy) (HB := true) demo_alloc true) (vaulted, [([], [AllocateVaultBlock]); ([], [MsgCounterNext])]) (k', ts) /\
    shared c = k'.
Proof.
  destruct (sc_app_ends (HP := toy) (HB := true) demo_alloc true [[AllocateVaultBlock]; [MsgCounterNext]] vaulted) as (c & Hc & He).
  destruct (system_calls_linearize (HP := toy) (HB := true) demo_alloc true [[AllocateVaultBlock]; [MsgCounterNext]] vaulted c
    vaulted_ok ltac:(by repeat constructor) Hc) as (k' & ts & Hts & _ & _ & _ & Hk).
  exists c, k', ts. split; [exact Hc|]. split; [exact Hts|]. exact (Hk (ended_free _ _ He)).
Defined.
