(* ===== verification/Handouts.v ===== *)
(** What concurrent threads are handed.

    Threads make any steady calls ([VaultLinear]), interleaved at their system calls, and
    take sequence numbers or allocate blocks among them.  [answers] picks out of a thread's
    calls and replies the numbers or blocks it was given: no number is given twice
    ([senders_never_share]) and no block is ([allocators_never_share]). *)
From stdpp Require Import gmap.
From S2P Require Import Prelude Effects Threads Crypto MemoryProtection RootState AntiDos TailPadding MessageCipher Evolution StdFs VolumeLayout VirtualVolume VolumeProofs VolumeBlocks VolumeAlloc VolumeTotal ClockAlign DiskWipe Kernel KernelProofs InitModule Ffi Exports Locks SysCalls Concurrency Interleavings VaultThreads Linear VaultLinear.

(** * Calls and their replies *)

Definition answers {A} (f : call -> reply -> option A) (cs : list call) (rs : list reply) : list A :=
  omap (fun x => f x.1 x.2) (zip cs rs).

(** The number a sender gets, and the block an allocation gets: [u64::MAX] is an error. *)
Definition number_of (c : call) (r : reply) : option Z :=
  match c, r with MsgCounterNext, RNum n => Some n | _, _ => None end.
Definition block_of (c : call) (r : reply) : option Z :=
  match c, r with AllocateVaultBlock, RNum n => if n =? u64_max then None else Some n | _, _ => None end.

Definition is_next (c : call) : bool := match c with MsgCounterNext => true | _ => false end.
(** How many numbers the threads take. *)
Definition taken (cs : list call) : Z := countb is_next cs.

(** The calls of a thread are those it has replies for and those it still makes. *)
Definition on_track (cs : list call) (s : athread) : Prop := exists past, cs = past ++ s.2 /\ length past = length s.1.
Definition given {A} (f : call -> reply -> option A) (css : list (list call)) (ts : list athread) : list A :=
  concat (zip_with (fun cs s => answers f cs s.1) css ts).

Lemma answers_next {A} (f : call -> reply -> option A) cs dn x rest r :
  on_track cs (dn, x :: rest) ->
  on_track cs (dn ++ [r], rest) /\ answers f cs (dn ++ [r]) = answers f cs dn ++ option_list (f x r) /\ x ∈ cs.
Proof.
  intros (past & -> & Hl). cbn in Hl. split_and!.
  - exists (past ++ [x]). cbn [fst snd]. rewrite <- app_assoc, !length_app, Hl. done.
  - cbn [snd]. unfold answers. rewrite <- (app_nil_r dn) at 2. rewrite !zip_with_app, !omap_app by done. cbn.
    rewrite zip_with_nil_r. rewrite app_nil_r. by destruct (f x r).
  - cbn. set_solver.
Qed.

Lemma given_step {A} (f : call -> reply -> option A) css ts i dn x rest r :
  Forall2 on_track css ts -> ts !! i = Some (dn, x :: rest) ->
  Forall2 on_track css (<[i := (dn ++ [r], rest)]> ts) /\
  given f css (<[i := (dn ++ [r], rest)]> ts) ≡ₚ option_list (f x r) ++ given f css ts /\ x ∈ concat css.
Proof.
  intros Hts. revert i. unfold given. induction Hts as [|cs s css ts Hs Hts IH]; intros [|i] Hi; simplify_eq/=.
  - destruct (answers_next f cs dn x rest r Hs) as (H1 & -> & Hx). split; [by constructor|]. split; [|apply elem_of_app; auto].
    by rewrite (Permutation_app_comm (answers f cs dn)), <- app_assoc.
  - destruct (IH i Hi) as (H1 & H2 & H3). split; [by constructor|]. split; [|apply elem_of_app; auto].
    rewrite H2. rewrite !app_assoc. by rewrite (Permutation_app_comm (option_list _)).
Qed.
Lemma given_start {A} (f : call -> reply -> option A) css :
  Forall2 on_track css (pair [] <$> css) /\ given f css (pair [] <$> css) = [].
Proof.
  unfold given. induction css as [|cs css [IH1 IH2]]; [done|]. split; [constructor; [by exists []|done]|].
  cbn. unfold answers at 1. by rewrite zip_with_nil_r.
Qed.
Lemma given_end {A} (f : call -> reply -> option A) css ts :
  given f css ts = concat (zip_with (answers f) css (fst <$> ts)).
Proof. unfold given. by rewrite zip_with_fmap_r. Qed.

Section handouts.
Context `{HP : Primitives} `{HB : BuildProfile} `{HOk : !PrimitivesOk HP}.
Context (a : Z -> bool) (h : bool).

(** * What the calls change *)

(** The calls that do not lock the vault. *)
Definition outside (c : call) : bool :=
  match c with
  | CanarySlotsIntact | GetEpochId | MsgCounterCurrent | DeriveMessageKey _ _ | EncryptMessage _ _ _ _ _ _ _ _
  | DecryptMessage _ _ _ _ _ _ _ _ | ZeroizeKey _ | StripTailPadding _ _ | KemCipherLen | GetKemCipher _
  | EstimatedClockSkew => true
  | _ => false
  end.
Lemma outside_same c k r k' : outside c = true -> exec a h c k = Done r k' -> k' = k.
Proof using HOk.
  intros Hc. destruct c; try discriminate Hc.
  - by intros [= _ <-].
  - intros [= _ <-]. by destruct k as [[]].
  - intros [= _ <-]. by destruct k as [[]].
  - rewrite exec_derive. by intros [= _ <-].
  - by intros [= _ <-].
  - by intros [= _ <-].
  - by intros [= _ <-].
  - destruct (strip_pure a h data out_len) as [r' E]. rewrite E. by intros [= _ <-].
  - intros [= _ <-]. by destruct k as [[]].
  - cbn [exec]. unfold ffi_get_kem_cipher. destruct out as [o|]; [|by intros [= _ <-]].
    destruct (_ =? _); [by intros [= _ <-]|]. unfold mbind, M_bind, zoom. cbn [lget lput evo_lens]. rewrite get_kem_reads.
    destruct (kem_copy _ _) as [n buf]. cbn [fst snd]. destruct (n =? 0); intros [= _ <-]; by destruct k.
  - intros [= _ <-]. by destruct k.
Qed.

(** ** Work on the vault that frees no block *)

Definition grown (ino : Z) (e e' : vol_env) : Prop :=
  exists d', vol_at e' ino d' /\ total_blocks (e_vol e') = total_blocks (e_vol e) /\
    allocated (e_vol e) ⊆ allocated (e_vol e').
Definition grows {A} (m : M vol_env A) : Prop :=
  forall ino e d, vol_at e ino d -> pp m (fun _ => grown ino e) e.

Lemma grown_refl ino e d : vol_at e ino d -> grown ino e e.
Proof. intros Hv. exists d. split_and!; done. Qed.
Lemma grown_same ino e e' d' : vol_at e' ino d' -> e_vol e' = e_vol e -> grown ino e e'.
Proof. intros Hv E. exists d'. rewrite E. split_and!; done. Qed.
Lemma grown_trans ino e e1 e2 : grown ino e e1 -> grown ino e1 e2 -> grown ino e e2.
Proof. intros (d1 & _ & T1 & A1) (d2 & V2 & T2 & A2). exists d2. split_and!; [done|congruence|by etrans]. Qed.

Lemma grows_ret {A} (x : A) : grows (mret x).
Proof. intros ino e d Hv. by eapply pp_ret, grown_refl. Qed.
Lemma grows_bind {A B} (m : M vol_env A) (k : A -> M vol_env B) : grows m -> (forall x, grows (k x)) -> grows (m ≫= k).
Proof.
  intros Hm Hk ino e d Hv. apply pp_bind. eapply pp_mono; [by eapply Hm|]. intros x e1 H1.
  pose proof H1 as (d1 & V1 & _). eapply pp_mono; [by eapply Hk|]. intros y e2 H2. exact (grown_trans _ _ _ _ H1 H2).
Qed.
Lemma grows_result {A B} (m : M vol_env A) (f : A -> B) : grows m -> grows (x ← m; mret (f x)).
Proof. intros Hm. apply grows_bind; [done|]. intros. apply grows_ret. Qed.
Lemma grows_gets {A} (f : vol_env -> A) : grows (gets f).
Proof. intros ino e d Hv. by eapply grown_refl. Qed.
Lemma grows_chk w z : grows (chk_u w z).
Proof. intros ino e d Hv. apply pp_chk_u. intros _. by eapply grown_refl. Qed.
Lemma grows_draw n (k : bytes -> M vol_env Z) :
  (forall b, (0 <= n -> lenZ b = n) -> grows (k b)) -> grows (b ← zoom rng_lens (draw_bytes n); k b).
Proof using HOk.
  intros Hk ino e d Hv. apply pp_bind, pp_zoom. cbn [lget lput rng_lens].
  eapply pp_mono; [|intros b g Hb; exact Hb]. apply (pp_of_wp (draw_bytes n)). eapply wp_done; [reflexivity|]. cbn.
  eapply pp_mono; [apply (Hk _ (fun Hn => fill_len n (e_rng e) Hn) ino (with_erng _ e) d); by apply vol_at_rng|].
  intros x e2 H2. exact H2.
Qed.

Lemma grows_checked {A} i (m : M vol_env (result A)) :
  (forall e, ~ in_data (e_vol e) i -> m e = Done (Err InvalidInput) e) ->
  (forall ino e d, vol_at e ino d -> in_data (e_vol e) i -> wp m (fun _ => grown ino e) e) -> grows m.
Proof.
  intros Herr Hok ino e d Hv. destruct (decide (in_data (e_vol e) i)) as [Hi|Hi]; [by eapply pp_of_wp, Hok|].
  unfold pp. rewrite Herr by done. by eapply grown_refl.
Qed.
Lemma grows_read i : grows (read_block i).
Proof using HOk.
  apply (grows_checked i).
  - intros e Hi. unfold read_block. by rewrite (bind_done _ _ _ _ _ (check_data_block_err e i Hi)).
  - intros ino e d Hv Hi. apply (wp_read_block e ino d); [done..|]. intros r e' ([V _] & Hv' & _) _. by eapply grown_same.
Qed.
Lemma grows_write i p : lenZ p = PAYLOAD_SIZE -> grows (write_block i p).
Proof using HOk.
  intros Hp. apply (grows_checked i).
  - intros e Hi. unfold write_block. by rewrite (bind_done _ _ _ _ _ (check_data_block_err e i Hi)).
  - intros ino e d Hv Hi. apply (wp_write_block e ino d); [done..|]. intros r e' d' (V & Hv' & _) _. by eapply grown_same.
Qed.
Lemma grows_reserve i : grows (reserve_block i).
Proof using HOk.
  intros ino e d Hv. pose proof (wp_reserve e ino d i Hv) as H. unfold wp, pp, run_alloc, mbind, M_bind in *.
  destruct (reserve_block i e) as [r e'| |]; [|done..].
  assert (exists r', refines (OpReserve i) ino d e r' e') as [r' (d' & Hf & Ha & _)] by (destruct r; cbn in H; eauto).
  destruct Hf as ((bm & n & V) & Hv' & _). exists d'. split; [done|]. split; [by rewrite V|].
  rewrite Ha. unfold spec_of, spec_step. case_bool_decide; cbn [snd]; [apply union_subseteq_r|done].
Qed.
Lemma grows_allocate : grows allocate_block.
Proof using HOk.
  intros ino e d Hv. apply pp_of_wp. eapply wp_mono; [apply (wp_allocate e ino d Hv)|].
  intros r e' (d' & Hf & Ha & _). destruct Hf as ((bm & n & V) & Hv' & _). exists d'. split; [done|]. split; [by rewrite V|].
  rewrite Ha. unfold spec_of, spec_step. destruct (List.find _ _); cbn [snd]; [apply union_subseteq_r|done].
Qed.

Lemma grows_read_blocks start idxs out c : grows (read_blocks start idxs out c).
Proof using HOk.
  revert out c. induction idxs as [|i idxs IH]; intros out c; [apply grows_ret|]. cbn [read_blocks].
  apply grows_bind; [apply grows_chk|intros idx]. apply grows_bind; [apply grows_read|].
  intros [buf|err]; [apply IH|apply grows_ret].
Qed.
Lemma grows_write_blocks start idxs data n c :
  lenZ data = n * PAYLOAD_SIZE -> Forall (fun i => 0 <= i < n) idxs -> grows (write_blocks start idxs data c).
Proof using HOk.
  intros Hd Hi. revert c. induction Hi as [|i idxs Hi _ IH]; intros c; [apply grows_ret|]. cbn [write_blocks].
  apply grows_bind; [apply grows_chk|intros idx].
  apply grows_bind; [apply grows_write|intros [u|err]; [apply IH|apply grows_ret]].
  rewrite lenZ_slice by (rewrite ?Hd; unfold PAYLOAD_SIZE, BLOCK_SIZE; nia). unfold PAYLOAD_SIZE. lia.
Qed.
Lemma grows_reserve_all bs : grows (reserve_all bs).
Proof using HOk. induction bs as [|b bs IH]; [apply grows_ret|]. apply grows_bind; [apply grows_reserve|]. intros _. exact IH. Qed.
Lemma grows_write_canaries slots : grows (write_canaries slots).
Proof using HOk.
  induction slots as [|s slots IH]; [apply grows_ret|]. cbn [write_canaries]. apply grows_draw. intros noise Hn.
  apply grows_bind; [apply grows_write|intros [u|err]; [exact IH|apply grows_ret]].
  unfold canary_payload. rewrite !lenZ_app, Hn by done. reflexivity.
Qed.

(** ** The calls on the vault *)

Definition removes (c : call) : bool := match c with FreeVaultBlock _ | SecureEraseBlock _ => true | _ => false end.

Lemma vault_call c : call_ok c -> steady_call c -> outside c = false -> is_next c = false ->
  (exists r, forall k, exec a h c k = Done r k) \/
  exists R (d : R) f g, (forall k, exec a h c k = (x ← with_vault_or d f; mret (g x)) k) /\ (removes c = false -> grows f).
Proof using HOk.
  intros Hc [Ha Hp] Ho Hn. destruct c; try discriminate Ho; try discriminate Hn; cbn [atomic_call call_ok] in *;
    try (lazymatch type of Ha with False => destruct Ha end); try (lazymatch type of Hp with False => destruct Hp end); cbn [exec].
  - unfold read_vault_blocks. destruct out as [out|]; [|left; by eexists]. destruct (n =? 0); [left; by eexists|right].
    eexists _, _, _, (fun x => RMem x.1 (Some x.2)). split; [intros k; by rewrite bind_assoc|]. intros _. apply grows_read_blocks.
  - unfold num, write_vault_blocks. destruct data as [data|]; [|left; by eexists]. destruct (n =? 0); [left; by eexists|right].
    eexists _, _, _, _. split; [done|]. intros _. destruct Hc as (_ & Hu & Hd). eapply grows_write_blocks; [by apply Hd|].
    apply Forall_forall. intros i Hi%elem_of_seqZ. lia.
  - right. eexists _, _, _, RNum. split; [done|]. intros _. apply grows_result, grows_allocate.
  - right. eexists _, _, _, RNum. split; [done|]. discriminate.
  - right. eexists _, _, _, RNum. split; [done|]. discriminate.
  - right. eexists _, _, _, RNum. split; [done|]. intros _. apply grows_result, grows_ret.
  - right. eexists _, _, _, RNum. split; [done|]. intros _. apply grows_gets.
  - right. eexists _, _, _, RNum. split; [done|]. intros _. apply grows_gets.
  - right. eexists _, _, _, RNum. split; [done|]. intros _. apply grows_bind; [apply grows_reserve_all|]. intros _. apply grows_write_canaries.
  - unfold load_id_stamp, read_id_stamp. destruct out as [o|]; [|left; by eexists]. destruct (_ <? _); [left; by eexists|right].
    eexists _, _, _, (fun r => if negb (r.1 =? 0) then RMem 1 (Some o) else RMem 0 (Some (splice 0 (takeZ 32 r.2) o))).
    split; [intros k; rewrite !bind_assoc; apply bind_ext; intros r k'; by destruct (negb _)|].
    intros _. apply grows_result, grows_read.
Qed.

(** Only [msg_counter_next] changes the root state, and only two calls free blocks. *)
Lemma steady_root c k r k' :
  call_ok c -> steady_call c -> is_next c = false -> exec a h c k = Done r k' -> k_root k' = k_root k.
Proof using HOk.
  intros Hc Hs Hn Hx. destruct (outside c) eqn:Ho; [by rewrite (outside_same _ _ _ _ Ho Hx)|].
  destruct (vault_call c Hc Hs Ho Hn) as [[r' E]|(R & d & f & g & E & _)]; rewrite E in Hx; [by simplify_eq|].
  revert Hx. unfold mbind, M_bind, with_vault_or. destruct (VFS k) as [[v []]|]; [by intros [= _ <-]| |by intros [= _ <-]].
  by destruct (f _); intros [= _ <-].
Qed.

Definition vault_grown (ino : Z) (v : VirtualVolume) (k : kernel) : Prop :=
  exists v' d', VFS k = Some (v', false) /\ vol_at (env_of v' k) ino d' /\
    total_blocks v' = total_blocks v /\ allocated v ⊆ allocated v'.
Lemma next_same k r k' : exec a h MsgCounterNext k = Done r k' -> same_vault k k'.
Proof. rewrite exec_next. by intros [= _ <-]. Qed.
Lemma steady_grows c k v ino d r k' :
  call_ok c -> steady_call c -> removes c = false -> VFS k = Some (v, false) -> vol_at (env_of v k) ino d ->
  exec a h c k = Done r k' -> vault_grown ino v k'.
Proof using HOk.
  intros Hc Hs Hr Hv Hat Hx.
  assert (forall k', same_vault k k' -> vault_grown ino v k') as Hsame.
  { intros k1 (E1 & E2 & E3). exists v, d. unfold env_of. rewrite E1, E2, E3. split_and!; done. }
  destruct (is_next c) eqn:En; [destruct c; try discriminate En; by eapply Hsame, next_same|].
  destruct (outside c) eqn:Ho; [rewrite (outside_same _ _ _ _ Ho Hx); by apply Hsame|].
  destruct (vault_call c Hc Hs Ho En) as [[r' E]|(R & dd & f & g & E & Hf)]; rewrite E in Hx; [simplify_eq; by apply Hsame|].
  specialize (Hf Hr ino (env_of v k) d Hat). revert Hx Hf. unfold pp, mbind, M_bind, with_vault_or. rewrite Hv.
  destruct (f (env_of v k)) as [x e1| |]; [|done..]. intros [= _ <-] (d' & Hv' & HT & HA).
  exists (e_vol e1), d'. rewrite env_put. split_and!; done.
Qed.

(** * Numbers *)

(** The numbers given so far are those from [c0] to the counter. *)
Definition numbers_handed (css : list (list call)) (c0 total : Z) (k : kernel) (ts : list athread) : Prop :=
  Forall2 on_track css ts /\ given number_of css ts ≡ₚ seqZ c0 (msg_counter (k_root k) - c0) /\
  c0 <= msg_counter (k_root k) /\ msg_counter (k_root k) + taken (waiting ts) = c0 + total.

Lemma waiting_start css : waiting (pair [] <$> css) = concat css.
Proof. unfold waiting. induction css as [|cs css IH]; [done|]. cbn. by f_equal. Qed.

Lemma numbers_handed_step css c0 total :
  Forall steady_thread css -> 0 <= c0 -> c0 + total < 2 ^ 64 -> step_keeps a h (numbers_handed css c0 total).
Proof using HOk.
  intros Hcss Hc0 Hmax k1 ts i dn x cs r k2 (Ht & Hg & Hle & Hlen) Hi Hx.
  destruct (given_step number_of css ts i dn x cs r Ht Hi) as (Ht' & Hg' & Hin).
  destruct (handed_step ts i dn x cs r Hi) as [_ E2].
  pose proof (countb_bounds is_next (waiting (<[i:=(dn ++ [r], cs)]> ts))).
  unfold numbers_handed, taken in *. rewrite (countb_perm is_next _ _ E2) in Hlen. cbn [countb] in Hlen.
  split; [done|]. destruct (is_next x) eqn:En.
  - destruct x; try discriminate En. rewrite exec_next in Hx. injection Hx as <- <-.
    cbn [k_root put_root k_evo with_k_evo ev_root with_root msg_counter with_counter]. fold (k_root k1).
    rewrite Z.mod_small by lia. split_and!; [|lia|lia]. rewrite Hg', Hg. cbn [number_of option_list].
    replace (msg_counter (k_root k1) + 1 - c0) with (msg_counter (k_root k1) - c0 + 1) by lia.
    rewrite seqZ_app, Permutation_app_comm by lia.
    by replace (c0 + (msg_counter (k_root k1) - c0)) with (msg_counter (k_root k1)) by lia.
  - apply Forall_concat in Hcss. eapply Forall_forall in Hcss as [Hok Hst]; [|exact Hin]. rewrite (steady_root x k1 r k2 Hok Hst En Hx).
    split_and!; [|done|lia]. rewrite Hg', Hg. by destruct x.
Qed.

Lemma numbers_handed_start css k : numbers_handed css (msg_counter (k_root k)) (taken (concat css)) k (pair [] <$> css).
Proof.
  destruct (given_start number_of css) as [Ht Hg]. split; [done|]. rewrite Hg, waiting_start, Z.sub_diag. split_and!; [done|lia|lia].
Qed.

(** * Blocks *)

(** The blocks given so far, of a vault that was [v] at the start. *)
Definition blocks_handed (css : list (list call)) (v : VirtualVolume) (ino : Z) (k : kernel) (ts : list athread) : Prop :=
  Forall2 on_track css ts /\
  exists v1 d1, VFS k = Some (v1, false) /\ vol_at (env_of v1 k) ino d1 /\
    total_blocks v1 = total_blocks v /\ allocated v ⊆ allocated v1 /\ NoDup (given block_of css ts) /\
    forall i, i ∈ given block_of css ts -> in_data v i /\ (i ∉ allocated v) /\ i ∈ allocated v1.
(** Threads that free no block. *)
Definition keeping_thread (cs : list call) : Prop :=
  Forall (fun c => call_ok c /\ steady_call c /\ removes c = false) cs.

(** A call gives at most one block, a free one, and takes none back. *)
Lemma exec_block x k v ino d r k' :
  call_ok x -> steady_call x -> removes x = false -> VFS k = Some (v, false) -> vol_at (env_of v k) ino d ->
  exec a h x k = Done r k' ->
  exists v' d', VFS k' = Some (v', false) /\ vol_at (env_of v' k') ino d' /\
    total_blocks v' = total_blocks v /\ allocated v ⊆ allocated v' /\
    forall i, block_of x r = Some i -> in_data v i /\ (i ∉ allocated v) /\ i ∈ allocated v'.
Proof using HOk.
  intros Hc Hs Hr Hv Hat Hx.
  assert (x = AllocateVaultBlock \/ forall i, block_of x r <> Some i) as [->|Hn] by (destruct x; auto).
  - destruct (exec_allocate a h k v ino d r k' Hv Hat Hx) as (v' & d' & Hv' & Hat' & HT & HA & Hb).
    exists v', d'. split_and!; [done..|]. intros i Hi. apply Hb. unfold blocks_of. cbn.
    destruct r; try discriminate Hi. cbn in Hi. by destruct (_ =? _); simplify_eq.
  - destruct (steady_grows x k v ino d r k' Hc Hs Hr Hv Hat Hx) as (v' & d' & Hv' & Hat' & HT & HA).
    exists v', d'. split_and!; [done..|]. intros i Hi. by destruct (Hn i).
Qed.

Lemma blocks_handed_step css v ino : Forall keeping_thread css -> step_keeps a h (blocks_handed css v ino).
Proof using HOk.
  intros Hcss k1 ts i dn x cs r k2 (Ht & v1 & d1 & Hv1 & Hat1 & Ht1 & Hsub & Hnd & Hall) Hi Hx.
  destruct (given_step block_of css ts i dn x cs r Ht Hi) as (Ht' & Hg & Hin). split; [done|].
  apply Forall_concat in Hcss. eapply Forall_forall in Hcss as (Hok & Hst & Hr); [|exact Hin].
  destruct (exec_block x k1 v1 ino d1 r k2 Hok Hst Hr Hv1 Hat1 Hx) as (v2 & d2 & Hv2 & Hat2 & Ht2 & Hsub2 & Hb).
  exists v2, d2. split_and!; [done|done|congruence|by etrans|..].
  - rewrite Hg. destruct (block_of x r) as [j|] eqn:Ej; [|done]. apply NoDup_cons. split; [|done].
    intros Hj. apply Hall in Hj as (_ & _ & Hj). by apply (Hb j eq_refl).
  - intros j. rewrite Hg, elem_of_app. intros [Hj|Hj].
    + destruct (block_of x r) as [j'|] eqn:Ej; [|by apply elem_of_nil in Hj]. apply list_elem_of_singleton in Hj as ->.
      destruct (Hb j' eq_refl) as (H1 & H2 & H3). split_and!; [unfold in_data in *; lia|by intros ?%Hsub|done].
    + destruct (Hall j Hj) as (H1 & H2 & H3). split_and!; [done..|by apply Hsub2].
Qed.

(** * Nothing is given twice *)

(** [C14] Concurrent senders never get the same sequence number: when any number of threads
    make any steady calls, on the vault, the counter and messages, whatever the interleaving
    of their system calls, the sequence numbers they get together are exactly the next
    ones, each once. *)
Theorem senders_never_share css k c :
  kernel_ok k -> Forall steady_thread css -> msg_counter (k_root k) + taken (concat css) < 2 ^ 64 ->
  reachable k (sc_app a h css) c -> Forall ended (pool c) ->
  exists rss, pool c = Finished <$> rss /\
    concat (zip_with (answers number_of) css rss) ≡ₚ seqZ (msg_counter (k_root k)) (taken (concat css)).
Proof using HOk.
  intros Hk Hcss Hmax Hc He. pose proof (counter_range _ (evo_root_ok _ (kernel_evo _ Hk))) as [Hc0 _].
  destruct (steady_invariant a h css k c (numbers_handed css (msg_counter (k_root k)) (taken (concat css))))
    as (ts & Hp & Hw & _ & Hg & _ & Hlen); [done..|by apply numbers_handed_step|apply numbers_handed_start|].
  exists (fst <$> ts). split; [done|]. rewrite <- given_end, Hg. rewrite Hw in Hlen. unfold taken at 1 in Hlen. cbn [countb] in Hlen.
  by replace (msg_counter (k_root (shared c)) - msg_counter (k_root k)) with (taken (concat css)) by lia.
Qed.

(** [C13] Concurrent allocations never share a block: when any number of threads allocate from
    one vault while they read, write, touch and count, and free nothing, then whatever the
    interleaving of their system calls and under any I/O errors, the blocks they get
    together are pairwise distinct; each was free before, is a data block, and is allocated
    afterwards. *)
Theorem allocators_never_share css k v ino d c :
  kernel_ok k -> VFS k = Some (v, false) -> vol_at (env_of v k) ino d -> Forall keeping_thread css ->
  reachable k (sc_app a h css) c -> Forall ended (pool c) ->
  exists rss v', pool c = Finished <$> rss /\ VFS (shared c) = Some (v', false) /\
    NoDup (concat (zip_with (answers block_of) css rss)) /\
    forall i, i ∈ concat (zip_with (answers block_of) css rss) ->
      in_data v i /\ (i ∉ allocated v) /\ i ∈ allocated v'.
Proof using HOk.
  intros Hk Hv Hat Hcss Hc He.
  destruct (steady_invariant a h css k c (blocks_handed css v ino))
    as (ts & Hp & _ & _ & v1 & d1 & Hv1 & _ & _ & _ & Hnd & Hall); [done| |done|done|by apply blocks_handed_step| |].
  - eapply Forall_impl; [exact Hcss|]. intros cs Hcs. eapply Forall_impl; [exact Hcs|]. by intros x (? & ? & _).
  - destruct (given_start block_of css) as [Ht Hg]. split; [done|]. exists v, d. rewrite Hg.
    split_and!; [done..|constructor|]. by intros i ?%elem_of_nil.
  - exists (fst <$> ts), v1. by rewrite <- given_end.
Qed.
End handouts.

(** * Witnesses *)

Definition demo_senders : list (list call) := [[MsgCounterNext; AllocateVaultBlock; MsgCounterNext]; [VaultFreeBlocks; MsgCounterNext]].
Lemma senders_never_share_witness :
  exists c rss, reachable vaulted (sc_app (HP := toy) (HB := true) demo_alloc true demo_senders) c /\
    pool c = Finished <$> rss /\ concat (zip_with (answers number_of) demo_senders rss) ≡ₚ [1; 2; 3].
Proof.
  destruct (sc_app_ends (HP := toy) (HB := true) demo_alloc true demo_senders vaulted) as (c & Hc & He).
  destruct (senders_never_share (HP := toy) (HB := true) demo_alloc true demo_senders vaulted c
    vaulted_ok ltac:(by repeat constructor) eq_refl Hc He) as (rss & Hp & Hrs).
  exists c, rss. split; [exact Hc|]. split; [exact Hp|exact Hrs].
Defined.

Definition demo_allocators : list (list call) := [[AllocateVaultBlock; InitCanarySlots; AllocateVaultBlock]; [MsgCounterNext; AllocateVaultBlock]].
Lemma allocators_never_share_witness :
  exists c rss, reachable vaulted (sc_app (HP := toy) (HB := true) demo_alloc true demo_allocators) c /\
    pool c = Finished <$> rss /\ NoDup (concat (zip_with (answers block_of) demo_allocators rss)).
Proof.
  destruct (sc_app_ends (HP := toy) (HB := true) demo_alloc true demo_allocators vaulted) as (c & Hc & He).
  destruct (allocators_never_share (HP := toy) (HB := true) demo_alloc true demo_allocators vaulted (volume_of 4) 1 (volume_data 4) c
    vaulted_ok eq_refl (volume_at (5 : @rng toy) 4 ltac:(vlia)) ltac:(by repeat constructor) Hc He) as (rss & v' & Hp & _ & Hnd & _).
  exists c, rss. split; [exact Hc|]. split; [exact Hp|exact Hnd].
Defined.
