(* ===== verification/UnitTests.v ===== *)
(** The crate's [#[test]] functions on the statics, as programs, and that they pass.

    A failed assertion is a panic, so a test passes from a state when it returns ([passes]).
    The tests of [anti_dos.rs], [evolution.rs], [message_cipher.rs], [tail_padding.rs],
    [clock_align.rs] and [memory_protection.rs] are here, those that use the file system in
    [VaultTests].  They pass for every implementation of the cryptographic crates that
    behaves as documented, from every well-formed state of the statics; where a test
    compares two outputs of a hash or of a key derivation, or expects a tampered message
    to be refused, it passes or has found a collision. *)
From S2P Require Import Prelude Effects Crypto MemoryProtection RootState AntiDos TailPadding MessageCipher Evolution ClockAlign.

(** [assert!], and a test that runs to its end. *)
Definition assert {S} (b : bool) : M S unit := if b then mret tt else panic.
Definition passes {S A} (m : M S A) (s : S) : Prop := wp m (fun _ _ => True) s.

Lemma wp_assert {S} (b : bool) (Q : unit -> S -> Prop) s : b = true -> Q tt s -> wp (assert b) Q s.
Proof. by intros ->. Qed.
Lemma wp_assert_eq {S} (a b : Z) (Q : unit -> S -> Prop) s : a = b -> Q tt s -> wp (assert (a =? b)) Q s.
Proof. intros ->. by rewrite Z.eqb_refl. Qed.
Lemma wp_assert_decide {S} (P : Prop) `{Decision P} (Q : unit -> S -> Prop) s :
  P -> Q tt s -> wp (assert (bool_decide P)) Q s.
Proof. intros HP. by rewrite bool_decide_eq_true_2. Qed.
Lemma wp_unwrap {S A} (o : option A) a (Q : A -> S -> Prop) s : o = Some a -> Q a s -> wp (unwrap o) Q s.
Proof. by intros ->. Qed.

(** * The tests *)

Section tests.
Context `{HP : Primitives} `{HB : BuildProfile}.

(** ** [anti_dos.rs] *)

Definition recover_forward : M root_statics unit :=
  let key := repZ 32 1 in
  set_root_state_curr key;;
  set_epoch_id 0;;
  new_e ← recover_after_loss 5;
  assert (new_e =? 5);;
  e ← read_epoch_id;
  assert (e =? 5);;
  curr ← read_root_state_curr;
  assert (bool_decide (curr <> key)).

Definition noop_if_same : M root_statics unit :=
  set_root_state_curr (repZ 32 2);;
  set_epoch_id 10;;
  r ← recover_after_loss 5;
  assert (r =? 10).

Definition cap_enforced : M root_statics unit :=
  set_root_state_curr (repZ 32 3);;
  set_epoch_id 0;;
  r ← recover_after_loss 200000;
  assert (r =? u32_max).

(** ** [evolution.rs] *)

Definition full_evolution_cycle : M evo_statics unit :=
  let key := repZ 32 1 in
  zoom root_lens (set_root_state_curr key);;
  zoom root_lens (set_epoch_id 0);;
  kp ← generate_bob_keypair (repZ 1568 0) (repZ 3168 0);
  let '(code, pk, sk) := kp in
  assert (code =? 0);;
  set_peer_public_key pk;;
  r ← start_evolution;
  assert (r =? 0);;
  ct_len ← kem_cipher_len;
  assert (0 <? ct_len);;
  got ← get_kem_cipher (repZ ct_len 0);
  let '(n, ct) := got in
  assert (n =? ct_len);;
  pend_before ← zoom root_lens read_root_state_pend;
  assert (bool_decide (is_Some pend_before));;
  r ← apply_peer_kem ct;
  assert (r =? 0);;
  pend_after ← zoom root_lens read_root_state_pend;
  assert (bool_decide (pend_before = pend_after));;
  r ← Evolution.commit_evolution;
  assert (r =? 0);;
  e ← zoom root_lens read_epoch_id;
  assert (e =? 1).

(** ** [message_cipher.rs] *)

(** A random root, as the tests install it. *)
Definition random_root : M evo_statics unit :=
  fun s => let f := fill_bytes 32 (ev_rng s) in
    zoom root_lens (set_root_state_curr f.1) (with_rng f.2 s).

Definition message_roundtrip : M evo_statics unit :=
  random_root;;
  let stamp := repZ 32 1 in
  seq ← zoom root_lens next_msg_seq;
  key ← zoom root_lens (derive_message_key 0 seq);
  let plain := str_bytes "Hello LinkChat !" in
  ct ← unwrap (encrypt plain key stamp true 0 seq 1000);
  pt ← unwrap (decrypt ct key stamp true 0 seq 1000);
  assert (bool_decide (pt = plain));;
  assert (bool_decide (decrypt ct key stamp false 0 seq 1000 = None));;
  assert (bool_decide (decrypt ct key stamp true 1 seq 1000 = None));;
  next ← chk_u 64 (seq + 1);
  assert (bool_decide (decrypt ct key stamp true 0 next 1000 = None)).

Definition msg_seq_monotonic : M root_statics unit :=
  a ← next_msg_seq;
  b ← next_msg_seq;
  assert (a <? b).

Definition key_changes_with_seq : M evo_statics unit :=
  random_root;;
  k1 ← zoom root_lens (derive_message_key 0 1);
  k2 ← zoom root_lens (derive_message_key 0 2);
  assert (bool_decide (k1 <> k2)).

(** ** [tail_padding.rs] *)

Definition padding_roundtrip : M rng unit :=
  let data := str_bytes "encrypted message payload" in
  padded ← add_tail_padding data;
  r ← strip_tail_padding padded;
  stripped ← unwrap r;
  assert (bool_decide (data = stripped)).

Definition length_in_range : M rng unit :=
  let data := str_bytes "test" in
  padded ← add_tail_padding data;
  len_without_pad ← chk_u 64 (lenZ padded - 2);
  b0 ← unwrap (nthZ padded (lenZ padded - 2));
  b1 ← unwrap (nthZ padded (lenZ padded - 1));
  let pad_len := from_le_bytes [b0; b1] in
  assert ((16 <=? pad_len) && (pad_len <=? 512));;
  assert (lenZ data + pad_len =? len_without_pad).

(** ** [clock_align.rs] *)

(** [buf.push] for each of the values. *)
Definition pushes (r : SkewRingBuffer) (xs : list Z) : option SkewRingBuffer :=
  foldl (fun r x => r ← r; push r x) (Some r) xs.

Definition ring_buffer_push_and_median {S} : M S unit :=
  let buf := SkewRingBuffer_new in
  m ← median buf;
  assert (m =? 0);;
  buf ← unwrap (pushes buf [5; 10; 15]);
  m ← median buf;
  assert (m =? 10).

Definition ring_buffer_median_even_count {S} : M S unit :=
  buf ← unwrap (pushes SkewRingBuffer_new [10; 20]);
  m ← median buf;
  assert (m =? 15).

Definition ring_buffer_wraps_correctly {S} : M S unit :=
  buf ← unwrap (pushes SkewRingBuffer_new (seqZ 0 (DELTA_HISTORY_SIZE + 4)));
  assert (count buf =? DELTA_HISTORY_SIZE);;
  sorted ← unwrap (sorted_entries buf);
  assert (lenZ sorted =? DELTA_HISTORY_SIZE);;
  x ← unwrap (nthZ sorted 0);
  assert (x =? 4).

(** The two readings of the clock are arguments. *)
Definition monotonic_nanos_increases {S} (secs nanos secs' nanos' : Z) : M S unit :=
  a ← monotonic_nanos secs nanos;
  b ← monotonic_nanos secs' nanos';
  assert (a <? b).

(** ** [memory_protection.rs] *)

(** The memory handed back at the end of the inner scope. *)
Definition secure_buffer_zeroizes_on_drop {S} : M S bytes :=
  buf ← write_mut (from_vec (repZ 64 170)) 0 66;
  mret (drop_buffer buf).

Definition secure_buffer_deref_works {S} : M S unit :=
  let buf := from_vec [1; 2; 3] in
  assert (bool_decide (deref buf = [1; 2; 3])).

Definition clear_resets_buffer {S} : M S unit :=
  let buf := from_vec (repZ 32 255) in
  let buf := (clear buf).2 in
  assert (is_empty buf).
End tests.

(** * They pass *)

(** The next statement evaluates, or its assertion holds. *)
Ltac exec := apply wp_bind; eapply wp_done; [reflexivity|]; cbv beta zeta.
Ltac exec_by tac := apply wp_bind; eapply wp_done; [tac|]; cbv beta zeta.
Ltac check tac := apply wp_bind; apply wp_assert; [tac|].

Section pass.
Context `{HP : Primitives} `{HB : BuildProfile} `{HOk : !PrimitivesOk HP}.

Lemma recovery_tests_pass s :
  root_ok s ->
  (passes recover_forward s \/ rolled 5 (repZ 32 1) = repZ 32 1) /\
  passes noop_if_same s /\ passes cap_enforced s.
Proof.
  intros Hs. split_and!.
  - destruct (decide (rolled 5 (repZ 32 1) = repZ 32 1)) as [E|Hne]; [by right|]. left.
    do 2 exec. exec_by ltac:(by apply (recover_eval 5 (RootStatics (repZ 32 1) (root_pend s) 0 (msg_counter s)))).
    check ltac:(done). exec. check ltac:(done). exec. by apply wp_assert_decide.
  - do 2 exec. exec_by ltac:(by apply (recover_eval 5 (RootStatics (repZ 32 2) (root_pend s) 10 (msg_counter s)))).
    by apply wp_assert.
  - do 2 exec. exec_by ltac:(by apply (recover_eval 200000 (RootStatics (repZ 32 3) (root_pend s) 0 (msg_counter s)))).
    by apply wp_assert.
Qed.

Lemma evolution_test_passes s : evo_ok s -> passes full_evolution_cycle s.
Proof.
  intros Hs. unfold passes, full_evolution_cycle. do 2 exec.
  set (s0 := with_root (RootStatics (repZ 32 1) (root_pend (ev_root s)) 0 (msg_counter (ev_root s))) s).
  change (wp ?m ?Q _) with (wp m Q s0).
  destruct (kyber_keypair_len (ev_rng s0)) as [Hp Hk].
  set (kp := kyber_keypair (ev_rng s0)) in *.
  exec_by ltac:(apply generate_bob_keypair_eval). check ltac:(done).
  exec_by ltac:(apply set_peer_public_key_eval).
  set (s2 := with_pk_hash _ _).
  destruct (proj2 (kyber_encapsulate_ok kp.1.1 (ev_rng s2)) Hp) as [[ct ss] E].
  pose proof (kyber_correct (ev_rng s0) (ev_rng s2) kp.1.1 kp.1.2 ct ss (surjective_pairing _) E) as Hdec.
  pose proof (kyber_encapsulate_len _ _ _ _ E) as [Hct _].
  assert (start_evolution s2 = Done 0 (with_kem (Some (from_vec ct)) (pend_set ss (with_rng (kyber_encapsulate kp.1.1 (ev_rng s2)).2 s2)))) as Estart.
  { rewrite start_evolution_eval by apply sha256_len. change (bob_public_key s2) with kp.1.1.
    rewrite decide_False by (intros E0; rewrite E0 in Hp; done).
    rewrite decide_False by (by intros [_ ?]). by rewrite E. }
  exec_by ltac:(exact Estart). check ltac:(done). set (s3 := with_kem _ _).
  exec. change (kem_cipher s3) with (Some (from_vec ct)). cbv iota beta. unfold len. cbn [inner from_vec]. rewrite Hct.
  check ltac:(done). exec_by ltac:(by apply (get_kem_cipher_eval (from_vec ct))). check ltac:(done).
  exec. change (root_pend (ev_root s3)) with (Some (pending_key ss (repZ 32 1))).
  check ltac:(done). set (s4 := lput root_lens _ _).
  assert (apply_peer_kem ct s4 = Done 0 (pend_set ss s4)) as Eapply.
  { rewrite apply_peer_kem_eval. cbv zeta. change (as_slice (bob_keys s4).2) with kp.1.2.
    rewrite decide_False by (intros E0; rewrite E0 in Hk; done). by rewrite Hdec. }
  exec_by ltac:(exact Eapply). check ltac:(done). exec.
  check ltac:(by apply bool_decide_eq_true_2).
  exec_by ltac:(by apply (commit_pending _ (pending_key ss (repZ 32 1)))).
  check ltac:(done). exec. by apply wp_assert.
Qed.

(** A ciphertext of the test message that is also one of a message under the associated
    data [a]: what a tampered header would need. *)
Definition forged (key stamp : bytes) (seq : Z) (a : bytes) : Prop :=
  exists p, aes_gcm_encrypt key (build_nonce 0 1000 seq) a p =
    aes_gcm_encrypt key (build_nonce 0 1000 seq) (build_aad stamp true 0 seq 1000) (str_bytes "Hello LinkChat !").

(** The root the tests draw. *)
Definition drawn (s : evo_statics) : bytes := (fill_bytes 32 (ev_rng s)).1.

Lemma refused_or_forged ct key stamp seq o e q :
  aes_gcm_encrypt key (build_nonce 0 1000 seq) (build_aad stamp true 0 seq 1000) (str_bytes "Hello LinkChat !") = Some ct ->
  decrypt (build_nonce 0 1000 seq ++ ct) key stamp o e q 1000 = None \/
  forged key stamp seq (build_aad stamp o e q 1000).
Proof using HOk.
  intros E. destruct (decrypt _ key stamp o e q 1000) as [p|] eqn:D; [|by left]. right.
  apply decrypt_inv in D as (n & ct' & Ew & Hn & E').
  apply app_inj_len in Ew as [<- <-]; [|by rewrite build_nonce_len]. exists p. congruence.
Qed.

Lemma message_test_passes s :
  root_ok (ev_root s) -> msg_counter (ev_root s) < 2 ^ 64 - 1 ->
  let seq := msg_counter (ev_root s) in
  let key := message_key (drawn s) 0 seq in
  passes message_roundtrip s \/
  forged key (repZ 32 1) seq (build_aad (repZ 32 1) false 0 seq 1000) \/
  forged key (repZ 32 1) seq (build_aad (repZ 32 1) true 1 seq 1000) \/
  forged key (repZ 32 1) seq (build_aad (repZ 32 1) true 0 (seq + 1) 1000).
Proof using HOk.
  intros Hs Hc seq key. pose proof (counter_range _ Hs) as Hu.
  destruct (encrypt_eval (str_bytes "Hello LinkChat !") key (repZ 32 1) true 0 seq 1000) as (ct & E & E' & _);
    [apply message_key_len|done|done|].
  pose proof (decrypt_sealed _ _ _ _ _ _ _ _ _ (build_nonce_len 0 1000 seq) E) as D.
  destruct (refused_or_forged ct key (repZ 32 1) seq false 0 seq E) as [D1|]; [|by auto].
  destruct (refused_or_forged ct key (repZ 32 1) seq true 1 seq E) as [D2|]; [|by auto].
  destruct (refused_or_forged ct key (repZ 32 1) seq true 0 (seq + 1) E) as [D3|]; [|by auto].
  left. unfold passes, message_roundtrip. do 2 exec.
  apply wp_bind. eapply (wp_done _ _ _ key); [apply zoom_done, derive_message_key_eval|]. cbv beta zeta.
  apply wp_bind. eapply wp_unwrap; [exact E'|]. apply wp_bind. eapply wp_unwrap; [exact D|].
  apply wp_bind, wp_assert_decide; [done|]. apply wp_bind, wp_assert_decide; [exact D1|].
  apply wp_bind, wp_assert_decide; [exact D2|]. apply wp_bind.
  apply wp_chk_u; [change (is_u 64 (seq + 1)); unfold is_u in *; lia|]. by apply wp_assert_decide; [exact D3|].
Qed.

Lemma counter_test_passes s : root_ok s -> msg_counter s < 2 ^ 64 - 1 -> passes msg_seq_monotonic s.
Proof.
  intros Hs Hc. pose proof (counter_range _ Hs) as Hu. unfold passes, msg_seq_monotonic. do 2 exec.
  apply wp_assert; [|done]. cbn [msg_counter with_counter]. unfold is_u in Hu.
  rewrite Z.mod_small by lia. apply Z.ltb_lt. lia.
Qed.

Lemma key_test_passes s :
  passes key_changes_with_seq s \/ message_key (drawn s) 0 1 = message_key (drawn s) 0 2.
Proof using HOk.
  destruct (decide (message_key (drawn s) 0 1 = message_key (drawn s) 0 2)) as [E|Hne]; [by right|]. left.
  unfold passes, key_changes_with_seq. exec.
  apply wp_bind. eapply (wp_done _ _ _ (message_key (drawn s) 0 1)); [apply zoom_done, derive_message_key_eval|].
  apply wp_bind. eapply (wp_done _ _ _ (message_key (drawn s) 0 2)); [apply zoom_done, derive_message_key_eval|].
  by apply wp_assert_decide.
Qed.

Lemma padding_tests_pass (r : rng) : passes padding_roundtrip r /\ passes length_in_range r.
Proof using HOk.
  split.
  - unfold passes, padding_roundtrip. cbv zeta.
    destruct (add_tail_padding_eval (str_bytes "encrypted message payload") r) as (noise & r' & E & Hn & _).
    exec_by ltac:(exact E). exec_by ltac:(by apply strip_padded_form). exec. by apply wp_assert_decide.
  - unfold passes, length_in_range. cbv zeta.
    destruct (add_tail_padding_eval (str_bytes "test") r) as (noise & r' & E & Hn & _).
    exec_by ltac:(exact E).
    unfold MIN_PAD, MAX_PAD in Hn.
    pose proof (padded_form_len (str_bytes "test") noise) as Hlen.
    pose proof (padded_trailer (str_bytes "test") noise) as Hnth.
    change (lenZ (str_bytes "test")) with 4 in *. set (n := lenZ noise) in *. rewrite Hlen.
    apply wp_bind, wp_chk_u; [unfold is_u; lia|].
    replace (4 + n + 2 - 2) with (4 + n + 0) by lia. replace (4 + n + 2 - 1) with (4 + n + 1) by lia.
    rewrite !Hnth by lia. do 2 exec.
    change (from_le_bytes [n mod 256; n / 256 mod 256]) with (n mod 256 + 256 * (n / 256 mod 256 + 256 * 0)).
    rewrite from_le_16 by lia. check ltac:(apply andb_true_intro; split; apply Z.leb_le; lia).
    apply wp_assert_eq; [lia|done].
Qed.

Lemma ring_tests_pass {S} (s : S) :
  passes ring_buffer_push_and_median s /\ passes ring_buffer_median_even_count s /\
  passes ring_buffer_wraps_correctly s.
Proof. split_and!; vm_compute; exact I. Qed.

Lemma clock_test_passes {S} secs nanos secs' nanos' (s : S) :
  0 <= secs -> 0 <= nanos < 1000000000 -> 0 <= secs' -> 0 <= nanos' < 1000000000 ->
  secs * 1000000000 + nanos + 1000000 <= secs' * 1000000000 + nanos' < 2 ^ 64 ->
  passes (monotonic_nanos_increases secs nanos secs' nanos') s.
Proof.
  intros H1 H2 H3 H4 H5. unfold passes, monotonic_nanos_increases, monotonic_nanos.
  rewrite !Z.min_l by lia. apply wp_bind, wp_chk_u; [unfold is_u; lia|].
  apply wp_bind, wp_chk_u; [unfold is_u; lia|]. apply wp_assert; [|done]. apply Z.ltb_lt. lia.
Qed.

Lemma buffer_tests_pass {S} (s : S) :
  secure_buffer_zeroizes_on_drop s = Done (repZ 64 0) s /\
  passes secure_buffer_deref_works s /\ passes clear_resets_buffer s.
Proof using HOk.
  split_and!; [|by apply wp_assert_decide|by apply wp_assert].
  unfold secure_buffer_zeroizes_on_drop. step. unfold mret, M_ret, drop_buffer. by rewrite zeroize_zeros.
Qed.

(** [C30] The crate's unit tests on the statics pass from every well-formed state whose message
    counter is below 2^64 - 1 (the counter test takes two numbers), in both build profiles and for every implementation of the cryptographic crates that behaves
    as documented: the recovery tests, the full evolution cycle on one device, the counter,
    padding, ring-buffer and buffer tests.  The tests that compare keys, and the one that
    expects tampered headers to be refused, pass unless the key derivation maps the two
    inputs to one key, or the test's ciphertext is also one for the tampered header. *)
Theorem unit_tests_pass s :
  evo_ok s -> msg_counter (ev_root s) < 2 ^ 64 - 1 ->
  let seq := msg_counter (ev_root s) in
  let key := message_key (drawn s) 0 seq in
  let stamp := repZ 32 1 in
  (passes recover_forward (ev_root s) \/ rolled 5 (repZ 32 1) = repZ 32 1) /\
  passes noop_if_same (ev_root s) /\ passes cap_enforced (ev_root s) /\
  passes full_evolution_cycle s /\
  (passes message_roundtrip s \/ forged key stamp seq (build_aad stamp false 0 seq 1000) \/
   forged key stamp seq (build_aad stamp true 1 seq 1000) \/
   forged key stamp seq (build_aad stamp true 0 (seq + 1) 1000)) /\
  passes msg_seq_monotonic (ev_root s) /\
  (passes key_changes_with_seq s \/ message_key (drawn s) 0 1 = message_key (drawn s) 0 2) /\
  passes padding_roundtrip (ev_rng s) /\ passes length_in_range (ev_rng s) /\
  passes ring_buffer_push_and_median s /\ passes ring_buffer_median_even_count s /\
  passes ring_buffer_wraps_correctly s /\
  secure_buffer_zeroizes_on_drop s = Done (repZ 64 0) s /\
  passes secure_buffer_deref_works s /\ passes clear_resets_buffer s.
Proof using HOk.
  intros Hs Hc seq key stamp. pose proof (evo_root_ok _ Hs) as Hr.
  destruct (recovery_tests_pass _ Hr) as (? & ? & ?). destruct (padding_tests_pass (ev_rng s)).
  destruct (ring_tests_pass s) as (? & ? & ?). destruct (buffer_tests_pass s) as (? & ? & ?).
  split_and!; try assumption; [by apply evolution_test_passes|by apply message_test_passes|
    by apply counter_test_passes|apply key_test_passes].
Qed.
End pass.

Lemma unit_tests_pass_witness : passes (full_evolution_cycle (HP := toy) (HB := true)) (evo_init (HP := toy) (5 : @rng toy)).
Proof.
  destruct (unit_tests_pass (HP := toy) (HB := true) (evo_init (HP := toy) (5 : @rng toy)) (evo_init_ok (HP := toy) _))
    as (_ & _ & _ & H & _); [reflexivity|exact H].
Defined.
