(* ===== verification/VaultTests.v ===== *)
(** The crate's [#[test]] functions that use the file system: those of [virtual_volume.rs]
    and [disk_wipe.rs].

    A test runs over a [disk], a file system and the random generator; a volume it opens is
    dropped where its scope ends ([scoped]).  The tests pass on every healthy file system,
    whatever else is on it, and for every implementation of the cryptographic crates that
    behaves as documented. *)
From stdpp Require Import gmap fin_sets.
From S2P Require Import Prelude Effects Crypto MemoryProtection RootState Evolution StdFs VolumeLayout VirtualVolume VolumeProofs VolumeBlocks VolumeAlloc VolumeOpen VolumeLifecycle VolumeTotal ClockAlign DiskWipe Kernel KernelProofs UnitTests.

(** * The tests *)

Section tests.
Context `{HP : Primitives} `{HB : BuildProfile}.

Record disk := Disk { d_fs : fs; d_rng : rng }.
Definition disk_fs : lens fs disk := Lens d_fs (fun x d => Disk x (d_rng d)).
Definition on_disk {A} (m : M fs A) : M disk A := zoom disk_fs m.

(** [Result::unwrap]. *)
Definition unwrap_ok {S A} (r : result A) : M S A :=
  match r with Ok a => mret a | Err _ => panic end.

(** The volume is dropped at the end of the scope, also when a panic unwinds it. *)
Definition scoped {A} (v : VirtualVolume) (m : M vol_env A) : M disk A := fun t =>
  let back (e : vol_env) := Disk (e_fs e) (e_rng e) in
  match m (VolEnv (d_fs t) (d_rng t) v) with
  | Done a e =>
      match drop_volume e with
      | Done _ e => Done a (back e) | Panicked e => Panicked (back e) | Exited c e => Exited c (back e)
      end
  | Panicked e =>
      match drop_volume e with
      | Done _ e | Panicked e => Panicked (back e) | Exited c e => Exited c (back e)
      end
  | Exited c e => Exited c (back e)
  end.

(** ** [virtual_volume.rs] *)

(** The directory for temporary files is the environment's. *)
Context (temp_dir : string).
(** [Path::join] with a relative name: a separator is put in unless one is there. *)
Definition path_join (dir name : string) : string :=
  match last (String.list_ascii_of_string dir) with
  | None => name
  | Some c => if decide (c = Ascii.ascii_of_nat 47) then dir +:+ name else dir +:+ "/" +:+ name
  end.
Definition temp_vault_path (name : string) : string := path_join temp_dir name.

Definition dummy_master_key : bytes := setZ (setZ (repZ 32 0) 0 66) 31 255.

Definition create_and_reopen_vault : M disk unit :=
  let path := temp_vault_path "_test_create_vault.sec" in
  _ ← on_disk (remove_file path);
  let mk := dummy_master_key in
  r ← on_disk (open_or_create path mk 16); v ← unwrap_ok r;
  scoped v (
    v ← gets e_vol;
    assert (data_blocks v =? 16);;
    assert (free_blocks v =? 16);;
    assert (total_blocks v =? DATA_START_BLOCK + 16));;
  r ← on_disk (open_or_create path mk 0); v ← unwrap_ok r;
  scoped v (
    v ← gets e_vol;
    assert (data_blocks v =? 16));;
  let bad_key := setZ mk 0 (Z.lxor 66 1) in
  r ← on_disk (open_or_create path bad_key 0);
  assert (negb (is_ok r));;
  _ ← on_disk (remove_file path);
  mret tt.

Definition write_and_read_block : M disk unit :=
  let path := temp_vault_path "_test_rw_vault.sec" in
  _ ← on_disk (remove_file path);
  let mk := dummy_master_key in
  r ← on_disk (open_or_create path mk 16); v ← unwrap_ok r;
  scoped v (
    r ← allocate_block; blk ← unwrap_ok r;
    let payload := repZ PAYLOAD_SIZE 171 in
    r ← write_block blk payload; unwrap_ok r;;
    r ← read_block blk; out ← unwrap_ok r;
    assert (bool_decide (out = payload));;
    _ ← io (remove_file path);
    mret tt).

Definition allocate_exhausts_and_frees : M disk unit :=
  let path := temp_vault_path "_test_alloc_vault.sec" in
  _ ← on_disk (remove_file path);
  let mk := dummy_master_key in
  r ← on_disk (open_or_create path mk 4); v ← unwrap_ok r;
  scoped v (
    r ← allocate_block; b0 ← unwrap_ok r;
    r ← allocate_block; b1 ← unwrap_ok r;
    r ← allocate_block; b2 ← unwrap_ok r;
    r ← allocate_block; b3 ← unwrap_ok r;
    v ← gets e_vol;
    assert (free_blocks v =? 0);;
    r ← allocate_block;
    assert (negb (is_ok r));;
    r ← free_block b1; unwrap_ok r;;
    v ← gets e_vol;
    assert (free_blocks v =? 1);;
    r ← allocate_block; b1_again ← unwrap_ok r;
    assert (b1_again =? b1);;
    _ ← io (remove_file path);
    mret tt).

(** The payload written in round [i]. *)
Definition pattern (i : Z) : bytes :=
  setZ (setZ (repZ PAYLOAD_SIZE 0) 0 i) (PAYLOAD_SIZE - 1) ((i * 17) mod 256).

Fixpoint write_patterns (rounds : list Z) (written : list (Z * bytes)) : M vol_env (list (Z * bytes)) :=
  match rounds with
  | [] => mret written
  | i :: rounds =>
      r ← allocate_block; blk ← unwrap_ok r;
      let payload := pattern i in
      r ← write_block blk payload; unwrap_ok r;;
      write_patterns rounds (written ++ [(blk, payload)])
  end.
Fixpoint check_patterns (written : list (Z * bytes)) : M vol_env unit :=
  match written with
  | [] => mret tt
  | (blk, expected) :: written =>
      r ← read_block blk; out ← unwrap_ok r;
      assert (bool_decide (out = expected));;
      check_patterns written
  end.

Definition block_write_then_reread_roundtrip : M disk unit :=
  let path := temp_vault_path "_test_roundtrip_vault.sec" in
  _ ← on_disk (remove_file path);
  let mk := dummy_master_key in
  r ← on_disk (open_or_create path mk 8); v ← unwrap_ok r;
  scoped v (
    written ← write_patterns (seqZ 0 8) [];
    check_patterns written;;
    _ ← io (remove_file path);
    mret tt).

(** ** [disk_wipe.rs] *)

(** [File::create]: an existing file is truncated. *)
Definition file_create (path : string) : M fs (result Z) :=
  on_path path (fun s =>
    match dir s !! path with
    | Some ino => open_ino ino (set_inode ino (Inode [] (now s) (now s) (versions_of s ino)) s)
    | None =>
        let ino := next_id s in
        let s := set_inode ino (Inode [] (now s) (now s) []) s in
        open_ino ino (with_next_id (ino + 1) (with_dir (<[path := ino]> (dir s)) s))
    end).

Definition purge_destroys_file_contents : M fs unit :=
  let test_path := path_join temp_dir "_test_purge_vault.sec" in
  r ← file_create test_path; f ← unwrap_ok r;
  r ← write_all f (repZ 8192 170); unwrap_ok r;;
  r ← sync_all f; unwrap_ok r;;
  close f;;
  r ← metadata test_path; meta ← unwrap_ok r;
  assert (lenZ (i_data meta) =? 8192);;
  _ ← remove_file test_path;
  mret tt.
End tests.

(** * A volume under test *)

Section staged.
Context `{HP : Primitives} `{HB : BuildProfile} `{HOk : !PrimitivesOk HP}.

(** A healthy volume of [n] data blocks with the set [B] allocated, whose blocks hold at
    least [m]. *)
Definition staged (e : vol_env) (ino n : Z) (B : gset Z) (m : gmap Z bytes) : Prop :=
  exists d, vol_at e ino d /\ healthy e ino /\ total_blocks (e_vol e) = DATA_START_BLOCK + n /\
    allocated (e_vol e) = B /\
    forall i p, m !! i = Some p -> in_data (e_vol e) i /\ block_holds (e_vol e) d i = Some p.

Lemma staged_kept e e' d d' ino n B' m :
  total_blocks (e_vol e) = DATA_START_BLOCK + n ->
  (forall i p, m !! i = Some p -> in_data (e_vol e) i /\ block_holds (e_vol e) d i = Some p) ->
  alloc_kept ino d e e' d' -> allocated (e_vol e') = B' -> staged e' ino n B' m.
Proof.
  intros Ht Hm ((bm & k & V) & Hv & Hh & Hd) HB'. exists d'. rewrite V. split_and!; [done..|by rewrite V in HB'|].
  intros i p Hi. destruct (Hm i p Hi) as [Hin Hp]. split; [done|].
  unfold block_holds. rewrite Hd by done. exact Hp.
Qed.

(** The least free block of the region. *)
Definition least_free (n : Z) (B : gset Z) : option Z :=
  List.find (fun i => bool_decide (i ∉ B)) (seqZ DATA_START_BLOCK n).

Lemma staged_allocate e ino n B m (Q : result Z -> vol_env -> Prop) :
  staged e ino n B m ->
  match least_free n B with
  | Some i => forall e', staged e' ino n ({[i]} ∪ B) m -> Q (Ok i) e'
  | None => Q (Err StorageFull) e
  end -> wp allocate_block Q e.
Proof.
  intros (d & Hv & Hh & Ht & HB0 & Hm) HQ.
  eapply wp_mono; [by apply (wp_allocate e ino d)|]. intros r e' (d' & Hf & Ha & Hr & Hsame & _).
  assert (spec_of e OpAllocate = match least_free n B with
    | Some i => (Ok i, {[i]} ∪ B) | None => (Err StorageFull, B) end) as Hs.
  { unfold spec_of, spec_step, least_free. rewrite Ht, HB0.
    replace (DATA_START_BLOCK + n - DATA_START_BLOCK) with n by lia. done. }
  assert (r = (spec_of e OpAllocate).1) as -> by (by destruct Hr as [?|[[_ ?] _]]).
  rewrite Hs in *. destruct (least_free n B) as [i|]; cbn in *.
  - apply HQ. eapply staged_kept; [done..|by apply alloc_kept_frame|done].
  - by rewrite Hsame.
Qed.

Lemma staged_free e ino n B m i (Q : result unit -> vol_env -> Prop) :
  staged e ino n B m -> i ∈ B -> (forall e', staged e' ino n (B ∖ {[i]}) m -> Q (Ok tt) e') ->
  wp (free_block i) Q e.
Proof.
  intros (d & Hv & Hh & Ht & HB0 & Hm) Hi HQ. apply (wp_free_ok e ino d); [done..| |by rewrite HB0].
  intros _ e' d' Hk Ha. apply HQ. eapply staged_kept; [done..|]. by rewrite Ha, HB0.
Qed.

Lemma staged_write e ino n B m i p (Q : result unit -> vol_env -> Prop) :
  staged e ino n B m -> DATA_START_BLOCK <= i < DATA_START_BLOCK + n -> lenZ p = PAYLOAD_SIZE ->
  (forall e', staged e' ino n B (<[i := p]> m) -> Q (Ok tt) e') -> wp (write_block i p) Q e.
Proof.
  intros (d & Hv & Hh & Ht & HB0 & Hm) Hi Hp HQ.
  assert (in_data (e_vol e) i) as Hin by (unfold in_data; lia).
  apply (wp_write_ok (e_vol e) e ino d); [by split_and!|done..|].
  intros e' d' (V & Hv' & Hh') Hb Hother. apply HQ. exists d'. rewrite V. split_and!; [done..|].
  intros j q [[<- <-]|[Hne Hj]]%lookup_insert_Some; [done|]. destruct (Hm j q Hj) as [Hjn Hq].
  split; [done|]. unfold block_holds in *. by rewrite Hother.
Qed.

Lemma staged_read e ino n B m i p (Q : result bytes -> vol_env -> Prop) :
  staged e ino n B m -> m !! i = Some p -> (forall e', staged e' ino n B m -> Q (Ok p) e') ->
  wp (read_block i) Q e.
Proof.
  intros (d & Hv & Hh & Ht & HB0 & Hm) Hi HQ. destruct (Hm i p Hi) as [Hin Hp].
  apply (wp_read_ok (e_vol e) e ino d); [by split_and!|done|]. intros e' (V & Hv' & Hh'). rewrite Hp.
  apply HQ. exists d. by rewrite V.
Qed.

Lemma staged_count e ino n B m : staged e ino n B m -> free_blocks (e_vol e) = n - Z.of_nat (size B).
Proof.
  intros (d & [Hm _ _] & _ & Ht & <- & _). rewrite (free_blocks_size _ Hm), Ht. lia.
Qed.

Lemma wp_unwrap_ok {S A} (a : A) (Q : A -> S -> Prop) s : Q a s -> wp (unwrap_ok (Ok a)) Q s.
Proof. done. Qed.

Lemma wp_remove path s (Q : result unit -> fs -> Prop) :
  quiet s -> has_nul path = false -> (forall r s', dir s' !! path = None -> quiet s' -> Q r s') ->
  wp (remove_file path) Q s.
Proof.
  intros Hq Hn HQ. apply wp_on_path; [congruence|intros [k E]; by rewrite Hq in E|]. intros _. unfold wp. simpl.
  destruct (dir s !! path) eqn:E; apply HQ; try done. apply lookup_delete_eq.
Qed.

Lemma wp_scoped {A} v (m : M vol_env A) (Q : A -> disk -> Prop) t :
  wp m (fun a e => wp drop_volume (fun _ e' => Q a (Disk (e_fs e') (e_rng e'))) e) (VolEnv (d_fs t) (d_rng t) v) ->
  wp (scoped v m) Q t.
Proof.
  unfold wp, scoped. destruct (m _) as [a e|e|c e]; [|done..]. by destruct (drop_volume e).
Qed.

(** The last lines of a test: the file is removed while the volume is still open. *)
Lemma wp_test_end path e (Q : unit -> disk -> Prop) :
  (forall t, Q tt t) ->
  wp (_ ← io (remove_file path); mret tt)
    (fun a e => wp drop_volume (fun _ e' => Q a (Disk (e_fs e') (e_rng e'))) e) e.
Proof.
  intros HQ. apply wp_bind, wp_zoom. cbn [lget lput fs_lens].
  assert (forall s (R : result unit -> fs -> Prop), (forall r s', R r s') -> wp (remove_file path) R s) as Hrm.
  { intros s R HR. apply wp_on_path; [intros; apply HR..|]. intros _. unfold wp. simpl.
    destruct (dir s !! path); apply HR. }
  apply Hrm. intros r s'. apply wp_ret. destruct (drop_volume_total (with_fs s' e)) as (u & e' & E).
  by eapply wp_done.
Qed.

Lemma fresh_staged path key n s g :
  0 <= n <= MAX_DATA_BLOCKS -> lenZ key = 32 -> has_nul path = false -> dir s !! path = None -> quiet s ->
  wp (open_or_create path key n) (fun r s' => exists v ino d, r = Ok v /\
    vault_state (VolEnv s' g v) ino d /\ staged (VolEnv s' g v) ino n ∅ ∅ /\
    master_key v = key /\ vault_path v = path) s.
Proof.
  intros Hn Hk Hnul Hd Hq. apply wp_create_fresh; [done..| |done]. intros s1 s2 K C.
  pose proof (fresh_vault_state path key n s s1 s2 g Hn Hk Hnul Hq K C) as Hvs.
  eexists _, _, _. split; [done|]. split; [done|]. split; [|done].
  exists (fresh_file key n). split_and!; [by apply Hvs|by apply Hvs|done| |by intros i p ?%lookup_empty_Some].
  apply set_eq. intros i. rewrite elem_of_allocated. cbn [e_vol fresh_volume block_bitmap].
  rewrite is_alloc_zeros. split; [by intros [_ ?]|by intros ?%elem_of_empty].
Qed.

(** ** The tests pass *)

Context (temp_dir : string).
Abbreviation tmp := (temp_vault_path temp_dir).

Lemma dummy_key_len : lenZ dummy_master_key = 32.
Proof. done. Qed.

(** The first lines of a test: an old file is removed and a volume created. *)
Lemma wp_test_start {A} path n (k : VirtualVolume -> M disk A) (Q : A -> disk -> Prop) t :
  0 <= n <= MAX_DATA_BLOCKS -> has_nul path = false -> quiet (d_fs t) ->
  (forall v s ino d, vault_state (VolEnv s (d_rng t) v) ino d -> staged (VolEnv s (d_rng t) v) ino n ∅ ∅ ->
     master_key v = dummy_master_key -> vault_path v = path -> wp (k v) Q (Disk s (d_rng t))) ->
  wp (_ ← on_disk (remove_file path); r ← on_disk (open_or_create path dummy_master_key n);
      v ← unwrap_ok r; k v) Q t.
Proof using HOk.
  intros Hn Hnul Hq Hk. apply wp_bind, wp_zoom. apply wp_remove; [done..|]. intros r s1 Hd1 Hq1.
  apply wp_bind, wp_zoom. eapply wp_mono; [by apply (fresh_staged path dummy_master_key n _ (d_rng t))|].
  intros r2 s2 (v & ino & d & -> & Hvs & Hst & Hkey & Hp). apply wp_bind, wp_unwrap_ok. by eapply Hk.
Qed.

Lemma write_read_test_passes t :
  has_nul (tmp "_test_rw_vault.sec") = false -> quiet (d_fs t) -> passes (write_and_read_block temp_dir) t.
Proof using HOk.
  intros Hnul Hq. apply wp_test_start; [vlia|done..|]. intros v s ino d _ Hst _ _. apply wp_scoped.
  apply wp_bind, (staged_allocate _ _ _ _ _ _ Hst). change (least_free 16 ∅) with (Some 9). intros e1 H1.
  apply wp_bind, wp_unwrap_ok. cbv zeta.
  apply wp_bind, (staged_write _ _ _ _ _ 9 _ _ H1); [vlia|by rewrite lenZ_repZ|]. intros e2 H2.
  apply wp_bind, wp_unwrap_ok, wp_bind, (staged_read _ _ _ _ _ 9 (repZ PAYLOAD_SIZE 171) _ H2); [apply lookup_insert_eq|].
  intros e3 H3. apply wp_bind, wp_unwrap_ok, wp_bind, wp_assert_decide; [done|]. by apply (wp_test_end _ _ (fun _ _ => True)).
Qed.

Lemma allocate_test_passes t :
  has_nul (tmp "_test_alloc_vault.sec") = false -> quiet (d_fs t) -> passes (allocate_exhausts_and_frees temp_dir) t.
Proof using HOk.
  intros Hnul Hq. apply wp_test_start; [vlia|done..|]. intros v s ino d _ Hst _ _. apply wp_scoped.
  apply wp_bind, (staged_allocate _ _ _ _ _ _ Hst). change (least_free 4 ∅) with (Some 9). intros e1 H1.
  apply wp_bind, wp_unwrap_ok.
  apply wp_bind, (staged_allocate _ _ _ _ _ _ H1). change (least_free 4 _) with (Some 10). intros e2 H2.
  apply wp_bind, wp_unwrap_ok.
  apply wp_bind, (staged_allocate _ _ _ _ _ _ H2). change (least_free 4 _) with (Some 11). intros e3 H3.
  apply wp_bind, wp_unwrap_ok.
  apply wp_bind, (staged_allocate _ _ _ _ _ _ H3). change (least_free 4 _) with (Some 12). intros e4 H4.
  apply wp_bind, wp_unwrap_ok. exec.
  check ltac:(rewrite (staged_count _ _ _ _ _ H4); reflexivity).
  apply wp_bind, (staged_allocate _ _ _ _ _ _ H4). change (least_free 4 _) with (@None Z).
  check ltac:(done). apply wp_bind, (staged_free _ _ _ _ _ 10 _ H4); [by vm_compute|]. intros e5 H5.
  apply wp_bind, wp_unwrap_ok. exec. check ltac:(rewrite (staged_count _ _ _ _ _ H5); reflexivity).
  apply wp_bind, (staged_allocate _ _ _ _ _ _ H5). change (least_free 4 _) with (Some 10). intros e6 H6.
  apply wp_bind, wp_unwrap_ok. check ltac:(done). by apply (wp_test_end _ _ (fun _ _ => True)).
Qed.

Lemma pattern_len i : lenZ (pattern i) = PAYLOAD_SIZE.
Proof. unfold pattern. by rewrite !lenZ_setZ, lenZ_repZ. Qed.

Lemma check_patterns_pass ino n B m written e (Q : unit -> vol_env -> Prop) :
  staged e ino n B m -> Forall (fun w => m !! w.1 = Some w.2) written ->
  (forall e', staged e' ino n B m -> Q tt e') -> wp (check_patterns written) Q e.
Proof.
  revert e. induction written as [|[blk p] written IH]; intros e H1 Hw HQ; [by apply wp_ret, HQ|].
  apply Forall_cons in Hw as [Hb Hw]. cbn [check_patterns].
  apply wp_bind, (staged_read _ _ _ _ _ blk p _ H1 Hb). intros e2 H2.
  apply wp_bind, wp_unwrap_ok, wp_bind, wp_assert_decide; [done|]. by apply IH.
Qed.

(** Blocks 9 to [8 + j] are taken and hold the first [j] patterns. *)
Definition filled (j : Z) : gset Z := list_to_set (seqZ DATA_START_BLOCK j).
Definition first_patterns (j : Z) : list (Z * bytes) := (fun i => (DATA_START_BLOCK + i, pattern i)) <$> seqZ 0 j.

Lemma seqZ_snoc a j : 0 <= j -> seqZ a (j + 1) = seqZ a j ++ [a + j].
Proof. intros. rewrite seqZ_app by lia. done. Qed.

Lemma least_free_filled n j : 0 <= j < n -> least_free n (filled j) = Some (DATA_START_BLOCK + j).
Proof.
  intros Hj. unfold least_free.
  assert (forall i, i ∉ filled j <-> ~ DATA_START_BLOCK <= i < DATA_START_BLOCK + j) as Hin.
  { intros i. unfold filled. by rewrite elem_of_list_to_set, elem_of_seqZ. }
  destruct (List.find _ _) as [i|] eqn:E.
  - apply find_seqZ_least in E as (Hi & Hna%bool_decide_eq_true_1 & Hleast). f_equal. rewrite Hin in Hna.
    specialize (Hleast (DATA_START_BLOCK + j)). rewrite bool_decide_eq_false, Hin in Hleast. lia.
  - exfalso. apply List.find_none with (x := DATA_START_BLOCK + j) in E; [|apply list_elem_of_In, elem_of_seqZ; lia].
    rewrite bool_decide_eq_false, Hin in E. lia.
Qed.

Lemma write_patterns_staged ino n k : forall j e m (Q : list (Z * bytes) -> vol_env -> Prop),
  0 <= j -> j + Z.of_nat k <= n -> staged e ino n (filled j) m ->
  Forall (fun w => m !! w.1 = Some w.2) (first_patterns j) ->
  (forall m' e', staged e' ino n (filled (j + Z.of_nat k)) m' ->
     Forall (fun w => m' !! w.1 = Some w.2) (first_patterns (j + Z.of_nat k)) ->
     Q (first_patterns (j + Z.of_nat k)) e') ->
  wp (write_patterns (seqZ j (Z.of_nat k)) (first_patterns j)) Q e.
Proof using HOk.
  induction k as [|k IH]; intros j e m Q Hj Hn Hst Hm HQ.
  { rewrite Z.add_0_r in HQ. apply wp_ret. by eapply HQ. }
  rewrite seqZ_cons by lia. cbn [write_patterns].
  apply wp_bind, (staged_allocate _ _ _ _ _ _ Hst). rewrite least_free_filled by lia. intros e1 H1.
  apply wp_bind, wp_unwrap_ok. cbv zeta.
  apply wp_bind, (staged_write _ _ _ _ _ _ _ _ H1); [lia|apply pattern_len|]. intros e2 H2.
  apply wp_bind, wp_unwrap_ok.
  assert (first_patterns (Z.succ j) = first_patterns j ++ [(DATA_START_BLOCK + j, pattern j)]) as Ef.
  { unfold first_patterns. rewrite <- Z.add_1_r, seqZ_snoc by lia. by rewrite fmap_app. }
  rewrite <- Ef. replace (Z.pred (Z.of_nat (S k))) with (Z.of_nat k) by lia.
  replace (j + Z.of_nat (S k)) with (Z.succ j + Z.of_nat k) in HQ by lia.
  apply (IH (Z.succ j) e2 (<[DATA_START_BLOCK + j := pattern j]> m)); [lia|lia| | |done].
  - replace (filled (Z.succ j)) with ({[DATA_START_BLOCK + j]} ∪ filled j); [done|].
    unfold filled. rewrite <- Z.add_1_r, seqZ_snoc, list_to_set_app_L by lia.
    cbn [list_to_set]. by rewrite union_empty_r_L, (comm_L (∪)).
  - rewrite Ef. apply Forall_app. split; [|by repeat constructor; apply lookup_insert_eq].
    apply Forall_forall. intros w Hw. rewrite Forall_forall in Hm. rewrite lookup_insert_ne; [by apply Hm|].
    apply list_elem_of_fmap in Hw as (i & -> & Hi%elem_of_seqZ). cbn [fst]. lia.
Qed.

Lemma roundtrip_test_passes t :
  has_nul (tmp "_test_roundtrip_vault.sec") = false -> quiet (d_fs t) ->
  passes (block_write_then_reread_roundtrip temp_dir) t.
Proof using HOk.
  intros Hnul Hq. apply wp_test_start; [vlia|done..|]. intros v s ino d _ Hst _ _. apply wp_scoped.
  apply wp_bind, (write_patterns_staged ino 8 8 0 _ ∅); [done|done|exact Hst|constructor|].
  intros m e1 H1 Hm. apply wp_bind. eapply check_patterns_pass; [done..|]. intros e2 _.
  by apply (wp_test_end _ _ (fun _ _ => True)).
Qed.

(** A volume in scope, some assertions on it, and its drop. *)
Lemma wp_scope_end v ino d t (m : M vol_env unit) (Q : unit -> disk -> Prop) :
  vault_state (VolEnv (d_fs t) (d_rng t) v) ino d ->
  wp m (fun _ e => e = VolEnv (d_fs t) (d_rng t) v) (VolEnv (d_fs t) (d_rng t) v) ->
  (forall s g, dir s = dir (d_fs t) -> data_of s ino = Some d -> faults s = faults (d_fs t) -> Q tt (Disk s g)) ->
  wp (scoped v m) Q t.
Proof.
  intros [Hv _ _ _] Hm HQ. apply wp_scoped. eapply wp_mono; [exact Hm|]. intros [] e ->.
  apply (wp_drop _ ino d); [done|]. intros e' D I F _ _. by apply HQ.
Qed.

Lemma reopen_test_passes t :
  has_nul (tmp "_test_create_vault.sec") = false -> quiet (d_fs t) ->
  passes (create_and_reopen_vault temp_dir) t \/
  hash_master_key (setZ dummy_master_key 0 67) = hash_master_key dummy_master_key.
Proof using HOk.
  intros Hnul Hq.
  destruct (decide (hash_master_key (setZ dummy_master_key 0 67) = hash_master_key dummy_master_key)) as [E|Hne];
    [by right|left].
  apply (wp_test_start (tmp "_test_create_vault.sec")); [vlia|done..|]. intros v s ino d Hvs Hst Hkey Hpath.
  pose proof (staged_count _ _ _ _ _ Hst) as Hfree. destruct Hst as (_ & _ & _ & Ht & _). cbn [e_vol] in *.
  apply wp_bind. apply (wp_scope_end v ino d); [done| |].
  { exec. unfold data_blocks. cbn [e_vol]. rewrite Ht, Hfree. do 2 (check ltac:(done)). by apply wp_assert. }
  cbn [d_fs d_rng]. intros s1 g1 D1 I1 F1.
  pose proof (reopen_state _ _ _ dummy_master_key 0 s1 g1 Hvs ltac:(vlia) D1 I1 F1) as W. cbn [e_vol] in W.
  rewrite Hpath, Hkey in W. apply wp_bind, wp_zoom. eapply wp_mono; [exact W|]. clear W.
  intros r s2 [Hsame _]. destruct (Hsame eq_refl) as (v2 & -> & Hvs2 & _ & _ & Ht2 & Hk2 & Hp2).
  apply wp_bind, wp_unwrap_ok, wp_bind. apply (wp_scope_end v2 ino d); [done| |].
  { exec. unfold data_blocks. cbn [e_vol]. rewrite Ht2, Ht. by apply wp_assert. }
  cbn [d_fs d_rng disk_fs lput]. intros s3 g3 D3 I3 F3.
  pose proof (reopen_state _ _ _ (setZ dummy_master_key 0 67) 0 s3 g3 Hvs2 ltac:(vlia) D3 I3 F3) as W.
  cbn [e_vol] in W, Hp2, Hk2. rewrite Hp2, Hk2 in W.
  apply wp_bind, wp_zoom. eapply wp_mono; [exact W|]. intros r3 s4 [_ Hbad].
  destruct (Hbad Hne) as [-> _]. check ltac:(done). apply wp_bind, wp_zoom.
  apply wp_on_path; [done..|]. intros _. unfold wp. simpl. by destruct (dir s4 !! _).
Qed.

Lemma has_nul_app a b : has_nul (a +:+ b) = has_nul a || has_nul b.
Proof.
  unfold has_nul, str_bytes. induction a as [|c a IH]; [done|].
  change (String c a +:+ b) with (String c (a +:+ b)). cbn [String.list_ascii_of_string fmap list_fmap existsb].
  by rewrite <- orb_assoc, <- IH.
Qed.

Lemma has_nul_join dir name : has_nul dir = false -> has_nul name = false -> has_nul (path_join dir name) = false.
Proof.
  intros Hd Hn. unfold path_join. destruct (last _) as [c|]; [|done].
  destruct (decide _); by rewrite !has_nul_app, Hd, Hn.
Qed.

Lemma wp_file_create path s (Q : result Z -> fs -> Prop) :
  quiet s -> has_nul path = false ->
  (forall fd ino s', fds s' !! fd = Some (ino, 0) -> data_of s' ino = Some [] -> dir s' !! path = Some ino ->
     quiet s' -> Q (Ok fd) s') ->
  wp (file_create path) Q s.
Proof.
  intros Hq Hn HQ. apply wp_on_path; [congruence|intros [k E]; by rewrite Hq in E|]. intros _. unfold wp. simpl.
  destruct (dir s !! path) as [ino|] eqn:E.
  - apply (HQ _ ino); [apply lookup_insert_eq| |done|done]. unfold data_of. simpl. by rewrite lookup_insert_eq.
  - apply (HQ _ (next_id s)); [apply lookup_insert_eq| |apply lookup_insert_eq|done].
    unfold data_of. simpl. by rewrite lookup_insert_eq.
Qed.

Lemma quiet_only ino s s' : quiet s -> only_changes ino s s' -> quiet s'.
Proof. intros Hq (_ & _ & _ & _ & _ & L & _). unfold quiet. by rewrite L. Qed.

Lemma write_at_nil (d : bytes) : write_at 0 d [] = d.
Proof. unfold write_at. change (takeZ 0 (@nil Z)) with (@nil Z). change (repZ (0 - lenZ (@nil Z)) 0) with (@nil Z).
  rewrite dropZ_all by (rewrite lenZ_nil; pose_lens; lia). simpl. by rewrite app_nil_r.
Qed.

Lemma purge_test_passes s :
  has_nul (path_join temp_dir "_test_purge_vault.sec") = false -> quiet s ->
  passes (purge_destroys_file_contents temp_dir) s.
Proof.
  intros Hn Hq. unfold passes, purge_destroys_file_contents. cbv zeta. set (path := path_join _ _) in *.
  apply wp_bind, wp_file_create; [done..|]. intros fd ino s1 Hfd Hd1 Hp1 Hq1. apply wp_bind, wp_unwrap_ok.
  apply wp_bind, (wp_write_all fd ino _ s1 0 []); [done..| |intros k s2 [x E]; by rewrite Hq1 in E].
  intros a o s2 E2. apply wp_bind, wp_unwrap_ok. rewrite write_at_nil in E2.
  pose proof (fd_update_only fd ino (0 + lenZ (repZ 8192 170)) (Inode (repZ 8192 170) a (clock s1 (tick s1 + 1)) o) s1
    (ino_of_fds _ _ _ _ Hfd)) as C2.
  pose proof (fd_update_open fd ino (0 + lenZ (repZ 8192 170)) (Inode (repZ 8192 170) a (clock s1 (tick s1 + 1)) o) s1
    (ino_of_fds _ _ _ _ Hfd)) as O2. rewrite <- E2 in C2, O2. cbn [i_data] in O2.
  assert (quiet s2) as Hq2 by (by eapply quiet_only).
  apply wp_bind, (wp_sync_all fd ino s2 (repZ 8192 170)); [done|].
  intros r s3 [->|[_ [k E]]]; [|by rewrite Hq2 in E]. intros _ C3 [_ D3]. apply wp_bind, wp_unwrap_ok. exec.
  assert (quiet s3) as Hq3 by (by eapply quiet_only).
  apply wp_bind, (wp_metadata_present path _ ino (repZ 8192 170)); [|done..|].
  { cbn [dir with_fds]. destruct C3 as (-> & _), C2 as (-> & _). done. }
  intros nd s4 K4 Hnd. apply wp_bind, wp_unwrap_ok. check ltac:(by rewrite Hnd, lenZ_repZ).
  apply wp_bind, wp_on_path; [done..|]. intros _. unfold wp. simpl. by destruct (dir s4 !! _).
Qed.

(** [C29] The crate's tests of the vault and of the disk purge pass on every file system
    without I/O errors, whatever is on it, for every implementation of the cryptographic
    crates that behaves as documented and in both build profiles: a created vault reopens
    with its key, an allocated block reads back what was written, the four blocks of a
    small vault are handed out, refused, freed and reused, and eight patterns read back.
    The reopening test needs the two master keys it uses to have different digests. *)
Theorem vault_tests_pass t :
  quiet (d_fs t) -> has_nul temp_dir = false ->
  (passes (create_and_reopen_vault temp_dir) t \/
   hash_master_key (setZ dummy_master_key 0 67) = hash_master_key dummy_master_key) /\
  passes (write_and_read_block temp_dir) t /\
  passes (allocate_exhausts_and_frees temp_dir) t /\
  passes (block_write_then_reread_roundtrip temp_dir) t /\
  passes (purge_destroys_file_contents temp_dir) (d_fs t).
Proof using HOk.
  intros Hq Hn.
  split_and!; [apply reopen_test_passes|apply write_read_test_passes|apply allocate_test_passes|
    apply roundtrip_test_passes|apply purge_test_passes]; try done; by apply has_nul_join.
Qed.
End staged.

Lemma vault_tests_pass_witness :
  passes (allocate_exhausts_and_frees (HP := toy) (HB := true) "/tmp") (Disk (HP := toy) empty_fs (5 : @rng toy)).
Proof.
  destruct (vault_tests_pass (HP := toy) (HB := true) "/tmp" (Disk (HP := toy) empty_fs (5 : @rng toy)))
    as (_ & _ & H & _); [exact (fun _ => eq_refl)|reflexivity|exact H].
Defined.
